(* ===== verification/_CoqProject ===== *)
-Q . S2P
Prelude.v
StableQueue.v
PriorityQueue.v
Time.v
SeqFuture.v
Scheduler.v
Simulation.v
StepFacts.v
Stepping.v
SimInit.v
Demo.v
SimProperties.v
SimHazards.v
IndexedPriorityQueue.v
IPQSift.v
IPQFacts.v
KeyRegistry.v
Sinks.v
Broadcast.v
Sources.v
Services.v
ServiceFacts.v
Slot.v
ChannelQueue.v
ChannelFacts.v
Bits.v
Counting.v
Task.v
TaskWord.v
TaskInv.v
TaskSteps.v
TaskRun.v
TaskFacts.v
TaskLive.v
TaskSet.v
TaskSetFacts.v
WeakMemory.v
SyncCell.v
SyncCellFacts.v
MailboxQueue.v
Channel.v
MailboxFacts.v
ChannelRefines.v
Bit.v
PoolManager.v
WorkerPool.v
MtExecutor.v
MtFacts.v
MtProperties.v
StExecutor.v
StFacts.v
CachedLock.v
OutputSenders.v
OutputPorts.v
OutputFacts.v
OutputClones.v
Server.v
ServerFacts.v
LocalServer.v
ScopedKey.v
Tracing.v
ActiveTasks.v
ModelTask.v
Ticker.v
SinkOutputs.v
Observables.v
F64.v
Bench.v
Scenario.v
Espresso.v
EspressoFacts.v
Stepper.v
StepperFacts.v
PowerSupply.v
Overheat.v
Telemetry.v
Processor.v
Detector.v
Listener.v
Examples.v
