(* ===== verification/Prelude.v ===== *)
(** * NeXosim: a verification library for the discrete-event simulator

    NeXosim runs a bench of asynchronous models.  Models exchange messages
    through mailboxes and schedule events; the simulator keeps a queue of
    scheduled actions ordered by time and by origin, moves the simulation time
    from one time stamp to the next, and runs the tasks of a time stamp on an
    executor until no task can progress.  A gRPC server exposes a bench to
    remote clients.  This library translates the code under
    src/nexosim/src/ and src/nexosim-util/src/, and the example programs of
    both crates, into definitions and proves what makes it correct.

    ** Files, and the code they model

    - [Prelude]: Rust's [Result], panics and loop fuel as values, 64-bit
      integers, [Ord] as a class with its laws, generic lemmas and tactics.
    - [StableQueue]: the contract of a stable priority queue, a class of
      operations with an abstraction to a sorted list; the scheduler and the
      simulation are proved against it.
    - [PriorityQueue]: util/priority_queue.rs; it discharges the contract.
    - [Time]: time.rs and time/clock.rs: durations, the interface of
      [MonotonicTime] with its documented laws and a concrete instance
      ([TaiTime]), deadlines and clocks.
    - [SeqFuture]: util/seq_futures.rs.
    - [Scheduler]: simulation/scheduler.rs and the scheduling methods of
      model/context.rs: action keys, actions, the global scheduler, its
      invariant [sched_inv], the stronger condition [periods_ok] that no queued
      period is zero, and the relation [sched_op] of everything that holders of
      a scheduler can do to the shared state; scheduling an action that has a
      zero period is one of them.
    - [Simulation]: simulation.rs: the state of a simulation, [run],
      [step_to_next], [step_until], immediate processing and the translation
      of executor errors; the executor is the class [Executor].
    - [StepFacts]: a reference definition of one step on lists (which actions
      are due, how they are grouped, what is scheduled again), and the loops
      of [step_to_next] against it.
    - [Stepping]: the whole step and [step_until], and the law
      [ExecutorLaws]: a run changes the scheduling state only through
      [sched_op].
    - [SimInit]: simulation/sim_init.rs, [add_model] of simulation.rs and
      [add_submodel] of model/context.rs.
    - [Demo]: closed instances used to evaluate the theorems.
    - [SimProperties], [SimHazards]: the properties of the simulation, and
      the places where it leaves its contract.
    - [IndexedPriorityQueue], [IPQSift], [IPQFacts]:
      util/indexed_priority_queue.rs, its sift loops and its correctness.
    - [KeyRegistry]: server/key_registry.rs.
    - [Sinks]: ports/sink.rs and ports/sink/.
    - [Broadcast]: ports/source/broadcaster.rs, ports/output/broadcaster.rs.
    - [Sources]: ports/source.rs, ports/source/sender.rs, registry/.
    - [Services], [ServiceFacts]: server/services.rs and server/services/.
    - [Slot]: util/slot.rs, its two threads interleaved.
    - [ChannelQueue], [ChannelFacts]: channel/queue.rs, producers, consumer
      and closings interleaved.
    - [MailboxQueue], [ChannelRefines]: the specification of that queue that
      the channel uses, and the proof that the queue implements it.
    - [Channel], [MailboxFacts]: channel.rs and the handles of
      simulation/mailbox.rs, senders and receiver interleaved.
    - [Bits], [Counting]: masks of machine words; sums over threads.
    - [Task], [TaskWord], [TaskInv], [TaskSteps], [TaskRun], [TaskFacts],
      [TaskLive]: executor/task.rs and executor/task/: the state word, wakers,
      promise, cancellation token and runnable as interleaved threads, their
      invariant and what follows from it.
    - [TaskSet], [TaskSetFacts]: util/task_set.rs.
    - [WeakMemory], [SyncCell], [SyncCellFacts]: util/sync_cell.rs and
      time/monotonic_time.rs, on a memory whose loads may be stale.
    - [CachedLock]: util/cached_rw_lock.rs.
    - [Bit], [PoolManager], [WorkerPool]: util/bit.rs, util/rng.rs,
      executor/mt_executor/pool_manager.rs and injector.rs.
    - [MtExecutor], [MtFacts], [MtProperties]: executor/mt_executor.rs, the
      executor thread and its workers interleaved.
    - [ActiveTasks]: the cancellation tokens and the drop of the
      multi-threaded executor; [ScopedKey]: macros/scoped_thread_local.rs,
      which it relies on.
    - [StExecutor], [StFacts]: executor/st_executor.rs, an instance of
      [Executor].
    - [OutputSenders], [OutputPorts], [OutputFacts], [OutputClones]:
      ports/output/sender.rs, ports/output/broadcaster.rs, ports/output.rs
      and util/unwrap_or_throw.rs, with clones that share their connections
      through the cached lock.
    - [ModelTask]: the task of a model (simulation.rs, channel.rs) and the
      forms of input methods (ports/input/model_fn.rs).
    - [Server], [ServerFacts]: server/run.rs, concurrent requests on services
      behind mutexes.
    - [LocalServer]: the preparation of the socket in server/run.rs;
      [Tracing]: the time stamps of log records (tracing.rs).
    - [Ticker], [SinkOutputs], [Observables]: the crate under
      src/nexosim-util/src/ (helper_models.rs, observables.rs,
      combinators.rs), on the modelled scheduler and ports.
    - [F64]: IEEE doubles (the binary64 operations of the standard library) and
      the conversions to and from durations that the examples use.
    - [Bench], [Scenario]: a bench of models as an instance of [Executor], in
      which the models run in any order, and the [main] functions that drive a
      bench through [SimInit], [Simulation] and [Scheduler].
    - [Espresso], [EspressoFacts]: examples/espresso_machine.rs, what holds in
      every interleaving and why every run ends.
    - [Stepper], [StepperFacts]: examples/stepper_motor.rs and
      examples/assembly.rs.
    - [PowerSupply]: examples/power_supply.rs; [Overheat], [Telemetry],
      [Processor], [Detector]: the examples uni_requestor.rs,
      replier_adaptor.rs, observables.rs and simulation_driven.rs of the
      utility crate; [Listener]: examples/infinite_loop.rs and
      examples/external_input.rs; [Examples]: the scenarios of the espresso
      machine, the stepper motor and the assembly.

    ** How the code is represented

    State is passed explicitly.  A method that mutates [self] returns the new
    state with its result, in the monad [outcome]: a value, a panic, or fuel
    that ran out.  Fallible code returns [result].  Reference-counted flags
    (action keys) are indices into a store, so that clones alias.  Machine
    integers are [Z] with their bounds where overflow matters (epochs, model
    identifiers, protobuf fields, durations); indices of vectors are [nat]
    and an access out of bounds panics.  Code that takes a mutex for its whole
    duration is one function on the protected state; what can happen between
    two such sections is a step of [sched_op].  [step_until] writes its target
    time after it has released the queue: what other threads schedule in that
    gap is its argument [meanwhile], an arbitrary function on the shared state.
    Theorems about the time that is reached ask for a [quiet_gap], in which
    nothing is scheduled for the target or before; [idle_update_race] shows
    what happens otherwise.  The abort signal that an executor and the task of
    a model read is read where the code reads it and may be set at any moment.
    Lock-free code ([Slot], [ChannelQueue], [Channel], [Task], [TaskSet],
    [CachedLock], [MtExecutor], [SyncCell]) is a step relation on program
    counters, one step for each access to shared memory; undefined behaviour,
    failed assertions and [unreachable!] are explicit outcomes, and ghost
    fields record what the theorems speak about.  An asynchronous method is
    run by the list of its polls: each comes with what the rest of the program
    did before it and with the woken sub-tasks; a list that ends early is a
    future that was dropped.

    Memory ordering: [SyncCell] runs on [WeakMemory], with the orderings of the
    code; [CachedLock] and the first load of a runnable in [Task] may read
    stale values; in the other interleavings an access sees the newest store,
    so that they show the algorithm and not the choice of orderings.

    Crates outside the repository are interfaces: tai_time, the queues of st3,
    slab, async_event, diatomic_waker, multishot, the CBOR coder and the
    user's models.

    Fuel: [step_to_next] gives each of its loops one more iteration than there
    are queued actions, which is shown to be enough when every queued period
    is non-zero ([periods_ok]; a zero period makes the code loop for ever,
    [zero_period_diverges]); [step_until] takes fuel, and the nanoseconds up to
    the deadline plus one are shown to be enough when moreover the models
    schedule no zero period and every run of the executor returns; the
    iteration over the victims of a search takes one step more than there are
    workers, and is shown never to run out; the sift loops take the length
    of the heap, [remove_expired_keys] the number of keys plus one, and both
    are shown never to run out.  The run loop of [StExecutor] takes fuel, and
    [st_run_terminates] shows what is enough.  The benches of the examples
    run with a fuel of 1000 steps for each run of the executor and 1000 steps
    of the simulation, which is enough for their scenarios by evaluation;
    [espresso_run_ends] bounds the steps of the espresso machine in general.

    ** What the theorems show

    - Queues: both priority queues answer every history as a list with stable
      insertion; the indexed one never panics, extracts exactly the pair of a
      live insertion key and rejects a stale one.
    - Scheduling: every branch of the scheduling methods; nothing is ever
      queued at or before the current time; cancellation is permanent.
    - Stepping: [step_to_next] equals its reference definition, with one
      sequential task for each origin in insertion order; reachable
      simulations keep the invariant and time never decreases, as long as
      nothing is scheduled into a gap of [step_until]; under that condition
      [step_until] leaves the time exactly at its deadline, and it ends if no
      period is zero; an error is final.
    - Bench: models are registered under their qualified names, and the
      translation of a model's panic always finds its name.
    - Ports: sinks keep what they promise; a broadcast returns the replies in
      the order of the senders whatever the order of completion, and the
      optimised broadcast of outputs is equivalent to that of sources.
    - Mailboxes: the queue hands out the messages in the order in which pushes
      claimed their positions, loses none when it is closed and never holds
      more than its capacity, as long as the sequence counts of its positions
      have not wrapped (for capacities far below 2^60, about 2^61 messages at
      least).  It implements the specification that the channel uses; the
      channel executes each message once and in order, loses no notification,
      and its message counts are exact; the length of a queue that nobody
      pushes to or pops from is exact; a model executes its messages one
      after the other, each to completion, and after an abort at most one more.  The one-shot slot is memory safe
      and delivers its value once.
    - Tasks: no interleaving of wakers, promise, cancellation and run accesses
      freed memory or runs a future twice at a time; no wake-up is lost; the
      last handle frees the task.
    - Shared state: the task set yields each woken task once and notifies in
      time; a read of the sequence lock that succeeds returns one of the
      written values, and never an older one than before; a cached lock
      returns the newest value that its handle can know of.
    - Executors: every runnable that was submitted is run once, a pool that is
      reported idle has no work left, and only two steps of the pool can panic,
      the conversion of the message count and, with 64 workers, a shift in the
      search for victims; a search visits every other active worker once.  The
      single-threaded executor runs every runnable once or, when it is aborted
      or a task panics, leaves the others in its queue, and keeps the contract
      of [Executor].
    - Outputs: a requestor returns one reply for each connected replier that
      its filter accepts, in order; clones of a port have the same
      connections; an output writes an event to each sink once, in order.
    - Utilities: a bench with a ticker never runs out of events; observable
      states show every change; the replier adaptor forwards every reply and is
      then ready for the next query.
    - Server: conversions round trip; requests keep the invariants; a key that
      is sent back cancels its event once; the controller stops at the
      requested time, if the gap of [step_until] is quiet; the services work on the same bench as long as
      initializations do not overlap; starting the local server removes
      nothing but an old socket.
    - Examples: the [main] functions of the sequential example programs run to
      their end, with all their assertions, on the modelled library; this is
      evaluated on two schedules, and is a test of the models rather than a
      claim about all schedules.  The espresso machine settles
      in a consistent state in every interleaving and every run of it ends; the
      rotor of the stepper motor synchronizes with its driver within two pulses
      from every position and then follows it step by step.
    - Hazards: inputs on which the code does not do what it means to.

    ** What is not modelled

    The generated gRPC code, the transport and the runtime of the server, the
    hooks for benchmarks and model checkers, re-exports, [Debug]
    implementations and the failure of the allocator.  Of the examples that use
    threads, sockets or the wall clock (infinite_loop.rs, external_input.rs,
    simulation_driven.rs) the models are modelled, with one schedule of the
    threads; random numbers are a parameter.  Memory orderings are modelled
    where stated above only. *)

From stdpp Require Import base option list numbers gmap strings sorting.
From Stdlib Require Import ZArith Lia.

(** ** Results, panics and divergence

    [result] is Rust's [Result].  [outcome] is the outcome of running a piece
    of Rust code: it returns a value, it panics (a failed [unwrap], [assert]
    or index, an arithmetic overflow that the code relies on not happening),
    or the fuel given to one of its loops ran out.  [NoFuel] is an artefact of
    the embedding: the termination theorems say which fuel rules it out. *)

Inductive result (T E : Type) : Type :=
| Ok (t : T)
| Err (e : E).
Arguments Ok {T E} t.
Arguments Err {T E} e.

Inductive outcome (A : Type) : Type :=
| Done (a : A)
| Panicked
| NoFuel.
Arguments Done {A} a.
Arguments Panicked {A}.
Arguments NoFuel {A}.

Definition obind {A B : Type} (m : outcome A) (k : A → outcome B) : outcome B :=
  match m with
  | Done a => k a
  | Panicked => Panicked
  | NoFuel => NoFuel
  end.

(** [unwrap]: the [None] case is a panic. *)
Definition unwrap {A : Type} (o : option A) : outcome A :=
  match o with
  | Some a => Done a
  | None => Panicked
  end.

(** [assert!(b)]. *)
Definition rust_assert (b : bool) : outcome unit :=
  if b then Done tt else Panicked.

Definition result_map {T U E : Type} (f : T → U) (r : result T E) : result U E :=
  match r with
  | Ok t => Ok (f t)
  | Err e => Err e
  end.

Definition result_map_err {T E F : Type} (f : E → F) (r : result T E) : result T F :=
  match r with
  | Ok t => Ok t
  | Err e => Err (f e)
  end.

Definition is_ok {T E : Type} (r : result T E) : bool :=
  match r with
  | Ok _ => true
  | Err _ => false
  end.

Declare Scope rust_scope.
Delimit Scope rust_scope with rust.

Notation "'let!' x ':=' m 'in' k" := (obind m (fun x => k))
  (at level 10, x pattern, k at level 200) : rust_scope.
Notation "'let?' x ':=' m 'in' k" :=
  (match m with Ok x => k | Err e => Err e end)
  (at level 10, x pattern, k at level 200) : rust_scope.
Open Scope rust_scope.

Lemma obind_Done {A B} (m : outcome A) (k : A → outcome B) b :
  obind m k = Done b ↔ ∃ a, m = Done a ∧ k a = Done b.
Proof. destruct m; simpl; naive_solver. Qed.

Lemma obind_assoc {A B C} (m : outcome A) (f : A → outcome B) (g : B → outcome C) :
  obind (obind m f) g = obind m (λ a, obind (f a) g).
Proof. by destruct m. Qed.

Lemma unwrap_Done {A} (o : option A) a : unwrap o = Done a ↔ o = Some a.
Proof. destruct o; simpl; naive_solver. Qed.

(** Two computations that return related values, panic together or run out of
    fuel together. *)
Definition orel {A B : Type} (R : A → B → Prop) (m : outcome A) (m' : outcome B) : Prop :=
  match m, m' with
  | Done a, Done b => R a b
  | Panicked, Panicked => True
  | NoFuel, NoFuel => True
  | _, _ => False
  end.

Lemma orel_bind {A B A' B'} (R : A → B → Prop) (R' : A' → B' → Prop)
    (m : outcome A) (m' : outcome B) (k : A → outcome A') (k' : B → outcome B') :
  orel R m m' → (∀ a b, R a b → orel R' (k a) (k' b)) → orel R' (obind m k) (obind m' k').
Proof. destruct m, m'; simpl; naive_solver. Qed.

Lemma orel_mono {A B} (R R' : A → B → Prop) (m : outcome A) (m' : outcome B) :
  orel R m m' → (∀ a b, R a b → R' a b) → orel R' m m'.
Proof. destruct m, m'; simpl; naive_solver. Qed.

Lemma orel_Done_l {A B} (R : A → B → Prop) (a : A) (m' : outcome B) :
  orel R (Done a) m' → ∃ b, m' = Done b ∧ R a b.
Proof. destruct m'; simpl; naive_solver. Qed.

(** ** Machine integers

    The target is a 64-bit one: [usize] and [u64] are integers in
    [0 .. 2^64 - 1].  Wrapping operations reduce modulo [2^64]. *)

Definition u64_modulus : Z := 2 ^ 64.
Definition u64_max : Z := 2 ^ 64 - 1.
Definition wrap64 (z : Z) : Z := z mod u64_modulus.

(** Plain arithmetic on [usize] panics when it overflows. *)
Definition uadd (a b : Z) : outcome Z :=
  if (a + b <? 2 ^ 64)%Z then Done (a + b)%Z else Panicked.
Definition usub (a b : Z) : outcome Z := if (b <=? a)%Z then Done (a - b)%Z else Panicked.

(** ** Rust's [Ord]

    A total order given by a three-way comparison, and its laws. *)

Class Ord (K : Type) := ord_cmp : K → K → comparison.

#[export] Hint Mode Ord ! : typeclass_instances.

Class OrdLaws (K : Type) `{Ord K} := {
  ord_cmp_eq : ∀ x y : K, ord_cmp x y = Eq ↔ x = y;
  ord_cmp_opp : ∀ x y : K, ord_cmp y x = CompOpp (ord_cmp x y);
  ord_cmp_lt_trans : ∀ x y z : K,
    ord_cmp x y = Lt → ord_cmp y z = Lt → ord_cmp x z = Lt;
}.

Definition ord_lt {K : Type} `{Ord K} (x y : K) : Prop := ord_cmp x y = Lt.
Definition ord_le {K : Type} `{Ord K} (x y : K) : Prop := ord_cmp x y ≠ Gt.

Definition ord_ltb {K : Type} `{Ord K} (x y : K) : bool :=
  match ord_cmp x y with Lt => true | _ => false end.
Definition ord_leb {K : Type} `{Ord K} (x y : K) : bool :=
  match ord_cmp x y with Gt => false | _ => true end.

Infix "<ₒ" := ord_lt (at level 70) : rust_scope.
Infix "≤ₒ" := ord_le (at level 70) : rust_scope.
Infix "<?ₒ" := ord_ltb (at level 70) : rust_scope.
Infix "≤?ₒ" := ord_leb (at level 70) : rust_scope.

#[export] Instance ord_lt_dec {K : Type} `{Ord K} (x y : K) : Decision (x <ₒ y).
Proof. unfold ord_lt. solve_decision. Defined.
#[export] Instance ord_le_dec {K : Type} `{Ord K} (x y : K) : Decision (x ≤ₒ y).
Proof. unfold ord_le. solve_decision. Defined.

(** Integers, and Rust's tuples and derived orders: lexicographic. *)
#[export] Instance Z_ord : Ord Z := Z.compare.
#[export] Instance nat_ord : Ord nat := Nat.compare.
#[export] Instance prod_ord {A B : Type} `{Ord A, Ord B} : Ord (A * B) :=
  λ x y, match ord_cmp x.1 y.1 with Eq => ord_cmp x.2 y.2 | c => c end.

#[export] Instance Z_ord_laws : OrdLaws Z.
Proof.
  split; unfold ord_cmp, Z_ord.
  - intros x y. apply Z.compare_eq_iff.
  - intros x y. apply Z.compare_antisym.
  - intros x y z. rewrite !Z.compare_lt_iff. lia.
Qed.

#[export] Instance prod_ord_laws {A B : Type} `{OrdLaws A, OrdLaws B} :
  OrdLaws (A * B).
Proof.
  split; unfold ord_cmp, prod_ord.
  - intros [x1 x2] [y1 y2]; simpl.
    destruct (ord_cmp x1 y1) eqn:E; rewrite ?ord_cmp_eq.
    + apply ord_cmp_eq in E as ->. naive_solver.
    + split; [done|]. intros [= -> ->].
      by rewrite (proj2 (ord_cmp_eq y1 y1) eq_refl) in E.
    + split; [done|]. intros [= -> ->].
      by rewrite (proj2 (ord_cmp_eq y1 y1) eq_refl) in E.
  - intros [x1 x2] [y1 y2]; simpl. rewrite (ord_cmp_opp x1 y1).
    destruct (ord_cmp x1 y1); simpl; auto using ord_cmp_opp.
  - intros [x1 x2] [y1 y2] [z1 z2]; simpl.
    destruct (ord_cmp x1 y1) eqn:E1; try done.
    + apply ord_cmp_eq in E1 as ->.
      destruct (ord_cmp y1 z1); eauto using ord_cmp_lt_trans.
    + intros _. destruct (ord_cmp y1 z1) eqn:E2; try done.
      * apply ord_cmp_eq in E2 as ->. by rewrite E1.
      * by rewrite (ord_cmp_lt_trans _ _ _ E1 E2).
Qed.

Section OrdFacts.
Context {K : Type} `{OrdLaws K}.
Implicit Types x y z : K.

Lemma ord_cmp_refl x : ord_cmp x x = Eq.
Proof. by apply ord_cmp_eq. Qed.

Lemma ord_le_lt_eq x y : x ≤ₒ y ↔ x <ₒ y ∨ x = y.
Proof.
  unfold ord_le, ord_lt. rewrite <-(ord_cmp_eq x y).
  destruct (ord_cmp x y); naive_solver.
Qed.

Lemma ord_nle_lt x y : ¬ (x ≤ₒ y) ↔ y <ₒ x.
Proof.
  unfold ord_le, ord_lt. rewrite (ord_cmp_opp x y).
  destruct (ord_cmp x y); simpl; naive_solver.
Qed.

Lemma ord_nlt_le x y : ¬ (x <ₒ y) ↔ y ≤ₒ x.
Proof.
  unfold ord_le, ord_lt. rewrite (ord_cmp_opp x y).
  destruct (ord_cmp x y); simpl; naive_solver.
Qed.

Lemma ord_lt_irrefl x : ¬ (x <ₒ x).
Proof. unfold ord_lt. by rewrite ord_cmp_refl. Qed.

Lemma ord_lt_trans x y z : x <ₒ y → y <ₒ z → x <ₒ z.
Proof. apply ord_cmp_lt_trans. Qed.

Lemma ord_lt_le x y : x <ₒ y → x ≤ₒ y.
Proof. rewrite ord_le_lt_eq. auto. Qed.

Lemma ord_le_refl x : x ≤ₒ x.
Proof. apply ord_le_lt_eq. auto. Qed.

Lemma ord_le_lt_trans x y z : x ≤ₒ y → y <ₒ z → x <ₒ z.
Proof. rewrite ord_le_lt_eq. intros [?| ->]; eauto using ord_lt_trans. Qed.

Lemma ord_lt_le_trans x y z : x <ₒ y → y ≤ₒ z → x <ₒ z.
Proof. rewrite ord_le_lt_eq. intros ? [?| <-]; eauto using ord_lt_trans. Qed.

Lemma ord_le_trans x y z : x ≤ₒ y → y ≤ₒ z → x ≤ₒ z.
Proof.
  rewrite (ord_le_lt_eq x y). intros [?| ->]; [|done].
  intros. eauto using ord_lt_le, ord_lt_le_trans.
Qed.

Lemma ord_le_total x y : x ≤ₒ y ∨ y ≤ₒ x.
Proof.
  destruct (decide (x ≤ₒ y)) as [|Hn]; [auto|].
  apply ord_nle_lt in Hn. auto using ord_lt_le.
Qed.

Lemma ord_le_antisymm x y : x ≤ₒ y → y ≤ₒ x → x = y.
Proof.
  rewrite (ord_le_lt_eq x y). intros [Hlt|]; [|done].
  intros Hle. by apply ord_nlt_le in Hle.
Qed.

Lemma ord_le_lt_absurd x y : x ≤ₒ y → y <ₒ x → False.
Proof. intros ? ?. by apply (ord_nlt_le y x). Qed.

Lemma ord_ltb_lt x y : (x <?ₒ y) = true ↔ x <ₒ y.
Proof. unfold ord_ltb, ord_lt. by destruct (ord_cmp x y). Qed.

Lemma ord_leb_le x y : (x ≤?ₒ y) = true ↔ x ≤ₒ y.
Proof. unfold ord_leb, ord_le. by destruct (ord_cmp x y). Qed.

Lemma ord_ltb_ge x y : (x <?ₒ y) = false ↔ y ≤ₒ x.
Proof. rewrite <-ord_nlt_le, <-ord_ltb_lt. by destruct (x <?ₒ y). Qed.

Lemma ord_leb_gt x y : (x ≤?ₒ y) = false ↔ y <ₒ x.
Proof. rewrite <-ord_nle_lt, <-ord_leb_le. by destruct (x ≤?ₒ y). Qed.
End OrdFacts.

(** The order of a pair is lexicographic. *)
Lemma prod_lt_iff {A B : Type} `{OrdLaws A, OrdLaws B} (x y : A * B) :
  x <ₒ y ↔ x.1 <ₒ y.1 ∨ (x.1 = y.1 ∧ x.2 <ₒ y.2).
Proof.
  unfold ord_lt. simpl. unfold ord_cmp at 1, prod_ord at 1.
  rewrite <-(ord_cmp_eq x.1 y.1).
  destruct (ord_cmp x.1 y.1) eqn:E; naive_solver.
Qed.

Lemma prod_le_iff {A B : Type} `{OrdLaws A, OrdLaws B} (x y : A * B) :
  x ≤ₒ y ↔ x.1 <ₒ y.1 ∨ (x.1 = y.1 ∧ x.2 ≤ₒ y.2).
Proof.
  rewrite ord_le_lt_eq, prod_lt_iff, (ord_le_lt_eq x.2 y.2).
  destruct x, y; simpl. naive_solver.
Qed.

Lemma prod_le_fst {A B : Type} `{OrdLaws A, OrdLaws B} (x y : A * B) :
  x ≤ₒ y → x.1 ≤ₒ y.1.
Proof. rewrite prod_le_iff, (ord_le_lt_eq x.1 y.1). naive_solver. Qed.

(** ** Lists *)

Lemma filter_all_false {A : Type} (P : A → Prop) `{!∀ x, Decision (P x)} l :
  Forall (λ x, ¬ P x) l → filter P l = [].
Proof.
  induction 1 as [|x l Hx Hl IH]; [done|].
  by rewrite filter_cons, decide_False.
Qed.

Lemma filter_all_true {A : Type} (P : A → Prop) `{!∀ x, Decision (P x)} l :
  Forall P l → filter P l = l.
Proof.
  induction 1 as [|x l Hx Hl IH]; [done|].
  by rewrite filter_cons, decide_True, IH.
Qed.

Lemma Forall_filter_of {A : Type} (P R : A → Prop) `{!∀ x, Decision (P x)} l :
  Forall R l → Forall R (filter P l).
Proof.
  induction 1 as [|x l Hx Hl IH]; [done|].
  rewrite filter_cons. case_decide; auto.
Qed.

Lemma StronglySorted_filter_of {A : Type} (R : A → A → Prop) (P : A → Prop)
    `{!∀ x, Decision (P x)} l :
  StronglySorted R l → StronglySorted R (filter P l).
Proof.
  induction 1 as [|x l Hs IH Hx]; [constructor|].
  rewrite filter_cons. case_decide; [|done].
  constructor; [done|]. by apply Forall_filter_of.
Qed.

(** ** Automation

    The [ord] database closes order goals; [ord_solver] also turns boolean
    comparisons into the propositions they decide. *)

Create HintDb ord.
#[export] Hint Resolve ord_le_refl ord_lt_le ord_le_trans ord_lt_trans
  ord_le_lt_trans ord_lt_le_trans : ord.
#[export] Hint Extern 0 (OrdLaws _) => typeclasses eauto : ord.
#[export] Hint Extern 1 False =>
  match goal with H : ?x <ₒ ?x |- _ => exact (ord_lt_irrefl x H) end : ord.
#[export] Hint Extern 2 False =>
  match goal with
  | H1 : ?x ≤ₒ ?y, H2 : ?y <ₒ ?x |- _ => exact (ord_le_lt_absurd x y H1 H2)
  end : ord.

Ltac ord_simpl :=
  repeat match goal with
  | H : (_ <?ₒ _) = true |- _ => apply ord_ltb_lt in H
  | H : (_ <?ₒ _) = false |- _ => apply ord_ltb_ge in H
  | H : (_ ≤?ₒ _) = true |- _ => apply ord_leb_le in H
  | H : (_ ≤?ₒ _) = false |- _ => apply ord_leb_gt in H
  | H : ¬ (_ ≤ₒ _) |- _ => apply ord_nle_lt in H
  | H : ¬ (_ <ₒ _) |- _ => apply ord_nlt_le in H
  | |- (_ <?ₒ _) = true => apply ord_ltb_lt
  | |- (_ <?ₒ _) = false => apply ord_ltb_ge
  | |- (_ ≤?ₒ _) = true => apply ord_leb_le
  | |- (_ ≤?ₒ _) = false => apply ord_leb_gt
  | |- ¬ (_ ≤ₒ _) => apply ord_nle_lt
  | |- ¬ (_ <ₒ _) => apply ord_nlt_le
  end.
Ltac ord_solver := ord_simpl; eauto with ord; try (exfalso; eauto with ord; fail).

(** Destructs the scrutinee of the first [match] of a hypothesis or goal. *)
Ltac case_in H :=
  match type of H with
  | context [match ?x with _ => _ end] => let E := fresh "E" in destruct x eqn:E
  end.
Ltac inv_done H :=
  repeat (simplify_eq/=; case_in H); simplify_eq/=.
