(* ===== verification/StableQueue.v ===== *)
(** * The contract of a stable priority queue

    What the scheduler and the key registry rely on: a queue of key-value
    pairs behaves as a list sorted by key in which pairs with equal keys stay
    in insertion order.  [StableQueue] states this contract for a concrete
    queue type through an abstraction function; [PriorityQueue.v] and
    [IndexedPriorityQueue.v] discharge it. *)

From stdpp Require Import base option list numbers sorting.
From Stdlib Require Import ZArith Lia.
From S2P Require Import Prelude.

Section Spec.
Context {K V : Type} `{Ord K}.

(** Insertion after every pair whose key is lower or equal. *)
Fixpoint stable_insert (k : K) (v : V) (l : list (K * V)) : list (K * V) :=
  match l with
  | [] => [(k, v)]
  | kv :: l' => if kv.1 ≤?ₒ k then kv :: stable_insert k v l' else (k, v) :: l
  end.

Definition key_le (x y : K * V) : Prop := x.1 ≤ₒ y.1.
End Spec.

(** The interface: operations, their domain ([sq_wf]), the abstraction
    [sq_abs] and the number of insertions made so far [sq_count], which is
    bounded by the width of the insertion epoch. *)
Class StableQueue (Q K V : Type) `{Ord K} := {
  sq_new : Q;
  sq_insert : K → V → Q → outcome Q;
  sq_pull : Q → option (K * V * Q);
  sq_peek : Q → option (K * V);
  sq_abs : Q → list (K * V);
  sq_count : Q → Z;
  sq_wf : Q → Prop;
}.

#[export] Hint Mode StableQueue ! - - - : typeclass_instances.

Class StableQueueLaws (Q K V : Type) `{StableQueue Q K V} := {
  sq_ord :: OrdLaws K;
  sq_new_wf : sq_wf (sq_new : Q);
  sq_new_abs : sq_abs (sq_new : Q) = [];
  sq_new_count : sq_count (sq_new : Q) = 0%Z;
  sq_insert_spec : ∀ (q : Q) k v, sq_wf q →
    if decide (sq_count q = u64_max) then sq_insert k v q = Panicked
    else ∃ q', sq_insert k v q = Done q' ∧ sq_wf q' ∧
           sq_abs q' = stable_insert k v (sq_abs q) ∧
           sq_count q' = (sq_count q + 1)%Z;
  sq_pull_spec : ∀ (q : Q), sq_wf q →
    match sq_abs q with
    | [] => sq_pull q = None
    | kv :: l => ∃ q', sq_pull q = Some (kv, q') ∧ sq_wf q' ∧
                   sq_abs q' = l ∧ sq_count q' = sq_count q
    end;
  sq_peek_spec : ∀ (q : Q), sq_wf q → sq_peek q = head (sq_abs q);
  sq_sorted : ∀ (q : Q), sq_wf q → StronglySorted key_le (sq_abs q);
}.

(** ** Facts on sorted lists of pairs *)

Section Facts.
Context {K V : Type} `{OrdLaws K}.
Implicit Types (l : list (K * V)) (k : K) (v : V).

Lemma stable_insert_perm k v l : stable_insert k v l ≡ₚ (k, v) :: l.
Proof.
  induction l as [|kv l IH]; simpl; [done|].
  destruct (kv.1 ≤?ₒ k); [|done]. rewrite IH. apply Permutation_swap.
Qed.

Lemma stable_insert_elem k v l x :
  x ∈ stable_insert k v l ↔ x = (k, v) ∨ x ∈ l.
Proof. by rewrite stable_insert_perm, elem_of_cons. Qed.

Lemma stable_insert_Forall (P : K * V → Prop) k v l :
  Forall P (stable_insert k v l) ↔ P (k, v) ∧ Forall P l.
Proof. by rewrite stable_insert_perm, Forall_cons. Qed.

Lemma stable_insert_length k v l : length (stable_insert k v l) = S (length l).
Proof. by rewrite (Permutation_length (stable_insert_perm k v l)). Qed.

Lemma stable_insert_sorted k v l :
  StronglySorted key_le l → StronglySorted key_le (stable_insert k v l).
Proof.
  induction 1 as [|kv l Hl IH Hle]; simpl; [repeat constructor|].
  destruct (kv.1 ≤?ₒ k) eqn:E; ord_simpl.
  - constructor; [done|]. apply Forall_forall. intros x.
    rewrite stable_insert_elem. intros [->|Hx]; [done|].
    by apply (Forall_forall (key_le kv) l).
  - constructor; [by constructor|]. constructor.
    + unfold key_le. simpl. eauto with ord.
    + eapply Forall_impl; [exact Hle|]. unfold key_le. simpl. eauto with ord.
Qed.

(** Inserting a key above a prefix commutes with that prefix. *)
Lemma stable_insert_app_le k v l1 l2 :
  Forall (λ kv, kv.1 ≤ₒ k) l1 →
  stable_insert k v (l1 ++ l2) = l1 ++ stable_insert k v l2.
Proof.
  induction 1 as [|kv l1 Hkv Hl1 IH]; simpl; [done|].
  apply ord_leb_le in Hkv as ->. by rewrite IH.
Qed.

(** Insertion is stable: the pairs of any one key keep their order and the
    new pair comes after those of its own key. *)
Lemma stable_insert_filter `{EqDecision K} k v l k' :
  StronglySorted key_le l →
  filter (λ kv, kv.1 = k') (stable_insert k v l) =
  filter (λ kv, kv.1 = k') l ++ (if decide (k = k') then [(k, v)] else []).
Proof.
  induction 1 as [|kv l Hl IH Hle]; simpl.
  { rewrite filter_cons, filter_nil. simpl. by destruct (decide (k = k')). }
  destruct (kv.1 ≤?ₒ k) eqn:E; ord_simpl; rewrite !filter_cons, ?IH.
  - by destruct (decide (kv.1 = k')).
  - simpl. destruct (decide (k = k')) as [->|]; [|by rewrite app_nil_r].
    rewrite decide_False by (intros <-; by eapply ord_lt_irrefl).
    cut (filter (λ kv, kv.1 = k') l = []); [by intros ->|].
    apply filter_all_false. eapply Forall_impl; [exact Hle|].
    unfold key_le. intros x Hx <-. eauto using ord_le_lt_absurd.
Qed.
End Facts.

(** ** Histories of operations

    The answers of a queue to a sequence of operations, and those of the
    sorted list that the contract describes. *)

Inductive qop (K V : Type) :=
| QInsert (k : K) (v : V)
| QPull
| QPeek.
Arguments QInsert {K V}.
Arguments QPull {K V}.
Arguments QPeek {K V}.

Section Histories.
Context {Q K V : Type} `{StableQueueLaws Q K V}.

Fixpoint run_queue (ops : list (qop K V)) (q : Q) : outcome (list (option (K * V))) :=
  match ops with
  | [] => Done []
  | QInsert k v :: ops => let! q := sq_insert k v q in run_queue ops q
  | QPull :: ops =>
      match sq_pull q with
      | Some (kv, q) => let! r := run_queue ops q in Done (Some kv :: r)
      | None => let! r := run_queue ops q in Done (None :: r)
      end
  | QPeek :: ops => let! r := run_queue ops q in Done (sq_peek q :: r)
  end.

(** [c] counts the insertions, which the width of the epoch bounds. *)
Fixpoint run_list (ops : list (qop K V)) (l : list (K * V)) (c : Z) :
    outcome (list (option (K * V))) :=
  match ops with
  | [] => Done []
  | QInsert k v :: ops =>
      if decide (c = u64_max) then Panicked
      else run_list ops (stable_insert k v l) (c + 1)
  | QPull :: ops => let! r := run_list ops (tail l) c in Done (head l :: r)
  | QPeek :: ops => let! r := run_list ops l c in Done (head l :: r)
  end.

Lemma run_queue_refines ops (q : Q) :
  sq_wf q → run_queue ops q = run_list ops (sq_abs q) (sq_count q).
Proof.
  revert q. induction ops as [|[k v| |] ops IH]; intros q Hwf; simpl; [done|..].
  - pose proof (sq_insert_spec q k v Hwf) as Hins.
    case_decide; [by rewrite Hins|].
    destruct Hins as (q' & -> & Hwf' & Habs & Hc). simpl. rewrite IH by done.
    by rewrite Habs, Hc.
  - pose proof (sq_pull_spec q Hwf) as Hpull.
    destruct (sq_abs q) as [|kv l] eqn:El; simpl.
    + rewrite Hpull, IH by done. by rewrite El.
    + destruct Hpull as (q' & -> & Hwf' & Habs & Hc). rewrite IH by done.
      by rewrite Habs, Hc.
  - rewrite IH, sq_peek_spec by done. done.
Qed.
End Histories.
