(* ===== verification/PriorityQueue.v ===== *)
(** * The scheduler's priority queue (util/priority_queue.rs)

    The queue wraps the standard library's [BinaryHeap] and gives each item
    an insertion epoch, so that items with equal keys leave in insertion
    order.  The file models the heap by its documented behaviour, the
    reversed item order, the three operations, and proves that they implement
    the stable priority queue of [StableQueue.v]. *)

From stdpp Require Import base option list numbers sorting.
From Stdlib Require Import ZArith Lia.
From S2P Require Import Prelude StableQueue.

(** ** std::collections::BinaryHeap

    The content of the heap; [heap_pop] removes a greatest element and
    [heap_peek] shows it. *)
Section BinaryHeap.
Context {A : Type} `{Ord A}.

Definition heap_push (x : A) (h : list A) : list A := h ++ [x].

Fixpoint heap_pop (h : list A) : option (A * list A) :=
  match h with
  | [] => None
  | x :: h' =>
      match heap_pop h' with
      | None => Some (x, [])
      | Some (m, h'') =>
          match ord_cmp m x with
          | Gt => Some (m, x :: h'')
          | _ => Some (x, h')
          end
      end
  end.

Definition heap_peek (h : list A) : option A := fst <$> heap_pop h.
End BinaryHeap.

(** ** Items *)

Record Item (K V : Type) := mkItem { item_key : K; item_value : V; item_epoch : Z }.
Arguments mkItem {K V}.
Arguments item_key {K V}.
Arguments item_value {K V}.
Arguments item_epoch {K V}.

(** [Ord for Item]: by key, then by epoch, reversed. *)
#[export] Instance Item_cmp {K V : Type} `{Ord K} : Ord (Item K V) := λ self other,
  CompOpp
    match ord_cmp (item_key self) (item_key other) with
    | Eq => ord_cmp (item_epoch self) (item_epoch other)
    | c => c
    end.

(** ** The queue *)

Record PriorityQueue (K V : Type) := mkQueue {
  heap : list (Item K V);
  next_epoch : Z;
}.
Arguments mkQueue {K V}.
Arguments heap {K V}.
Arguments next_epoch {K V}.

Section Operations.
Context {K V : Type} `{Ord K}.

Definition new : PriorityQueue K V := mkQueue [] 0.

Definition insert (key : K) (value : V) (self : PriorityQueue K V) :
    outcome (PriorityQueue K V) :=
  let epoch := next_epoch self in
  let! _ := rust_assert (negb (epoch =? u64_max)%Z) in
  let item := mkItem key value epoch in
  Done (mkQueue (heap_push item (heap self)) (epoch + 1)).

Definition pull (self : PriorityQueue K V) : option (K * V * PriorityQueue K V) :=
  match heap_pop (heap self) with
  | None => None
  | Some (item, h) =>
      Some (item_key item, item_value item, mkQueue h (next_epoch self))
  end.

Definition peek (self : PriorityQueue K V) : option (K * V) :=
  match heap_peek (heap self) with
  | None => None
  | Some item => Some (item_key item, item_value item)
  end.

(** ** Invariant and abstraction

    Epochs are distinct and below [next_epoch].  The abstraction sorts the
    items by key and epoch and forgets the epochs. *)

Definition rank (i : Item K V) : K * Z := (item_key i, item_epoch i).
Definition rank_le (i j : Item K V) : Prop := rank i ≤ₒ rank j.

#[export] Instance rank_le_dec (i j : Item K V) : Decision (rank_le i j).
Proof. apply ord_le_dec. Defined.

Record wf (q : PriorityQueue K V) : Prop := {
  wf_nodup : NoDup (item_epoch <$> heap q);
  wf_bound : Forall (λ i, item_epoch i < next_epoch q)%Z (heap q);
  wf_next : (0 ≤ next_epoch q ≤ u64_max)%Z;
}.

Definition sorted_items (q : PriorityQueue K V) : list (Item K V) :=
  merge_sort rank_le (heap q).

Definition item_pair (i : Item K V) : K * V := (item_key i, item_value i).

Definition abs (q : PriorityQueue K V) : list (K * V) :=
  item_pair <$> sorted_items q.
End Operations.

(** ** Proofs *)

Section HeapFacts.
Context {A : Type} `{Ord A}.

Lemma heap_pop_None (h : list A) : heap_pop h = None ↔ h = [].
Proof.
  destruct h as [|x h]; simpl; [done|].
  destruct (heap_pop h) as [[m h']|]; [|done]. by destruct (ord_cmp m x).
Qed.

Lemma heap_pop_perm (h : list A) m h' : heap_pop h = Some (m, h') → h ≡ₚ m :: h'.
Proof.
  revert m h'. induction h as [|x h IH]; intros m h'; simpl; [done|].
  destruct (heap_pop h) as [[y h'']|] eqn:E.
  - specialize (IH _ _ eq_refl).
    destruct (ord_cmp y x); intros [= <- <-]; [done..|].
    rewrite IH. apply Permutation_swap.
  - apply heap_pop_None in E as ->. by intros [= <- <-].
Qed.
End HeapFacts.

Section Proofs.
Context {K V : Type} `{OrdLaws K}.
Implicit Types (q : PriorityQueue K V) (i j : Item K V) (l : list (Item K V)).

#[local] Instance rank_le_trans : Transitive (rank_le (K:=K) (V:=V)).
Proof. intros i j k. unfold rank_le. eauto with ord. Qed.
#[local] Instance rank_le_total : Total (rank_le (K:=K) (V:=V)).
Proof. intros i j. apply ord_le_total. Qed.

(** The item order is the reverse of the rank order. *)
Lemma item_cmp_rank i j : ord_cmp i j = Gt ↔ rank i <ₒ rank j.
Proof.
  unfold ord_cmp at 1, Item_cmp, ord_lt, ord_cmp at 3, prod_ord, rank; simpl.
  destruct (ord_cmp (item_key i) (item_key j)); simpl; try done.
  by destruct (ord_cmp (item_epoch i) (item_epoch j)).
Qed.

Lemma heap_pop_min l i l' :
  heap_pop l = Some (i, l') → Forall (rank_le i) l'.
Proof.
  revert i l'. induction l as [|x l IH]; intros i l'; simpl; [done|].
  destruct (heap_pop l) as [[y l'']|] eqn:E; [|by intros [= <- <-]].
  pose proof (heap_pop_perm _ _ _ E) as Hp.
  specialize (IH _ _ eq_refl).
  destruct (decide (ord_cmp y x = Gt)) as [Hgt|Hngt].
  - rewrite Hgt. intros [= <- <-]. constructor; [|done].
    apply item_cmp_rank in Hgt. unfold rank_le. eauto with ord.
  - assert (rank_le x y) as Hxy
      by (apply ord_nlt_le; by rewrite <-item_cmp_rank).
    intros Heq.
    assert (i = x ∧ l' = l) as [-> ->] by (destruct (ord_cmp y x); naive_solver).
    rewrite Hp. constructor; [done|].
    eapply Forall_impl; [exact IH|]. by intros z; apply rank_le_trans.
Qed.

Lemma rank_le_eq l i j :
  NoDup (item_epoch <$> l) → i ∈ l → j ∈ l → rank_le i j → rank_le j i → i = j.
Proof.
  intros Hnd Hi Hj Hij Hji.
  assert (item_epoch i = item_epoch j) as He.
  { pose proof (ord_le_antisymm _ _ Hij Hji) as Hr.
    unfold rank in Hr. by simplify_eq. }
  apply list_elem_of_lookup in Hi as [n Hn], Hj as [m Hm].
  assert (n = m) as ->; [|congruence].
  eapply NoDup_lookup; [exact Hnd|..]; rewrite list_lookup_fmap_Some; eauto.
Qed.

(** Any sorted arrangement of the items is the abstraction. *)
Lemma abs_unique q l :
  wf q → l ≡ₚ heap q → StronglySorted rank_le l → abs q = item_pair <$> l.
Proof.
  intros Hq Hperm Hs. unfold abs, sorted_items. f_equal.
  assert (merge_sort rank_le (heap q) ≡ₚ heap q) as Hm by apply merge_sort_Permutation.
  apply (StronglySorted_unique_strong rank_le).
  - intros x1 x2 Hx1 Hx2. rewrite Hm in Hx1. rewrite Hperm in Hx2.
    by apply (rank_le_eq (heap q)); [apply Hq|..].
  - by apply StronglySorted_merge_sort; apply _.
  - done.
  - by rewrite Hm.
Qed.

Lemma sorted_items_sorted q : StronglySorted rank_le (sorted_items q).
Proof. apply StronglySorted_merge_sort; apply _. Qed.

Lemma sorted_items_perm q : sorted_items q ≡ₚ heap q.
Proof. apply merge_sort_Permutation. Qed.

Lemma new_wf : wf (@new K V).
Proof. split; simpl; [constructor|constructor|unfold u64_max; lia]. Qed.

Lemma insert_wf q k v q' : wf q → insert k v q = Done q' → wf q'.
Proof.
  intros [Hnd Hb Hn]. unfold insert. simpl.
  destruct (next_epoch q =? u64_max)%Z eqn:E; simpl; [done|].
  intros [= <-]. apply Z.eqb_neq in E. split; simpl; [..|lia].
  - unfold heap_push. rewrite fmap_app. apply NoDup_app.
    split; [done|]. split; [|apply NoDup_singleton].
    intros e (i & -> & Hi)%list_elem_of_fmap.
    rewrite Forall_forall in Hb. specialize (Hb _ Hi).
    intros Heq%list_elem_of_singleton. simpl in *. lia.
  - apply Forall_app. split; [|repeat constructor; simpl; lia].
    eapply Forall_impl; [exact Hb|]. simpl. lia.
Qed.

(** The sorted items after an insertion: the new item goes after those whose
    key is lower or equal. *)
Lemma insert_sorted_items k v e l :
  StronglySorted rank_le l → Forall (λ i, item_epoch i < e)%Z l →
  ∃ l', StronglySorted rank_le l' ∧ l' ≡ₚ mkItem k v e :: l ∧
    item_pair <$> l' = stable_insert k v (item_pair <$> l).
Proof.
  induction 1 as [|i l Hs IH Hle]; intros Hb.
  { exists [mkItem k v e]. repeat constructor. }
  apply Forall_cons in Hb as [Hi Hb].
  destruct (IH Hb) as (l' & Hs' & Hp & Heq).
  csimpl. destruct (item_key i ≤?ₒ k) eqn:E; ord_simpl.
  - exists (i :: l'). split_and!.
    + constructor; [done|]. rewrite Hp. constructor; [|done].
      apply prod_le_iff. simpl.
      apply ord_le_lt_eq in E as [|]; [by left|right; split; [done|]].
      apply ord_lt_le. by apply Z.compare_lt_iff.
    + rewrite Hp. apply Permutation_swap.
    + by rewrite fmap_cons, Heq.
  - exists (mkItem k v e :: i :: l). split_and!; [|done|done].
    assert (rank_le (mkItem k v e) i) as Hki.
    { apply ord_lt_le, prod_lt_iff. by left. }
    constructor; [by constructor|]. constructor; [done|].
    eapply Forall_impl; [exact Hle|]. intros j. by apply rank_le_trans.
Qed.

Lemma insert_refines q k v q' :
  wf q → insert k v q = Done q' → abs q' = stable_insert k v (abs q).
Proof.
  intros Hq Hins. pose proof (insert_wf _ _ _ _ Hq Hins) as Hq'.
  unfold insert in Hins. simpl in Hins.
  destruct (next_epoch q =? u64_max)%Z; simplify_eq/=.
  destruct (insert_sorted_items k v (next_epoch q) (sorted_items q))
    as (l' & Hs & Hp & Heq).
  { apply sorted_items_sorted. }
  { rewrite sorted_items_perm. apply Hq. }
  unfold abs at 2. rewrite <-Heq. apply abs_unique; [done| |done].
  rewrite Hp, sorted_items_perm. simpl. unfold heap_push.
  by rewrite (Permutation_app_comm (heap q)).
Qed.

Lemma pull_spec q :
  wf q →
  match abs q with
  | [] => pull q = None
  | kv :: l => ∃ q', pull q = Some (kv, q') ∧ wf q' ∧ abs q' = l ∧
                 next_epoch q' = next_epoch q
  end.
Proof.
  intros Hq. unfold pull. destruct (heap_pop (heap q)) as [[i h]|] eqn:E.
  - pose proof (heap_pop_perm _ _ _ E) as Hp.
    pose proof (heap_pop_min _ _ _ E) as Hmin.
    set (q' := mkQueue h (next_epoch q)).
    assert (wf q') as Hq'.
    { destruct Hq as [Hnd Hb Hn]. rewrite Hp in Hb.
      apply Forall_cons in Hb as [_ Hb]. split; simpl; [|done|done].
      rewrite Hp in Hnd. by apply NoDup_cons in Hnd as [_ ?]. }
    assert (abs q = item_pair <$> i :: sorted_items q') as ->.
    { apply abs_unique; [done|by rewrite sorted_items_perm|].
      constructor; [apply sorted_items_sorted|]. by rewrite sorted_items_perm. }
    csimpl. exists q'. done.
  - apply heap_pop_None in E. unfold abs, sorted_items. rewrite E. done.
Qed.

Lemma peek_spec q : wf q → peek q = head (abs q).
Proof.
  intros Hq. pose proof (pull_spec q Hq) as Hpull. revert Hpull.
  unfold pull, peek, heap_peek.
  destruct (heap_pop (heap q)) as [[i h]|]; simpl.
  - destruct (abs q) as [|kv l]; [done|].
    intros (q' & [= <- _] & _). done.
  - destruct (abs q) as [|kv l]; [done|]. by intros (q' & ? & _).
Qed.

Lemma abs_sorted q : StronglySorted key_le (abs q).
Proof.
  unfold abs. eapply (StronglySorted_fmap _ rank_le); [|apply sorted_items_sorted].
  intros i j Hij. exact (prod_le_fst _ _ Hij).
Qed.
End Proofs.

(** ** The queue discharges the contract *)

#[export] Instance pq_stable {K V : Type} `{Ord K} :
  StableQueue (PriorityQueue K V) K V := {|
    sq_new := new;
    sq_insert := insert;
    sq_pull := pull;
    sq_peek := peek;
    sq_abs := abs;
    sq_count := next_epoch;
    sq_wf := wf;
  |}.

#[export] Instance pq_stable_laws {K V : Type} `{OrdLaws K} :
  StableQueueLaws (PriorityQueue K V) K V.
Proof.
  split; simpl.
  - done.
  - apply new_wf.
  - done.
  - done.
  - intros q k v Hq. destruct (decide (next_epoch q = u64_max)) as [Heq|Hne].
    + unfold insert. rewrite Heq. done.
    + destruct (insert k v q) as [q'| |] eqn:E.
      * exists q'. split; [done|]. split; [by eapply insert_wf|].
        split; [by apply insert_refines|].
        unfold insert in E. simpl in E.
        by destruct (next_epoch q =? u64_max)%Z; simplify_eq/=.
      * unfold insert in E. simpl in E.
        apply Z.eqb_neq in Hne. by rewrite Hne in E.
      * unfold insert in E. simpl in E.
        by destruct (next_epoch q =? u64_max)%Z.
  - apply pull_spec.
  - apply peek_spec.
  - intros q _. apply abs_sorted.
Qed.

(** C2: the scheduler's queue answers every sequence of insertions, pulls and
    peeks as the list sorted by key in which equal keys stay in insertion
    order; an insertion panics exactly when the 64-bit epoch is exhausted. *)
Theorem priority_queue_refines {K V : Type} `{OrdLaws K} (ops : list (qop K V)) :
  run_queue ops (new : PriorityQueue K V) = run_list ops [] 0.
Proof. exact (run_queue_refines ops (new : PriorityQueue K V) new_wf). Qed.

Lemma priority_queue_refines_witness :
  run_queue [QInsert 5%Z 1; QInsert 3%Z 2; QInsert 5%Z 3; QInsert 3%Z 4;
             QPeek; QPull; QPull; QPull; QPull; QPull]
    (new : PriorityQueue Z nat) =
  Done [Some (3%Z, 2); Some (3%Z, 2); Some (3%Z, 4); Some (5%Z, 1); Some (5%Z, 3); None].
Proof. rewrite priority_queue_refines. reflexivity. Defined.
