(* ===== verification/Time.v ===== *)
(** * Simulation time, deadlines and clocks (time.rs, time/clock.rs)

    [MonotonicTime] is re-exported by the crate from [tai_time], so it is a
    class here: the operations the simulator calls and, in
    [MonotonicTimeLaws], their documented behaviour.  [TaiTime] is a concrete
    instance: a count of nanoseconds in the representable range.  [Duration]
    is the standard library's.  The file also models the [Deadline] trait and
    the [Clock] implementations. *)

From stdpp Require Import base option list numbers.
From Stdlib Require Import ZArith Lia.
From S2P Require Import Prelude.
Local Open Scope Z_scope.

(** ** std::time::Duration *)

Definition NANOS_PER_SEC : Z := 1000000000.

Record Duration := mkDuration { dur_secs : Z; dur_nanos : Z }.

#[export] Instance Duration_eq_dec : EqDecision Duration.
Proof. solve_decision. Defined.

(** The derived order: seconds, then nanoseconds. *)
#[export] Instance Duration_ord : Ord Duration := λ d e,
  ord_cmp (dur_secs d, dur_nanos d) (dur_secs e, dur_nanos e).

(** [Duration::new]: whole seconds of the nanosecond argument are carried
    over; an overflow of the seconds panics. *)
Definition duration_new (secs nanos : Z) : outcome Duration :=
  let s := secs + nanos / NANOS_PER_SEC in
  if s <=? u64_max then Done (mkDuration s (nanos mod NANOS_PER_SEC)) else Panicked.

Definition duration_zero : Duration := mkDuration 0 0.

Definition is_zero (d : Duration) : bool := (dur_secs d =? 0) && (dur_nanos d =? 0).

(** The values the type can hold. *)
Definition duration_wf (d : Duration) : Prop :=
  0 ≤ dur_secs d ≤ u64_max ∧ 0 ≤ dur_nanos d < NANOS_PER_SEC.

Definition dur_total (d : Duration) : Z := dur_secs d * NANOS_PER_SEC + dur_nanos d.

(** ** tai_time::MonotonicTime *)

Definition i64_min : Z := - 2 ^ 63.
Definition i64_max : Z := 2 ^ 63 - 1.

Class MonotonicTime (T : Type) := {
  mt_eq_dec :: EqDecision T;
  mt_ord :: Ord T;
  mt_new : Z → Z → option T;
  as_secs : T → Z;
  subsec_nanos : T → Z;
  mt_add : T → Duration → outcome T;
  duration_since : T → T → outcome Duration;
  MT_MAX : T;
  MT_EPOCH : T;
}.

(** Nanoseconds since the epoch. *)
Definition mt_total {T : Type} `{MonotonicTime T} (t : T) : Z :=
  as_secs t * NANOS_PER_SEC + subsec_nanos t.

Class MonotonicTimeLaws (T : Type) `{MonotonicTime T} := {
  mt_ord_laws :: OrdLaws T;
  mt_parts_range : ∀ t : T,
    i64_min ≤ as_secs t ≤ i64_max ∧ 0 ≤ subsec_nanos t < NANOS_PER_SEC;
  mt_new_is_Some : ∀ s n, i64_min ≤ s ≤ i64_max → 0 ≤ n →
    is_Some (mt_new (T:=T) s n) ↔ n < NANOS_PER_SEC;
  mt_new_parts : ∀ s n (t : T),
    mt_new s n = Some t → as_secs t = s ∧ subsec_nanos t = n;
  mt_new_of_parts : ∀ t : T, mt_new (as_secs t) (subsec_nanos t) = Some t;
  mt_cmp_parts : ∀ t u : T,
    ord_cmp t u = ord_cmp (as_secs t, subsec_nanos t) (as_secs u, subsec_nanos u);
  mt_add_total : ∀ (t t' : T) d,
    duration_wf d → mt_add t d = Done t' → mt_total t' = mt_total t + dur_total d;
  mt_add_overflow : ∀ (t : T) d, duration_wf d →
    mt_add t d = Panicked ↔ mt_total (MT_MAX (T:=T)) < mt_total t + dur_total d;
  mt_add_returns : ∀ (t : T) d, mt_add t d ≠ NoFuel;
  mt_since_total : ∀ (t u : T), u ≤ₒ t →
    ∃ d, duration_since t u = Done d ∧ duration_wf d ∧
      dur_total d = mt_total t - mt_total u;
  mt_le_MAX : ∀ t : T, t ≤ₒ MT_MAX;
  mt_epoch_parts : as_secs (MT_EPOCH (T:=T)) = 0 ∧ subsec_nanos (MT_EPOCH (T:=T)) = 0;
}.

(** ** A concrete instance: nanoseconds in the representable range *)

Definition tai_lo : Z := i64_min * NANOS_PER_SEC.
Definition tai_hi : Z := i64_max * NANOS_PER_SEC + (NANOS_PER_SEC - 1).

Record TaiTime := mkTai {
  tai_total : Z;
  tai_ok : bool_decide (tai_lo ≤ tai_total ≤ tai_hi) = true;
}.

Definition tai_of (z : Z) : option TaiTime :=
  match bool_decide (tai_lo ≤ z ≤ tai_hi) as b
        return bool_decide (tai_lo ≤ z ≤ tai_hi) = b → option TaiTime with
  | true => λ E, Some (mkTai z E)
  | false => λ _, None
  end eq_refl.

Lemma tai_eq (t u : TaiTime) : tai_total t = tai_total u → t = u.
Proof.
  destruct t as [x Hx], u as [y Hy]; simpl. intros ->.
  f_equal. apply (proof_irrel (A := bool_decide _ = true)).
Qed.

#[export] Instance TaiTime_eq_dec : EqDecision TaiTime.
Proof.
  intros t u. destruct (decide (tai_total t = tai_total u)) as [E|E].
  - left. by apply tai_eq.
  - right. congruence.
Defined.

#[export] Instance TaiTime_time : MonotonicTime TaiTime := {|
  mt_ord := λ t u, ord_cmp (tai_total t) (tai_total u);
  mt_new := λ s n,
    if (0 <=? n) && (n <? NANOS_PER_SEC) then tai_of (s * NANOS_PER_SEC + n) else None;
  as_secs := λ t, tai_total t / NANOS_PER_SEC;
  subsec_nanos := λ t, tai_total t mod NANOS_PER_SEC;
  mt_add := λ t d, unwrap (tai_of (tai_total t + dur_total d));
  duration_since := λ t u,
    let z := tai_total t - tai_total u in
    if 0 <=? z then Done (mkDuration (z / NANOS_PER_SEC) (z mod NANOS_PER_SEC))
    else Panicked;
  MT_MAX := mkTai tai_hi eq_refl;
  MT_EPOCH := mkTai 0 eq_refl;
|}.

Lemma tai_of_Some z t : tai_of z = Some t ↔ tai_total t = z.
Proof.
  unfold tai_of. split.
  - generalize (eq_refl (bool_decide (tai_lo ≤ z ≤ tai_hi))).
    generalize (bool_decide (tai_lo ≤ z ≤ tai_hi)) at 2 3.
    intros [] E; [|done]. by intros [= <-].
  - intros <-. destruct t as [x Hx]. simpl.
    generalize (eq_refl (bool_decide (tai_lo ≤ x ≤ tai_hi))).
    generalize (bool_decide (tai_lo ≤ x ≤ tai_hi)) at 2 3.
    intros [] E; [|congruence]. f_equal. by apply tai_eq.
Qed.

Lemma tai_of_None z : tai_of z = None ↔ ¬ (tai_lo ≤ z ≤ tai_hi).
Proof.
  destruct (tai_of z) as [t|] eqn:E.
  - apply tai_of_Some in E as <-. destruct t as [x Hx]; simpl.
    pose proof (bool_decide_eq_true_1 _ Hx). naive_solver.
  - split; [|done]. intros _ Hz.
    assert (tai_of z = Some (mkTai z (bool_decide_eq_true_2 _ Hz))) as E'
      by by apply tai_of_Some.
    congruence.
Qed.

Lemma tai_range (t : TaiTime) : tai_lo ≤ tai_total t ≤ tai_hi.
Proof. destruct t as [x Hx]; simpl. exact (bool_decide_eq_true_1 _ Hx). Qed.

Lemma tai_parts (t : TaiTime) : mt_total t = tai_total t.
Proof.
  unfold mt_total; simpl. rewrite Z.mul_comm. symmetry. by apply Z.div_mod.
Qed.

Ltac tai_unfold := unfold tai_lo, tai_hi, i64_min, i64_max, NANOS_PER_SEC, u64_max in *.

#[export] Instance TaiTime_laws : MonotonicTimeLaws TaiTime.
Proof.
  split.
  - split; unfold ord_cmp; simpl.
    + intros t u. rewrite ord_cmp_eq. split; [apply tai_eq|congruence].
    + intros t u. apply ord_cmp_opp.
    + intros t u v. apply ord_cmp_lt_trans.
  - intros t. simpl. pose proof (tai_range t). tai_unfold.
    split; [|by apply Z.mod_pos_bound].
    split; [apply Z.div_le_lower_bound; lia|].
    apply Z.lt_succ_r, Z.div_lt_upper_bound; lia.
  - intros s n Hs Hn. simpl. split.
    + destruct ((0 <=? n) && (n <? NANOS_PER_SEC)) eqn:E; [|by intros []].
      intros _. lia.
    + intros Hlt. assert ((0 <=? n) && (n <? NANOS_PER_SEC) = true) as -> by lia.
      destruct (tai_of _) eqn:E; [done|]. apply tai_of_None in E.
      exfalso. apply E. tai_unfold. lia.
  - intros s n t. simpl.
    destruct ((0 <=? n) && (n <? NANOS_PER_SEC)) eqn:E; [|done].
    intros ->%tai_of_Some. rewrite Z.add_comm, Z.div_add, Z.mod_add by done.
    rewrite Z.div_small, Z.mod_small by lia. lia.
  - intros t. simpl.
    assert (0 ≤ tai_total t mod NANOS_PER_SEC < NANOS_PER_SEC) as Hm
      by by apply Z.mod_pos_bound.
    assert ((0 <=? tai_total t mod NANOS_PER_SEC) &&
            (tai_total t mod NANOS_PER_SEC <? NANOS_PER_SEC) = true) as -> by lia.
    apply tai_of_Some. rewrite Z.mul_comm. by apply Z.div_mod.
  - intros t u.
    change (ord_cmp t u) with (Z.compare (tai_total t) (tai_total u)).
    unfold ord_cmp, prod_ord. simpl. unfold ord_cmp, Z_ord.
    pose proof (Z.div_mod (tai_total t) NANOS_PER_SEC ltac:(done)).
    pose proof (Z.div_mod (tai_total u) NANOS_PER_SEC ltac:(done)).
    pose proof (Z.mod_pos_bound (tai_total t) NANOS_PER_SEC ltac:(done)).
    pose proof (Z.mod_pos_bound (tai_total u) NANOS_PER_SEC ltac:(done)).
    unfold NANOS_PER_SEC in *.
    destruct (Z.compare_spec (tai_total t / 1000000000) (tai_total u / 1000000000)) as [E|E|E];
      [destruct (Z.compare_spec (tai_total t mod 1000000000) (tai_total u mod 1000000000))|..];
      rewrite ?Z.compare_eq_iff, ?Z.compare_lt_iff, ?Z.compare_gt_iff; lia.
  - intros t t' d Hd. simpl.
    intros Hadd%unwrap_Done%tai_of_Some. by rewrite !tai_parts.
  - intros t d Hd. rewrite !tai_parts. simpl.
    pose proof (tai_range t). destruct Hd as [[??] [??]].
    destruct (tai_of _) eqn:E; simpl.
    + apply tai_of_Some in E. pose proof (tai_range t0). split; [done|lia].
    + apply tai_of_None in E. split; [intros _|done].
      unfold dur_total in *. tai_unfold. lia.
  - intros t d. simpl. by destruct (tai_of _).
  - intros t u Hle. simpl. rewrite !tai_parts.
    assert (tai_total u ≤ tai_total t) as Hz.
    { change (Z.compare (tai_total u) (tai_total t) ≠ Gt) in Hle.
      rewrite Z.compare_ngt_iff in Hle. lia. }
    rewrite (proj2 (Z.leb_le 0 _)) by lia.
    pose proof (tai_range t). pose proof (tai_range u).
    eexists. split; [done|]. unfold duration_wf, dur_total; simpl.
    split; [|rewrite Z.mul_comm; symmetry; by apply Z.div_mod].
    split; [|by apply Z.mod_pos_bound]. split; [apply Z.div_pos; [lia|done]|].
    tai_unfold. apply Z.lt_succ_r, Z.div_lt_upper_bound; lia.
  - intros t. change (Z.compare (tai_total t) tai_hi ≠ Gt).
    apply Z.compare_ngt_iff. pose proof (tai_range t). lia.
  - done.
Qed.

(** Times and durations given in nanoseconds, for evaluations; [ns z] is the
    epoch when [z] is out of range. *)
Definition ns (z : Z) : TaiTime := default MT_EPOCH (tai_of z).
Definition dur (z : Z) : Duration := mkDuration (z / NANOS_PER_SEC) (z mod NANOS_PER_SEC).

(** ** Facts on time stamps *)

Section TimeFacts.
Context {T : Type} `{MonotonicTimeLaws T}.
Implicit Types t u : T.

Lemma mt_lt_total t u : t <ₒ u ↔ mt_total t < mt_total u.
Proof.
  unfold ord_lt. rewrite mt_cmp_parts.
  change (ord_cmp ?p ?q = Lt) with (p <ₒ q). rewrite prod_lt_iff; simpl.
  unfold ord_lt, ord_cmp, Z_ord. rewrite !Z.compare_lt_iff.
  pose proof (mt_parts_range t) as [_ ?]. pose proof (mt_parts_range u) as [_ ?].
  unfold mt_total, NANOS_PER_SEC in *. lia.
Qed.

Lemma mt_le_total t u : t ≤ₒ u ↔ mt_total t ≤ mt_total u.
Proof. rewrite <-ord_nlt_le, mt_lt_total. lia. Qed.

Lemma mt_total_inj t u : mt_total t = mt_total u → t = u.
Proof. intros E. apply ord_le_antisymm; apply mt_le_total; lia. Qed.

(** A strictly positive duration moves time strictly forward. *)
Lemma mt_add_lt t t' d :
  duration_wf d → is_zero d = false → mt_add t d = Done t' → t <ₒ t'.
Proof.
  intros Hwf Hz Hadd. apply mt_lt_total. rewrite (mt_add_total t t' d) by done.
  destruct Hwf as [[??] [??]].
  unfold is_zero, dur_total, NANOS_PER_SEC in *. lia.
Qed.

Lemma mt_add_zero t t' d :
  duration_wf d → is_zero d = true → mt_add t d = Done t' → t' = t.
Proof.
  intros Hwf Hz Hadd. apply mt_total_inj. rewrite (mt_add_total t t' d) by done.
  unfold is_zero, dur_total in *. lia.
Qed.
End TimeFacts.

(** ** The [Deadline] trait *)

Class Deadline (D T : Type) := into_time : D → T → outcome T.

#[export] Instance Duration_deadline {T : Type} `{MonotonicTime T} : Deadline Duration T :=
  λ self now, mt_add now self.

#[export] Instance MonotonicTime_deadline {T : Type} `{MonotonicTime T} : Deadline T T :=
  λ self _, Done self.

(** ** Clocks *)

Inductive SyncStatus :=
| Synchronized
| OutOfSync (lag : Duration).

(** The [Clock] trait: synchronization may change the clock's own state. *)
Class Clock (C T : Type) := synchronize : C → T → C * SyncStatus.

Record NoClock := mkNoClock {}.

#[export] Instance NoClock_synchronize {T : Type} : Clock NoClock T :=
  λ self _, (self, Synchronized).

(** The real-time clocks.  [MonotonicClock] comes from [tai_time] and
    [Instant] is the operating system's clock: [mc_now wall c] is what the
    clock [c] reads when the system's clock reads [wall].  A call reports the
    status and the time for which it has slept. *)
Section SystemClock.
Context {T : Type} `{MonotonicTime T}.
Context {Instant MonotonicClock : Type}.
Context (init_from_instant : T → Instant → MonotonicClock).
Context (mc_now : Instant → MonotonicClock → T).

Definition SystemClock := MonotonicClock.

Definition from_instant (simulation_ref : T) (wall_clock_ref : Instant) : SystemClock :=
  init_from_instant simulation_ref wall_clock_ref.

Definition SystemClock_synchronize (wall : Instant) (self : SystemClock) (deadline : T) :
    outcome (SyncStatus * Duration) :=
  let now := mc_now wall self in
  if now ≤?ₒ deadline then
    let! d := duration_since deadline now in Done (Synchronized, d)
  else
    let! lag := duration_since now deadline in Done (OutOfSync lag, duration_zero).

Definition AutoSystemClock := option SystemClock.

Definition AutoSystemClock_synchronize (wall : Instant) (self : AutoSystemClock)
    (deadline : T) : outcome (AutoSystemClock * (SyncStatus * Duration)) :=
  match self with
  | None => Done (Some (from_instant deadline wall), (Synchronized, duration_zero))
  | Some clock =>
      let! r := SystemClock_synchronize wall clock deadline in Done (Some clock, r)
  end.
End SystemClock.
