(* ===== verification/SeqFuture.v ===== *)
(** * Sequential composition of futures (util/seq_futures.rs)

    A [SeqFuture] polls its futures one after the other.  A future is
    anything with a poll function on a state [S]; the theorem says that
    polling a sequence behaves as polling the single remaining future of the
    sequence, so that no future starts before its predecessors have
    completed. *)

From stdpp Require Import base option list numbers.
From Stdlib Require Import ZArith Lia.
From S2P Require Import Prelude.

Inductive Poll := Ready | Pending.

Record SeqFuture (F : Type) := mkSeq { inner : list F; idx : nat }.
Arguments mkSeq {F}.
Arguments inner {F}.
Arguments idx {F}.

Definition new {F : Type} : SeqFuture F := mkSeq [] 0.

Definition push {F : Type} (future : F) (self : SeqFuture F) : SeqFuture F :=
  mkSeq (inner self ++ [future]) (idx self).

Section Poll.
Context {F S : Type} (poll_inner : F → S → F * S * Poll).

(** The loop of [poll]: [fuel] bounds the iterations.  Indexing past the end
    panics. *)
Fixpoint poll_loop (fuel : nat) (self : SeqFuture F) (s : S) :
    outcome (SeqFuture F * S * Poll) :=
  match fuel with
  | O => NoFuel
  | Datatypes.S fuel =>
      let! f := unwrap (inner self !! idx self) in
      let '(f, s, p) := poll_inner f s in
      let self := mkSeq (<[idx self := f]> (inner self)) (idx self) in
      match p with
      | Ready =>
          let self := mkSeq (inner self) (idx self + 1) in
          if idx self =? length (inner self) then Done (self, s, Ready)
          else poll_loop fuel self s
      | Pending => Done (self, s, Pending)
      end
  end.

Definition poll (self : SeqFuture F) (s : S) : outcome (SeqFuture F * S * Poll) :=
  poll_loop (length (inner self) - idx self + 1) self s.

(** The specification: run a list of futures in order, stopping at the first
    one that is pending; the completed futures are returned first. *)
Fixpoint run_in_order (fs : list F) (s : S) : list F * list F * S :=
  match fs with
  | [] => ([], [], s)
  | f :: fs' =>
      let '(f', s', p) := poll_inner f s in
      match p with
      | Ready => let '(d, r, s'') := run_in_order fs' s' in (f' :: d, r, s'')
      | Pending => ([], f' :: fs', s')
      end
  end.
End Poll.

Section Facts.
Context {F S : Type} (poll_inner : F → S → F * S * Poll).
Implicit Types (fs dn rest : list F) (s : S).

Lemma poll_loop_spec fuel dn fs s :
  fs ≠ [] → length fs < fuel →
  poll_loop poll_inner fuel (mkSeq (dn ++ fs) (length dn)) s =
  let '(d, r, s') := run_in_order poll_inner fs s in
  Done (mkSeq (dn ++ d ++ r) (length dn + length d), s',
        match r with [] => Ready | _ => Pending end).
Proof.
  revert fuel dn s. induction fs as [|f fs IH]; intros fuel dn s; [done|].
  intros _ Hlt. destruct fuel as [|fuel]; [simpl in Hlt; lia|].
  simpl poll_loop. simpl inner. simpl idx.
  rewrite lookup_app_r, Nat.sub_diag by lia. simpl.
  destruct (poll_inner f s) as [[f' s'] p] eqn:E. destruct p; simpl.
  - rewrite insert_app_r_alt, Nat.sub_diag by lia. simpl.
    rewrite length_app. simpl.
    destruct fs as [|g fs'].
    + simpl. rewrite (proj2 (Nat.eqb_eq _ _)) by lia.
      simpl. do 3 f_equal; lia.
    + rewrite (proj2 (Nat.eqb_neq _ _)) by (simpl; lia).
      specialize (IH fuel (dn ++ [f']) s' ltac:(done)).
      rewrite <-app_assoc, length_app in IH. simpl in IH, Hlt.
      rewrite IH by lia.
      destruct (run_in_order poll_inner (g :: fs') s') as [[d r] s''] eqn:Er.
      simpl in Er. rewrite Er. rewrite <-app_assoc. simpl.
      do 4 f_equal; lia.
  - rewrite insert_app_r_alt, Nat.sub_diag by lia. simpl.
    by rewrite Nat.add_0_r.
Qed.

(** Polling a sequential future whose first [length dn] futures have
    completed runs the remaining ones strictly in order: it returns [Ready]
    exactly when they all complete, and otherwise leaves the first pending
    one current, with the later ones unpolled. *)
Lemma poll_runs_in_order dn rest s :
  rest ≠ [] →
  poll poll_inner (mkSeq (dn ++ rest) (length dn)) s =
  let '(d, r, s') := run_in_order poll_inner rest s in
  Done (mkSeq (dn ++ d ++ r) (length dn + length d), s',
        match r with [] => Ready | _ => Pending end).
Proof.
  intros Hne. unfold poll. simpl. rewrite length_app.
  apply poll_loop_spec; [done|]. lia.
Qed.

Lemma push_inner f (q : SeqFuture F) : inner (push f q) = inner q ++ [f].
Proof. done. Qed.
End Facts.

(** A counter future that needs [n] polls, and a shared log of the polls. *)
Definition countdown (f : nat * nat) (log : list nat) : nat * nat * list nat * Poll :=
  match f.2 with
  | O => (f, log ++ [f.1], Ready)
  | S n => ((f.1, n), log ++ [f.1], Pending)
  end.

Lemma poll_runs_in_order_witness :
  poll countdown (mkSeq ([] ++ [(1, 0); (2, 1); (3, 0)]) (length (@nil (nat * nat)))) [] =
  Done (mkSeq [(1, 0); (2, 0); (3, 0)] 1, [1; 2], Pending).
Proof. rewrite (poll_runs_in_order countdown [] [(1, 0); (2, 1); (3, 0)] []); done. Defined.
