(* ===== verification/Scheduler.v ===== *)
(** * Actions and the global scheduler (simulation/scheduler.rs)

    The shared scheduling state is the queue behind its mutex, the current
    simulation time, the halt flag and the cancellation flags of the action
    keys.  An [ActionKey] is a reference-counted boolean: clones alias the
    same flag, so a key is the index of its flag in [key_flags].  Every
    scheduling method holds the queue's mutex from reading the time to
    inserting the action, so each is one function on the shared state.

    Parameters: the time type, the queue (used through [StableQueue]), the
    bound model inputs [Call] (an input function with its argument), the
    addresses [Addr] and the futures made by event and query sources. *)

From stdpp Require Import base option list numbers relations.
From Stdlib Require Import ZArith Lia.
From S2P Require Import Prelude StableQueue Time.

(** ** Action keys *)

Definition ActionKey : Set := nat.
Abbreviation KeyFlags := (list bool).

(** [ActionKey::new] allocates a cleared flag. *)
Definition ActionKey_new (flags : KeyFlags) : ActionKey * KeyFlags :=
  (length flags, flags ++ [false]).

Definition ActionKey_is_cancelled (flags : KeyFlags) (self : ActionKey) : bool :=
  default false (flags !! self).

Definition ActionKey_cancel (flags : KeyFlags) (self : ActionKey) : KeyFlags :=
  <[self := true]> flags.

(** An [AutoActionKey] holds the same flag and sets it when dropped. *)
Definition AutoActionKey := ActionKey.
Definition ActionKey_into_auto (self : ActionKey) : AutoActionKey := self.
Definition AutoActionKey_drop (flags : KeyFlags) (self : AutoActionKey) : KeyFlags :=
  <[self := true]> flags.

(** Equality is identity of the flag, not of its content. *)
Definition ActionKey_eq (self other : ActionKey) : bool := Nat.eqb self other.

Inductive SchedulingError :=
| InvalidScheduledTime
| NullRepetitionPeriod.

(** ** Messages, futures and actions *)

Section Actions.
Context {Call Addr SourceFut : Type}.

(** The closures sent to a mailbox: a plain call of a model input, or a call
    guarded by the cancellation flag of its key. *)
Inductive Msg :=
| EventMsg (func : Call)
| KeyedEventMsg (event_key : ActionKey) (func : Call).

(** The input that the closure calls when the receiver runs it. *)
Definition msg_call (flags : KeyFlags) (m : Msg) : option Call :=
  match m with
  | EventMsg func => Some func
  | KeyedEventMsg event_key func =>
      if negb (ActionKey_is_cancelled flags event_key) then Some func else None
  end.

(** A future that sends one message to a mailbox, or a source's broadcast. *)
Inductive Fut :=
| SendFut (sender : Addr) (msg : Msg)
| BroadcastFut (b : SourceFut).

Definition process_event (func : Call) (sender : Addr) : Fut :=
  SendFut sender (EventMsg func).

Definition send_keyed_event (event_key : ActionKey) (func : Call) (sender : Addr) : Fut :=
  SendFut sender (KeyedEventMsg event_key func).

(** The four implementations of [ActionInner]. *)
Inductive Action :=
| OnceAction (fut : Fut)
| PeriodicAction (gen : unit → Fut) (period : Duration)
| KeyedOnceAction (gen : ActionKey → Fut) (event_key : ActionKey)
| KeyedPeriodicAction (gen : ActionKey → Fut) (period : Duration) (event_key : ActionKey).

Definition Action_is_cancelled (flags : KeyFlags) (self : Action) : bool :=
  match self with
  | OnceAction _ => false
  | PeriodicAction _ _ => false
  | KeyedOnceAction _ event_key => ActionKey_is_cancelled flags event_key
  | KeyedPeriodicAction _ _ event_key => ActionKey_is_cancelled flags event_key
  end.

Definition Action_next (self : Action) : option (Action * Duration) :=
  match self with
  | OnceAction _ => None
  | PeriodicAction gen period => Some (PeriodicAction gen period, period)
  | KeyedOnceAction _ _ => None
  | KeyedPeriodicAction gen period event_key =>
      Some (KeyedPeriodicAction gen period event_key, period)
  end.

Definition Action_into_future (self : Action) : Fut :=
  match self with
  | OnceAction fut => fut
  | PeriodicAction gen _ => gen tt
  | KeyedOnceAction gen event_key => gen event_key
  | KeyedPeriodicAction gen _ event_key => gen event_key
  end.

(** The repetition period is a [Duration], possibly zero: the sources of
    periodic events make actions with any period. *)
Definition period_wf (a : Action) : Prop :=
  match Action_next a with
  | Some (_, period) => duration_wf period
  | None => True
  end.

(** A repetition period that a step can honour: a non-zero duration. *)
Definition action_ok (a : Action) : Prop :=
  match Action_next a with
  | Some (_, period) => duration_wf period ∧ is_zero period = false
  | None => True
  end.
End Actions.
Arguments Msg : clear implicits.
Arguments Fut : clear implicits.
Arguments Action : clear implicits.

(** ** The scheduler *)

Record Shared (Q T : Type) := mkShared {
  scheduler_queue : Q;
  time : T;
  is_halted : bool;
  key_flags : KeyFlags;
}.
Arguments mkShared {Q T}.
Arguments scheduler_queue {Q T}.
Arguments time {Q T}.
Arguments is_halted {Q T}.
Arguments key_flags {Q T}.

Definition GLOBAL_SCHEDULER_ORIGIN_ID : Z := 0.

Section GlobalScheduler.
Context {T : Type} `{MonotonicTime T}.
Context {Call Addr SourceFut : Type}.
Abbreviation Action := (Action Call Addr SourceFut).
Context {Q : Type} `{!StableQueue Q (T * Z) Action}.
Abbreviation Shared := (Shared Q T).

Definition set_queue (q : Q) (sh : Shared) : Shared :=
  mkShared q (time sh) (is_halted sh) (key_flags sh).
Definition set_time (t : T) (sh : Shared) : Shared :=
  mkShared (scheduler_queue sh) t (is_halted sh) (key_flags sh).
Definition set_flags (f : KeyFlags) (sh : Shared) : Shared :=
  mkShared (scheduler_queue sh) (time sh) (is_halted sh) f.

Definition schedule_from {D : Type} `{Deadline D T}
    (deadline : D) (action : Action) (origin_id : Z) (sh : Shared) :
    outcome (result unit SchedulingError * Shared) :=
  let now := time sh in
  let! t := into_time deadline now in
  if t ≤?ₒ now then Done (Err InvalidScheduledTime, sh)
  else
    let! q := sq_insert (t, origin_id) action (scheduler_queue sh) in
    Done (Ok tt, set_queue q sh).

Definition schedule_event_from {D : Type} `{Deadline D T}
    (deadline : D) (func : Call) (address : Addr) (origin_id : Z) (sh : Shared) :
    outcome (result unit SchedulingError * Shared) :=
  let action := OnceAction (process_event func address) in
  let now := time sh in
  let! t := into_time deadline now in
  if t ≤?ₒ now then Done (Err InvalidScheduledTime, sh)
  else
    let! q := sq_insert (t, origin_id) action (scheduler_queue sh) in
    Done (Ok tt, set_queue q sh).

Definition schedule_keyed_event_from {D : Type} `{Deadline D T}
    (deadline : D) (func : Call) (address : Addr) (origin_id : Z) (sh : Shared) :
    outcome (result ActionKey SchedulingError * Shared) :=
  let (event_key, flags) := ActionKey_new (key_flags sh) in
  let sh := set_flags flags sh in
  let action := KeyedOnceAction (λ ek, send_keyed_event ek func address) event_key in
  let now := time sh in
  let! t := into_time deadline now in
  if t ≤?ₒ now then Done (Err InvalidScheduledTime, sh)
  else
    let! q := sq_insert (t, origin_id) action (scheduler_queue sh) in
    Done (Ok event_key, set_queue q sh).

Definition schedule_periodic_event_from {D : Type} `{Deadline D T}
    (deadline : D) (period : Duration) (func : Call) (address : Addr)
    (origin_id : Z) (sh : Shared) :
    outcome (result unit SchedulingError * Shared) :=
  if is_zero period then Done (Err NullRepetitionPeriod, sh)
  else
    let action := PeriodicAction (λ _, process_event func address) period in
    let now := time sh in
    let! t := into_time deadline now in
    if t ≤?ₒ now then Done (Err InvalidScheduledTime, sh)
    else
      let! q := sq_insert (t, origin_id) action (scheduler_queue sh) in
      Done (Ok tt, set_queue q sh).

Definition schedule_keyed_periodic_event_from {D : Type} `{Deadline D T}
    (deadline : D) (period : Duration) (func : Call) (address : Addr)
    (origin_id : Z) (sh : Shared) :
    outcome (result ActionKey SchedulingError * Shared) :=
  if is_zero period then Done (Err NullRepetitionPeriod, sh)
  else
    let (event_key, flags) := ActionKey_new (key_flags sh) in
    let sh := set_flags flags sh in
    let action :=
      KeyedPeriodicAction (λ ek, send_keyed_event ek func address) period event_key in
    let now := time sh in
    let! t := into_time deadline now in
    if t ≤?ₒ now then Done (Err InvalidScheduledTime, sh)
    else
      let! q := sq_insert (t, origin_id) action (scheduler_queue sh) in
      Done (Ok event_key, set_queue q sh).

Definition halt (sh : Shared) : Shared :=
  mkShared (scheduler_queue sh) (time sh) true (key_flags sh).

(** *** The public [Scheduler] handle: the origin is always the scheduler. *)

Definition Scheduler_time (sh : Shared) : T := time sh.

Definition Scheduler_schedule {D : Type} `{Deadline D T}
    (deadline : D) (action : Action) (sh : Shared) :=
  schedule_from deadline action GLOBAL_SCHEDULER_ORIGIN_ID sh.

Definition Scheduler_schedule_event {D : Type} `{Deadline D T}
    (deadline : D) (func : Call) (address : Addr) (sh : Shared) :=
  schedule_event_from deadline func address GLOBAL_SCHEDULER_ORIGIN_ID sh.

Definition Scheduler_schedule_keyed_event {D : Type} `{Deadline D T}
    (deadline : D) (func : Call) (address : Addr) (sh : Shared) :=
  schedule_keyed_event_from deadline func address GLOBAL_SCHEDULER_ORIGIN_ID sh.

Definition Scheduler_schedule_periodic_event {D : Type} `{Deadline D T}
    (deadline : D) (period : Duration) (func : Call) (address : Addr) (sh : Shared) :=
  schedule_periodic_event_from deadline period func address
    GLOBAL_SCHEDULER_ORIGIN_ID sh.

Definition Scheduler_schedule_keyed_periodic_event {D : Type} `{Deadline D T}
    (deadline : D) (period : Duration) (func : Call) (address : Addr) (sh : Shared) :=
  schedule_keyed_periodic_event_from deadline period func address
    GLOBAL_SCHEDULER_ORIGIN_ID sh.

Definition Scheduler_halt (sh : Shared) : Shared := halt sh.
End GlobalScheduler.

(** ** A model's context (model/context.rs)

    The context schedules self-addressed events; the origin is the channel
    identifier of the model's mailbox. *)

Record Context (Addr : Type) := mkContext { ctx_address : Addr; ctx_origin_id : Z }.
Arguments mkContext {Addr}.
Arguments ctx_address {Addr}.
Arguments ctx_origin_id {Addr}.

Section ModelContext.
Context {T : Type} `{MonotonicTime T}.
Context {Call Addr SourceFut : Type}.
Context {Q : Type} `{!StableQueue Q (T * Z) (Action Call Addr SourceFut)}.
Abbreviation Shared := (Shared Q T).

(** [Context::new]; [channel_id] is the identifier of the address's channel. *)
Definition Context_new (channel_id : Addr → Z) (address : Addr) : Context Addr :=
  mkContext address (channel_id address).

Definition Context_time (self : Context Addr) (sh : Shared) : T := time sh.

Definition Context_schedule_event {D : Type} `{Deadline D T}
    (self : Context Addr) (deadline : D) (func : Call) (sh : Shared) :=
  schedule_event_from deadline func (ctx_address self) (ctx_origin_id self) sh.

Definition Context_schedule_keyed_event {D : Type} `{Deadline D T}
    (self : Context Addr) (deadline : D) (func : Call) (sh : Shared) :=
  schedule_keyed_event_from deadline func (ctx_address self) (ctx_origin_id self) sh.

Definition Context_schedule_periodic_event {D : Type} `{Deadline D T}
    (self : Context Addr) (deadline : D) (period : Duration) (func : Call)
    (sh : Shared) :=
  schedule_periodic_event_from deadline period func (ctx_address self)
    (ctx_origin_id self) sh.

Definition Context_schedule_keyed_periodic_event {D : Type} `{Deadline D T}
    (self : Context Addr) (deadline : D) (period : Duration) (func : Call)
    (sh : Shared) :=
  schedule_keyed_periodic_event_from deadline period func (ctx_address self)
    (ctx_origin_id self) sh.
End ModelContext.

(** ** Invariant of the shared state

    The queue is well formed, everything queued lies strictly in the future
    and every queued repetition period is a duration.  It does not exclude a
    zero period, which [Scheduler::schedule] accepts; [periods_ok] does. *)

Section Invariant.
Context {T : Type} `{MonotonicTimeLaws T}.
Context {Call Addr SourceFut : Type}.
Abbreviation Action := (Action Call Addr SourceFut).
Context {Q : Type} `{!StableQueue Q (T * Z) Action} `{!StableQueueLaws Q (T * Z) Action}.
Abbreviation Shared := (Shared Q T).
Implicit Types (sh : Shared) (a : Action).

Definition queued (sh : Shared) : list (T * Z * Action) := sq_abs (scheduler_queue sh).

Record sched_inv (sh : Shared) : Prop := {
  si_wf : sq_wf (scheduler_queue sh);
  si_future : Forall (λ kv, time sh <ₒ kv.1.1) (queued sh);
  si_periods : Forall (λ kv, period_wf kv.2) (queued sh);
}.

(** No queued action has a zero period. *)
Definition periods_ok (sh : Shared) : Prop := Forall (λ kv, action_ok kv.2) (queued sh).

Lemma action_ok_wf a : action_ok a → period_wf a.
Proof. unfold action_ok, period_wf. by destruct (Action_next a) as [[? ?]|]; [intros []|]. Qed.

(** What models, sources and other holders of a scheduler handle can do to
    the shared state between two operations of the simulator.  An action made
    by a source may have any period. *)
Inductive sched_op (sh : Shared) : Shared → Prop :=
| op_schedule D `{Deadline D T} (d : D) a o r sh' :
    period_wf a → schedule_from d a o sh = Done (r, sh') → sched_op sh sh'
| op_schedule_event D `{Deadline D T} (d : D) f adr o r sh' :
    schedule_event_from d f adr o sh = Done (r, sh') → sched_op sh sh'
| op_schedule_keyed_event D `{Deadline D T} (d : D) f adr o r sh' :
    schedule_keyed_event_from d f adr o sh = Done (r, sh') → sched_op sh sh'
| op_schedule_periodic_event D `{Deadline D T} (d : D) p f adr o r sh' :
    duration_wf p →
    schedule_periodic_event_from d p f adr o sh = Done (r, sh') → sched_op sh sh'
| op_schedule_keyed_periodic_event D `{Deadline D T} (d : D) p f adr o r sh' :
    duration_wf p →
    schedule_keyed_periodic_event_from d p f adr o sh = Done (r, sh') → sched_op sh sh'
| op_new_key : sched_op sh (set_flags (ActionKey_new (key_flags sh)).2 sh)
| op_cancel k : sched_op sh (set_flags (ActionKey_cancel (key_flags sh) k) sh)
| op_drop_auto k : sched_op sh (set_flags (AutoActionKey_drop (key_flags sh) k) sh)
| op_halt : sched_op sh (halt sh).

(** ** The scheduling methods share one behaviour *)

Lemma schedule_event_from_eq {D} `{Deadline D T} (d : D) f adr o sh :
  schedule_event_from d f adr o sh =
  schedule_from d (OnceAction (process_event f adr)) o sh.
Proof. done. Qed.

Lemma schedule_periodic_event_from_eq {D} `{Deadline D T} (d : D) p f adr o sh :
  schedule_periodic_event_from d p f adr o sh =
  if is_zero p then Done (Err NullRepetitionPeriod, sh)
  else schedule_from d (PeriodicAction (λ _, process_event f adr) p) o sh.
Proof. done. Qed.

Definition with_key (k : ActionKey)
    (r : outcome (result unit SchedulingError * Shared)) :
    outcome (result ActionKey SchedulingError * Shared) :=
  let! (r, sh) := r in Done (result_map (λ _, k) r, sh).

Lemma schedule_keyed_event_from_eq {D} `{Deadline D T} (d : D) f adr o sh :
  let (k, fl) := ActionKey_new (key_flags sh) in
  schedule_keyed_event_from d f adr o sh =
  with_key k (schedule_from d
    (KeyedOnceAction (λ ek, send_keyed_event ek f adr) k) o (set_flags fl sh)).
Proof.
  unfold schedule_keyed_event_from, schedule_from, with_key; simpl.
  destruct (into_time d (time sh)) as [t| |]; simpl; [|done..].
  destruct (t ≤?ₒ time sh); simpl; [done|].
  by destruct (sq_insert _ _ _).
Qed.

Lemma schedule_keyed_periodic_event_from_eq {D} `{Deadline D T} (d : D) p f adr o sh :
  let (k, fl) := ActionKey_new (key_flags sh) in
  schedule_keyed_periodic_event_from d p f adr o sh =
  if is_zero p then Done (Err NullRepetitionPeriod, sh)
  else with_key k (schedule_from d
    (KeyedPeriodicAction (λ ek, send_keyed_event ek f adr) p k) o (set_flags fl sh)).
Proof.
  unfold schedule_keyed_periodic_event_from, schedule_from, with_key; simpl.
  destruct (is_zero p); [done|].
  destruct (into_time d (time sh)) as [t| |]; simpl; [|done..].
  destruct (t ≤?ₒ time sh); simpl; [done|].
  by destruct (sq_insert _ _ _).
Qed.

(** The effect of a successful insertion. *)
Lemma schedule_from_cases {D} `{Deadline D T} (d : D) a o sh r sh' :
  sq_wf (scheduler_queue sh) →
  schedule_from d a o sh = Done (r, sh') →
  ∃ t, into_time d (time sh) = Done t ∧
    ((t ≤ₒ time sh ∧ r = Err InvalidScheduledTime ∧ sh' = sh) ∨
     (time sh <ₒ t ∧ r = Ok tt ∧ ∃ q, sh' = set_queue q sh ∧ sq_wf q ∧
        sq_abs q = stable_insert (t, o) a (queued sh) ∧
        sq_count q = (sq_count (scheduler_queue sh) + 1)%Z)).
Proof.
  intros Hwf. unfold schedule_from.
  destruct (into_time d (time sh)) as [t| |]; simpl; [|done..].
  destruct (t ≤?ₒ time sh) eqn:E; ord_simpl.
  - intros [= <- <-]. exists t. split; [done|]. by left.
  - pose proof (sq_insert_spec (scheduler_queue sh) (t, o) a Hwf) as Hins.
    case_decide; [by rewrite Hins|].
    destruct Hins as (q & -> & Hq & Habs & Hc). simpl. intros [= <- <-].
    exists t. split; [done|]. right. eauto 10.
Qed.

Lemma schedule_from_inv {D} `{Deadline D T} (d : D) a o sh r sh' :
  sched_inv sh → period_wf a → schedule_from d a o sh = Done (r, sh') →
  sched_inv sh' ∧ time sh' = time sh ∧ key_flags sh' = key_flags sh.
Proof.
  intros [Hwf Hf Hp] Ha Hs.
  destruct (schedule_from_cases d a o sh r sh' Hwf Hs)
    as (t & _ & [(_ & _ & ->)|(Hlt & _ & q & -> & Hq & Habs & _)]); [done|].
  split; [|done]. unfold queued in *.
  split; unfold queued; simpl; rewrite ?Habs, ?stable_insert_Forall; auto.
Qed.

Lemma with_key_Done k m r sh' :
  with_key k m = Done (r, sh') → ∃ r0, m = Done (r0, sh') ∧ r = result_map (λ _, k) r0.
Proof.
  unfold with_key. destruct m as [[r0 sh0]| |]; simpl; [|done..].
  intros [= <- <-]. eauto.
Qed.

Lemma set_flags_inv fl sh : sched_inv sh → sched_inv (set_flags fl sh).
Proof. by intros []; split. Qed.

(** The flags of existing keys are only ever set. *)
Definition flags_grow (f f' : KeyFlags) : Prop :=
  ∀ k, f !! k = Some true → f' !! k = Some true.

Lemma flags_grow_set f k : flags_grow f (<[k := true]> f).
Proof.
  intros k' Hk'. destruct (decide (k' = k)) as [->|].
  - apply list_lookup_insert_eq. by eapply lookup_lt_Some.
  - by rewrite list_lookup_insert_ne.
Qed.

Lemma flags_grow_new f : flags_grow f (ActionKey_new f).2.
Proof. intros k Hk. simpl. by apply lookup_app_l_Some. Qed.

#[export] Instance flags_grow_preorder : PreOrder flags_grow.
Proof.
  split; [by intros f k|]. intros f g h Hfg Hgh k Hk. auto.
Qed.

Lemma schedule_from_op {D} `{Deadline D T} (d : D) a o f sh r sh' :
  sched_inv sh → period_wf a → flags_grow f (key_flags sh) →
  schedule_from d a o sh = Done (r, sh') →
  sched_inv sh' ∧ time sh' = time sh ∧ flags_grow f (key_flags sh').
Proof.
  intros Hinv Ha Hf Hs.
  destruct (schedule_from_inv d a o sh r sh' Hinv Ha Hs) as (? & ? & ->). done.
Qed.

(** One operation keeps the invariant and the time; it never clears the flag
    of a key. *)
Lemma sched_op_inv sh sh' :
  sched_op sh sh' → sched_inv sh →
  sched_inv sh' ∧ time sh' = time sh ∧ flags_grow (key_flags sh) (key_flags sh').
Proof.
  destruct 1 as [D ? d a o r sh' Ha Hs|D ? d f adr o r sh' Hs|D ? d f adr o r sh' Hs
    |D ? d p f adr o r sh' Hp Hs|D ? d p f adr o r sh' Hp Hs| |k|k| ]; intros Hinv.
  - by eapply schedule_from_op.
  - rewrite schedule_event_from_eq in Hs.
    eapply schedule_from_op in Hs; [exact Hs|done|exact I|done].
  - pose proof (schedule_keyed_event_from_eq d f adr o sh) as Heq. simpl in Heq.
    rewrite Heq in Hs. apply with_key_Done in Hs as (r0 & Hs & _).
    eapply schedule_from_op in Hs;
      [exact Hs|by apply set_flags_inv|exact I|apply flags_grow_new].
  - rewrite schedule_periodic_event_from_eq in Hs.
    destruct (is_zero p) eqn:Hz; [by simplify_eq|].
    eapply schedule_from_op in Hs; [exact Hs|done|exact Hp|done].
  - pose proof (schedule_keyed_periodic_event_from_eq d p f adr o sh) as Heq.
    simpl in Heq. rewrite Heq in Hs.
    destruct (is_zero p) eqn:Hz; [by simplify_eq|].
    apply with_key_Done in Hs as (r0 & Hs & _).
    eapply schedule_from_op in Hs;
      [exact Hs|by apply set_flags_inv|exact Hp|apply flags_grow_new].
  - split_and!; [by apply set_flags_inv|done|apply flags_grow_new].
  - split_and!; [by apply set_flags_inv|done|apply flags_grow_set].
  - split_and!; [by apply set_flags_inv|done|apply flags_grow_set].
  - split_and!; [by destruct Hinv; split|done|done].
Qed.

Lemma sched_ops_inv sh sh' :
  rtc sched_op sh sh' → sched_inv sh →
  sched_inv sh' ∧ time sh' = time sh ∧ flags_grow (key_flags sh) (key_flags sh').
Proof.
  induction 1 as [sh|sh sh1 sh2 Hop Hops IH]; intros Hinv; [done|].
  destruct (sched_op_inv _ _ Hop Hinv) as (Hinv1 & Ht & Hf).
  destruct (IH Hinv1) as (Hinv2 & Ht2 & Hf2).
  split; [done|]. split; [congruence|]. by etrans.
Qed.
End Invariant.

(** ** Properties *)

Section Properties.
Context {T : Type} `{MonotonicTimeLaws T}.
Context {Call Addr SourceFut : Type}.
Abbreviation Action := (Action Call Addr SourceFut).
Context {Q : Type} `{!StableQueue Q (T * Z) Action} `{!StableQueueLaws Q (T * Z) Action}.
Abbreviation Shared := (Shared Q T).
Implicit Types (sh : Shared) (a : Action).

(** Scheduling an action on every branch.  An overflowing deadline panics;
    a deadline at or before the current time is refused and changes nothing;
    otherwise the action is queued at its time and origin, after the actions
    of that time and origin that are already queued and without moving any
    other, unless the insertion epoch is exhausted. *)
Lemma schedule_from_spec {D} `{Deadline D T} (d : D) a o sh :
  sq_wf (scheduler_queue sh) →
  match into_time d (time sh) with
  | Done t =>
      if decide (t ≤ₒ time sh) then
        schedule_from d a o sh = Done (Err InvalidScheduledTime, sh)
      else if decide (sq_count (scheduler_queue sh) = u64_max) then
        schedule_from d a o sh = Panicked
      else ∃ q, schedule_from d a o sh = Done (Ok tt, set_queue q sh) ∧
        queued (set_queue q sh) = stable_insert (t, o) a (queued sh) ∧
        ∀ k, filter (λ kv, kv.1 = k) (queued (set_queue q sh)) =
             filter (λ kv, kv.1 = k) (queued sh) ++
               (if decide ((t, o) = k) then [((t, o), a)] else [])
  | Panicked => schedule_from d a o sh = Panicked
  | NoFuel => schedule_from d a o sh = NoFuel
  end.
Proof.
  intros Hwf. unfold schedule_from.
  destruct (into_time d (time sh)) as [t| |]; simpl; [|done..].
  destruct (t ≤?ₒ time sh) eqn:Et; ord_simpl.
  - by rewrite decide_True.
  - rewrite decide_False by by apply ord_nle_lt.
    pose proof (sq_insert_spec (scheduler_queue sh) (t, o) a Hwf) as Hins.
    case_decide; [by rewrite Hins|].
    destruct Hins as (q & -> & Hq & Habs & _). exists q. split; [done|].
    split; [done|]. intros k. unfold queued. simpl. rewrite Habs.
    apply stable_insert_filter. by apply sq_sorted.
Qed.

(** Whatever the models and the other holders of a scheduler do (schedule,
    cancel, drop keys, halt), the time does not move and everything queued
    stays strictly in the future. *)
Lemma scheduling_keeps_invariant sh sh' :
  sched_inv sh → rtc sched_op sh sh' → sched_inv sh' ∧ time sh' = time sh.
Proof.
  intros Hinv Hops. by destruct (sched_ops_inv _ _ Hops Hinv) as (? & ? & _).
Qed.

(** Cancellation is permanent.  Once a key is cancelled, or its auto-key
    dropped, every later state has it cancelled: its queued action is skipped
    and, if its message was already sent, the receiver does not call the
    input. *)
Lemma cancellation_is_permanent sh sh' (k : ActionKey) (func : Call) :
  sched_inv sh → k < length (key_flags sh) →
  rtc sched_op (set_flags (ActionKey_cancel (key_flags sh) k) sh) sh' →
  ActionKey_is_cancelled (key_flags sh') k = true ∧
  (∀ gen, Action_is_cancelled (key_flags sh') (KeyedOnceAction gen k : Action) = true) ∧
  (∀ gen p, Action_is_cancelled (key_flags sh') (KeyedPeriodicAction gen p k : Action) = true) ∧
  msg_call (key_flags sh') (KeyedEventMsg k func) = None.
Proof.
  intros Hinv Hk Hops.
  destruct (sched_ops_inv _ _ Hops (set_flags_inv _ _ Hinv)) as (_ & _ & Hgrow).
  assert (key_flags sh' !! k = Some true) as Hf.
  { apply Hgrow. simpl. by apply list_lookup_insert_eq. }
  assert (ActionKey_is_cancelled (key_flags sh') k = true) as Hc.
  { unfold ActionKey_is_cancelled. by rewrite Hf. }
  split_and!; [done|done|done|]. simpl. by rewrite Hc.
Qed.

(** Scheduling a keyed periodic event refuses a null period without any
    effect; when it succeeds the key it returns is fresh (no key allocated
    before aliases it), not cancelled, every older key keeps its state, and
    the queue gains exactly the periodic action that carries this key, at the
    deadline and with the model's origin. *)
Lemma keyed_periodic_event_spec {D} `{Deadline D T} (d : D) p f adr o sh r sh' :
  sq_wf (scheduler_queue sh) →
  schedule_keyed_periodic_event_from d p f adr o sh = Done (r, sh') →
  match r with
  | Ok k => is_zero p = false ∧ k = length (key_flags sh) ∧
      ActionKey_is_cancelled (key_flags sh') k = false ∧
      (∀ k', k' < length (key_flags sh) →
         ActionKey_is_cancelled (key_flags sh') k' = ActionKey_is_cancelled (key_flags sh) k') ∧
      ∃ t, into_time d (time sh) = Done t ∧ time sh <ₒ t ∧
        queued sh' = stable_insert (t, o)
          (KeyedPeriodicAction (λ ek, send_keyed_event ek f adr) p k) (queued sh)
  | Err NullRepetitionPeriod => is_zero p = true ∧ sh' = sh
  | Err InvalidScheduledTime => queued sh' = queued sh ∧
      ∃ t, into_time d (time sh) = Done t ∧ t ≤ₒ time sh
  end.
Proof.
  intros Hwf Hs. pose proof (schedule_keyed_periodic_event_from_eq d p f adr o sh) as Heq.
  simpl in Heq. rewrite Heq in Hs. destruct (is_zero p) eqn:Hz; [by simplify_eq|].
  apply with_key_Done in Hs as (r0 & Hs & ->).
  apply schedule_from_cases in Hs as
    (t & Ht & [(Hle & -> & ->)|(Hlt & -> & q & -> & Hq & Habs & _)]); [..|done]; simpl.
  { eauto. }
  assert ((key_flags sh ++ [false]) !! length (key_flags sh) = Some false) as Hnew.
  { by rewrite lookup_app_r, Nat.sub_diag by lia. }
  split; [done|]. split; [done|]. unfold ActionKey_is_cancelled.
  split; [exact (f_equal (default false) Hnew)|]. split; [|by eauto].
  intros k' Hk'. exact (f_equal (default false) (lookup_app_l _ [false] k' Hk')).
Qed.
End Properties.
