(* ===== verification/Simulation.v ===== *)
(** * The simulation loop (simulation.rs)

    [step_to_next] pulls every action scheduled for the next time stamp,
    groups those of one origin into one sequential task, spawns the tasks on
    the executor, synchronizes with the clock and runs the executor;
    [step_until] iterates it up to a target time.

    The executor is used through the class [Executor]: it accepts tasks and,
    when run, changes the shared scheduling state only through the scheduling
    operations of [Scheduler.v].  While [step_to_next] holds the queue's
    mutex, nothing else changes the queue, so that part is a function on the
    queue.  [step_until] writes the target time without the mutex: the
    operations of other threads in between are its argument [meanwhile].
    Loops take fuel; [step_to_next] gives each of its loops one more
    iteration than there are queued actions. *)

From stdpp Require Import base option list numbers strings relations sorting.
From Stdlib Require Import ZArith Lia.
From S2P Require Import Prelude StableQueue Time SeqFuture Scheduler.

(** ** Model identifiers *)

Definition ModelId : Set := Z.
Definition ModelId_none : ModelId := u64_max.
Definition ModelId_new (id : Z) : outcome ModelId :=
  let! _ := rust_assert (negb (id =? u64_max)%Z) in Done id.
Definition ModelId_get (self : ModelId) : option Z :=
  if negb (self =? u64_max)%Z then Some self else None.

Inductive ExecutorError (Payload : Type) :=
| UnprocessedMessages (msg_count : Z)
| ExecTimeout
| ExecPanic (model_id : ModelId) (payload : Payload).
Arguments UnprocessedMessages {Payload}.
Arguments ExecTimeout {Payload}.
Arguments ExecPanic {Payload}.

Record DeadlockInfo := mkDeadlockInfo { info_model : string; mailbox_size : Z }.

Inductive ExecutionError (T Payload : Type) :=
| Halted
| Terminated
| Deadlock (list : list DeadlockInfo)
| MessageLoss (count : Z)
| NoRecipient (model : option string)
| Panic (model : string) (payload : Payload)
| Timeout
| OutOfSyncErr (lag : Duration)
| BadQuery
| InvalidDeadline (time : T).
Arguments Halted {T Payload}.
Arguments Terminated {T Payload}.
Arguments Deadlock {T Payload}.
Arguments MessageLoss {T Payload}.
Arguments NoRecipient {T Payload}.
Arguments Panic {T Payload}.
Arguments Timeout {T Payload}.
Arguments OutOfSyncErr {T Payload}.
Arguments BadQuery {T Payload}.
Arguments InvalidDeadline {T Payload}.

(** ** Tasks and the executor's interface

    What the simulation spawns: one action, a sequence of actions of one
    origin, a query with the slot its reply is written to, or the task of a
    model. *)
Inductive Task (Call Addr SourceFut QCall : Type) :=
| SpawnFut (fut : Fut Call Addr SourceFut)
| SpawnSeq (seq : SeqFuture (Fut Call Addr SourceFut))
| SpawnQuery (sender : Addr) (func : QCall) (reply_writer : nat)
| SpawnModel (mailbox : Addr) (id : ModelId).
Arguments SpawnFut {Call Addr SourceFut QCall}.
Arguments SpawnSeq {Call Addr SourceFut QCall}.
Arguments SpawnQuery {Call Addr SourceFut QCall}.
Arguments SpawnModel {Call Addr SourceFut QCall}.

Class Executor (E Sh Task Obs Reply Payload : Type) := {
  accepts_tasks : E → bool;
  spawn_and_forget : Task → E → E;
  executor_run : Duration → E → Sh → outcome (E * Sh * result unit (ExecutorError Payload));
  observer_len : E → Obs → Z;
  slot_new : E → nat * E;
  slot_try_read : E → nat → option Reply;
}.

#[export] Hint Mode Executor ! - - - - - : typeclass_instances.

(** Spawning panics on an executor that accepts no tasks. *)
Definition spawn_task {E Sh Task Obs Reply Payload : Type}
    `{!Executor E Sh Task Obs Reply Payload} (t : Task) (e : E) : outcome E :=
  if accepts_tasks e then Done (spawn_and_forget t e) else Panicked.

(** Only a run that fails makes an executor refuse tasks. *)
Class ExecutorAccepts {E Sh Task Obs Reply Payload : Type}
    `{!Executor E Sh Task Obs Reply Payload} := {
  spawn_accepts : ∀ (t : Task) (e : E), accepts_tasks (spawn_and_forget t e) = accepts_tasks e;
  run_accepts : ∀ d (e e' : E) (sh sh' : Sh),
    executor_run d e sh = Done (e', sh', Ok tt) → accepts_tasks e = true →
    accepts_tasks e' = true;
}.

(** ** The simulation *)

Record Simulation (E C Sh Obs : Type) := mkSim {
  executor : E;
  shared : Sh;
  clock : C;
  clock_tolerance : option Duration;
  timeout : Duration;
  observers : list (string * Obs);
  model_names : list string;
  is_terminated : bool;
}.
Arguments mkSim {E C Sh Obs}.
Arguments executor {E C Sh Obs}.
Arguments shared {E C Sh Obs}.
Arguments clock {E C Sh Obs}.
Arguments clock_tolerance {E C Sh Obs}.
Arguments timeout {E C Sh Obs}.
Arguments observers {E C Sh Obs}.
Arguments model_names {E C Sh Obs}.
Arguments is_terminated {E C Sh Obs}.

Section Setters.
Context {E C Sh Obs : Type}.
Implicit Types s : Simulation E C Sh Obs.

Definition set_executor (e : E) s : Simulation E C Sh Obs :=
  mkSim e (shared s) (clock s) (clock_tolerance s) (timeout s) (observers s)
    (model_names s) (is_terminated s).
Definition set_shared (sh : Sh) s : Simulation E C Sh Obs :=
  mkSim (executor s) sh (clock s) (clock_tolerance s) (timeout s) (observers s)
    (model_names s) (is_terminated s).
Definition set_clock (c : C) s : Simulation E C Sh Obs :=
  mkSim (executor s) (shared s) c (clock_tolerance s) (timeout s) (observers s)
    (model_names s) (is_terminated s).
Definition set_timeout (timeout : Duration) s : Simulation E C Sh Obs :=
  mkSim (executor s) (shared s) (clock s) (clock_tolerance s) timeout (observers s)
    (model_names s) (is_terminated s).
Definition set_terminated s : Simulation E C Sh Obs :=
  mkSim (executor s) (shared s) (clock s) (clock_tolerance s) (timeout s) (observers s)
    (model_names s) true.
End Setters.

Section Operations.
Context {T : Type} `{MonotonicTime T}.
Context {Call Addr SourceFut QCall Obs Reply Payload : Type}.
Abbreviation Action := (Action Call Addr SourceFut).
Abbreviation Task := (Task Call Addr SourceFut QCall).
Context {Q : Type} `{!StableQueue Q (T * Z) Action}.
Abbreviation Shared := (Shared Q T).
Context {E : Type} `{!Executor E Shared Task Obs Reply Payload}.
Context {C : Type} `{!Clock C T}.
(** [TypeId::of::<SendError>()] is the type of the payload. *)
Context (is_send_error : Payload → bool).
Abbreviation Simulation := (Simulation E C Shared Obs).
Abbreviation ExecutionError := (ExecutionError T Payload).
Implicit Types (q : Q) (self : Simulation).

Definition Simulation_new (executor : E) (shared : Shared) (clock : C)
    (clock_tolerance : option Duration) (timeout : Duration)
    (observers : list (string * Obs)) (model_names : list string) : Simulation :=
  mkSim executor shared clock clock_tolerance timeout observers model_names false.

Definition Simulation_time self : T := time (shared self).

(** *** Running the executor *)

Definition deadlock_info self : list DeadlockInfo :=
  omap (λ mo : string * Obs,
    let mailbox_size := observer_len (executor self) mo.2 in
    if negb (mailbox_size =? 0)%Z then Some (mkDeadlockInfo mo.1 mailbox_size) else None)
    (observers self).

(** The translation of executor errors.  The index of a model name that does
    not exist panics, as does a panic that does not come from a model. *)
Definition map_executor_error self (e : ExecutorError Payload) : outcome ExecutionError :=
  match e with
  | UnprocessedMessages msg_count =>
      match deadlock_info self with
      | [] => Done (MessageLoss msg_count)
      | info => Done (Deadlock info)
      end
  | ExecTimeout => Done Timeout
  | ExecPanic model_id payload =>
      let! model :=
        match ModelId_get model_id with
        | Some id => let! name := unwrap (model_names self !! Z.to_nat id) in Done (Some name)
        | None => Done None
        end in
      if is_send_error payload then Done (NoRecipient model)
      else
        match model with
        | Some model => Done (Panic model payload)
        | None => Panicked
        end
  end.

Definition run self : outcome (result unit ExecutionError * Simulation) :=
  if is_terminated self then Done (Err Terminated, self)
  else if is_halted (shared self) then Done (Err Halted, set_terminated self)
  else
    let! (e, sh, r) := executor_run (timeout self) (executor self) (shared self) in
    let self := set_shared sh (set_executor e self) in
    match r with
    | Ok _ => Done (Ok tt, self)
    | Err e =>
        let self := set_terminated self in
        let! err := map_executor_error self e in
        Done (Err err, self)
    end.

(** *** Stepping *)

Definition pull_next_action q : outcome (Action * Q) :=
  let! (time, channel_id, action, q) := unwrap (sq_pull q) in
  match Action_next action with
  | Some (action_clone, period) =>
      let! t := mt_add time period in
      let! q := sq_insert (t, channel_id) action_clone q in
      Done (action, q)
  | None => Done (action, q)
  end.

Fixpoint peek_next_key (fuel : nat) (upper_time_bound : T) (flags : KeyFlags) q :
    outcome (option (T * Z) * Q) :=
  match fuel with
  | O => NoFuel
  | S fuel =>
      match sq_peek q with
      | Some (key, action) =>
          if key.1 ≤?ₒ upper_time_bound then
            if negb (Action_is_cancelled flags action) then Done (Some key, q)
            else
              peek_next_key fuel upper_time_bound flags
                (match sq_pull q with Some (_, q) => q | None => q end)
          else Done (None, q)
      | None => Done (None, q)
      end
  end.

(** The inner loop: actions of the current key are appended to the sequence. *)
Fixpoint seq_loop (fuel pfuel : nat) (upper_time_bound : T) (flags : KeyFlags)
    (current_key : T * Z) (action_sequence : SeqFuture (Fut Call Addr SourceFut)) q :
    outcome (SeqFuture (Fut Call Addr SourceFut) * option (T * Z) * Q) :=
  match fuel with
  | O => NoFuel
  | S fuel =>
      let! (action, q) := pull_next_action q in
      let action_sequence := push (Action_into_future action) action_sequence in
      let! (next_key, q) := peek_next_key pfuel upper_time_bound flags q in
      if bool_decide (next_key = Some current_key) then
        seq_loop fuel pfuel upper_time_bound flags current_key action_sequence q
      else Done (action_sequence, next_key, q)
  end.

(** The outer loop, up to the release of the queue's mutex. *)
Fixpoint step_loop (fuel pfuel : nat) (upper_time_bound : T) (flags : KeyFlags)
    (current_key : T * Z) q (e : E) : outcome (T * Q * E) :=
  match fuel with
  | O => NoFuel
  | S fuel =>
      let! (action, q) := pull_next_action q in
      let! (next_key, q) := peek_next_key pfuel upper_time_bound flags q in
      let! (next_key, q, e) :=
        if negb (bool_decide (next_key = Some current_key)) then
          let! e := spawn_task (SpawnFut (Action_into_future action)) e in
          Done (next_key, q, e)
        else
          let action_sequence := push (Action_into_future action) SeqFuture.new in
          let! (action_sequence, next_key, q) :=
            seq_loop pfuel pfuel upper_time_bound flags current_key action_sequence q in
          let! e := spawn_task (SpawnSeq action_sequence) e in
          Done (next_key, q, e) in
      match next_key with
      | Some k =>
          if bool_decide (k.1 = current_key.1) then
            step_loop fuel pfuel upper_time_bound flags k q e
          else Done (current_key.1, q, e)
      | None => Done (current_key.1, q, e)
      end
  end.

Definition step_fuel q : nat := S (length (sq_abs q)).

(** Synchronization with the clock; [false] when the lag exceeds the
    tolerance, and then the simulation is terminated. *)
Definition synchronize_clock (current_time : T) self :
    result unit ExecutionError * Simulation :=
  let (c, status) := synchronize (clock self) current_time in
  let self := set_clock c self in
  match status with
  | OutOfSync lag =>
      match clock_tolerance self with
      | Some tolerance =>
          if tolerance <?ₒ lag then (Err (OutOfSyncErr lag), set_terminated self)
          else (Ok tt, self)
      | None => (Ok tt, self)
      end
  | Synchronized => (Ok tt, self)
  end.

(** What follows the release of the queue's mutex. *)
Definition finish_step (current_time : T) self :
    outcome (result (option T) ExecutionError * Simulation) :=
  match synchronize_clock current_time self with
  | (Err err, self) => Done (Err err, self)
  | (Ok _, self) =>
      let! (r, self) := run self in
      match r with
      | Err err => Done (Err err, self)
      | Ok _ => Done (Ok (Some current_time), self)
      end
  end.

Definition step_to_next (upper_time_bound : option T) self :
    outcome (result (option T) ExecutionError * Simulation) :=
  if is_terminated self then Done (Err Terminated, self)
  else if is_halted (shared self) then Done (Err Halted, set_terminated self)
  else
    let upper_time_bound := default MT_MAX upper_time_bound in
    let flags := key_flags (shared self) in
    let q := scheduler_queue (shared self) in
    let fuel := step_fuel q in
    let! (key, q) := peek_next_key fuel upper_time_bound flags q in
    match key with
    | None => Done (Ok None, set_shared (set_queue q (shared self)) self)
    | Some current_key =>
        let sh := set_time current_key.1 (shared self) in
        let! (current_time, q, e) :=
          step_loop fuel fuel upper_time_bound flags current_key q (executor self) in
        finish_step current_time (set_executor e (set_shared (set_queue q sh) self))
    end.

Definition step self : outcome (result unit ExecutionError * Simulation) :=
  let! (r, self) := step_to_next None self in
  Done (result_map (λ _, tt) r, self).

(** The case where nothing is scheduled up to the target time.  The queue's
    mutex was released when [step_to_next] returned and is not held while the
    time is written: [meanwhile] is what the other threads do to the shared
    state between the two. *)
Definition advance_to (meanwhile : Shared → Shared) (target_time : T) self :
    result unit ExecutionError * Simulation :=
  let self := set_shared (meanwhile (shared self)) self in
  let self := set_shared (set_time target_time (shared self)) self in
  synchronize_clock target_time self.

Fixpoint step_until_unchecked (meanwhile : Shared → Shared) (fuel : nat)
    (target_time : option T) self :
    outcome (result unit ExecutionError * Simulation) :=
  match fuel with
  | O => NoFuel
  | S fuel =>
      let! (r, self) := step_to_next target_time self in
      match r with
      | Ok t =>
          if bool_decide (t = target_time) then Done (Ok tt, self)
          else
            match t with
            | None =>
                match target_time with
                | Some target_time => Done (advance_to meanwhile target_time self)
                | None => Done (Ok tt, self)
                end
            | Some _ => step_until_unchecked meanwhile fuel target_time self
            end
      | Err e => Done (Err e, self)
      end
  end.

Definition step_until {D : Type} `{Deadline D T} (meanwhile : Shared → Shared)
    (fuel : nat) (deadline : D) self :
    outcome (result unit ExecutionError * Simulation) :=
  let now := time (shared self) in
  let! target_time := into_time deadline now in
  if target_time <?ₒ now then Done (Err (InvalidDeadline target_time), self)
  else step_until_unchecked meanwhile fuel (Some target_time) self.

(** Without a target the time is never written outside a step. *)
Definition step_unbounded (fuel : nat) self := step_until_unchecked id fuel None self.

(** *** Immediate processing *)

Definition process (action : Action) self :
    outcome (result unit ExecutionError * Simulation) :=
  let! e := spawn_task (SpawnFut (Action_into_future action)) (executor self) in
  run (set_executor e self).

Definition process_event (func : Call) (address : Addr) self :
    outcome (result unit ExecutionError * Simulation) :=
  let fut := Scheduler.process_event func address in
  let! e := spawn_task (SpawnFut fut) (executor self) in
  run (set_executor e self).

Definition process_query (func : QCall) (address : Addr) self :
    outcome (result Reply ExecutionError * Simulation) :=
  let (reply, e) := slot_new (executor self) in
  let! e := spawn_task (SpawnQuery address func reply) e in
  let! (r, self) := run (set_executor e self) in
  match r with
  | Err err => Done (Err err, self)
  | Ok _ =>
      match slot_try_read (executor self) reply with
      | Some v => Done (Ok v, self)
      | None => Done (Err BadQuery, self)
      end
  end.
End Operations.
