(* ===== verification/StepFacts.v ===== *)
(** * What one simulation step does

    A reference description of [step_to_next] on the sorted list of scheduled
    actions: drop the cancelled actions that come first, take the time of the
    first one left, run its live actions grouped by origin, put the periodic
    ones back.  The theorems say that the loops of [Simulation.v], which work
    on the queue one pull at a time, implement this description. *)

From stdpp Require Import base option list numbers strings relations sorting.
From Stdlib Require Import ZArith Lia.
From S2P Require Import Prelude StableQueue Time SeqFuture Scheduler Simulation.

(** ** The reference description *)

Section Spec.
Context {T : Type} `{MonotonicTime T}.
Context {Call Addr SourceFut : Type}.
Abbreviation Action := (Action Call Addr SourceFut).
Abbreviation Entry := (T * Z * Action)%type.

Definition is_live (flags : KeyFlags) (kv : Entry) : Prop :=
  Action_is_cancelled flags kv.2 = false.

#[export] Instance is_live_dec flags kv : Decision (is_live flags kv).
Proof. unfold is_live. apply _. Defined.

(** Drops the cancelled entries before the first live one, up to [ub]. *)
Fixpoint dropc (ub : T) (flags : KeyFlags) (l : list Entry) : list Entry :=
  match l with
  | kv :: l' =>
      if (kv.1.1 ≤?ₒ ub) && Action_is_cancelled flags kv.2 then dropc ub flags l' else l
  | [] => []
  end.

Definition next_of (ub : T) (l : list Entry) : option (T * Z) :=
  match l with
  | kv :: _ => if kv.1.1 ≤?ₒ ub then Some kv.1 else None
  | [] => None
  end.

Definition next_key (ub : T) (flags : KeyFlags) (l : list Entry) : option (T * Z) :=
  next_of ub (dropc ub flags l).

(** The live entries at time [t], and the entries after [t]. *)
Definition batch (t : T) (flags : KeyFlags) (l : list Entry) : list Entry :=
  filter (is_live flags) (filter (λ kv, kv.1.1 = t) l).
Definition after (t : T) (l : list Entry) : list Entry :=
  filter (λ kv, t <ₒ kv.1.1) l.

(** Re-scheduling of periodic actions, on the entries and the number of
    insertions made so far, which the insertion epoch bounds. *)
Definition resched1 (kv : Entry) (lc : list Entry * Z) : outcome (list Entry * Z) :=
  match Action_next kv.2 with
  | Some (a, period) =>
      let! t := mt_add kv.1.1 period in
      if decide (lc.2 = u64_max) then Panicked
      else Done (stable_insert (t, kv.1.2) a lc.1, (lc.2 + 1)%Z)
  | None => Done lc
  end.

Fixpoint resched (es : list Entry) (lc : list Entry * Z) : outcome (list Entry * Z) :=
  match es with
  | [] => Done lc
  | kv :: es => let! lc := resched1 kv lc in resched es lc
  end.

(** Maximal runs of entries with one key, that is with one time and origin. *)
Fixpoint group_keys (l : list Entry) : list (T * Z * list Action) :=
  match l with
  | [] => []
  | kv :: l' =>
      match group_keys l' with
      | g :: gs => if decide (kv.1 = g.1) then (g.1, kv.2 :: g.2) :: gs
                   else (kv.1, [kv.2]) :: g :: gs
      | [] => [(kv.1, [kv.2])]
      end
  end.

Context {QCall : Type}.

(** The task spawned for a group. *)
Definition group_task (g : T * Z * list Action) : Task Call Addr SourceFut QCall :=
  match g.2 with
  | [a] => SpawnFut (Action_into_future a)
  | l => SpawnSeq (mkSeq (Action_into_future <$> l) 0)
  end.
End Spec.

Section Facts.
Context {T : Type} `{MonotonicTimeLaws T}.
Context {Call Addr SourceFut QCall Obs Reply Payload : Type}.
Abbreviation Action := (Action Call Addr SourceFut).
Abbreviation Task := (Task Call Addr SourceFut QCall).
Abbreviation Entry := (T * Z * Action)%type.
Context {Q : Type} `{!StableQueue Q (T * Z) Action} `{!StableQueueLaws Q (T * Z) Action}.
Abbreviation Shared := (Shared Q T).
Context {E : Type} `{!Executor E Shared Task Obs Reply Payload}.
Context `{Hacc : !ExecutorAccepts (E := E)}.
Context (ub : T) (flags : KeyFlags).
Implicit Types (q : Q) (kv : Entry) (l now L : list Entry) (lc : list Entry * Z) (e : E).

Definition spawn_groups (gs : list (T * Z * list Action)) (e : E) : E :=
  foldl (λ e g, spawn_and_forget (group_task g) e) e gs.

(** ** Lists *)

Lemma dropc_length l : length (dropc ub flags l) ≤ length l.
Proof. induction l as [|kv l IH]; simpl; [done|]. case_match; simpl; lia. Qed.

Lemma dropc_Forall (P : Entry → Prop) l : Forall P l → Forall P (dropc ub flags l).
Proof. induction 1; simpl; [done|]. case_match; auto. Qed.

Lemma dropc_app_dead now later :
  Forall (λ kv, kv.1.1 ≤ₒ ub) now → filter (is_live flags) now = [] →
  dropc ub flags (now ++ later) = dropc ub flags later.
Proof.
  induction 1 as [|kv now Hub Hnow IH]; simpl; [done|].
  rewrite filter_cons. apply ord_leb_le in Hub as ->. simpl.
  destruct (decide (is_live flags kv)) as [|Hd]; [done|]. intros Hf.
  unfold is_live in Hd. destruct (Action_is_cancelled flags kv.2); [auto|done].
Qed.

Lemma dropc_app_live now later kv L :
  Forall (λ kv, kv.1.1 ≤ₒ ub) now → filter (is_live flags) now = kv :: L →
  ∃ now', dropc ub flags (now ++ later) = kv :: now' ++ later ∧
    filter (is_live flags) now' = L ∧ kv :: now' `suffix_of` now.
Proof.
  induction 1 as [|kv' now Hub Hnow IH]; simpl; [done|].
  rewrite filter_cons. apply ord_leb_le in Hub as ->. simpl.
  destruct (decide (is_live flags kv')) as [Hd|Hd]; unfold is_live in Hd.
  - rewrite Hd. intros [= -> <-]. exists now. done.
  - destruct (Action_is_cancelled flags kv'.2); [|done].
    intros Hf. destruct (IH Hf) as (now' & ? & ? & ?).
    exists now'. split_and!; [done..|]. by apply suffix_cons_r.
Qed.

Lemma resched_cons kv L lc : resched (kv :: L) lc = obind (resched1 kv lc) (resched L).
Proof. done. Qed.

Lemma resched_app L1 L2 lc :
  resched (L1 ++ L2) lc = let! lc := resched L1 lc in resched L2 lc.
Proof.
  revert lc. induction L1 as [|kv L1 IH]; intros lc; simpl; [done|].
  by destruct (resched1 kv lc); simpl.
Qed.

(** The first group of a non-empty list. *)
Lemma group_keys_split kv L :
  ∃ acts rest, kv :: L = (pair kv.1 <$> kv.2 :: acts) ++ rest ∧
    head (fst <$> rest) ≠ Some kv.1 ∧
    group_keys (kv :: L) = (kv.1, kv.2 :: acts) :: group_keys rest.
Proof.
  revert kv. induction L as [|kv' L IH]; intros [k a].
  - exists [], []. done.
  - destruct (IH kv') as (acts & rest & Heq & Hh & Hg).
    destruct (decide (k = kv'.1)) as [->|Hne].
    + exists (kv'.2 :: acts), rest. split_and!; [by rewrite Heq|done|].
      cbn [group_keys fst snd] in *. rewrite Hg. simpl. by rewrite decide_True.
    + exists [], (kv' :: L). split_and!; [done|simpl; congruence|].
      change (group_keys ((k, a) :: kv' :: L)) with
        (match group_keys (kv' :: L) with
         | g :: gs => if decide (k = g.1) then (g.1, a :: g.2) :: gs
                      else (k, [a]) :: g :: gs
         | [] => [(k, [a])]
         end).
      rewrite Hg. simpl. by rewrite decide_False.
Qed.

(** ** The state of the queue between two pulls

    [L] are the live entries at the current time [t] that are still queued,
    [lc.1] the entries after [t] and [lc.2] the number of insertions. *)
Record St (t : T) (n : nat) L lc q : Prop := {
  st_now : ∃ now, sq_abs q = dropc ub flags (now ++ lc.1) ∧
    filter (is_live flags) now = L ∧ Forall (λ kv, kv.1.1 = t) now ∧
    Forall (λ kv, action_ok kv.2) now ∧ length now + length lc.1 < n;
  st_later : Forall (λ kv, t <ₒ kv.1.1) lc.1;
  st_wf : sq_wf q;
  st_count : sq_count q = lc.2;
}.

Lemma peek_next_key_spec fuel q :
  sq_wf q → length (sq_abs q) < fuel →
  ∃ q', peek_next_key fuel ub flags q = Done (next_key ub flags (sq_abs q), q') ∧
    sq_wf q' ∧ sq_abs q' = dropc ub flags (sq_abs q) ∧ sq_count q' = sq_count q.
Proof.
  revert q. induction fuel as [|fuel IH]; intros q Hwf Hlt; [lia|].
  simpl. rewrite sq_peek_spec by done. unfold next_key.
  pose proof (sq_pull_spec q Hwf) as Hpull.
  destruct (sq_abs q) as [|[key a] l] eqn:El; simpl.
  { exists q. by rewrite El. }
  destruct (key.1 ≤?ₒ ub) eqn:Ek; simpl; [|exists q; by rewrite El, Ek].
  destruct (Action_is_cancelled flags a) eqn:Ec; simpl;
    [|exists q; by rewrite El, Ek].
  destruct Hpull as (q1 & -> & Hwf1 & Habs1 & Hc1).
  destruct (IH q1 Hwf1) as (q' & -> & Hwf' & Habs' & Hc').
  { rewrite Habs1. simpl in Hlt. lia. }
  exists q'. unfold next_key. rewrite <-Hc1, <-Habs1. done.
Qed.

Lemma pull_next_action_spec q kv l :
  sq_wf q → sq_abs q = kv :: l →
  orel (λ lc r, r.1 = kv.2 ∧ sq_wf r.2 ∧ sq_abs r.2 = lc.1 ∧ sq_count r.2 = lc.2)
    (resched1 kv (l, sq_count q)) (pull_next_action q).
Proof.
  intros Hwf Habs. pose proof (sq_pull_spec q Hwf) as Hpull.
  rewrite Habs in Hpull. destruct Hpull as (q1 & Hp & Hwf1 & Habs1 & Hc1).
  unfold pull_next_action. rewrite Hp. destruct kv as [[t o] a]. simpl.
  unfold resched1. simpl. destruct (Action_next a) as [[a' p]|]; simpl; [|done].
  destruct (mt_add t p) as [t'| |]; simpl; [|done..].
  pose proof (sq_insert_spec q1 (t', o) a' Hwf1) as Hins. rewrite Hc1 in Hins.
  case_decide; [by rewrite Hins|].
  destruct Hins as (q2 & -> & Hwf2 & Habs2 & Hc2). simpl.
  rewrite Habs2, Habs1. done.
Qed.

(** A non-zero period puts the action back after the current time. *)
Lemma resched1_app t kv now lc :
  kv.1.1 = t → action_ok kv.2 → Forall (λ kv, kv.1.1 = t) now →
  resched1 kv (now ++ lc.1, lc.2) =
  let! lc' := resched1 kv lc in Done (now ++ lc'.1, lc'.2).
Proof.
  intros Hkv Hok Hnow. unfold resched1, action_ok in *.
  destruct (Action_next kv.2) as [[a p]|]; [|done]. destruct Hok as [Hwf Hz].
  destruct (mt_add kv.1.1 p) as [t'| |] eqn:Et; simpl; [|done..].
  case_decide; [done|]. simpl.
  do 2 f_equal. apply stable_insert_app_le. eapply Forall_impl; [exact Hnow|].
  simpl. intros kv' Hkv'. apply prod_le_iff. left. simpl.
  rewrite Hkv', <-Hkv. by eapply mt_add_lt.
Qed.

Lemma resched1_later t kv lc lc' :
  kv.1.1 = t → action_ok kv.2 → Forall (λ kv, t <ₒ kv.1.1) lc.1 →
  resched1 kv lc = Done lc' →
  Forall (λ kv, t <ₒ kv.1.1) lc'.1 ∧ length lc'.1 ≤ S (length lc.1).
Proof.
  intros Hkv Hok Hl. unfold resched1, action_ok in *.
  destruct (Action_next kv.2) as [[a p]|]; [|intros [= <-]; split; [done|lia]].
  destruct Hok as [Hwf Hz].
  destruct (mt_add kv.1.1 p) as [t'| |] eqn:Et; simpl; [|done..].
  case_decide; [done|]. intros [= <-]. simpl.
  rewrite stable_insert_length, stable_insert_Forall. simpl.
  split_and!; [|done|lia]. rewrite <-Hkv. by eapply mt_add_lt.
Qed.

(** The key that a peek returns in a state. *)
Definition st_next L lc : option (T * Z) :=
  match L with kv :: _ => Some kv.1 | [] => next_key ub flags lc.1 end.

Lemma St_peek t n L lc q now :
  t ≤ₒ ub → sq_abs q = now ++ lc.1 → filter (is_live flags) now = L →
  Forall (λ kv, kv.1.1 = t) now → Forall (λ kv, action_ok kv.2) now →
  length now + length lc.1 < n → Forall (λ kv, t <ₒ kv.1.1) lc.1 →
  sq_count q = lc.2 → sq_wf q →
  ∃ q', peek_next_key n ub flags q = Done (st_next L lc, q') ∧ St t n L lc q'.
Proof.
  intros Ht Habs Hf Hnow Hok Hlen Hl Hc Hwf.
  destruct (peek_next_key_spec n q Hwf) as (q1 & -> & Hwf1 & Habs1 & Hc1).
  { rewrite Habs, length_app. done. }
  exists q1. split.
  - do 2 f_equal. unfold next_key. rewrite Habs.
    assert (Forall (λ kv, kv.1.1 ≤ₒ ub) now) as Hub.
    { eapply Forall_impl; [exact Hnow|]. simpl. by intros kv ->. }
    destruct L as [|kv L]; simpl.
    + by rewrite dropc_app_dead.
    + destruct (dropc_app_live now lc.1 kv L) as (now' & -> & _ & Hs); [done..|].
      simpl. assert (kv.1.1 = t) as ->.
      { destruct Hs as [pre ->]. apply Forall_app in Hnow as [_ Hnow].
        by apply Forall_cons in Hnow as [? _]. }
      by apply ord_leb_le in Ht as ->.
  - split; [|done|done|by rewrite Hc1].
    exists now. rewrite Habs1, Habs. done.
Qed.

(** One pull followed by one peek. *)
Lemma St_pull t n kv L lc q :
  t ≤ₒ ub → St t n (kv :: L) lc q →
  orel (λ lc' r, r.1 = kv.2 ∧ ∃ q', peek_next_key n ub flags r.2 =
          Done (st_next L lc', q') ∧ St t n L lc' q')
    (resched1 kv lc) (pull_next_action q).
Proof.
  intros Ht [(now & Habs & Hf & Hnow & Hok & Hlen) Hl Hwf Hc].
  assert (Forall (λ kv, kv.1.1 ≤ₒ ub) now) as Hub.
  { eapply Forall_impl; [exact Hnow|]. simpl. by intros kv' ->. }
  destruct (dropc_app_live now lc.1 kv L Hub Hf) as (now' & Hd & Hf' & [pre ->]).
  apply Forall_app in Hnow as [_ Hnow], Hok as [_ Hok].
  apply Forall_cons in Hnow as [Hkv Hnow], Hok as [Hkok Hok].
  rewrite length_app in Hlen. simpl in Hlen.
  pose proof (pull_next_action_spec q kv (now' ++ lc.1)) as Hpull.
  rewrite Hc, (resched1_app t), Habs, Hd in Hpull by done.
  specialize (Hpull Hwf eq_refl).
  destruct (resched1 kv lc) as [lc'| |] eqn:Er;
    destruct (pull_next_action q) as [[a q1]| |]; try done; simpl in *.
  destruct Hpull as (-> & Hwf1 & Habs1 & Hc1). split; [done|].
  destruct (resched1_later t kv lc lc') as [Hl' Hlen']; [done..|].
  apply (St_peek t n L lc' q1 now'); try done; lia.
Qed.

Lemma st_next_ne t L lc (k : T * Z) :
  k.1 = t → head (fst <$> L) ≠ Some k → Forall (λ kv, t <ₒ kv.1.1) lc.1 →
  st_next L lc ≠ Some k.
Proof.
  intros Hk Hh Hl. destruct L as [|kv L]; simpl in *; [|done].
  unfold next_key. apply (dropc_Forall _ lc.1) in Hl.
  destruct Hl as [|kv' l' Hlt Hl]; simpl; [done|].
  destruct (kv'.1.1 ≤?ₒ ub); [|done]. intros [= <-]. rewrite Hk in Hlt.
  by apply ord_lt_irrefl in Hlt.
Qed.

(** The inner loop consumes the rest of the current group. *)
Lemma seq_loop_spec t n (k : T * Z) a acts rest lc fuel acc q :
  t ≤ₒ ub → k.1 = t → head (fst <$> rest) ≠ Some k → length acts < fuel →
  St t n ((pair k <$> a :: acts) ++ rest) lc q →
  orel (λ lc' r,
      r.1 = (mkSeq (inner acc ++ (Action_into_future <$> a :: acts)) (idx acc),
             st_next rest lc') ∧
      St t n rest lc' r.2)
    (resched (pair k <$> a :: acts) lc) (seq_loop fuel n ub flags k acc q).
Proof.
  intros Ht Hk Hh. revert fuel a acc lc q.
  induction acts as [|a' acts IH]; intros [|fuel] a acc lc q Hlt HSt;
    [simpl in Hlt; lia| |simpl in Hlt; lia|].
  - pose proof (St_pull t n (k, a) rest lc q Ht HSt) as Hp. simpl.
    eapply orel_bind; [exact Hp|]. simpl. intros lc' [a0 q1] [? (q2 & Hpk & HSt2)].
    simpl in *. subst a0. rewrite Hpk.
    simpl. rewrite bool_decide_eq_false_2; [done|].
    apply (st_next_ne t); [done..|]. by destruct HSt2.
  - pose proof (St_pull t n (k, a) ((pair k <$> a' :: acts) ++ rest) lc q Ht HSt) as Hp.
    change (resched (pair k <$> a :: a' :: acts) lc) with
      (obind (resched1 (k, a) lc) (resched (pair k <$> a' :: acts))).
    cbn [seq_loop]. eapply orel_bind; [exact Hp|].
    intros lc' [a0 q1] [Ha0 (q2 & Hpk & HSt2)].
    simpl in Ha0, Hpk. subst a0.
    rewrite Hpk. cbn [obind]. rewrite bool_decide_eq_true_2 by done.
    eapply orel_mono; [apply (IH fuel a')|]; [simpl in Hlt; lia|done|].
    simpl. intros l [[sq nk] q3]. simpl. by rewrite <-app_assoc.
Qed.

Lemma St_head t n kv L lc q : St t n (kv :: L) lc q → kv.1.1 = t.
Proof.
  intros [(now & _ & Hf & Hnow & _) _ _ _].
  assert (Forall (λ kv, kv.1.1 = t) (filter (is_live flags) now)) as HL.
  { by apply Forall_filter_of. }
  rewrite Hf in HL. by apply Forall_cons in HL as [? _].
Qed.

Lemma St_length t n L lc q : St t n L lc q → length L < n.
Proof.
  intros [(now & _ & <- & _ & _ & Hlen) _ _ _].
  pose proof (length_filter (is_live flags) now). lia.
Qed.

Lemma St_nil t n lc q :
  t ≤ₒ ub → St t n [] lc q → sq_abs q = dropc ub flags lc.1.
Proof.
  intros Ht [(now & -> & Hf & Hnow & _) _ _ _]. apply dropc_app_dead; [|done].
  eapply Forall_impl; [exact Hnow|]. simpl. by intros kv ->.
Qed.

(** The outer loop spawns the groups of the live entries in order and leaves
    the re-scheduled queue, up to cancelled entries at its front. *)
Lemma step_loop_spec t n L lc fuel kv q e :
  accepts_tasks e = true → t ≤ₒ ub → length (kv :: L) ≤ fuel → St t n (kv :: L) lc q →
  orel (λ lc' r,
      ∃ q', r = (t, q', spawn_groups (group_keys (kv :: L)) e) ∧ St t n [] lc' q')
    (resched (kv :: L) lc) (step_loop fuel n ub flags kv.1 q e).
Proof.
  intros Hae Ht. revert L kv lc q e Hae.
  induction fuel as [|fuel IH]; intros L kv lc q e Hae Hlen HSt; [simpl in Hlen; lia|].
  pose proof (St_head _ _ _ _ _ _ HSt) as Hkt.
  pose proof (St_length _ _ _ _ _ HSt) as HLn.
  destruct (group_keys_split kv L) as (acts & rest & HL & Hh & Hg).
  rewrite Hg. destruct kv as [k a]. simpl fst in *. simpl snd in *.
  assert (∀ (lc' : list Entry * Z) (q' : Q) (e' : E), accepts_tasks e' = true →
    St t n rest lc' q' →
    orel (λ lc'' r, ∃ q'', r = (t, q'', spawn_groups (group_keys rest) e') ∧
            St t n [] lc'' q'')
      (resched rest lc')
      (match st_next rest lc' with
       | Some k' => if bool_decide (k'.1 = k.1) then step_loop fuel n ub flags k' q' e'
                    else Done (k.1, q', e')
       | None => Done (k.1, q', e')
       end)) as Hcont.
  { intros lc' q' e' Hae' HSt'. destruct rest as [|kv' rest']; unfold st_next.
    - simpl. pose proof (st_later _ _ _ _ _ HSt') as Hl.
      apply (dropc_Forall _ lc'.1) in Hl. unfold next_key.
      destruct Hl as [|kv' l' Hlt Hl]; simpl; [rewrite Hkt; eauto|].
      destruct (kv'.1.1 ≤?ₒ ub); [|simpl; rewrite Hkt; eauto].
      rewrite bool_decide_eq_false_2; [simpl; rewrite Hkt; eauto|].
      intros Heq. rewrite Heq, Hkt in Hlt. by apply ord_lt_irrefl in Hlt.
    - rewrite bool_decide_eq_true_2
        by (rewrite Hkt; by apply (St_head _ _ _ _ _ _ HSt')).
      apply IH; [done| |done]. simplify_list_eq.
      rewrite length_app, length_fmap in Hlen. simpl in *. lia. }
  destruct acts as [|a' acts].
  - simpl in HL. injection HL as ->.
    rewrite resched_cons. cbn [step_loop]. eapply orel_bind; [by apply (St_pull t n (k, a) rest)|].
    intros lc' [a0 q1] [Ha (q2 & Hpk & HSt2)]. simpl in Ha, Hpk. subst a0.
    rewrite Hpk. cbn [obind].
    rewrite bool_decide_eq_false_2
      by (apply (st_next_ne t); [done..|by destruct HSt2]).
    simpl negb. unfold spawn_task. rewrite Hae. cbn [obind]. apply Hcont; [|done].
    by rewrite spawn_accepts.
  - assert (L = (pair k <$> a' :: acts) ++ rest) as -> by (by injection HL).
    rewrite resched_cons. cbn [step_loop].
    eapply orel_bind; [by apply (St_pull t n (k, a) ((pair k <$> a' :: acts) ++ rest))|].
    intros lc' [a0 q1] [Ha (q2 & Hpk & HSt2)]. simpl in Ha, Hpk. subst a0.
    rewrite Hpk, resched_app. cbn [obind].
    rewrite bool_decide_eq_true_2 by done. simpl negb. cbv iota.
    assert (length acts < n) as Hacts.
    { simpl in HLn. rewrite length_app, length_fmap in HLn. lia. }
    pose proof (seq_loop_spec t n k a' acts rest lc' n
      (push (Action_into_future a) SeqFuture.new) q2 Ht Hkt Hh Hacts HSt2) as Hseq.
    rewrite obind_assoc. eapply orel_bind; [exact Hseq|].
    intros lc'' [[sq nk] q3] [Heq HSt3]. simpl in Heq, HSt3.
    injection Heq as -> ->. unfold spawn_task. rewrite Hae. cbn [obind]. apply Hcont; [|done].
    by rewrite spawn_accepts.
Qed.

Lemma spawn_task_Done (t : Task) e e' : spawn_task t e = Done e' →
  accepts_tasks e = true ∧ e' = spawn_and_forget t e.
Proof. unfold spawn_task. by destruct (accepts_tasks e); intros [= <-]. Qed.

Lemma spawn_groups_accepts gs e : accepts_tasks (spawn_groups gs e) = accepts_tasks e.
Proof.
  unfold spawn_groups. revert e. induction gs as [|g gs IH]; intros e; simpl; [done|].
  by rewrite IH, spawn_accepts.
Qed.

(** The loop returns only if its first task was accepted. *)
Lemma step_loop_accepts fuel n k q e r :
  step_loop fuel n ub flags k q e = Done r → accepts_tasks e = true.
Proof.
  destruct fuel as [|fuel]; simpl; [done|].
  destruct (pull_next_action q) as [[a q1]| |]; simpl; [|done..].
  destruct (peek_next_key n ub flags q1) as [[nk q2]| |]; simpl; [|done..].
  unfold spawn_task. destruct (accepts_tasks e); [done|].
  destruct (negb _); simpl; [done|]. by destruct (seq_loop _ _ _ _ _ _ _) as [[[]]| |].
Qed.
End Facts.

(** ** Invariants of the pulls

    A property [P] of the queued entries that dropping a cancelled entry and
    pulling a live entry of time [t] keep holds after the loops of a step, if
    they return; nothing is assumed of the periods. *)
Section Pulls.
Context {T : Type} `{MonotonicTimeLaws T}.
Context {Call Addr SourceFut QCall Obs Reply Payload : Type}.
Abbreviation Action := (Action Call Addr SourceFut).
Abbreviation Task := (Task Call Addr SourceFut QCall).
Abbreviation Entry := (T * Z * Action)%type.
Context {Q : Type} `{!StableQueue Q (T * Z) Action} `{!StableQueueLaws Q (T * Z) Action}.
Abbreviation Shared := (Shared Q T).
Context {E : Type} `{!Executor E Shared Task Obs Reply Payload}.
Context `{Hacc : !ExecutorAccepts (E := E)}.
Context (ub : T) (flags : KeyFlags) (t : T) (P : list Entry → Prop).
Implicit Types (q : Q) (kv : Entry) (l : list Entry) (e : E).

Definition keeps_drop : Prop := ∀ kv l, P (kv :: l) → ¬ is_live flags kv → P l.
Definition keeps_pull : Prop := ∀ kv l c lc',
  P (kv :: l) → is_live flags kv → kv.1.1 = t → resched1 kv (l, c) = Done lc' → P lc'.1.

(** The queue after a peek that returns [k]. *)
Record peeked (k : option (T * Z)) q : Prop := {
  pk_wf : sq_wf q;
  pk_prop : P (sq_abs q);
  pk_key : match k with
    | Some k => k.1 ≤ₒ ub ∧ ∃ a l, sq_abs q = (k, a) :: l ∧ is_live flags (k, a)
    | None => Forall (λ kv, ub <ₒ kv.1.1) (sq_abs q)
    end;
}.

Lemma peek_rule n q k q' :
  keeps_drop → peek_next_key n ub flags q = Done (k, q') → sq_wf q → P (sq_abs q) → peeked k q'.
Proof.
  intros Hdrop. revert q. induction n as [|n IH]; intros q; simpl; [done|]. intros Hpeek Hwf HP.
  rewrite sq_peek_spec in Hpeek by done. pose proof (sq_pull_spec q Hwf) as Hpull.
  pose proof (sq_sorted q Hwf) as Hs.
  destruct (sq_abs q) as [|[key a] l] eqn:El; simpl in Hpeek.
  { simplify_eq. split; rewrite ?El; done. }
  destruct (key.1 ≤?ₒ ub) eqn:Ek; ord_simpl.
  - destruct (Action_is_cancelled flags a) eqn:Ec; simpl in Hpeek.
    + destruct Hpull as (q1 & Hq1 & Hwf1 & Habs1 & _). rewrite Hq1 in Hpeek.
      apply (IH q1 Hpeek Hwf1). rewrite Habs1. apply (Hdrop (key, a)); [done|].
      unfold is_live. simpl. by rewrite Ec.
    + simplify_eq. split; rewrite ?El; eauto 10.
  - simplify_eq. split; rewrite ?El; [done..|].
    inversion Hs as [|? ? _ Hle]; subst. constructor; [done|].
    eapply Forall_impl; [exact Hle|]. intros x Hx%prod_le_fst. by eapply ord_lt_le_trans.
Qed.

Lemma pull_rule q k a q' :
  keeps_pull → peeked (Some k) q → k.1 = t → pull_next_action q = Done (a, q') →
  sq_wf q' ∧ P (sq_abs q').
Proof.
  intros Hkeep [Hwf HP (_ & a0 & l & Habs & Hlive)] Hk Hpull.
  pose proof (pull_next_action_spec q (k, a0) l Hwf Habs) as Hspec. rewrite Hpull in Hspec.
  destruct (resched1 (k, a0) (l, sq_count q)) as [lc'| |] eqn:Er; [|done..].
  destruct Hspec as (_ & Hwf' & Habs' & _). simpl in *. split; [done|].
  rewrite Habs in HP. rewrite Habs'. by eapply Hkeep.
Qed.

Lemma seq_loop_rule fuel n k acc q acc' nk q' :
  keeps_drop → keeps_pull → peeked (Some k) q → k.1 = t →
  seq_loop fuel n ub flags k acc q = Done (acc', nk, q') → peeked nk q'.
Proof.
  intros Hdrop Hpull. revert acc q. induction fuel as [|fuel IH]; intros acc q Hpk Hk; simpl; [done|].
  destruct (pull_next_action q) as [[a q1]| |] eqn:Ep; simpl; [|done..].
  destruct (pull_rule _ _ _ _ Hpull Hpk Hk Ep) as [Hwf1 HP1].
  destruct (peek_next_key n ub flags q1) as [[nk1 q2]| |] eqn:Epk; simpl; [|done..].
  pose proof (peek_rule _ _ _ _ Hdrop Epk Hwf1 HP1) as Hpk2.
  case_bool_decide; [subst nk1; by apply IH|]. intros [= _ <- <-]. done.
Qed.

(** The outer loop ends at [t], on a queue whose next key, if any, is of
    another time. *)
Lemma step_loop_rule fuel n k q e t' q' e' :
  keeps_drop → keeps_pull → peeked (Some k) q → k.1 = t →
  step_loop fuel n ub flags k q e = Done (t', q', e') →
  t' = t ∧ (accepts_tasks e = true → accepts_tasks e' = true) ∧
  ∃ nk, peeked nk q' ∧ ∀ k', nk = Some k' → k'.1 ≠ t.
Proof.
  intros Hdrop Hpull. revert k q e. induction fuel as [|fuel IH]; intros k q e Hpk Hk; simpl; [done|].
  destruct (pull_next_action q) as [[a q1]| |] eqn:Ep; simpl; [|done..].
  destruct (pull_rule _ _ _ _ Hpull Hpk Hk Ep) as [Hwf1 HP1].
  destruct (peek_next_key n ub flags q1) as [[nk1 q2]| |] eqn:Epk; simpl; [|done..].
  pose proof (peek_rule _ _ _ _ Hdrop Epk Hwf1 HP1) as Hpk2.
  assert (∀ nk q3 e3, peeked nk q3 → (accepts_tasks e = true → accepts_tasks e3 = true) →
    match nk with
    | Some k' => if bool_decide (k'.1 = k.1) then step_loop fuel n ub flags k' q3 e3
                 else Done (k.1, q3, e3)
    | None => Done (k.1, q3, e3)
    end = Done (t', q', e') →
    t' = t ∧ (accepts_tasks e = true → accepts_tasks e' = true) ∧
    ∃ nk, peeked nk q' ∧ ∀ k', nk = Some k' → k'.1 ≠ t) as Hcont.
  { intros nk q3 e3 Hpk3 Hae3 Hs. destruct nk as [k'|].
    - case_bool_decide as Hk'.
      + destruct (IH k' q3 e3 Hpk3 (eq_trans Hk' Hk) Hs) as (? & ? & ?). auto.
      + simplify_eq. split_and!; [done|done|]. exists (Some k'). split; [done|]. intros ? [= <-]. congruence.
    - simplify_eq. split_and!; [done|done|]. by exists None. }
  case_bool_decide as Hnk; simpl.
  - subst nk1. destruct (seq_loop _ _ _ _ _ _ _) as [[[acc nk] q3]| |] eqn:Es; simpl; [|done..].
    unfold spawn_task. destruct (accepts_tasks e) eqn:Ea; simpl; [|done].
    apply Hcont; [by eapply seq_loop_rule|]. by rewrite spawn_accepts, ?Ea.
  - unfold spawn_task. destruct (accepts_tasks e) eqn:Ea; simpl; [|done].
    apply Hcont; [done|]. by rewrite spawn_accepts, ?Ea.
Qed.
End Pulls.

(** Entries at or after [t], with durations as periods: the property that the
    invariant of the scheduler gives during a step at [t]. *)
Section PullsFuture.
Context {T : Type} `{MonotonicTimeLaws T}.
Context {Call Addr SourceFut : Type}.
Abbreviation Action := (Action Call Addr SourceFut).
Implicit Types (l : list (T * Z * Action)).

Definition from_time (t : T) l : Prop :=
  Forall (λ kv, t ≤ₒ kv.1.1) l ∧ Forall (λ kv, period_wf kv.2) l.

Lemma Action_next_wf (a a' : Action) p :
  Action_next a = Some (a', p) → period_wf a → duration_wf p ∧ period_wf a'.
Proof. destruct a; simpl; intros ?; simplify_eq; done. Qed.

Lemma mt_add_le (t t' : T) p : duration_wf p → mt_add t p = Done t' → t ≤ₒ t'.
Proof.
  intros Hp Ha. destruct (is_zero p) eqn:Hz.
  - rewrite (mt_add_zero _ _ _ Hp Hz Ha). apply ord_le_refl.
  - by eapply ord_lt_le, mt_add_lt.
Qed.

Lemma Forall_keeps_drop flags (R : T * Z * Action → Prop) : keeps_drop flags (Forall R).
Proof. intros kv l [_ Hl]%Forall_cons _. done. Qed.

Lemma from_time_drop flags t : keeps_drop flags (from_time t).
Proof. intros kv l [[_ ?]%Forall_cons [_ ?]%Forall_cons] _. by split. Qed.

Lemma from_time_pull flags t : keeps_pull flags t (from_time t).
Proof.
  intros kv l c lc' [[Hk Hl]%Forall_cons [Hw Hp]%Forall_cons] _ Ht Hr.
  unfold resched1 in Hr. destruct (Action_next kv.2) as [[a p]|] eqn:Ea; [|by simplify_eq].
  destruct (Action_next_wf _ _ _ Ea Hw) as [Hpw Haw].
  destruct (mt_add kv.1.1 p) as [t'| |] eqn:Et; simpl in Hr; [|done..].
  case_decide; simplify_eq/=. split; apply stable_insert_Forall; split; try done; simpl.
  by eapply mt_add_le.
Qed.

(** At the end of the loop everything is after [t]. *)
Lemma peeked_after {Q : Type} `{!StableQueue Q (T * Z) Action} `{!StableQueueLaws Q (T * Z) Action}
    ub flags t nk (q : Q) :
  t ≤ₒ ub → peeked ub flags (from_time t) nk q → (∀ k', nk = Some k' → k'.1 ≠ t) →
  Forall (λ kv, t <ₒ kv.1.1) (sq_abs q).
Proof.
  intros Hub [Hwf [Hle _] Hk] Hne. destruct nk as [k'|].
  - destruct Hk as (_ & a & l & Habs & _). pose proof (sq_sorted q Hwf) as Hs.
    rewrite Habs in Hs, Hle |- *. apply Forall_cons in Hle as [Hlt _].
    apply ord_le_lt_eq in Hlt as [Hlt|Heq]; [|by destruct (Hne k')].
    inversion Hs as [|? ? _ Hall]; subst. constructor; [done|].
    eapply Forall_impl; [exact Hall|]. intros x Hx%prod_le_fst. by eapply ord_lt_le_trans.
  - eapply Forall_impl; [exact Hk|]. simpl. intros x Hx. by eapply ord_le_lt_trans.
Qed.
End PullsFuture.
