(* ===== verification/Stepping.v ===== *)
(** * Correctness of stepping

    The theorems on [Simulation.v]: one step against the reference
    description of [StepFacts.v], the invariant of the shared state, the
    progress of time, termination and final state of [step_until], the
    termination latch and the translation of executor errors. *)

From stdpp Require Import base option list numbers strings relations sorting.
From Stdlib Require Import ZArith Lia.
From S2P Require Import Prelude StableQueue Time SeqFuture Scheduler Simulation StepFacts.

(** ** Lists of scheduled entries *)

Section Lists.
Context {T : Type} `{MonotonicTimeLaws T}.
Context {Call Addr SourceFut : Type}.
Abbreviation Action := (Action Call Addr SourceFut).
Abbreviation Entry := (T * Z * Action)%type.
Context (ub : T) (flags : KeyFlags).
Implicit Types (l d pre : list Entry) (kv : Entry) (t : T).

Lemma dropc_split l :
  ∃ pre, l = pre ++ dropc ub flags l ∧ Forall (λ kv, ¬ is_live flags kv) pre.
Proof.
  induction l as [|kv l IH]; simpl; [by exists []|].
  destruct ((kv.1.1 ≤?ₒ ub) && Action_is_cancelled flags kv.2) eqn:Ec; [|by exists []].
  destruct IH as (pre & Hl & Hpre). exists (kv :: pre).
  split; [by rewrite <-app_comm_cons, <-Hl|]. constructor; [|done].
  unfold is_live. destruct (Action_is_cancelled flags kv.2); [done|].
  by rewrite andb_false_r in Ec.
Qed.

Lemma dropc_idem l : dropc ub flags (dropc ub flags l) = dropc ub flags l.
Proof.
  induction l as [|kv l IH]; simpl; [done|].
  destruct ((kv.1.1 ≤?ₒ ub) && Action_is_cancelled flags kv.2) eqn:Ec; [done|].
  simpl. by rewrite Ec.
Qed.

Lemma sorted_app_inv l d :
  StronglySorted key_le (l ++ d) → StronglySorted key_le d.
Proof. induction l; simpl; [done|]. by inversion 1; auto. Qed.

Lemma sorted_app_le pre kv d :
  StronglySorted key_le (pre ++ kv :: d) → Forall (λ x, x.1.1 ≤ₒ kv.1.1) pre.
Proof.
  induction pre as [|x pre IH]; simpl; [done|].
  inversion 1 as [|? ? Hs Hx]; subst. constructor; [|auto].
  apply Forall_app in Hx as [_ Hx]. apply Forall_cons in Hx as [Hx _].
  exact (prod_le_fst _ _ Hx).
Qed.

(** A sorted list that starts at [t] is its entries at [t] followed by those
    after [t]. *)
Lemma sorted_split t d :
  StronglySorted key_le d → Forall (λ kv, t ≤ₒ kv.1.1) d →
  d = filter (λ kv, kv.1.1 = t) d ++ after t d.
Proof.
  induction 1 as [|kv d Hs IH Hle]; [done|].
  intros [Hkv Hd]%Forall_cons. unfold after. rewrite !filter_cons.
  apply ord_le_lt_eq in Hkv as [Hlt|Heq].
  - rewrite decide_False by (intros Heq; rewrite Heq in Hlt; by apply ord_lt_irrefl in Hlt).
    rewrite (decide_True (P := t <ₒ kv.1.1)) by exact Hlt.
    assert (Forall (λ x, t <ₒ x.1.1) d) as Hd'.
    { eapply Forall_impl; [exact Hle|]. intros x Hx%prod_le_fst.
      by eapply ord_lt_le_trans. }
    rewrite (filter_all_true (λ kv, t <ₒ kv.1.1)) by done.
    rewrite (filter_all_false (λ kv, kv.1.1 = t)); [done|].
    eapply Forall_impl; [exact Hd'|]. simpl. intros x Hx Heq. rewrite Heq in Hx.
    by apply ord_lt_irrefl in Hx.
  - rewrite decide_True by done. rewrite decide_False
      by (intros Hlt; rewrite Heq in Hlt; by apply ord_lt_irrefl in Hlt).
    simpl. f_equal. auto.
Qed.

(** The cancelled entries that a peek drops change neither the batch nor the
    entries after it. *)
Lemma next_key_split l k :
  StronglySorted key_le l → next_key ub flags l = Some k →
  k.1 ≤ₒ ub ∧ ∃ now, dropc ub flags l = now ++ after k.1 l ∧
    Forall (λ kv, kv.1.1 = k.1) now ∧ filter (is_live flags) now = batch k.1 flags l ∧
    head (batch k.1 flags l) = head (dropc ub flags l) ∧
    fst <$> head (dropc ub flags l) = Some k.
Proof.
  intros Hs. unfold next_key, next_of.
  destruct (dropc_split l) as (pre & Hl & Hpre).
  pose proof (dropc_idem l) as Hid.
  destruct (dropc ub flags l) as [|kv d] eqn:Ed; [done|].
  destruct (kv.1.1 ≤?ₒ ub) eqn:Eub; [|done]. intros [= <-].
  split; [by apply ord_leb_le|].
  assert (StronglySorted key_le (kv :: d)) as Hsd.
  { eapply sorted_app_inv. by rewrite <-Hl. }
  assert (Forall (λ x, kv.1.1 ≤ₒ x.1.1) (kv :: d)) as Hge.
  { constructor; [apply ord_le_refl|]. inversion Hsd as [|? ? ? Hle]; subst.
    eapply Forall_impl; [exact Hle|]. intros x. apply prod_le_fst. }
  assert (after kv.1.1 l = after kv.1.1 (kv :: d)) as Hafter.
  { rewrite Hl. unfold after. rewrite filter_app, filter_all_false; [done|].
    rewrite Hl in Hs. eapply Forall_impl; [by eapply sorted_app_le|].
    simpl. intros x Hx Hlt. exact (ord_le_lt_absurd _ _ Hx Hlt). }
  assert (batch kv.1.1 flags l = batch kv.1.1 flags (kv :: d)) as Hbatch.
  { rewrite Hl. unfold batch. rewrite !filter_app.
    rewrite (filter_all_false (is_live flags) (filter _ pre)); [done|].
    by apply Forall_filter_of. }
  exists (filter (λ x, x.1.1 = kv.1.1) (kv :: d)). rewrite Hafter, Hbatch.
  split_and!; [by apply sorted_split| |done| |done].
  - apply Forall_forall. intros x Hx. by apply list_elem_of_filter in Hx as [? _].
  - unfold batch. rewrite filter_cons, decide_True, filter_cons, decide_True; [done| |done].
    unfold is_live. simpl in Hid. rewrite Eub in Hid. simpl in Hid.
    destruct (Action_is_cancelled flags kv.2); [|done].
    apply (f_equal length) in Hid. simpl in Hid.
    pose proof (dropc_length ub flags d). lia.
Qed.

(** Re-scheduled entries: live ones keep their key's flag and period. *)
Lemma Action_next_ok (a a' : Action) p : Action_next a = Some (a', p) → action_ok a → action_ok a'.
Proof. destruct a; simpl; intros ?; simplify_eq; done. Qed.

Lemma resched_later t es (lc lc' : list Entry * Z) :
  Forall (λ kv, kv.1.1 = t) es → Forall (λ kv, action_ok kv.2) es →
  Forall (λ kv, t <ₒ kv.1.1 ∧ action_ok kv.2) lc.1 →
  resched es lc = Done lc' →
  Forall (λ kv, t <ₒ kv.1.1 ∧ action_ok kv.2) lc'.1.
Proof.
  intros Ht. revert lc. induction Ht as [|kv es Hkv Ht IH]; intros lc Hok Hl; simpl.
  { by intros [= <-]. }
  apply Forall_cons in Hok as [Hkok Hok].
  destruct (resched1 kv lc) as [lc1| |] eqn:Er; simpl; [|done..].
  apply IH; [done|]. unfold resched1 in Er.
  destruct (Action_next kv.2) as [[a p]|] eqn:Ea; [|by simplify_eq].
  destruct (mt_add kv.1.1 p) as [t'| |] eqn:Et; simpl in Er; [|done..].
  case_decide; simplify_eq/=. apply stable_insert_Forall. split; [|done]. simpl.
  split; [|by eapply Action_next_ok].
  unfold action_ok in Hkok. rewrite Ea in Hkok. destruct Hkok.
  by eapply mt_add_lt.
Qed.

Lemma resched_returns es (lc : list Entry * Z) : resched es lc ≠ NoFuel.
Proof.
  revert lc. induction es as [|kv es IH]; intros lc; simpl; [done|].
  unfold resched1. destruct (Action_next kv.2) as [[a p]|]; [|apply IH].
  pose proof (mt_add_returns kv.1.1 p).
  destruct (mt_add kv.1.1 p); simpl; [|done..].
  case_decide; [done|]. apply IH.
Qed.
End Lists.

(** ** What the simulation relies on in the executor

    Running the tasks changes the shared state only through the scheduling
    operations. *)
Class ExecutorLaws {T Call Addr SourceFut QCall Obs Reply Payload Q E : Type}
    `{MonotonicTime T} `{!StableQueue Q (T * Z) (Action Call Addr SourceFut)}
    `{!Executor E (Shared Q T) (Task Call Addr SourceFut QCall) Obs Reply Payload} :=
  exec_run_ops : ∀ d (e e' : E) (sh sh' : Shared Q T) r,
    executor_run d e sh = Done (e', sh', r) → rtc sched_op sh sh'.

Section Stepping.
Context {T : Type} `{MonotonicTimeLaws T}.
Context {Call Addr SourceFut QCall Obs Reply Payload : Type}.
Abbreviation Action := (Action Call Addr SourceFut).
Abbreviation Task := (Task Call Addr SourceFut QCall).
Context {Q : Type} `{!StableQueue Q (T * Z) Action} `{!StableQueueLaws Q (T * Z) Action}.
Abbreviation Shared := (Shared Q T).
Context {E : Type} `{!Executor E Shared Task Obs Reply Payload}.
Context `{Hacc : !ExecutorAccepts (E := E)}.
Context {C : Type} `{!Clock C T}.
Context (is_send_error : Payload → bool).
Abbreviation Simulation := (Simulation E C Shared Obs).
Implicit Types (self : Simulation) (sh : Shared) (q : Q).

(** Tasks can be spawned until the simulation is terminated. *)
Definition spawn_ready self : Prop :=
  is_terminated self = false → accepts_tasks (executor self) = true.

(** The simulation when the queue's mutex is released: the time is [t], the
    batch is spawned, the queue is [q]. *)
Definition after_pulls (t : T) (q : Q) (b : list (T * Z * Action)) self : Simulation :=
  set_executor (spawn_groups (group_keys b) (executor self))
    (set_shared (set_queue q (set_time t (shared self))) self).

Lemma St_init ub q k :
  sq_wf q → Forall (λ kv, action_ok kv.2) (sq_abs q) →
  ∀ flags q', sq_wf q' → sq_abs q' = dropc ub flags (sq_abs q) →
  sq_count q' = sq_count q → next_key ub flags (sq_abs q) = Some k →
  St ub flags k.1 (step_fuel q) (batch k.1 flags (sq_abs q))
    (after k.1 (sq_abs q), sq_count q) q'.
Proof.
  intros Hwf Hok flags q' Hwf' Habs' Hc' Hk.
  destruct (next_key_split ub flags (sq_abs q) k (sq_sorted q Hwf) Hk)
    as (Hub & now & Hd & Hnow & Hb & _ & _).
  split; simpl; [|..|done|done].
  - exists now. rewrite Habs', <-Hd, dropc_idem. split_and!; [done..| |].
    + apply (dropc_Forall ub flags) in Hok. rewrite Hd in Hok.
      by apply Forall_app in Hok as [? _].
    + pose proof (dropc_length ub flags (sq_abs q)) as Hlen.
      rewrite Hd, length_app in Hlen. unfold step_fuel. lia.
  - unfold after. apply Forall_forall. intros x Hx.
    by apply list_elem_of_filter in Hx as [? _].
Qed.

(** The batch starts with the entry of the next key. *)
Lemma batch_head ub flags l k :
  StronglySorted key_le l → next_key ub flags l = Some k →
  ∃ a b, batch k.1 flags l = ((k, a) : T * Z * Action) :: b.
Proof.
  intros Hs Hk. destruct (next_key_split ub flags l k Hs Hk)
    as (_ & now & _ & _ & _ & Hh & Hf).
  rewrite <-Hh in Hf. destruct (batch k.1 flags l) as [|[k' a] b]; [done|].
  simpl in Hf. simplify_eq. eauto.
Qed.

Lemma after_pulls_inv ub flags q q' sh k lc' :
  sched_inv sh → periods_ok sh → q = scheduler_queue sh →
  next_key ub flags (sq_abs q) = Some k →
  resched (batch k.1 flags (sq_abs q)) (after k.1 (sq_abs q), sq_count q) = Done lc' →
  sq_wf q' → sq_abs q' = dropc ub flags lc'.1 →
  sched_inv (set_queue q' (set_time k.1 sh)) ∧ periods_ok (set_queue q' (set_time k.1 sh)).
Proof.
  intros [Hwf Hf _] Hp -> Hk Hr Hwf' Habs'. unfold periods_ok, queued in *.
  assert (Forall (λ kv, k.1 <ₒ kv.1.1 ∧ action_ok kv.2) lc'.1) as Hl.
  { eapply resched_later; [| | |exact Hr]; unfold batch, after; simpl.
    - apply Forall_forall. intros x Hx.
      apply list_elem_of_filter in Hx as [_ Hx].
      by apply list_elem_of_filter in Hx as [? _].
    - by apply Forall_filter_of, Forall_filter_of.
    - apply Forall_and. split; [|by apply Forall_filter_of].
      apply Forall_forall. intros x Hx. by apply list_elem_of_filter in Hx as [? _]. }
  apply (dropc_Forall ub flags) in Hl. rewrite <-Habs' in Hl.
  apply Forall_and in Hl as [Hl1 Hl2]. split; [|done]. split; [done..|].
  eapply Forall_impl; [exact Hl2|]. intros x. apply action_ok_wf.
Qed.

Lemma step_to_next_some ub self k :
  accepts_tasks (executor self) = true → sched_inv (shared self) → periods_ok (shared self) →
  is_terminated self = false → is_halted (shared self) = false →
  next_key (default MT_MAX ub) (key_flags (shared self)) (queued (shared self)) = Some k →
  let b := batch k.1 (key_flags (shared self)) (queued (shared self)) in
  match resched b (after k.1 (queued (shared self)),
                   sq_count (scheduler_queue (shared self))) with
  | Done lc => ∃ q,
      step_to_next is_send_error ub self =
        finish_step is_send_error k.1 (after_pulls k.1 q b self) ∧
      sq_abs q = dropc (default MT_MAX ub) (key_flags (shared self)) lc.1 ∧
      sched_inv (set_queue q (set_time k.1 (shared self))) ∧
      periods_ok (set_queue q (set_time k.1 (shared self)))
  | _ => step_to_next is_send_error ub self = Panicked
  end.
Proof.
  intros Hae Hinv Hp Hterm Hhalt Hk b. pose proof Hinv as [Hwf Hf _]. pose proof Hp as Hper.
  unfold periods_ok in Hper.
  unfold step_to_next. rewrite Hterm, Hhalt.
  set (ub' := default MT_MAX ub) in *. set (flags := key_flags (shared self)) in *.
  set (q := scheduler_queue (shared self)) in *.
  destruct (peek_next_key_spec ub' flags (step_fuel q) q Hwf)
    as (q1 & -> & Hwf1 & Habs1 & Hc1); [unfold step_fuel; lia|].
  unfold queued in *. fold q in Hf, Hper, Hk, b |- *. rewrite Hk. cbn [obind].
  pose proof (St_init ub' q k Hwf Hper flags q1 Hwf1 Habs1 Hc1 Hk) as HSt.
  destruct (batch_head ub' flags (sq_abs q) k (sq_sorted q Hwf) Hk) as (a & bs & Hb).
  destruct (next_key_split ub' flags (sq_abs q) k (sq_sorted q Hwf) Hk) as (Hub & _).
  fold b in Hb, HSt. rewrite Hb in HSt. pose proof (St_length _ _ _ _ _ _ _ HSt) as Hlen.
  pose proof (step_loop_spec ub' flags k.1 (step_fuel q) bs
    (after k.1 (sq_abs q), sq_count q) (step_fuel q) (k, a) q1 (executor self)
    Hae Hub ltac:(lia) HSt) as Hloop.
  rewrite <-Hb in Hloop. simpl fst in Hloop.
  pose proof (resched_returns b (after k.1 (sq_abs q), sq_count q)) as Hret.
  destruct (resched b (after k.1 (sq_abs q), sq_count q)) as [lc| |] eqn:Hr; [| |done].
  - apply orel_Done_l in Hloop as (r & Hrun & q' & -> & HSt'). rewrite Hrun.
    cbn [obind]. exists q'. pose proof (St_nil _ _ _ _ _ _ Hub HSt') as Habs'.
    split; [done|]. split; [done|].
    by eapply after_pulls_inv; [..|exact Hr|apply HSt'|exact Habs'].
  - by destruct (step_loop _ _ _ _ _ _ _).
Qed.

Lemma step_to_next_none ub self :
  sched_inv (shared self) → is_terminated self = false → is_halted (shared self) = false →
  next_key (default MT_MAX ub) (key_flags (shared self)) (queued (shared self)) = None →
  ∃ q, step_to_next is_send_error ub self =
      Done (Ok None, set_shared (set_queue q (shared self)) self) ∧
    sq_abs q = dropc (default MT_MAX ub) (key_flags (shared self)) (queued (shared self)) ∧
    Forall (λ kv, default MT_MAX ub <ₒ kv.1.1) (sq_abs q) ∧
    sched_inv (set_queue q (shared self)).
Proof.
  intros Hinv Hterm Hhalt Hk. pose proof Hinv as [Hwf Hf Hp].
  unfold step_to_next. rewrite Hterm, Hhalt.
  set (ub' := default MT_MAX ub) in *. set (flags := key_flags (shared self)) in *.
  set (q := scheduler_queue (shared self)) in *.
  destruct (peek_next_key_spec ub' flags (step_fuel q) q Hwf)
    as (q1 & -> & Hwf1 & Habs1 & Hc1); [unfold step_fuel; lia|].
  unfold queued in *. fold q in Hf, Hp, Hk |- *. rewrite Hk. cbn [obind].
  exists q1. split_and!; [done|done| |].
  - pose proof (sq_sorted q1 Hwf1) as Hs. unfold next_key, next_of in Hk.
    rewrite <-Habs1 in Hk. destruct Hs as [|kv l Hs Hle]; [done|].
    destruct (kv.1.1 ≤?ₒ ub') eqn:Eub; [done|]. ord_simpl.
    constructor; [done|]. eapply Forall_impl; [exact Hle|].
    intros x Hx%prod_le_fst. by eapply ord_lt_le_trans.
  - split; [done|..]; unfold queued; simpl; rewrite Habs1; by apply dropc_Forall.
Qed.

(** ** The executor run and the clock *)

Lemma synchronize_clock_shared t self (r : result unit (ExecutionError T Payload)) self' :
  synchronize_clock t self = (r, self') →
  shared self' = shared self ∧ executor self' = executor self ∧
  match r with
  | Ok _ => is_terminated self' = is_terminated self
  | Err _ => is_terminated self' = true
  end.
Proof.
  unfold synchronize_clock. destruct (synchronize (clock self) t) as [c []].
  - by intros [= <- <-].
  - simpl. destruct (clock_tolerance self) as [tol|]; [|by intros [= <- <-]].
    destruct (tol <?ₒ lag); by intros [= <- <-].
Qed.

(** A call that fails leaves the simulation terminated, one that succeeds
    leaves it running; this needs nothing of the scheduler. *)
Definition latched {A : Type} (r : result A (ExecutionError T Payload)) self : Prop :=
  is_terminated self = match r with Ok _ => false | Err _ => true end.

Lemma run_latched self r self' :
  run is_send_error self = Done (r, self') → latched r self'.
Proof.
  unfold run, latched. destruct (is_terminated self) eqn:Et; [by intros [= <- <-]|].
  destruct (is_halted (shared self)); [by intros [= <- <-]|].
  destruct (executor_run _ _ _) as [[[e sh] r0]| |]; simpl; [|done..].
  destruct r0; [by intros [= <- <-]|].
  destruct (map_executor_error _ _ _); simpl; [|done..]. by intros [= <- <-].
Qed.

Lemma finish_step_latched t self r self' :
  finish_step is_send_error t self = Done (r, self') →
  latched r self' ∧ (∀ o, r = Ok o → o = Some t).
Proof.
  unfold finish_step. destruct (synchronize_clock t self) as [[[]|err] self1] eqn:Es;
    apply synchronize_clock_shared in Es as (_ & _ & Ht).
  - destruct (run is_send_error self1) as [[[[]|err] self2]| |] eqn:Er; simpl; [..|done|done];
      apply run_latched in Er; intros [= <- <-]; split; try done. by intros ? [= <-].
  - intros [= <- <-]. split; [exact Ht|done].
Qed.

Lemma step_to_next_latched ub self r self' :
  step_to_next is_send_error ub self = Done (r, self') → latched r self'.
Proof.
  unfold step_to_next. destruct (is_terminated self) eqn:Et; [by intros [= <- <-]|].
  destruct (is_halted (shared self)); [by intros [= <- <-]|].
  destruct (peek_next_key _ _ _ _) as [[[k|] q]| |]; cbn [obind]; [|by intros [= <- <-]|done..].
  destruct (step_loop _ _ _ _ _ _ _) as [[[t q'] e]| |]; cbn [obind]; [|done..].
  intros Hf. by apply finish_step_latched in Hf as [? _].
Qed.

Lemma advance_to_latched m t self r self' :
  advance_to m t self = (r, self') → is_terminated self = false → latched r self'.
Proof.
  unfold advance_to. intros (_ & _ & Hr)%synchronize_clock_shared Ht.
  unfold latched. by destruct r; rewrite Hr.
Qed.

Lemma step_until_unchecked_latched m fuel target self r self' :
  step_until_unchecked is_send_error m fuel target self = Done (r, self') → latched r self'.
Proof.
  revert self. induction fuel as [|fuel IH]; intros self; simpl; [done|].
  destruct (step_to_next is_send_error target self) as [[r1 self1]| |] eqn:Es; simpl; [|done..].
  apply step_to_next_latched in Es. destruct r1 as [o|e]; [|by intros [= <- <-]].
  case_bool_decide; [by intros [= <- <-]|]. destruct o as [t|]; [apply IH|].
  destruct target as [t|]; [|by intros [= <- <-]].
  intros [= Ha]. by eapply advance_to_latched.
Qed.

Context `{Hexec : !ExecutorLaws (E := E)}.

Lemma run_ops self r self' :
  run is_send_error self = Done (r, self') → rtc sched_op (shared self) (shared self').
Proof.
  unfold run. destruct (is_terminated self); [by intros [= _ <-]|].
  destruct (is_halted (shared self)); [by intros [= _ <-]|].
  destruct (executor_run _ _ _) as [[[e sh] r0]| |] eqn:Er; simpl; [|done..].
  apply exec_run_ops in Er. destruct r0; [by intros [= _ <-]|].
  destruct (map_executor_error _ _ _); simpl; [|done..]. by intros [= _ <-].
Qed.

Lemma finish_step_ops t self r self' :
  finish_step is_send_error t self = Done (r, self') → rtc sched_op (shared self) (shared self').
Proof.
  unfold finish_step. destruct (synchronize_clock t self) as [[[]|err] self1] eqn:Es;
    apply synchronize_clock_shared in Es as (<- & _ & _); [|by intros [= _ <-]].
  destruct (run is_send_error self1) as [[r1 self2]| |] eqn:Er; simpl; [|done..].
  apply run_ops in Er. destruct r1; by intros [= _ <-].
Qed.

Lemma run_inv self r self' :
  run is_send_error self = Done (r, self') → sched_inv (shared self) →
  sched_inv (shared self') ∧ time (shared self') = time (shared self).
Proof.
  intros Hrun Hinv. apply run_ops in Hrun.
  by destruct (sched_ops_inv _ _ Hrun Hinv) as (? & ? & _).
Qed.

(** ** One step *)

(** A step that returns: either it found nothing up to the bound, or it
    pulled the entries of one time and finished on what was left.  [P0] is a
    property of the queue before the step and [P] what it gives at the time
    of the step. *)
Lemma step_to_next_cases ub self r self' (P0 : list (T * Z * Action) → Prop)
    (P : T → list (T * Z * Action) → Prop) :
  let bound := default MT_MAX ub in
  let flags := key_flags (shared self) in
  sched_inv (shared self) → is_terminated self = false → is_halted (shared self) = false →
  P0 (queued (shared self)) → keeps_drop flags P0 →
  (∀ k q, peeked bound flags P0 (Some k) q → time (shared self) <ₒ k.1 → P k.1 (sq_abs q)) →
  (∀ t, keeps_drop flags (P t)) → (∀ t, keeps_pull flags t (P t)) →
  step_to_next is_send_error ub self = Done (r, self') →
  (∃ q, r = Ok None ∧ self' = set_shared (set_queue q (shared self)) self ∧ P0 (sq_abs q) ∧
     Forall (λ kv, bound <ₒ kv.1.1) (sq_abs q) ∧ sched_inv (set_queue q (shared self))) ∨
  (∃ t q e, let sh := set_queue q (set_time t (shared self)) in
     finish_step is_send_error t (set_executor e (set_shared sh self)) = Done (r, self') ∧
     time (shared self) <ₒ t ∧ t ≤ₒ bound ∧ P t (sq_abs q) ∧ sched_inv sh ∧
     (accepts_tasks (executor self) = true → accepts_tasks e = true)).
Proof.
  intros bound flags Hinv Hterm Hhalt HP0 Hdrop0 Hstart Hdrop Hpull.
  pose proof Hinv as [Hwf Hf Hp]. unfold step_to_next. rewrite Hterm, Hhalt. fold bound flags.
  set (Pf := λ l, P0 l ∧ Forall (λ kv, time (shared self) <ₒ kv.1.1) l ∧
    Forall (λ kv : T * Z * Action, period_wf kv.2) l).
  assert (keeps_drop flags Pf) as HdropF.
  { intros kv l (? & [_ ?]%Forall_cons & [_ ?]%Forall_cons) Hl.
    split_and!; [by eapply Hdrop0|done..]. }
  destruct (peek_next_key _ _ _ _) as [[[k|] q1]| |] eqn:Epk; cbn [obind]; [| |done..];
    apply (peek_rule _ _ Pf _ _ _ _ HdropF) in Epk as [Hwf1 (HP1 & Hf1 & Hp1) Hk1]; try done.
  - destruct (step_loop _ _ _ _ _ _ _) as [[[t q2] e]| |] eqn:El; simpl; [|done..].
    intros Hfin. right. destruct Hk1 as (Hub & a & l & Habs & Hlive).
    assert (time (shared self) <ₒ k.1) as Hlt.
    { rewrite Habs in Hf1. by apply Forall_cons in Hf1 as [? _]. }
    assert (from_time k.1 (sq_abs q1)) as Hfrom.
    { split; [|done]. pose proof (sq_sorted q1 Hwf1) as Hs. rewrite Habs in Hs |- *.
      constructor; [apply ord_le_refl|]. inversion Hs as [|? ? _ Hle]; subst.
      eapply Forall_impl; [exact Hle|]. intros x. apply prod_le_fst. }
    assert (peeked bound flags (λ l, P k.1 l ∧ from_time k.1 l) (Some k) q1) as Hpk.
    { split; [done| |eauto 10]. split; [|done]. apply (Hstart k q1); [|done]. split; eauto 10. }
    destruct (step_loop_rule bound flags k.1 (λ l, P k.1 l ∧ from_time k.1 l)
      _ _ _ _ _ _ _ _ ltac:(intros kv l0 [? ?] ?; split; [by eapply Hdrop|by eapply from_time_drop])
      ltac:(intros kv l0 c lc' [? ?] ? ? ?; split; [by eapply Hpull|by eapply from_time_pull])
      Hpk eq_refl El) as (-> & Hae & nk & [Hwf2 [HP2 Hfrom2] Hnk] & Hne).
    exists k.1, q2, e. split_and!; [done..| |done].
    split; [done| |apply Hfrom2].
    apply (peeked_after bound flags k.1 nk); [done| |done]. by split.
  - intros [= <- <-]. left. exists q1. by split_and!.
Qed.

Lemma step_to_next_inv ub self r self' :
  step_to_next is_send_error ub self = Done (r, self') → sched_inv (shared self) →
  sched_inv (shared self') ∧
  match r with
  | Ok (Some t) => time (shared self) <ₒ t ∧ t ≤ₒ default MT_MAX ub ∧
      time (shared self') = t ∧ is_terminated self' = false
  | Ok None => time (shared self') = time (shared self) ∧
      Forall (λ kv, default MT_MAX ub <ₒ kv.1.1) (queued (shared self')) ∧
      is_terminated self' = false
  | Err _ => time (shared self) ≤ₒ time (shared self') ∧ is_terminated self' = true
  end.
Proof.
  intros Hstep Hinv. pose proof (step_to_next_latched _ _ _ _ Hstep) as Hl.
  destruct (is_terminated self) eqn:Hterm.
  { unfold step_to_next in Hstep. rewrite Hterm in Hstep. simplify_eq.
    split_and!; [done|apply ord_le_refl|done]. }
  destruct (is_halted (shared self)) eqn:Hhalt.
  { unfold step_to_next in Hstep. rewrite Hterm, Hhalt in Hstep. simplify_eq/=.
    split_and!; [done|apply ord_le_refl|done]. }
  apply (step_to_next_cases ub self r self' (λ _, True) (λ _ _, True)) in Hstep
    as [(q & -> & -> & _ & Hall & Hi)|(t & q & e & Hfin & Hlt & Hub & _ & Hi & _)]; [done| |done..].
  destruct (finish_step_latched _ _ _ _ Hfin) as [_ Hok]. apply finish_step_ops in Hfin.
  destruct (sched_ops_inv _ _ Hfin Hi) as (Hi' & Ht & _). split; [done|]. simpl in Ht.
  destruct r as [o|err]; [|rewrite Ht; split; [by apply ord_lt_le|done]].
  rewrite (Hok o eq_refl). done.
Qed.

(** A step keeps the executor ready. *)
Lemma run_ready self r self' :
  run is_send_error self = Done (r, self') → spawn_ready self → spawn_ready self'.
Proof.
  unfold run, spawn_ready. intros Hrun Hready.
  destruct (is_terminated self) eqn:Et; [simplify_eq; congruence|].
  destruct (is_halted (shared self)); [by simplify_eq|].
  destruct (executor_run _ _ _) as [[[e sh] r0]| |] eqn:Er; [|done..]. simpl in Hrun.
  destruct r0 as [[]|err]; [|by destruct (map_executor_error _ _ _); simplify_eq/=].
  simplify_eq/=. intros _. by eapply run_accepts, Hready.
Qed.

Lemma step_to_next_ready ub self r self' :
  step_to_next is_send_error ub self = Done (r, self') → sched_inv (shared self) →
  spawn_ready self → spawn_ready self'.
Proof.
  intros Hstep Hinv Hready. destruct (is_terminated self) eqn:Hterm.
  { unfold step_to_next in Hstep. rewrite Hterm in Hstep. by simplify_eq. }
  destruct (is_halted (shared self)) eqn:Hhalt.
  { unfold step_to_next in Hstep. rewrite Hterm, Hhalt in Hstep. by simplify_eq/=. }
  specialize (Hready Hterm).
  apply (step_to_next_cases ub self r self' (λ _, True) (λ _ _, True)) in Hstep
    as [(q & -> & -> & _)|(t & q & e & Hfin & _ & _ & _ & _ & Hae)]; [by intros _| |done..].
  unfold finish_step in Hfin.
  destruct (synchronize_clock t _) as [[] self1] eqn:Es;
    apply synchronize_clock_shared in Es as (_ & He & Ht); [|simplify_eq; intros Hf; congruence].
  destruct (run is_send_error self1) as [[r1 self2]| |] eqn:Er; [|done..].
  assert (spawn_ready self2) as Hr2.
  { apply (run_ready _ _ _ Er). intros _. rewrite He. simpl. auto. }
  by destruct r1; simplify_eq/=.
Qed.

(** ** Iterated steps *)

(** The other threads schedule nothing at or before [t] in the gap between
    the check that nothing is due up to [t] and the write of the time. *)
Definition quiet_gap (t : T) (meanwhile : Shared → Shared) : Prop :=
  ∀ sh, sched_inv sh → Forall (λ kv, t <ₒ kv.1.1) (queued sh) →
    rtc sched_op sh (meanwhile sh) ∧ Forall (λ kv, t <ₒ kv.1.1) (queued (meanwhile sh)).

Lemma quiet_gap_id t : quiet_gap t id.
Proof. done. Qed.

(** Any number of cancellations, key drops and halts is quiet. *)
Lemma quiet_gap_ops t m :
  (∀ sh, rtc sched_op sh (m sh) ∧ queued (m sh) = queued sh) → quiet_gap t m.
Proof. intros Hm sh _ Hq. by destruct (Hm sh) as [? ->]. Qed.

Lemma quiet_gap_inv t m sh :
  quiet_gap t m → sched_inv sh → Forall (λ kv, t <ₒ kv.1.1) (queued sh) →
  sched_inv (set_time t (m sh)) ∧ Forall (λ kv, t <ₒ kv.1.1) (queued (set_time t (m sh))).
Proof.
  intros Hm Hinv Hq. destruct (Hm sh Hinv Hq) as [Hops Hq'].
  destruct (sched_ops_inv _ _ Hops Hinv) as ([Hwf _ Hp] & _). by split_and!.
Qed.

Lemma advance_to_shared m target self (r : result unit (ExecutionError T Payload)) self' :
  advance_to m target self = (r, self') → shared self' = set_time target (m (shared self)).
Proof. unfold advance_to. by intros (-> & _)%synchronize_clock_shared. Qed.

(** The shared state when [step_until_unchecked] returns: that of the last
    step, or what the other threads made of it and then the target time. *)
Lemma step_until_unchecked_spec m fuel target self r self' :
  step_until_unchecked is_send_error m fuel target self = Done (r, self') →
  sched_inv (shared self) → time (shared self) ≤ₒ default MT_MAX target →
  ∃ sh1, sched_inv sh1 ∧ time (shared self) ≤ₒ time sh1 ∧
    ((shared self' = sh1 ∧ (r = Ok tt → Forall (λ kv, default MT_MAX target <ₒ kv.1.1) (queued sh1) ∧
        ∀ t, target = Some t → time sh1 = t)) ∨
     ∃ t, target = Some t ∧ time sh1 ≤ₒ t ∧ Forall (λ kv, t <ₒ kv.1.1) (queued sh1) ∧
       shared self' = set_time t (m sh1)).
Proof.
  revert self. induction fuel as [|fuel IH]; intros self; simpl; [done|].
  intros Hs Hinv Hle.
  destruct (step_to_next is_send_error target self) as [[r1 self1]| |] eqn:Es; [|done..].
  simpl in Hs. destruct (step_to_next_inv _ _ _ _ Es Hinv) as (Hinv1 & Hr1).
  destruct r1 as [o|e].
  2: { simplify_eq. exists (shared self'). destruct Hr1. split_and!; [done..|]. by left. }
  case_bool_decide as Ho.
  { subst o. simplify_eq. exists (shared self'). split; [done|]. destruct target as [t|]; simpl in *.
    - destruct Hr1 as (Hlt & _ & Ht & _). subst t. split; [by apply ord_lt_le|].
      left. split; [done|]. intros _. split; [apply Hinv1|]. by intros ? [= <-].
    - destruct Hr1 as (-> & Hq & _). split; [apply ord_le_refl|]. by left. }
  destruct o as [t|].
  - destruct Hr1 as (Hlt & Hub & Ht & _). subst t.
    destruct (IH self1 Hs Hinv1 Hub) as (sh1 & Hinv2 & Hle2 & Hr2). exists sh1.
    split_and!; [done| |done]. eapply ord_le_trans; [by apply ord_lt_le|done].
  - destruct target as [t|]; [|done]. simpl in *. destruct Hr1 as (Htime & Hq & _).
    injection Hs as Ha. apply advance_to_shared in Ha. exists (shared self1).
    rewrite Htime. split_and!; [done|apply ord_le_refl|]. right. by exists t.
Qed.

(** With a quiet gap the invariant holds at the end too. *)
Lemma step_until_unchecked_inv m fuel target self r self' :
  step_until_unchecked is_send_error m fuel target self = Done (r, self') →
  (∀ t, target = Some t → quiet_gap t m) →
  sched_inv (shared self) → time (shared self) ≤ₒ default MT_MAX target →
  sched_inv (shared self') ∧ time (shared self) ≤ₒ time (shared self') ∧
  match r with
  | Ok _ => Forall (λ kv, default MT_MAX target <ₒ kv.1.1) (queued (shared self')) ∧
      is_terminated self' = false ∧
      match target with Some t => time (shared self') = t | None => True end
  | Err _ => is_terminated self' = true
  end.
Proof.
  intros Hs Hm Hinv Hle. pose proof (step_until_unchecked_latched _ _ _ _ _ _ Hs) as Hl.
  destruct (step_until_unchecked_spec _ _ _ _ _ _ Hs Hinv Hle)
    as (sh1 & Hinv1 & Hle1 & [[-> Hok]|(t & -> & Ht & Hq & ->)]).
  - split_and!; [done..|]. destruct r as [[]|]; [|done].
    destruct (Hok eq_refl) as [? Htt]. split_and!; [done..|]. by destruct target; [apply Htt|].
  - destruct (quiet_gap_inv t m sh1 (Hm t eq_refl) Hinv1 Hq) as [? ?].
    split_and!; [done|by eapply ord_le_trans|]. by destruct r.
Qed.

(** ** Termination *)

Section Termination.
Hypothesis executor_returns : ∀ d (e : E) sh, executor_run d e sh ≠ NoFuel.

Lemma map_executor_error_returns self (e : ExecutorError Payload) :
  map_executor_error is_send_error self e ≠ NoFuel.
Proof.
  destruct e as [n| |id p]; simpl; [by destruct (deadlock_info self)|done|].
  destruct (ModelId_get id); simpl; [|by destruct (is_send_error p)].
  destruct (model_names self !! Z.to_nat _); simpl; [|done].
  by destruct (is_send_error p).
Qed.

Lemma run_returns self : run is_send_error self ≠ NoFuel.
Proof.
  unfold run. destruct (is_terminated self); [done|].
  destruct (is_halted (shared self)); [done|].
  pose proof (executor_returns (timeout self) (executor self) (shared self)).
  destruct (executor_run _ _ _) as [[[e sh] []]| |]; try done. simpl.
  pose proof (map_executor_error_returns
    (set_terminated (set_shared sh (set_executor e self))) e0).
  by destruct (map_executor_error _ _ _).
Qed.

Lemma step_to_next_returns ub self :
  sched_inv (shared self) → periods_ok (shared self) → spawn_ready self →
  step_to_next is_send_error ub self ≠ NoFuel.
Proof.
  intros Hinv Hper Hready. destruct (is_terminated self) eqn:Hterm.
  { unfold step_to_next. by rewrite Hterm. }
  destruct (is_halted (shared self)) eqn:Hhalt.
  { unfold step_to_next. by rewrite Hterm, Hhalt. }
  destruct (next_key (default MT_MAX ub) (key_flags (shared self)) (queued (shared self)))
    as [k|] eqn:Hk.
  - pose proof (step_to_next_some ub self k (Hready Hterm) Hinv Hper Hterm Hhalt Hk) as Hsome.
    simpl in Hsome. destruct (resched _ _) as [lc| |]; [|congruence..].
    destruct Hsome as (q & -> & _ & _). unfold finish_step.
    destruct (synchronize_clock k.1 _) as [[] self1]; [|done].
    pose proof (run_returns self1). destruct (run is_send_error self1) as [[[] ?]| |]; done.
  - destruct (step_to_next_none ub self Hinv Hterm Hhalt Hk) as (q & -> & _). done.
Qed.

(** Nothing with a zero period is scheduled while the executor runs. *)
Hypothesis executor_periods : ∀ d (e e' : E) sh sh' r,
  executor_run d e sh = Done (e', sh', r) → periods_ok sh → periods_ok sh'.

Lemma run_periods self r self' :
  run is_send_error self = Done (r, self') → periods_ok (shared self) → periods_ok (shared self').
Proof.
  unfold run. destruct (is_terminated self); [by intros [= _ <-]|].
  destruct (is_halted (shared self)); [by intros [= _ <-]|].
  destruct (executor_run _ _ _) as [[[e sh] r0]| |] eqn:Er; simpl; [|done..].
  intros Hr Hper. apply (executor_periods _ _ _ _ _ _ Er) in Hper.
  destruct r0; [by simplify_eq|].
  by destruct (map_executor_error _ _ _); simplify_eq/=.
Qed.

Lemma finish_step_periods t self r self' :
  finish_step is_send_error t self = Done (r, self') → periods_ok (shared self) →
  periods_ok (shared self').
Proof.
  unfold finish_step. destruct (synchronize_clock t self) as [[[]|err] self1] eqn:Es;
    apply synchronize_clock_shared in Es as (<- & _ & _); [|by intros [= _ <-]].
  destruct (run is_send_error self1) as [[r1 self2]| |] eqn:Er; simpl; [|done..].
  intros Hr Hper. apply (run_periods _ _ _ Er) in Hper. by destruct r1; simplify_eq/=.
Qed.

Lemma action_ok_drop flags : keeps_drop flags (Forall (λ kv : T * Z * Action, action_ok kv.2)).
Proof. by intros kv l [_ ?]%Forall_cons. Qed.

Lemma action_ok_pull flags t : keeps_pull flags t (Forall (λ kv : T * Z * Action, action_ok kv.2)).
Proof.
  intros kv l c lc' [Hk Hl]%Forall_cons _ _. unfold resched1.
  destruct (Action_next kv.2) as [[a p]|] eqn:Ea; [|by intros [= <-]].
  destruct (mt_add kv.1.1 p); simpl; [|done..]. case_decide; [done|]. intros [= <-]. simpl.
  apply stable_insert_Forall. split; [|done]. by eapply Action_next_ok.
Qed.

Lemma step_to_next_periods ub self r self' :
  step_to_next is_send_error ub self = Done (r, self') → sched_inv (shared self) →
  periods_ok (shared self) → periods_ok (shared self').
Proof.
  intros Hstep Hinv Hper. destruct (is_terminated self) eqn:Hterm.
  { unfold step_to_next in Hstep. rewrite Hterm in Hstep. by simplify_eq. }
  destruct (is_halted (shared self)) eqn:Hhalt.
  { unfold step_to_next in Hstep. rewrite Hterm, Hhalt in Hstep. by simplify_eq/=. }
  apply (step_to_next_cases ub self r self' (Forall (λ kv, action_ok kv.2))
    (λ _, Forall (λ kv, action_ok kv.2))) in Hstep
    as [(q & -> & -> & ? & _)|(t & q & e & Hfin & _ & _ & Hp & _)];
    [done| |done..|apply action_ok_drop|by intros k q [_ ? _]|intros; apply action_ok_drop
    |intros; apply action_ok_pull].
  by apply (finish_step_periods _ _ _ _ Hfin).
Qed.

Lemma step_until_unchecked_returns m fuel target self :
  sched_inv (shared self) → periods_ok (shared self) → spawn_ready self →
  time (shared self) ≤ₒ default MT_MAX target →
  (mt_total (default MT_MAX target) - mt_total (time (shared self)) < Z.of_nat fuel)%Z →
  step_until_unchecked is_send_error m fuel target self ≠ NoFuel.
Proof.
  revert self. induction fuel as [|fuel IH]; intros self Hinv Hper Hready Hle Hlt.
  { apply mt_le_total in Hle. lia. }
  simpl. pose proof (step_to_next_returns target self Hinv Hper Hready) as Hret.
  destruct (step_to_next is_send_error target self) as [[r1 self1]| |] eqn:Es; [|done..].
  simpl. destruct (step_to_next_inv _ _ _ _ Es Hinv) as (Hinv1 & Hr1).
  destruct r1 as [[t|]|e]; [|by destruct target|done].
  case_bool_decide; [done|]. destruct Hr1 as (Hlt1 & Hub & Ht & _). subst t.
  apply IH; [done|by eapply step_to_next_periods|by eapply step_to_next_ready|done|].
  apply mt_lt_total in Hlt1. lia.
Qed.
End Termination.
End Stepping.
