(* ===== verification/SimInit.v ===== *)
(** * The simulation bench (simulation/sim_init.rs, [add_model] of
    simulation.rs, [BuildContext] of model/context.rs)

    A model under construction is a tree: its [build] method adds sub-models,
    each with its own mailbox, before the model itself is registered.  The
    file models the builder and shows that every model task is spawned with
    the index of its own fully qualified name, so that the translation of
    model panics never looks up a missing name. *)

From stdpp Require Import base option list numbers strings relations.
From Stdlib Require Import ZArith Lia.
From S2P Require Import Prelude StableQueue Time SeqFuture Scheduler Simulation Stepping.

(** [Mailbox]: its address and the observer of its channel.  A [ProtoModel]
    is the list of sub-models that its [build] method adds, in order. *)
Inductive Proto (Addr Obs : Type) :=
| mkProto (submodels : list (Proto Addr Obs * (Addr * Obs) * string)).
Arguments mkProto {Addr Obs}.

Definition unknown_name : string := "<unknown>".

Definition default_name (name : string) : string :=
  if bool_decide (name = "") then unknown_name else name.

Section Build.
Context {Call Addr SourceFut QCall Obs Reply Payload Sh : Type}.
Abbreviation Task := (Task Call Addr SourceFut QCall).
Context {E : Type} `{!Executor E Sh Task Obs Reply Payload}.

Definition submodel_name (self_name name : string) : string :=
  self_name +:+ "." +:+ default_name name.

(** The free function [add_model]: build (which adds the sub-models through
    [BuildContext::add_submodel]), then take the next identifier, push the
    name and spawn the model's task. *)
Fixpoint add_model (model : Proto Addr Obs) (mailbox : Addr * Obs) (name : string)
    (e : E) (model_names : list string) {struct model} : outcome (E * list string) :=
  let '(mkProto subs) := model in
  let! (e, model_names) :=
    (fix build subs e model_names :=
      match subs with
      | [] => Done (e, model_names)
      | (sub, sub_mailbox, sub_name) :: subs =>
          let! (e, model_names) :=
            add_model sub sub_mailbox (submodel_name name sub_name) e model_names in
          build subs e model_names
      end) subs e model_names in
  let! model_id := ModelId_new (Z.of_nat (length model_names)) in
  let! e := spawn_task (SpawnModel mailbox.1 model_id) e in
  Done (e, model_names ++ [name]).

(** The fully qualified names, in the order of registration. *)
Fixpoint qualified_names (model : Proto Addr Obs) (name : string) : list string :=
  let '(mkProto subs) := model in
  (fix build subs :=
    match subs with
    | [] => []
    | (sub, _, sub_name) :: subs =>
        qualified_names sub (submodel_name name sub_name) ++ build subs
    end) subs ++ [name].
End Build.

(** ** The builder *)

Record SimInit (E C Sh Obs : Type) := mkInit {
  init_executor : E;
  init_shared : Sh;
  init_clock : C;
  init_tolerance : option Duration;
  init_timeout : Duration;
  init_observers : list (string * Obs);
  init_names : list string;
}.
Arguments mkInit {E C Sh Obs}.
Arguments init_executor {E C Sh Obs}.
Arguments init_shared {E C Sh Obs}.
Arguments init_clock {E C Sh Obs}.
Arguments init_tolerance {E C Sh Obs}.
Arguments init_timeout {E C Sh Obs}.
Arguments init_observers {E C Sh Obs}.
Arguments init_names {E C Sh Obs}.

Section Init.
Context {T : Type} `{MonotonicTime T}.
Context {Call Addr SourceFut QCall Obs Reply Payload : Type}.
Abbreviation Action := (Action Call Addr SourceFut).
Abbreviation Task := (Task Call Addr SourceFut QCall).
Context {Q : Type} `{!StableQueue Q (T * Z) Action}.
Abbreviation Shared := (Shared Q T).
Context {E : Type} `{!Executor E Shared Task Obs Reply Payload}.
Context {C : Type} `{!Clock C T}.
Context (is_send_error : Payload → bool).
Context (new_single_threaded : E) (new_multi_threaded : Z → E) (no_clock : C).
Abbreviation SimInit := (SimInit E C Shared Obs).

Definition with_num_threads (num_threads : Z) : SimInit :=
  let num_threads := Z.min (Z.max num_threads 1) 64 in
  let executor :=
    if (num_threads =? 1)%Z then new_single_threaded else new_multi_threaded num_threads in
  mkInit executor (mkShared sq_new MT_EPOCH false []) no_clock None duration_zero [] [].

Definition SimInit_add_model (model : Proto Addr Obs) (mailbox : Addr * Obs)
    (name : string) (self : SimInit) : outcome SimInit :=
  let name := default_name name in
  let observers := init_observers self ++ [(name, mailbox.2)] in
  let! (e, names) := add_model model mailbox name (init_executor self) (init_names self) in
  Done (mkInit e (init_shared self) (init_clock self) (init_tolerance self)
          (init_timeout self) observers names).

Definition SimInit_set_clock (clock : C) (self : SimInit) : SimInit :=
  mkInit (init_executor self) (init_shared self) clock (init_tolerance self)
    (init_timeout self) (init_observers self) (init_names self).

Definition SimInit_set_clock_tolerance (tolerance : Duration) (self : SimInit) : SimInit :=
  mkInit (init_executor self) (init_shared self) (init_clock self) (Some tolerance)
    (init_timeout self) (init_observers self) (init_names self).

Definition SimInit_set_timeout (timeout : Duration) (self : SimInit) : SimInit :=
  mkInit (init_executor self) (init_shared self) (init_clock self) (init_tolerance self)
    timeout (init_observers self) (init_names self).

Definition init (start_time : T) (self : SimInit) :
    outcome (result (Simulation E C Shared Obs) (ExecutionError T Payload)) :=
  let sh := set_time start_time (init_shared self) in
  let (clock, status) := synchronize (init_clock self) start_time in
  let start :=
    let simulation :=
      Simulation_new (init_executor self) sh clock (init_tolerance self)
        (init_timeout self) (init_observers self) (init_names self) in
    let! (r, simulation) := run is_send_error simulation in
    match r with
    | Ok _ => Done (Ok simulation)
    | Err e => Done (Err e)
    end in
  match status with
  | OutOfSync lag =>
      match init_tolerance self with
      | Some tolerance => if tolerance <?ₒ lag then Done (Err (OutOfSyncErr lag)) else start
      | None => start
      end
  | Synchronized => start
  end.
End Init.

(** ** Identifiers of model tasks

    [model_ids] are the identifiers of the model tasks an executor holds; a
    panic reported for a model carries one of them. *)
Class ExecutorIds {T Call Addr SourceFut QCall Obs Reply Payload Q E : Type}
    `{!Executor E (Shared Q T) (Task Call Addr SourceFut QCall) Obs Reply Payload} := {
  model_ids : E → list ModelId;
  spawn_ids : ∀ (t : Task Call Addr SourceFut QCall) (e : E),
    model_ids (spawn_and_forget t e) =
    model_ids e ++ match t with SpawnModel _ id => [id] | _ => [] end;
  slot_ids : ∀ e : E, model_ids (slot_new e).2 = model_ids e;
  run_ids : ∀ d (e e' : E) sh sh' r, executor_run d e sh = Done (e', sh', r) →
    ∀ id, id ∈ model_ids e' → id ∈ model_ids e;
  run_panic_id : ∀ d (e e' : E) sh sh' id p,
    executor_run d e sh = Done (e', sh', Err (ExecPanic id p)) →
    id = ModelId_none ∨ id ∈ model_ids e;
}.

Section Proto_ind.
Context {Addr Obs : Type} (P : Proto Addr Obs → Prop).
Hypothesis Hstep : ∀ subs, Forall (λ s, P s.1.1) subs → P (mkProto subs).

Fixpoint Proto_nested_ind (p : Proto Addr Obs) : P p :=
  match p with
  | mkProto subs =>
      Hstep subs
        ((fix go (l : list (Proto Addr Obs * (Addr * Obs) * string)) :
            Forall (λ s, P s.1.1) l :=
          match l with
          | [] => Forall_nil_2 _
          | s :: l => Forall_cons_2 _ _ _ (Proto_nested_ind s.1.1) (go l)
          end) subs)
  end.
End Proto_ind.

Section Facts.
Context {T : Type} `{MonotonicTimeLaws T}.
Context {Call Addr SourceFut QCall Obs Reply Payload : Type}.
Abbreviation Action := (Action Call Addr SourceFut).
Abbreviation Task := (Task Call Addr SourceFut QCall).
Context {Q : Type} `{!StableQueue Q (T * Z) Action} `{!StableQueueLaws Q (T * Z) Action}.
Abbreviation Shared := (Shared Q T).
Context {E : Type} `{!Executor E Shared Task Obs Reply Payload}.
Context `{Hids : !ExecutorIds (E := E)}.
Context {C : Type} `{!Clock C T}.
Context (is_send_error : Payload → bool).

(** The identifiers of the tasks spawned for [n] names after [m] names. *)
Definition ids_from (m n : nat) : list ModelId := Z.of_nat <$> seq m n.

Definition names_ok (e : E) (names : list string) : Prop :=
  Forall (λ id, (0 ≤ id < Z.of_nat (length names))%Z) (model_ids e).

Lemma add_model_names p : ∀ mailbox name (e e' : E) names names',
  add_model p mailbox name e names = Done (e', names') →
  names' = names ++ qualified_names p name ∧
  model_ids e' = model_ids e ++ ids_from (length names) (length (qualified_names p name)).
Proof.
  induction p as [subs IH] using Proto_nested_ind.
  intros mailbox name e e' names names'. cbn [add_model qualified_names].
  match goal with |- obind (?b subs e names) _ = _ → names' = _ ++ ?q subs ++ _ ∧ _ =>
    set (build := b); set (quals := q) end.
  assert (∀ e1 names1, build subs e names = Done (e1, names1) →
    names1 = names ++ quals subs ∧
    model_ids e1 = model_ids e ++ ids_from (length names) (length (quals subs))) as Hb.
  { clear e' names'. revert e names.
    induction IH as [|[[sub mb] sn] subs Hsub Hsubs IHs]; intros e names e1 names1; simpl.
    - intros [= <- <-]. by rewrite !app_nil_r.
    - destruct (add_model sub mb (submodel_name name sn) e names)
        as [[e2 names2]| |] eqn:E2; simpl; [|done..].
      apply Hsub in E2 as [-> He2]. intros [-> He1]%IHs.
      rewrite He1, He2, <-!app_assoc. split; [done|].
      unfold ids_from. by rewrite !length_app, seq_app, fmap_app. }
  destruct (build subs e names) as [[e1 names1]| |]; simpl; [|done..].
  destruct (Hb _ _ eq_refl) as [-> He1]. unfold ModelId_new.
  destruct (Z.of_nat (length (names ++ quals subs)) =? u64_max)%Z; simpl; [done|].
  unfold spawn_task. destruct (accepts_tasks e1); simpl; [|done].
  intros [= <- <-]. rewrite spawn_ids, He1, <-!app_assoc. split; [done|].
  unfold ids_from. by rewrite !length_app, seq_app, fmap_app.
Qed.

Lemma add_model_names_ok p mailbox name (e e' : E) names names' :
  add_model p mailbox name e names = Done (e', names') →
  names_ok e names → names_ok e' names'.
Proof.
  intros [-> He]%add_model_names Hok. unfold names_ok. rewrite He.
  apply Forall_app. split.
  - eapply Forall_impl; [exact Hok|]. simpl. intros id. rewrite length_app. lia.
  - unfold ids_from. apply Forall_fmap, Forall_seq. simpl. rewrite length_app. lia.
Qed.

(** [run] panics only when the executor does or when it reports a panic that
    comes from no model. *)
Lemma run_panics (self : Simulation E C Shared Obs) :
  names_ok (executor self) (model_names self) →
  run is_send_error self = Panicked →
  executor_run (timeout self) (executor self) (shared self) = Panicked ∨
  ∃ e sh p, executor_run (timeout self) (executor self) (shared self) =
              Done (e, sh, Err (ExecPanic ModelId_none p)) ∧ is_send_error p = false.
Proof.
  intros Hok. unfold run. destruct (is_terminated self); [done|].
  destruct (is_halted (shared self)); [done|].
  destruct (executor_run _ _ _) as [[[e sh] r]| |] eqn:Er; simpl; [|by left|done].
  destruct r as [|[n| |id p]]; simpl; [done| |done|].
  { by destruct (deadlock_info _). }
  right. exists e, sh, p. apply run_panic_id in Er.
  unfold ModelId_get in *. destruct Er as [->|Hid]; simpl in *.
  { split; [done|]. by destruct (is_send_error p). }
  destruct (id =? u64_max)%Z eqn:Eid; simpl in *.
  { apply Z.eqb_eq in Eid as ->. split; [done|]. by destruct (is_send_error p). }
  assert (0 ≤ id < Z.of_nat (length (model_names self)))%Z as Hlt.
  { unfold names_ok in Hok. by eapply (proj1 (Forall_forall _ _) Hok) in Hid. }
  destruct (lookup_lt_is_Some_2 (model_names self) (Z.to_nat id)) as [nm Hnm]; [lia|].
  rewrite Hnm in *. simpl in *. by destruct (is_send_error p).
Qed.
End Facts.
