(* ===== verification/Demo.v ===== *)
(** * A concrete instance of the simulator

    Closed instances of the parameters on which the theorems are evaluated:
    time in nanoseconds, the scheduler's own priority queue, numbered calls
    and addresses, and an executor that records the tasks it is given, runs
    them without effect on the shared state and reports a chosen outcome. *)

From stdpp Require Import base option list numbers strings relations.
From Stdlib Require Import ZArith Lia.
From S2P Require Import Prelude StableQueue PriorityQueue Time SeqFuture Scheduler Simulation Stepping SimInit.

Abbreviation DAction := (Action nat nat unit).
Abbreviation DTask := (Task nat nat unit unit).
Abbreviation DQueue := (PriorityQueue (TaiTime * Z) DAction).
Abbreviation DShared := (Shared DQueue TaiTime).

Record LogExecutor := mkLog {
  pending : list DTask;
  ran : list DTask;
  ids : list ModelId;
  slots : nat;
  failure : option (ExecutorError bool);
}.

#[export] Instance LogExecutor_executor :
  Executor LogExecutor DShared DTask Z unit bool := {|
    accepts_tasks := λ _, true;
    spawn_and_forget := λ t e,
      mkLog (pending e ++ [t]) (ran e)
        (ids e ++ match t with SpawnModel _ id => [id] | _ => [] end) (slots e) (failure e);
    executor_run := λ _ e sh,
      Done (mkLog [] (ran e ++ pending e) (ids e) (slots e) (failure e), sh,
            match failure e with
            | Some (ExecPanic id p) =>
                if bool_decide (id ∈ ids e) then Err (ExecPanic id p) else Ok tt
            | Some err => Err err
            | None => Ok tt
            end);
    observer_len := λ _ n, n;
    slot_new := λ e, (slots e, mkLog (pending e) (ran e) (ids e) (S (slots e)) (failure e));
    slot_try_read := λ _ _, None;
  |}.

#[export] Instance LogExecutor_accepts : ExecutorAccepts (E := LogExecutor).
Proof. by split. Qed.

#[export] Instance LogExecutor_laws : ExecutorLaws (E := LogExecutor).
Proof. intros d e e' sh sh' r. simpl. intros [= <- <- _]. apply rtc_refl. Qed.

#[export] Instance LogExecutor_ids : ExecutorIds (E := LogExecutor).
Proof.
  exists ids.
  - done.
  - done.
  - intros d e e' sh sh' r. simpl. by intros [= <- <- _].
  - intros d e e' sh sh' id p. simpl. intros [= <- <- Hf].
    destruct (failure e) as [[| |id' p']|]; simplify_eq/=.
    case_bool_decide; simplify_eq. by right.
Defined.

Lemma LogExecutor_returns d (e : LogExecutor) (sh : DShared) : executor_run d e sh ≠ NoFuel.
Proof. done. Qed.

(** An executor that drops its tasks and always reports a panic that comes from
    no model. *)
Definition PanicExecutor : Type := list ModelId.

#[export] Instance PanicExecutor_executor :
  Executor PanicExecutor DShared DTask Z unit bool := {|
    accepts_tasks := λ _, true;
    spawn_and_forget := λ t e, e ++ match t with SpawnModel _ id => [id] | _ => [] end;
    executor_run := λ _ e sh, Done (e, sh, Err (ExecPanic ModelId_none false));
    observer_len := λ _ n, n;
    slot_new := λ e, (0, e);
    slot_try_read := λ _ _, None;
  |}.

#[export] Instance PanicExecutor_ids : ExecutorIds (E := PanicExecutor).
Proof.
  exists (λ e, e).
  - done.
  - done.
  - intros d e e' sh sh' r. simpl. by intros [= <- <- _].
  - intros d e e' sh sh' id p. simpl. intros [= _ _ <- _]. by left.
Defined.

(** A once-only and a periodic event of call [c] to address [a]. *)
Definition once (c a : nat) : DAction := OnceAction (Scheduler.process_event c a).
Definition every (p : Z) (c a : nat) : DAction :=
  PeriodicAction (λ _, Scheduler.process_event c a) (dur p).
Definition keyed (k : ActionKey) (c a : nat) : DAction :=
  KeyedOnceAction (λ ek, send_keyed_event ek c a) k.

Definition queue_of (l : list (Z * Z * DAction)) : DQueue :=
  mkQueue (imap (λ i x, mkItem (ns x.1.1, x.1.2) x.2 (Z.of_nat i)) l) (Z.of_nat (length l)).

Abbreviation DSim := (Simulation LogExecutor NoClock DShared Z).

Definition demo_sim (l : list (Z * Z * DAction)) (flags : KeyFlags)
    (f : option (ExecutorError bool)) : DSim :=
  mkSim (mkLog [] [] [] 0 f) (mkShared (queue_of l) MT_EPOCH false flags) (mkNoClock)
    None duration_zero [] [] false.

(** Two actions of origin 1 at 10 ns around one of origin 2, a cancelled
    action before them, a periodic one, and one later. *)
Definition demo_entries : list (Z * Z * DAction) :=
  [(10%Z, 1%Z, once 1 7); (10%Z, 2%Z, every 5 2 8); (5%Z, 0%Z, keyed 0 3 9);
   (10%Z, 1%Z, once 4 7); (20%Z, 1%Z, once 5 7)].

Definition demo : DSim := demo_sim demo_entries [true] None.

Lemma queue_of_wf l : (Z.of_nat (length l) ≤ u64_max)%Z → wf (queue_of l).
Proof.
  intros Hlen. split; simpl; [| |lia].
  - rewrite fmap_imap. apply NoDup_alt. intros i j e.
    rewrite !list_lookup_imap. destruct (l !! i), (l !! j); simpl; try done.
    intros [= <-] [= ?]. lia.
  - apply Forall_lookup. intros i it. rewrite list_lookup_imap.
    destruct (l !! i) eqn:El; simpl; [|done]. intros [= <-]. simpl.
    apply lookup_lt_Some in El. lia.
Qed.

Definition entry_ok (kv : TaiTime * Z * DAction) : bool :=
  match Action_next kv.2 with
  | Some (_, p) => bool_decide (duration_wf p) && negb (is_zero p)
  | None => true
  end.

Lemma demo_sim_ok l flags f :
  (Z.of_nat (length l) ≤ u64_max)%Z →
  forallb (λ kv, (MT_EPOCH <?ₒ kv.1.1) && entry_ok kv) (abs (queue_of l)) = true →
  sched_inv (shared (demo_sim l flags f)) ∧ periods_ok (shared (demo_sim l flags f)).
Proof.
  intros Hlen Hb.
  assert (∀ x, x ∈ abs (queue_of l) → MT_EPOCH <ₒ x.1.1 ∧ action_ok x.2) as Hall.
  { intros x Hx. apply forallb_forall with (x := x) in Hb; [|by apply list_elem_of_In].
    apply andb_true_iff in Hb as [Ht Hb]. split; [by apply ord_ltb_lt|].
    unfold entry_ok, action_ok in *. destruct (Action_next x.2) as [[a p]|]; [|done].
    apply andb_true_iff in Hb as [Hw Hz]. apply bool_decide_eq_true in Hw.
    by apply negb_true_iff in Hz. }
  split; [split|]; unfold periods_ok, queued; simpl.
  - by apply queue_of_wf.
  - apply Forall_forall. intros x Hx. by apply Hall.
  - apply Forall_forall. intros x Hx. by apply action_ok_wf, Hall.
  - apply Forall_forall. intros x Hx. by apply Hall.
Qed.

Lemma demo_sim_inv l flags f :
  (Z.of_nat (length l) ≤ u64_max)%Z →
  forallb (λ kv, (MT_EPOCH <?ₒ kv.1.1) && entry_ok kv) (abs (queue_of l)) = true →
  sched_inv (shared (demo_sim l flags f)).
Proof. intros Hlen Hb. by apply demo_sim_ok. Qed.

Lemma demo_inv : sched_inv (shared demo).
Proof. apply demo_sim_inv; [simpl; unfold u64_max; lia|]. vm_compute. done. Qed.

Lemma demo_periods : periods_ok (shared demo).
Proof. apply demo_sim_ok; [simpl; unfold u64_max; lia|]. vm_compute. done. Qed.
