(* ===== verification/SimProperties.v ===== *)
(** * The simulator's properties

    The properties of the simulation loop and of the bench, with their
    evaluations on the instance of [Demo.v]. *)

From stdpp Require Import base option list numbers strings relations sorting.
From Stdlib Require Import ZArith Lia.
From S2P Require Import Prelude StableQueue PriorityQueue Time SeqFuture Scheduler Simulation StepFacts Stepping SimInit Demo.

(** ** Groups *)

Section Groups.
Context {T : Type} `{MonotonicTimeLaws T}.
Context {Call Addr SourceFut : Type}.
Abbreviation Entry := (T * Z * Action Call Addr SourceFut)%type.
Implicit Types (l : list Entry).

Definition ungroup (gs : list (T * Z * list (Action Call Addr SourceFut))) : list Entry :=
  mjoin ((λ g, pair g.1 <$> g.2) <$> gs).

Lemma group_keys_ungroup l : ungroup (group_keys l) = l.
Proof.
  induction l as [|kv l IH]; [done|]. simpl.
  destruct (group_keys l) as [|[k acts] gs]; simpl.
  - simpl in IH. subst l. by destruct kv.
  - unfold ungroup in *. destruct (decide (kv.1 = k)) as [Heq|Hne]; csimpl in *.
    + rewrite <-IH. destruct kv. simpl in *. by subst.
    + rewrite <-IH. by destruct kv.
Qed.

Lemma group_keys_Forall (P : T * Z → Prop) l :
  Forall (λ kv, P kv.1) l → Forall (λ g, P g.1) (group_keys l).
Proof.
  induction 1 as [|kv l Hkv Hl IH]; simpl; [done|].
  destruct (group_keys l) as [|g gs]; [by repeat constructor|].
  apply Forall_cons in IH as [Hg Hgs].
  case_decide; repeat constructor; done.
Qed.

Lemma group_keys_nonempty l : Forall (λ g, g.2 ≠ []) (group_keys l).
Proof.
  induction l as [|kv l IH]; simpl; [done|].
  destruct (group_keys l) as [|g gs]; [by repeat constructor|].
  apply Forall_cons in IH as [Hg Hgs]. case_decide; repeat constructor; done.
Qed.

Lemma group_keys_increasing l :
  StronglySorted key_le l → StronglySorted (λ g g', g.1 <ₒ g'.1) (group_keys l).
Proof.
  induction 1 as [|kv l Hs IH Hle]; simpl; [constructor|].
  pose proof (group_keys_Forall (λ k, kv.1 ≤ₒ k) l Hle) as Hge.
  destruct (group_keys l) as [|g gs]; [by repeat constructor|].
  inversion IH as [|? ? Hgs Hlt]; subst. apply Forall_cons in Hge as [Hg Hge].
  case_decide as Heq; [by constructor|].
  assert (kv.1 <ₒ g.1) as Hkg by (by apply ord_le_lt_eq in Hg as [|]).
  constructor; [done|]. constructor; [done|].
  eapply Forall_impl; [exact Hlt|]. simpl. intros g' Hg'. by eapply ord_lt_trans.
Qed.

Lemma filter_group (k k' : T * Z) (acts : list (Action Call Addr SourceFut)) :
  filter (λ kv : Entry, kv.1 = k) (pair k' <$> acts) =
  if decide (k' = k) then pair k' <$> acts else [].
Proof.
  case_decide as Heq.
  - apply filter_all_true, Forall_fmap, Forall_true. done.
  - apply filter_all_false, Forall_fmap, Forall_true. done.
Qed.

Lemma filter_ungroup_lt k gs :
  Forall (λ g, k <ₒ g.1) gs → filter (λ kv : Entry, kv.1 = k) (ungroup gs) = [].
Proof.
  induction 1 as [|[k' acts] gs Hlt Hgs IH]; [done|].
  unfold ungroup in *. csimpl. rewrite filter_app, filter_group, IH.
  rewrite decide_False; [done|]. intros ->. by apply ord_lt_irrefl in Hlt.
Qed.

(** Where the keys increase, a group holds all the entries of its key. *)
Lemma group_is_filter gs k acts :
  StronglySorted (λ g g', g.1 <ₒ g'.1) gs → (k, acts) ∈ gs →
  acts = snd <$> filter (λ kv : Entry, kv.1 = k) (ungroup gs).
Proof.
  induction 1 as [|[k' acts'] gs Hs IH Hlt]; [by intros ?%not_elem_of_nil|].
  intros [Heq|Hin]%elem_of_cons; unfold ungroup in *; csimpl;
    rewrite filter_app, filter_group, fmap_app.
  - simplify_eq. rewrite decide_True by done.
    pose proof (filter_ungroup_lt k' gs Hlt) as Hf. unfold ungroup in Hf. rewrite Hf.
    rewrite <-list_fmap_compose, app_nil_r. symmetry. apply list_fmap_id.
  - rewrite decide_False; [by apply IH|]. intros ->.
    eapply (proj1 (Forall_forall _ _) Hlt) in Hin. by apply ord_lt_irrefl in Hin.
Qed.

(** A step spawns one task per origin: the groups of a sorted batch have
    pairwise distinct keys, each group is not empty and holds, in scheduling
    order, exactly the live actions of its key, and no action is left out. *)
Lemma one_task_per_origin (t : T) flags l :
  StronglySorted key_le l →
  let b := batch t flags l in
  NoDup (fst <$> group_keys b) ∧
  (∀ k acts, (k, acts) ∈ group_keys b →
     acts ≠ [] ∧ acts = snd <$> filter (λ kv, kv.1 = k) b) ∧
  ungroup (group_keys b) = b.
Proof.
  intros Hs b.
  assert (StronglySorted key_le b) as Hb.
  { unfold b, batch. by apply StronglySorted_filter_of, StronglySorted_filter_of. }
  pose proof (group_keys_increasing b Hb) as Hinc. split_and!.
  - clear Hb. induction Hinc as [|g gs Hgs IH Hlt]; csimpl; constructor; [|done].
    intros (g' & Heq & Hin)%list_elem_of_fmap.
    eapply (proj1 (Forall_forall _ _) Hlt) in Hin. rewrite Heq in Hin.
    by apply ord_lt_irrefl in Hin.
  - intros k acts Hin. split.
    + by eapply (proj1 (Forall_forall _ _) (group_keys_nonempty b)) in Hin.
    + rewrite (group_is_filter _ _ _ Hinc Hin) at 1. by rewrite group_keys_ungroup.
  - apply group_keys_ungroup.
Qed.
End Groups.

(** The batch of the demonstration at 10 ns: origin 1 has two actions. *)
Lemma one_task_per_origin_witness :
  NoDup (fst <$> group_keys (batch (ns 10) [true] (abs (queue_of demo_entries)))) ∧
  (fst <$> group_keys (batch (ns 10) [true] (abs (queue_of demo_entries)))) =
    [(ns 10, 1%Z); (ns 10, 2%Z)].
Proof.
  split; [|by vm_compute].
  refine (proj1 (one_task_per_origin (ns 10) [true] (abs (queue_of demo_entries)) _)).
  apply abs_sorted.
Defined.

(** ** Public operations of a simulation *)

Section System.
Context {T : Type} `{MonotonicTimeLaws T}.
Context {Call Addr SourceFut QCall Obs Reply Payload : Type}.
Abbreviation Action := (Action Call Addr SourceFut).
Abbreviation Task := (Task Call Addr SourceFut QCall).
Context {Q : Type} `{!StableQueue Q (T * Z) Action} `{!StableQueueLaws Q (T * Z) Action}.
Abbreviation Shared := (Shared Q T).
Context {E : Type} `{!Executor E Shared Task Obs Reply Payload}.
Context `{Hacc : !ExecutorAccepts (E := E)}.
Context {C : Type} `{!Clock C T}.
Context (is_send_error : Payload → bool).
Abbreviation Simulation := (Simulation E C Shared Obs).
Abbreviation Error := (ExecutionError T Payload).
Implicit Types (self : Simulation).

(** One call of a public method that runs the simulation, with its result.
    [gap t meanwhile] says what the other threads may do to the scheduler while
    [step_until] with the deadline [t] writes the time. *)
Inductive sim_op (gap : T → (Shared → Shared) → Prop) self :
    result unit Error → Simulation → Prop :=
| op_step r self' : step is_send_error self = Done (r, self') → sim_op gap self r self'
| op_step_until D `{Deadline D T} meanwhile fuel (d : D) r self' :
    (∀ t, into_time d (time (shared self)) = Done t → gap t meanwhile) →
    step_until is_send_error meanwhile fuel d self = Done (r, self') → sim_op gap self r self'
| op_step_unbounded fuel r self' :
    step_unbounded is_send_error fuel self = Done (r, self') → sim_op gap self r self'
| op_process a r self' :
    process is_send_error a self = Done (r, self') → sim_op gap self r self'
| op_process_event f adr r self' :
    process_event is_send_error f adr self = Done (r, self') → sim_op gap self r self'
| op_process_query f adr r self' :
    process_query is_send_error f adr self = Done (r, self') →
    sim_op gap self (result_map (λ _, tt) r) self'.

(** A history: calls of public methods, and operations of other holders of
    the scheduler between them. *)
Inductive sim_step (gap : T → (Shared → Shared) → Prop) self : Simulation → Prop :=
| step_op r self' : sim_op gap self r self' → sim_step gap self self'
| step_sched sh : sched_op (shared self) sh → sim_step gap self (set_shared sh self)
| step_timeout d : sim_step gap self (set_timeout d self).

Definition non_fatal (e : Error) : Prop :=
  match e with BadQuery | InvalidDeadline _ => True | _ => False end.

Context `{Hexec : !ExecutorLaws (E := E)}.

Lemma process_query_run f adr self r self' :
  process_query is_send_error f adr self = Done (r, self') →
  ∃ e r0, run is_send_error (set_executor e self) = Done (r0, self') ∧
    match r with
    | Ok _ => r0 = Ok tt
    | Err err => r0 = Err err ∨ (r0 = Ok tt ∧ err = BadQuery)
    end.
Proof.
  unfold process_query. destruct (slot_new (executor self)) as [n e].
  destruct (spawn_task _ e) as [e'| |]; simpl; [|done..].
  destruct (run _ _) as [[r0 s1]| |] eqn:Er; simpl; [|done..].
  intros Hq. exists e', r0. rewrite Er.
  destruct r0 as [[]|]; [|simplify_eq; auto].
  destruct (slot_try_read _ _); simplify_eq; auto.
Qed.

Lemma process_run a self r self' :
  process is_send_error a self = Done (r, self') →
  ∃ e, run is_send_error (set_executor e self) = Done (r, self').
Proof. unfold process. destruct (spawn_task _ _); simpl; [|done..]. eauto. Qed.

Lemma process_event_run f adr self r self' :
  process_event is_send_error f adr self = Done (r, self') →
  ∃ e, run is_send_error (set_executor e self) = Done (r, self').
Proof. unfold process_event. destruct (spawn_task _ _); simpl; [|done..]. eauto. Qed.

Lemma step_inv self r self' :
  step is_send_error self = Done (r, self') → sched_inv (shared self) →
  sched_inv (shared self') ∧ time (shared self) ≤ₒ time (shared self') ∧
  match r with Ok _ => is_terminated self' = false | Err _ => is_terminated self' = true end.
Proof.
  unfold step. destruct (step_to_next _ None self) as [[r0 s1]| |] eqn:Es; simpl; [|done..].
  intros [= <- <-] Hinv. destruct (step_to_next_inv _ _ _ _ _ Es Hinv) as (Hi & Hr).
  destruct r0 as [[t|]|e]; simpl in *.
  - destruct Hr as (Hlt & _ & -> & ?). split_and!; [done|by apply ord_lt_le|done].
  - destruct Hr as (-> & _ & ?). split_and!; [done|apply ord_le_refl|done].
  - naive_solver.
Qed.

(** Results and termination, whatever happens in the gap. *)
Lemma sim_op_latched gap self r self' :
  sim_op gap self r self' →
  match r with
  | Ok _ => is_terminated self' = false
  | Err e => non_fatal e ∨ is_terminated self' = true
  end.
Proof.
  intros Hop.
  assert (∀ r0 : result unit Error, latched r0 self' →
    match r0 with
    | Ok _ => is_terminated self' = false
    | Err e => non_fatal e ∨ is_terminated self' = true
    end) as Hlatched by (intros [] ?; auto).
  destruct Hop as [r s Hs|D ? m n d r s _ Hs|n r s Hs|a r s Hs|f adr r s Hs|f adr r s Hs].
  - apply Hlatched. unfold step in Hs.
    destruct (step_to_next _ None self) as [[r0 s1]| |] eqn:Es; simplify_eq/=.
    apply step_to_next_latched in Es. by destruct r0.
  - unfold step_until in Hs. destruct (into_time d (time (shared self))) as [t| |];
      simpl in Hs; [|done..].
    destruct (t <?ₒ time (shared self)); [simplify_eq; by left|].
    by apply Hlatched, (step_until_unchecked_latched _ _ _ _ _ _ _ Hs).
  - by apply Hlatched, (step_until_unchecked_latched _ _ _ _ _ _ _ Hs).
  - apply process_run in Hs as (e & Hs). by apply Hlatched, (run_latched _ _ _ _ Hs).
  - apply process_event_run in Hs as (e & Hs). by apply Hlatched, (run_latched _ _ _ _ Hs).
  - apply process_query_run in Hs as (e & r0 & Hrun & Hr0). apply run_latched in Hrun.
    destruct r as [|err]; simpl; [by subst r0|]. destruct Hr0 as [->|[_ ->]]; [by right|by left].
Qed.

Lemma sim_op_inv self r self' :
  sim_op quiet_gap self r self' → sched_inv (shared self) →
  sched_inv (shared self') ∧ time (shared self) ≤ₒ time (shared self').
Proof.
  intros Hop Hinv.
  assert (∀ e r0, run is_send_error (set_executor e self) = Done (r0, self') →
    sched_inv (shared self') ∧ time (shared self) ≤ₒ time (shared self')) as Hrun.
  { intros e r0 Hr. destruct (run_inv _ _ _ _ Hr Hinv) as (? & ->).
    split; [done|apply ord_le_refl]. }
  destruct Hop as [r s Hs|D ? m n d r s Hm Hs|n r s Hs|a r s Hs|f adr r s Hs|f adr r s Hs].
  - by destruct (step_inv _ _ _ Hs Hinv) as (? & ? & _).
  - unfold step_until in Hs. destruct (into_time d (time (shared self))) as [t| |] eqn:Ed;
      simpl in Hs; [|done..].
    destruct (t <?ₒ time (shared self)) eqn:Elt; ord_simpl.
    { simplify_eq. split; [done|apply ord_le_refl]. }
    destruct (step_until_unchecked_inv _ _ _ _ _ _ _ Hs) as (? & ? & _); try done.
    intros ? [= <-]. by apply Hm.
  - destruct (step_until_unchecked_inv _ _ _ _ _ _ _ Hs) as (? & ? & _); try done.
    apply mt_le_MAX.
  - apply process_run in Hs as (e & Hs). by eapply Hrun.
  - apply process_event_run in Hs as (e & Hs). by eapply Hrun.
  - apply process_query_run in Hs as (e & r0 & Hs & _). by eapply Hrun.
Qed.

Lemma sim_steps_inv self self' :
  rtc (sim_step quiet_gap) self self' → sched_inv (shared self) →
  sched_inv (shared self') ∧ time (shared self) ≤ₒ time (shared self').
Proof.
  induction 1 as [s|s s1 s2 Hstep Hsteps IH]; intros Hinv;
    [split; [done|apply ord_le_refl]|].
  assert (sched_inv (shared s1) ∧ time (shared s) ≤ₒ time (shared s1)) as [Hi Ht].
  { destruct Hstep as [r s' Hop|sh Hop|d].
    - exact (sim_op_inv _ _ _ Hop Hinv).
    - destruct (sched_op_inv _ _ Hop Hinv) as (? & Ht & _). simpl. rewrite Ht.
      split; [done|apply ord_le_refl].
    - split; [done|apply ord_le_refl]. }
  destruct (IH Hi) as [? ?]. split; [done|]. by eapply ord_le_trans.
Qed.

(** C1: one step.  Let [k] be the key of the first live action up to the
    bound.  If there is none, the step only drops cancelled actions from the
    front of the queue and everything left lies beyond the bound.  Otherwise
    the time becomes that of [k], the live actions of that time are spawned
    as one task per origin, the periodic ones are queued again one period
    later, the rest of the queue is kept, and the step goes on with the clock
    and the executor; the only panics are those of time or epoch overflow.
    The queue is well formed and in the future and holds no zero period, and
    still does when the mutex is released. *)
Theorem step_to_next_refines ub self :
  accepts_tasks (executor self) = true →
  sched_inv (shared self) → periods_ok (shared self) →
  is_terminated self = false → is_halted (shared self) = false →
  let bound := default MT_MAX ub in
  let flags := key_flags (shared self) in
  let l := queued (shared self) in
  match next_key bound flags l with
  | None => ∃ q, step_to_next is_send_error ub self =
        Done (Ok None, set_shared (set_queue q (shared self)) self) ∧
      sq_abs q = dropc bound flags l ∧ Forall (λ kv, bound <ₒ kv.1.1) (sq_abs q)
  | Some k =>
      match resched (batch k.1 flags l)
              (after k.1 l, sq_count (scheduler_queue (shared self))) with
      | Done lc => ∃ q,
          step_to_next is_send_error ub self =
            finish_step is_send_error k.1 (after_pulls k.1 q (batch k.1 flags l) self) ∧
          sq_abs q = dropc bound flags lc.1 ∧
          sched_inv (set_queue q (set_time k.1 (shared self))) ∧
          periods_ok (set_queue q (set_time k.1 (shared self)))
      | _ => step_to_next is_send_error ub self = Panicked
      end
  end.
Proof.
  intros Hae Hinv Hper Hterm Hhalt bound flags l.
  destruct (next_key bound flags l) as [k|] eqn:Hk.
  - exact (step_to_next_some is_send_error ub self k Hae Hinv Hper Hterm Hhalt Hk).
  - destruct (step_to_next_none is_send_error ub self Hinv Hterm Hhalt Hk)
      as (q & ? & ? & ? & _). eauto.
Qed.

(** C3: in every history of public calls and scheduling operations that starts
    in a state satisfying the invariant, the queue stays well formed,
    everything queued lies strictly after the current time, and the simulation
    time never decreases.  The actions scheduled may have any period, zero
    included.  The one condition is on the other threads: while [step_until]
    writes the target time, without the queue's mutex, they schedule nothing at
    or before that time. *)
Theorem reachable_invariant self self' :
  sched_inv (shared self) → rtc (sim_step quiet_gap) self self' →
  sched_inv (shared self') ∧ time (shared self) ≤ₒ time (shared self').
Proof. intros ? ?. by apply sim_steps_inv. Qed.

(** C4: when [step_until] returns without error, the time is the deadline, the
    simulation can go on, and the shared state is either [sh1], in which nothing
    queued is due at or before the deadline, or what the other threads made of
    [sh1] while the time was being written without the queue's mutex: what is
    still due was scheduled by them in that gap, and nothing is due if they
    schedule nothing at or before the deadline there.  A deadline in the past
    is refused with [InvalidDeadline] and changes nothing. *)
Theorem step_until_reaches_target {D : Type} `{Deadline D T} meanwhile fuel (d : D) t
    self r self' :
  sched_inv (shared self) → into_time d (time (shared self)) = Done t →
  step_until is_send_error meanwhile fuel d self = Done (r, self') →
  if decide (t <ₒ time (shared self)) then r = Err (InvalidDeadline t) ∧ self' = self
  else match r with
    | Ok _ => time (shared self') = t ∧ is_terminated self' = false ∧
        (∃ sh1, sched_inv sh1 ∧ Forall (λ kv, t <ₒ kv.1.1) (queued sh1) ∧
           (shared self' = sh1 ∨ shared self' = set_time t (meanwhile sh1))) ∧
        (quiet_gap t meanwhile → Forall (λ kv, t <ₒ kv.1.1) (queued (shared self')))
    | Err _ => is_terminated self' = true
    end.
Proof.
  intros Hinv Hd Hs. unfold step_until in Hs. rewrite Hd in Hs. simpl in Hs.
  destruct (t <?ₒ time (shared self)) eqn:Elt.
  - rewrite decide_True by by apply ord_ltb_lt. by simplify_eq.
  - ord_simpl. rewrite decide_False by by apply ord_nlt_le.
    pose proof (step_until_unchecked_latched _ _ _ _ _ _ _ Hs) as Hl.
    destruct (step_until_unchecked_spec _ _ _ _ _ _ _ Hs Hinv Elt)
      as (sh1 & Hinv1 & _ & Hend). destruct r as [[]|]; [|done].
    destruct Hend as [[-> Hok]|(t' & [= <-] & _ & Hq & ->)].
    + destruct (Hok eq_refl) as [Hq Ht]. split_and!; [by apply Ht|done| |done]. by exists sh1; auto.
    + split_and!; [done|done|by exists sh1; auto|]. intros Hm. by apply quiet_gap_inv.
Qed.


(** C5: an error other than [BadQuery] and [InvalidDeadline] terminates the
    simulation, and a terminated simulation stays so: every later call that
    returns fails with [Terminated], or with [InvalidDeadline] for a deadline in
    the past, and leaves the queue, the time and the halt flag as they are.
    This holds whatever the other threads do meanwhile. *)
Theorem termination_latch gap self r self' :
  sim_op gap self r self' →
  match r with
  | Ok _ => is_terminated self' = false
  | Err e => non_fatal e ∨ is_terminated self' = true
  end ∧
  (is_terminated self = true →
     is_terminated self' = true ∧ shared self' = shared self ∧
     (r = Err Terminated ∨ ∃ t, r = Err (InvalidDeadline t))).
Proof.
  intros Hop. split; [by apply (sim_op_latched _ _ _ _ Hop)|]. intros Ht.
  destruct Hop as [r s Hs|D ? m n d r s _ Hs|n r s Hs|a r s Hs|f adr r s Hs|f adr r s Hs].
  - unfold step, step_to_next in Hs. rewrite Ht in Hs. simplify_eq/=. auto.
  - unfold step_until in Hs. destruct (into_time d (time (shared self))) as [t| |];
      simpl in Hs; [|done..].
    destruct (t <?ₒ time (shared self)); [simplify_eq; eauto|].
    destruct n; simpl in Hs; [done|]. unfold step_to_next in Hs. rewrite Ht in Hs.
    simplify_eq/=. auto.
  - unfold step_unbounded in Hs. destruct n; simpl in Hs; [done|].
    unfold step_to_next in Hs. rewrite Ht in Hs. simplify_eq/=. auto.
  - apply process_run in Hs as (e & Hs). unfold run in Hs. simpl in Hs. rewrite Ht in Hs.
    simplify_eq/=. auto.
  - apply process_event_run in Hs as (e & Hs). unfold run in Hs. simpl in Hs. rewrite Ht in Hs.
    simplify_eq/=. auto.
  - apply process_query_run in Hs as (e & r0 & Hrun & Hr0).
    unfold run in Hrun. simpl in Hrun. rewrite Ht in Hrun. simplify_eq/=.
    destruct r; [done|]. destruct Hr0 as [[= <-]|[? _]]; [|done]. auto.
Qed.
End System.

(** ** Evaluations on the demonstration *)

Definition demo_err (b : bool) : bool := b.

(** The demonstration's step: the cancelled action at 5 ns is dropped, origin
    1's two actions run in one sequence, origin 2's periodic action comes
    back at 15 ns. *)
Lemma step_to_next_refines_witness :
  ∃ q, step_to_next demo_err None demo =
      finish_step demo_err (ns 10)
        (after_pulls (ns 10) q (batch (ns 10) [true] (queued (shared demo))) demo) ∧
    sq_abs q = [(ns 15, 2%Z, every 5 2 8); (ns 20, 1%Z, once 5 7)].
Proof.
  pose proof (step_to_next_refines demo_err None demo eq_refl demo_inv demo_periods eq_refl eq_refl)
    as Hstep.
  cbv zeta in Hstep.
  change (default MT_MAX None) with (@MT_MAX TaiTime _) in Hstep.
  assert (next_key MT_MAX (key_flags (shared demo)) (queued (shared demo)) =
          Some (ns 10, 1%Z)) as Hk by (vm_compute; reflexivity).
  rewrite Hk in Hstep. simpl fst in Hstep.
  destruct (resched _ _) as [lc| |] eqn:Er; [|vm_compute in Er; discriminate..].
  destruct Hstep as (q & Hq & Habs & _). exists q. split; [exact Hq|].
  rewrite Habs. vm_compute in Er. injection Er as <-. vm_compute. reflexivity.
Defined.

(** Another thread schedules an event at 40 ns in the gap. *)
Definition demo_meanwhile (sh : DShared) : DShared :=
  match Scheduler_schedule_event (ns 40) 9 7 sh with Done (_, sh) => sh | _ => sh end.

Lemma demo_meanwhile_quiet : quiet_gap (ns 17) demo_meanwhile.
Proof.
  intros sh Hinv Hq. unfold demo_meanwhile, Scheduler_schedule_event.
  destruct (schedule_event_from (ns 40) 9 7 GLOBAL_SCHEDULER_ORIGIN_ID sh)
    as [[r sh']| |] eqn:Es; [|done..].
  split; [by eapply rtc_once, op_schedule_event|].
  rewrite schedule_event_from_eq in Es.
  destruct (schedule_from_cases _ _ _ _ _ _ (si_wf _ Hinv) Es)
    as (t & [= <-] & [(_ & _ & ->)|(_ & _ & q & -> & _ & Habs & _)]); [done|].
  change (queued (set_queue q sh)) with (sq_abs q). rewrite Habs.
  apply stable_insert_Forall. by split; [vm_compute|].
Qed.

Lemma reachable_invariant_witness :
  ∃ s : DSim, step_until demo_err demo_meanwhile 20 (ns 17) demo = Done (Ok tt, s) ∧
    time (shared s) = ns 17 ∧ sched_inv (shared s) ∧ time (shared demo) ≤ₒ time (shared s).
Proof.
  destruct (step_until demo_err demo_meanwhile 20 (ns 17) demo) as [[r s]| |] eqn:Es;
    [|vm_compute in Es; discriminate..].
  exists s. split.
  { rewrite <-Es. vm_compute in Es |- *. injection Es as <- <-. reflexivity. }
  split; [vm_compute in Es; injection Es as _ <-; vm_compute; reflexivity|].
  apply (reachable_invariant demo_err demo s demo_inv).
  apply rtc_once. eapply step_op, (op_step_until demo_err _ _ _ demo_meanwhile); [|exact Es].
  intros t Ht. injection Ht as <-. exact demo_meanwhile_quiet.
Defined.

Lemma step_until_reaches_target_witness :
  ∃ s : DSim, step_until demo_err demo_meanwhile 20 (ns 17) demo = Done (Ok tt, s) ∧
    time (shared s) = ns 17 ∧ is_terminated s = false ∧
    (fst <$> queued (shared s)) = [(ns 20, 1%Z); (ns 20, 2%Z); (ns 40, 0%Z)] ∧
    Forall (λ kv, ns 17 <ₒ kv.1.1) (queued (shared s)).
Proof.
  destruct (step_until demo_err demo_meanwhile 20 (ns 17) demo) as [[r s]| |] eqn:Es;
    [|vm_compute in Es; discriminate..].
  exists s.
  assert (r = Ok tt) as -> by (vm_compute in Es; injection Es as <- _; reflexivity).
  split; [reflexivity|].
  destruct (step_until_reaches_target demo_err demo_meanwhile 20 (ns 17) (ns 17) demo (Ok tt) s
    demo_inv eq_refl Es) as (Ht & Hterm & _ & Hq).
  split; [exact Ht|]. split; [exact Hterm|].
  split; [vm_compute in Es; injection Es as <-; vm_compute; reflexivity|].
  exact (Hq demo_meanwhile_quiet).
Defined.


Lemma termination_latch_witness :
  ∃ s : DSim, process_event demo_err 1 7 (demo_sim [] [] (Some ExecTimeout)) =
      Done (Err Timeout, s) ∧ is_terminated s = true ∧
    ∃ s' : DSim, step demo_err s = Done (Err Terminated, s') ∧ shared s' = shared s.
Proof.
  eexists. split; [reflexivity|].
  split; [reflexivity|]. eexists. split; [reflexivity|].
  refine (proj1 (proj2 (proj2 (termination_latch demo_err (λ _ _, True) _ (Err Terminated) _ _) _))).
  - apply op_step. reflexivity.
  - reflexivity.
Defined.

Definition demo_shared : DShared := shared demo.

Lemma schedule_from_spec_witness :
  ∃ q, schedule_from (dur 10) (once 6 7) 1 demo_shared = Done (Ok tt, set_queue q demo_shared) ∧
    filter (λ kv, kv.1 = (ns 10, 1%Z)) (queued (set_queue q demo_shared)) =
      [(ns 10, 1%Z, once 1 7); (ns 10, 1%Z, once 4 7); (ns 10, 1%Z, once 6 7)].
Proof.
  pose proof (schedule_from_spec (dur 10) (once 6 7) 1 demo_shared (si_wf _ demo_inv)) as Hs.
  assert (into_time (dur 10) (time demo_shared) = Done (ns 10)) as Ht
    by (vm_compute; reflexivity).
  rewrite Ht in Hs. destruct (decide (ns 10 ≤ₒ time demo_shared)) as [Hle|_].
  { exfalso. vm_compute in Hle. by apply Hle. }
  destruct (decide (sq_count (scheduler_queue demo_shared) = u64_max)) as [Hc|_].
  { vm_compute in Hc. discriminate. }
  destruct Hs as (q & Hq & _ & Hf). exists q. split; [exact Hq|].
  rewrite Hf. vm_compute. reflexivity.
Defined.

Lemma scheduling_keeps_invariant_witness :
  sched_inv (halt demo_shared) ∧ time (halt demo_shared) = time demo_shared.
Proof.
  apply (scheduling_keeps_invariant demo_shared); [exact demo_inv|].
  apply rtc_once, op_halt.
Defined.

Lemma cancellation_is_permanent_witness :
  let sh := set_flags [false; false] demo_shared in
  let sh' := halt (set_flags (ActionKey_cancel (key_flags sh) 1) sh) in
  ActionKey_is_cancelled (key_flags sh') 1 = true ∧
  msg_call (key_flags sh') (KeyedEventMsg 1 5) = None.
Proof.
  intros sh sh'.
  destruct (cancellation_is_permanent sh sh' 1 5) as (Hc & _ & _ & Hm).
  - apply set_flags_inv. exact demo_inv.
  - simpl. lia.
  - apply rtc_once, op_halt.
  - split; [exact Hc|exact Hm].
Defined.

Lemma keyed_periodic_event_spec_witness :
  ∃ sh', schedule_keyed_periodic_event_from (ns 12) (dur 4) 3 7 2 demo_shared =
      Done (Ok 1, sh') ∧ ActionKey_is_cancelled (key_flags sh') 1 = false ∧
    ActionKey_is_cancelled (key_flags sh') 0 = true.
Proof.
  destruct (schedule_keyed_periodic_event_from (ns 12) (dur 4) 3 7 2 demo_shared)
    as [[r sh']| |] eqn:Es; [|vm_compute in Es; discriminate..].
  assert (r = Ok 1) as -> by (vm_compute in Es; injection Es as <- _; reflexivity).
  exists sh'. split; [reflexivity|].
  pose proof (keyed_periodic_event_spec (ns 12) (dur 4) 3 7 2 demo_shared (Ok 1) sh'
    (si_wf _ demo_inv) Es) as (_ & _ & Hc & Hold & _).
  split; [exact Hc|]. rewrite Hold by (simpl; lia). reflexivity.
Defined.
