(* ===== verification/SimHazards.v ===== *)
(** * Errors of the simulation, and where it leaves its contract

    Three behaviours at the edge of the invariants of [Scheduler.v] and
    [Stepping.v]: a repetition period of zero, which [Scheduler::schedule]
    accepts in an action made by an event source; the update of the time in
    [step_until_unchecked], made without the queue's mutex; and the mailboxes
    of sub-models, which have no observer.  Then the translation of executor
    errors: unprocessed messages, and panics of the registered models. *)

From stdpp Require Import base option list numbers strings relations.
From Stdlib Require Import ZArith Lia.
From S2P Require Import Prelude StableQueue PriorityQueue Time SeqFuture Scheduler Simulation StepFacts Stepping SimInit Demo.

Section ZeroPeriod.
Context {T : Type} `{MonotonicTimeLaws T}.
Context {Call Addr SourceFut QCall Obs Reply Payload : Type}.
Abbreviation Action := (Action Call Addr SourceFut).
Abbreviation Task := (Task Call Addr SourceFut QCall).
Context {Q : Type} `{!StableQueue Q (T * Z) Action} `{!StableQueueLaws Q (T * Z) Action}.
Abbreviation Shared := (Shared Q T).
Context {E : Type} `{!Executor E Shared Task Obs Reply Payload}.
Context (ub t : T) (o : Z) (flags : KeyFlags) (gen : unit → Fut Call Addr SourceFut).
Context (p : Duration) (Hp : duration_wf p) (Hz : is_zero p = true) (Ht : t ≤ₒ ub).
Implicit Types q : Q.

Definition only_zero (q : Q) : Prop :=
  sq_wf q ∧ sq_abs q = [((t, o), PeriodicAction gen p)].

(** A pull puts the action back where it was. *)
Lemma zero_pull q :
  only_zero q →
  pull_next_action q = Panicked ∨
  ∃ q', pull_next_action q = Done (PeriodicAction gen p, q') ∧ only_zero q'.
Proof.
  intros [Hwf Habs].
  pose proof (pull_next_action_spec q _ [] Hwf Habs) as Hpull.
  unfold resched1 in Hpull. simpl in Hpull. pose proof (mt_add_returns t p) as Hret.
  destruct (mt_add t p) as [t'| |] eqn:Ha; simpl in Hpull;
    [|destruct (pull_next_action q); [done|by left|done]|done].
  apply mt_add_zero in Ha as ->; [|done..].
  case_decide; [destruct (pull_next_action q); [done|by left|done]|].
  apply orel_Done_l in Hpull as ([a q'] & Heq & ? & Hwf' & Habs' & _).
  simpl in *. subst a. right. exists q'. done.
Qed.

Lemma zero_peek n q :
  only_zero q → peek_next_key (S n) ub flags q = Done (Some (t, o), q).
Proof.
  intros [Hwf Habs]. simpl. rewrite sq_peek_spec, Habs by done. simpl.
  by apply ord_leb_le in Ht as ->.
Qed.

Lemma zero_seq_loop fuel n acc q r :
  only_zero q → seq_loop fuel n ub flags (t, o) acc q ≠ Done r.
Proof.
  revert acc q. induction fuel as [|fuel IH]; intros acc q Hq; [done|].
  cbn [seq_loop]. destruct (zero_pull q Hq) as [->|(q' & -> & Hq')]; [done|].
  cbn [obind]. destruct n as [|n]; [done|]. rewrite zero_peek by done.
  cbn [obind]. rewrite bool_decide_eq_true_2 by done. by apply IH.
Qed.

Lemma zero_step_loop fuel n q e r :
  only_zero q → step_loop fuel n ub flags (t, o) q (e : E) ≠ Done r.
Proof.
  intros Hq. destruct fuel as [|fuel]; [done|].
  cbn [step_loop]. destruct (zero_pull q Hq) as [->|(q' & -> & Hq')]; [done|].
  cbn [obind]. destruct n as [|n]; [done|]. rewrite zero_peek by done.
  cbn [obind]. rewrite bool_decide_eq_true_2 by done. simpl negb. cbv iota.
  pose proof (zero_seq_loop (S n) (S n)
    (push (Action_into_future (PeriodicAction gen p)) SeqFuture.new) q') as Hs.
  destruct (seq_loop _ _ _ _ _ _ _) as [[[sq nk] q2]| |]; [|done..].
  by destruct (Hs (sq, nk, q2) Hq').
Qed.
End ZeroPeriod.

(** [Scheduler::schedule] accepts a periodic action whose period is zero,
    and a step that meets it alone in the queue never gets out of its loops:
    whatever the number of iterations, the loop does not return. *)
Lemma zero_period_diverges {T : Type} `{MonotonicTimeLaws T}
    {Call Addr SourceFut QCall Obs Reply Payload Q E : Type}
    `{!StableQueue Q (T * Z) (Action Call Addr SourceFut)}
    `{!StableQueueLaws Q (T * Z) (Action Call Addr SourceFut)}
    `{!Executor E (Shared Q T) (Task Call Addr SourceFut QCall) Obs Reply Payload}
    (now t ub : T) (gen : unit → Fut Call Addr SourceFut) (p : Duration) :
  now <ₒ t → t ≤ₒ ub → duration_wf p → is_zero p = true →
  ∃ q : Q,
    Scheduler_schedule t (PeriodicAction gen p) (mkShared (sq_new : Q) now false []) =
      Done (Ok tt, mkShared q now false []) ∧
    ∀ fuel n (e : E) r,
      step_loop fuel n ub [] (t, GLOBAL_SCHEDULER_ORIGIN_ID) q e ≠ Done r.
Proof.
  intros Hnow Hub Hp Hz. unfold Scheduler_schedule, schedule_from. simpl.
  pose proof (proj2 (ord_leb_gt t now) Hnow) as ->.
  pose proof (sq_insert_spec (sq_new : Q) (t, GLOBAL_SCHEDULER_ORIGIN_ID)
    (PeriodicAction gen p) sq_new_wf) as Hins.
  rewrite sq_new_count, decide_False, sq_new_abs in Hins by done.
  destruct Hins as (q & -> & Hwf & Habs & _). exists q. split; [done|].
  intros fuel n e r. by eapply zero_step_loop.
Qed.

Lemma zero_period_diverges_witness :
  ∃ q : DQueue,
    Scheduler_schedule (ns 1) (every 0 1 7) (mkShared (sq_new : DQueue) (ns 0) false []) =
      Done (Ok tt, mkShared q (ns 0) false []) ∧
    ∀ fuel n (e : LogExecutor) r,
      step_loop fuel n (ns 9) [] (ns 1, GLOBAL_SCHEDULER_ORIGIN_ID) q e ≠ Done r.
Proof.
  apply (zero_period_diverges (ns 0) (ns 1) (ns 9)); by vm_compute.
Defined.

(** Another thread schedules an event at 5 ns. *)
Definition event_at_5 (sh : DShared) : DShared :=
  match Scheduler_schedule_event (ns 5) 1 7 sh with Done (_, sh) => sh | _ => sh end.

(** The time update of [step_until_unchecked] is not atomic with the check
    that nothing is due: here [step_until 10] finds nothing to do up to 10 ns,
    another thread schedules an event at 5 ns, which is accepted because the
    time is still 0, and the time is then set to 10 ns, which breaks the
    invariant: the next step moves the time back to 5 ns. *)
Lemma idle_update_race :
  let s0 := demo_sim [] [] None in
  (∀ sh, rtc sched_op sh (event_at_5 sh)) ∧
  ∃ s3 s4 : DSim,
    step_until id event_at_5 2 (ns 10) s0 =
      Done (Ok tt : result unit (ExecutionError TaiTime bool), s3) ∧
    ¬ sched_inv (shared s3) ∧
    step id s3 = Done (Ok tt, s4) ∧
    time (shared s3) = ns 10 ∧ time (shared s4) = ns 5 ∧ ns 5 <ₒ ns 10.
Proof.
  simpl. split.
  { intros sh. unfold event_at_5, Scheduler_schedule_event.
    destruct (schedule_event_from _ _ _ _ sh) as [[r sh']| |] eqn:Es; [|done..].
    by eapply rtc_once, op_schedule_event. }
  do 2 eexists.
  split; [vm_compute; reflexivity|].
  split; [|split; [vm_compute; reflexivity|by vm_compute]].
  intros [_ Hf _]. unfold queued in Hf. simpl in Hf.
  vm_compute in Hf. by apply Forall_cons in Hf as [? _].
Qed.

(** ** Observers *)

Section Observers.
Context {T : Type} `{MonotonicTimeLaws T}.
Context {Call Addr SourceFut QCall Obs Reply Payload : Type}.
Abbreviation Task := (Task Call Addr SourceFut QCall).
Context {Q : Type} `{!StableQueue Q (T * Z) (Action Call Addr SourceFut)}.
Abbreviation Shared := (Shared Q T).
Context {E : Type} `{!Executor E Shared Task Obs Reply Payload}.
Context {C : Type}.
Context (is_send_error : Payload → bool).

(** Messages left unprocessed are a deadlock of exactly the observed models
    whose mailbox is not empty, in the order of registration, and a message
    loss when every observed mailbox is empty. *)
Lemma unprocessed_messages_error (self : Simulation E C Shared Obs) n e sh :
  is_terminated self = false → is_halted (shared self) = false →
  executor_run (timeout self) (executor self) (shared self) =
    Done (e, sh, Err (UnprocessedMessages n)) →
  ∃ self', is_terminated self' = true ∧ shared self' = sh ∧
    (((∀ mo, mo ∈ observers self → observer_len e mo.2 = 0%Z) ∧
      run is_send_error self = Done (Err (MessageLoss n), self')) ∨
     ∃ infos, infos ≠ [] ∧ run is_send_error self = Done (Err (Deadlock infos), self') ∧
       infos = (λ mo, mkDeadlockInfo mo.1 (observer_len e mo.2)) <$>
                 filter (λ mo, observer_len e mo.2 ≠ 0%Z) (observers self)).
Proof.
  intros Ht Hh Hrun. unfold run. rewrite Ht, Hh, Hrun. simpl.
  exists (set_terminated (set_shared sh (set_executor e self))).
  split_and!; [done..|]. unfold deadlock_info. simpl.
  set (f := λ mo : string * Obs, _).
  assert (omap f (observers self) =
    (λ mo, mkDeadlockInfo mo.1 (observer_len e mo.2)) <$>
      filter (λ mo, observer_len e mo.2 ≠ 0%Z) (observers self)) as ->.
  { induction (observers self) as [|mo l IH]; [done|]. csimpl. rewrite filter_cons, IH.
    unfold f at 1. destruct (Z.eqb_spec (observer_len e mo.2) 0) as [Heq|Hne]; simpl.
    - by rewrite decide_False by (by intros []).
    - by rewrite decide_True. }
  destruct (filter _ (observers self)) as [|mo l] eqn:Ef; simpl.
  - left. split; [|done]. intros mo Hmo.
    destruct (decide (observer_len e mo.2 = 0%Z)) as [|Hne]; [done|].
    assert (mo ∈ filter (λ mo, observer_len e mo.2 ≠ 0%Z) (observers self)) as Hin
      by by apply list_elem_of_filter.
    rewrite Ef in Hin. by apply not_elem_of_nil in Hin.
  - right. eexists. split_and!; [|done|done]. done.
Qed.
End Observers.

Definition blocked_sim (obs : list (string * Z)) : DSim :=
  mkSim (mkLog [] [] [] 0 (Some (UnprocessedMessages 3)))
    (mkShared (queue_of []) MT_EPOCH false []) mkNoClock None duration_zero
    obs (fst <$> obs) false.

Lemma unprocessed_messages_error_witness :
  ∃ self', run id (blocked_sim [("a", 0%Z); ("b", 3%Z)]) =
    Done (Err (Deadlock [mkDeadlockInfo "b" 3]) : result unit (ExecutionError TaiTime bool), self').
Proof.
  set (self := blocked_sim [("a", 0%Z); ("b", 3%Z)]).
  assert (executor_run (timeout self) (executor self) (shared self) =
    Done (executor self, shared self, Err (UnprocessedMessages 3))) as Hrun by reflexivity.
  destruct (unprocessed_messages_error id self 3 (executor self)
    (shared self) eq_refl eq_refl Hrun) as (self' & _ & _ & [[Hall _]|(infos & _ & Hr & Hi)]).
  - exfalso. assert (("b", 3%Z) ∈ observers self) as Hb by (right; left).
    apply Hall in Hb. discriminate Hb.
  - exists self'. rewrite Hr, Hi. reflexivity.
Defined.

(** ** Sub-models *)

Section SubModels.
Context {T : Type} `{MonotonicTimeLaws T}.
Context {Call Addr SourceFut QCall Obs Reply Payload : Type}.
Abbreviation Task := (Task Call Addr SourceFut QCall).
Context {Q : Type} `{!StableQueue Q (T * Z) (Action Call Addr SourceFut)}.
Abbreviation Shared := (Shared Q T).
Context {E : Type} `{!Executor E Shared Task Obs Reply Payload}.
Context `{Hids : !ExecutorIds (E := E)}.
Context {C : Type}.

(** Adding a model with its sub-models registers one observer, that of the
    model itself, while it spawns one task and registers one fully qualified
    name for the model and for each of its sub-models, the task of the i-th
    name carrying the identifier i. *)
Lemma add_model_registers (p : Proto Addr Obs) mailbox name
    (self self' : SimInit E C Shared Obs) :
  SimInit_add_model p mailbox name self = Done self' →
  let names := qualified_names p (default_name name) in
  init_names self' = init_names self ++ names ∧
  model_ids (init_executor self') =
    model_ids (init_executor self) ++ ids_from (length (init_names self)) (length names) ∧
  init_observers self' = init_observers self ++ [(default_name name, mailbox.2)].
Proof.
  unfold SimInit_add_model.
  destruct (add_model _ _ _ _ _) as [[e names]| |] eqn:Ea; simpl; [|done..].
  intros [= <-]. simpl. by apply add_model_names in Ea as [-> ->].
Qed.
End SubModels.

(** A model "top" with a sub-model "sub" and one without a name. *)
Definition demo_proto : Proto nat Z :=
  mkProto [(mkProto [], (8, 3%Z), "sub"); (mkProto [], (9, 0%Z), "")].

Definition demo_init : SimInit LogExecutor NoClock DShared Z :=
  mkInit (mkLog [] [] [] 0 (Some (UnprocessedMessages 3)))
    (mkShared (queue_of []) MT_EPOCH false []) mkNoClock None duration_zero [] [].

Lemma add_model_registers_witness :
  ∃ self', SimInit_add_model demo_proto (7, 0%Z) "top" demo_init = Done self' ∧
    init_names self' = ["top.sub"; "top.<unknown>"; "top"] ∧
    init_observers self' = [("top", 0%Z)].
Proof.
  destruct (SimInit_add_model demo_proto (7, 0%Z) "top" demo_init) as [b| |] eqn:Hb;
    [|vm_compute in Hb; discriminate..].
  exists b. split; [reflexivity|].
  destruct (add_model_registers demo_proto (7, 0%Z) "top" demo_init b Hb) as (Hn & _ & Ho).
  rewrite Hn, Ho. split; reflexivity.
Defined.

(** A deadlock in a sub-model is reported as a message loss: here the
    sub-model's mailbox, which is part of the bench, holds three messages, and
    starting the simulation fails with [MessageLoss] instead of a [Deadlock]
    that names "top.sub". *)
Lemma submodel_deadlock_reported_as_loss :
  ∃ bench, SimInit_add_model demo_proto (7, 0%Z) "top" demo_init = Done bench ∧
    SpawnModel 8 0%Z ∈ pending (init_executor bench) ∧
    observer_len (init_executor bench) 3%Z = 3%Z ∧
    init id (ns 0) bench =
      Done (Err (MessageLoss 3) : result DSim (ExecutionError TaiTime bool)).
Proof.
  eexists. split; [reflexivity|]. split; [left|]. split; reflexivity.
Qed.

(** ** Model panics *)

Section Panics.
Context {T : Type} `{MonotonicTimeLaws T}.
Context {Call Addr SourceFut QCall Obs Reply Payload : Type}.
Abbreviation Task := (Task Call Addr SourceFut QCall).
Context {Q : Type} `{!StableQueue Q (T * Z) (Action Call Addr SourceFut)}.
Abbreviation Shared := (Shared Q T).
Context {E : Type} `{!Executor E Shared Task Obs Reply Payload}.
Context `{Hids : !ExecutorIds (E := E)}.
Context {C : Type} `{!Clock C T}.
Context (is_send_error : Payload → bool).

(** Benches: any number of models added to an empty one. *)
Inductive built (e0 : E) (sh : Shared) (c : C) : SimInit E C Shared Obs → Prop :=
| built_new tol to : built e0 sh c (mkInit e0 sh c tol to [] [])
| built_add b b' p mailbox name :
    built e0 sh c b → SimInit_add_model p mailbox name b = Done b' → built e0 sh c b'.

Lemma built_names_ok e0 sh c b :
  model_ids e0 = [] → built e0 sh c b → names_ok (init_executor b) (init_names b).
Proof.
  intros Hnil. induction 1 as [tol to|b b' p mailbox name Hb IH Hadd].
  - unfold names_ok. simpl. by rewrite Hnil.
  - unfold SimInit_add_model in Hadd.
    destruct (add_model _ _ _ _ _) as [[e names]| |] eqn:Ea; simplify_eq/=.
    by eapply add_model_names_ok.
Qed.

(** On a bench made of any models, a panic of a model during the first run
    never makes the simulator itself panic for want of the model's name: the
    only panics of [init] are the executor's own and those that come from no
    model and are not send errors. *)
Lemma init_names_every_panic e0 sh c b start :
  model_ids e0 = [] → built e0 sh c b →
  init (T := T) is_send_error start b = Panicked →
  let sh := set_time start (init_shared b) in
  executor_run (init_timeout b) (init_executor b) sh = Panicked ∨
  ∃ e sh' p, executor_run (init_timeout b) (init_executor b) sh =
               Done (e, sh', Err (ExecPanic ModelId_none p)) ∧ is_send_error p = false.
Proof.
  intros Hnil Hb Hi. pose proof (built_names_ok _ _ _ _ Hnil Hb) as Hok.
  unfold init in Hi. destruct (synchronize (init_clock b) start) as [c' st].
  set (sim := Simulation_new _ _ _ _ _ _ _) in Hi.
  assert (run is_send_error sim = Panicked) as Hr.
  { destruct (run is_send_error sim) as [[[] ?]| |]; try done; simpl in Hi;
      destruct st; try done; destruct (init_tolerance b); try done;
      by destruct (_ <?ₒ _). }
  exact (run_panics is_send_error sim Hok Hr).
Qed.
End Panics.

(** A bench whose executor reports a panic without a model: the simulator
    panics, and the theorem names the cause. *)
Lemma init_names_every_panic_witness :
  let b : SimInit PanicExecutor NoClock DShared Z :=
    mkInit [] (mkShared (queue_of []) MT_EPOCH false []) mkNoClock None duration_zero [] [] in
  init id (ns 0) b = Panicked ∧
  ∃ e sh' p, executor_run (init_timeout b) (init_executor b)
      (set_time (ns 0) (init_shared b)) =
        Done (e, sh', Err (ExecPanic ModelId_none p)) ∧ id p = false.
Proof.
  intros b. split; [reflexivity|].
  pose proof (init_names_every_panic (E := PanicExecutor) id [] (init_shared b) mkNoClock
    b (ns 0)) as Hthm.
  destruct (Hthm eq_refl (built_new _ _ _ _ _) eq_refl) as [Habs|Hex];
    [discriminate|exact Hex].
Defined.
