(* ===== verification/IndexedPriorityQueue.v ===== *)
(** * The indexed priority queue (util/indexed_priority_queue.rs)

    A binary heap of unique keys cross-indexed with a slab of nodes: each
    heap item points to its slab node and each node in use points back to its
    heap index, so that a key-value pair can be extracted by its insertion
    key.  Free nodes form a linked list.  Indices are [nat]; an access out of
    bounds and a node of the wrong kind panic.  The loops of [sift_up] and
    [sift_down] take fuel: the index moves towards 0 or the end of the heap,
    so the index plus one and the length of the heap are enough. *)

From stdpp Require Import base option list numbers sorting.
From Stdlib Require Import ZArith Lia.
From S2P Require Import Prelude StableQueue PriorityQueue.

(** ** Data *)

(** [UniqueKey] is ordered lexicographically, as a pair. *)
Abbreviation UniqueKey K := (K * Z)%type.

Record HeapItem (K : Type) := mkHeapItem { ukey : UniqueKey K; slab_idx : nat }.
Arguments mkHeapItem {K}.
Arguments ukey {K}.
Arguments slab_idx {K}.

Inductive Node (V : Type) :=
| FreeNode (next : option nat)
| HeapNode (value : V) (heap_idx : nat).
Arguments FreeNode {V}.
Arguments HeapNode {V}.

Record InsertKey := mkInsertKey { ik_slab_idx : nat; ik_epoch : Z }.

#[export] Instance InsertKey_eq_dec : EqDecision InsertKey.
Proof. solve_decision. Defined.

Definition from_raw_parts (slab_idx : nat) (epoch : Z) : InsertKey :=
  mkInsertKey slab_idx epoch.
Definition into_raw_parts (self : InsertKey) : nat * Z := (ik_slab_idx self, ik_epoch self).

Record IndexedPriorityQueue (K V : Type) := mkIPQ {
  ipq_heap : list (HeapItem K);
  slab : list (Node V);
  first_free_node : option nat;
  ipq_next_epoch : Z;
}.
Arguments mkIPQ {K V}.
Arguments ipq_heap {K V}.
Arguments slab {K V}.
Arguments first_free_node {K V}.
Arguments ipq_next_epoch {K V}.

Section NodeAccess.
Context {V : Type}.

Definition unwrap_next_free_node (n : Node V) : outcome (option nat) :=
  match n with FreeNode next => Done next | HeapNode _ _ => Panicked end.
Definition unwrap_heap_node (n : Node V) : outcome (V * nat) :=
  match n with HeapNode v i => Done (v, i) | FreeNode _ => Panicked end.
Definition unwrap_value (n : Node V) : outcome V :=
  match n with HeapNode v _ => Done v | FreeNode _ => Panicked end.

(** [*self.slab[s].unwrap_heap_index_mut() = i] *)
Definition set_heap_index (s i : nat) (slab : list (Node V)) : outcome (list (Node V)) :=
  let! n := unwrap (slab !! s) in
  match n with
  | HeapNode v _ => Done (<[s := HeapNode v i]> slab)
  | FreeNode _ => Panicked
  end.
End NodeAccess.

(** [v[i] = x]: an index out of bounds panics. *)
Definition vec_set {A : Type} (i : nat) (x : A) (v : list A) : outcome (list A) :=
  if i <? length v then Done (<[i := x]> v) else Panicked.

(** [Vec::pop]. *)
Definition vec_pop {A : Type} (v : list A) : option (A * list A) :=
  match last v with
  | Some x => Some (x, removelast v)
  | None => None
  end.

Section Operations.
Context {K V : Type} `{Ord K}.
Abbreviation HeapItem := (HeapItem K).
Abbreviation Node := (Node V).
Abbreviation IndexedPriorityQueue := (IndexedPriorityQueue K V).
Implicit Types (heap : list HeapItem) (slab : list Node).

Definition ipq_new : IndexedPriorityQueue := mkIPQ [] [] None 0.
Definition with_capacity (capacity : nat) : IndexedPriorityQueue := mkIPQ [] [] None 0.
Definition len (self : IndexedPriorityQueue) : nat := length (ipq_heap self).

(** The loop of [sift_up], from the current child index.  The second
    comparison with the parent repeats the first one, as in the source. *)
Fixpoint sift_up_loop (fuel : nat) (item : HeapItem) (child_heap_idx : nat) heap slab :
    outcome (nat * list HeapItem * list Node) :=
  match fuel with
  | O => NoFuel
  | S fuel =>
      if child_heap_idx =? 0 then Done (child_heap_idx, heap, slab)
      else
        let parent_heap_idx := (child_heap_idx - 1) / 2 in
        let! parent := unwrap (heap !! parent_heap_idx) in
        if ukey parent ≤?ₒ ukey item then Done (child_heap_idx, heap, slab)
        else
          let! heap := vec_set child_heap_idx parent heap in
          let! parent := unwrap (heap !! parent_heap_idx) in
          let! slab := set_heap_index (slab_idx parent) child_heap_idx slab in
          if ukey parent ≤?ₒ ukey item then Done (child_heap_idx, heap, slab)
          else sift_up_loop fuel item parent_heap_idx heap slab
  end.

Definition sift_up (item : HeapItem) (heap_idx : nat) heap slab :
    outcome (list HeapItem * list Node) :=
  let! (child_heap_idx, heap, slab) := sift_up_loop (S heap_idx) item heap_idx heap slab in
  let! heap := vec_set child_heap_idx item heap in
  let! slab := set_heap_index (slab_idx item) child_heap_idx slab in
  Done (heap, slab).

(** The loop of [sift_down], from the current parent index. *)
Fixpoint sift_down_loop (fuel : nat) (item : HeapItem) (parent_heap_idx : nat) heap slab :
    outcome (nat * list HeapItem * list Node) :=
  match fuel with
  | O => NoFuel
  | S fuel =>
      let child_heap_idx := 2 * parent_heap_idx + 1 in
      if child_heap_idx <? length heap then
        let! child_heap_idx :=
          match heap !! (child_heap_idx + 1) with
          | Some other_child =>
              let! child := unwrap (heap !! child_heap_idx) in
              Done (child_heap_idx + (if ukey other_child <?ₒ ukey child then 1 else 0))
          | None => Done child_heap_idx
          end in
        let! child := unwrap (heap !! child_heap_idx) in
        if ukey item ≤?ₒ ukey child then Done (parent_heap_idx, heap, slab)
        else
          let! heap := vec_set parent_heap_idx child heap in
          let! child := unwrap (heap !! child_heap_idx) in
          let! slab := set_heap_index (slab_idx child) parent_heap_idx slab in
          sift_down_loop fuel item child_heap_idx heap slab
      else Done (parent_heap_idx, heap, slab)
  end.

Definition sift_down (item : HeapItem) (heap_idx : nat) heap slab :
    outcome (list HeapItem * list Node) :=
  let! (parent_heap_idx, heap, slab) :=
    sift_down_loop (S (length heap)) item heap_idx heap slab in
  let! heap := vec_set parent_heap_idx item heap in
  let! slab := set_heap_index (slab_idx item) parent_heap_idx slab in
  Done (heap, slab).

Definition ipq_insert (key : K) (value : V) (self : IndexedPriorityQueue) :
    outcome (InsertKey * IndexedPriorityQueue) :=
  let epoch := ipq_next_epoch self in
  let! _ := rust_assert (negb (epoch =? u64_max)%Z) in
  let unique_key := (key, epoch) in
  let! (slab_idx, slab, first_free_node) :=
    match first_free_node self with
    | Some idx =>
        let! node := unwrap (slab self !! idx) in
        let! next := unwrap_next_free_node node in
        Done (idx, <[idx := HeapNode value 0]> (slab self), next)
    | None => Done (length (slab self), slab self ++ [HeapNode value 0], None)
    end in
  let heap_idx := length (ipq_heap self) in
  let heap := ipq_heap self ++ [mkHeapItem unique_key 0] in
  let! (heap, slab) := sift_up (mkHeapItem unique_key slab_idx) heap_idx heap slab in
  Done (mkInsertKey slab_idx epoch, mkIPQ heap slab first_free_node (epoch + 1)).

Definition ipq_pull (self : IndexedPriorityQueue) :
    outcome (option (K * V) * IndexedPriorityQueue) :=
  match ipq_heap self !! 0 with
  | None => Done (None, self)
  | Some item =>
      let top_slab_idx := slab_idx item in
      let key := (ukey item).1 in
      let! node := unwrap (slab self !! top_slab_idx) in
      let slab := <[top_slab_idx := FreeNode (first_free_node self)]> (slab self) in
      let! value := unwrap_value node in
      let first_free_node := Some top_slab_idx in
      let! (last_item, heap) := unwrap (vec_pop (ipq_heap self)) in
      let! (heap, slab) :=
        if negb (slab_idx last_item =? top_slab_idx) then sift_down last_item 0 heap slab
        else Done (heap, slab) in
      Done (Some (key, value), mkIPQ heap slab first_free_node (ipq_next_epoch self))
  end.

Definition ipq_peek (self : IndexedPriorityQueue) : outcome (option (K * V)) :=
  match ipq_heap self !! 0 with
  | None => Done None
  | Some item =>
      let! node := unwrap (slab self !! slab_idx item) in
      let! value := unwrap_value node in
      Done (Some ((ukey item).1, value))
  end.

Definition peek_key (self : IndexedPriorityQueue) : option K :=
  (λ item, (ukey item).1) <$> ipq_heap self !! 0.

Definition extract (insert_key : InsertKey) (self : IndexedPriorityQueue) :
    outcome (option (K * V) * IndexedPriorityQueue) :=
  let slab_idx := ik_slab_idx insert_key in
  match slab self !! slab_idx with
  | None => Done (None, self)
  | Some (FreeNode _) => Done (None, self)
  | Some (HeapNode _ heap_idx) =>
      let! item := unwrap (ipq_heap self !! heap_idx) in
      if negb ((ukey item).2 =? ik_epoch insert_key)%Z then Done (None, self)
      else
        let! node := unwrap (slab self !! slab_idx) in
        let slab := <[slab_idx := FreeNode (first_free_node self)]> (slab self) in
        let! (value, heap_idx) := unwrap_heap_node node in
        let first_free_node := Some slab_idx in
        let! item := unwrap (ipq_heap self !! heap_idx) in
        let key := (ukey item).1 in
        let! (last_item, heap) := unwrap (vec_pop (ipq_heap self)) in
        let! (heap, slab) :=
          match heap !! heap_idx with
          | Some item =>
              if ukey last_item <?ₒ ukey item then sift_up last_item heap_idx heap slab
              else sift_down last_item heap_idx heap slab
          | None => Done (heap, slab)
          end in
        Done (Some (key, value), mkIPQ heap slab first_free_node (ipq_next_epoch self))
  end.
End Operations.
