(* ===== verification/IPQSift.v ===== *)
(** * Sifting in the indexed priority queue

    Both sift loops move items into a hole: the item being placed is out of
    the heap while its neighbours move.  [Hole] says that filling the hole
    would make heap and slab cross-indexed again; the order invariants say
    which edges of the heap may be violated at the hole. *)

From stdpp Require Import base option list numbers sorting.
From Stdlib Require Import ZArith Lia.
From S2P Require Import Prelude StableQueue PriorityQueue IndexedPriorityQueue.

(** ** Cross-indexing *)

Section CrossIndex.
Context {K V : Type}.
Abbreviation HeapItem := (HeapItem K).
Implicit Types (h : list HeapItem) (sl : list (Node V)) (it jt : HeapItem).

(** What sifting keeps of a node: its kind and its content. *)
Definition erase (n : Node V) : V + option nat :=
  match n with HeapNode v _ => inl v | FreeNode next => inr next end.
Definition shape sl : list (V + option nat) := erase <$> sl.

(** The heap index stored in a node. *)
Definition back sl (k : nat) : option nat :=
  match sl !! k with Some (HeapNode _ i) => Some i | _ => None end.

(** [g] is the inverse of the slab indices of the heap. *)
Definition indexed h (g : nat → option nat) : Prop :=
  ∀ k i, g k = Some i ↔ slab_idx <$> h !! i = Some k.

Definition fupd (k i : nat) (g : nat → option nat) : nat → option nat :=
  λ k', if decide (k' = k) then Some i else g k'.

Definition Hole h sl it (c : nat) : Prop :=
  c < length h ∧ is_Some (back sl (slab_idx it)) ∧
  indexed (<[c := it]> h) (fupd (slab_idx it) c (back sl)).

Lemma set_heap_index_spec s i sl :
  is_Some (back sl s) →
  ∃ sl', set_heap_index s i sl = Done sl' ∧ shape sl' = shape sl ∧
    (∀ k, back sl' k = fupd s i (back sl) k).
Proof.
  unfold back, set_heap_index. intros [j Hj].
  destruct (sl !! s) as [[next|v i']|] eqn:Es; [done| |done]. simpl.
  eexists. split; [done|]. split.
  - unfold shape. rewrite list_fmap_insert. simpl.
    apply list_insert_id. by rewrite list_lookup_fmap, Es.
  - intros k. unfold fupd. case_decide as Hk.
    + subst k. by rewrite list_lookup_insert_eq by by eapply lookup_lt_Some.
    + by rewrite list_lookup_insert_ne.
Qed.

Lemma indexed_ext h g g' : (∀ k, g k = g' k) → indexed h g → indexed h g'.
Proof. intros Hg Hi k i. by rewrite <-Hg. Qed.

Lemma swap_perm {A} (l : list A) i j x y :
  i ≠ j → l !! i = Some x → l !! j = Some y → <[j := x]> (<[i := y]> l) ≡ₚ l.
Proof.
  intros Hij Hi Hj.
  apply Permutation_inj. split; [by rewrite !length_insert|].
  exists (λ n, if decide (n = i) then j else if decide (n = j) then i else n).
  split.
  - intros n m. repeat case_decide; congruence.
  - intros n. pose proof (lookup_lt_Some _ _ _ Hi). pose proof (lookup_lt_Some _ _ _ Hj).
    case_decide as Hni; [subst n|case_decide as Hnj; [subst n|]].
    + rewrite list_lookup_insert_ne, list_lookup_insert_eq by (rewrite ?length_insert; done).
      done.
    + by rewrite list_lookup_insert_eq by (by rewrite length_insert).
    + by rewrite !list_lookup_insert_ne by done.
Qed.

(** Moving the item at [j] into the hole at [c]. *)
Lemma hole_move h sl it jt c j :
  Hole h sl it c → h !! j = Some jt → j ≠ c →
  ∃ sl', set_heap_index (slab_idx jt) c sl = Done sl' ∧ shape sl' = shape sl ∧
    Hole (<[c := jt]> h) sl' it j ∧ <[j := it]> (<[c := jt]> h) ≡ₚ <[c := it]> h.
Proof.
  intros (Hc & Hit & Hx) Hj Hjc. pose proof (lookup_lt_Some _ _ _ Hj) as Hjl.
  assert (fupd (slab_idx it) c (back sl) (slab_idx jt) = Some j) as Hbj.
  { apply Hx. by rewrite list_lookup_insert_ne, Hj. }
  assert (slab_idx jt ≠ slab_idx it) as Hne.
  { intros Heq. unfold fupd in Hbj. rewrite decide_True in Hbj by done. congruence. }
  assert (back sl (slab_idx jt) = Some j) as Hbj'.
  { unfold fupd in Hbj. by rewrite decide_False in Hbj. }
  destruct (set_heap_index_spec (slab_idx jt) c sl) as (sl' & Hs & Hsh & Hb); [by eexists|].
  exists sl'. split; [done|]. split; [done|]. split.
  - split; [by rewrite length_insert|]. split.
    + rewrite Hb. unfold fupd. by rewrite decide_False.
    + intros k i. specialize (Hx k i). unfold fupd in *. rewrite Hb. unfold fupd.
      destruct (decide (i = j)) as [->|Hij];
        [|destruct (decide (i = c)) as [->|Hic]].
      * rewrite list_lookup_insert_eq in * by (by rewrite length_insert).
        rewrite list_lookup_insert_ne, Hj in Hx by done. simpl in *.
        repeat case_decide; subst; naive_solver.
      * rewrite (list_lookup_insert_ne _ j c) by done.
        rewrite list_lookup_insert_eq in * by done. simpl in *.
        repeat case_decide; subst; naive_solver.
      * rewrite !list_lookup_insert_ne in * by done.
        repeat case_decide; subst; naive_solver.
  - assert (<[j := it]> (<[c := jt]> h) = <[j := it]> (<[c := jt]> (<[c := it]> h))) as ->.
    { by rewrite list_insert_insert_eq. }
    apply swap_perm; [done|by apply list_lookup_insert_eq|by rewrite list_lookup_insert_ne].
Qed.

(** Filling the hole. *)
Lemma hole_fill h sl it c :
  Hole h sl it c →
  ∃ sl', set_heap_index (slab_idx it) c sl = Done sl' ∧ shape sl' = shape sl ∧
    indexed (<[c := it]> h) (back sl').
Proof.
  intros (Hc & Hit & Hx).
  destruct (set_heap_index_spec (slab_idx it) c sl Hit) as (sl' & Hs & Hsh & Hb).
  exists sl'. split_and!; [done..|]. eapply indexed_ext; [|exact Hx].
  intros k. by rewrite Hb.
Qed.

Lemma vec_set_Done {A} i (x : A) v : i < length v → vec_set i x v = Done (<[i := x]> v).
Proof. intros Hi. unfold vec_set. by rewrite (proj2 (Nat.ltb_lt _ _)). Qed.
End CrossIndex.

(** ** Heap order *)

Definition par (i : nat) : nat := (i - 1) / 2.

Lemma par_lt i : 0 < i → par i < i.
Proof. intros. unfold par. apply Nat.Div0.div_lt_upper_bound. lia. Qed.

Lemma par_child i c : 0 < i → par i = c ↔ i = 2 * c + 1 ∨ i = 2 * c + 2.
Proof.
  intros. unfold par. pose proof (Nat.div_mod_eq (i - 1) 2).
  pose proof (Nat.mod_upper_bound (i - 1) 2). lia.
Qed.

Section HeapOrder.
Context {K V : Type} `{OrdLaws K}.
Abbreviation HeapItem := (HeapItem K).
Implicit Types (h : list HeapItem) (sl : list (Node V)) (it jt a b : HeapItem).

Definition item_le a b : Prop := ukey a ≤ₒ ukey b.

Definition edge h (i j : nat) : Prop :=
  ∀ a b, h !! i = Some a → h !! j = Some b → item_le a b.

Definition heap_ordered h : Prop := ∀ i, 0 < i → edge h (par i) i.

(** The edges around the hole that sifting restores. *)
Definition up_inv h (c : nat) : Prop :=
  (∀ i, 0 < i → i ≠ c → edge h (par i) i) ∧
  (0 < c → ∀ i, 0 < i → par i = c → edge h (par c) i).
Definition down_inv h (c : nat) : Prop :=
  (∀ i, 0 < i → par i ≠ c → edge h (par i) i) ∧
  (0 < c → ∀ i, 0 < i → par i = c → edge h (par c) i).

Lemma item_le_trans a b c : item_le a b → item_le b c → item_le a c.
Proof. unfold item_le. apply ord_le_trans. Qed.

Lemma item_nle a b : ¬ item_le a b → item_le b a.
Proof. unfold item_le. intros Hn%ord_nle_lt. by apply ord_lt_le. Qed.

Lemma edge_trans h i j k : edge h i j → edge h j k → is_Some (h !! j) → edge h i k.
Proof.
  intros Hij Hjk [b Hb] a c Ha Hc. eapply item_le_trans; [by apply Hij|by apply Hjk].
Qed.

(** Lookup in a heap where the item [jt] of index [j] moved into the hole. *)
Lemma moved_lookup h it jt c j i :
  c < length h → h !! j = Some jt → j ≠ c →
  <[j := it]> (<[c := jt]> h) !! i =
  if decide (i = j) then Some it else if decide (i = c) then Some jt
  else <[c := it]> h !! i.
Proof.
  intros Hc Hj Hjc. pose proof (lookup_lt_Some _ _ _ Hj).
  case_decide as Hij; [subst i; rewrite list_lookup_insert_eq by (by rewrite length_insert); done|].
  rewrite list_lookup_insert_ne by done.
  case_decide as Hic; [subst i; by rewrite list_lookup_insert_eq|].
  by rewrite !list_lookup_insert_ne.
Qed.

Lemma up_step h it jt c :
  0 < c → c < length h → h !! par c = Some jt → ¬ item_le jt it →
  up_inv (<[c := it]> h) c → up_inv (<[par c := it]> (<[c := jt]> h)) (par c).
Proof.
  intros Hc0 Hc Hj Hgt [Ha Hb]. pose proof (par_lt c Hc0) as Hpc.
  assert (item_le it jt) as Hle by (by apply item_nle).
  assert (par c ≠ c) as Hne by lia.
  assert (<[c := it]> h !! par c = Some jt) as Hj' by (by rewrite list_lookup_insert_ne).
  assert (<[c := it]> h !! c = Some it) as Hi' by by apply list_lookup_insert_eq.
  split.
  - intros i Hi Hip a b. rewrite !(moved_lookup h it jt c (par c)) by done.
    rewrite (decide_False (P := i = par c)) by done.
    destruct (decide (i = c)) as [->|Hic].
    { rewrite decide_True by done. by intros [= <-] [= <-]. }
    destruct (decide (par i = par c)) as [Hpp|Hpp].
    { intros [= <-] Hb'. eapply item_le_trans; [exact Hle|].
      apply (Ha i Hi Hic); [by rewrite Hpp|done]. }
    destruct (decide (par i = c)) as [Hpi|Hpi].
    { intros [= <-] Hb'. by apply (Hb Hc0 i Hi Hpi). }
    by apply Ha.
  - intros Hp0 i Hi Hpi a b. rewrite !(moved_lookup h it jt c (par c)) by done.
    pose proof (par_lt (par c) Hp0).
    rewrite (decide_False (P := par (par c) = par c)) by lia.
    rewrite (decide_False (P := par (par c) = c)) by lia.
    pose proof (par_lt i Hi). rewrite (decide_False (P := i = par c)) by lia.
    intros Hpa Hb'. assert (item_le a jt) as Haj by (by apply (Ha (par c) Hp0 Hne)).
    destruct (decide (i = c)) as [->|Hic]; [by simplify_eq|].
    eapply item_le_trans; [exact Haj|]. apply (Ha i Hi Hic); [by rewrite Hpi|done].
Qed.

Lemma up_done h it c :
  up_inv (<[c := it]> h) c → c < length h →
  c = 0 ∨ (∃ jt, 0 < c ∧ h !! par c = Some jt ∧ item_le jt it) →
  heap_ordered (<[c := it]> h).
Proof.
  intros [Ha _] Hc Hstop i Hi. destruct (decide (i = c)) as [->|Hic]; [|by apply Ha].
  destruct Hstop as [->|(jt & Hc0 & Hj & Hle)]; [lia|].
  pose proof (par_lt c Hc0). intros a b.
  rewrite list_lookup_insert_ne, list_lookup_insert_eq by lia. by rewrite Hj; intros; simplify_eq.
Qed.

Lemma down_step h it jt c j :
  c < length h → h !! j = Some jt → par j = c → 0 < j →
  ¬ item_le it jt → (∀ i b, 0 < i → par i = c → h !! i = Some b → item_le jt b) →
  down_inv (<[c := it]> h) c → down_inv (<[j := it]> (<[c := jt]> h)) j.
Proof.
  intros Hc Hj Hpj Hj0 Hgt Hmin [Ha Hb]. pose proof (par_lt j Hj0) as Hlt.
  assert (j ≠ c) as Hne by lia.
  assert (item_le jt it) as Hle by (by apply item_nle).
  split.
  - intros i Hi Hpi a b. rewrite !(moved_lookup h it jt c j) by done.
    rewrite (decide_False (P := par i = j)) by done.
    destruct (decide (par i = c)) as [Hpc|Hpc].
    { intros [= <-]. pose proof (par_lt i Hi).
      destruct (decide (i = j)) as [->|Hij]; [by intros [= <-]|].
      rewrite (decide_False (P := i = c)) by lia.
      rewrite list_lookup_insert_ne by lia. by apply Hmin. }
    destruct (decide (i = j)) as [->|Hij]; [done|].
    destruct (decide (i = c)) as [->|Hic].
    { intros Hpa [= <-]. apply (Hb Hi j Hj0 Hpj); [done|].
      by rewrite list_lookup_insert_ne. }
    by apply Ha.
  - intros _ i Hi Hpi a b. rewrite !(moved_lookup h it jt c j) by done.
    rewrite Hpj. rewrite (decide_False (P := c = j)) by lia.
    rewrite (decide_True (P := c = c)) by done. intros [= <-].
    pose proof (par_lt i Hi).
    rewrite (decide_False (P := i = j)), (decide_False (P := i = c)) by lia.
    intros Hb'. apply (Ha i Hi); [lia| |done].
    by rewrite Hpi, list_lookup_insert_ne.
Qed.

Lemma down_done h it c :
  down_inv (<[c := it]> h) c → c < length h →
  (∀ i b, 0 < i → par i = c → h !! i = Some b → item_le it b) →
  heap_ordered (<[c := it]> h).
Proof.
  intros [Ha _] Hc Hstop i Hi. destruct (decide (par i = c)) as [Hp|Hp]; [|by apply Ha].
  pose proof (par_lt i Hi). intros a b. rewrite Hp, list_lookup_insert_eq by done.
  rewrite list_lookup_insert_ne by lia. intros [= <-]. by apply Hstop.
Qed.

(** The root of an ordered heap is a least item. *)
Lemma heap_ordered_root h i : heap_ordered h → i < length h → edge h 0 i.
Proof.
  intros Hord. induction (lt_wf i) as [i _ IH]. intros Hlt.
  destruct (decide (i = 0)) as [->|Hi0].
  { intros a b Ha Hb. simplify_eq. apply ord_le_refl. }
  pose proof (par_lt i ltac:(lia)).
  apply (edge_trans h 0 (par i) i); [by apply IH; lia|apply Hord; lia|].
  apply lookup_lt_is_Some. lia.
Qed.

(** ** The loops *)

(** The state a loop reaches: the hole can be filled. *)
Definition sifted h sl it c (r : nat * list HeapItem * list (Node V)) : Prop :=
  let '(c', h', sl') := r in
  Hole h' sl' it c' ∧ heap_ordered (<[c' := it]> h') ∧ shape sl' = shape sl ∧
  <[c' := it]> h' ≡ₚ <[c := it]> h.

Lemma sifted_moved h sl it jt c j sl' r :
  shape sl' = shape sl → <[j := it]> (<[c := jt]> h) ≡ₚ <[c := it]> h →
  sifted (<[c := jt]> h) sl' it j r → sifted h sl it c r.
Proof.
  destruct r as [[c' h'] sl'']. intros Hsh Hp (? & ? & Hs & Hp').
  split_and!; [done|done|congruence|]. by rewrite Hp'.
Qed.

Lemma sift_up_loop_spec fuel it c h sl :
  Hole h sl it c → up_inv (<[c := it]> h) c → c < fuel →
  ∃ r, sift_up_loop fuel it c h sl = Done r ∧ sifted h sl it c r.
Proof.
  revert c h sl. induction fuel as [|fuel IH]; intros c h sl Hh Hup Hlt; [lia|].
  pose proof Hh as (Hc & _ & _). cbn [sift_up_loop].
  destruct (Nat.eqb_spec c 0) as [->|Hc0].
  { eexists. split; [done|]. split_and!; [done|by apply up_done; [..|by left]|done..]. }
  fold (par c). pose proof (par_lt c ltac:(lia)) as Hpc.
  destruct (lookup_lt_is_Some_2 h (par c)) as [jt Hj]; [lia|]. rewrite Hj. cbn [obind unwrap].
  destruct (ukey jt ≤?ₒ ukey it) eqn:Ele.
  { apply ord_leb_le in Ele. eexists. split; [done|].
    split_and!; [done| |done..]. apply up_done; [done|done|]. right. exists jt.
    split_and!; [lia|done|done]. }
  rewrite vec_set_Done by done. cbn [obind].
  rewrite list_lookup_insert_ne, Hj by lia. cbn [obind unwrap].
  destruct (hole_move h sl it jt c (par c) Hh Hj ltac:(lia)) as (sl' & -> & Hsh & Hh' & Hp).
  cbn [obind]. rewrite Ele. apply ord_leb_gt, ord_nle_lt in Ele.
  destruct (IH (par c) (<[c := jt]> h) sl' Hh') as (r & -> & Hr); [|lia|].
  { by apply up_step; [lia|..]. }
  exists r. split; [done|]. by eapply sifted_moved.
Qed.

(** The child that [sift_down] compares with: a least child of [c]. *)
Lemma least_child h c :
  2 * c + 1 < length h →
  ∃ j jt,
    (match h !! (2 * c + 1 + 1) with
     | Some o => let! child := unwrap (h !! (2 * c + 1)) in
         Done (2 * c + 1 + (if ukey o <?ₒ ukey child then 1 else 0))
     | None => Done (2 * c + 1)
     end) = Done j ∧
    h !! j = Some jt ∧ par j = c ∧ 0 < j ∧
    (∀ i b, 0 < i → par i = c → h !! i = Some b → item_le jt b).
Proof.
  intros Hlt. destruct (lookup_lt_is_Some_2 h _ Hlt) as [x Hx].
  assert (∀ i b, 0 < i → par i = c → h !! i = Some b →
    b = x ∨ h !! (2 * c + 1 + 1) = Some b) as Hch.
  { intros i b Hi Hp Hb. apply par_child in Hp as [->| ->]; [..|done].
    - left. congruence.
    - right. by replace (2 * c + 1 + 1) with (2 * c + 2) by lia. }
  destruct (h !! (2 * c + 1 + 1)) as [o|] eqn:Ho.
  - rewrite Hx. cbn [obind unwrap]. destruct (ukey o <?ₒ ukey x) eqn:E.
    + apply ord_ltb_lt in E. exists (2 * c + 1 + 1), o. split_and!; [done|done| |lia|].
      { apply par_child; lia. }
      intros i b Hi Hp Hb. destruct (Hch i b Hi Hp Hb) as [->|?]; [by apply ord_lt_le|].
      simplify_eq. apply ord_le_refl.
    + apply ord_ltb_ge in E. exists (2 * c + 1), x.
      rewrite Nat.add_0_r. split_and!; [done|done| |lia|].
      { apply par_child; lia. }
      intros i b Hi Hp Hb. destruct (Hch i b Hi Hp Hb) as [->|?]; [apply ord_le_refl|].
      by simplify_eq.
  - exists (2 * c + 1), x. split_and!; [done|done| |lia|].
    { apply par_child; lia. }
    intros i b Hi Hp Hb. destruct (Hch i b Hi Hp Hb) as [->|?]; [apply ord_le_refl|done].
Qed.

Lemma sift_down_loop_spec fuel it c h sl :
  Hole h sl it c → down_inv (<[c := it]> h) c → length h < fuel + c →
  ∃ r, sift_down_loop fuel it c h sl = Done r ∧ sifted h sl it c r.
Proof.
  revert c h sl. induction fuel as [|fuel IH]; intros c h sl Hh Hdown Hlt.
  { destruct Hh as (Hc & _). lia. }
  pose proof Hh as (Hc & _ & _). cbn [sift_down_loop].
  destruct (Nat.ltb_spec (2 * c + 1) (length h)) as [Hch|Hch].
  - destruct (least_child h c Hch) as (j & jt & -> & Hj & Hpj & Hj0 & Hmin).
    pose proof (par_lt j Hj0) as Hcj. cbn [obind]. rewrite Hj. cbn [obind unwrap].
    destruct (ukey it ≤?ₒ ukey jt) eqn:Ele.
    { apply ord_leb_le in Ele. eexists. split; [done|]. split_and!; [done| |done..].
      apply down_done; [done|done|]. intros i b Hi Hp Hb.
      eapply item_le_trans; [exact Ele|by eapply Hmin]. }
    rewrite vec_set_Done by done. cbn [obind].
    rewrite list_lookup_insert_ne, Hj by lia. cbn [obind unwrap].
    destruct (hole_move h sl it jt c j Hh Hj ltac:(lia)) as (sl' & -> & Hsh & Hh' & Hp).
    cbn [obind]. apply ord_leb_gt, ord_nle_lt in Ele.
    destruct (IH j (<[c := jt]> h) sl' Hh') as (r & -> & Hr).
    { by eapply down_step. }
    { rewrite length_insert. lia. }
    exists r. split; [done|]. by eapply sifted_moved.
  - eexists. split; [done|]. split_and!; [done| |done..]. apply down_done; [done|done|].
    intros i b Hi Hp Hb. apply lookup_lt_Some in Hb.
    apply par_child in Hp; lia.
Qed.

(** ** The two sifts *)

Lemma sift_up_spec it c h sl :
  Hole h sl it c → up_inv (<[c := it]> h) c →
  ∃ h' sl', sift_up it c h sl = Done (h', sl') ∧ heap_ordered h' ∧
    indexed h' (back sl') ∧ shape sl' = shape sl ∧ h' ≡ₚ <[c := it]> h.
Proof.
  intros Hh Hup. unfold sift_up.
  destruct (sift_up_loop_spec (S c) it c h sl Hh Hup) as ([[c' h'] sl'] & -> & Hs); [lia|].
  destruct Hs as (Hh' & Hord & Hsh & Hp). cbn [obind].
  destruct (hole_fill _ _ _ _ Hh') as (sl'' & Hset & Hsh' & Hx).
  rewrite vec_set_Done by apply Hh'. cbn [obind]. rewrite Hset. cbn [obind].
  do 2 eexists. split_and!; [done|done|done|congruence|done].
Qed.

Lemma sift_down_spec it c h sl :
  Hole h sl it c → down_inv (<[c := it]> h) c →
  ∃ h' sl', sift_down it c h sl = Done (h', sl') ∧ heap_ordered h' ∧
    indexed h' (back sl') ∧ shape sl' = shape sl ∧ h' ≡ₚ <[c := it]> h.
Proof.
  intros Hh Hdown. unfold sift_down.
  destruct (sift_down_loop_spec (S (length h)) it c h sl Hh Hdown)
    as ([[c' h'] sl'] & -> & Hs); [lia|].
  destruct Hs as (Hh' & Hord & Hsh & Hp). cbn [obind].
  destruct (hole_fill _ _ _ _ Hh') as (sl'' & Hset & Hsh' & Hx).
  rewrite vec_set_Done by apply Hh'. cbn [obind]. rewrite Hset. cbn [obind].
  do 2 eexists. split_and!; [done|done|done|congruence|done].
Qed.
End HeapOrder.
