(* ===== verification/IPQFacts.v ===== *)
(** * Correctness of the indexed priority queue

    The invariant of [IndexedPriorityQueue.v] (heap order, cross-indexing,
    free list, epochs) and the behaviour of its operations on two
    abstractions: the entries with their insertion keys, up to order, and the
    list of pairs sorted by key and insertion time. *)

From stdpp Require Import base option list numbers sorting relations.
From Stdlib Require Import ZArith Lia.
From S2P Require Import Prelude StableQueue PriorityQueue IndexedPriorityQueue IPQSift.

Section Abstraction.
Context {K V : Type} `{Ord K}.
Abbreviation HeapItem := (HeapItem K).
Abbreviation IPQ := (IndexedPriorityQueue K V).
Implicit Types (q : IPQ) (h : list HeapItem) (sh : list (V + option nat)) (it : HeapItem).

Definition epoch_of it : Z := (ukey it).2.

Definition value_of sh (k : nat) : option V :=
  match sh !! k with Some (inl v) => Some v | _ => None end.

(** The insertion key and the pair of a heap item. *)
Definition entry sh it : option (InsertKey * (K * V)) :=
  v ← value_of sh (slab_idx it); Some (mkInsertKey (slab_idx it) (epoch_of it), ((ukey it).1, v)).

Definition entries q : list (InsertKey * (K * V)) :=
  omap (entry (shape (slab q))) (ipq_heap q).

(** The entries as items of the plain priority queue. *)
Definition entry_item (e : InsertKey * (K * V)) : Item K V :=
  mkItem e.2.1 e.2.2 (ik_epoch e.1).
Definition to_pq q : PriorityQueue K V :=
  mkQueue (entry_item <$> entries q) (ipq_next_epoch q).
Definition ipq_abs q : list (K * V) := abs (to_pq q).

(** The linked list of free nodes. *)
Fixpoint free_chain sh (o : option nat) (fl : list nat) : Prop :=
  match fl with
  | [] => o = None
  | k :: fl => o = Some k ∧ ∃ next, sh !! k = Some (inr next) ∧ free_chain sh next fl
  end.

Definition free_ok sh (o : option nat) : Prop :=
  ∃ fl, free_chain sh o fl ∧ NoDup fl ∧ ∀ k next, sh !! k = Some (inr next) → k ∈ fl.

Record ipq_wf q : Prop := {
  w_order : heap_ordered (ipq_heap q);
  w_index : indexed (ipq_heap q) (back (slab q));
  w_free : free_ok (shape (slab q)) (first_free_node q);
  w_epochs : NoDup (epoch_of <$> ipq_heap q);
  w_bound : Forall (λ it, epoch_of it < ipq_next_epoch q)%Z (ipq_heap q);
  w_next : (0 ≤ ipq_next_epoch q ≤ u64_max)%Z;
}.
End Abstraction.

Section Slab.
Context {K V : Type} `{OrdLaws K}.
Abbreviation HeapItem := (HeapItem K).
Implicit Types (h : list HeapItem) (sl : list (Node V)) (it x : HeapItem).
Implicit Types (sh : list (V + option nat)) (g : nat → option nat).

Lemma back_value sl k i : back sl k = Some i → ∃ v, sl !! k = Some (HeapNode v i).
Proof. unfold back. destruct (sl !! k) as [[|]|]; naive_solver. Qed.

Lemma back_shape sl k : is_Some (back sl k) ↔ is_Some (value_of (shape sl) k).
Proof.
  unfold back, value_of, shape. rewrite list_lookup_fmap.
  destruct (sl !! k) as [[|]|]; simpl; split; intros [? ?]; done.
Qed.

Lemma indexed_lookup h g i it : indexed h g → h !! i = Some it → g (slab_idx it) = Some i.
Proof. intros Hx Hi. apply Hx. by rewrite Hi. Qed.

Lemma indexed_nodup h g : indexed h g → NoDup (slab_idx <$> h).
Proof.
  intros Hx. apply NoDup_alt. intros i j k.
  rewrite !list_lookup_fmap. intros Hi%Hx Hj%Hx. congruence.
Qed.

Lemma indexed_entry h sl i it :
  indexed h (back sl) → h !! i = Some it → is_Some (entry (shape sl) it).
Proof.
  intros Hx Hi. pose proof (indexed_lookup _ _ _ _ Hx Hi) as Hb.
  assert (is_Some (value_of (shape sl) (slab_idx it))) as [v Hv] by (by apply back_shape; eexists).
  unfold entry. rewrite Hv. by eexists.
Qed.

(** Entries of items whose slab node a change does not touch. *)
Lemma entries_ext sh sh' s h :
  Forall (λ it, slab_idx it ≠ s) h → (∀ k, k ≠ s → sh' !! k = sh !! k) →
  omap (entry sh') h = omap (entry sh) h.
Proof.
  intros Hh Hsh. induction Hh as [|it h Hit Hh IH]; [done|]. csimpl. rewrite IH.
  unfold entry at 1 3, value_of. by rewrite Hsh.
Qed.

Lemma entry_epochs h sl :
  indexed h (back sl) → (λ e, ik_epoch e.1) <$> omap (entry (shape sl)) h = epoch_of <$> h.
Proof.
  intros Hx. assert (Forall (λ it, is_Some (entry (shape sl) it)) h) as Hall.
  { apply Forall_lookup. intros i it Hi. by eapply indexed_entry. }
  clear Hx. induction Hall as [|it h [e He] Hall IH]; [done|]. csimpl. rewrite He. csimpl.
  rewrite IH. f_equal. unfold entry in He.
  destruct (value_of _ _); simplify_eq/=. done.
Qed.

(** ** The free list *)

Lemma free_chain_ext sh sh' o fl s :
  s ∉ fl → (∀ k, k ≠ s → sh' !! k = sh !! k) → free_chain sh o fl → free_chain sh' o fl.
Proof.
  intros Hs Hsh. revert o. induction fl as [|k fl IH]; intros o; simpl; [done|].
  apply not_elem_of_cons in Hs as [Hk Hs]. intros [-> (next & Hn & Hc)].
  split; [done|]. exists next. split; [by rewrite Hsh|]. by apply IH.
Qed.

Lemma free_ok_push sh o s v :
  free_ok sh o → sh !! s = Some (inl v) → free_ok (<[s := inr o]> sh) (Some s).
Proof.
  intros (fl & Hc & Hnd & Hall) Hs.
  assert (s ∉ fl) as Hin.
  { clear Hnd Hall. revert o Hc. induction fl as [|k fl IH]; intros o Hc; [by apply not_elem_of_nil|].
    destruct Hc as [-> (next & Hn & Hc)]. apply not_elem_of_cons.
    split; [congruence|by eapply IH]. }
  assert (s < length sh) as Hl by by eapply lookup_lt_Some.
  exists (s :: fl). split_and!.
  - simpl. split; [done|]. exists o. split; [by rewrite list_lookup_insert_eq|].
    eapply free_chain_ext; [done| |done]. intros k Hk. by rewrite list_lookup_insert_ne.
  - by constructor.
  - intros k next. destruct (decide (k = s)) as [->|Hk]; [intros _; by left|].
    rewrite list_lookup_insert_ne by done. intros Hn. right. by eapply Hall.
Qed.

Lemma free_ok_pop sh s :
  free_ok sh (Some s) → ∃ next, sh !! s = Some (inr next) ∧
    ∀ v, free_ok (<[s := inl v]> sh) next.
Proof.
  intros ([|k fl] & Hc & Hnd & Hall); [done|].
  destruct Hc as [[= <-] (next & Hn & Hc)]. apply NoDup_cons in Hnd as [Hs Hnd].
  exists next. split; [done|]. intros v.
  assert (s < length sh) as Hl by by eapply lookup_lt_Some.
  exists fl. split_and!; [|done|].
  - eapply free_chain_ext; [done| |done]. intros k Hk. by rewrite list_lookup_insert_ne.
  - intros k next'. destruct (decide (k = s)) as [->|Hk].
    { by rewrite list_lookup_insert_eq. }
    rewrite list_lookup_insert_ne by done. intros Hk'%Hall.
    by apply elem_of_cons in Hk' as [|].
Qed.

Lemma free_ok_extend sh v : free_ok sh None → free_ok (sh ++ [inl v]) None.
Proof.
  intros ([|k fl] & Hc & Hnd & Hall); [|by destruct Hc].
  exists []. split_and!; [done|constructor|]. intros k next Hk.
  apply lookup_app_Some in Hk as [Hk|[Hl Hk]]; [by eapply Hall|].
  destruct (k - length sh) as [|n]; simpl in Hk; simplify_eq.
Qed.

(** ** Holes made by insertion and removal *)

Lemma insert_hole h sl sl1 s uk tmp :
  indexed h (back sl) → back sl s = None → (∀ k, back sl1 k = fupd s 0 (back sl) k) →
  Hole (h ++ [tmp]) sl1 (mkHeapItem uk s) (length h).
Proof.
  intros Hx Hs Hb. split; [rewrite length_app; simpl; lia|]. split; [|cbn [slab_idx]].
  { simpl. rewrite Hb. unfold fupd. by rewrite decide_True. }
  intros k i. unfold fupd. rewrite Hb. unfold fupd.
  rewrite insert_app_r_alt, Nat.sub_diag by lia. simpl.
  destruct (decide (i < length h)) as [Hlt|Hge].
  - rewrite lookup_app_l by done. specialize (Hx k i). case_decide as Hk; [|done]. subst k.
    split; [intros [= <-]; lia|]. intros Hi%Hx. congruence.
  - rewrite lookup_app_r by lia. specialize (Hx k i).
    rewrite (proj2 (lookup_ge_None h i)) in Hx by lia.
    destruct (i - length h) as [|n] eqn:Ei; simpl.
    + assert (i = length h) as -> by lia. case_decide as Hk; [by subst|].
      rewrite Hx. split; [done|congruence].
    + case_decide; [|by rewrite Hx]. split; [intros [= <-]; lia|done].
Qed.

Lemma insert_up_inv h it :
  heap_ordered h → up_inv (h ++ [it]) (length h).
Proof.
  intros Hord. split.
  - intros i Hi Hne a b Ha Hb. pose proof (lookup_lt_Some _ _ _ Hb) as Hl.
    rewrite length_app in Hl. simpl in Hl. pose proof (par_lt i Hi).
    rewrite lookup_app_l in Ha, Hb by lia. by apply (Hord i Hi).
  - intros _ i Hi Hp a b _ Hb. apply lookup_lt_Some in Hb.
    rewrite length_app in Hb. simpl in Hb. pose proof (par_lt i Hi). lia.
Qed.

Definition gdel (s : nat) g : nat → option nat := λ k, if decide (k = s) then None else g k.

Lemma remove_hole h lt x i g :
  indexed (h ++ [lt]) g → h !! i = Some x →
  indexed (<[i := lt]> h) (fupd (slab_idx lt) i (gdel (slab_idx x) g)).
Proof.
  intros Hx Hi. pose proof (lookup_lt_Some _ _ _ Hi) as Hl.
  assert (g (slab_idx x) = Some i) as Hgx.
  { apply Hx. by rewrite lookup_app_l, Hi. }
  assert (g (slab_idx lt) = Some (length h)) as Hgl.
  { apply Hx. by rewrite lookup_app_r, Nat.sub_diag. }
  intros k j. unfold fupd, gdel. specialize (Hx k j).
  destruct (decide (j = i)) as [->|Hj].
  - rewrite list_lookup_insert_eq by done. simpl.
    rewrite lookup_app_l, Hi in Hx by done. simpl in Hx.
    repeat case_decide; subst; naive_solver.
  - rewrite list_lookup_insert_ne by done.
    destruct (decide (j < length h)) as [Hjl|Hjl].
    + rewrite lookup_app_l in Hx by done. rewrite <-Hx.
      repeat case_decide; subst; naive_solver lia.
    + rewrite (proj2 (lookup_ge_None h j)) by lia.
      rewrite lookup_app_r in Hx by lia.
      repeat case_decide; subst; simpl; split; intros; simplify_eq.
      destruct (j - length h) as [|[|]] eqn:Ej; simpl in Hx; naive_solver.
Qed.

Lemma remove_last h x g : indexed (h ++ [x]) g → indexed h (gdel (slab_idx x) g).
Proof.
  intros Hx k j. unfold gdel.
  assert (g (slab_idx x) = Some (length h)) as Hgx.
  { apply Hx. by rewrite lookup_app_r, Nat.sub_diag. }
  specialize (Hx k j). destruct (decide (j < length h)) as [Hl|Hl].
  - rewrite lookup_app_l in Hx by done. rewrite <-Hx. case_decide; subst; naive_solver lia.
  - rewrite (proj2 (lookup_ge_None h j)) by lia. rewrite lookup_app_r in Hx by lia.
    case_decide; simpl; [done|]. split; [|done]. intros Hg.
    destruct (j - length h) as [|[|]] eqn:Ej; simpl in Hx; naive_solver.
Qed.

Lemma remove_perm {A} (l : list A) z y i :
  l !! i = Some y → l ++ [z] ≡ₚ y :: <[i := z]> l.
Proof.
  intros Hi. rewrite <-(take_drop_middle l i y Hi) at 1.
  rewrite (insert_take_drop l i z) by by eapply lookup_lt_Some.
  rewrite <-app_assoc. simpl. rewrite (Permutation_middle (take i l) (z :: _) y).
  apply Permutation_app_head, perm_skip. symmetry. apply Permutation_cons_append.
Qed.

Lemma heap_ordered_init h lt : heap_ordered (h ++ [lt]) → heap_ordered h.
Proof.
  intros Hord i Hi a b Ha Hb. apply (Hord i Hi); by apply lookup_app_l_Some.
Qed.

(** Lookups next to a replaced item. *)
Lemma remove_up_inv h lt x i :
  heap_ordered h → h !! i = Some x → item_le lt x → up_inv (<[i := lt]> h) i.
Proof.
  intros Hord Hi Hle. pose proof (lookup_lt_Some _ _ _ Hi) as Hl. split.
  - intros j Hj Hne a b. rewrite (list_lookup_insert_ne _ i j) by done.
    destruct (decide (par j = i)) as [Hp|Hp].
    + rewrite Hp, list_lookup_insert_eq by done. intros [= <-] Hb.
      eapply item_le_trans; [exact Hle|]. apply (Hord j Hj); [by rewrite Hp|done].
    + rewrite list_lookup_insert_ne by done. by apply Hord.
  - intros Hi0 j Hj Hp a b. pose proof (par_lt i Hi0). pose proof (par_lt j Hj).
    rewrite !list_lookup_insert_ne by lia. intros Ha Hb.
    apply (item_le_trans a x b); [by apply (Hord i Hi0)|].
    apply (Hord j Hj); [by rewrite Hp|done].
Qed.

Lemma remove_down_inv h lt x i :
  heap_ordered h → h !! i = Some x → item_le x lt → down_inv (<[i := lt]> h) i.
Proof.
  intros Hord Hi Hle. pose proof (lookup_lt_Some _ _ _ Hi) as Hl. split.
  - intros j Hj Hne a b. rewrite (list_lookup_insert_ne _ i (par j)) by done.
    destruct (decide (j = i)) as [->|Hp].
    + rewrite list_lookup_insert_eq by done. intros Ha [= <-].
      eapply item_le_trans; [|exact Hle]. apply (Hord i Hj); done.
    + rewrite list_lookup_insert_ne by done. by apply Hord.
  - intros Hi0 j Hj Hp a b. pose proof (par_lt i Hi0). pose proof (par_lt j Hj).
    rewrite !list_lookup_insert_ne by lia. intros Ha Hb.
    apply (item_le_trans a x b); [by apply (Hord i Hi0)|].
    apply (Hord j Hj); [by rewrite Hp|done].
Qed.
End Slab.

Section Operations.
Context {K V : Type} `{OrdLaws K}.
Abbreviation HeapItem := (HeapItem K).
Abbreviation IPQ := (IndexedPriorityQueue K V).
Implicit Types (q : IPQ) (h : list HeapItem) (sl : list (Node V)) (it x lt : HeapItem).

(** ** Insertion *)

(** The slab node taken by an insertion. *)
Definition alloc (value : V) q : outcome (nat * list (Node V) * option nat) :=
  match first_free_node q with
  | Some idx =>
      let! node := unwrap (slab q !! idx) in
      let! next := unwrap_next_free_node node in
      Done (idx, <[idx := HeapNode value 0]> (slab q), next)
  | None => Done (length (slab q), slab q ++ [HeapNode value 0], None)
  end.

Lemma alloc_spec v q :
  ipq_wf q →
  ∃ s sl ff, alloc v q = Done (s, sl, ff) ∧ back (slab q) s = None ∧
    (∀ k, back sl k = fupd s 0 (back (slab q)) k) ∧
    (∀ k, k ≠ s → shape sl !! k = shape (slab q) !! k) ∧
    value_of (shape sl) s = Some v ∧ free_ok (shape sl) ff.
Proof.
  intros Hwf. pose proof (w_free _ Hwf) as Hf. unfold alloc.
  destruct (first_free_node q) as [s|].
  - destruct (free_ok_pop _ _ Hf) as (next & Hn & Hpop).
    assert (slab q !! s = Some (FreeNode next)) as Hs.
    { unfold shape in Hn. rewrite list_lookup_fmap in Hn.
      destruct (slab q !! s) as [[|]|]; simplify_eq/=. done. }
    pose proof (lookup_lt_Some _ _ _ Hs) as Hl. rewrite Hs. simpl.
    do 3 eexists. split; [done|].
    assert (shape (<[s := HeapNode v 0]> (slab q)) = <[s := inl v]> (shape (slab q))) as Hsh
      by (unfold shape; by rewrite list_fmap_insert).
    split_and!.
    + unfold back. by rewrite Hs.
    + intros k. unfold back, fupd. case_decide as Hk; [subst k|].
      * by rewrite list_lookup_insert_eq.
      * by rewrite list_lookup_insert_ne.
    + intros k Hk. rewrite Hsh. by rewrite list_lookup_insert_ne.
    + rewrite Hsh. unfold value_of. rewrite list_lookup_insert_eq; [done|].
      unfold shape. by rewrite length_fmap.
    + rewrite Hsh. apply Hpop.
  - do 3 eexists. split; [done|].
    assert (shape (slab q ++ [HeapNode v 0]) = shape (slab q) ++ [inl v]) as Hsh
      by (unfold shape; by rewrite fmap_app).
    assert (length (shape (slab q)) = length (slab q)) as Hlen
      by (unfold shape; by rewrite length_fmap).
    split_and!.
    + unfold back. by rewrite (proj2 (lookup_ge_None _ _)).
    + intros k. unfold back, fupd. case_decide as Hk; [subst k|].
      * by rewrite lookup_app_r, Nat.sub_diag.
      * destruct (decide (k < length (slab q))) as [Hlt|Hge].
        { by rewrite lookup_app_l. }
        rewrite !(proj2 (lookup_ge_None _ _)); [done|..];
          rewrite ?length_app, ?Hlen; simpl; lia.
    + intros k Hk. rewrite Hsh. destruct (decide (k < length (slab q))) as [Hlt|Hge].
      { by rewrite lookup_app_l by lia. }
      rewrite !(proj2 (lookup_ge_None _ _)); [done|..];
          rewrite ?length_app, ?Hlen; simpl; lia.
    + rewrite Hsh. unfold value_of. by rewrite lookup_app_r, Hlen, Nat.sub_diag by lia.
    + rewrite Hsh. by apply free_ok_extend.
Qed.

Lemma slab_idx_fresh h sl s :
  indexed h (back sl) → back sl s = None → Forall (λ it, slab_idx it ≠ s) h.
Proof.
  intros Hx Hs. apply Forall_lookup. intros i it Hi Heq.
  pose proof (indexed_lookup _ _ _ _ Hx Hi) as Hb. congruence.
Qed.

Lemma ipq_insert_raw q k v :
  ipq_wf q → ipq_next_epoch q ≠ u64_max →
  ∃ s q', ipq_insert k v q = Done (mkInsertKey s (ipq_next_epoch q), q') ∧ ipq_wf q' ∧
    entries q' ≡ₚ (mkInsertKey s (ipq_next_epoch q), (k, v)) :: entries q ∧
    ipq_next_epoch q' = (ipq_next_epoch q + 1)%Z.
Proof.
  intros Hwf Hne. unfold ipq_insert. rewrite (proj2 (Z.eqb_neq _ _) Hne). simpl negb.
  cbn [rust_assert obind]. fold (alloc v q).
  destruct (alloc_spec v q Hwf) as (s & sl & ff & -> & Hs & Hb & Hsh & Hv & Hf).
  destruct Hwf as [Hord Hx _ Hep Hbd Hn]. cbn [obind].
  set (e := ipq_next_epoch q) in *. set (h := ipq_heap q) in *.
  set (it := mkHeapItem (k, e) s).
  assert (<[length h := it]> (h ++ [mkHeapItem (k, e) 0]) = h ++ [it]) as Hins.
  { by rewrite insert_app_r_alt, Nat.sub_diag by lia. }
  destruct (sift_up_spec it (length h) (h ++ [mkHeapItem (k, e) 0]) sl)
    as (h' & sl' & -> & Hord' & Hx' & Hsh' & Hp).
  { by eapply insert_hole. }
  { rewrite Hins. by apply insert_up_inv. }
  rewrite Hins in Hp. cbn [obind]. do 2 eexists. split; [done|]. split_and!; [| |done].
  - split; simpl; [done|done|by rewrite Hsh'|..|lia].
    + rewrite Hp, fmap_app. apply NoDup_app. split; [done|].
      split; [|apply NoDup_singleton].
      intros x (jt & -> & Hj)%list_elem_of_fmap Heq%list_elem_of_singleton.
      eapply (proj1 (Forall_forall _ _) Hbd) in Hj. simpl in Hj.
      rewrite Heq in Hj. unfold epoch_of in Hj. simpl in Hj. lia.
    + rewrite Hp. apply Forall_app. split; [|repeat constructor; unfold epoch_of; simpl; lia].
      eapply Forall_impl; [exact Hbd|]. simpl. lia.
  - unfold entries. simpl. rewrite Hsh', Hp, omap_app.
    rewrite (entries_ext (shape (slab q)) (shape sl) s h); [|by eapply slab_idx_fresh|done].
    csimpl. unfold entry at 2. simpl. rewrite Hv. simpl. symmetry.
    apply Permutation_cons_append.
Qed.

(** ** Removal *)

(** The node of a removed item becomes the head of the free list. *)
Lemma freed_slab sl s v i o :
  sl !! s = Some (HeapNode v i) →
  (∀ k, back (<[s := FreeNode o]> sl) k = gdel s (back sl) k) ∧
  shape (<[s := FreeNode o]> sl) = <[s := inr o]> (shape sl) ∧
  shape sl !! s = Some (inl v).
Proof.
  intros Hs. pose proof (lookup_lt_Some _ _ _ Hs) as Hl. split_and!.
  - intros k. unfold back, gdel. case_decide as Hk; [subst k|].
    + by rewrite list_lookup_insert_eq.
    + by rewrite list_lookup_insert_ne.
  - unfold shape. by rewrite list_fmap_insert.
  - unfold shape. by rewrite list_lookup_fmap, Hs.
Qed.

(** What is left after removing [x] from the heap, with an ordered and
    cross-indexed heap [h'] of the other items. *)
Lemma removed_wf q x v i h' sl' :
  ipq_wf q → ipq_heap q !! i = Some x → slab q !! slab_idx x = Some (HeapNode v i) →
  heap_ordered h' → indexed h' (back sl') →
  shape sl' = shape (<[slab_idx x := FreeNode (first_free_node q)]> (slab q)) →
  ipq_heap q ≡ₚ x :: h' →
  let q' := mkIPQ h' sl' (Some (slab_idx x)) (ipq_next_epoch q) in
  ipq_wf q' ∧
  entries q ≡ₚ (mkInsertKey (slab_idx x) (epoch_of x), ((ukey x).1, v)) :: entries q'.
Proof.
  intros [Hord Hx Hf Hep Hbd Hn] Hi Hs Hord' Hx' Hsh' Hp q'.
  destruct (freed_slab _ _ _ _ (first_free_node q) Hs) as (_ & Hsh & Hv).
  pose proof (indexed_nodup _ _ Hx) as Hnd. rewrite Hp in Hep, Hbd, Hnd.
  apply NoDup_cons in Hep as [_ Hep], Hnd as [Hxs Hnd].
  apply Forall_cons in Hbd as [_ Hbd]. split.
  - split; simpl; [done|done| |done|done|done].
    rewrite Hsh', Hsh. by eapply free_ok_push.
  - unfold entries. rewrite Hp. csimpl. unfold entry at 1, value_of. rewrite Hv. simpl.
    apply perm_skip. rewrite Hsh', Hsh. rewrite <-(entries_ext _ (<[slab_idx x := inr (first_free_node q)]> (shape (slab q))) (slab_idx x) h'); [done| |].
    + apply Forall_forall. intros it Hit Heq. apply Hxs. rewrite <-Heq.
      by apply list_elem_of_fmap_2.
    + intros k Hk. by rewrite list_lookup_insert_ne.
Qed.

Lemma vec_pop_app {A} (l : list A) z : vec_pop (l ++ [z]) = Some (z, l).
Proof. unfold vec_pop. by rewrite last_snoc, removelast_last. Qed.

Lemma heap_node q i x :
  ipq_wf q → ipq_heap q !! i = Some x → ∃ v, slab q !! slab_idx x = Some (HeapNode v i).
Proof. intros Hwf Hi. apply back_value. by eapply indexed_lookup; [apply Hwf|]. Qed.

Lemma removal_hole q h lt x v i :
  ipq_wf q → ipq_heap q = h ++ [lt] → h !! i = Some x →
  slab q !! slab_idx x = Some (HeapNode v i) →
  Hole h (<[slab_idx x := FreeNode (first_free_node q)]> (slab q)) lt i.
Proof.
  intros Hwf Hh Hi Hs. pose proof (w_index _ Hwf) as Hx. rewrite Hh in Hx.
  destruct (freed_slab _ _ _ _ (first_free_node q) Hs) as (Hb & _ & _).
  pose proof (lookup_lt_Some _ _ _ Hi) as Hl.
  assert (back (slab q) (slab_idx lt) = Some (length h)) as Hbl.
  { apply Hx. by rewrite lookup_app_r, Nat.sub_diag. }
  assert (back (slab q) (slab_idx x) = Some i) as Hbx.
  { apply Hx. by rewrite lookup_app_l, Hi. }
  split; [done|]. split.
  - rewrite Hb. unfold gdel. rewrite decide_False; [by eexists|].
    intros Heq. rewrite Heq in Hbl. simplify_eq. lia.
  - eapply indexed_ext; [|by apply (remove_hole h lt x i (back (slab q)))].
    intros k. unfold fupd. by rewrite Hb.
Qed.

(** Removing the last item of the heap. *)
Lemma removal_last q h x v i :
  ipq_wf q → ipq_heap q = h ++ [x] → slab q !! slab_idx x = Some (HeapNode v i) →
  heap_ordered h ∧
  indexed h (back (<[slab_idx x := FreeNode (first_free_node q)]> (slab q))).
Proof.
  intros Hwf Hh Hs. pose proof (w_index _ Hwf) as Hx. pose proof (w_order _ Hwf) as Ho.
  rewrite Hh in Hx, Ho. split; [by eapply heap_ordered_init|].
  destruct (freed_slab _ _ _ _ (first_free_node q) Hs) as (Hb & _ & _).
  eapply indexed_ext; [|by apply remove_last]. intros k. by rewrite Hb.
Qed.

(** Both removals: the item at [i] leaves, the last item takes its place. *)
Lemma ipq_pull_raw q :
  ipq_wf q →
  match ipq_heap q !! 0 with
  | None => ipq_pull q = Done (None, q) ∧ entries q = []
  | Some x => ∃ v q', ipq_pull q = Done (Some ((ukey x).1, v), q') ∧ ipq_wf q' ∧
      entries q ≡ₚ (mkInsertKey (slab_idx x) (epoch_of x), ((ukey x).1, v)) :: entries q' ∧
      ipq_next_epoch q' = ipq_next_epoch q
  end.
Proof.
  intros Hwf. unfold ipq_pull. destruct (ipq_heap q !! 0) as [x|] eqn:Hi.
  2: { split; [done|]. unfold entries. by destruct (ipq_heap q). }
  destruct (heap_node _ _ _ Hwf Hi) as [v Hs]. rewrite Hs. cbn [obind unwrap unwrap_value].
  destruct (exists_last (l := ipq_heap q)) as (h & lt & Hh); [by intros Hnil; rewrite Hnil in Hi|].
  rewrite Hh, vec_pop_app. cbn [obind unwrap].
  assert (h = [] ∧ lt = x ∨ h !! 0 = Some x) as Hcase.
  { rewrite Hh in Hi. destruct h; simpl in *; [left|right]; naive_solver. }
  destruct Hcase as [[-> ->]|Hh0].
  - rewrite Nat.eqb_refl. simpl negb. cbn [obind].
    destruct (removal_last q [] x v 0 Hwf Hh Hs) as [Hord Hx].
    exists v. eexists. split; [done|].
    assert (ipq_heap q ≡ₚ [x]) as Hp by by rewrite Hh.
    by destruct (removed_wf q x v 0 [] _ Hwf Hi Hs Hord Hx eq_refl Hp) as [? ?].
  - pose proof (removal_hole q h lt x v 0 Hwf Hh Hh0 Hs) as Hhole.
    assert (slab_idx lt ≠ slab_idx x) as Hne.
    { pose proof (indexed_nodup _ _ (w_index _ Hwf)) as Hnd.
      rewrite Hh, (remove_perm h lt x 0 Hh0) in Hnd. csimpl in Hnd.
      apply NoDup_cons in Hnd as [Hnin _]. intros Heq. apply Hnin. rewrite <-Heq.
      apply list_elem_of_fmap_2, list_elem_of_lookup_2 with 0, list_lookup_insert_eq.
      by eapply lookup_lt_Some. }
    rewrite (proj2 (Nat.eqb_neq _ _) Hne). simpl negb. cbv iota.
    pose proof (w_order _ Hwf) as Ho. rewrite Hh in Ho.
    assert (item_le x lt) as Hle.
    { apply (heap_ordered_root (h ++ [lt]) (length h) Ho); [rewrite length_app; simpl; lia|..].
      - by apply lookup_app_l_Some.
      - by rewrite lookup_app_r, Nat.sub_diag. }
    destruct (sift_down_spec lt 0 h _ Hhole) as (h' & sl' & -> & Hord' & Hx' & Hsh' & Hp).
    { apply (remove_down_inv h lt x 0); [by eapply heap_ordered_init|done..]. }
    cbn [obind]. exists v. eexists. split; [done|].
    destruct (removed_wf q x v 0 h' sl' Hwf Hi Hs Hord' Hx' Hsh') as [? ?]; [|done].
    rewrite Hh, Hp. by apply remove_perm.
Qed.

Lemma extract_raw q ik :
  ipq_wf q →
  (∃ kv q', (ik, kv) ∈ entries q ∧ extract ik q = Done (Some kv, q') ∧ ipq_wf q' ∧
     entries q ≡ₚ (ik, kv) :: entries q' ∧ ipq_next_epoch q' = ipq_next_epoch q) ∨
  ((∀ kv, (ik, kv) ∉ entries q) ∧ extract ik q = Done (None, q)).
Proof.
  intros Hwf. pose proof (w_index _ Hwf) as Hx.
  assert (∀ kv, (ik, kv) ∈ entries q → ∃ i x v, ipq_heap q !! i = Some x ∧
    slab q !! ik_slab_idx ik = Some (HeapNode v i) ∧ epoch_of x = ik_epoch ik) as Hin.
  { intros kv Hkv. unfold entries in Hkv. apply list_elem_of_omap in Hkv as (x & Hkx & He).
    apply list_elem_of_lookup in Hkx as [i Hi].
    destruct (heap_node _ _ _ Hwf Hi) as [v Hs]. unfold entry in He.
    destruct (value_of _ _); simplify_eq/=. eauto 10. }
  unfold extract. destruct (slab q !! ik_slab_idx ik) as [[next|v i]|] eqn:Hs.
  1, 3: right; split; [|done]; intros kv (? & ? & ? & ? & ? & ?)%Hin; done.
  assert (back (slab q) (ik_slab_idx ik) = Some i) as Hb by (unfold back; by rewrite Hs).
  apply Hx in Hb. destruct (ipq_heap q !! i) as [x|] eqn:Hi; [|done]. simpl in Hb.
  injection Hb as Hxs. cbn [obind unwrap].
  change (ukey x).2 with (epoch_of x).
  destruct (Z.eqb_spec (epoch_of x) (ik_epoch ik)) as [Heq|Hne]; simpl negb; cbv iota.
  2: { right. split; [|done]. intros kv (i' & x' & v' & Hi' & Hs' & He')%Hin.
       simplify_eq. }
  assert (mkInsertKey (slab_idx x) (epoch_of x) = ik) as Hik.
  { rewrite Heq, Hxs. by destruct ik. }
  rewrite <-Hxs in Hs |- *. cbn [obind unwrap unwrap_heap_node]. rewrite Hi. cbn [obind unwrap].
  destruct (exists_last (l := ipq_heap q)) as (h & lt & Hh); [by intros Hnil; rewrite Hnil in Hi|].
  rewrite Hh, vec_pop_app. cbn [obind unwrap]. left.
  assert (∀ h' sl', heap_ordered h' → indexed h' (back sl') →
    shape sl' = shape (<[slab_idx x := FreeNode (first_free_node q)]> (slab q)) →
    ipq_heap q ≡ₚ x :: h' →
    ∃ kv q', (ik, kv) ∈ entries q ∧
      Done (Some ((ukey x).1, v), mkIPQ h' sl' (Some (slab_idx x)) (ipq_next_epoch q)) =
        Done (Some kv, q') ∧ ipq_wf q' ∧ entries q ≡ₚ (ik, kv) :: entries q' ∧
      ipq_next_epoch q' = ipq_next_epoch q) as Hfin.
  { intros h' sl' Ho' Hx' Hsh' Hp.
    destruct (removed_wf q x v i h' sl' Hwf Hi Hs Ho' Hx' Hsh' Hp) as [Hwf' He'].
    rewrite Hik in He'. do 2 eexists. split_and!; [|done|done|done|done].
    rewrite He'. by left. }
  pose proof (w_order _ Hwf) as Ho. rewrite Hh in Ho. apply heap_ordered_init in Ho.
  destruct (h !! i) as [y|] eqn:Hhi.
  - assert (y = x) as ->.
    { rewrite Hh in Hi. by rewrite (lookup_app_l_Some _ _ _ _ Hhi) in Hi; simplify_eq. }
    pose proof (removal_hole q h lt x v i Hwf Hh Hhi Hs) as Hhole.
    destruct (ukey lt <?ₒ ukey x) eqn:Elt.
    + apply ord_ltb_lt, ord_lt_le in Elt.
      destruct (sift_up_spec lt i h _ Hhole) as (h' & sl' & -> & Ho' & Hx' & Hsh' & Hp).
      { by apply (remove_up_inv h lt x i). }
      cbn [obind]. apply Hfin; [done..|]. rewrite Hh, Hp. by apply remove_perm.
    + apply ord_ltb_ge in Elt.
      destruct (sift_down_spec lt i h _ Hhole) as (h' & sl' & -> & Ho' & Hx' & Hsh' & Hp).
      { by apply (remove_down_inv h lt x i). }
      cbn [obind]. apply Hfin; [done..|]. rewrite Hh, Hp. by apply remove_perm.
  - assert (lt = x) as ->.
    { rewrite Hh in Hi. apply lookup_app_Some in Hi as [Hi|[Hge Hi]]; [congruence|].
      destruct (i - length h) as [|[|]]; simpl in Hi; congruence. }
    cbn [obind]. destruct (removal_last q h x v i Hwf Hh Hs) as [Ho' Hx'].
    apply Hfin; [done..|]. rewrite Hh. symmetry. apply Permutation_cons_append.
Qed.
End Operations.

(** ** The sorted list of pairs *)

Section Sorted.
Context {K V : Type} `{OrdLaws K}.
Abbreviation IPQ := (IndexedPriorityQueue K V).
Implicit Types (q : IPQ).

Lemma to_pq_wf q : ipq_wf q → wf (to_pq q).
Proof.
  intros [Hord Hx Hf Hep Hbd Hn]. split; simpl; [| |done].
  - rewrite <-list_fmap_compose.
    assert (item_epoch ∘ entry_item <$> entries q = epoch_of <$> ipq_heap q) as ->; [|done].
    by apply entry_epochs.
  - rewrite Forall_fmap.
    assert (Forall (λ z, z < ipq_next_epoch q)%Z
      ((λ e, ik_epoch e.1) <$> entries q)) as Hz.
    { unfold entries. rewrite entry_epochs by done. by apply Forall_fmap. }
    rewrite Forall_fmap in Hz. exact Hz.
Qed.

Lemma pq_abs_perm (p p' : PriorityQueue K V) :
  wf p → heap p ≡ₚ heap p' → abs p = abs p'.
Proof.
  intros Hp Hperm. rewrite (abs_unique p (sorted_items p')); [done|done| |].
  - by rewrite sorted_items_perm.
  - apply sorted_items_sorted.
Qed.

Lemma ipq_insert_abs q k v s q' :
  ipq_wf q → ipq_wf q' → ipq_next_epoch q ≠ u64_max →
  entries q' ≡ₚ (mkInsertKey s (ipq_next_epoch q), (k, v)) :: entries q →
  ipq_next_epoch q' = (ipq_next_epoch q + 1)%Z →
  ipq_abs q' = stable_insert k v (ipq_abs q).
Proof.
  intros Hwf Hwf' Hne He Hn. unfold ipq_abs.
  assert (PriorityQueue.insert k v (to_pq q) =
    Done (mkQueue (heap (to_pq q) ++ [mkItem k v (ipq_next_epoch q)])
            (ipq_next_epoch q + 1))) as Hins.
  { unfold PriorityQueue.insert. simpl. by rewrite (proj2 (Z.eqb_neq _ _) Hne). }
  rewrite <-(insert_refines _ _ _ _ (to_pq_wf q Hwf) Hins).
  apply pq_abs_perm; [by apply to_pq_wf|]. simpl. rewrite He. csimpl.
  apply Permutation_cons_append.
Qed.

Lemma entries_root q x e :
  ipq_wf q → ipq_heap q !! 0 = Some x → e ∈ entries q →
  ukey x ≤ₒ rank (entry_item e).
Proof.
  intros Hwf Hx He. unfold entries in He. apply list_elem_of_omap in He as (y & Hy & He).
  apply list_elem_of_lookup in Hy as [i Hi].
  assert (rank (entry_item e) = ukey y) as ->.
  { unfold entry in He. destruct (value_of _ _); simplify_eq/=.
    unfold rank, epoch_of. simpl. by destruct (ukey y). }
  apply (heap_ordered_root (ipq_heap q) i); [apply Hwf|by eapply lookup_lt_Some|done|done].
Qed.

Lemma ipq_pull_abs q x v q' :
  ipq_wf q → ipq_heap q !! 0 = Some x → ipq_wf q' →
  entries q ≡ₚ (mkInsertKey (slab_idx x) (epoch_of x), ((ukey x).1, v)) :: entries q' →
  ipq_abs q = ((ukey x).1, v) :: ipq_abs q'.
Proof.
  intros Hwf Hx Hwf' He. unfold ipq_abs.
  set (e := (mkInsertKey (slab_idx x) (epoch_of x), ((ukey x).1, v))) in *.
  rewrite (abs_unique (to_pq q) (entry_item e :: sorted_items (to_pq q')));
    [done|by apply to_pq_wf| |].
  - rewrite sorted_items_perm. simpl. by rewrite He.
  - constructor; [apply sorted_items_sorted|]. rewrite sorted_items_perm. simpl.
    apply Forall_fmap, Forall_forall. intros e' He'. simpl. unfold rank_le.
    assert (rank (entry_item e) = ukey x) as ->.
    { unfold rank, e, entry_item, epoch_of. simpl. by destruct (ukey x). }
    apply (entries_root q); [done|done|]. rewrite He. by right.
Qed.

Lemma sorted_remove {A} (R : A → A → Prop) l1 a l2 :
  StronglySorted R (l1 ++ a :: l2) → StronglySorted R (l1 ++ l2).
Proof.
  induction l1 as [|b l1 IH]; simpl; inversion 1 as [|? ? Hs Hf]; subst; [done|].
  constructor; [by apply IH|]. rewrite Forall_app, Forall_cons in Hf.
  apply Forall_app. naive_solver.
Qed.

Lemma extract_abs q ik kv q' :
  ipq_wf q → ipq_wf q' → entries q ≡ₚ (ik, kv) :: entries q' →
  ∃ l1 l2, ipq_abs q = l1 ++ kv :: l2 ∧ ipq_abs q' = l1 ++ l2.
Proof.
  intros Hwf Hwf' He.
  assert (entry_item (ik, kv) ∈ sorted_items (to_pq q)) as Hin.
  { rewrite sorted_items_perm. simpl. rewrite He. by left. }
  apply list_elem_of_split in Hin as (l1 & l2 & Hl).
  exists (item_pair <$> l1), (item_pair <$> l2). split.
  - unfold ipq_abs, abs. rewrite Hl, fmap_app, fmap_cons. by destruct kv.
  - unfold ipq_abs. rewrite <-fmap_app. apply abs_unique; [by apply to_pq_wf| |].
    + simpl. apply (Permutation_cons_inv (a := entry_item (ik, kv))).
      rewrite Permutation_middle, <-Hl, sorted_items_perm. simpl. by rewrite He.
    + apply (sorted_remove _ l1 (entry_item (ik, kv)) l2). rewrite <-Hl.
      apply sorted_items_sorted.
Qed.

Lemma ipq_new_wf : ipq_wf (@ipq_new K V).
Proof.
  split; simpl.
  - by intros i _ a b.
  - intros k i. unfold back. simpl. by destruct k, i.
  - exists []. split_and!; [done|constructor|]. intros k next. by destruct k.
  - constructor.
  - constructor.
  - unfold u64_max. lia.
Qed.

Lemma ipq_peek_spec q : ipq_wf q → ipq_peek q = Done (head (ipq_abs q)).
Proof.
  intros Hwf. pose proof (ipq_pull_raw q Hwf) as Hpull. unfold ipq_peek.
  destruct (ipq_heap q !! 0) as [x|] eqn:Hx.
  - destruct Hpull as (v & q' & _ & Hwf' & He & _).
    rewrite (ipq_pull_abs q x v q' Hwf Hx Hwf' He). simpl.
    destruct (heap_node q 0 x Hwf Hx) as [v' Hs]. rewrite Hs. simpl.
    assert ((mkInsertKey (slab_idx x) (epoch_of x), ((ukey x).1, v)) ∈ entries q) as Hin.
    { rewrite He. by left. }
    unfold entries in Hin. apply list_elem_of_omap in Hin as (y & _ & Hy).
    unfold entry, value_of, shape in Hy. rewrite list_lookup_fmap in Hy.
    destruct (slab q !! slab_idx y) as [[|]|] eqn:Ey; simplify_eq/=. congruence.
  - destruct Hpull as [_ He]. unfold ipq_abs, abs, sorted_items, to_pq. simpl. by rewrite He.
Qed.

(** A history of insertions, pulls and peeks. *)
Fixpoint ipq_run (ops : list (qop K V)) q : outcome (list (option (K * V))) :=
  match ops with
  | [] => Done []
  | QInsert k v :: ops => let! (_, q) := ipq_insert k v q in ipq_run ops q
  | QPull :: ops =>
      let! (kv, q) := ipq_pull q in let! r := ipq_run ops q in Done (kv :: r)
  | QPeek :: ops =>
      let! kv := ipq_peek q in let! r := ipq_run ops q in Done (kv :: r)
  end.

Lemma ipq_run_refines ops q :
  ipq_wf q → ipq_run ops q = run_list ops (ipq_abs q) (ipq_next_epoch q).
Proof.
  revert q. induction ops as [|[k v| |] ops IH]; intros q Hwf; simpl; [done|..].
  - case_decide as Hmax.
    { unfold ipq_insert. rewrite Hmax. done. }
    destruct (ipq_insert_raw q k v Hwf Hmax) as (s & q' & -> & Hwf' & He & Hn).
    simpl. rewrite IH by done. rewrite (ipq_insert_abs q k v s q') by done. by rewrite Hn.
  - pose proof (ipq_pull_raw q Hwf) as Hpull. destruct (ipq_heap q !! 0) as [x|] eqn:Hx.
    + destruct Hpull as (v & q' & -> & Hwf' & He & Hn). simpl.
      rewrite IH by done. rewrite (ipq_pull_abs q x v q') by done. by rewrite Hn.
    + destruct Hpull as [-> He]. simpl. rewrite IH by done.
      assert (ipq_abs q = []) as ->; [|done].
      unfold ipq_abs, abs, sorted_items, to_pq. simpl. by rewrite He.
  - rewrite ipq_peek_spec by done. simpl. by rewrite IH.
Qed.

(** ** Histories with extraction *)

Inductive ipq_step q : IPQ → Prop :=
| istep_insert k v ik q' : ipq_insert k v q = Done (ik, q') → ipq_step q q'
| istep_pull r q' : ipq_pull q = Done (r, q') → ipq_step q q'
| istep_extract ik r q' : extract ik q = Done (r, q') → ipq_step q q'.

(** A step keeps the invariant, only adds insertion keys with a new epoch,
    and never lowers the epoch. *)
Lemma ipq_step_inv q q' :
  ipq_step q q' → ipq_wf q →
  ipq_wf q' ∧ (ipq_next_epoch q ≤ ipq_next_epoch q')%Z ∧
  (∀ ik kv, (ik, kv) ∈ entries q' → (ik_epoch ik < ipq_next_epoch q)%Z →
     (ik, kv) ∈ entries q).
Proof.
  intros Hstep Hwf. destruct Hstep as [k v ik q' Hi|r q' Hp|ik r q' Hx].
  - destruct (decide (ipq_next_epoch q = u64_max)) as [Hmax|Hmax].
    { unfold ipq_insert in Hi. rewrite Hmax in Hi. done. }
    destruct (ipq_insert_raw q k v Hwf Hmax) as (s & q1 & Heq & Hwf' & He & Hn).
    rewrite Heq in Hi. simplify_eq. split_and!; [done|lia|].
    intros ik' kv Hin Hlt. rewrite He in Hin. apply elem_of_cons in Hin as [Hin|]; [|done].
    simplify_eq. simpl in Hlt. lia.
  - pose proof (ipq_pull_raw q Hwf) as Hpull. destruct (ipq_heap q !! 0) as [x|].
    + destruct Hpull as (v & q1 & Heq & Hwf' & He & Hn). rewrite Heq in Hp. simplify_eq.
      split_and!; [done|lia|]. intros ik kv Hin _. rewrite He. by right.
    + destruct Hpull as [Heq _]. rewrite Heq in Hp. by simplify_eq.
  - destruct (extract_raw q ik Hwf) as [(kv & q1 & _ & Heq & Hwf' & He & Hn)|[_ Heq]];
      rewrite Heq in Hx; simplify_eq; [|done].
    split_and!; [done|lia|]. intros ik' kv' Hin _. rewrite He. by right.
Qed.

Lemma ipq_steps_inv q q' :
  rtc ipq_step q q' → ipq_wf q →
  ipq_wf q' ∧ (ipq_next_epoch q ≤ ipq_next_epoch q')%Z ∧
  (∀ ik kv, (ik, kv) ∈ entries q' → (ik_epoch ik < ipq_next_epoch q)%Z →
     (ik, kv) ∈ entries q).
Proof.
  induction 1 as [q|q q1 q2 Hs Hss IH]; intros Hwf; [done|].
  destruct (ipq_step_inv _ _ Hs Hwf) as (Hwf1 & Hle1 & Hin1).
  destruct (IH Hwf1) as (Hwf2 & Hle2 & Hin2). split_and!; [done|lia|].
  intros ik kv Hin Hlt. apply Hin1; [|done]. apply Hin2; [done|lia].
Qed.

(** ** Properties *)

(** C6: with its slab, cross-indices and free list, the indexed queue answers
    every sequence of insertions, pulls and peeks as the sorted list with
    stable insertion, and never panics before the epoch is exhausted: heap
    and slab indices are always in bounds and of the right kind, and both
    sift loops end. *)
Theorem indexed_queue_refines (ops : list (qop K V)) :
  ipq_run ops (@ipq_new K V) = run_list ops [] 0.
Proof. exact (ipq_run_refines ops ipq_new ipq_new_wf). Qed.

(** In every state reachable from the empty queue, [extract] with an
    insertion key finds exactly the pair inserted under that key if it is
    still queued, removes it and nothing else, keeping the order of all other
    pairs; a key that is not in the queue returns [None] and changes
    nothing. *)
Lemma extract_refines q ik :
  rtc ipq_step ipq_new q →
  (∃ kv q' l1 l2, extract ik q = Done (Some kv, q') ∧
     entries q ≡ₚ (ik, kv) :: entries q' ∧
     ipq_abs q = l1 ++ kv :: l2 ∧ ipq_abs q' = l1 ++ l2) ∨
  ((∀ kv, (ik, kv) ∉ entries q) ∧ extract ik q = Done (None, q)).
Proof.
  intros Hr. destruct (ipq_steps_inv _ _ Hr ipq_new_wf) as (Hwf & _ & _).
  destruct (extract_raw q ik Hwf) as [(kv & q' & _ & Heq & Hwf' & He & _)|Hn]; [left|by right].
  destruct (extract_abs q ik kv q' Hwf Hwf' He) as (l1 & l2 & ? & ?). eauto 10.
Qed.

(** An insertion key is never reused.  Once the pair inserted under a key
    has been pulled or extracted, the key is rejected for ever, even after
    its slab node has been given to another pair. *)
Lemma stale_key_rejected q k v ik q1 q2 q3 :
  rtc ipq_step ipq_new q → ipq_insert k v q = Done (ik, q1) →
  rtc ipq_step q1 q2 → (∀ kv, (ik, kv) ∉ entries q2) → rtc ipq_step q2 q3 →
  extract ik q3 = Done (None, q3).
Proof.
  intros Hr Hins H12 Hout H23.
  destruct (ipq_steps_inv _ _ Hr ipq_new_wf) as (Hwf & _ & _).
  assert (ipq_next_epoch q ≠ u64_max) as Hmax.
  { intros Hmax. unfold ipq_insert in Hins. rewrite Hmax in Hins. done. }
  destruct (ipq_insert_raw q k v Hwf Hmax) as (s & q1' & Heq & Hwf1 & _ & Hn).
  rewrite Heq in Hins. injection Hins as <- <-.
  destruct (ipq_steps_inv _ _ H12 Hwf1) as (Hwf2 & Hle & _).
  destruct (ipq_steps_inv _ _ H23 Hwf2) as (Hwf3 & _ & Hin).
  destruct (extract_raw q3 (mkInsertKey s (ipq_next_epoch q)) Hwf3)
    as [(kv & q' & Hk & _)|[_ ?]]; [|done].
  exfalso. apply (Hout kv), Hin; [done|]. simpl. lia.
Qed.
End Sorted.

(** ** Evaluations *)

Lemma indexed_queue_refines_witness :
  ipq_run [QInsert 5%Z 1; QInsert 3%Z 2; QPull; QInsert 5%Z 3; QInsert 3%Z 4;
           QPeek; QPull; QPull; QPull; QPull] ipq_new =
  Done [Some (3%Z, 2); Some (3%Z, 4); Some (3%Z, 4); Some (5%Z, 1); Some (5%Z, 3); None].
Proof. rewrite indexed_queue_refines. reflexivity. Defined.

(** The queue obtained by inserting pairs in order. *)
Definition ipq_of (kvs : list (Z * nat)) : IndexedPriorityQueue Z nat :=
  foldl (λ q kv, match ipq_insert kv.1 kv.2 q with Done (_, q') => q' | _ => q end) ipq_new kvs.

Lemma ipq_of_reachable kvs : rtc ipq_step ipq_new (ipq_of kvs).
Proof.
  unfold ipq_of. generalize (rtc_refl ipq_step (@ipq_new Z nat)).
  generalize (@ipq_new Z nat) at 2 4. induction kvs as [|kv kvs IH]; intros q Hq; [done|].
  simpl. apply IH. destruct (ipq_insert kv.1 kv.2 q) as [[ik q']| |] eqn:Hi; [|done..].
  eapply rtc_r; [exact Hq|]. by eapply istep_insert.
Qed.

Definition demo_ipq : IndexedPriorityQueue Z nat :=
  ipq_of [(7%Z, 1); (5%Z, 2); (9%Z, 3); (5%Z, 4)].

Lemma demo_ipq_reachable : rtc ipq_step ipq_new demo_ipq.
Proof. apply ipq_of_reachable. Qed.

Lemma extract_refines_witness :
  ∃ q', extract (mkInsertKey 1 1) demo_ipq = Done (Some (5%Z, 2), q') ∧
    ipq_abs q' = [(5%Z, 4); (7%Z, 1); (9%Z, 3)].
Proof.
  destruct (extract_refines demo_ipq (mkInsertKey 1 1) demo_ipq_reachable)
    as [(kv & q' & l1 & l2 & Hx & _ & _ & _)|[_ Hx]].
  - exists q'. vm_compute in Hx. injection Hx as <- <-. vm_compute. split; reflexivity.
  - vm_compute in Hx. discriminate.
Defined.

(** The first key inserted is pulled, its node is reused, and it is stale. *)
Lemma stale_key_rejected_witness :
  ∃ q1 q2 q3 : IndexedPriorityQueue Z nat,
    ipq_insert 7%Z 1 ipq_new = Done (mkInsertKey 0 0, q1) ∧
    ipq_pull q1 = Done (Some (7%Z, 1), q2) ∧
    ipq_insert 8%Z 2 q2 = Done (mkInsertKey 0 1, q3) ∧
    extract (mkInsertKey 0 0) q3 = Done (None, q3).
Proof.
  do 3 eexists.
  split; [vm_compute; reflexivity|].
  split; [vm_compute; reflexivity|].
  split; [vm_compute; reflexivity|].
  eapply (stale_key_rejected ipq_new 7%Z 1 (mkInsertKey 0 0)).
  - apply rtc_refl.
  - vm_compute. reflexivity.
  - apply rtc_once. eapply istep_pull. vm_compute. reflexivity.
  - intros kv Hin. vm_compute in Hin. by apply not_elem_of_nil in Hin.
  - apply rtc_once. eapply istep_insert. vm_compute. reflexivity.
Defined.
