(* ===== verification/KeyRegistry.v ===== *)
(** * The registry of action keys (server/key_registry.rs)

    The gRPC server hands out identifiers for the action keys of scheduled
    events.  The registry is an indexed priority queue ordered by the time
    until which a key must remain extractable. *)

From stdpp Require Import base option list numbers sorting relations.
From Stdlib Require Import ZArith Lia.
From S2P Require Import Prelude StableQueue PriorityQueue Time Scheduler IndexedPriorityQueue IPQSift IPQFacts.

Abbreviation KeyRegistryId := InsertKey.

Section KeyRegistry.
Context {T : Type} `{MonotonicTime T}.

Definition KeyRegistry : Type := IndexedPriorityQueue T ActionKey.

Definition KeyRegistry_new : KeyRegistry := ipq_new.

Definition insert_key (action_key : ActionKey) (expiration : T) (self : KeyRegistry) :
    outcome (KeyRegistryId * KeyRegistry) :=
  ipq_insert expiration action_key self.

Definition insert_eternal_key (action_key : ActionKey) (self : KeyRegistry) :
    outcome (KeyRegistryId * KeyRegistry) :=
  ipq_insert MT_MAX action_key self.

Definition extract_key (key_id : KeyRegistryId) (self : KeyRegistry) :
    outcome (option ActionKey * KeyRegistry) :=
  let! (r, self) := extract key_id self in Done (snd <$> r, self).

(** The loop of [remove_expired_keys]; each iteration pulls one key. *)
Fixpoint remove_expired_loop (fuel : nat) (now : T) (self : KeyRegistry) :
    outcome KeyRegistry :=
  match fuel with
  | O => NoFuel
  | S fuel =>
      match peek_key self with
      | Some expiration =>
          if now ≤?ₒ expiration then Done self
          else let! (_, self) := ipq_pull self in remove_expired_loop fuel now self
      | None => Done self
      end
  end.

Definition remove_expired_keys (now : T) (self : KeyRegistry) : outcome KeyRegistry :=
  remove_expired_loop (S (len self)) now self.
End KeyRegistry.

Section Facts.
Context {T : Type} `{MonotonicTimeLaws T}.
Abbreviation KeyRegistry := (KeyRegistry (T := T)).
Implicit Types (self : KeyRegistry) (now : T).

Definition unexpired now (e : InsertKey * (T * ActionKey)) : Prop := now ≤ₒ e.2.1.
#[export] Instance unexpired_dec now e : Decision (unexpired now e).
Proof. unfold unexpired. apply _. Defined.

Lemma entries_length self : ipq_wf self → length (entries self) = len self.
Proof.
  intros Hwf. unfold len. rewrite <-(length_fmap epoch_of (ipq_heap self)).
  rewrite <-(entry_epochs (ipq_heap self) (slab self)) by apply Hwf.
  unfold entries. by rewrite length_fmap.
Qed.

Lemma remove_expired_loop_spec fuel now self :
  ipq_wf self → len self < fuel →
  ∃ self', remove_expired_loop fuel now self = Done self' ∧ ipq_wf self' ∧
    entries self' ≡ₚ filter (unexpired now) (entries self) ∧
    ipq_next_epoch self' = ipq_next_epoch self.
Proof.
  revert self. induction fuel as [|fuel IH]; intros self Hwf Hlt; [lia|].
  cbn [remove_expired_loop]. unfold peek_key.
  pose proof (ipq_pull_raw self Hwf) as Hpull.
  destruct (ipq_heap self !! 0) as [x|] eqn:Hx; simpl.
  2: { exists self. destruct Hpull as [_ ->]. done. }
  destruct (now ≤?ₒ (ukey x).1) eqn:Ele; ord_simpl.
  - exists self. split_and!; [done|done| |done].
    rewrite filter_all_true; [done|]. apply Forall_forall. intros e He.
    pose proof (entries_root self x e Hwf Hx He) as Hroot.
    apply prod_le_fst in Hroot. unfold unexpired. by eapply ord_le_trans.
  - destruct Hpull as (v & q' & -> & Hwf' & He & Hn). cbn [obind].
    destruct (IH q' Hwf') as (q2 & -> & Hwf2 & He2 & Hn2).
    { pose proof (entries_length self Hwf) as Hl. rewrite He in Hl. simpl in Hl.
      rewrite <-(entries_length q') by done. lia. }
    exists q2. split_and!; [done|done| |congruence].
    rewrite He2, He, filter_cons, decide_False; [done|].
    unfold unexpired. simpl. by apply ord_nle_lt.
Qed.

(** C7: removing expired keys ends, and keeps exactly the keys whose expiration
    is not before the given time: with [insert_key], a key stays extractable
    up to and including its expiration, and an eternal key for ever. *)
Theorem remove_expired_keys_exact now self :
  rtc ipq_step ipq_new self →
  ∃ self', remove_expired_keys now self = Done self' ∧
    entries self' ≡ₚ filter (unexpired now) (entries self) ∧
    (∀ ik key, (ik, (MT_MAX, key)) ∈ entries self → (ik, (MT_MAX, key)) ∈ entries self').
Proof.
  intros Hr. destruct (ipq_steps_inv _ _ Hr ipq_new_wf) as (Hwf & _ & _).
  destruct (remove_expired_loop_spec (S (len self)) now self Hwf)
    as (self' & Hs & _ & He & _); [lia|].
  exists self'. split_and!; [done|done|]. intros ik key Hin.
  rewrite He. apply list_elem_of_filter. split; [apply mt_le_MAX|done].
Qed.

(** The entries are a function of the identifier. *)
Lemma entries_functional self ik kv kv' :
  ipq_wf self → (ik, kv) ∈ entries self → (ik, kv') ∈ entries self → kv = kv'.
Proof.
  intros Hwf [i Hi]%list_elem_of_lookup [j Hj]%list_elem_of_lookup.
  pose proof (wf_nodup _ (to_pq_wf _ Hwf)) as Hnd. simpl in Hnd.
  rewrite <-list_fmap_compose in Hnd.
  assert (i = j) as ->; [|by simplify_eq].
  eapply NoDup_lookup; [exact Hnd|..]; rewrite list_lookup_fmap.
  - by rewrite Hi.
  - by rewrite Hj.
Qed.

(** A stored key survives the removal of expired keys up to its expiration
    and is then extracted once. *)
Lemma stored_key_extractable now self ik expiration key :
  ipq_wf self → (ik, (expiration, key)) ∈ entries self → now ≤ₒ expiration →
  ∃ self2 self3, remove_expired_keys now self = Done self2 ∧ ipq_wf self2 ∧
    extract_key ik self2 = Done (Some key, self3) ∧ ipq_wf self3 ∧
    ∀ kv, (ik, kv) ∉ entries self3.
Proof.
  intros Hwf Hin Hle.
  destruct (remove_expired_loop_spec (S (len self)) now self Hwf)
    as (q2 & Heq2 & Hwf2 & He2 & _); [lia|].
  assert ((ik, (expiration, key)) ∈ entries q2) as Hin2.
  { rewrite He2. apply list_elem_of_filter. done. }
  destruct (extract_raw q2 ik Hwf2) as [(kv & q3 & Hkv & Hx & Hwf3 & He3 & _)|[Hn _]];
    [|by destruct (Hn (expiration, key))].
  assert (kv = (expiration, key)) as ->
    by exact (entries_functional q2 ik _ _ Hwf2 Hkv Hin2).
  exists q2, q3. unfold extract_key. rewrite Hx. split_and!; [done..|].
  intros kv' Hkv'. pose proof (wf_nodup _ (to_pq_wf _ Hwf2)) as Hnd. simpl in Hnd.
  rewrite He3 in Hnd. csimpl in Hnd. apply NoDup_cons in Hnd as [Hnin _].
  apply Hnin. rewrite <-list_fmap_compose.
  apply (list_elem_of_fmap_2 (item_epoch ∘ entry_item) _ _ Hkv').
Qed.

Lemma extract_absent_key self ik :
  ipq_wf self → (∀ kv, (ik, kv) ∉ entries self) → extract_key ik self = Done (None, self).
Proof.
  intros Hwf Hn. unfold extract_key.
  destruct (extract_raw self ik Hwf) as [(kv & _ & Hkv & _)|[_ ->]]; [|done].
  by destruct (Hn kv).
Qed.

(** What an insertion that returns does. *)
Lemma insert_key_entries key expiration self id self1 :
  ipq_wf self → insert_key key expiration self = Done (id, self1) →
  ipq_wf self1 ∧ entries self1 ≡ₚ (id, (expiration, key)) :: entries self.
Proof.
  intros Hwf Hins. unfold insert_key in Hins.
  assert (ipq_next_epoch self ≠ u64_max) as Hmax.
  { intros Hmax. unfold ipq_insert in Hins. rewrite Hmax in Hins. done. }
  destruct (ipq_insert_raw self expiration key Hwf Hmax) as (s & q1 & Heq & Hwf1 & He1 & _).
  rewrite Heq in Hins. by injection Hins as <- <-.
Qed.

(** Insert then extract.  A key inserted with an expiration is returned by
    [extract_key] under its identifier after any removal of keys that expired
    strictly before that expiration, and exactly once. *)
Lemma key_round_trip key expiration now self id self1 self2 :
  rtc ipq_step ipq_new self → now ≤ₒ expiration →
  insert_key key expiration self = Done (id, self1) →
  remove_expired_keys now self1 = Done self2 →
  ∃ self3, extract_key id self2 = Done (Some key, self3) ∧
    extract_key id self3 = Done (None, self3).
Proof.
  intros Hr Hle Hins Hrem. destruct (ipq_steps_inv _ _ Hr ipq_new_wf) as (Hwf & _ & _).
  destruct (insert_key_entries _ _ _ _ _ Hwf Hins) as [Hwf1 He1].
  destruct (stored_key_extractable now self1 id expiration key Hwf1)
    as (q2 & q3 & Hrem' & _ & Hx & Hwf3 & Hn); [rewrite He1; by left|done|].
  rewrite Hrem in Hrem'. injection Hrem' as <-.
  exists q3. split; [done|]. by apply extract_absent_key.
Qed.
End Facts.

(** ** Evaluations *)

(** Keys 1, 2 and 3 that expire at 10, 20 and never. *)
Definition demo_registry : outcome (KeyRegistry (T := TaiTime)) :=
  let! (_, r) := insert_key 1 (ns 10) KeyRegistry_new in
  let! (_, r) := insert_key 2 (ns 20) r in
  let! (_, r) := insert_eternal_key 3 r in
  Done r.

Lemma demo_registry_reachable r :
  demo_registry = Done r → rtc ipq_step ipq_new r.
Proof.
  unfold demo_registry, insert_key, insert_eternal_key, KeyRegistry_new.
  destruct (ipq_insert _ _ ipq_new) as [[i1 r1]| |] eqn:E1; simpl; [|done..].
  destruct (ipq_insert _ _ r1) as [[i2 r2]| |] eqn:E2; simpl; [|done..].
  destruct (ipq_insert _ _ r2) as [[i3 r3]| |] eqn:E3; simpl; [|done..].
  intros [= <-]. eapply rtc_l; [by eapply istep_insert|].
  eapply rtc_l; [by eapply istep_insert|]. apply rtc_once. by eapply istep_insert.
Qed.

Lemma remove_expired_keys_exact_witness :
  ∃ r r', demo_registry = Done r ∧ remove_expired_keys (ns 15) r = Done r' ∧
    (snd ∘ snd <$> entries r') = [2; 3].
Proof.
  destruct demo_registry as [r| |] eqn:Er; [|vm_compute in Er; discriminate..].
  destruct (remove_expired_keys_exact (ns 15) r (demo_registry_reachable r Er))
    as (r' & Hr' & _ & _).
  exists r, r'. split; [reflexivity|]. split; [exact Hr'|].
  vm_compute in Er. injection Er as <-. vm_compute in Hr'. injection Hr' as <-.
  vm_compute. reflexivity.
Defined.

Lemma key_round_trip_witness :
  ∃ r id r1 r2 r3, demo_registry = Done r ∧ insert_key 4 (ns 15) r = Done (id, r1) ∧
    remove_expired_keys (ns 15) r1 = Done r2 ∧ extract_key id r2 = Done (Some 4, r3) ∧
    extract_key id r3 = Done (None, r3).
Proof.
  destruct demo_registry as [r| |] eqn:Er; [|vm_compute in Er; discriminate..].
  destruct (insert_key 4 (ns 15) r) as [[id r1]| |] eqn:E1;
    [|vm_compute in Er; injection Er as <-; vm_compute in E1; discriminate..].
  destruct (remove_expired_keys (ns 15) r1) as [r2| |] eqn:E2;
    [|vm_compute in Er; injection Er as <-; vm_compute in E1; injection E1 as <- <-;
      vm_compute in E2; discriminate..].
  destruct (key_round_trip 4 (ns 15) (ns 15) r id r1 r2 (demo_registry_reachable r Er))
    as (r3 & H1 & H2).
  - vm_compute. discriminate.
  - exact E1.
  - exact E2.
  - exists r, id, r1, r2, r3.
    split; [reflexivity|]. split; [exact E1|]. split; [exact E2|]. split; [exact H1|exact H2].
Defined.
