(* ===== verification/Sinks.v ===== *)
(** * Event sinks (ports/sink.rs, ports/sink/event_buffer.rs,
    ports/sink/event_slot.rs, ports/sink/blocking_event_queue.rs)

    A sink and its writer handles share one state, given here as a record;
    each operation takes the mutex for its whole duration.  A call that may
    wait for an event returns [Blocks] in the states where it would wait. *)

From stdpp Require Import base option list numbers.
From Stdlib Require Import ZArith Lia.
From S2P Require Import Prelude.

Inductive blocking (A : Type) := Returns (a : A) | Blocks.
Arguments Returns {A}.
Arguments Blocks {A}.

(** [EventSinkStream]: an iterator that can be opened and closed, and whose
    events can be folded until an error. *)
Class EventSinkStream (S A : Type) := {
  sink_open : S → S;
  sink_close : S → S;
  sink_next : S → blocking (option A * S);
  sink_try_fold : ∀ {B E : Type}, B → (B → A → result B E) → S → blocking (result B E * S);
}.

#[export] Hint Mode EventSinkStream ! - : typeclass_instances.

(** [Iterator::try_fold], the default of [__try_fold]; [fuel] bounds the
    events that are read. *)
Fixpoint default_try_fold {S A B E : Type} (next : S → blocking (option A * S))
    (fuel : nat) (init : B) (f : B → A → result B E) (self : S) :
    blocking (result B E * S) :=
  match fuel with
  | O => Returns (Ok init, self)
  | Datatypes.S fuel =>
      match next self with
      | Blocks => Blocks
      | Returns (None, self) => Returns (Ok init, self)
      | Returns (Some a, self) =>
          match f init a with
          | Ok b => default_try_fold next fuel b f self
          | Err e => Returns (Err e, self)
          end
      end
  end.

(** ** EventBuffer *)

Record EventBuffer (T : Type) := mkBuffer {
  capacity : nat;
  buf_is_open : bool;
  buffer : list T;
}.
Arguments mkBuffer {T}.
Arguments capacity {T}.
Arguments buf_is_open {T}.
Arguments buffer {T}.

Section EventBuffer.
Context {T : Type}.
Abbreviation EventBuffer := (EventBuffer T).

Definition DEFAULT_CAPACITY : nat := 16.
Definition buffer_with_capacity (capacity : nat) : EventBuffer := mkBuffer capacity true [].
Definition buffer_with_capacity_closed (capacity : nat) : EventBuffer :=
  mkBuffer capacity false [].
Definition buffer_new : EventBuffer := buffer_with_capacity DEFAULT_CAPACITY.
Definition buffer_new_closed : EventBuffer := buffer_with_capacity_closed DEFAULT_CAPACITY.

Definition buffer_next (self : EventBuffer) : option T * EventBuffer :=
  match buffer self with
  | [] => (None, self)
  | a :: l => (Some a, mkBuffer (capacity self) (buf_is_open self) l)
  end.

Definition buffer_open (self : EventBuffer) : EventBuffer :=
  mkBuffer (capacity self) true (buffer self).
Definition buffer_close (self : EventBuffer) : EventBuffer :=
  mkBuffer (capacity self) false (buffer self).

(** [try_fold] of the draining iterator over the events. *)
Fixpoint drain_try_fold {B E : Type} (init : B) (f : B → T → result B E) (l : list T) :
    result B E :=
  match l with
  | [] => Ok init
  | a :: l => match f init a with Ok b => drain_try_fold b f l | Err e => Err e end
  end.

(** [__try_fold]: [drain(..)] takes all the events out of the buffer, and the
    ones it has not yielded are dropped with it. *)
Definition buffer_try_fold {B E : Type} (init : B) (f : B → T → result B E)
    (self : EventBuffer) : result B E * EventBuffer :=
  (drain_try_fold init f (buffer self), mkBuffer (capacity self) (buf_is_open self) []).

Definition buffer_write (event : T) (self : EventBuffer) : EventBuffer :=
  if negb (buf_is_open self) then self
  else
    let b := if length (buffer self) =? capacity self then tail (buffer self)
             else buffer self in
    mkBuffer (capacity self) (buf_is_open self) (b ++ [event]).

#[export] Instance EventBuffer_stream : EventSinkStream EventBuffer T := {|
  sink_open := buffer_open;
  sink_close := buffer_close;
  sink_next := λ s, Returns (buffer_next s);
  sink_try_fold := λ B E init f s, Returns (buffer_try_fold init f s);
|}.
End EventBuffer.

(** ** EventSlot *)

Record EventSlot (T : Type) := mkSlot { slot_is_open : bool; slot : option T }.
Arguments mkSlot {T}.
Arguments slot_is_open {T}.
Arguments slot {T}.

Section EventSlot.
Context {T : Type}.
Abbreviation EventSlot := (EventSlot T).

Definition slot_new_open : EventSlot := mkSlot true None.
Definition slot_new_closed : EventSlot := mkSlot false None.

(** [try_lock] fails when another thread holds the mutex. *)
Definition slot_next_locked (locked : bool) (self : EventSlot) : option T * EventSlot :=
  if locked then (None, self) else (slot self, mkSlot (slot_is_open self) None).
Definition slot_next (self : EventSlot) : option T * EventSlot := slot_next_locked false self.

Definition slot_open (self : EventSlot) : EventSlot := mkSlot true (slot self).
Definition slot_close (self : EventSlot) : EventSlot := mkSlot false (slot self).

Definition slot_write (locked : bool) (event : T) (self : EventSlot) : EventSlot :=
  if negb (slot_is_open self) then self
  else if locked then self
  else mkSlot (slot_is_open self) (Some event).

#[export] Instance EventSlot_stream : EventSinkStream EventSlot T := {|
  sink_open := slot_open;
  sink_close := slot_close;
  sink_next := λ s, Returns (slot_next s);
  sink_try_fold := λ B E init f s, default_try_fold (λ s, Returns (slot_next s)) 2 init f s;
|}.
End EventSlot.

(** ** BlockingEventQueue

    The channel is the standard library's unbounded one: receiving from an
    empty channel waits as long as a sender is alive.  [senders] counts the
    live sender handles. *)

Record BlockingEventQueue (T : Type) := mkBlocking {
  beq_is_open : bool;
  channel : list T;
  senders : nat;
  receiver_alive : bool;
}.
Arguments mkBlocking {T}.
Arguments beq_is_open {T}.
Arguments channel {T}.
Arguments senders {T}.
Arguments receiver_alive {T}.

Section BlockingEventQueue.
Context {T : Type}.
Abbreviation BlockingEventQueue := (BlockingEventQueue T).

Definition new_with_state (is_open : bool) : BlockingEventQueue :=
  mkBlocking is_open [] 1 true.
Definition beq_new : BlockingEventQueue := new_with_state true.
Definition beq_new_closed : BlockingEventQueue := new_with_state false.

(** [writer] clones the sender; [into_reader] drops the queue's own sender. *)
Definition beq_writer (self : BlockingEventQueue) : BlockingEventQueue :=
  mkBlocking (beq_is_open self) (channel self) (S (senders self)) (receiver_alive self).
Definition into_reader (self : BlockingEventQueue) : BlockingEventQueue :=
  mkBlocking (beq_is_open self) (channel self) (pred (senders self)) (receiver_alive self).

Definition reader_next (self : BlockingEventQueue) : blocking (option T * BlockingEventQueue) :=
  match channel self with
  | a :: l => Returns (Some a, mkBlocking (beq_is_open self) l (senders self) (receiver_alive self))
  | [] => match senders self with O => Returns (None, self) | S _ => Blocks end
  end.

Definition reader_open (self : BlockingEventQueue) : BlockingEventQueue :=
  mkBlocking true (channel self) (senders self) (receiver_alive self).
Definition reader_close (self : BlockingEventQueue) : BlockingEventQueue :=
  mkBlocking false (channel self) (senders self) (receiver_alive self).

(** Sending to a channel whose receiver is gone fails, and is ignored. *)
Definition beq_write (event : T) (self : BlockingEventQueue) : BlockingEventQueue :=
  if negb (beq_is_open self) then self
  else if receiver_alive self then
    mkBlocking (beq_is_open self) (channel self ++ [event]) (senders self) (receiver_alive self)
  else self.

#[export] Instance BlockingEventQueue_stream : EventSinkStream BlockingEventQueue T := {|
  sink_open := reader_open;
  sink_close := reader_close;
  sink_next := reader_next;
  sink_try_fold := λ B E init f s, default_try_fold reader_next (S (length (channel s))) init f s;
|}.
End BlockingEventQueue.

(** ** Proofs *)

Section Facts.
Context {T : Type}.
Implicit Types (l : list T) (b : EventBuffer T).

Definition last_n (n : nat) l : list T := drop (length l - n) l.

Definition buffer_writes (events : list T) b : EventBuffer T :=
  foldl (λ b e, buffer_write e b) b events.

Lemma last_n_short n l : length l ≤ n → last_n n l = l.
Proof. intros Hl. unfold last_n. by replace (length l - n) with 0 by lia. Qed.

Lemma last_n_app n l l' : last_n n (last_n n l ++ l') = last_n n (l ++ l').
Proof.
  unfold last_n. rewrite !length_app, length_drop, !drop_app, drop_drop, length_drop.
  f_equal; f_equal; lia.
Qed.

Lemma last_n_length n l : length (last_n n l) ≤ n.
Proof. unfold last_n. rewrite length_drop. lia. Qed.

Lemma buffer_write_last a b :
  buf_is_open b = true → 0 < capacity b → length (buffer b) ≤ capacity b →
  buffer_write a b = mkBuffer (capacity b) true (last_n (capacity b) (buffer b ++ [a])).
Proof.
  intros Ho Hc Hl. unfold buffer_write. rewrite Ho. simpl.
  destruct (Nat.eqb_spec (length (buffer b)) (capacity b)) as [Heq|Hne].
  - f_equal. unfold last_n. rewrite length_app. simpl.
    replace (length (buffer b) + 1 - capacity b) with 1 by lia.
    destruct (buffer b) as [|x l]; simpl in *; [lia|]. by rewrite drop_0.
  - by rewrite last_n_short by (rewrite length_app; simpl; lia).
Qed.

Lemma buffer_writes_last events b :
  buf_is_open b = true → 0 < capacity b → length (buffer b) ≤ capacity b →
  buffer_writes events b =
  mkBuffer (capacity b) true (last_n (capacity b) (buffer b ++ events)).
Proof.
  revert b. induction events as [|a events IH]; intros b Ho Hc Hl; simpl.
  - rewrite app_nil_r, last_n_short by done. destruct b; simpl in *. by subst.
  - rewrite buffer_write_last by done. rewrite IH; simpl; [|done|done|apply last_n_length].
    f_equal. by rewrite last_n_app, <-app_assoc.
Qed.
End Facts.

(** ** Properties *)

Section Properties.
Context {T : Type}.

(** Histories of an event buffer and of the list it promises to be. *)
Inductive bop :=
| BWrite (event : T)
| BNext
| BOpen
| BClose.

Fixpoint run_buffer (ops : list bop) (b : EventBuffer T) : list (option T) * EventBuffer T :=
  match ops with
  | [] => ([], b)
  | BWrite a :: ops => run_buffer ops (buffer_write a b)
  | BNext :: ops =>
      let (o, b) := buffer_next b in
      let (r, b) := run_buffer ops b in (o :: r, b)
  | BOpen :: ops => run_buffer ops (buffer_open b)
  | BClose :: ops => run_buffer ops (buffer_close b)
  end.

Fixpoint run_last (cap : nat) (ops : list bop) (open : bool) (l : list T) :
    list (option T) * EventBuffer T :=
  match ops with
  | [] => ([], mkBuffer cap open l)
  | BWrite a :: ops => run_last cap ops open (if open then last_n cap (l ++ [a]) else l)
  | BNext :: ops => let (r, b) := run_last cap ops open (tail l) in (head l :: r, b)
  | BOpen :: ops => run_last cap ops true l
  | BClose :: ops => run_last cap ops false l
  end.

Lemma run_buffer_last cap ops open l :
  0 < cap → length l ≤ cap →
  run_buffer ops (mkBuffer cap open l) = run_last cap ops open l ∧
  length (buffer (run_last cap ops open l).2) ≤ cap.
Proof.
  intros Hc. revert open l. induction ops as [|op ops IH]; intros open l Hl; simpl; [done|].
  destruct op as [a| | |]; [..|by apply IH|by apply IH].
  - destruct open.
    + rewrite buffer_write_last by done. simpl. apply IH, last_n_length.
    + by apply IH.
  - unfold buffer_next. destruct l as [|a l]; simpl.
    + destruct (IH open [] ltac:(simpl; lia)) as [-> ?].
      by destruct (run_last cap ops open []).
    + simpl in Hl. destruct (IH open l ltac:(lia)) as [-> ?].
      by destruct (run_last cap ops open l).
Qed.

(** An event buffer of positive capacity answers every history of writes,
    reads, openings and closings as the list of the last [capacity] events
    written while it was open, read in first-in-first-out order, and never
    holds more than its capacity. *)
Lemma event_buffer_keeps_last cap ops :
  0 < cap →
  run_buffer ops (buffer_with_capacity cap) = run_last cap ops true [] ∧
  length (buffer (run_buffer ops (buffer_with_capacity cap)).2) ≤ cap.
Proof.
  intros Hc. destruct (run_buffer_last cap ops true [] Hc) as [Heq Hl]; [simpl; lia|].
  unfold buffer_with_capacity. by rewrite Heq.
Qed.

(** A buffer of capacity zero is not bounded: only its first write finds
    it full, and it keeps every event ever written. *)
Lemma zero_capacity_unbounded (events : list T) :
  buffer (buffer_writes events (buffer_with_capacity 0)) = events.
Proof.
  induction events as [|a events IH] using rev_ind; [done|].
  unfold buffer_writes in *. rewrite foldl_app. simpl. unfold buffer_write at 1.
  assert (∀ es b, buf_is_open (foldl (λ b e, buffer_write e b) b es) = buf_is_open b ∧
    capacity (foldl (λ (b : EventBuffer T) e, buffer_write e b) b es) = capacity b) as Hk.
  { intros es. induction es as [|x es IHe]; intros b; simpl; [done|].
    destruct (IHe (buffer_write x b)) as [-> ->]. unfold buffer_write.
    by destruct (buf_is_open b) eqn:Eo; simpl; rewrite ?Eo. }
  destruct (Hk events (buffer_with_capacity 0)) as [-> ->]. simpl.
  rewrite IH. destruct events; simpl; done.
Qed.

(** Folding the events of a buffer with a function that fails on one of
    them returns the same error as folding one event at a time, but loses the
    events that come after the failing one, which the default implementation
    leaves in the sink. *)
Lemma buffer_try_fold_drops_rest {B E} (init : B) (f : B → T → result B E) cap o pre a post b e :
  drain_try_fold init f pre = Ok b → f b a = Err e →
  let self := mkBuffer cap o (pre ++ a :: post) in
  buffer_try_fold init f self = (Err e, mkBuffer cap o []) ∧
  default_try_fold (λ s, Returns (buffer_next s)) (S (length (pre ++ a :: post))) init f self =
    Returns (Err e, mkBuffer cap o post).
Proof.
  intros Hpre Hf self. unfold buffer_try_fold. simpl.
  revert init Hpre. induction pre as [|x pre IH]; intros init Hpre; simpl in *.
  - injection Hpre as ->. rewrite Hf. done.
  - destruct (f init x) as [b'|]; [|done]. destruct (IH b' Hpre) as [H1 H2].
    split; [done|]. exact H2.
Qed.

(** An event slot holds the last event written while it was open, if no
    other write was in progress; reading empties it, and closing keeps what
    it holds. *)
Lemma event_slot_keeps_last (events : list T) (s : EventSlot T) :
  slot_is_open s = true →
  let s' := foldl (λ s e, slot_write false e s) s events in
  slot s' = match list.last events with Some e => Some e | None => slot s end ∧
  slot_is_open s' = true ∧
  slot_next s' = (slot s', mkSlot true None) ∧
  ∀ e, slot_write false e (slot_close s') = slot_close s'.
Proof.
  intros Ho. simpl. induction events as [|a events IH] using rev_ind; simpl.
  { destruct s as [op sl]. simpl in *. subst. done. }
  rewrite foldl_app, last_snoc. simpl. destruct IH as (_ & Hop & _).
  assert (∀ (s : EventSlot T) e, slot_is_open s = true → slot_write false e s = mkSlot true (Some e)) as Hw.
  { intros s1 e Hs1. unfold slot_write. by rewrite Hs1. }
  rewrite (Hw _ a Hop). done.
Qed.

(** Reading all the events of a blocking queue through the default fold, as
    the monitoring service does, waits for ever while a writer is alive. *)
Lemma blocking_queue_collect_blocks {B E} (init : B) (f : B → T → result B E) s :
  (∀ b a, ∃ b', f b a = Ok b') → 0 < senders s →
  sink_try_fold init f (s : BlockingEventQueue T) = Blocks.
Proof.
  intros Hf Hs. simpl. destruct s as [o l n r]. simpl in *.
  revert init. induction l as [|a l IH]; intros init; simpl.
  - unfold reader_next. simpl. destruct n; [lia|done].
  - destruct (Hf init a) as [b' ->]. apply IH.
Qed.
End Properties.
Arguments bop : clear implicits.

(** ** Evaluations *)

Lemma event_buffer_keeps_last_witness :
  (run_buffer [BWrite 1; BWrite 2; BWrite 3; BNext; BClose; BWrite 4; BNext; BNext]
    (buffer_with_capacity 2)).1 = [Some 2; Some 3; None].
Proof. rewrite (proj1 (event_buffer_keeps_last 2 _ ltac:(lia))). reflexivity. Defined.

Definition add_even (b a : nat) : result nat nat := if Nat.even a then Ok (b + a) else Err a.

Lemma buffer_try_fold_drops_rest_witness :
  buffer_try_fold 0 add_even (mkBuffer 8 true [2; 4; 5; 6; 8]) = (Err 5, mkBuffer 8 true []).
Proof.
  exact (proj1 (buffer_try_fold_drops_rest 0 add_even 8 true [2; 4] 5 [6; 8] 6 5
    eq_refl eq_refl)).
Defined.

Lemma event_slot_keeps_last_witness :
  slot (foldl (λ s e, slot_write false e s) slot_new_open [1; 2; 3]) = Some 3.
Proof. exact (proj1 (event_slot_keeps_last [1; 2; 3] slot_new_open eq_refl)). Defined.

Lemma blocking_queue_collect_blocks_witness :
  sink_try_fold [] (λ l (a : nat), Ok (E := unit) (l ++ [a]))
    (beq_write 2 (beq_write 1 (into_reader (beq_writer beq_new)))) = Blocks.
Proof.
  apply blocking_queue_collect_blocks; [|simpl; lia].
  intros b a. exists (b ++ [a]). reflexivity.
Defined.
