(* ===== verification/Broadcast.v ===== *)
(** * Broadcasting to several receivers (ports/source/broadcaster.rs,
    ports/output/broadcaster.rs)

    A broadcast polls the futures of all its senders and completes when each
    of them has, or as soon as one fails.  Sender futures are polled by
    [poll_inner] on a world [W] (the mailboxes); a poll is ready with a reply
    or a send error, or pending.  Which futures were woken is decided
    elsewhere: a poll of the broadcast takes the batches of indices that
    successive calls of [TaskSet::take_scheduled] return, the end of the list
    standing for [None].

    The file models the broadcast future of event and query sources and that
    of model outputs, which stores replies apart from the futures, and shows
    that the second simulates the first. *)

From stdpp Require Import base option list numbers.
From Stdlib Require Import ZArith Lia.
From S2P Require Import Prelude.

Definition u32_max : Z := 2 ^ 32 - 1.

Inductive SenderFutureState (F R : Type) := SPending (fut : F) | SReady (reply : R).
Arguments SPending {F R}.
Arguments SReady {F R}.

Inductive FutureState := FUninit | FPending | FCompleted.

#[export] Instance FutureState_eq_dec : EqDecision FutureState.
Proof. solve_decision. Defined.

(** ** The senders *)

Section Senders.
Context {T F : Type}.

(** A sender gives the future that sends an argument, or none if its filter
    rejects it; [send] and [send_owned] only differ in cloning. *)
Definition Sender : Type := T → option F.

Definition broadcaster_add (sender : Sender) (senders : list Sender) : outcome (list Sender) :=
  let! _ := rust_assert (Z.of_nat (length senders) <? u32_max - 2)%Z in
  Done (senders ++ [sender]).

(** [BroadcasterInner::futures]: the argument is moved into the last sender. *)
Fixpoint futures (senders : list Sender) (arg : T) : list F :=
  match senders with
  | [] => []
  | [sender] =>
      match sender arg with Some fut => [fut] | None => [] end
  | sender :: senders =>
      match sender arg with
      | Some fut => fut :: futures senders arg
      | None => futures senders arg
      end
  end.

(** The future of a broadcast: nothing to send, at most one sender, or
    several. *)
Inductive BFut := BEmpty | BSingle (fut : option F) | BMultiple (futs : list F).

Definition broadcast (senders : list Sender) (arg : T) : BFut :=
  match senders with
  | [] => BEmpty
  | [sender] => BSingle (sender arg)
  | _ => BMultiple (futures senders arg)
  end.

(** The futures that the broadcast runs. *)
Definition bfut_sends (b : BFut) : list F :=
  match b with
  | BEmpty => []
  | BSingle o => option_list o
  | BMultiple l => l
  end.

Lemma futures_omap senders arg : futures senders arg = omap (λ s, s arg) senders.
Proof.
  induction senders as [|s [|s' senders] IH]; [done|simpl; by destruct (s arg)|].
  change (futures (s :: s' :: senders) arg) with
    (match s arg with Some fut => fut :: futures (s' :: senders) arg
     | None => futures (s' :: senders) arg end).
  rewrite IH. csimpl. by destruct (s arg).
Qed.

(** Every sender whose filter accepts the argument sends it, in the order of
    connection. *)
Lemma broadcast_sends senders arg :
  bfut_sends (broadcast senders arg) = omap (λ s, s arg) senders.
Proof.
  destruct senders as [|s [|s' senders]]; [done|simpl; by destruct (s arg)|].
  apply futures_omap.
Qed.
End Senders.
Arguments Sender : clear implicits.
Arguments BFut : clear implicits.

(** ** The broadcast future of sources *)

Section Source.
Context {F R W : Type} (poll_inner : F → W → F * W * option (result R unit)).

Record BroadcastFuture := mkBF {
  future_states : list (SenderFutureState F R);
  pending_futures_count : nat;
  bf_state : FutureState;
}.

Definition bf_new (futs : list F) : BroadcastFuture :=
  mkBF (SPending <$> futs) (length futs) FUninit.

(** One iteration of either [for] loop; [true] when the send failed. *)
Definition bf_poll_task (task_idx : nat) (this : BroadcastFuture) (w : W) :
    outcome (BroadcastFuture * W * bool) :=
  let! st := unwrap (future_states this !! task_idx) in
  match st with
  | SReady _ => Done (this, w, false)
  | SPending fut =>
      let '(fut, w, p) := poll_inner fut w in
      match p with
      | Some (Ok output) =>
          let! _ := rust_assert (negb (pending_futures_count this =? 0)) in
          Done (mkBF (<[task_idx := SReady output]> (future_states this))
                  (pending_futures_count this - 1) (bf_state this), w, false)
      | Some (Err _) =>
          Done (mkBF (<[task_idx := SPending fut]> (future_states this))
                  (pending_futures_count this) FCompleted, w, true)
      | None =>
          Done (mkBF (<[task_idx := SPending fut]> (future_states this))
                  (pending_futures_count this) (bf_state this), w, false)
      end
  end.

Fixpoint bf_poll_tasks (idxs : list nat) (this : BroadcastFuture) (w : W) :
    outcome (BroadcastFuture * W * bool) :=
  match idxs with
  | [] => Done (this, w, false)
  | i :: idxs =>
      let! (this, w, failed) := bf_poll_task i this w in
      if failed then Done (this, w, true) else bf_poll_tasks idxs this w
  end.

Inductive BPoll (O : Type) := BReady (r : result O unit) | BPending.
Arguments BReady {O}.
Arguments BPending {O}.

(** Completion: the states are moved into the reply iterator. *)
Definition bf_complete (this : BroadcastFuture) :
    BroadcastFuture * list (SenderFutureState F R) :=
  (mkBF [] (pending_futures_count this) FCompleted, future_states this).

(** The loop over the scheduled tasks. *)
Fixpoint bf_poll_loop (batches : list (list nat)) (this : BroadcastFuture) (w : W) :
    outcome (BroadcastFuture * W * BPoll (list (SenderFutureState F R))) :=
  match batches with
  | [] => Done (this, w, BPending)
  | b :: batches =>
      let! (this, w, failed) := bf_poll_tasks b this w in
      if failed then Done (this, w, BReady (Err tt))
      else if pending_futures_count this =? 0 then
        let (this, outputs) := bf_complete this in Done (this, w, BReady (Ok outputs))
      else bf_poll_loop batches this w
  end.

Definition bf_poll (batches : list (list nat)) (this : BroadcastFuture) (w : W) :
    outcome (BroadcastFuture * W * BPoll (list (SenderFutureState F R))) :=
  let! _ := rust_assert (negb (bool_decide (bf_state this = FCompleted))) in
  if bool_decide (bf_state this = FUninit) then
    let! (this, w, failed) := bf_poll_tasks (seq 0 (length (future_states this))) this w in
    if failed then Done (this, w, BReady (Err tt))
    else if pending_futures_count this =? 0 then
      let (this, outputs) := bf_complete this in Done (this, w, BReady (Ok outputs))
    else
      bf_poll_loop batches (mkBF (future_states this) (pending_futures_count this) FPending) w
  else bf_poll_loop batches this w.

(** [ReplyIterator]: a state without a reply panics. *)
Fixpoint reply_iter (outputs : list (SenderFutureState F R)) : outcome (list R) :=
  match outputs with
  | [] => Done []
  | SReady r :: outputs => let! rs := reply_iter outputs in Done (r :: rs)
  | SPending _ :: _ => Panicked
  end.
End Source.
Arguments BroadcastFuture : clear implicits.
Arguments BPoll : clear implicits.
Arguments BReady {O}.
Arguments BPending {O}.

(** ** The broadcast future of outputs

    The replies are kept in [outputs], shared by successive broadcasts; a
    future is complete when its output is there. *)

Section Output.
Context {F R W : Type} (poll_inner : F → W → F * W * option (result R unit)).

Record OutFuture := mkOF {
  of_outputs : list (option R);
  of_futures : list F;
  of_count : nat;
  of_state : FutureState;
}.

(** [BroadcastFuture::new] empties the outputs it is going to use. *)
Definition of_new (outputs : list (option R)) (futs : list F) : OutFuture :=
  let n := length futs in
  mkOF (((λ _, None) <$> take n outputs) ++ drop n outputs) futs n FUninit.

Definition of_poll_one (task_idx : nat) (this : OutFuture) (w : W) :
    outcome (OutFuture * W * bool) :=
  let! _ := unwrap (of_outputs this !! task_idx) in
  let! fut := unwrap (of_futures this !! task_idx) in
  let '(fut, w, p) := poll_inner fut w in
  let futs := <[task_idx := fut]> (of_futures this) in
  match p with
  | Some (Ok o) =>
      let! _ := rust_assert (negb (of_count this =? 0)) in
      Done (mkOF (<[task_idx := Some o]> (of_outputs this)) futs (of_count this - 1)
              (of_state this), w, false)
  | Some (Err _) =>
      Done (mkOF (of_outputs this) futs (of_count this) FCompleted, w, true)
  | None => Done (mkOF (of_outputs this) futs (of_count this) (of_state this), w, false)
  end.

(** The first loop polls every future; the second skips completed ones. *)
Definition of_poll_task (task_idx : nat) (this : OutFuture) (w : W) :
    outcome (OutFuture * W * bool) :=
  let! output := unwrap (of_outputs this !! task_idx) in
  match output with
  | Some _ => Done (this, w, false)
  | None => of_poll_one task_idx this w
  end.

Fixpoint of_poll_tasks (step : nat → OutFuture → W → outcome (OutFuture * W * bool))
    (idxs : list nat) (this : OutFuture) (w : W) : outcome (OutFuture * W * bool) :=
  match idxs with
  | [] => Done (this, w, false)
  | i :: idxs =>
      let! (this, w, failed) := step i this w in
      if failed then Done (this, w, true) else of_poll_tasks step idxs this w
  end.

Definition of_set_state (s : FutureState) (this : OutFuture) : OutFuture :=
  mkOF (of_outputs this) (of_futures this) (of_count this) s.

Fixpoint of_poll_loop (batches : list (list nat)) (this : OutFuture) (w : W) :
    outcome (OutFuture * W * BPoll unit) :=
  match batches with
  | [] => Done (this, w, BPending)
  | b :: batches =>
      let! (this, w, failed) := of_poll_tasks of_poll_task b this w in
      if failed then Done (this, w, BReady (Err tt))
      else if of_count this =? 0 then
        Done (of_set_state FCompleted this, w, BReady (Ok tt))
      else of_poll_loop batches this w
  end.

Definition of_poll (batches : list (list nat)) (this : OutFuture) (w : W) :
    outcome (OutFuture * W * BPoll unit) :=
  let! _ := rust_assert (negb (bool_decide (of_state this = FCompleted))) in
  if bool_decide (of_state this = FUninit) then
    let! (this, w, failed) :=
      of_poll_tasks of_poll_one (seq 0 (length (of_futures this))) this w in
    if failed then Done (this, w, BReady (Err tt))
    else if of_count this =? 0 then
      Done (of_set_state FCompleted this, w, BReady (Ok tt))
    else of_poll_loop batches (of_set_state FPending this) w
  else of_poll_loop batches this w.

(** The replies of a query are taken from the first outputs. *)
Fixpoint take_replies (outputs : list (option R)) (output_count : nat) : outcome (list R) :=
  match output_count, outputs with
  | O, _ => Done []
  | S _, [] => Done []
  | S n, o :: outputs =>
      let! r := unwrap o in let! rs := take_replies outputs n in Done (r :: rs)
  end.
End Output.
Arguments OutFuture : clear implicits.

(** ** Correctness

    [yields f r]: polling [f], possibly several times, can be ready with the
    reply [r]. *)

Section Correctness.
Context {F R W : Type} (poll_inner : F → W → F * W * option (result R unit)).
Context (yields : F → R → Prop).
Hypothesis yields_ready : ∀ f w f' w' r,
  poll_inner f w = (f', w', Some (Ok r)) → yields f r.
Hypothesis yields_step : ∀ f w f' w' p r,
  poll_inner f w = (f', w', p) → yields f' r → yields f r.

Implicit Types (this : BroadcastFuture F R) (fs : list F).

Definition is_pending (st : SenderFutureState F R) : bool :=
  match st with SPending _ => true | SReady _ => false end.

(** The state of the future of each sender. *)
Definition state_of (f : F) (st : SenderFutureState F R) : Prop :=
  match st with
  | SPending f' => ∀ r, yields f' r → yields f r
  | SReady r => yields f r
  end.

Definition num_pending (sts : list (SenderFutureState F R)) : nat :=
  length (filter (λ st, is_pending st = true) sts).

Record bf_ok fs this : Prop := {
  ok_states : Forall2 state_of fs (future_states this);
  ok_count : pending_futures_count this = num_pending (future_states this);
}.

Lemma num_pending_insert sts i st st' :
  sts !! i = Some st →
  num_pending (<[i := st']> sts) + (if is_pending st then 1 else 0) =
  num_pending sts + (if is_pending st' then 1 else 0).
Proof.
  unfold num_pending. revert i. induction sts as [|x sts IH]; intros [|i] Hi; simplify_eq/=.
  - rewrite !filter_cons. destruct (is_pending st), (is_pending st'); simpl; lia.
  - rewrite !filter_cons. specialize (IH i Hi). case_decide; simpl; lia.
Qed.

Lemma bf_poll_task_ok fs this i w :
  bf_ok fs this → i < length fs →
  ∃ this' w' failed, bf_poll_task poll_inner i this w = Done (this', w', failed) ∧
    bf_ok fs this' ∧
    bf_state this' = if failed then FCompleted else bf_state this.
Proof.
  intros [Hst Hc] Hi. assert (length fs = length (future_states this)) as Hlen by by eapply Forall2_length.
  destruct (lookup_lt_is_Some_2 (future_states this) i) as [st Hs]; [lia|].
  destruct (lookup_lt_is_Some_2 fs i) as [f Hf]; [lia|].
  pose proof (Forall2_lookup_lr _ _ _ _ _ _ Hst Hf Hs) as Hsf.
  unfold bf_poll_task. rewrite Hs. cbn [obind unwrap].
  destruct st as [f0|r]; [|by exists this, w, false].
  destruct (poll_inner f0 w) as [[f1 w1] p] eqn:Hp.
  assert (∀ st', state_of f st' → Forall2 state_of fs (<[i := st']> (future_states this))) as Hins.
  { intros st' Hst'. rewrite <-(list_insert_id fs i f Hf). by apply Forall2_insert. }
  pose proof (λ st', num_pending_insert _ i _ st' Hs) as Hn. simpl in Hn.
  assert (state_of f (SPending f1)) as Hf1.
  { intros r Hr. apply Hsf. by eapply yields_step. }
  destruct p as [[r|]|].
  - assert (pending_futures_count this ≠ 0) as Hne by (specialize (Hn (SReady r)); simpl in Hn; lia).
    rewrite (proj2 (Nat.eqb_neq _ _) Hne). simpl. do 3 eexists. split; [done|].
    split; [|done]. split; simpl.
    + apply Hins. simpl. apply Hsf. by eapply yields_ready.
    + specialize (Hn (SReady r)). simpl in Hn. lia.
  - do 3 eexists. split; [done|]. split; [|done]. split; simpl; [by apply Hins|].
    specialize (Hn (SPending f1)). simpl in Hn. lia.
  - do 3 eexists. split; [done|]. split; [|done]. split; simpl; [by apply Hins|].
    specialize (Hn (SPending f1)). simpl in Hn. lia.
Qed.

Lemma bf_poll_tasks_ok fs idxs this w :
  bf_ok fs this → Forall (λ i, i < length fs) idxs →
  ∃ this' w' failed, bf_poll_tasks poll_inner idxs this w = Done (this', w', failed) ∧
    bf_ok fs this' ∧ bf_state this' = if failed then FCompleted else bf_state this.
Proof.
  intros Hok Hi. revert this w Hok. induction Hi as [|i idxs Hi Hidxs IH]; intros this w Hok.
  { by exists this, w, false. }
  cbn [bf_poll_tasks].
  destruct (bf_poll_task_ok fs this i w Hok Hi) as (this1 & w1 & fl & -> & Hok1 & Hs1).
  cbn [obind]. destruct fl; [by exists this1, w1, true|].
  destruct (IH this1 w1 Hok1) as (this2 & w2 & fl & -> & Hok2 & Hs2).
  exists this2, w2, fl. by rewrite Hs2, Hs1.
Qed.

Lemma reply_iter_ok fs sts :
  Forall2 state_of fs sts → num_pending sts = 0 →
  ∃ rs, reply_iter sts = Done rs ∧ Forall2 yields fs rs.
Proof.
  induction 1 as [|f st fs sts Hst Hsts IH]; simpl; [by exists []|].
  unfold num_pending. rewrite filter_cons. destruct st as [f'|r]; simpl; [done|].
  intros Hn. destruct (IH Hn) as (rs & -> & Hrs). exists (r :: rs). auto.
Qed.

(** The outcome of polling a broadcast of the futures [fs]. *)
Definition poll_ok fs
    (r : BroadcastFuture F R * W * BPoll (list (SenderFutureState F R))) : Prop :=
  let '(this, _, p) := r in
  match p with
  | BReady (Ok outputs) => bf_state this = FCompleted ∧
      ∃ rs, reply_iter outputs = Done rs ∧ Forall2 yields fs rs
  | BReady (Err _) => bf_state this = FCompleted
  | BPending => bf_ok fs this ∧ bf_state this = FPending
  end.

Lemma bf_poll_loop_ok fs batches this w :
  bf_ok fs this → bf_state this = FPending →
  Forall (Forall (λ i, i < length fs)) batches →
  ∃ r, bf_poll_loop poll_inner batches this w = Done r ∧ poll_ok fs r.
Proof.
  intros Hok Hs Hb. revert this w Hok Hs.
  induction Hb as [|b batches Hb Hbs IH]; intros this w Hok Hs; [by eexists|].
  cbn [bf_poll_loop].
  destruct (bf_poll_tasks_ok fs b this w Hok Hb) as (this1 & w1 & fl & -> & Hok1 & Hs1).
  cbn [obind]. destruct fl; [by eexists|].
  destruct (Nat.eqb_spec (pending_futures_count this1) 0) as [Hz|Hz].
  - eexists. split; [done|]. simpl. split; [done|].
    apply reply_iter_ok; [apply Hok1|]. by rewrite <-(ok_count _ _ Hok1).
  - apply IH; [done|congruence].
Qed.

Lemma bf_poll_ok fs batches this w :
  bf_ok fs this → bf_state this ≠ FCompleted →
  Forall (Forall (λ i, i < length fs)) batches →
  ∃ r, bf_poll poll_inner batches this w = Done r ∧ poll_ok fs r.
Proof.
  intros Hok Hs Hb. unfold bf_poll. rewrite bool_decide_eq_false_2 by done. simpl.
  destruct (bf_state this) eqn:Est; [|by apply bf_poll_loop_ok|done].
  rewrite bool_decide_eq_true_2 by done.
  destruct (bf_poll_tasks_ok fs (seq 0 (length (future_states this))) this w Hok)
    as (this1 & w1 & fl & -> & Hok1 & Hs1).
  { assert (length fs = length (future_states this)) as <-
      by (eapply Forall2_length, Hok). apply Forall_seq. lia. }
  cbn [obind]. destruct fl; [by eexists|].
  destruct (Nat.eqb_spec (pending_futures_count this1) 0) as [Hz|Hz].
  - eexists. split; [done|]. simpl. split; [done|].
    apply reply_iter_ok; [apply Hok1|]. by rewrite <-(ok_count _ _ Hok1).
  - apply bf_poll_loop_ok; [|done|done]. by destruct Hok1.
Qed.

Lemma bf_new_ok fs : bf_ok fs (bf_new fs).
Proof.
  split; simpl.
  - induction fs; constructor; simpl; auto.
  - unfold num_pending. rewrite filter_all_true, length_fmap; [done|].
    by apply Forall_fmap, Forall_true.
Qed.
End Correctness.

(** ** The output variant simulates the source variant *)

Section Simulation.
Context {F R W : Type} (poll_inner : F → W → F * W * option (result R unit)).
Implicit Types (bf : BroadcastFuture F R) (this : OutFuture F R).

(** The state of a future whose output slot holds [o]. *)
Definition joined (o : option (option R)) (f : F) : SenderFutureState F R :=
  match o with Some (Some r) => SReady r | _ => SPending f end.

Record of_sim bf this : Prop := {
  sim_len : length (future_states bf) = length (of_futures this);
  sim_out : length (of_futures this) ≤ length (of_outputs this);
  sim_states : ∀ i f, of_futures this !! i = Some f →
    future_states bf !! i = Some (joined (of_outputs this !! i) f);
  sim_count : pending_futures_count bf = of_count this;
  sim_state : bf_state bf = of_state this;
}.

Definition task_rel (a : BroadcastFuture F R * W * bool) (b : OutFuture F R * W * bool) : Prop :=
  of_sim a.1.1 b.1.1 ∧ a.1.2 = b.1.2 ∧ a.2 = b.2.

(** One future, not yet complete. *)
Lemma of_poll_one_sim bf this i w :
  of_sim bf this → of_outputs this !! i = Some None → i < length (of_futures this) →
  orel task_rel (bf_poll_task poll_inner i bf w) (of_poll_one poll_inner i this w).
Proof.
  intros Hsim Ho Hi. pose proof Hsim as [Hlen Hout Hst Hc Hs].
  destruct (lookup_lt_is_Some_2 (of_futures this) i Hi) as [f Hf].
  unfold bf_poll_task, of_poll_one. rewrite (Hst i f Hf), Ho, Hf. simpl.
  destruct (poll_inner f w) as [[f1 w1] p].
  assert (∀ (st : SenderFutureState F R) (outs : list (option R)),
    length outs = length (of_outputs this) →
    (∀ j, j ≠ i → outs !! j = of_outputs this !! j) → joined (outs !! i) f1 = st →
    ∀ j g, <[i := f1]> (of_futures this) !! j = Some g →
      <[i := st]> (future_states bf) !! j = Some (joined (outs !! j) g)) as Hins.
  { intros st outs Hl Houts Hj j g Hg. destruct (decide (j = i)) as [->|Hne].
    - rewrite list_lookup_insert_eq in Hg by done. simplify_eq.
      rewrite list_lookup_insert_eq by lia. done.
    - rewrite list_lookup_insert_ne in Hg by done. rewrite list_lookup_insert_ne by done.
      rewrite Houts by done. by apply Hst. }
  destruct p as [[r|]|]; simpl.
  - rewrite Hc. destruct (of_count this =? 0); simpl; [done|].
    split_and!; [|done|done]. split; simpl; rewrite ?length_insert; try congruence; try done.
    intros j g Hg. apply Hins; [by rewrite length_insert| | |done].
    + intros k Hk. by rewrite list_lookup_insert_ne.
    + rewrite list_lookup_insert_eq; [done|]. by eapply lookup_lt_Some.
  - split_and!; [|done|done]. split; simpl; rewrite ?length_insert; try done.
    intros j g Hg. apply Hins; [done|done|by rewrite Ho|done].
  - split_and!; [|done|done]. split; simpl; rewrite ?length_insert; try done.
    intros j g Hg. apply Hins; [done|done|by rewrite Ho|done].
Qed.

Lemma of_poll_task_sim bf this i w :
  of_sim bf this → i < length (of_futures this) →
  orel task_rel (bf_poll_task poll_inner i bf w) (of_poll_task poll_inner i this w).
Proof.
  intros Hsim Hi. unfold of_poll_task. pose proof (sim_out _ _ Hsim) as Hout.
  destruct (lookup_lt_is_Some_2 (of_outputs this) i) as [o Ho]; [lia|]. rewrite Ho. simpl.
  destruct o as [r|]; [|by apply of_poll_one_sim].
  destruct (lookup_lt_is_Some_2 (of_futures this) i Hi) as [f Hf].
  unfold bf_poll_task. rewrite (sim_states _ _ Hsim i f Hf), Ho. done.
Qed.

Lemma of_futures_length_one i this w this' w' b :
  of_poll_one poll_inner i this w = Done (this', w', b) →
  length (of_futures this') = length (of_futures this) ∧
  ∀ j, j ≠ i → of_outputs this' !! j = of_outputs this !! j.
Proof.
  unfold of_poll_one. destruct (of_outputs this !! i); simpl; [|done].
  destruct (of_futures this !! i); simpl; [|done].
  destruct (poll_inner f w) as [[f1 w1] [[r|]|]]; simpl.
  - destruct (of_count this =? 0); simpl; [done|]. intros [= <- <- <-]. simpl.
    rewrite length_insert. split; [done|]. intros j Hj. by rewrite list_lookup_insert_ne.
  - intros [= <- <- <-]. simpl. by rewrite length_insert.
  - intros [= <- <- <-]. simpl. by rewrite length_insert.
Qed.

Lemma of_poll_task_length i this w this' w' b :
  of_poll_task poll_inner i this w = Done (this', w', b) →
  length (of_futures this') = length (of_futures this).
Proof.
  unfold of_poll_task. destruct (of_outputs this !! i) as [[r|]|]; simpl; [|..|done].
  - by intros [= <- <- <-].
  - by intros [? _]%of_futures_length_one.
Qed.

Lemma of_poll_tasks_sim idxs bf this w :
  of_sim bf this → Forall (λ i, i < length (of_futures this)) idxs →
  orel task_rel (bf_poll_tasks poll_inner idxs bf w)
    (of_poll_tasks (of_poll_task poll_inner) idxs this w).
Proof.
  revert bf this w. induction idxs as [|i idxs IH]; intros bf this w Hsim Hi; [done|].
  apply Forall_cons_1 in Hi as [Hi Hidxs]. cbn [bf_poll_tasks of_poll_tasks].
  pose proof (of_poll_task_sim bf this i w Hsim Hi) as Hstep.
  destruct (bf_poll_task poll_inner i bf w) as [[[bf1 w1] b1]| |],
    (of_poll_task poll_inner i this w) as [[[this1 w2] b2]| |] eqn:Eo; try done.
  destruct Hstep as (Hsim1 & Hw & Hb). simpl in *. subst. destruct b2; [done|].
  apply IH; [done|]. by rewrite (of_poll_task_length _ _ _ _ _ _ Eo).
Qed.

(** The first loop: no output is there yet from the current index on. *)
Lemma of_poll_init_sim k m bf this w :
  of_sim bf this → k + m = length (of_futures this) →
  (∀ j, k ≤ j < k + m → of_outputs this !! j = Some None) →
  orel task_rel (bf_poll_tasks poll_inner (seq k m) bf w)
    (of_poll_tasks (of_poll_one poll_inner) (seq k m) this w).
Proof.
  revert k bf this w. induction m as [|m IH]; intros k bf this w Hsim Hl Hnone; [done|].
  cbn [seq bf_poll_tasks of_poll_tasks].
  pose proof (of_poll_one_sim bf this k w Hsim (Hnone k ltac:(lia)) ltac:(lia)) as Hstep.
  destruct (bf_poll_task poll_inner k bf w) as [[[bf1 w1] b1]| |],
    (of_poll_one poll_inner k this w) as [[[this1 w2] b2]| |] eqn:Eo; try done.
  destruct Hstep as (Hsim1 & Hw & Hb). simpl in *. subst. destruct b2; [done|].
  destruct (of_futures_length_one _ _ _ _ _ _ Eo) as [Hl1 Ho1].
  apply IH; [done|lia|]. intros j Hj. rewrite Ho1 by lia. apply Hnone. lia.
Qed.

(** Results of a poll: the replies of the outputs are those of the states. *)
Definition poll_rel
    (a : BroadcastFuture F R * W * BPoll (list (SenderFutureState F R)))
    (b : OutFuture F R * W * BPoll unit) : Prop :=
  a.1.2 = b.1.2 ∧ bf_state a.1.1 = of_state b.1.1 ∧
  match a.2, b.2 with
  | BPending, BPending => of_sim a.1.1 b.1.1
  | BReady (Err _), BReady (Err _) => True
  | BReady (Ok outs), BReady (Ok _) =>
      ∀ rs, reply_iter outs = Done rs →
        take_replies (of_outputs b.1.1) (length (of_futures b.1.1)) = Done rs
  | _, _ => False
  end.

Lemma take_replies_sim sts outs futs rs :
  length sts = length futs → length futs ≤ length outs →
  (∀ i f, futs !! i = Some f → sts !! i = Some (joined (outs !! i) f)) →
  reply_iter sts = Done rs → take_replies outs (length futs) = Done rs.
Proof.
  revert outs futs rs. induction sts as [|st sts IH]; intros outs [|f futs] rs Hl Ho Hst;
    [by destruct outs|done|done|]. destruct outs as [|o outs]; [simpl in Ho; lia|]. simpl in *.
  pose proof (Hst 0 f eq_refl) as H0. simpl in H0. injection H0 as H0.
  destruct o as [r|]; subst st; simpl; [|done].
  destruct (reply_iter sts) as [rs'| |] eqn:Er; simpl; [|done..]. intros [= <-].
  rewrite (IH outs futs rs'); [done|lia|lia| |done].
  intros i g Hg. exact (Hst (S i) g Hg).
Qed.

Lemma of_done_sim bf this w :
  of_sim bf this →
  poll_rel (let (bf, outs) := bf_complete bf in (bf, w, BReady (Ok outs)))
    (of_set_state FCompleted this, w, BReady (Ok tt)).
Proof.
  intros [Hl Ho Hst Hc Hs]. split_and!; [done..|]. simpl. intros rs.
  by apply take_replies_sim.
Qed.

Lemma of_poll_loop_sim batches bf this w :
  of_sim bf this → Forall (Forall (λ i, i < length (of_futures this))) batches →
  orel poll_rel (bf_poll_loop poll_inner batches bf w) (of_poll_loop poll_inner batches this w).
Proof.
  revert bf this w. induction batches as [|b batches IH]; intros bf this w Hsim Hb.
  { split_and!; [done|apply Hsim|done]. }
  apply Forall_cons_1 in Hb as [Hb Hbs]. cbn [bf_poll_loop of_poll_loop].
  pose proof (of_poll_tasks_sim b bf this w Hsim Hb) as Hstep.
  assert (∀ this' w' fl, of_poll_tasks (of_poll_task poll_inner) b this w = Done (this', w', fl) →
    length (of_futures this') = length (of_futures this)) as Hlen.
  { clear. revert this w. induction b as [|i b IH]; intros this w this' w' fl; simpl.
    - by intros [= <- <- <-].
    - destruct (of_poll_task poll_inner i this w) as [[[t1 w1] f1]| |] eqn:E1; simpl; [|done..].
      apply of_poll_task_length in E1. destruct f1; [by intros [= <- <- <-]|].
      intros Hr. by rewrite (IH _ _ _ _ _ Hr). }
  destruct (bf_poll_tasks poll_inner b bf w) as [[[bf1 w1] b1]| |],
    (of_poll_tasks _ b this w) as [[[this1 w2] b2]| |]; try done.
  destruct Hstep as (Hsim1 & Hw & Hbb). simpl in Hsim1, Hw, Hbb. subst. cbn [obind].
  destruct b2.
  { split_and!; [done|apply Hsim1|done]. }
  rewrite (sim_count _ _ Hsim1). destruct (of_count this1 =? 0).
  - exact (of_done_sim bf1 this1 w2 Hsim1).
  - apply IH; [done|]. by rewrite (Hlen this1 w2 false eq_refl).
Qed.

Lemma of_new_sim outputs futs :
  length futs ≤ length outputs → of_sim (bf_new futs) (of_new outputs futs).
Proof.
  intros Hl. split; simpl; rewrite ?length_app, ?length_fmap, ?length_take, ?length_drop;
    [done|lia| |done|done].
  intros i f Hf. rewrite list_lookup_fmap, Hf. simpl. f_equal.
  pose proof (lookup_lt_Some _ _ _ Hf).
  rewrite lookup_app_l by (rewrite length_fmap, length_take; lia).
  rewrite list_lookup_fmap. by destruct (take _ _ !! i).
Qed.

Lemma of_poll_first_sim outputs futs batches w :
  length futs ≤ length outputs → Forall (Forall (λ i, i < length futs)) batches →
  orel poll_rel (bf_poll poll_inner batches (bf_new futs) w)
    (of_poll poll_inner batches (of_new outputs futs) w).
Proof.
  intros Hl Hb. pose proof (of_new_sim outputs futs Hl) as Hsim.
  unfold bf_poll, of_poll. cbn [bf_state of_state bf_new of_new].
  rewrite bool_decide_eq_false_2, bool_decide_eq_true_2 by done. cbn [negb rust_assert obind].
  replace (length (future_states (bf_new futs))) with (length futs)
    by (simpl; by rewrite length_fmap).
  fold (of_new outputs futs). fold (bf_new (R := R) futs).
  change (length (of_futures (of_new outputs futs))) with (length futs).
  assert (∀ j, 0 ≤ j < 0 + length futs → of_outputs (of_new outputs futs) !! j = Some None) as Hn.
  { intros j Hj. simpl. rewrite lookup_app_l by (rewrite length_fmap, length_take; lia).
    rewrite list_lookup_fmap.
    destruct (lookup_lt_is_Some_2 (take (length futs) outputs) j) as [o ->]; [|done].
    rewrite length_take. lia. }
  pose proof (of_poll_init_sim 0 (length futs) _ _ w Hsim eq_refl Hn) as Hinit.
  assert (∀ idxs t w1 t' w' fl, of_poll_tasks (of_poll_one poll_inner) idxs t w1 = Done (t', w', fl) →
    length (of_futures t') = length (of_futures t)) as Hlen.
  { clear. intros idxs. induction idxs as [|i idxs IH]; intros t w t' w' fl; simpl.
    - by intros [= <- <- <-].
    - destruct (of_poll_one poll_inner i t w) as [[[t1 w1] f1]| |] eqn:E1; simpl; [|done..].
      apply of_futures_length_one in E1 as [E1 _]. destruct f1; [by intros [= <- <- <-]|].
      intros Hr. by rewrite (IH _ _ _ _ _ Hr). }
  destruct (bf_poll_tasks poll_inner _ _ w) as [[[bf1 w1] b1]| |],
    (of_poll_tasks _ (seq 0 (length futs)) _ w) as [[[this1 w2] b2]| |] eqn:Eo; try done.
  apply Hlen in Eo. destruct Hinit as (Hsim1 & Hw & Hbb). simpl in Hsim1, Hw, Hbb. subst.
  cbn [obind]. destruct b2.
  { split_and!; [done|apply Hsim1|done]. }
  rewrite (sim_count _ _ Hsim1). destruct (of_count this1 =? 0).
  - exact (of_done_sim bf1 this1 w2 Hsim1).
  - apply of_poll_loop_sim; [by destruct Hsim1; split|]. simpl. by rewrite Eo.
Qed.
End Simulation.

(** ** Whole broadcasts

    A broadcast is polled again and again; before each poll the world
    changes, as the receivers make progress. *)

Section Drive.
Context {F R W : Type} (poll_inner : F → W → F * W * option (result R unit)).

Fixpoint bf_drive (polls : list (list (list nat) * (W → W))) (this : BroadcastFuture F R)
    (w : W) : outcome (option (result (list R) unit) * W) :=
  match polls with
  | [] => Done (None, w)
  | (batches, env) :: polls =>
      let! (this, w, p) := bf_poll poll_inner batches this (env w) in
      match p with
      | BPending => bf_drive polls this w
      | BReady (Err e) => Done (Some (Err e), w)
      | BReady (Ok outputs) => let! rs := reply_iter outputs in Done (Some (Ok rs), w)
      end
  end.

Fixpoint of_drive (polls : list (list (list nat) * (W → W))) (this : OutFuture F R)
    (w : W) : outcome (option (result (list R) unit) * W) :=
  match polls with
  | [] => Done (None, w)
  | (batches, env) :: polls =>
      let! (this, w, p) := of_poll poll_inner batches this (env w) in
      match p with
      | BPending => of_drive polls this w
      | BReady (Err e) => Done (Some (Err e), w)
      | BReady (Ok _) =>
          let! rs := take_replies (of_outputs this) (length (of_futures this)) in
          Done (Some (Ok rs), w)
      end
  end.

(** The task set only yields indices of existing tasks. *)
Definition batches_ok (n : nat) (polls : list (list (list nat) * (W → W))) : Prop :=
  Forall (λ p, Forall (Forall (λ i, i < n)) p.1) polls.

Lemma bf_drive_ok (yields : F → R → Prop) fs polls this w :
  (∀ f w f' w' r, poll_inner f w = (f', w', Some (Ok r)) → yields f r) →
  (∀ f w f' w' p r, poll_inner f w = (f', w', p) → yields f' r → yields f r) →
  bf_ok yields fs this → bf_state this ≠ FCompleted → batches_ok (length fs) polls →
  ∃ o w', bf_drive polls this w = Done (o, w') ∧
    ∀ rs, o = Some (Ok rs) → Forall2 yields fs rs.
Proof.
  intros Hready Hstep. revert this w.
  induction polls as [|[b env] polls IH]; intros this w Hok Hs Hb; simpl.
  { by exists None, w. }
  apply Forall_cons_1 in Hb as [Hb Hbs].
  destruct (bf_poll_ok poll_inner yields Hready Hstep fs b this (env w) Hok Hs Hb)
    as ([[this1 w1] p] & -> & Hp). simpl in *.
  destruct p as [[outs|e]|].
  - destruct Hp as (_ & rs & -> & Hrs). simpl. do 2 eexists. split; [done|].
    by intros rs' [= <-].
  - by do 2 eexists.
  - destruct Hp as [Hok1 Hs1]. apply IH; [done|by rewrite Hs1|done].
Qed.

(** A broadcast to several receivers never panics, whatever is woken and
    whenever; it fails as soon as one of the sends fails, and when it
    completes it holds one reply per receiver, in the order of the senders:
    the i-th reply is one that the i-th send yields. *)
Lemma broadcast_replies_in_order (yields : F → R → Prop) fs polls w :
  (∀ f w f' w' r, poll_inner f w = (f', w', Some (Ok r)) → yields f r) →
  (∀ f w f' w' p r, poll_inner f w = (f', w', p) → yields f' r → yields f r) →
  batches_ok (length fs) polls →
  ∃ o w', bf_drive polls (bf_new fs) w = Done (o, w') ∧
    ∀ rs, o = Some (Ok rs) → Forall2 yields fs rs.
Proof. intros. by eapply bf_drive_ok; [..|apply bf_new_ok| |]. Qed.

Lemma of_drive_sim fs polls bf this w :
  bf_ok (λ _ _, True) fs bf → of_sim bf this → bf_state bf = FPending →
  batches_ok (length fs) polls →
  of_drive polls this w = bf_drive polls bf w.
Proof.
  revert bf this w.
  induction polls as [|[b env] polls IH]; intros bf this w Hok Hsim Hs Hb; simpl; [done|].
  apply Forall_cons_1 in Hb as [Hb Hbs].
  assert (length fs = length (of_futures this)) as Hlen.
  { rewrite <-(sim_len _ _ Hsim). eapply Forall2_length, Hok. }
  destruct (bf_poll_loop_ok poll_inner (λ _ _, True) ltac:(done) ltac:(done)
    fs b bf (env w) Hok Hs Hb) as ([[bf1 w1] p1] & Hr & Hp).
  pose proof (of_poll_loop_sim poll_inner b bf this (env w) Hsim) as Hrel.
  rewrite <-Hlen in Hrel. specialize (Hrel Hb).
  unfold bf_poll, of_poll. rewrite <-(sim_state _ _ Hsim), Hs.
  rewrite !bool_decide_eq_false_2 by done. cbn [negb rust_assert obind].
  rewrite Hr in *. apply orel_Done_l in Hrel as ([[this1 w2] p2] & -> & Hw & Hs1 & Hq).
  simpl in *. subst w2. destruct p1 as [[outs|e]|], p2 as [[[]|e2]|]; try done.
  - destruct Hp as (_ & rs & Hrs & _). by rewrite (Hq rs Hrs), Hrs.
  - by destruct e, e2.
  - destruct Hp as [Hok1 Hs1']. by apply IH.
Qed.

Lemma of_drive_bf_drive outputs fs polls w :
  length fs ≤ length outputs → batches_ok (length fs) polls →
  of_drive polls (of_new outputs fs) w = bf_drive polls (bf_new fs) w.
Proof.
  intros Hl Hb. destruct polls as [|[b env] polls]; simpl; [done|].
  apply Forall_cons_1 in Hb as [Hb Hbs].
  destruct (bf_poll_ok poll_inner (λ _ _, True) ltac:(done) ltac:(done) fs b
    (bf_new fs) (env w) (bf_new_ok _ fs) ltac:(done) Hb) as ([[bf1 w1] p1] & Hr & Hp).
  pose proof (of_poll_first_sim poll_inner outputs fs b (env w) Hl Hb) as Hrel.
  rewrite Hr in *. apply orel_Done_l in Hrel as ([[this1 w2] p2] & -> & Hw & Hs1 & Hq).
  simpl in *. subst w2. destruct p1 as [[outs|e]|], p2 as [[[]|e2]|]; try done.
  - destruct Hp as (_ & rs & Hrs & _). by rewrite (Hq rs Hrs), Hrs.
  - by destruct e, e2.
  - destruct Hp as [Hok1 Hs1']. by eapply of_drive_sim.
Qed.

(** C9: the broadcast future of model outputs, which keeps the replies in slots
    that are reused by successive broadcasts, gives for every sequence of
    polls and wake-ups the same result and replies as the one of sources,
    whatever replies an earlier, possibly cancelled broadcast left behind. *)
Theorem output_broadcast_equiv outputs fs polls w :
  length fs ≤ length outputs → batches_ok (length fs) polls →
  of_drive polls (of_new outputs fs) w = bf_drive polls (bf_new fs) w.
Proof. apply of_drive_bf_drive. Qed.
End Drive.

(** ** Evaluations

    A future [(n, r)] that is ready with [r] once the world reaches [n]. *)
Definition wait_for (f : nat * nat) (w : nat) : nat * nat * nat * option (result nat unit) :=
  (f, w, if f.1 <=? w then Some (Ok f.2) else None).

Definition demo_polls : list (list (list nat) * (nat → nat)) :=
  [([], id); ([[2]; []], S); ([[1; 2]; [0]], S)].

Lemma demo_polls_ok : batches_ok 3 demo_polls.
Proof. repeat constructor; simpl; lia. Qed.

Lemma broadcast_replies_in_order_witness :
  ∃ rs, bf_drive wait_for demo_polls (bf_new [(2, 20); (0, 10); (1, 30)]) 0 =
      Done (Some (Ok rs), 2) ∧ rs = [20; 10; 30].
Proof.
  destruct (broadcast_replies_in_order wait_for (λ f r, r = f.2)
    [(2, 20); (0, 10); (1, 30)] demo_polls 0) as (o & w' & Hd & Ho).
  - intros f w f' w' r. unfold wait_for. destruct (f.1 <=? w); congruence.
  - intros f w f' w' p r. unfold wait_for. intros [= <- _ _]. exact (λ H, H).
  - exact demo_polls_ok.
  - exists [20; 10; 30]. rewrite Hd. vm_compute in Hd. injection Hd as <- <-.
    split; reflexivity.
Defined.

Lemma output_broadcast_equiv_witness :
  of_drive wait_for demo_polls (of_new [Some 7; None; Some 8] [(2, 20); (0, 10); (1, 30)]) 0 =
  Done (Some (Ok [20; 10; 30]), 2).
Proof.
  rewrite (output_broadcast_equiv wait_for [Some 7; None; Some 8]
    [(2, 20); (0, 10); (1, 30)] demo_polls 0); [reflexivity|simpl; lia|exact demo_polls_ok].
Defined.
