(* ===== verification/Sources.v ===== *)
(** * Event and query sources and their registries (ports/source.rs,
    ports/source/sender.rs, registry.rs, registry/event_source_registry.rs,
    registry/query_source_registry.rs, registry/event_sink_registry.rs)

    A source broadcasts an argument to the inputs connected to it; it makes
    the actions that the scheduler queues.  The registries give remote
    clients access to sources and sinks by name.  CBOR decoding and encoding
    ([ciborium]) are parameters: a function from bytes to a result. *)

From stdpp Require Import base option list numbers strings gmap.
From Stdlib Require Import ZArith Lia.
From S2P Require Import Prelude Time Scheduler Sinks Broadcast.

Abbreviation bytes := (list Z).

Section Sources.
Context {Call Addr QCall : Type}.

(** The future of one sender: a message to a mailbox, or a query to a
    mailbox with the map of its reply. *)
Definition EventSend : Type := Addr * Msg Call.

(** *** Senders of events *)

Definition InputSender {T : Type} (func : T → Call) (sender : Addr) : Sender T EventSend :=
  λ arg, Some (sender, EventMsg (func arg)).

Definition MapInputSender {T U : Type} (map : T → U) (func : U → Call) (sender : Addr) :
    Sender T EventSend :=
  λ arg, let arg := map arg in Some (sender, EventMsg (func arg)).

Definition FilterMapInputSender {T U : Type} (filter_map : T → option U) (func : U → Call)
    (sender : Addr) : Sender T EventSend :=
  λ arg,
    match filter_map arg with
    | Some arg => Some (sender, EventMsg (func arg))
    | None => None
    end.

(** *** Senders of queries: the call, and the map applied to its reply *)

Context {Reply : Type}.
Definition QuerySend (R : Type) : Type := Addr * QCall * (Reply → R).

Definition ReplierSender {T R : Type} (func : T → QCall) (reply : Reply → R) (sender : Addr) :
    Sender T (QuerySend R) :=
  λ arg, Some (sender, func arg, reply).

Definition MapReplierSender {T U R : Type} (query_map : T → U) (reply_map : Reply → R)
    (func : U → QCall) (sender : Addr) : Sender T (QuerySend R) :=
  λ arg, let arg := query_map arg in Some (sender, func arg, reply_map).

Definition FilterMapReplierSender {T U R : Type} (query_filter_map : T → option U)
    (reply_map : Reply → R) (func : U → QCall) (sender : Addr) : Sender T (QuerySend R) :=
  λ arg,
    match query_filter_map arg with
    | Some arg => Some (sender, func arg, reply_map)
    | None => None
    end.

(** What a source's action runs: the broadcast of an event, or that of a
    query, which then writes the replies to a slot. *)
Inductive SourceFut :=
| EventBroadcast (b : BFut EventSend)
| QueryBroadcast (b : BFut (Addr * QCall)) (slot : nat).
Abbreviation Action := (Action Call Addr SourceFut).

(** *** Event sources *)

Record EventSource (T : Type) := mkEventSource { broadcaster : list (Sender T EventSend) }.
Arguments mkEventSource {T}.
Arguments broadcaster {T}.

Section EventSource.
Context {T : Type}.
Abbreviation EventSource := (EventSource T).

Definition EventSource_new : EventSource := mkEventSource [].

Definition EventSource_add (s : Sender T EventSend) (self : EventSource) : outcome EventSource :=
  let! l := broadcaster_add s (broadcaster self) in Done (mkEventSource l).

Definition EventSource_connect (input : T → Call) (address : Addr) (self : EventSource) :=
  EventSource_add (InputSender input address) self.
Definition EventSource_map_connect {U : Type} (map : T → U) (input : U → Call)
    (address : Addr) (self : EventSource) :=
  EventSource_add (MapInputSender map input address) self.
Definition EventSource_filter_map_connect {U : Type} (map : T → option U) (input : U → Call)
    (address : Addr) (self : EventSource) :=
  EventSource_add (FilterMapInputSender map input address) self.

Definition EventSource_event (self : EventSource) (arg : T) : Action :=
  OnceAction (BroadcastFut (EventBroadcast (broadcast (broadcaster self) arg))).

Definition EventSource_keyed_event (self : EventSource) (arg : T) (flags : KeyFlags) :
    Action * ActionKey * KeyFlags :=
  let (action_key, flags) := ActionKey_new flags in
  let fut := BroadcastFut (EventBroadcast (broadcast (broadcaster self) arg)) in
  (KeyedOnceAction (λ _, fut) action_key, action_key, flags).

Definition EventSource_periodic_event (self : EventSource) (period : Duration) (arg : T) :
    Action :=
  PeriodicAction
    (λ _, BroadcastFut (EventBroadcast (broadcast (broadcaster self) arg))) period.

Definition EventSource_keyed_periodic_event (self : EventSource) (period : Duration) (arg : T)
    (flags : KeyFlags) : Action * ActionKey * KeyFlags :=
  let (action_key, flags) := ActionKey_new flags in
  (KeyedPeriodicAction
     (λ _, BroadcastFut (EventBroadcast (broadcast (broadcaster self) arg)))
     period action_key, action_key, flags).
End EventSource.

(** *** Query sources *)

Record QuerySource (T R : Type) := mkQuerySource {
  query_broadcaster : list (Sender T (QuerySend R));
}.
Arguments mkQuerySource {T R}.
Arguments query_broadcaster {T R}.

Section QuerySource.
Context {T R : Type}.
Abbreviation QuerySource := (QuerySource T R).

Definition QuerySource_new : QuerySource := mkQuerySource [].

Definition QuerySource_add (s : Sender T (QuerySend R)) (self : QuerySource) :
    outcome QuerySource :=
  let! l := broadcaster_add s (query_broadcaster self) in Done (mkQuerySource l).

Definition QuerySource_connect (replier : T → QCall) (reply : Reply → R) (address : Addr)
    (self : QuerySource) :=
  QuerySource_add (ReplierSender replier reply address) self.
Definition QuerySource_map_connect {U : Type} (query_map : T → U) (reply_map : Reply → R)
    (replier : U → QCall) (address : Addr) (self : QuerySource) :=
  QuerySource_add (MapReplierSender query_map reply_map replier address) self.
Definition QuerySource_filter_map_connect {U : Type} (query_filter_map : T → option U)
    (reply_map : Reply → R) (replier : U → QCall) (address : Addr) (self : QuerySource) :=
  QuerySource_add (FilterMapReplierSender query_filter_map reply_map replier address) self.

(** The query's action; [slot] is the slot its replies are written to, which
    the reply receiver reads. *)
Definition QuerySource_query (self : QuerySource) (arg : T) (slot : nat) : Action :=
  let b := broadcast (query_broadcaster self) arg in
  OnceAction (BroadcastFut (QueryBroadcast
    match b with
    | BEmpty => BEmpty
    | BSingle o => BSingle (fst <$> o)
    | BMultiple l => BMultiple (fst <$> l)
    end slot)).
End QuerySource.

(** *** Registries *)

(** A type-erased event source: it decodes its argument first. *)
Record EventSourceAny := mkEventSourceAny {
  esa_event : bytes → result Action string;
  esa_keyed_event : bytes → KeyFlags → result (Action * ActionKey * KeyFlags) string;
  esa_periodic_event : Duration → bytes → result Action string;
  esa_keyed_periodic_event :
    Duration → bytes → KeyFlags → result (Action * ActionKey * KeyFlags) string;
  event_type_name : string;
}.

Definition erase_event_source {T : Type} (from_reader : bytes → result T string)
    (type_name : string) (source : EventSource T) : EventSourceAny :=
  mkEventSourceAny
    (λ a, result_map (EventSource_event source) (from_reader a))
    (λ a flags, result_map (λ arg, EventSource_keyed_event source arg flags) (from_reader a))
    (λ period a, result_map (EventSource_periodic_event source period) (from_reader a))
    (λ period a flags,
      result_map (λ arg, EventSource_keyed_periodic_event source period arg flags)
        (from_reader a))
    type_name.

Abbreviation EventSourceRegistry := (gmap string EventSourceAny).

(** [add]: a name in use returns the source in the error. *)
Definition EventSourceRegistry_add (source : EventSourceAny) (name : string)
    (self : EventSourceRegistry) : result unit EventSourceAny * EventSourceRegistry :=
  match self !! name with
  | None => (Ok tt, <[name := source]> self)
  | Some _ => (Err source, self)
  end.

Definition EventSourceRegistry_get (name : string) (self : EventSourceRegistry) :
    option EventSourceAny := self !! name.

(** A type-erased query source; the replies are read from the slot given to
    the query and encoded one after the other. *)
Record QuerySourceAny := mkQuerySourceAny {
  qsa_query : bytes → nat → result Action string;
  request_type_name : string;
  reply_type_name : string;
}.

Definition erase_query_source {T R : Type} (from_reader : bytes → result T string)
    (request_type reply_type : string) (source : QuerySource T R) : QuerySourceAny :=
  mkQuerySourceAny
    (λ a slot, result_map (λ arg, QuerySource_query source arg slot) (from_reader a))
    request_type reply_type.

Abbreviation QuerySourceRegistry := (gmap string QuerySourceAny).

Definition QuerySourceRegistry_add (source : QuerySourceAny) (name : string)
    (self : QuerySourceRegistry) : result unit QuerySourceAny * QuerySourceRegistry :=
  match self !! name with
  | None => (Ok tt, <[name := source]> self)
  | Some _ => (Err source, self)
  end.

Definition QuerySourceRegistry_get (name : string) (self : QuerySourceRegistry) :
    option QuerySourceAny := self !! name.
End Sources.
Arguments EventSend : clear implicits.
Arguments SourceFut : clear implicits.
Arguments EventSource : clear implicits.
Arguments mkEventSource {Call Addr T}.
Arguments broadcaster {Call Addr T}.
Arguments EventSourceAny : clear implicits.
Arguments QuerySourceAny : clear implicits.

(** [ReplyReceiver::take_collect]: no replies in the slot, or all of them
    encoded, or the first error. *)
Fixpoint encode_all {R : Type} (into_writer : R → result bytes string) (replies : list R) :
    result (list bytes) string :=
  match replies with
  | [] => Ok []
  | r :: replies =>
      let? b := into_writer r in
      let? bs := encode_all into_writer replies in
      Ok (b :: bs)
  end.

Definition take_collect {R : Type} (into_writer : R → result bytes string)
    (slot : option (list R)) : option (result (list bytes) string) :=
  match slot with
  | None => None
  | Some replies => Some (encode_all into_writer replies)
  end.

(** ** Sinks by name

    The registry holds sinks of several types; each is given here by its
    state and its stream operations, with the encoder of its items. *)

Record EventSinkStreamAny (S A : Type) := mkSinkAny {
  sink_state : S;
  sink_encode : A → result bytes string;
  sink_type_name : string;
}.
Arguments mkSinkAny {S A}.
Arguments sink_state {S A}.
Arguments sink_encode {S A}.
Arguments sink_type_name {S A}.

Section SinkRegistry.
Context {S A : Type} `{!EventSinkStream S A}.
Abbreviation SinkAny := (EventSinkStreamAny S A).

Definition set_sink_state (s : S) (self : SinkAny) : SinkAny :=
  mkSinkAny s (sink_encode self) (sink_type_name self).

Definition sink_any_open (self : SinkAny) : SinkAny :=
  set_sink_state (sink_open (sink_state self)) self.
Definition sink_any_close (self : SinkAny) : SinkAny :=
  set_sink_state (sink_close (sink_state self)) self.

(** [collect]: fold the events, encoding each. *)
Definition sink_any_collect (self : SinkAny) :
    blocking (result (list bytes) string * SinkAny) :=
  match sink_try_fold []
          (λ encoded_events event,
             let? buffer := sink_encode self event in Ok (encoded_events ++ [buffer]))
          (sink_state self) with
  | Returns (r, s) => Returns (r, set_sink_state s self)
  | Blocks => Blocks
  end.

Abbreviation EventSinkRegistry := (gmap string SinkAny).

Definition EventSinkRegistry_add (sink : SinkAny) (name : string) (self : EventSinkRegistry) :
    result unit SinkAny * EventSinkRegistry :=
  match self !! name with
  | None => (Ok tt, <[name := sink]> self)
  | Some _ => (Err sink, self)
  end.

Definition EventSinkRegistry_get_mut (name : string) (self : EventSinkRegistry) :
    option SinkAny := self !! name.
End SinkRegistry.

(** [EndpointRegistry]: the registries that a bench hands to the server. *)
Section EndpointRegistry.
Context {Call Addr QCall S A : Type}.
Abbreviation EventAny := (EventSourceAny Call Addr QCall).
Abbreviation QueryAny := (QuerySourceAny Call Addr QCall).
Abbreviation SinkAny := (EventSinkStreamAny S A).

Record EndpointRegistry := mkEndpointRegistry {
  event_sink_registry : gmap string SinkAny;
  event_source_registry : gmap string EventAny;
  query_source_registry : gmap string QueryAny;
}.

Definition EndpointRegistry_new : EndpointRegistry := mkEndpointRegistry ∅ ∅ ∅.

Definition EndpointRegistry_add_event_source (source : EventAny) (name : string)
    (self : EndpointRegistry) : result unit EventAny * EndpointRegistry :=
  let (r, reg) := EventSourceRegistry_add source name (event_source_registry self) in
  (r, mkEndpointRegistry (event_sink_registry self) reg (query_source_registry self)).

Definition EndpointRegistry_add_query_source (source : QueryAny) (name : string)
    (self : EndpointRegistry) : result unit QueryAny * EndpointRegistry :=
  let (r, reg) := QuerySourceRegistry_add source name (query_source_registry self) in
  (r, mkEndpointRegistry (event_sink_registry self) (event_source_registry self) reg).

Definition EndpointRegistry_add_event_sink (sink : SinkAny) (name : string)
    (self : EndpointRegistry) : result unit SinkAny * EndpointRegistry :=
  let (r, reg) := EventSinkRegistry_add sink name (event_sink_registry self) in
  (r, mkEndpointRegistry reg (event_source_registry self) (query_source_registry self)).
End EndpointRegistry.

(** ** Properties *)

Section Properties.
Context {Call Addr QCall : Type}.
Abbreviation SourceAny := (EventSourceAny Call Addr QCall).
Abbreviation Registry := (gmap string SourceAny).

(** Additions in order; the rejected sources are returned. *)
Fixpoint add_all (l : list (string * SourceAny)) (r : Registry) : list SourceAny * Registry :=
  match l with
  | [] => ([], r)
  | (name, s) :: l =>
      let (res, r) := EventSourceRegistry_add s name r in
      let (rej, r) := add_all l r in
      (match res with Ok _ => rej | Err s => s :: rej end, r)
  end.

Lemma add_all_get l r name :
  (add_all l r).2 !! name =
  match r !! name with
  | Some s => Some s
  | None => snd <$> head (filter (λ p, p.1 = name) l)
  end.
Proof.
  revert r. induction l as [|[n s] l IH]; intros r; simpl.
  { by destruct (r !! name). }
  unfold EventSourceRegistry_add.
  destruct (r !! n) as [s0|] eqn:En.
  - specialize (IH r). destruct (add_all l r) as [rej r']. simpl in *. rewrite IH.
    destruct (r !! name) eqn:E; [done|]. rewrite filter_cons_False; [done|]. simpl. congruence.
  - specialize (IH (<[n := s]> r)). destruct (add_all l (<[n := s]> r)) as [rej r']. simpl in *.
    rewrite IH. destruct (decide (n = name)) as [->|Hne].
    + by rewrite lookup_insert_eq, En, filter_cons_True.
    + rewrite lookup_insert_ne by done. by rewrite filter_cons_False.
Qed.

(** The registry of sources keeps the first source added under each name:
    a later one with the same name is handed back and changes nothing, and
    looking up a name finds the first source added under it or nothing. *)
Lemma registry_first_wins l name :
  EventSourceRegistry_get name (add_all l ∅).2 =
  snd <$> head (filter (λ p, p.1 = name) l).
Proof. unfold EventSourceRegistry_get. by rewrite add_all_get, lookup_empty. Qed.

(** An event of a source reaches, in the order of connection, exactly the
    connected inputs whose filter accepts it, each with its own mapped
    argument; the same for each occurrence of a periodic event, and the keyed
    variants carry a fresh, not cancelled key. *)
Lemma source_event_reaches_inputs {T : Type} (source : EventSource Call Addr T)
    (arg : T) (p : Duration) (flags : KeyFlags) :
  let sends := omap (λ s, s arg) (broadcaster source) in
  let delivers (f : Fut Call Addr (SourceFut Call Addr QCall)) :=
    ∃ b, f = BroadcastFut (EventBroadcast b) ∧ bfut_sends b = sends in
  let '(ka, k, flags1) := EventSource_keyed_event (QCall := QCall) source arg flags in
  let '(kpa, k2, flags2) :=
    EventSource_keyed_periodic_event (QCall := QCall) source p arg flags in
  delivers (Action_into_future (EventSource_event source arg)) ∧
  delivers (Action_into_future (EventSource_periodic_event source p arg)) ∧
  delivers (Action_into_future ka) ∧ delivers (Action_into_future kpa) ∧
  k = length flags ∧ k2 = length flags ∧
  Action_is_cancelled flags1 ka = false ∧ Action_is_cancelled flags2 kpa = false.
Proof.
  simpl.
  assert (∃ b, BroadcastFut (Call := Call) (Addr := Addr)
      (EventBroadcast (QCall := QCall) (broadcast (broadcaster source) arg)) =
      BroadcastFut (EventBroadcast b) ∧
      bfut_sends b = omap (λ s, s arg) (broadcaster source)) as Hb.
  { eexists. split; [done|]. apply broadcast_sends. }
  assert (default false ((flags ++ [false]) !! length flags) = false) as Hf.
  { by rewrite lookup_app_r, Nat.sub_diag by lia. }
  split_and!; [exact Hb..|done|done|exact Hf|exact Hf].
Qed.
End Properties.
