(* ===== verification/Services.v ===== *)
(** * The gRPC services (server/services.rs and server/services/)

    The handlers of the controller, scheduler, monitor and init services, on
    requests and replies as plain data.  The controller owns the simulation;
    the scheduler service acts on the scheduling state it shares with it, so
    its handlers take that state as an argument.  Formatting of durations,
    times and panic payloads is the standard library's and is a parameter. *)

From stdpp Require Import base option list numbers strings pretty gmap relations.
From Stdlib Require Import ZArith Lia.
From S2P Require Import Prelude StableQueue Time Scheduler Sinks Broadcast Sources Simulation IndexedPriorityQueue KeyRegistry.

(** ** Errors *)

Inductive ErrorCode :=
| SimulationNotStarted
| SimulationHalted
| SimulationTerminated
| SimulationDeadlock
| SimulationMessageLoss
| SimulationNoRecipient
| SimulationPanic
| SimulationTimeout
| SimulationOutOfSync
| SimulationBadQuery
| SimulationTimeOutOfRange
| MissingArgument
| InvalidTime
| InvalidPeriodCode
| InvalidDeadlineCode
| InvalidMessage
| InvalidKey
| InitializerPanic
| SourceNotFound
| SinkNotFound.

Record Error := to_error { code : ErrorCode; message : string }.

Definition simulation_not_started_error : Error :=
  to_error SimulationNotStarted "the simulation was not started".

Inductive SimulationError (T Payload : Type) :=
| SimExecutionError (e : ExecutionError T Payload)
| SimSchedulingError (e : SchedulingError).
Arguments SimExecutionError {T Payload}.
Arguments SimSchedulingError {T Payload}.

(** [Display for SchedulingError]. *)
Definition display_scheduling_error (e : SchedulingError) : string :=
  match e with
  | InvalidScheduledTime =>
      "the scheduled time should be in the future of the current simulation time"
  | NullRepetitionPeriod => "the repetition period cannot be zero"
  end.

Section Errors.
Context {T Payload : Type}.
Context (fmt_duration : Duration → string) (fmt_time : T → string).
Context (payload_msg : Payload → option string).

Fixpoint display_deadlock (first_item : bool) (list : list DeadlockInfo) : string :=
  match list with
  | [] => ""
  | info :: list =>
      (if first_item then "" else ", ") +:+
      "'" +:+ info_model info +:+ "' (" +:+ pretty (mailbox_size info) +:+ " item" +:+
      (if (mailbox_size info =? 1)%Z then "" else "s") +:+ " in mailbox)" +:+
      display_deadlock false list
  end.

(** [Display for ExecutionError]. *)
Definition display_execution_error (e : ExecutionError T Payload) : string :=
  match e with
  | Halted => "the simulation has been intentionally stopped"
  | Terminated => "the simulation has been terminated"
  | Deadlock list =>
      "a simulation deadlock has been detected that involves the following models: " +:+
      display_deadlock true list
  | MessageLoss count => pretty count +:+ " messages have been lost"
  | NoRecipient (Some model) =>
      "an attempt by model '" +:+ model +:+
      "' to send a message failed because the recipient's mailbox is no longer alive"
  | NoRecipient None =>
      "an attempt by the scheduler to send a message failed because the recipient's mailbox is no longer alive"
  | Panic model payload =>
      match payload_msg payload with
      | Some msg =>
          "model '" +:+ model +:+ "' has panicked with the message: '" +:+ msg +:+ "'"
      | None => "model '" +:+ model +:+ "' has panicked"
      end
  | Timeout => "the simulation step has failed to complete within the allocated time"
  | OutOfSyncErr lag =>
      "the simulation has lost synchronization and lags behind the clock by '" +:+
      fmt_duration lag +:+ "'"
  | BadQuery =>
      "the query did not return any response; was the target mailbox added to the simulation?"
  | InvalidDeadline time =>
      "the specified deadline (" +:+ fmt_time time +:+
      ") lies in the past of the current simulation time"
  end.

Definition map_execution_error (error : ExecutionError T Payload) : Error :=
  let error_code :=
    match error with
    | Deadlock _ => SimulationDeadlock
    | MessageLoss _ => SimulationMessageLoss
    | NoRecipient _ => SimulationNoRecipient
    | Panic _ _ => SimulationPanic
    | Timeout => SimulationTimeout
    | OutOfSyncErr _ => SimulationOutOfSync
    | BadQuery => SimulationBadQuery
    | Halted => SimulationHalted
    | Terminated => SimulationTerminated
    | InvalidDeadline _ => InvalidDeadlineCode
    end in
  to_error error_code (display_execution_error error).

Definition map_scheduling_error (error : SchedulingError) : Error :=
  let error_code :=
    match error with
    | InvalidScheduledTime => InvalidDeadlineCode
    | NullRepetitionPeriod => InvalidPeriodCode
    end in
  to_error error_code (display_scheduling_error error).

Definition map_simulation_error (error : SimulationError T Payload) : Error :=
  match error with
  | SimExecutionError e => map_execution_error e
  | SimSchedulingError e => map_scheduling_error e
  end.
End Errors.

(** ** Protobuf time stamps and durations: 64-bit seconds, 32-bit
    nanoseconds, both signed *)

Record Timestamp := mkTimestamp { ts_seconds : Z; ts_nanos : Z }.
Record PDuration := mkPDuration { pd_seconds : Z; pd_nanos : Z }.

Definition MIN_SECS : Z := -62135596800.
Definition MAX_SECS : Z := 253402300799.

Section Conversions.
Context {T : Type} `{MonotonicTime T}.

Definition monotonic_to_timestamp (monotonic_time : T) : option Timestamp :=
  let secs := as_secs monotonic_time in
  if negb ((MIN_SECS <=? secs) && (secs <=? MAX_SECS))%Z then None
  else Some (mkTimestamp secs (subsec_nanos monotonic_time)).

Definition timestamp_to_monotonic (timestamp : Timestamp) : option T :=
  if (ts_nanos timestamp <? 0)%Z then None
  else mt_new (ts_seconds timestamp) (ts_nanos timestamp).
End Conversions.

Definition to_positive_duration (duration : PDuration) : outcome (option Duration) :=
  if (pd_seconds duration <? 0)%Z || (pd_nanos duration <? 0)%Z then Done None
  else
    let! d := duration_new (pd_seconds duration) (pd_nanos duration) in Done (Some d).

Definition to_strictly_positive_duration (duration : PDuration) : outcome (option Duration) :=
  if (pd_seconds duration <? 0)%Z || (pd_nanos duration <? 0)%Z ||
     ((pd_seconds duration =? 0)%Z && (pd_nanos duration =? 0)%Z) then Done None
  else
    let! d := duration_new (pd_seconds duration) (pd_nanos duration) in Done (Some d).

(** A deadline in a request. *)
Inductive ReqDeadline :=
| DeadlineTime (time : Timestamp)
| DeadlineDuration (duration : PDuration).

Definition missing_deadline : Error := to_error MissingArgument "missing deadline argument".
Definition bad_nanos : Error := to_error InvalidTime "out-of-range nanosecond field".
Definition past_deadline : Error :=
  to_error InvalidDeadlineCode "the specified deadline lies in the past".
Definition time_out_of_range : Error :=
  to_error SimulationTimeOutOfRange "the final simulation time is out of range".

(** [ok_or]. *)
Definition ok_or {A E : Type} (o : option A) (e : E) : result A E :=
  match o with Some a => Ok a | None => Err e end.

(** ** The controller service *)

Section Controller.
Context {T : Type} `{MonotonicTime T}.
Context {Call Addr QCall Obs Reply Payload : Type}.
Abbreviation SourceFut := (SourceFut Call Addr QCall).
Abbreviation Action := (Action Call Addr SourceFut).
Abbreviation Task := (Task Call Addr SourceFut QCall).
Context {Q : Type} `{!StableQueue Q (T * Z) Action}.
Abbreviation Shared := (Shared Q T).
Context {E : Type} `{!Executor E Shared Task Obs (list Reply) Payload}.
Context {C : Type} `{!Clock C T}.
Context (is_send_error : Payload → bool).
Context (fmt_duration : Duration → string) (fmt_time : T → string).
Context (payload_msg : Payload → option string).
Context (encode_reply : Reply → result bytes string).
Abbreviation Simulation := (Simulation E C Shared Obs).
Abbreviation EventRegistry := (gmap string (EventSourceAny Call Addr QCall)).
Abbreviation QueryRegistry := (gmap string (QuerySourceAny Call Addr QCall)).
Abbreviation map_execution_error :=
  (map_execution_error fmt_duration fmt_time payload_msg).

Inductive ControllerService :=
| CNotStarted
| CStarted (simulation : Simulation) (event_source_registry : EventRegistry)
    (query_source_registry : QueryRegistry).

Definition controller_step (self : ControllerService) :
    outcome (result Timestamp Error * ControllerService) :=
  match self with
  | CStarted simulation er qr =>
      let! (r, simulation) := step is_send_error simulation in
      let reply :=
        match r with
        | Ok _ =>
            match monotonic_to_timestamp (Simulation_time simulation) with
            | Some timestamp => Ok timestamp
            | None => Err time_out_of_range
            end
        | Err e => Err (map_execution_error e)
        end in
      Done (reply, CStarted simulation er qr)
  | CNotStarted => Done (Err simulation_not_started_error, self)
  end.

(** The reply of [step_until] once the simulation has stopped. *)
Definition final_time (simulation : Simulation) : result Timestamp Error :=
  ok_or (monotonic_to_timestamp (Simulation_time simulation)) time_out_of_range.

Definition controller_step_until (meanwhile : Shared → Shared) (fuel : nat)
    (deadline : option ReqDeadline) (self : ControllerService) : outcome (result Timestamp Error * ControllerService) :=
  match self with
  | CStarted simulation er qr =>
      match deadline with
      | None => Done (Err missing_deadline, self)
      | Some (DeadlineTime time) =>
          match timestamp_to_monotonic (T := T) time with
          | None => Done (Err bad_nanos, self)
          | Some time =>
              let! (r, simulation) := step_until is_send_error meanwhile fuel time simulation in
              match r with
              | Err _ => Done (Err past_deadline, CStarted simulation er qr)
              | Ok _ => Done (final_time simulation, CStarted simulation er qr)
              end
          end
      | Some (DeadlineDuration duration) =>
          let! d := to_positive_duration duration in
          match d with
          | None => Done (Err past_deadline, self)
          | Some duration =>
              let! (r, simulation) := step_until is_send_error meanwhile fuel duration simulation in
              match r with
              | Err e => Done (Err (map_execution_error e), CStarted simulation er qr)
              | Ok _ => Done (final_time simulation, CStarted simulation er qr)
              end
          end
      end
  | CNotStarted => Done (Err simulation_not_started_error, self)
  end.

(** The message is the literal text of the source, braces included. *)
Definition no_source : Error :=
  to_error SourceNotFound "no source is registered with the name '{}'".

Definition bad_message (what type_name e : string) : Error :=
  to_error InvalidMessage
    ("the " +:+ what +:+ " could not be deserialized as type '" +:+ type_name +:+ "': " +:+ e).

Definition controller_process_event (source_name : string) (event : bytes)
    (self : ControllerService) : outcome (result unit Error * ControllerService) :=
  match self with
  | CStarted simulation er qr =>
      match EventSourceRegistry_get source_name er with
      | None => Done (Err no_source, self)
      | Some source =>
          match esa_event source event with
          | Err e => Done (Err (bad_message "event" (event_type_name source) e), self)
          | Ok action =>
              let! (r, simulation) := process is_send_error action simulation in
              Done (result_map_err map_execution_error r, CStarted simulation er qr)
          end
      end
  | CNotStarted => Done (Err simulation_not_started_error, self)
  end.

Definition no_reply : Error :=
  to_error SimulationBadQuery
    "a reply to the query was expected but none was available; maybe the target model was not added to the simulation?".

Definition bad_reply (type_name e : string) : Error :=
  to_error InvalidMessage
    ("the reply could not be serialized as type '" +:+ type_name +:+ "': " +:+ e).

Definition controller_process_query (source_name : string) (request : bytes)
    (self : ControllerService) : outcome (result (list bytes) Error * ControllerService) :=
  match self with
  | CStarted simulation er qr =>
      match QuerySourceRegistry_get source_name qr with
      | None => Done (Err no_source, self)
      | Some source =>
          let (slot, e) := slot_new (executor simulation) in
          match qsa_query source request slot with
          | Err e => Done (Err (bad_message "request" (request_type_name source) e), self)
          | Ok query =>
              let simulation := set_executor e simulation in
              let! (r, simulation) := process is_send_error query simulation in
              let self := CStarted simulation er qr in
              match r with
              | Err e => Done (Err (map_execution_error e), self)
              | Ok _ =>
                  match take_collect encode_reply
                          (slot_try_read (executor simulation) slot) with
                  | None => Done (Err no_reply, self)
                  | Some replies =>
                      Done (result_map_err (bad_reply (reply_type_name source)) replies,
                            self)
                  end
              end
          end
      end
  | CNotStarted => Done (Err simulation_not_started_error, self)
  end.
End Controller.

(** ** The scheduler service *)

Record EventKey := mkEventKey { subkey1 : Z; subkey2 : Z }.

Record ScheduleEventRequest := mkScheduleRequest {
  req_source_name : string;
  req_event : bytes;
  req_deadline : option ReqDeadline;
  req_period : option PDuration;
  req_with_key : bool;
}.

Section SchedulerService.
Context {T : Type} `{MonotonicTime T}.
Context {Call Addr QCall : Type}.
Abbreviation SourceFut := (SourceFut Call Addr QCall).
Abbreviation Action := (Action Call Addr SourceFut).
Context {Q : Type} `{!StableQueue Q (T * Z) Action}.
Abbreviation Shared := (Shared Q T).
Abbreviation EventRegistry := (gmap string (EventSourceAny Call Addr QCall)).

Inductive SchedulerService :=
| SNotStarted
| SStarted (event_source_registry : EventRegistry) (key_registry : KeyRegistry (T := T)).

Definition scheduler_time (self : SchedulerService) (sh : Shared) : result Timestamp Error :=
  match self with
  | SStarted _ _ => ok_or (monotonic_to_timestamp (Scheduler_time sh)) time_out_of_range
  | SNotStarted => Err simulation_not_started_error
  end.

Definition bad_period : Error :=
  to_error InvalidPeriodCode "the specified event period is not strictly positive".
Definition no_event_source : Error :=
  to_error SourceNotFound "no event source is registered with the name '{}'".
Definition deadline_not_future : Error :=
  to_error InvalidDeadlineCode "the specified scheduling deadline is not in the future".

(** [request.period.map(..).transpose()]. *)
Definition request_period (period : option PDuration) :
    outcome (result (option Duration) Error) :=
  match period with
  | None => Done (Ok None)
  | Some p =>
      let! d := to_strictly_positive_duration p in
      match d with
      | Some d => Done (Ok (Some d))
      | None => Done (Err bad_period)
      end
  end.

(** The action of the request, and its key if one is asked for. *)
Definition request_action (source : EventSourceAny Call Addr QCall) (with_key : bool)
    (period : option Duration) (event : bytes) (flags : KeyFlags) :
    result (Action * option ActionKey * KeyFlags) string :=
  match with_key, period with
  | false, None => result_map (λ a, (a, None, flags)) (esa_event source event)
  | false, Some period =>
      result_map (λ a, (a, None, flags)) (esa_periodic_event source period event)
  | true, None =>
      result_map (λ '(a, k, flags), (a, Some k, flags))
        (esa_keyed_event source event flags)
  | true, Some period =>
      result_map (λ '(a, k, flags), (a, Some k, flags))
        (esa_keyed_periodic_event source period event flags)
  end.

Definition request_deadline (deadline : option ReqDeadline) (now : T) :
    outcome (result T Error) :=
  match deadline with
  | None => Done (Err missing_deadline)
  | Some (DeadlineTime time) => Done (ok_or (timestamp_to_monotonic time) bad_nanos)
  | Some (DeadlineDuration duration) =>
      let! d := to_strictly_positive_duration duration in
      match d with
      | None => Done (Err deadline_not_future)
      | Some d => let! t := mt_add now d in Done (Ok t)
      end
  end.

(** The registration of the key of a request. *)
Definition register_key (key : option ActionKey) (periodic : bool) (deadline now : T)
    (kr : KeyRegistry (T := T)) : outcome (option KeyRegistryId * KeyRegistry (T := T)) :=
  match key with
  | None => Done (None, kr)
  | Some key =>
      let! kr := remove_expired_keys now kr in
      let! (id, kr) :=
        if periodic then insert_eternal_key key kr else insert_key key deadline kr in
      Done (Some id, kr)
  end.

Definition scheduler_schedule_event (request : ScheduleEventRequest)
    (self : SchedulerService) (sh : Shared) :
    outcome (result (option KeyRegistryId) Error * SchedulerService * Shared) :=
  match self with
  | SStarted er kr =>
      let! period := request_period (req_period request) in
      match period with
      | Err e => Done (Err e, self, sh)
      | Ok period =>
          match EventSourceRegistry_get (req_source_name request) er with
          | None => Done (Err no_event_source, self, sh)
          | Some source =>
              match request_action source (req_with_key request) period (req_event request)
                      (key_flags sh) with
              | Err e =>
                  Done (Err (bad_message "event" (event_type_name source) e), self, sh)
              | Ok (action, action_key, flags) =>
                  let sh := set_flags flags sh in
                  let! deadline := request_deadline (req_deadline request) (time sh) in
                  match deadline with
                  | Err e => Done (Err e, self, sh)
                  | Ok deadline =>
                      let! (key_id, kr) :=
                        register_key action_key (bool_decide (is_Some period)) deadline
                          (time sh) kr in
                      let! (r, sh) := Scheduler_schedule deadline action sh in
                      let self := SStarted er kr in
                      match r with
                      | Err e => Done (Err (map_scheduling_error e), self, sh)
                      | Ok _ => Done (Ok key_id, self, sh)
                      end
                  end
              end
          end
      end
  | SNotStarted => Done (Err simulation_not_started_error, self, sh)
  end.

(** The reply: the identifier is sent as two integers. *)
Definition schedule_event_reply (r : result (option KeyRegistryId) Error) :
    outcome (result (option EventKey) Error) :=
  match r with
  | Ok (Some key_id) =>
      let (subkey1, subkey2) := into_raw_parts key_id in
      let! _ := rust_assert (Z.of_nat subkey1 <=? u64_max)%Z in
      Done (Ok (Some (mkEventKey (Z.of_nat subkey1) subkey2)))
  | Ok None => Done (Ok None)
  | Err e => Done (Err e)
  end.

Definition missing_key : Error := to_error MissingArgument "missing key argument".
Definition invalid_key : Error := to_error InvalidKey "invalid or expired event key".

Definition scheduler_cancel_event (key : option EventKey) (self : SchedulerService)
    (sh : Shared) : outcome (result unit Error * SchedulerService * Shared) :=
  match self with
  | SStarted er kr =>
      match key with
      | None => Done (Err missing_key, self, sh)
      | Some key =>
          let key_id := from_raw_parts (Z.to_nat (subkey1 key)) (subkey2 key) in
          let! kr := remove_expired_keys (time sh) kr in
          let! (k, kr) := extract_key key_id kr in
          let self := SStarted er kr in
          match k with
          | None => Done (Err invalid_key, self, sh)
          | Some key => Done (Ok tt, self, set_flags (ActionKey_cancel (key_flags sh) key) sh)
          end
      end
  | SNotStarted => Done (Err simulation_not_started_error, self, sh)
  end.

Definition scheduler_halt (self : SchedulerService) (sh : Shared) : result unit Error * Shared :=
  match self with
  | SStarted _ _ => (Ok tt, Scheduler_halt sh)
  | SNotStarted => (Err simulation_not_started_error, sh)
  end.
End SchedulerService.

(** ** The monitor service *)

Section MonitorService.
Context {S A : Type} `{!EventSinkStream S A}.
Abbreviation SinkRegistry := (gmap string (EventSinkStreamAny S A)).

Inductive MonitorService :=
| MStarted (event_sink_registry : SinkRegistry)
| MNotStarted.

Definition no_sink (sink_name : string) : Error :=
  to_error SinkNotFound ("no sink is registered with the name '" +:+ sink_name +:+ "'").

Definition bad_event (type_name e : string) : Error :=
  to_error InvalidMessage
    ("the event could not be serialized from type '" +:+ type_name +:+ "': " +:+ e).

(** A sink that is borrowed mutably is updated in the registry. *)
Definition monitor_read_events (sink_name : string) (self : MonitorService) :
    blocking (result (list bytes) Error * MonitorService) :=
  match self with
  | MStarted reg =>
      match EventSinkRegistry_get_mut sink_name reg with
      | None => Returns (Err (no_sink sink_name), self)
      | Some sink =>
          match sink_any_collect sink with
          | Returns (r, sink') =>
              Returns (result_map_err (bad_event (sink_type_name sink)) r,
                       MStarted (<[sink_name := sink']> reg))
          | Blocks => Blocks
          end
      end
  | MNotStarted => Returns (Err simulation_not_started_error, self)
  end.

Definition monitor_open_sink (sink_name : string) (self : MonitorService) :
    result unit Error * MonitorService :=
  match self with
  | MStarted reg =>
      match EventSinkRegistry_get_mut sink_name reg with
      | Some sink => (Ok tt, MStarted (<[sink_name := sink_any_open sink]> reg))
      | None => (Err (no_sink sink_name), self)
      end
  | MNotStarted => (Err simulation_not_started_error, self)
  end.

Definition monitor_close_sink (sink_name : string) (self : MonitorService) :
    result unit Error * MonitorService :=
  match self with
  | MStarted reg =>
      match EventSinkRegistry_get_mut sink_name reg with
      | Some sink => (Ok tt, MStarted (<[sink_name := sink_any_close sink]> reg))
      | None => (Err (no_sink sink_name), self)
      end
  | MNotStarted => (Err simulation_not_started_error, self)
  end.
End MonitorService.

(** ** The init service

    [sim_gen] is the user's closure: it may fail to decode its configuration,
    fail to build a bench, or panic, with or without a message. *)

Inductive gen_outcome (A T Payload : Type) :=
| GenPanicked (msg : option string)
| GenUndecodable (e : string)
| GenResult (r : result A (SimulationError T Payload)).
Arguments GenPanicked {A T Payload}.
Arguments GenUndecodable {A T Payload}.
Arguments GenResult {A T Payload}.

Section InitService.
Context {T Payload Bench : Type}.
Context (fmt_duration : Duration → string) (fmt_time : T → string).
Context (payload_msg : Payload → option string).
Context (sim_gen : bytes → gen_outcome Bench T Payload).

Definition init_service_init (cfg : bytes) : result unit Error * option Bench :=
  let reply :=
    match sim_gen cfg with
    | GenPanicked panic_msg =>
        let error_msg :=
          match panic_msg with
          | Some m =>
              "the simulation initializer has panicked with the message `" +:+ m +:+ "`"
          | None => "the simulation initializer has panicked"
          end in
        Err (to_error InitializerPanic error_msg)
    | GenUndecodable e =>
        Err (to_error InvalidMessage
               ("the initializer configuration could not be deserialized: " +:+ e))
    | GenResult (Err e) =>
        Err (map_simulation_error fmt_duration fmt_time payload_msg e)
    | GenResult (Ok bench) => Ok bench
    end in
  match reply with
  | Ok bench => (Ok tt, Some bench)
  | Err e => (Err e, None)
  end.
End InitService.
