(* ===== verification/ServiceFacts.v ===== *)
(** * Properties of the gRPC services

    The conversions at the boundary, the scheduler service as a client of the
    scheduler and the key registry, the controller's replies and the
    monitor's reads, on the definitions of [Services.v]. *)

From stdpp Require Import base option list numbers strings gmap relations sorting.
From Stdlib Require Import ZArith Lia.
From S2P Require Import Prelude StableQueue PriorityQueue Time SeqFuture Scheduler Sinks Broadcast Sources Simulation Stepping IndexedPriorityQueue IPQSift IPQFacts KeyRegistry Services.

(** ** Conversions *)

(** The range of the fields of a protobuf duration. *)
Definition pduration_range (d : PDuration) : Prop :=
  (i64_min ≤ pd_seconds d ≤ i64_max)%Z ∧ (- 2 ^ 31 ≤ pd_nanos d < 2 ^ 31)%Z.

#[export] Instance pduration_range_dec d : Decision (pduration_range d).
Proof. unfold pduration_range. apply _. Defined.

Lemma duration_new_small s n :
  (0 ≤ s ≤ i64_max)%Z → (0 ≤ n < 2 ^ 31)%Z →
  ∃ d, duration_new s n = Done d ∧ duration_wf d ∧
    dur_total d = (s * NANOS_PER_SEC + n)%Z.
Proof.
  intros Hs Hn. unfold duration_new.
  assert (0 ≤ n / NANOS_PER_SEC ≤ 2)%Z as Hq.
  { unfold NANOS_PER_SEC. split; [apply Z.div_pos; lia|].
    apply Z.lt_succ_r, Z.div_lt_upper_bound; lia. }
  rewrite (proj2 (Z.leb_le _ _)); [|unfold i64_max, u64_max in *; lia].
  eexists. split; [done|]. unfold duration_wf, dur_total; simpl.
  pose proof (Z.mod_pos_bound n NANOS_PER_SEC ltac:(done)).
  pose proof (Z.div_mod n NANOS_PER_SEC ltac:(done)).
  unfold i64_max, u64_max, NANOS_PER_SEC in *. lia.
Qed.

Lemma dur_zero_total d : duration_wf d → is_zero d = true ↔ dur_total d = 0%Z.
Proof. unfold duration_wf, is_zero, dur_total, NANOS_PER_SEC. lia. Qed.

Lemma to_positive_duration_cases d :
  pduration_range d →
  if decide (pd_seconds d < 0 ∨ pd_nanos d < 0)%Z then to_positive_duration d = Done None
  else ∃ d', to_positive_duration d = Done (Some d') ∧ duration_wf d' ∧
    dur_total d' = (pd_seconds d * NANOS_PER_SEC + pd_nanos d)%Z.
Proof.
  intros [Hs Hn]. unfold to_positive_duration. case_decide as Hd.
  - assert ((pd_seconds d <? 0)%Z || (pd_nanos d <? 0)%Z = true) as -> by lia. done.
  - assert ((pd_seconds d <? 0)%Z || (pd_nanos d <? 0)%Z = false) as -> by lia.
    destruct (duration_new_small (pd_seconds d) (pd_nanos d)) as (d' & -> & ? & ?);
      [lia..|]. simpl. eauto.
Qed.

Lemma to_strictly_positive_duration_cases d :
  pduration_range d →
  if decide (pd_seconds d < 0 ∨ pd_nanos d < 0 ∨
             pd_seconds d = 0 ∧ pd_nanos d = 0)%Z
  then to_strictly_positive_duration d = Done None
  else ∃ d', to_strictly_positive_duration d = Done (Some d') ∧ duration_wf d' ∧
    is_zero d' = false ∧ dur_total d' = (pd_seconds d * NANOS_PER_SEC + pd_nanos d)%Z.
Proof.
  intros [Hs Hn]. unfold to_strictly_positive_duration.
  set (b := (_ || _ || _)). case_decide as Hd.
  - assert (b = true) as -> by (unfold b; lia). done.
  - assert (b = false) as -> by (unfold b; lia).
    destruct (duration_new_small (pd_seconds d) (pd_nanos d)) as (d' & -> & Hwf & Ht);
      [lia..|]. simpl. exists d'. split_and!; [done|done| |done].
    apply not_true_iff_false. rewrite dur_zero_total by done.
    unfold NANOS_PER_SEC in Ht. lia.
Qed.

Section Timestamps.
Context {T : Type} `{MonotonicTimeLaws T}.

Lemma monotonic_to_timestamp_inv (t : T) ts :
  monotonic_to_timestamp t = Some ts ↔
  (MIN_SECS ≤ as_secs t ≤ MAX_SECS)%Z ∧ ts = mkTimestamp (as_secs t) (subsec_nanos t).
Proof.
  unfold monotonic_to_timestamp.
  destruct ((MIN_SECS <=? as_secs t)%Z && (as_secs t <=? MAX_SECS)%Z) eqn:Er; simpl.
  - split; [intros [= <-]; split; [lia|done]|]. by intros [_ ->].
  - split; [done|]. intros [? _]. lia.
Qed.

Lemma timestamp_round_trip (t : T) ts :
  timestamp_to_monotonic ts = Some t →
  (MIN_SECS ≤ ts_seconds ts ≤ MAX_SECS)%Z → monotonic_to_timestamp t = Some ts.
Proof.
  unfold timestamp_to_monotonic. destruct (ts_nanos ts <? 0)%Z; [done|].
  intros [Hs Hn]%mt_new_parts Hr. apply monotonic_to_timestamp_inv.
  rewrite Hs, Hn. destruct ts. done.
Qed.

(** Protobuf time stamps and simulation times round trip.  A time that can
    be sent reads back as itself; a valid time stamp of the protobuf range
    reads as the time that is sent as that time stamp; and a time stamp is
    refused exactly when its nanosecond field is out of range. *)
Lemma timestamp_conversions_round_trip :
  (∀ (t : T) ts, monotonic_to_timestamp t = Some ts → timestamp_to_monotonic ts = Some t) ∧
  (∀ ts, (MIN_SECS ≤ ts_seconds ts ≤ MAX_SECS)%Z → (0 ≤ ts_nanos ts < NANOS_PER_SEC)%Z →
     ∃ t : T, timestamp_to_monotonic ts = Some t ∧ monotonic_to_timestamp t = Some ts) ∧
  (∀ ts, (i64_min ≤ ts_seconds ts ≤ i64_max)%Z →
     timestamp_to_monotonic (T := T) ts = None ↔
     ¬ (0 ≤ ts_nanos ts < NANOS_PER_SEC)%Z).
Proof.
  assert (∀ ts, (i64_min ≤ ts_seconds ts ≤ i64_max)%Z →
     timestamp_to_monotonic (T := T) ts = None ↔
     ¬ (0 ≤ ts_nanos ts < NANOS_PER_SEC)%Z) as Hnone.
  { intros ts Hs. unfold timestamp_to_monotonic. destruct (Z.ltb_spec (ts_nanos ts) 0).
    { split; [lia|done]. }
    pose proof (mt_new_is_Some (T := T) (ts_seconds ts) (ts_nanos ts) Hs) as Hn.
    destruct (mt_new (ts_seconds ts) (ts_nanos ts)).
    - split; [done|]. intros []. split; [lia|]. by apply Hn.
    - split; [|done]. intros _ [? ?]. destruct (proj2 (Hn ltac:(lia))) as [? ?]; done. }
  split_and!; [| |exact Hnone].
  - intros t ts [_ ->]%monotonic_to_timestamp_inv. unfold timestamp_to_monotonic. simpl.
    pose proof (mt_parts_range t) as [_ [Hn _]].
    rewrite (proj2 (Z.ltb_ge _ _)) by done. apply mt_new_of_parts.
  - intros ts Hs Hn. destruct (timestamp_to_monotonic (T := T) ts) as [t|] eqn:Et.
    + exists t. split; [done|]. by apply timestamp_round_trip.
    + apply Hnone in Et; [done|]. unfold MIN_SECS, MAX_SECS, i64_min, i64_max in *. lia.
Qed.
End Timestamps.

(** Durations of requests.  For every value of the 64-bit and 32-bit
    fields the conversions return: a negative field (or, for the strict one, a
    zero duration) is refused, anything else becomes the duration of the same
    number of nanoseconds, with nanosecond fields of a second or more carried
    over; the strict conversion never gives a zero duration. *)
Lemma request_durations_exact d :
  pduration_range d →
  let total := (pd_seconds d * NANOS_PER_SEC + pd_nanos d)%Z in
  (if decide (pd_seconds d < 0 ∨ pd_nanos d < 0)%Z then to_positive_duration d = Done None
   else ∃ d', to_positive_duration d = Done (Some d') ∧ duration_wf d' ∧
     dur_total d' = total) ∧
  (if decide (pd_seconds d < 0 ∨ pd_nanos d < 0 ∨
              pd_seconds d = 0 ∧ pd_nanos d = 0)%Z
   then to_strictly_positive_duration d = Done None
   else ∃ d', to_strictly_positive_duration d = Done (Some d') ∧ duration_wf d' ∧
     is_zero d' = false ∧ dur_total d' = total).
Proof.
  intros Hr. split; [by apply to_positive_duration_cases|].
  by apply to_strictly_positive_duration_cases.
Qed.

Lemma request_durations_exact_witness :
  ∃ d', to_strictly_positive_duration (mkPDuration 1 2000000000) = Done (Some d') ∧
    duration_wf d' ∧ is_zero d' = false ∧ dur_total d' = 3000000000%Z.
Proof.
  refine (proj2 (request_durations_exact (mkPDuration 1 2000000000) _)).
  split; split; vm_compute; (discriminate || reflexivity).
Defined.

Lemma timestamp_conversions_round_trip_witness :
  ∃ t : TaiTime, timestamp_to_monotonic (mkTimestamp (-1) 5) = Some t ∧
    monotonic_to_timestamp t = Some (mkTimestamp (-1) 5).
Proof.
  apply (proj1 (proj2 (timestamp_conversions_round_trip (T := TaiTime)))
           (mkTimestamp (-1) 5)).
  - split; vm_compute; discriminate.
  - split; vm_compute; [discriminate|reflexivity].
Defined.

(** ** The scheduler service *)

Section SchedulerFacts.
Context {T : Type} `{MonotonicTimeLaws T}.
Context {Call Addr QCall : Type}.
Abbreviation SourceFut := (SourceFut Call Addr QCall).
Abbreviation Action := (Action Call Addr SourceFut).
Abbreviation SourceAny := (EventSourceAny Call Addr QCall).
Context {Q : Type} `{!StableQueue Q (T * Z) Action} `{!StableQueueLaws Q (T * Z) Action}.
Abbreviation Shared := (Shared Q T).
Abbreviation KeyRegistry := (KeyRegistry (T := T)).
Abbreviation Service := (SchedulerService (T := T) (Call := Call) (Addr := Addr)
  (QCall := QCall)).
Implicit Types (sh : Shared) (kr : KeyRegistry) (er : gmap string SourceAny).

(** A source of the registry is an event source behind its decoder. *)
Definition real_source (s : SourceAny) : Prop :=
  ∃ (A : Type) from_reader name (src : EventSource Call Addr A),
    s = erase_event_source from_reader name src.

(** The fields of a request are machine integers. *)
Definition request_range (request : ScheduleEventRequest) : Prop :=
  (∀ p, req_period request = Some p → pduration_range p) ∧
  (∀ d, req_deadline request = Some (DeadlineDuration d) → pduration_range d).

(** The invariant of a started service. *)
Definition service_inv (self : Service) : Prop :=
  match self with
  | SNotStarted => True
  | SStarted er kr => map_Forall (λ _, real_source) er ∧ rtc ipq_step ipq_new kr
  end.

Lemma registry_wf kr : rtc ipq_step ipq_new kr → ipq_wf kr.
Proof. intros Hr. by destruct (ipq_steps_inv _ _ Hr ipq_new_wf). Qed.

Lemma remove_expired_steps fuel now kr kr' :
  remove_expired_loop fuel now kr = Done kr' → rtc ipq_step kr kr'.
Proof.
  revert kr. induction fuel as [|fuel IH]; intros kr; simpl; [done|].
  destruct (peek_key kr) as [x|]; [|by intros [= <-]].
  destruct (now ≤?ₒ x); [by intros [= <-]|].
  destruct (ipq_pull kr) as [[r kr1]| |] eqn:Ep; simpl; [|done..].
  intros Hl. eapply rtc_l; [by eapply istep_pull|]. by apply IH.
Qed.

Lemma extract_key_step id kr k kr' : extract_key id kr = Done (k, kr') → ipq_step kr kr'.
Proof.
  unfold extract_key. destruct (extract id kr) as [[r q]| |] eqn:Ex; simpl; [|done..].
  intros [= _ <-]. by eapply istep_extract.
Qed.

(** Registration: the key is stored until its deadline, or for ever when the
    event is periodic. *)
Lemma register_key_spec key periodic deadline now kr id kr' :
  rtc ipq_step ipq_new kr →
  register_key key periodic deadline now kr = Done (id, kr') →
  rtc ipq_step ipq_new kr' ∧
  match key with
  | None => id = None ∧ kr' = kr
  | Some key => ∃ i, id = Some i ∧
      (i, (if periodic then MT_MAX else deadline, key)) ∈ entries kr'
  end.
Proof.
  intros Hr. unfold register_key. destruct key as [key|]; [|by intros [= <- <-]].
  destruct (remove_expired_keys now kr) as [kr1| |] eqn:Er; simpl; [|done..].
  assert (rtc ipq_step ipq_new kr1) as Hr1.
  { etrans; [exact Hr|]. by eapply remove_expired_steps. }
  assert ((if periodic then insert_eternal_key key kr1 else insert_key key deadline kr1) =
          insert_key key (if periodic then MT_MAX else deadline) kr1) as -> by by destruct periodic.
  destruct (insert_key _ _ kr1) as [[i kr2]| |] eqn:Ei; simpl; [|done..].
  intros [= <- <-]. split.
  - eapply rtc_r; [exact Hr1|]. by eapply istep_insert.
  - exists i. split; [done|].
    destruct (insert_key_entries _ _ _ _ _ (registry_wf _ Hr1) Ei) as [_ ->]. by left.
Qed.

Lemma request_period_spec period p :
  (∀ p, period = Some p → pduration_range p) →
  request_period period = Done (Ok (Some p)) → duration_wf p ∧ is_zero p = false.
Proof.
  intros Hr. unfold request_period. destruct period as [d|]; [|done].
  pose proof (to_strictly_positive_duration_cases d (Hr d eq_refl)) as Hd.
  case_decide; [by rewrite Hd|]. destruct Hd as (d' & -> & ? & ? & _). simpl.
  by intros [= <-].
Qed.

(** The action of a request: its period can be honoured, and with a key, the
    key is fresh and guards the action. *)
Lemma request_action_spec source with_key period event flags a k fl :
  real_source source →
  (∀ p, period = Some p → duration_wf p ∧ is_zero p = false) →
  request_action source with_key period event flags = Ok (a, k, fl) →
  action_ok a ∧
  if with_key then ∃ key, k = Some key ∧ key = length flags ∧ fl = flags ++ [false] ∧
    ∀ f, Action_is_cancelled f a = ActionKey_is_cancelled f key
  else k = None ∧ fl = flags.
Proof.
  intros (A & rd & n & src & ->) Hp. unfold request_action, erase_event_source.
  destruct with_key, period as [p|]; simpl; destruct (rd event); simpl; try done;
    intros [= <- <- <-]; (split; [try exact I; exact (Hp p eq_refl)|]); eauto 10.
Qed.

(** The branches of [schedule_event]. *)
Lemma schedule_event_cases request er kr sh r self' sh' :
  scheduler_schedule_event request (SStarted er kr) sh = Done (r, self', sh') →
  (∃ e fl, r = Err e ∧ self' = SStarted er kr ∧ sh' = set_flags fl sh ∧
     (fl = key_flags sh ∨ ∃ source p a k, request_action source (req_with_key request) p
        (req_event request) (key_flags sh) = Ok (a, k, fl) ∧
        er !! req_source_name request = Some source ∧
        request_period (req_period request) = Done (Ok p))) ∨
  ∃ period source a k fl t id kr' r0,
    request_period (req_period request) = Done (Ok period) ∧
    er !! req_source_name request = Some source ∧
    request_action source (req_with_key request) period (req_event request) (key_flags sh) =
      Ok (a, k, fl) ∧
    request_deadline (req_deadline request) (time sh) = Done (Ok t) ∧
    register_key k (bool_decide (is_Some period)) t (time sh) kr = Done (id, kr') ∧
    Scheduler_schedule t a (set_flags fl sh) = Done (r0, sh') ∧ self' = SStarted er kr' ∧
    r = match r0 with Ok _ => Ok id | Err e => Err (map_scheduling_error e) end.
Proof.
  assert (∀ sh, sh = set_flags (key_flags sh) sh) as Hid by by intros [].
  unfold scheduler_schedule_event, EventSourceRegistry_get.
  destruct (request_period _) as [[period|e]| |]; simpl; [|intros; simplify_eq|done..].
  2: { left. eauto 10. }
  destruct (er !! _) as [source|]; [|intros; simplify_eq; left; eauto 10].
  destruct (request_action _ _ _ _ _) as [[[a k] fl]|e] eqn:Ea; simpl;
    [|intros; simplify_eq; left; eauto 10].
  destruct (request_deadline _ _) as [[t|e]| |]; simpl; [|intros; simplify_eq|done..].
  2: { left. eauto 20. }
  destruct (register_key _ _ _ _ _) as [[id kr']| |] eqn:Ek; simpl; [|done..].
  destruct (Scheduler_schedule _ _ _) as [[r0 sh1]| |] eqn:Es; simpl; [|done..].
  intros Hr. right. exists period, source, a, k, fl, t, id, kr', r0.
  destruct r0; simplify_eq; done.
Qed.

Lemma schedule_event_action request er kr sh period source a k fl :
  service_inv (SStarted er kr) → request_range request →
  request_period (req_period request) = Done (Ok period) →
  er !! req_source_name request = Some source →
  request_action source (req_with_key request) period (req_event request) (key_flags sh) =
    Ok (a, k, fl) →
  action_ok a ∧
  if req_with_key request then ∃ key, k = Some key ∧ key = length (key_flags sh) ∧
    fl = key_flags sh ++ [false] ∧
    ∀ f, Action_is_cancelled f a = ActionKey_is_cancelled f key
  else k = None ∧ fl = key_flags sh.
Proof.
  intros [Her _] [Hp _] Hperiod Hs Ha.
  eapply request_action_spec; [exact (map_Forall_lookup_1 _ _ _ _ Her Hs)| |exact Ha].
  intros p ->. by eapply request_period_spec.
Qed.

Lemma action_flags_grow request er kr sh period source a k fl :
  service_inv (SStarted er kr) → request_range request →
  request_period (req_period request) = Done (Ok period) →
  er !! req_source_name request = Some source →
  request_action source (req_with_key request) period (req_event request) (key_flags sh) =
    Ok (a, k, fl) →
  flags_grow (key_flags sh) fl.
Proof.
  intros Hinv Hr Hp Hs Ha.
  destruct (schedule_event_action _ _ _ _ _ _ _ _ _ Hinv Hr Hp Hs Ha) as [_ Hk].
  destruct (req_with_key request).
  - destruct Hk as (key & _ & _ & -> & _). apply flags_grow_new.
  - by destruct Hk as [_ ->].
Qed.

(** The scheduler service as a client of the scheduler.  Every request to
    schedule an event, with any field values, keeps the invariants of the
    scheduler and of the key registry, the time and the cancelled keys; a
    success queues exactly one action strictly in the future, as the
    scheduler's own, and gives an identifier exactly when one is asked for;
    an error queues nothing. *)
Lemma schedule_event_request_safe request (self : Service) sh r self' sh' :
  service_inv self → sched_inv sh → request_range request →
  scheduler_schedule_event request self sh = Done (r, self', sh') →
  service_inv self' ∧ sched_inv sh' ∧ time sh' = time sh ∧
  flags_grow (key_flags sh) (key_flags sh') ∧
  match r with
  | Ok id => (is_Some id ↔ req_with_key request = true) ∧
      ∃ t a, time sh <ₒ t ∧ action_ok a ∧
        queued sh' = stable_insert (t, GLOBAL_SCHEDULER_ORIGIN_ID) a (queued sh)
  | Err _ => queued sh' = queued sh
  end.
Proof.
  intros Hinv Hsh Hr Hs. destruct self as [|er kr].
  { simpl in Hs. by simplify_eq. }
  apply schedule_event_cases in Hs as [(e & fl & -> & -> & -> & Hfl)|
    (period & source & a & k & fl & t & id & kr' & r0 & Hp & Hget & Ha & Hd & Hk & Hs & -> & ->)].
  { split_and!; [done|by apply set_flags_inv|done| |done]. simpl.
    destruct Hfl as [->|(source & p & a & k & Ha & Hget & Hp)]; [done|].
    by eapply action_flags_grow. }
  pose proof (action_flags_grow _ _ _ _ _ _ _ _ _ Hinv Hr Hp Hget Ha) as Hgrow.
  destruct (schedule_event_action _ _ _ _ _ _ _ _ _ Hinv Hr Hp Hget Ha) as [Hok Hkey].
  destruct Hinv as [Her Hkr].
  destruct (register_key_spec _ _ _ _ _ _ _ Hkr Hk) as [Hkr' Hid].
  destruct (schedule_from_inv _ _ _ _ _ _ (set_flags_inv fl sh Hsh) (action_ok_wf _ Hok) Hs) as (? & ? & Hf).
  split_and!; [done|done|done|by rewrite Hf|].
  destruct (schedule_from_cases _ _ _ _ _ _ (si_wf _ (set_flags_inv fl sh Hsh)) Hs)
    as (t' & [= <-] & [(_ & -> & ->)|(Hlt & -> & q & -> & _ & Habs & _)]); [done|].
  split; [|exists t, a; done].
  destruct (req_with_key request).
  - destruct Hkey as (key & -> & _). destruct Hid as (i & -> & _). done.
  - destruct Hkey as [-> _]. destruct Hid as [-> _]. split; [by intros []|done].
Qed.

Lemma period_requested period p :
  request_period period = Done (Ok p) → is_Some p ↔ is_Some period.
Proof.
  unfold request_period. destruct period as [d|]; [|by intros [= <-]].
  destruct (to_strictly_positive_duration d) as [[d'|]| |]; simpl; try done.
  intros [= <-]. by split.
Qed.

Lemma cancel_event_stored ek id er kr t key sh :
  rtc ipq_step ipq_new kr → (id, (t, key)) ∈ entries kr → time sh ≤ₒ t →
  schedule_event_reply (Ok (Some id)) = Done (Ok (Some ek)) →
  ∃ kr1 kr2, let sh' := set_flags (ActionKey_cancel (key_flags sh) key) sh in
    scheduler_cancel_event (Some ek) (SStarted er kr : Service) sh =
      Done (Ok tt, SStarted er kr1, sh') ∧
    scheduler_cancel_event (Some ek) (SStarted er kr1 : Service) sh' =
      Done (Err invalid_key, SStarted er kr2, sh').
Proof.
  intros Hkr Hin Hle Hek.
  assert (from_raw_parts (Z.to_nat (subkey1 ek)) (subkey2 ek) = id) as Hid.
  { simpl in Hek. destruct (_ <=? _)%Z; simplify_eq/=.
    rewrite Nat2Z.id. by destruct id. }
  destruct (stored_key_extractable (time sh) kr id t key (registry_wf _ Hkr) Hin Hle)
    as (q2 & q3 & Hrem & _ & Hx & Hwf3 & Hn).
  destruct (remove_expired_loop_spec (S (len q3)) (time sh) q3 Hwf3)
    as (q4 & Hrem4 & Hwf4 & He4 & _); [lia|].
  exists q3, q4. simpl. rewrite Hid, Hrem. simpl. rewrite Hx. simpl. split; [done|].
  unfold remove_expired_keys at 1. rewrite Hrem4. simpl.
  rewrite extract_absent_key; [done|done|].
  intros kv Hkv. rewrite He4 in Hkv. by apply list_elem_of_filter in Hkv as [_ ?%Hn].
Qed.

(** C36: schedule then cancel.  The key sent back for a keyed event cancels that
    event: until the event's deadline (for ever when the event is periodic),
    whatever happens to the scheduler's queue meanwhile, a cancellation with
    that key succeeds, the action queued by the request is then cancelled, and
    a second use of the key is refused. *)
Theorem schedule_then_cancel request er kr sh id self1 sh1 ek :
  service_inv (SStarted er kr) → sched_inv sh → request_range request →
  scheduler_schedule_event request (SStarted er kr) sh = Done (Ok (Some id), self1, sh1) →
  schedule_event_reply (Ok (Some id)) = Done (Ok (Some ek)) →
  ∃ t a, queued sh1 = stable_insert (t, GLOBAL_SCHEDULER_ORIGIN_ID) a (queued sh) ∧
    Action_is_cancelled (key_flags sh1) a = false ∧
    ∀ sh2, length (key_flags sh1) ≤ length (key_flags sh2) →
      is_Some (req_period request) ∨ time sh2 ≤ₒ t →
      ∃ self3 self4 sh3, scheduler_cancel_event (Some ek) self1 sh2 = Done (Ok tt, self3, sh3) ∧
        Action_is_cancelled (key_flags sh3) a = true ∧ queued sh3 = queued sh2 ∧
        scheduler_cancel_event (Some ek) self3 sh3 = Done (Err invalid_key, self4, sh3).
Proof.
  intros Hinv Hsh Hr Hs Hek.
  apply schedule_event_cases in Hs as [(e & fl & [=] & _)|
    (period & source & a & k & fl & t & id0 & kr' & r0 & Hp & Hget & Ha & Hd & Hk & Hs & -> & Hr0)].
  destruct (schedule_event_action _ _ _ _ _ _ _ _ _ Hinv Hr Hp Hget Ha) as [Hok Hkey].
  destruct Hinv as [_ Hkr]. destruct (register_key_spec _ _ _ _ _ _ _ Hkr Hk) as [Hkr' Hid].
  destruct (schedule_from_cases _ _ _ _ _ _ (si_wf _ (set_flags_inv fl sh Hsh)) Hs)
    as (t' & [= <-] & [(_ & -> & ->)|(Hlt & -> & q & -> & _ & Habs & _)]); [done|].
  injection Hr0 as <-. destruct (req_with_key request); [|by destruct Hkey as [-> _], Hid].
  destruct Hkey as (key & -> & -> & -> & Hguard). destruct Hid as (i & [= <-] & Hin).
  exists t, a. split; [done|]. simpl. split.
  { rewrite Hguard. unfold ActionKey_is_cancelled.
    by rewrite lookup_app_r, Nat.sub_diag by lia. }
  intros sh2 Hlen Ht. rewrite length_app in Hlen. simpl in Hlen.
  destruct (cancel_event_stored ek id er kr' (if bool_decide (is_Some period) then MT_MAX else t)
    (length (key_flags sh)) sh2 Hkr' Hin) as (kr1 & kr2 & Hc1 & Hc2); [|done|].
  { case_bool_decide as Hps; [apply mt_le_MAX|].
    destruct Ht as [Ht|]; [|done]. by apply (period_requested _ _ Hp) in Ht. }
  do 3 eexists. split; [exact Hc1|]. split_and!; [|done|exact Hc2].
  rewrite Hguard. unfold ActionKey_is_cancelled, ActionKey_cancel. simpl.
  rewrite list_lookup_insert_eq by lia. done.
Qed.

(** A request for a keyed periodic event whose deadline is not in the future
    fails after its key was registered as eternal: the client gets no
    identifier, and the entry is never removed as expired. *)
Lemma failed_request_leaks_key request er kr sh p source a k fl t :
  service_inv (SStarted er kr) → ipq_next_epoch kr ≠ u64_max →
  request_period (req_period request) = Done (Ok (Some p)) →
  er !! req_source_name request = Some source →
  request_action source (req_with_key request) (Some p) (req_event request) (key_flags sh) =
    Ok (a, Some k, fl) →
  request_deadline (req_deadline request) (time sh) = Done (Ok t) → t ≤ₒ time sh →
  ∃ id kr', scheduler_schedule_event request (SStarted er kr) sh =
      Done (Err (map_scheduling_error InvalidScheduledTime), SStarted er kr', set_flags fl sh) ∧
    (id, (MT_MAX, k)) ∈ entries kr' ∧
    ∀ now, ∃ kr'', remove_expired_keys now kr' = Done kr'' ∧ (id, (MT_MAX, k)) ∈ entries kr''.
Proof.
  intros [_ Hkr] Hmax Hp Hget Ha Hd Hle.
  unfold scheduler_schedule_event, EventSourceRegistry_get. rewrite Hp. simpl.
  rewrite Hget, Ha. simpl. rewrite Hd. simpl.
  destruct (remove_expired_loop_spec (S (len kr)) (time sh) kr (registry_wf _ Hkr))
    as (kr1 & Hrem & Hwf1 & _ & Hn1); [lia|].
  unfold remove_expired_keys at 1. rewrite Hrem. simpl. unfold insert_eternal_key.
  destruct (ipq_insert_raw kr1 MT_MAX k Hwf1) as (s & kr2 & -> & Hwf2 & He2 & _);
    [congruence|]. simpl.
  unfold Scheduler_schedule, schedule_from. simpl.
  destruct (t ≤?ₒ time sh) eqn:Et; ord_simpl; [|by destruct (ord_le_lt_absurd _ _ Hle Et)].
  do 2 eexists. split; [done|].
  assert ((mkInsertKey s (ipq_next_epoch kr1), (MT_MAX, k)) ∈ entries kr2) as Hin
    by (rewrite He2; by left).
  split; [exact Hin|]. intros now.
  destruct (remove_expired_loop_spec (S (len kr2)) now kr2 Hwf2)
    as (kr3 & Hrem3 & _ & He3 & _); [lia|].
  exists kr3. split; [done|]. rewrite He3. apply list_elem_of_filter.
  split; [apply mt_le_MAX|done].
Qed.

(** A relative deadline that overflows the time range panics in the request
    handler instead of being refused: the addition to the current time is
    unchecked. *)
Lemma remote_deadline_overflow_panics request er kr sh p source act d :
  request_period (req_period request) = Done (Ok p) →
  er !! req_source_name request = Some source →
  request_action source (req_with_key request) p (req_event request) (key_flags sh) = Ok act →
  req_deadline request = Some (DeadlineDuration d) → pduration_range d →
  (0 ≤ pd_seconds d)%Z → (0 ≤ pd_nanos d)%Z →
  (mt_total (MT_MAX (T := T)) <
     mt_total (time sh) + (pd_seconds d * NANOS_PER_SEC + pd_nanos d))%Z →
  scheduler_schedule_event request (SStarted er kr) sh = Panicked.
Proof.
  intros Hp Hget Ha Hd Hr Hs Hn Hov.
  unfold scheduler_schedule_event, EventSourceRegistry_get. rewrite Hp. simpl.
  rewrite Hget, Ha. simpl. destruct act as [[a k] fl]. rewrite Hd. simpl.
  assert (mt_total (time sh) ≤ mt_total (MT_MAX (T := T)))%Z by apply mt_le_total, mt_le_MAX.
  pose proof (to_strictly_positive_duration_cases d Hr) as Hc.
  case_decide as Hneg; [unfold NANOS_PER_SEC in *; lia|].
  destruct Hc as (d' & -> & Hwf & _ & Ht). simpl.
  rewrite (proj2 (mt_add_overflow (time sh) d' Hwf)); [done|]. lia.
Qed.
End SchedulerFacts.

(** ** The controller service *)

Section ControllerFacts.
Context {T : Type} `{MonotonicTimeLaws T}.
Context {Call Addr QCall Obs Reply Payload : Type}.
Abbreviation SourceFut := (SourceFut Call Addr QCall).
Abbreviation Action := (Action Call Addr SourceFut).
Abbreviation Task := (Task Call Addr SourceFut QCall).
Context {Q : Type} `{!StableQueue Q (T * Z) Action} `{!StableQueueLaws Q (T * Z) Action}.
Abbreviation Shared := (Shared Q T).
Context {E : Type} `{!Executor E Shared Task Obs (list Reply) Payload}.
Context {C : Type} `{!Clock C T}.
Context (is_send_error : Payload → bool).
Context (fmt_duration : Duration → string) (fmt_time : T → string).
Context (payload_msg : Payload → option string).
Abbreviation Simulation := (Simulation E C Shared Obs).
Abbreviation step_until_request :=
  (controller_step_until is_send_error fmt_duration fmt_time payload_msg).
Implicit Types (sim : Simulation).

(** [step_until] of the controller.  A reply with a time means that the
    simulation stopped exactly at the requested deadline and can go on, with
    nothing left to do up to it if no other request schedules at or before it
    while the time is written, and the time sent back is that of the
    simulation: the requested time stamp itself, or the old time plus the
    requested duration. *)
Lemma controller_reaches_deadline `{Hexec : !ExecutorLaws (E := E)}
    `{Hacc : !ExecutorAccepts (E := E)}
    meanwhile fuel deadline sim er qr ts self' :
  (∀ t, quiet_gap t meanwhile) → sched_inv (shared sim) → (∀ d, deadline = DeadlineDuration d → pduration_range d) →
  step_until_request meanwhile fuel (Some deadline) (CStarted sim er qr) = Done (Ok ts, self') →
  ∃ sim', self' = CStarted sim' er qr ∧ is_terminated sim' = false ∧
    monotonic_to_timestamp (Simulation_time sim') = Some ts ∧
    Forall (λ kv, Simulation_time sim' <ₒ kv.1.1) (queued (shared sim')) ∧
    match deadline with
    | DeadlineTime ts0 => ts = ts0
    | DeadlineDuration d => mt_total (Simulation_time sim') =
        (mt_total (Simulation_time sim) + (pd_seconds d * NANOS_PER_SEC + pd_nanos d))%Z
    end.
Proof.
  intros Hm Hinv Hr Hs.
  assert (∀ D (HD : Deadline D T) (d : D) t sim',
    into_time d (time (shared sim)) = Done t →
    step_until is_send_error meanwhile fuel d sim = Done (Ok tt, sim') →
    final_time sim' = Ok ts →
    Simulation_time sim' = t ∧ is_terminated sim' = false ∧
    monotonic_to_timestamp (Simulation_time sim') = Some ts ∧
    Forall (λ kv, Simulation_time sim' <ₒ kv.1.1) (queued (shared sim'))) as Hstep.
  { intros D HD d t sim' Ht Hd Hf. unfold step_until in Hd. rewrite Ht in Hd. simpl in Hd.
    destruct (t <?ₒ time (shared sim)) eqn:Elt; [done|]. ord_simpl.
    destruct (step_until_unchecked_inv _ _ _ _ _ _ _ Hd (λ t _, Hm t) Hinv Elt) as (_ & _ & Hq & ? & Htt).
    unfold final_time in Hf. destruct (monotonic_to_timestamp _); by simplify_eq/=. }
  simpl in Hs. destruct deadline as [ts0|d].
  - destruct (timestamp_to_monotonic ts0) as [t|] eqn:Et; [|by simplify_eq].
    destruct (step_until _ _ _ _ _) as [[[[]|e] sim']| |] eqn:Es; simpl in Hs; try done.
    injection Hs as Hf <-.
    destruct (Hstep _ _ _ t _ eq_refl Es Hf) as (Htime & ? & Hts & ?).
    exists sim'. split_and!; [done..|]. unfold timestamp_to_monotonic in Et.
    destruct (ts_nanos ts0 <? 0)%Z; [done|]. apply mt_new_parts in Et as [Hse Hna].
    apply monotonic_to_timestamp_inv in Hts as [_ ->]. rewrite Htime, Hse, Hna.
    by destruct ts0.
  - pose proof (to_positive_duration_cases d (Hr d eq_refl)) as Hd.
    case_decide; [by rewrite Hd in Hs|]. destruct Hd as (d' & Hd & Hwf & Htot).
    rewrite Hd in Hs. simpl in Hs.
    destruct (step_until _ _ _ _ _) as [[[[]|e] sim']| |] eqn:Es; simpl in Hs; try done.
    injection Hs as Hf <-.
    destruct (into_time d' (time (shared sim))) as [t| |] eqn:Et;
      [|by unfold step_until in Es; rewrite Et in Es..].
    destruct (Hstep _ _ _ t _ Et Es Hf) as (Htime & ? & ? & ?).
    exists sim'. split_and!; [done..|]. rewrite Htime, <-Htot.
    by apply mt_add_total.
Qed.

(** An error of the simulation is reported differently by the two forms of
    the same request.  With a duration the reply carries the error; with the
    equivalent absolute time every error, a panic, a deadlock or a halt
    included, is reported as a deadline in the past. *)
Lemma time_deadline_masks_errors meanwhile fuel sim er qr ts t d d' e sim' :
  timestamp_to_monotonic ts = Some t → to_positive_duration d = Done (Some d') →
  mt_add (Simulation_time sim) d' = Done t →
  step_until is_send_error meanwhile fuel t sim = Done (Err e, sim') →
  step_until_request meanwhile fuel (Some (DeadlineTime ts)) (CStarted sim er qr) =
    Done (Err past_deadline, CStarted sim' er qr) ∧
  step_until_request meanwhile fuel (Some (DeadlineDuration d)) (CStarted sim er qr) =
    Done (Err (map_execution_error fmt_duration fmt_time payload_msg e),
          CStarted sim' er qr).
Proof.
  intros Hts Hd Hadd Hs. simpl. rewrite Hts, Hs, Hd. split; [done|]. simpl.
  assert (step_until is_send_error meanwhile fuel d' sim = step_until is_send_error meanwhile fuel t sim) as ->.
  { unfold step_until, into_time, Duration_deadline, MonotonicTime_deadline.
    unfold Simulation_time in Hadd. by rewrite Hadd. }
  by rewrite Hs.
Qed.
End ControllerFacts.

(** ** The monitor service *)

Lemma drain_encode {A : Type} (encode : A → result bytes string) l (acc : list bytes) :
  drain_try_fold acc
    (λ acc event, let? b := encode event in Ok (acc ++ [b])) l =
  result_map (app acc) (encode_all encode l).
Proof.
  revert acc. induction l as [|a l IH]; intros acc; simpl; [by rewrite app_nil_r|].
  destruct (encode a) as [b|e]; simpl; [|done]. rewrite IH.
  destruct (encode_all encode l); simpl; [|done]. by rewrite <-app_assoc.
Qed.

(** Reading a buffer from remote.  The reply has the encodings of all the
    buffered events in the order they were written, or the first encoding
    error; either way the buffer is then empty, its other settings and the
    other sinks are as before, and reading it again gives no event. *)
Lemma read_events_drains_buffer {A : Type} name
    (reg : gmap string (EventSinkStreamAny (EventBuffer A) A)) sink :
  reg !! name = Some sink →
  let emptied := mkBuffer (capacity (sink_state sink)) (buf_is_open (sink_state sink)) [] in
  let reg' := <[name := set_sink_state emptied sink]> reg in
  monitor_read_events name (MStarted reg) =
    Returns (result_map_err (bad_event (sink_type_name sink))
               (encode_all (sink_encode sink) (buffer (sink_state sink))), MStarted reg') ∧
  monitor_read_events name (MStarted reg') = Returns (Ok [], MStarted reg').
Proof.
  intros Hs. simpl. unfold EventSinkRegistry_get_mut, sink_any_collect. rewrite Hs.
  rewrite lookup_insert_eq. simpl. unfold buffer_try_fold. simpl. rewrite drain_encode.
  split; [by destruct (encode_all _ _)|]. rewrite insert_insert_eq. done.
Qed.

(** ** Evaluations *)

Abbreviation SFut := (SourceFut nat nat unit).
Abbreviation SQueue := (PriorityQueue (TaiTime * Z) (Action nat nat SFut)).
Abbreviation SShared := (Shared SQueue TaiTime).
Abbreviation SService := (SchedulerService (T := TaiTime) (Call := nat) (Addr := nat)
  (QCall := unit)).

(** A source of naturals connected to the input of address 7; an event is one
    byte. *)
Definition demo_source : EventSourceAny nat nat unit :=
  erase_event_source
    (λ b, match b with [n] => Ok (Z.to_nat n) | _ => Err "bad length" end) "nat"
    (mkEventSource [InputSender (λ n : nat, n) 7]).

Definition demo_sources : gmap string (EventSourceAny nat nat unit) :=
  {["source" := demo_source]}.

Definition demo_service : SService := SStarted demo_sources KeyRegistry_new.
Definition service_shared : SShared := mkShared (mkQueue [] 0) (ns 1000000000) false [].

Lemma demo_service_inv : service_inv demo_service.
Proof.
  split; [|apply rtc_refl]. apply map_Forall_singleton. do 4 eexists. reflexivity.
Qed.

Lemma service_shared_inv : sched_inv service_shared.
Proof.
  split.
  - split; simpl; [constructor|constructor|unfold u64_max; lia].
  - constructor.
  - constructor.
Qed.

(** A keyed event every two seconds, the first one in three seconds, or at a
    given time. *)
Definition demo_request (deadline : ReqDeadline) : ScheduleEventRequest :=
  mkScheduleRequest "source" [5%Z] (Some deadline) (Some (mkPDuration 2 0)) true.

Definition in_3_seconds : ReqDeadline := DeadlineDuration (mkPDuration 3 0).

Lemma demo_request_range deadline :
  match deadline with DeadlineDuration d => pduration_range d | _ => True end →
  request_range (demo_request deadline).
Proof.
  intros Hd. split; simpl.
  - intros p [= <-]. split; split; vm_compute; (discriminate || reflexivity).
  - intros d [= ->]. exact Hd.
Qed.

Lemma in_3_seconds_range : request_range (demo_request in_3_seconds).
Proof.
  apply demo_request_range. split; split; vm_compute; (discriminate || reflexivity).
Qed.

Lemma schedule_event_request_safe_witness :
  ∃ id (self' : SService) (sh' : SShared),
    scheduler_schedule_event (demo_request in_3_seconds) demo_service service_shared =
      Done (Ok (Some id), self', sh') ∧ service_inv self' ∧ sched_inv sh'.
Proof.
  destruct (scheduler_schedule_event (demo_request in_3_seconds) demo_service service_shared)
    as [[[r self'] sh']| |] eqn:Es; [|vm_compute in Es; discriminate..].
  pose proof (schedule_event_request_safe _ _ _ _ _ _ demo_service_inv service_shared_inv
    in_3_seconds_range Es) as (Hi & Hs & _).
  destruct r as [[id|]|e]; [|vm_compute in Es; discriminate..].
  exists id, self', sh'. split; [reflexivity|]. split; [exact Hi|exact Hs].
Defined.

Lemma schedule_then_cancel_witness :
  ∃ id (self1 self3 : SService) (sh1 sh3 : SShared) ek,
    scheduler_schedule_event (demo_request in_3_seconds) demo_service service_shared =
      Done (Ok (Some id), self1, sh1) ∧
    schedule_event_reply (Ok (Some id)) = Done (Ok (Some ek)) ∧
    scheduler_cancel_event (Some ek) self1 sh1 = Done (Ok tt, self3, sh3).
Proof.
  destruct (scheduler_schedule_event (demo_request in_3_seconds) demo_service service_shared)
    as [[[r self1] sh1]| |] eqn:Es; [|vm_compute in Es; discriminate..].
  destruct r as [[id|]|e]; [|vm_compute in Es; discriminate..].
  destruct (schedule_event_reply (Ok (Some id))) as [[[ek|]|]| |] eqn:Ek;
    [|vm_compute in Es; injection Es as <- _ _; vm_compute in Ek; discriminate..].
  destruct (schedule_then_cancel _ _ _ _ _ _ _ ek demo_service_inv service_shared_inv
    in_3_seconds_range Es Ek) as (t & a & _ & _ & Hc).
  destruct (Hc sh1 (le_n _) (or_introl (ex_intro _ _ eq_refl))) as (s3 & s4 & sh3 & H1 & _).
  exists id, self1, s3, sh1, sh3, ek. split; [reflexivity|]. split; [exact Ek|exact H1].
Defined.

Lemma failed_request_leaks_key_witness :
  ∃ id kr', scheduler_schedule_event (demo_request (DeadlineTime (mkTimestamp 0 0)))
      demo_service service_shared =
    Done (Err (map_scheduling_error InvalidScheduledTime), SStarted demo_sources kr',
          set_flags [false] service_shared) ∧
    (id, (MT_MAX, 0)) ∈ entries kr' ∧
    ∀ now, ∃ kr'', remove_expired_keys now kr' = Done kr'' ∧
      (id, (MT_MAX, 0)) ∈ entries kr''.
Proof.
  eapply (failed_request_leaks_key (demo_request (DeadlineTime (mkTimestamp 0 0)))
    demo_sources KeyRegistry_new service_shared (mkDuration 2 0) demo_source _ 0 [false]
    (ns 0) demo_service_inv).
  - vm_compute. discriminate.
  - reflexivity.
  - reflexivity.
  - reflexivity.
  - vm_compute. reflexivity.
  - vm_compute. discriminate.
Defined.

Lemma remote_deadline_overflow_panics_witness :
  scheduler_schedule_event
    (demo_request (DeadlineDuration (mkPDuration i64_max 0))) demo_service service_shared =
  Panicked.
Proof.
  eapply (remote_deadline_overflow_panics _ demo_sources _ service_shared
    (Some (mkDuration 2 0)) demo_source _ (mkPDuration i64_max 0)).
  - reflexivity.
  - reflexivity.
  - reflexivity.
  - reflexivity.
  - split; split; vm_compute; (discriminate || reflexivity).
  - vm_compute. discriminate.
  - vm_compute. discriminate.
  - vm_compute. reflexivity.
Defined.

(** An executor that drops its tasks and reports a chosen outcome. *)
Definition FixedExecutor : Type := option (ExecutorError bool).
Abbreviation STask := (Task nat nat SFut unit).

#[export] Instance FixedExecutor_executor :
  Executor FixedExecutor SShared STask Z (list nat) bool := {|
    accepts_tasks := λ _, true;
    spawn_and_forget := λ _ e, e;
    executor_run := λ _ e sh,
      Done (e, sh, match e with Some err => Err err | None => Ok tt end);
    observer_len := λ _ n, n;
    slot_new := λ e, (0, e);
    slot_try_read := λ _ _, None;
  |}.

#[export] Instance FixedExecutor_accepts : ExecutorAccepts (E := FixedExecutor).
Proof. by split. Qed.

#[export] Instance FixedExecutor_laws : ExecutorLaws (E := FixedExecutor).
Proof. intros d e e' sh sh' r. simpl. intros [= <- <- _]. apply rtc_refl. Qed.

(** One event queued at two seconds; the time is one second. *)
Definition service_sim (e : FixedExecutor) : Simulation FixedExecutor NoClock SShared Z :=
  mkSim e
    (mkShared (mkQueue [mkItem (ns 2000000000, 0%Z)
       (OnceAction (SendFut 7 (EventMsg 5))) 0] 1) (ns 1000000000) false [])
    mkNoClock None duration_zero [] [] false.

Lemma service_sim_inv e : sched_inv (shared (service_sim e)).
Proof.
  split; simpl.
  - split; simpl; [apply NoDup_singleton|repeat constructor; simpl; lia|unfold u64_max; lia].
  - unfold queued; simpl. repeat constructor.
  - unfold queued; simpl. repeat constructor.
Qed.

Definition no_duration (_ : Duration) : string := "".
Definition no_time (_ : TaiTime) : string := "".
Definition no_payload (_ : bool) : option string := None.

Lemma controller_reaches_deadline_witness :
  ∃ self' sim', controller_step_until id no_duration no_time no_payload id 3
      (Some (DeadlineDuration (mkPDuration 4 1))) (CStarted (service_sim None) ∅ ∅) =
    Done (Ok (mkTimestamp 5 1), self') ∧ self' = CStarted sim' ∅ ∅ ∧
    is_terminated sim' = false.
Proof.
  destruct (controller_step_until id no_duration no_time no_payload id 3
      (Some (DeadlineDuration (mkPDuration 4 1))) (CStarted (service_sim None) ∅ ∅))
    as [[r self']| |] eqn:Es; [|vm_compute in Es; discriminate..].
  assert (r = Ok (mkTimestamp 5 1)) as ->
    by (vm_compute in Es; injection Es as <- _; reflexivity).
  destruct (controller_reaches_deadline id no_duration no_time no_payload id 3
    (DeadlineDuration (mkPDuration 4 1)) (service_sim None) ∅ ∅ (mkTimestamp 5 1) self'
    quiet_gap_id (service_sim_inv None)) as (sim' & Hself & Ht & _).
  - intros d [= <-]. split; split; vm_compute; (discriminate || reflexivity).
  - exact Es.
  - exists self', sim'. split; [reflexivity|]. split; [exact Hself|exact Ht].
Defined.

Lemma time_deadline_masks_errors_witness :
  ∃ sim', let self := CStarted (service_sim (Some (UnprocessedMessages 3))) ∅ ∅ in
    controller_step_until id no_duration no_time no_payload id 3
      (Some (DeadlineTime (mkTimestamp 5 0))) self =
      Done (Err past_deadline, CStarted sim' ∅ ∅) ∧
    controller_step_until id no_duration no_time no_payload id 3
      (Some (DeadlineDuration (mkPDuration 4 0))) self =
      Done (Err (to_error SimulationMessageLoss "3 messages have been lost"),
            CStarted sim' ∅ ∅).
Proof.
  destruct (step_until id id 3 (ns 5000000000) (service_sim (Some (UnprocessedMessages 3))))
    as [[r sim']| |] eqn:Es; [|vm_compute in Es; discriminate..].
  assert (r = Err (MessageLoss 3)) as ->
    by (vm_compute in Es; injection Es as <- _; reflexivity).
  exists sim'.
  apply (time_deadline_masks_errors id no_duration no_time no_payload id 3 _ ∅ ∅
    (mkTimestamp 5 0) (ns 5000000000) (mkPDuration 4 0) (mkDuration 4 0) (MessageLoss 3)).
  - vm_compute. reflexivity.
  - vm_compute. reflexivity.
  - vm_compute. reflexivity.
  - exact Es.
Defined.

Lemma read_events_drains_buffer_witness :
  ∃ reg', monitor_read_events "sink"
      (MStarted {["sink" := mkSinkAny (mkBuffer 4 true [1; 2])
                              (λ n, Ok [Z.of_nat n]) "nat"]}) =
    Returns (Ok [[1%Z]; [2%Z]], reg').
Proof.
  eexists. etrans.
  - refine (proj1 (read_events_drains_buffer "sink" _ _ _)). reflexivity.
  - reflexivity.
Defined.
