(* ===== verification/Slot.v ===== *)
(** * The one-shot slot (util/slot.rs)

    A writer and a reader handle share a heap cell with an atomic bit field
    and a value that may be uninitialized.  Each handle is a thread whose
    program counter stands before its next access to the shared cell, so that
    the interleavings of the two threads are the paths of [slot_step].  An
    access to freed memory, a read of an uninitialized value and a second
    deallocation are undefined behaviour, [UB].  Values that are handed to the
    reader or dropped in place are recorded. *)

From stdpp Require Import base option list numbers relations.
From Stdlib Require Import ZArith Lia.
From S2P Require Import Prelude.

Definition CLOSED : Z := 1.
Definition POPULATED : Z := 2.

Inductive mem (A : Type) := Safe (a : A) | UB.
Arguments Safe {A}.
Arguments UB {A}.

Inductive ReadError := NoValue | Closed.
Record WriteError := mkWriteError {}.

Section Slot.
Context {T : Type}.

(** Where the writer stands: idle, in [write], in its drop handler, or gone;
    a write leaves its result. *)
Inductive WriterPc :=
| WIdle
| WWriteValue (v : T)
| WFetchOr
| WDropValue
| WDealloc
| WDropLoad
| WDropFetchOr
| WDropDealloc
| WDone (r : option (result unit WriteError)).

Inductive ReaderPc :=
| RIdle
| RLoad
| RStore
| RReadValue
| RDropLoad
| RDropFetchOr
| RDropValue
| RDropDealloc
| RDone.

Record Slot := mkSlotState {
  state : Z;
  value : option T;
  allocated : bool;
  writer : WriterPc;
  reader : ReaderPc;
  written : list T;
  taken : list T;
  dropped : list T;
  reads : list (result T ReadError);
}.

(** [slot()]. *)
Definition slot : Slot := mkSlotState 0 None true WIdle RIdle [] [] [] [].

Definition to_writer (pc : WriterPc) (s : Slot) : Slot :=
  mkSlotState (state s) (value s) (allocated s) pc (reader s) (written s) (taken s)
    (dropped s) (reads s).
Definition to_reader (pc : ReaderPc) (s : Slot) : Slot :=
  mkSlotState (state s) (value s) (allocated s) (writer s) pc (written s) (taken s)
    (dropped s) (reads s).
Definition set_state (z : Z) (s : Slot) : Slot :=
  mkSlotState z (value s) (allocated s) (writer s) (reader s) (written s) (taken s)
    (dropped s) (reads s).
Definition log_read (r : result T ReadError) (s : Slot) : Slot :=
  mkSlotState (state s) (value s) (allocated s) (writer s) (reader s) (written s) (taken s)
    (dropped s) (reads s ++ [r]).

(** *** Accesses to the shared cell *)

Definition access (s : Slot) (k : mem Slot) : mem Slot := if allocated s then k else UB.

(** The previous content is not dropped. *)
Definition write_value (t : T) (s : Slot) : mem Slot :=
  access s (Safe (mkSlotState (state s) (Some t) (allocated s) (writer s) (reader s)
    (written s ++ [t]) (taken s) (dropped s) (reads s))).

Definition read_value (s : Slot) : mem Slot :=
  access s
    match value s with
    | Some t =>
        Safe (mkSlotState (state s) None (allocated s) (writer s) (reader s) (written s)
          (taken s ++ [t]) (dropped s) (reads s ++ [Ok t]))
    | None => UB
    end.

Definition drop_value_in_place (s : Slot) : mem Slot :=
  access s
    match value s with
    | Some t =>
        Safe (mkSlotState (state s) None (allocated s) (writer s) (reader s) (written s)
          (taken s) (dropped s ++ [t]) (reads s))
    | None => UB
    end.

(** [drop(Box::from_raw(..))]: a value still in the cell is not dropped. *)
Definition dealloc (s : Slot) : mem Slot :=
  access s (Safe (mkSlotState (state s) (value s) false (writer s) (reader s) (written s)
    (taken s) (dropped s) (reads s))).

Definition mem_map (f : Slot → Slot) (m : mem Slot) : mem Slot :=
  match m with Safe s => Safe (f s) | UB => UB end.

(** *** The writer *)

Inductive WriterCall := CallWrite (v : T) | CallDropWriter.

Definition writer_step (c : WriterCall) (s : Slot) : option (mem Slot) :=
  match writer s with
  | WIdle =>
      match c with
      | CallWrite v => Some (Safe (to_writer (WWriteValue v) s))
      | CallDropWriter => Some (Safe (to_writer WDropLoad s))
      end
  | WWriteValue v => Some (mem_map (to_writer WFetchOr) (write_value v s))
  | WFetchOr =>
      let old := state s in
      let s := set_state (Z.lor old (Z.lor POPULATED CLOSED)) s in
      Some (access s (Safe (to_writer
        (if (Z.land old CLOSED =? CLOSED)%Z then WDropValue else WDone (Some (Ok tt))) s)))
  | WDropValue => Some (mem_map (to_writer WDealloc) (drop_value_in_place s))
  | WDealloc => Some (mem_map (to_writer (WDone (Some (Err (mkWriteError))))) (dealloc s))
  | WDropLoad =>
      Some (access s (Safe (to_writer
        (if (Z.land (state s) CLOSED =? 0)%Z then WDropFetchOr else WDropDealloc) s)))
  | WDropFetchOr =>
      let old := state s in
      let s := set_state (Z.lor old CLOSED) s in
      Some (access s (Safe (to_writer
        (if (Z.land old CLOSED =? 0)%Z then WDone None else WDropDealloc) s)))
  | WDropDealloc => Some (mem_map (to_writer (WDone None)) (dealloc s))
  | WDone _ => None
  end.

(** *** The reader *)

Inductive ReaderCall := CallTryRead | CallDropReader.

Definition reader_step (c : ReaderCall) (s : Slot) : option (mem Slot) :=
  match reader s with
  | RIdle =>
      match c with
      | CallTryRead => Some (Safe (to_reader RLoad s))
      | CallDropReader => Some (Safe (to_reader RDropLoad s))
      end
  | RLoad =>
      Some (access s (Safe
        (if (state s =? 0)%Z then to_reader RIdle (log_read (Err NoValue) s)
         else if (Z.land (state s) POPULATED =? 0)%Z then
           to_reader RIdle (log_read (Err Closed) s)
         else to_reader RStore s)))
  | RStore => Some (access s (Safe (to_reader RReadValue (set_state CLOSED s))))
  | RReadValue => Some (mem_map (to_reader RIdle) (read_value s))
  | RDropLoad =>
      Some (access s (Safe (to_reader
        (if (Z.land (state s) CLOSED =? 0)%Z then RDropFetchOr
         else if (Z.land (state s) POPULATED =? POPULATED)%Z then RDropValue
         else RDropDealloc) s)))
  | RDropFetchOr =>
      let old := state s in
      let s := set_state (Z.lor old CLOSED) s in
      Some (access s (Safe (to_reader
        (if (Z.land old CLOSED =? 0)%Z then RDone
         else if (Z.land old POPULATED =? POPULATED)%Z then RDropValue
         else RDropDealloc) s)))
  | RDropValue => Some (mem_map (to_reader RDropDealloc) (drop_value_in_place s))
  | RDropDealloc => Some (mem_map (to_reader RDone) (dealloc s))
  | RDone => None
  end.

(** A step of either thread. *)
Inductive slot_step (s : Slot) : mem Slot → Prop :=
| step_writer c m : writer_step c s = Some m → slot_step s m
| step_reader c m : reader_step c s = Some m → slot_step s m.

Definition slot_safe_step (s s' : Slot) : Prop := slot_step s (Safe s').

(** The next access of each thread is to the value: a data race. *)
Definition value_race (s : Slot) : Prop :=
  match writer s, reader s with
  | WWriteValue _, (RReadValue | RDropValue) => True
  | WDropValue, (RReadValue | RDropValue) => True
  | _, _ => False
  end.

(** *** Invariant *)

(** The writer or the reader has not set [CLOSED] yet. *)
Definition w_open (pc : WriterPc) : Prop :=
  match pc with WIdle | WWriteValue _ | WFetchOr | WDropLoad | WDropFetchOr => True
  | _ => False end.
Definition r_open (pc : ReaderPc) : Prop :=
  match pc with RIdle | RLoad | RDropLoad | RDropFetchOr => True | _ => False end.

(** The results of the reads so far: no value, then at most one value, then
    closed. *)
Definition reads_shape (l : list T) (n m : nat) : list (result T ReadError) :=
  replicate n (Err NoValue) ++ (Ok <$> l) ++ replicate m (Err Closed).

Record slot_inv (s : Slot) : Prop := {
  inv_reads : ∃ n m, reads s = reads_shape (taken s) n m ∧
    (m = 0 ∨ (state s = 1%Z ∧ reader s ≠ RReadValue ∧ ∃ r, writer s = WDone r));
  inv_one : length (written s) ≤ 1;
  inv_conserved : written s = option_list (value s) ++ taken s ++ dropped s;
  inv_pcs :
    match writer s, reader s with
    | (WIdle | WWriteValue _ | WDropLoad | WDropFetchOr), RDone =>
        allocated s = true ∧ state s = 1%Z ∧ written s = []
    | (WIdle | WWriteValue _ | WDropLoad | WDropFetchOr), r =>
        r_open r ∧ allocated s = true ∧ state s = 0%Z ∧ written s = []
    | WFetchOr, RDone => allocated s = true ∧ state s = 1%Z ∧ is_Some (value s)
    | WFetchOr, r => r_open r ∧ allocated s = true ∧ state s = 0%Z ∧ is_Some (value s)
    | WDropValue, r => r = RDone ∧ allocated s = true ∧ is_Some (value s) ∧ taken s = []
    | WDealloc, r => r = RDone ∧ allocated s = true ∧ value s = None ∧ taken s = [] ∧
        length (dropped s) = 1
    | WDropDealloc, r => r = RDone ∧ allocated s = true ∧ value s = None ∧ written s = []
    | WDone (Some (Ok _)), (RIdle | RLoad | RDropLoad | RDropFetchOr) =>
        allocated s = true ∧ length (written s) = 1 ∧
        ((state s = 3%Z ∧ is_Some (value s)) ∨
         (state s = 1%Z ∧ value s = None ∧ length (taken s) = 1))
    | WDone (Some (Ok _)), (RStore | RDropValue) =>
        allocated s = true ∧ state s = 3%Z ∧ is_Some (value s)
    | WDone (Some (Ok _)), RReadValue =>
        allocated s = true ∧ state s = 1%Z ∧ is_Some (value s)
    | WDone (Some (Ok _)), RDropDealloc =>
        allocated s = true ∧ value s = None ∧ length (written s) = 1
    | WDone (Some (Ok _)), RDone =>
        allocated s = false ∧ value s = None ∧ length (written s) = 1
    | WDone (Some (Err _)), r =>
        r = RDone ∧ allocated s = false ∧ value s = None ∧ taken s = [] ∧
        length (dropped s) = 1
    | WDone None, (RIdle | RLoad | RDropLoad | RDropFetchOr | RDropDealloc) =>
        allocated s = true ∧ state s = 1%Z ∧ written s = []
    | WDone None, RDone => allocated s = false ∧ written s = []
    | WDone None, _ => False
    end;
}.

Lemma slot_init_inv : slot_inv slot.
Proof.
  split; simpl; [|lia|done|done]. exists 0, 0. by auto.
Qed.

Lemma reads_snoc_none (l : list T) n : l = [] →
  reads_shape l n 0 ++ [Err NoValue] = reads_shape l (S n) 0.
Proof.
  intros ->. unfold reads_shape. simpl. rewrite !app_nil_r.
  by rewrite <-replicate_S_end.
Qed.

Lemma reads_snoc_closed (l : list T) n m :
  reads_shape l n m ++ [Err Closed] = reads_shape l n (S m).
Proof.
  unfold reads_shape. rewrite <-!app_assoc. by rewrite <-replicate_S_end.
Qed.

Lemma reads_snoc_value n v : reads_shape [] n 0 ++ [Ok v] = reads_shape [v] n 0.
Proof. unfold reads_shape. simpl. by rewrite !app_nil_r. Qed.

(** The value is nowhere yet, in the cell, with the reader, or dropped. *)
Lemma conserved_cases (val : option T) tk dr :
  length (option_list val ++ tk ++ dr) ≤ 1 →
  (val = None ∧ tk = [] ∧ dr = []) ∨
  ∃ v, (val = Some v ∧ tk = [] ∧ dr = []) ∨ (val = None ∧ tk = [v] ∧ dr = []) ∨
       (val = None ∧ tk = [] ∧ dr = [v]).
Proof.
  destruct val as [v|], tk as [|a tk], dr as [|b dr]; simpl; try lia.
  - intros _. right. exists v. auto.
  - auto.
  - destruct dr; simpl; [|lia]. intros _. right. exists b. auto.
  - destruct tk; simpl; [|lia]. intros _. right. exists a. auto.
  - rewrite length_app. simpl. lia.
Qed.

(** Proves the invariant after one step, once the program counters are known. *)
Ltac slot_reads :=
  first [by eexists _, _; split; [reflexivity|]; eauto
        |by eexists _, _; split; [apply reads_snoc_value|]; eauto
        |by eexists _, _; split; [by apply reads_snoc_none|]; eauto
        |by eexists _, _; split; [apply reads_snoc_closed|]; eauto 8].
Ltac slot_solve :=
  simplify_eq/=; destruct_and?; destruct_or?; destruct_and?; simplify_eq/=;
  try match goal with H : is_Some None |- _ => by destruct H end;
  (eexists; split; [reflexivity|]; (split; simpl; [slot_reads|lia|done|by eauto 8])).

Lemma writer_step_inv c s m :
  slot_inv s → writer_step c s = Some m → ∃ s', m = Safe s' ∧ slot_inv s'.
Proof.
  destruct s as [st val al w r wr tk dr rd]. intros [(n & k & Hrd & Hk) H1 Hc Hp]. simpl in *.
  rewrite Hc in H1. apply conserved_cases in H1.
  destruct Hk as [->|(_ & _ & res & ->)]; [|done].
  destruct H1 as [(-> & -> & ->)|(u & [(-> & -> & ->)|[(-> & -> & ->)|(-> & -> & ->)]])];
    simpl in Hc; subst wr;
    (destruct w as [|v| | | | | | |res]; [destruct c|..]); destruct r; simpl;
    intros [= <-]; try (simpl in Hp; naive_solver); slot_solve.
Qed.

Lemma reader_step_inv c s m :
  slot_inv s → reader_step c s = Some m → ∃ s', m = Safe s' ∧ slot_inv s'.
Proof.
  destruct s as [st val al w r wr tk dr rd]. intros [(n & k & Hrd & Hk) H1 Hc Hp]. simpl in *.
  rewrite Hc in H1. apply conserved_cases in H1.
  destruct H1 as [(-> & -> & ->)|(u & [(-> & -> & ->)|[(-> & -> & ->)|(-> & -> & ->)]])];
    simpl in Hc; subst wr; destruct Hk as [->|(-> & Hne & res & ->)];
    (destruct r; [destruct c|..]);
    try destruct w as [|v| | | | | | |[[[]|]|]]; try destruct res as [[[]|]|]; simpl;
    intros [= <-]; try (simpl in Hp; naive_solver); slot_solve.
Qed.

Lemma slot_step_inv s m : slot_inv s → slot_step s m → ∃ s', m = Safe s' ∧ slot_inv s'.
Proof.
  intros Hinv [c m' Hs|c m' Hs]; [by eapply writer_step_inv|by eapply reader_step_inv].
Qed.

Lemma slot_reachable_inv s : rtc slot_safe_step slot s → slot_inv s.
Proof.
  intros Hr. assert (∀ s0, slot_inv s0 → rtc slot_safe_step s0 s → slot_inv s) as Hind.
  { clear Hr. intros s0 Hinv Hr. induction Hr as [|s0 s1 s Hs _ IH]; [done|].
    apply IH. destruct (slot_step_inv _ _ Hinv Hs) as (s' & [= <-] & ?). done. }
  by apply (Hind slot slot_init_inv).
Qed.

(** C32: memory safety of the slot under every interleaving of its writer and
    its reader.  No access is to freed memory, no uninitialized value is read
    or dropped, the two threads never race for the value; and once both
    handles are gone the cell has been freed, and a value that was written
    was either taken by the reader or dropped, exactly once. *)
Theorem slot_memory_safe s :
  rtc slot_safe_step slot s →
  (∀ m, slot_step s m → m ≠ UB) ∧ ¬ value_race s ∧
  (∀ r, writer s = WDone r → reader s = RDone →
     allocated s = false ∧ value s = None ∧ written s = taken s ++ dropped s).
Proof.
  intros Hr. apply slot_reachable_inv in Hr as Hinv. split_and!.
  - intros m Hm ->. by destruct (slot_step_inv _ _ Hinv Hm) as (s' & ? & _).
  - destruct Hinv as [_ _ _ Hp]. unfold value_race.
    destruct (writer s), (reader s); naive_solver.
  - intros r Hw Hrd. destruct Hinv as [_ _ Hc Hp]. rewrite Hw, Hrd in Hp.
    assert (allocated s = false ∧ value s = None) as [? Hv].
    { destruct r as [[[]|]|]; [naive_solver..|]. destruct Hp as [? Hnil]. split; [done|].
      rewrite Hnil in Hc. by destruct (value s). }
    split_and!; [done..|]. by rewrite Hc, Hv.
Qed.

(** What the reader sees.  Its reads report that there is no value yet,
    then at most once the value that was written, then that the slot is
    closed; a writer that gets an error has had its value dropped; and after a
    successful write a reader that has not read the value yet gets it with its
    next call. *)
Lemma slot_reads_once s :
  rtc slot_safe_step slot s →
  (∃ n m, reads s = reads_shape (taken s) n m) ∧ length (taken s) ≤ 1 ∧
  taken s ⊆ written s ∧
  (writer s = WDone (Some (Err mkWriteError)) → taken s = [] ∧ dropped s = written s) ∧
  (writer s = WDone (Some (Ok tt)) → reader s = RIdle → taken s = [] →
     ∃ v s', written s = [v] ∧ rtc slot_safe_step s s' ∧ reader s' = RIdle ∧
       reads s' = reads s ++ [Ok v]).
Proof.
  intros Hr. apply slot_reachable_inv in Hr as [(n & m & Hrd & _) H1 Hc Hp].
  split; [by eauto|]. rewrite Hc, !length_app in H1. split; [lia|].
  split; [rewrite Hc; set_solver|]. split.
  - intros Hw. rewrite Hw in Hp. destruct Hp as (_ & _ & Hv & Ht & _). split; [done|].
    by rewrite Hc, Hv, Ht.
  - intros Hw Hi Ht. rewrite Hw, Hi in Hp. destruct Hp as (Ha & Hl & Hp).
    destruct Hp as [[Hst [v Hv]]|(_ & _ & Hbad)]; [|by rewrite Ht in Hbad].
    destruct s as [st val al w r wr tk dr rd]. simpl in *. subst.
    assert (dr = []) as -> by (destruct dr; simpl in *; [done|lia]).
    exists v. eexists. split; [done|]. split_and!.
    + eapply rtc_l; [apply (step_reader _ CallTryRead); reflexivity|].
      eapply rtc_l; [apply (step_reader _ CallTryRead); reflexivity|].
      eapply rtc_l; [apply (step_reader _ CallTryRead); reflexivity|].
      eapply rtc_l; [apply (step_reader _ CallTryRead); reflexivity|]. apply rtc_refl.
    + done.
    + done.
Qed.
End Slot.

(** ** Evaluations *)

(** The schedule of an interleaving: [true] is a step of the writer. *)
Fixpoint run_slot (sched : list bool) (wc : WriterCall) (rc : ReaderCall) (s : Slot (T := nat)) :
    mem Slot :=
  match sched with
  | [] => Safe s
  | b :: sched =>
      match (if b then writer_step wc s else reader_step rc s) with
      | Some (Safe s) => run_slot sched wc rc s
      | Some UB => UB
      | None => Safe s
      end
  end.

Lemma run_slot_reachable sched wc rc s s' :
  run_slot sched wc rc s = Safe s' → rtc slot_safe_step s s'.
Proof.
  revert s. induction sched as [|b sched IH]; intros s; simpl; [by intros [= <-]|].
  destruct (if b then _ else _) as [[s1|]|] eqn:Es; [|done|by intros [= <-]].
  intros Hs. eapply rtc_l; [|by apply IH].
  destruct b; [by eapply step_writer|by eapply step_reader].
Qed.

(** The reader starts its drop handler before the write and finishes after. *)
Lemma slot_memory_safe_witness :
  ∃ s, run_slot [false; false; true; true; true; false; false; false]
         (CallWrite 5) CallDropReader slot = Safe s ∧
    allocated s = false ∧ value s = None ∧ written s = taken s ++ dropped s ∧ dropped s = [5].
Proof.
  destruct (run_slot [false; false; true; true; true; false; false; false]
    (CallWrite 5) CallDropReader slot) as [s|] eqn:Es; [|vm_compute in Es; discriminate].
  pose proof (slot_memory_safe s (run_slot_reachable _ _ _ _ _ Es)) as (_ & _ & Hd).
  exists s. split; [reflexivity|].
  assert (writer s = WDone (Some (Ok tt))) as Hw
    by (vm_compute in Es; injection Es as <-; reflexivity).
  assert (reader s = RDone) as Hr by (vm_compute in Es; injection Es as <-; reflexivity).
  destruct (Hd _ Hw Hr) as (H1 & H2 & H3).
  split; [exact H1|]. split; [exact H2|]. split; [exact H3|].
  vm_compute in Es. injection Es as <-. reflexivity.
Defined.

Lemma slot_reads_once_witness :
  ∃ s v s', run_slot [false; false; true; true; true] (CallWrite 5) CallTryRead slot = Safe s ∧
    written s = [v] ∧ rtc slot_safe_step s s' ∧ reads s' = reads s ++ [Ok v] ∧
    reads s = [Err NoValue].
Proof.
  destruct (run_slot [false; false; true; true; true] (CallWrite 5) CallTryRead slot)
    as [s|] eqn:Es; [|vm_compute in Es; discriminate].
  pose proof (slot_reads_once s (run_slot_reachable _ _ _ _ _ Es)) as (_ & _ & _ & _ & Hd).
  destruct Hd as (v & s' & H1 & H2 & _ & H3).
  - vm_compute in Es. injection Es as <-. reflexivity.
  - vm_compute in Es. injection Es as <-. reflexivity.
  - vm_compute in Es. injection Es as <-. reflexivity.
  - exists s, v, s'. split; [reflexivity|]. split; [exact H1|]. split; [exact H2|].
    split; [exact H3|]. vm_compute in Es. injection Es as <-. reflexivity.
Defined.
