(* ===== verification/ChannelQueue.v ===== *)
(** * The bounded queue of a mailbox (channel/queue.rs)

    Dmitry Vyukov's bounded queue with several producers and one consumer.
    Producers and the consumer are threads whose program counters stand before
    their next access to shared memory, so that every interleaving of their
    atomic accesses is a path of [queue_step]; memory ordering is not modelled
    (each access takes effect at once).  Positions and stamps are 64-bit words
    with the layout of the source: a sequence count, the flag bit, the buffer
    index.  Two histories are recorded beside the state: [claims], the
    messages in the order in which producers have moved the enqueue position,
    and [popped], the messages handed to the consumer. *)

From stdpp Require Import base option list numbers relations.
From Stdlib Require Import ZArith Lia.
From S2P Require Import Prelude.

Inductive PushError := Full | PushClosed.
Inductive PopError := Empty | PopClosed.

Section Queue.
Context {M : Type} (capacity : nat).

Inductive MessageBox := Populated (msg : M) | Vacated | BoxNone.

Record QSlot := mkQSlot { stamp : Z; message : MessageBox }.

(** A producer, in [push]. *)
Inductive Producer :=
| PIdle
| PLoad (msg : M)
| PStamp (msg : M) (enqueue_pos : Z)
| PCas (msg : M) (enqueue_pos stamp : Z)
| PWrite (msg : M) (enqueue_pos stamp : Z)
| PStore (enqueue_pos stamp : Z)
| PReturned (r : result unit PushError).

(** The consumer, in [pop] or in the drop handler of a borrowed message. *)
Inductive Consumer :=
| CIdle
| CStoreDequeue (dequeue_pos stamp : Z)
| CTake (index : nat) (stamp : Z)
| CBorrow (index : nat) (stamp : Z) (msg : M)
| CStoreStamp (index : nat) (stamp : Z)
| CCheck (dequeue_pos : Z)
| CFailed (e : PopError).

Record Queue := mkQueue {
  enqueue_pos : Z;
  dequeue_pos : Z;
  buffer : list QSlot;
  producers : list Producer;
  consumer : Consumer;
  claims : list M;
  popped : list M;
}.

(** [usize::next_power_of_two]. *)
Definition closed_channel_mask : Z := 2 ^ Z.log2_up (Z.of_nat capacity).
Definition right_mask : Z := wrap64 (wrap64 (Z.shiftl closed_channel_mask 1) - 1).

Definition queue_new (num_producers : nat) : outcome Queue :=
  let! _ := rust_assert (1 <=? Z.of_nat capacity)%Z in
  let! _ := rust_assert (Z.of_nat capacity <=? 2 ^ 63)%Z in
  Done (mkQueue 0 0 ((λ i, mkQSlot (Z.of_nat i) Vacated) <$> seq 0 capacity)
          (replicate num_producers PIdle) CIdle [] []).

Definition set_producer (i : nat) (p : Producer) (s : Queue) : Queue :=
  mkQueue (enqueue_pos s) (dequeue_pos s) (buffer s) (<[i := p]> (producers s)) (consumer s)
    (claims s) (popped s).
Definition set_consumer (c : Consumer) (s : Queue) : Queue :=
  mkQueue (enqueue_pos s) (dequeue_pos s) (buffer s) (producers s) c (claims s) (popped s).
Definition set_slot (i : nat) (sl : QSlot) (s : Queue) : Queue :=
  mkQueue (enqueue_pos s) (dequeue_pos s) (<[i := sl]> (buffer s)) (producers s) (consumer s)
    (claims s) (popped s).
Definition set_dequeue_pos (pos : Z) (s : Queue) : Queue :=
  mkQueue (enqueue_pos s) pos (buffer s) (producers s) (consumer s) (claims s) (popped s).
Definition set_enqueue_pos (pos : Z) (s : Queue) : Queue :=
  mkQueue pos (dequeue_pos s) (buffer s) (producers s) (consumer s) (claims s) (popped s).

(** The debug assertion and the overflow of a plain addition panic;
    [pos & !mask] is [Z.ldiff pos mask]. *)
Definition next_queue_pos (queue_pos : Z) : outcome Z :=
  let! _ := rust_assert (Z.land queue_pos closed_channel_mask =? 0)%Z in
  let! new_queue_pos := uadd queue_pos 1 in
  let new_index := Z.land new_queue_pos right_mask in
  if (new_index <? Z.of_nat capacity)%Z then Done new_queue_pos
  else
    let! sequence_increment := uadd right_mask 1 in
    let sequence_count := Z.ldiff queue_pos right_mask in
    Done (wrap64 (sequence_count + sequence_increment)).

Definition index_of (pos : Z) : nat := Z.to_nat (Z.land pos right_mask).

(** A word read as a signed integer. *)
Definition to_isize (z : Z) : Z := if (z <? 2 ^ 63)%Z then z else (z - 2 ^ 64)%Z.

(** *** [push] *)

(** The head of the loop, with the enqueue position just read. *)
Definition push_loop (msg : M) (pos : Z) : Producer :=
  if negb (Z.land pos closed_channel_mask =? 0)%Z then PReturned (Err PushClosed)
  else PStamp msg pos.

(** What a thread chooses: the message of its next call, and whether a weak
    compare-exchange fails although the values agree. *)
Record Choice := mkChoice { next_msg : M; spurious : bool }.

Definition producer_step (i : nat) (c : Choice) (s : Queue) : option (outcome Queue) :=
  match producers s !! i with
  | None => None
  | Some (PIdle | PReturned _) => Some (Done (set_producer i (PLoad (next_msg c)) s))
  | Some (PLoad msg) => Some (Done (set_producer i (push_loop msg (enqueue_pos s)) s))
  | Some (PStamp msg pos) => Some
      (let! slot := unwrap (buffer s !! index_of pos) in
       let stamp_delta := to_isize (wrap64 (stamp slot - pos)) in
       Done (set_producer i
         match (stamp_delta ?= 0)%Z with
         | Eq => PCas msg pos (stamp slot)
         | Lt => PReturned (Err Full)
         | Gt => PLoad msg
         end s))
  | Some (PCas msg pos st) => Some
      (let! next_pos := next_queue_pos pos in
       if negb (enqueue_pos s =? pos)%Z || spurious c then
         Done (set_producer i (push_loop msg (enqueue_pos s)) s)
       else
         Done (mkQueue next_pos (dequeue_pos s) (buffer s)
           (<[i := PWrite msg pos st]> (producers s)) (consumer s)
           (claims s ++ [msg]) (popped s)))
  | Some (PWrite msg pos st) => Some
      (let! slot := unwrap (buffer s !! index_of pos) in
       match message slot with
       | Vacated =>
           Done (set_producer i (PStore pos st)
             (set_slot (index_of pos) (mkQSlot (stamp slot) (Populated msg)) s))
       | _ => Panicked
       end)
  | Some (PStore pos st) => Some
      (let! slot := unwrap (buffer s !! index_of pos) in
       Done (set_producer i (PReturned (Ok tt))
         (set_slot (index_of pos) (mkQSlot (wrap64 (st + 1)) (message slot)) s)))
  end.

(** *** [pop], and the drop handler of [MessageBorrow] *)

Definition consumer_step (s : Queue) : outcome Queue :=
  match consumer s with
  | CIdle | CFailed _ =>
      let pos := dequeue_pos s in
      let! slot := unwrap (buffer s !! index_of pos) in
      if negb (pos =? stamp slot)%Z then
        let! _ := rust_assert (stamp slot =? pos + 1)%Z in
        Done (set_consumer (CStoreDequeue pos (stamp slot)) s)
      else Done (set_consumer (CCheck pos) s)
  | CStoreDequeue pos st =>
      let! next_pos := next_queue_pos pos in
      Done (set_consumer (CTake (index_of pos) st) (set_dequeue_pos next_pos s))
  | CTake index st =>
      let! slot := unwrap (buffer s !! index) in
      match message slot with
      | Populated msg =>
          Done (mkQueue (enqueue_pos s) (dequeue_pos s)
            (<[index := mkQSlot (stamp slot) BoxNone]> (buffer s)) (producers s)
            (CBorrow index (wrap64 (st + right_mask)) msg) (claims s) (popped s ++ [msg]))
      | _ => Panicked
      end
  | CBorrow index st _ =>
      let! slot := unwrap (buffer s !! index) in
      Done (set_consumer (CStoreStamp index st)
        (set_slot index (mkQSlot (stamp slot) Vacated) s))
  | CStoreStamp index st =>
      let! slot := unwrap (buffer s !! index) in
      Done (set_consumer CIdle (set_slot index (mkQSlot st (message slot)) s))
  | CCheck pos =>
      Done (set_consumer
        (CFailed (if (enqueue_pos s =? Z.lor pos closed_channel_mask)%Z then PopClosed
                  else Empty)) s)
  end.

Definition close (s : Queue) : Queue :=
  set_enqueue_pos (Z.lor (enqueue_pos s) closed_channel_mask) s.

Definition is_closed (s : Queue) : bool :=
  negb (Z.land (enqueue_pos s) closed_channel_mask =? 0)%Z.

(** [len], from the two positions that it loads one after the other. *)
Definition queue_len (enqueue_pos dequeue_pos : Z) : outcome Z :=
  let enqueue_idx := Z.land enqueue_pos (Z.shiftr right_mask 1) in
  let dequeue_idx := Z.land dequeue_pos (Z.shiftr right_mask 1) in
  let carry_flag :=
    negb (Z.ldiff enqueue_pos right_mask =? Z.ldiff dequeue_pos right_mask)%Z in
  let! n := uadd enqueue_idx ((if carry_flag then 1 else 0) * Z.of_nat capacity)%Z in
  usub n dequeue_idx.

(** A step of any thread; the queue may be closed at any time. *)
Inductive queue_step (s : Queue) : outcome Queue → Prop :=
| step_producer i c o : producer_step i c s = Some o → queue_step s o
| step_consumer : queue_step s (consumer_step s)
| step_close : queue_step s (Done (close s)).

Definition queue_trans (s s' : Queue) : Prop := queue_step s (Done s').
End Queue.
