(* ===== verification/ChannelFacts.v ===== *)
(** * Correctness of the bounded queue

    The positions of the queue stand for tickets: the n-th claim of the
    enqueue position has the word [pos n], and each slot of the buffer serves
    the one ticket of its index in the window of [capacity] tickets that are
    not yet released.  The invariant says, for each ticket of the window,
    which stamp and which message its slot has. *)

From stdpp Require Import base option list numbers relations.
From Stdlib Require Import ZArith Lia.
From S2P Require Import Prelude ChannelQueue.

(** ** Positions *)

Lemma signed_compare a b :
  (0 ≤ a < 2 ^ 63)%Z → (0 ≤ b < 2 ^ 63)%Z → (to_isize (wrap64 (a - b)) ?= 0)%Z = (a ?= b)%Z.
Proof.
  intros Ha Hb. unfold to_isize, wrap64, u64_modulus.
  destruct (Z.compare_spec a b) as [->|Hlt|Hlt].
  - by rewrite Z.sub_diag.
  - assert ((a - b) mod 2 ^ 64 = a - b + 2 ^ 64)%Z as ->
      by (symmetry; apply Z.mod_unique with (q := (-1)%Z); lia).
    rewrite (proj2 (Z.ltb_ge _ _)) by lia. apply Z.compare_lt_iff. lia.
  - rewrite Z.mod_small by lia. rewrite (proj2 (Z.ltb_lt _ _)) by lia.
    apply Z.compare_gt_iff. lia.
Qed.

Section Positions.
Context (capacity : nat) (Hcap : 1 ≤ capacity).
Abbreviation K := (closed_channel_mask capacity).
Context (Hsmall : (2 * K ≤ 2 ^ 62)%Z).

(** The word of the n-th position. *)
Definition pos (n : nat) : Z :=
  (Z.of_nat (n / capacity) * (2 * K) + Z.of_nat (n mod capacity))%Z.

Definition mask_bits : Z := Z.log2_up (Z.of_nat capacity).

Lemma mask_bits_nonneg : (0 ≤ mask_bits)%Z.
Proof. apply Z.log2_up_nonneg. Qed.

Lemma capacity_le_mask : (Z.of_nat capacity ≤ K)%Z.
Proof. apply Z.log2_log2_up_spec. lia. Qed.

Lemma mask_pos : (1 ≤ K)%Z.
Proof. pose proof capacity_le_mask. lia. Qed.

Lemma double_mask : (2 * K = 2 ^ (mask_bits + 1))%Z.
Proof. unfold closed_channel_mask. rewrite Z.pow_add_r; [|apply mask_bits_nonneg|lia].
  unfold mask_bits. lia. Qed.

Lemma right_mask_eq : right_mask capacity = (2 * K - 1)%Z.
Proof.
  unfold right_mask, wrap64, u64_modulus. pose proof mask_pos.
  rewrite Z.shiftl_mul_pow2, Z.pow_1_r by lia.
  rewrite (Z.mod_small (K * 2)) by lia. rewrite Z.mod_small by lia. lia.
Qed.

Lemma land_right_mask z : (0 ≤ z)%Z → Z.land z (right_mask capacity) = (z mod (2 * K))%Z.
Proof.
  intros Hz. rewrite right_mask_eq, double_mask, Z.sub_1_r, <-Z.ones_equiv.
  pose proof mask_bits_nonneg. by rewrite Z.land_ones by lia.
Qed.

Lemma ldiff_right_mask z : Z.ldiff z (right_mask capacity) = (z / (2 * K) * (2 * K))%Z.
Proof.
  rewrite right_mask_eq, double_mask, Z.sub_1_r, <-Z.ones_equiv.
  pose proof mask_bits_nonneg. rewrite Z.ldiff_ones_r by lia.
  rewrite Z.shiftr_div_pow2, Z.shiftl_mul_pow2 by lia. done.
Qed.

Lemma mod_lt n : n mod capacity < capacity.
Proof. apply Nat.mod_upper_bound. lia. Qed.

Lemma pos_mod n : (pos n mod (2 * K) = Z.of_nat (n mod capacity))%Z.
Proof.
  unfold pos. pose proof capacity_le_mask. pose proof (mod_lt n).
  rewrite Z.add_comm, Z.mod_add by lia. apply Z.mod_small. lia.
Qed.

Lemma pos_div n : (pos n / (2 * K) = Z.of_nat (n / capacity))%Z.
Proof.
  unfold pos. pose proof capacity_le_mask. pose proof (mod_lt n).
  rewrite Z.add_comm, Z.div_add by lia. rewrite Z.div_small by lia. lia.
Qed.

Lemma pos_nonneg n : (0 ≤ pos n)%Z.
Proof. unfold pos. pose proof mask_pos. nia. Qed.

Lemma index_pos n : index_of capacity (pos n) = n mod capacity.
Proof.
  unfold index_of. rewrite land_right_mask by apply pos_nonneg. rewrite pos_mod. lia.
Qed.

Lemma pos_S n :
  pos (S n) = if decide (S (n mod capacity) < capacity) then (pos n + 1)%Z
              else (Z.of_nat (S (n / capacity)) * (2 * K))%Z.
Proof.
  unfold pos. pose proof (Nat.div_mod n capacity ltac:(lia)) as Hdm. pose proof (mod_lt n).
  case_decide as Hd.
  - assert (S n = capacity * (n / capacity) + S (n mod capacity)) as Heq by lia.
    rewrite <-(Nat.div_unique _ _ _ _ Hd Heq), <-(Nat.mod_unique _ _ _ _ Hd Heq). lia.
  - assert (S n = capacity * S (n / capacity) + 0) as Heq by lia.
    rewrite <-(Nat.div_unique (S n) capacity (S (n / capacity)) 0),
      <-(Nat.mod_unique (S n) capacity (S (n / capacity)) 0) by lia. lia.
Qed.

Lemma pos_S_gt n : (pos n + 1 ≤ pos (S n))%Z.
Proof.
  rewrite pos_S. case_decide; [lia|]. unfold pos. pose proof capacity_le_mask.
  pose proof (mod_lt n). lia.
Qed.

Lemma pos_lt n m : n < m → (pos n + 1 ≤ pos m)%Z.
Proof.
  induction 1 as [|m Hlt IH]; [apply pos_S_gt|]. pose proof (pos_S_gt m). lia.
Qed.

Lemma pos_le n m : n ≤ m → (pos n ≤ pos m)%Z.
Proof. intros Hle. destruct (decide (n = m)) as [->|]; [lia|]. pose proof (pos_lt n m). lia. Qed.

Lemma pos_inj n m : pos n = pos m → n = m.
Proof.
  intros Heq. destruct (lt_eq_lt_dec n m) as [[Hlt|]|Hlt]; [|done|];
    apply pos_lt in Hlt; lia.
Qed.

Lemma pos_add_capacity n : pos (n + capacity) = (pos n + 2 * K)%Z.
Proof.
  unfold pos. pose proof (Nat.div_add n 1 capacity ltac:(lia)) as Hd.
  pose proof (Nat.Div0.mod_add n 1 capacity) as Hm. rewrite Nat.mul_1_l in Hd, Hm.
  rewrite Hd, Hm. lia.
Qed.

(** Tickets of one slot are a multiple of the capacity apart. *)
Lemma same_slot n m : n mod capacity = m mod capacity → n < m → n + capacity ≤ m.
Proof.
  intros Heq Hlt. pose proof (Nat.div_mod n capacity ltac:(lia)).
  pose proof (Nat.div_mod m capacity ltac:(lia)).
  assert (n / capacity < m / capacity) by nia. nia.
Qed.

Lemma window_unique n m r :
  n mod capacity = m mod capacity → r ≤ n < r + capacity → r ≤ m < r + capacity → n = m.
Proof.
  intros Heq Hn Hm. destruct (lt_eq_lt_dec n m) as [[Hlt|]|Hlt]; [|done|].
  - apply same_slot in Hlt; [lia|done].
  - apply same_slot in Hlt; [lia|done].
Qed.

(** The flag bit of a position is clear, and setting it adds the mask. *)
Lemma flag_bit n (b : bool) :
  Z.testbit (pos n + (if b then K else 0)) mask_bits = b.
Proof.
  pose proof mask_bits_nonneg. pose proof capacity_le_mask. pose proof (mod_lt n).
  rewrite Z.testbit_odd, Z.shiftr_div_pow2 by done. fold K. change (2 ^ mask_bits)%Z with K.
  assert ((pos n + (if b then K else 0)) / K =
          2 * Z.of_nat (n / capacity) + (if b then 1 else 0))%Z as ->.
  { symmetry. apply Z.div_unique with (r := Z.of_nat (n mod capacity)); [lia|].
    unfold pos. destruct b; lia. }
  rewrite Z.odd_add, Z.odd_mul. by destruct b.
Qed.

Lemma land_mask z : Z.land z K = (if Z.testbit z mask_bits then K else 0%Z).
Proof.
  pose proof mask_bits_nonneg. unfold closed_channel_mask. fold mask_bits.
  apply Z.bits_inj'. intros i Hi. rewrite Z.land_spec.
  destruct (decide (i = mask_bits)) as [->|Hne].
  - rewrite Z.pow2_bits_true by done. destruct (Z.testbit z mask_bits); simpl.
    + by rewrite Z.pow2_bits_true.
    + by rewrite Z.bits_0.
  - rewrite Z.pow2_bits_false, andb_false_r by done. destruct (Z.testbit z mask_bits).
    + by rewrite Z.pow2_bits_false.
    + by rewrite Z.bits_0.
Qed.

Lemma land_flag n (b : bool) :
  Z.land (pos n + (if b then K else 0)) K = (if b then K else 0%Z).
Proof. by rewrite land_mask, flag_bit. Qed.

Lemma lor_mask n (b : bool) :
  Z.lor (pos n + (if b then K else 0)) K = (pos n + K)%Z.
Proof.
  pose proof (Z.add_lor_land (pos n + (if b then K else 0)) K) as Heq.
  rewrite land_flag in Heq. destruct b; lia.
Qed.

Lemma next_pos n : (pos (S n) < 2 ^ 64)%Z → next_queue_pos capacity (pos n) = Done (pos (S n)).
Proof.
  intros Hb. pose proof (pos_nonneg n). pose proof (pos_S_gt n). pose proof mask_pos.
  pose proof capacity_le_mask. pose proof (mod_lt n).
  unfold next_queue_pos, uadd, wrap64, u64_modulus.
  pose proof (land_flag n false) as Hflag. simpl in Hflag. rewrite Z.add_0_r in Hflag.
  rewrite Hflag, Z.eqb_refl. simpl.
  rewrite (proj2 (Z.ltb_lt (pos n + 1) (2 ^ 64))) by lia. simpl. rewrite land_right_mask by lia.
  assert ((pos n + 1) mod (2 * K) = Z.of_nat (n mod capacity) + 1)%Z as ->.
  { symmetry. apply Z.mod_unique with (q := Z.of_nat (n / capacity)); [lia|].
    unfold pos. lia. }
  rewrite pos_S. case_decide.
  - rewrite (proj2 (Z.ltb_lt _ _)) by lia. done.
  - rewrite (proj2 (Z.ltb_ge _ _)) by lia.
    rewrite ldiff_right_mask, pos_div, right_mask_eq.
    rewrite pos_S, decide_False in Hb by done.
    rewrite (proj2 (Z.ltb_lt (2 * K - 1 + 1) (2 ^ 64))) by lia. simpl. f_equal.
    rewrite Z.mod_small; lia.
Qed.

(** The buffer index of a position, flag or not. *)
Lemma low_bits n (b : bool) :
  Z.land (pos n + (if b then K else 0)) (Z.shiftr (right_mask capacity) 1) =
  Z.of_nat (n mod capacity).
Proof.
  pose proof mask_bits_nonneg. pose proof mask_pos. pose proof capacity_le_mask.
  rewrite right_mask_eq, Z.shiftr_div_pow2, Z.pow_1_r by lia.
  replace ((2 * K - 1) / 2)%Z with (Z.pred K) by (apply Z.div_unique with (r := 1%Z); lia).
  unfold closed_channel_mask at 2. fold mask_bits.
  rewrite <-Z.ones_equiv, Z.land_ones by done. change (2 ^ mask_bits)%Z with K.
  pose proof (mod_lt n). symmetry.
  apply Z.mod_unique with (q := (2 * Z.of_nat (n / capacity) + (if b then 1 else 0))%Z); [lia|].
  unfold pos. destruct b; lia.
Qed.

(** The sequence count of a position, flag or not. *)
Lemma sequence_bits n (b : bool) :
  Z.ldiff (pos n + (if b then K else 0)) (right_mask capacity) =
  (Z.of_nat (n / capacity) * (2 * K))%Z.
Proof.
  rewrite ldiff_right_mask. pose proof (mod_lt n). pose proof capacity_le_mask. f_equal.
  symmetry. apply Z.div_unique with
    (r := (Z.of_nat (n mod capacity) + (if b then K else 0))%Z); [destruct b; lia|].
  unfold pos. lia.
Qed.
End Positions.

(** ** Invariant *)

(** How far the push of a claimed ticket is, and by which producer. *)
Inductive phase := PhClaimed (i : nat) | PhWritten (i : nat) | PhReady.

#[export] Instance phase_eq_dec : EqDecision phase.
Proof. solve_decision. Defined.

Section Invariant.
Context {M : Type} (capacity : nat) (Hcap : 1 ≤ capacity).
Abbreviation K := (closed_channel_mask capacity).
Abbreviation pos := (pos capacity).
Abbreviation Queue := (Queue (M := M)).
Abbreviation QSlot := (QSlot (M := M)).
Abbreviation Producer := (Producer (M := M)).
Abbreviation Consumer := (Consumer (M := M)).
Implicit Types (s : Queue) (sl : QSlot) (c : Consumer) (ph : list phase) (cl : list M).

(** The sequence counts have not wrapped after [n] claims. *)
Definition bounded (n : nat) : Prop :=
  ((Z.of_nat (n / capacity) + 2) * (2 * K) ≤ 2 ^ 63)%Z.

(** The consumer holds the slot of the last ticket it has dequeued. *)
Definition holds_slot c : bool :=
  match c with CTake _ _ | CBorrow _ _ _ | CStoreStamp _ _ => true | _ => false end.

(** The first ticket whose slot is not released, after [D] dequeues. *)
Definition first_held (D : nat) c : nat := if holds_slot c then D - 1 else D.

Definition held_message cl n c : MessageBox (M := M) → Prop := λ b,
  match c with
  | CTake _ _ => ∃ m, cl !! n = Some m ∧ b = Populated m
  | CBorrow _ _ _ => b = BoxNone
  | _ => b = Vacated
  end.

Definition slot_ok D ph cl c (n : nat) sl : Prop :=
  if decide (n < D) then stamp sl = (pos n + 1)%Z ∧ held_message cl n c (message sl)
  else match ph !! n with
    | None | Some (PhClaimed _) => stamp sl = pos n ∧ message sl = Vacated
    | Some (PhWritten _) =>
        stamp sl = pos n ∧ ∃ m, cl !! n = Some m ∧ message sl = Populated m
    | Some PhReady =>
        stamp sl = (pos n + 1)%Z ∧ ∃ m, cl !! n = Some m ∧ message sl = Populated m
    end.

Definition slots_ok D ph cl c (b : list QSlot) : Prop :=
  ∀ n, first_held D c ≤ n < first_held D c + capacity →
    ∃ sl, b !! (n mod capacity) = Some sl ∧ slot_ok D ph cl c n sl.

Definition producer_ok D ph cl c (i : nat) (p : Producer) : Prop :=
  match p with
  | PIdle | PLoad _ | PReturned _ => True
  | PStamp _ z => ∃ n, z = pos n ∧ n ≤ length cl
  | PCas _ z st => ∃ n, z = pos n ∧ st = z ∧ n ≤ length cl ∧ n < first_held D c + capacity
  | PWrite m z st => ∃ n, z = pos n ∧ st = z ∧ ph !! n = Some (PhClaimed i) ∧ cl !! n = Some m
  | PStore z st => ∃ n, z = pos n ∧ st = z ∧ ph !! n = Some (PhWritten i)
  end.

Definition consumer_ok D ph cl (closed : bool) c (popped : list M) : Prop :=
  match c with
  | CIdle | CFailed Empty => popped = take D cl
  | CFailed PopClosed => popped = take D cl ∧ closed = true ∧ D = length cl
  | CCheck z => popped = take D cl ∧ z = pos D
  | CStoreDequeue z st => popped = take D cl ∧ z = pos D ∧ st = (pos D + 1)%Z ∧
      ph !! D = Some PhReady
  | CTake i st => popped = take (D - 1) cl ∧ i = (D - 1) mod capacity ∧
      st = (pos (D - 1) + 1)%Z ∧ 1 ≤ D
  | CBorrow i st _ | CStoreStamp i st => popped = take D cl ∧ i = (D - 1) mod capacity ∧
      st = pos (D - 1 + capacity) ∧ 1 ≤ D
  end.

(** Which producer is at which ticket. *)
Definition phases_ok D ph (ps : list Producer) : Prop :=
  ∀ n, match ph !! n with
    | Some (PhClaimed i) => D ≤ n ∧ ∃ m, ps !! i = Some (PWrite m (pos n) (pos n))
    | Some (PhWritten i) => D ≤ n ∧ ps !! i = Some (PStore (pos n) (pos n))
    | _ => True
    end.

Record queue_inv s (D : nat) ph (closed : bool) : Prop := {
  qi_enqueue : enqueue_pos s = (pos (length (claims s)) + (if closed then K else 0))%Z;
  qi_dequeue : dequeue_pos s = pos D;
  qi_ph : length ph = length (claims s);
  qi_D : D ≤ length (claims s);
  qi_window : length (claims s) ≤ first_held D (consumer s) + capacity;
  qi_len : length (buffer s) = capacity;
  qi_slots : slots_ok D ph (claims s) (consumer s) (buffer s);
  qi_producers : ∀ i p, producers s !! i = Some p →
    producer_ok D ph (claims s) (consumer s) i p;
  qi_consumer : consumer_ok D ph (claims s) closed (consumer s) (popped s);
  qi_phases : phases_ok D ph (producers s);
}.

Lemma bounded_small n : bounded n → (2 * K ≤ 2 ^ 62)%Z.
Proof. unfold bounded. pose proof (mask_pos capacity Hcap). nia. Qed.

Lemma bounded_le n m : n ≤ m → bounded m → bounded n.
Proof.
  unfold bounded. intros Hle Hb. pose proof (mask_pos capacity Hcap).
  pose proof (Nat.Div0.div_le_mono n m capacity Hle). nia.
Qed.

Lemma bounded_pos n m : bounded n → m ≤ n + capacity → (pos m + 1 < 2 ^ 63)%Z.
Proof.
  intros Hb Hle. pose proof (bounded_small n Hb).
  pose proof (pos_le capacity Hcap m (n + capacity) Hle) as Hp.
  rewrite pos_add_capacity in Hp by done. unfold bounded in Hb.
  unfold ChannelFacts.pos in *. pose proof (capacity_le_mask capacity Hcap).
  pose proof (mod_lt capacity Hcap n). lia.
Qed.

(** The ticket of a slot in the window. *)
Lemma window_ticket (n r : nat) :
  ∃ t, r ≤ t < r + capacity ∧ t mod capacity = n mod capacity.
Proof.
  pose proof (mod_lt capacity Hcap n). pose proof (mod_lt capacity Hcap r).
  exists (r + (n mod capacity + (capacity - r mod capacity)) mod capacity). split.
  { pose proof (mod_lt capacity Hcap (n mod capacity + (capacity - r mod capacity))). lia. }
  rewrite Nat.Div0.add_mod_idemp_r.
  rewrite (Nat.div_mod r capacity) at 1 by lia.
  replace (capacity * (r / capacity) + r mod capacity +
    (n mod capacity + (capacity - r mod capacity)))
    with (n mod capacity + (1 + r / capacity) * capacity) by lia.
  rewrite Nat.Div0.mod_add. by apply Nat.Div0.mod_mod.
Qed.

(** A change of one slot of the window. *)
Lemma slots_ok_set D ph cl c D' ph' cl' c' b n0 sl0 :
  slots_ok D ph cl c b → first_held D' c' = first_held D c →
  first_held D c ≤ n0 < first_held D c + capacity → length b = capacity →
  slot_ok D' ph' cl' c' n0 sl0 →
  (∀ n sl, first_held D c ≤ n → n ≠ n0 → slot_ok D ph cl c n sl → slot_ok D' ph' cl' c' n sl) →
  slots_ok D' ph' cl' c' (<[n0 mod capacity := sl0]> b).
Proof.
  intros Hs Hf Hn0 Hlen H0 Hother n Hn. rewrite Hf in Hn.
  destruct (decide (n = n0)) as [->|Hne].
  - exists sl0. split; [|done]. apply list_lookup_insert_eq. rewrite Hlen.
    by apply mod_lt.
  - destruct (Hs n Hn) as (sl & Hl & Hok). exists sl. split; [|by apply Hother; [lia|..]].
    rewrite list_lookup_insert_ne; [done|]. intros Heq. apply Hne.
    by eapply window_unique.
Qed.

Lemma slots_ok_mono D ph cl c D' ph' cl' c' b :
  slots_ok D ph cl c b → first_held D' c' = first_held D c →
  (∀ n sl, first_held D c ≤ n → slot_ok D ph cl c n sl → slot_ok D' ph' cl' c' n sl) →
  slots_ok D' ph' cl' c' b.
Proof.
  intros Hs Hf Himp n Hn. rewrite Hf in Hn. destruct (Hs n Hn) as (sl & ? & ?).
  exists sl. split; [done|]. apply Himp; [lia|done].
Qed.

(** ** Producers *)

Definition quiet (p : Producer) : Prop :=
  match p with PWrite _ _ _ | PStore _ _ => False | _ => True end.

Lemma set_producer_inv s D ph closed i p p' :
  queue_inv s D ph closed → producers s !! i = Some p → quiet p → quiet p' →
  producer_ok D ph (claims s) (consumer s) i p' →
  queue_inv (set_producer i p' s) D ph closed.
Proof.
  intros [He Hd Hph HD Hw Hl Hs Hp Hc Hphs] Hi Hq Hq' Hok.
  split; simpl; try done.
  - intros j q Hj. apply list_lookup_insert_Some in Hj as [(<- & <- & _)|[_ Hj]]; [done|].
    by apply Hp.
  - intros n. specialize (Hphs n). destruct (ph !! n) as [[k|k|]|]; [| |done..].
    + destruct Hphs as [? [m Hk]]. split; [done|]. exists m.
      rewrite list_lookup_insert_ne; [done|]. intros ->. rewrite Hi in Hk. by simplify_eq.
    + destruct Hphs as [? Hk]. split; [done|].
      rewrite list_lookup_insert_ne; [done|]. intros ->. rewrite Hi in Hk. by simplify_eq.
Qed.

Lemma push_loop_ok s D ph closed m :
  queue_inv s D ph closed → bounded (length (claims s)) →
  quiet (push_loop capacity m (enqueue_pos s)) ∧
  ∀ i, producer_ok D ph (claims s) (consumer s) i (push_loop capacity m (enqueue_pos s)).
Proof.
  intros Hinv Hb. unfold push_loop. rewrite (qi_enqueue _ _ _ _ Hinv).
  rewrite land_flag by (done || by eapply bounded_small).
  pose proof (mask_pos capacity Hcap). destruct closed.
  - rewrite (proj2 (Z.eqb_neq _ _)) by lia. done.
  - simpl. split; [done|]. intros _. rewrite Z.add_0_r. eauto.
Qed.

(** What a producer reads in the slot of its position. *)
Lemma stamp_read s D ph closed n :
  queue_inv s D ph closed → bounded (length (claims s)) → n ≤ length (claims s) →
  ∃ sl, buffer s !! index_of capacity (pos n) = Some sl ∧
    match (to_isize (wrap64 (stamp sl - pos n)) ?= 0)%Z with
    | Eq => stamp sl = pos n ∧ n < first_held D (consumer s) + capacity
    | Lt => length (claims s) = first_held D (consumer s) + capacity
    | Gt => True
    end.
Proof.
  intros [He Hd Hph HD Hw Hl Hs Hp Hc Hphs] Hb Hn. pose proof (bounded_small _ Hb) as Hsm.
  set (r := first_held D (consumer s)) in *.
  destruct (window_ticket n r) as (t & Ht & Hmod).
  destruct (Hs t Ht) as (sl & Hsl & Hok). rewrite Hmod in Hsl.
  exists sl. rewrite index_pos by done. split; [done|].
  assert (stamp sl = pos t ∨ stamp sl = (pos t + 1)%Z) as Hst.
  { unfold slot_ok in Hok. case_decide; [naive_solver|].
    destruct (ph !! t) as [[]|]; naive_solver. }
  pose proof (bounded_pos _ t Hb ltac:(unfold r, first_held in *;
    destruct (holds_slot _); lia)).
  pose proof (bounded_pos _ n Hb ltac:(lia)).
  pose proof (pos_nonneg capacity Hcap t). pose proof (pos_nonneg capacity Hcap n).
  rewrite signed_compare by lia.
  destruct (lt_eq_lt_dec t n) as [[Hlt|<-]|Hlt].
  - pose proof (same_slot capacity Hcap t n Hmod Hlt) as Hge.
    pose proof (pos_lt capacity Hcap t n Hlt). pose proof (pos_add_capacity capacity Hcap t).
    pose proof (pos_le capacity Hcap _ _ Hge). pose proof (mask_pos capacity Hcap).
    rewrite (proj2 (Z.compare_lt_iff _ _)) by lia. lia.
  - destruct Hst as [->|Hst].
    + rewrite Z.compare_refl. split; [done|lia].
    + by rewrite (proj2 (Z.compare_gt_iff _ _)) by lia.
  - pose proof (pos_lt capacity Hcap n t Hlt).
    by rewrite (proj2 (Z.compare_gt_iff _ _)) by lia.
Qed.

(** A ticket that a producer holds is in the window. *)
Lemma held_ticket s D ph closed n p :
  queue_inv s D ph closed → ph !! n = Some p → p ≠ PhReady →
  D ≤ n ∧ n < length (claims s) ∧
  first_held D (consumer s) ≤ n < first_held D (consumer s) + capacity.
Proof.
  intros [He Hd Hph HD Hw Hl Hs Hp Hc Hphs] Hn Hne. specialize (Hphs n). rewrite Hn in Hphs.
  assert (D ≤ n) by (destruct p; naive_solver). apply lookup_lt_Some in Hn.
  unfold first_held in *. destruct (holds_slot _); lia.
Qed.

Lemma next_pos_bounded k n :
  bounded k → n ≤ k → next_queue_pos capacity (pos n) = Done (pos (S n)).
Proof.
  intros Hb Hn. apply next_pos; [done|by eapply bounded_small|].
  pose proof (bounded_pos _ (S n) Hb ltac:(lia)). lia.
Qed.

Lemma claim_inv s D ph i m n :
  queue_inv s D ph false → bounded (length (claims s)) →
  producers s !! i = Some (PCas m (pos n) (pos n)) → enqueue_pos s = pos n →
  n < first_held D (consumer s) + capacity →
  queue_inv (mkQueue (pos (S n)) (dequeue_pos s) (buffer s)
    (<[i := PWrite m (pos n) (pos n)]> (producers s)) (consumer s)
    (claims s ++ [m]) (popped s)) D (ph ++ [PhClaimed i]) false.
Proof.
  intros [He Hd Hph HD Hw Hl Hs Hp Hc Hphs] Hb Hi Heq Hn.
  rewrite He, Z.add_0_r in Heq. apply (pos_inj capacity Hcap) in Heq as <-.
  assert (∀ k (x : M), claims s !! k = Some x → (claims s ++ [m]) !! k = Some x) as Hcl
    by (intros; by apply lookup_app_l_Some).
  split; simpl; rewrite ?length_app; simpl.
  - by rewrite Z.add_0_r, Nat.add_1_r.
  - done.
  - lia.
  - lia.
  - lia.
  - done.
  - eapply slots_ok_mono; [done..|]. intros k sl _. unfold slot_ok. case_decide as Hk.
    { unfold held_message. intros [? Hm]. split; [done|]. destruct (consumer s); naive_solver. }
    destruct (decide (k < length ph)).
    + rewrite lookup_app_l by done. destruct (ph !! k) as [[]|]; naive_solver.
    + rewrite (lookup_ge_None_2 ph) by lia. rewrite lookup_app_r by lia.
      by destruct (k - length ph).
  - intros j q Hj. apply list_lookup_insert_Some in Hj as [(<- & <- & _)|[Hne Hj]].
    + exists (length (claims s)). split_and!; [done|done| |].
      * by rewrite lookup_app_r, Hph, Nat.sub_diag by lia.
      * by rewrite lookup_app_r, Nat.sub_diag by lia.
    + apply Hp in Hj. destruct q; simpl in *; rewrite ?length_app; simpl; try done.
      * destruct Hj as (k & ? & ?). exists k. lia.
      * destruct Hj as (k & ? & ? & ? & ?). exists k. split_and!; [done|done|lia|lia].
      * destruct Hj as (k & ? & ? & Hk & ?). exists k.
        split_and!; [done|done|by apply lookup_app_l_Some|auto].
      * destruct Hj as (k & ? & ? & Hk). exists k.
        split_and!; [done|done|by apply lookup_app_l_Some].
  - destruct (consumer s) as [| | | | | |[]]; simpl in *; rewrite ?take_app_le by lia; try done.
    + destruct Hc as (? & ? & ? & Hk). split_and!; [done..|]. by apply lookup_app_l_Some.
    + naive_solver.
  - intros k. destruct (decide (k < length ph)).
    + rewrite lookup_app_l by done. specialize (Hphs k).
      destruct (ph !! k) as [[j|j|]|]; [| |done..].
      * destruct Hphs as [? [m' Hj]]. split; [done|]. exists m'.
        rewrite list_lookup_insert_ne; [done|]. intros ->. by simplify_eq.
      * destruct Hphs as [? Hj]. split; [done|].
        rewrite list_lookup_insert_ne; [done|]. intros ->. by simplify_eq.
    + rewrite lookup_app_r by lia. destruct (k - length ph) eqn:Ek; [|done]. simpl.
      assert (k = length (claims s)) as -> by lia. split; [done|]. exists m.
      apply list_lookup_insert_eq. by eapply lookup_lt_Some.
Qed.

(** The push of ticket [n] by producer [i] moves to its next phase. *)
Lemma phase_inv s D ph closed i n p p' f f' sl :
  queue_inv s D ph closed → producers s !! i = Some p → ph !! n = Some f →
  f = PhClaimed i ∧ p' = PStore (pos n) (pos n) ∧ f' = PhWritten i ∨
  f = PhWritten i ∧ quiet p' ∧ producer_ok D ph (claims s) (consumer s) i p' ∧ f' = PhReady →
  slot_ok D (<[n := f']> ph) (claims s) (consumer s) n sl →
  queue_inv (set_producer i p' (set_slot (n mod capacity) sl s)) D (<[n := f']> ph) closed.
Proof.
  intros Hinv Hi Hn Hf Hsl.
  assert (f ≠ PhReady) as Hne by naive_solver.
  destruct (held_ticket s D ph closed n f Hinv Hn Hne) as (HDn & Hlen & Hwin).
  destruct Hinv as [He Hd Hph HD Hw Hl Hs Hp Hc Hphs].
  assert (∀ k g, ph !! k = Some g → k ≠ n → <[n := f']> ph !! k = Some g) as Hother
    by (intros; by rewrite list_lookup_insert_ne).
  split; simpl; try done.
  - by rewrite length_insert.
  - by rewrite length_insert.
  - eapply slots_ok_set; [done..|]. intros k sl' _ Hk. unfold slot_ok.
    by rewrite list_lookup_insert_ne.
  - intros j q Hj. apply list_lookup_insert_Some in Hj as [(<- & <- & _)|[Hij Hj]].
    + destruct Hf as [(-> & -> & ->)|(-> & Hq & Hok & ->)].
      * exists n. split_and!; [done..|]. apply list_lookup_insert_eq. lia.
      * destruct p'; try done.
    + apply Hp in Hj. destruct q; simpl in *; try done.
      * destruct Hj as (k & ? & ? & Hk & ?). exists k. split_and!; [done|done| |done].
        apply Hother; [done|]. intros ->. rewrite Hk in Hn. naive_solver.
      * destruct Hj as (k & ? & ? & Hk). exists k. split_and!; [done|done|].
        apply Hother; [done|]. intros ->. rewrite Hk in Hn. naive_solver.
  - destruct (consumer s) as [| | | | | |[]]; simpl in *; try done.
    destruct Hc as (? & ? & ? & Hk). split_and!; [done..|]. apply Hother; [done|].
    intros ->. rewrite Hk in Hn. naive_solver.
  - intros k. destruct (decide (k = n)) as [->|Hk].
    + rewrite list_lookup_insert_eq by lia.
      destruct Hf as [(-> & -> & ->)|(-> & _ & _ & ->)]; [|done]. split; [done|].
      apply list_lookup_insert_eq. by eapply lookup_lt_Some.
    + rewrite list_lookup_insert_ne by done. pose proof (Hphs n) as Hpn. specialize (Hphs k).
      rewrite Hn in Hpn.
      destruct (ph !! k) as [[j|j|]|] eqn:Ek; [| |done..].
      * destruct Hphs as [? [m Hj]]. split; [done|]. exists m.
        rewrite list_lookup_insert_ne; [done|]. intros <-.
        destruct Hf as [(-> & _)|(-> & _)]; destruct Hpn as [_ Hpn];
          [destruct Hpn as [? Hpn]|]; rewrite Hj in Hpn; [|done].
        injection Hpn as _ Heq. by apply (pos_inj capacity Hcap) in Heq.
      * destruct Hphs as [? Hj]. split; [done|].
        rewrite list_lookup_insert_ne; [done|]. intros <-.
        destruct Hf as [(-> & _)|(-> & _)]; destruct Hpn as [_ Hpn];
          [destruct Hpn as [? Hpn]|]; rewrite Hj in Hpn; [done|].
        injection Hpn as Heq. by apply (pos_inj capacity Hcap) in Heq.
Qed.

(** The effect of a producer's step on the histories. *)
Definition claims_step (closed : bool) s s' : Prop :=
  popped s' = popped s ∧
  (claims s' = claims s ∨ closed = false ∧ ∃ m, claims s' = claims s ++ [m]).

Lemma producer_step_inv i ch s o D ph closed :
  queue_inv s D ph closed → bounded (length (claims s)) →
  producer_step capacity i ch s = Some o →
  ∃ s' ph', o = Done s' ∧ queue_inv s' D ph' closed ∧ claims_step closed s s'.
Proof.
  intros Hinv Hb. pose proof (bounded_small _ Hb) as Hsm. unfold producer_step.
  destruct (producers s !! i) as [p|] eqn:Hi; [|done].
  pose proof (qi_producers _ _ _ _ Hinv i p Hi) as Hok.
  assert (∀ p', quiet p → quiet p' → producer_ok D ph (claims s) (consumer s) i p' →
    ∃ s' ph', Done (set_producer i p' s) = Done s' ∧ queue_inv s' D ph' closed ∧
      claims_step closed s s') as Hset.
  { intros p' Hq Hq' Hok'. do 2 eexists. split; [done|].
    split; [by eapply set_producer_inv|]. split; [done|by left]. }
  destruct p as [|m|m z|m z st|m z st|z st|r]; intros [= <-].
  - by apply Hset.
  - destruct (push_loop_ok s D ph closed m Hinv Hb) as [Hq Hpl]. by apply Hset.
  - destruct Hok as (n & -> & Hn).
    destruct (stamp_read s D ph closed n Hinv Hb Hn) as (sl & -> & Hsl). simpl.
    destruct (_ ?= 0)%Z; apply Hset; try done. destruct Hsl as [-> Hlt]. by exists n.
  - destruct (push_loop_ok s D ph closed m Hinv Hb) as [Hq Hpl].
    destruct Hok as (n & -> & -> & Hn & Hlt).
    rewrite (next_pos_bounded _ n Hb Hn). cbn [obind].
    destruct (negb (enqueue_pos s =? pos n)%Z || spurious ch) eqn:Ec; [by apply Hset|].
    apply orb_false_iff in Ec as [Ec _]. apply negb_false_iff, Z.eqb_eq in Ec.
    destruct closed.
    { rewrite (qi_enqueue _ _ _ _ Hinv) in Ec.
      pose proof (flag_bit capacity Hcap (length (claims s)) true) as Hf.
      cbv iota in Hf. rewrite Ec in Hf.
      pose proof (flag_bit capacity Hcap n false) as Hf'. rewrite Z.add_0_r in Hf'. congruence. }
    do 2 eexists. split; [done|]. split; [by apply claim_inv|].
    split; [done|]. right. eauto.
  - destruct Hok as (n & -> & -> & Hph & Hm).
    destruct (held_ticket s D ph closed n _ Hinv Hph ltac:(done)) as (HDn & Hlen & Hwin).
    destruct (qi_slots _ _ _ _ Hinv n Hwin) as (sl & Hsl & Hslot).
    rewrite index_pos, Hsl by done. simpl.
    unfold slot_ok in Hslot. rewrite decide_False, Hph in Hslot by lia.
    destruct Hslot as [Hst ->]. do 2 eexists. split; [done|].
    split; [|by split; [|left]].
    eapply phase_inv; [done|done|exact Hph|by left|].
    unfold slot_ok. rewrite decide_False by lia.
    rewrite list_lookup_insert_eq by (rewrite (qi_ph _ _ _ _ Hinv); lia). simpl. eauto.
  - destruct Hok as (n & -> & -> & Hph).
    destruct (held_ticket s D ph closed n _ Hinv Hph ltac:(done)) as (HDn & Hlen & Hwin).
    destruct (qi_slots _ _ _ _ Hinv n Hwin) as (sl & Hsl & Hslot).
    rewrite index_pos, Hsl by done. simpl.
    unfold slot_ok in Hslot. rewrite decide_False, Hph in Hslot by lia.
    destruct Hslot as [Hst Hm]. do 2 eexists. split; [done|].
    split; [|by split; [|left]].
    eapply phase_inv; [done|done|exact Hph|by right|].
    unfold slot_ok. rewrite decide_False by lia.
    rewrite list_lookup_insert_eq by (rewrite (qi_ph _ _ _ _ Hinv); lia). simpl.
    split; [|done]. unfold wrap64, u64_modulus. apply Z.mod_small.
    pose proof (bounded_pos _ n Hb ltac:(lia)). pose proof (pos_nonneg capacity Hcap n). lia.
  - by apply Hset.
Qed.

(** ** The consumer *)

(** A change of the consumer that keeps the slots it holds. *)
Lemma set_consumer_inv s D ph closed c :
  queue_inv s D ph closed → holds_slot (consumer s) = false → holds_slot c = false →
  consumer_ok D ph (claims s) closed c (popped s) →
  queue_inv (set_consumer c s) D ph closed.
Proof.
  intros [He Hd Hph HD Hw Hl Hs Hp Hc Hphs] Hh Hh' Hok.
  assert (first_held D c = first_held D (consumer s)) as Hf
    by (unfold first_held; by rewrite Hh, Hh').
  split; simpl; try done.
  - by rewrite Hf.
  - eapply slots_ok_mono; [done..|]. intros n sl Hn. unfold slot_ok.
    rewrite !decide_False; [done|..]; unfold first_held in Hn; rewrite Hh in Hn; lia.
  - intros i p Hi. apply Hp in Hi. destruct p; simpl in *; try done. by rewrite Hf.
Qed.

Lemma pop_head s D ph closed :
  queue_inv s D ph closed → bounded (length (claims s)) →
  holds_slot (consumer s) = false → popped s = take D (claims s) →
  ∃ c, (let! slot := unwrap (buffer s !! index_of capacity (dequeue_pos s)) in
        if negb (dequeue_pos s =? stamp slot)%Z then
          let! _ := rust_assert (stamp slot =? dequeue_pos s + 1)%Z in
          Done (set_consumer (CStoreDequeue (dequeue_pos s) (stamp slot)) s)
        else Done (set_consumer (CCheck (dequeue_pos s)) s)) = Done (set_consumer c s) ∧
    queue_inv (set_consumer c s) D ph closed.
Proof.
  intros Hinv Hb Hh Hpop. pose proof (bounded_small _ Hb) as Hsm.
  destruct (qi_slots _ _ _ _ Hinv D) as (sl & Hsl & Hok).
  { unfold first_held. rewrite Hh. lia. }
  rewrite (qi_dequeue _ _ _ _ Hinv), index_pos, Hsl by done. simpl.
  unfold slot_ok in Hok. rewrite decide_False in Hok by lia.
  destruct (decide (ph !! D = Some PhReady)) as [Hr|Hr].
  - rewrite Hr in Hok. destruct Hok as [-> _].
    rewrite (proj2 (Z.eqb_neq _ _)) by lia. simpl. rewrite Z.eqb_refl. simpl.
    eexists. split; [done|]. by apply set_consumer_inv.
  - assert (stamp sl = pos D) as -> by (destruct (ph !! D) as [[]|]; naive_solver).
    rewrite Z.eqb_refl. simpl. eexists. split; [done|]. by apply set_consumer_inv.
Qed.

Lemma dequeue_inv s D ph closed z st :
  queue_inv s D ph closed → bounded (length (claims s)) →
  consumer s = CStoreDequeue z st →
  queue_inv (set_consumer (CTake (index_of capacity z) st)
    (set_dequeue_pos (pos (S D)) s)) (S D) ph closed.
Proof.
  intros Hinv Hb Hcs. pose proof (bounded_small _ Hb) as Hsm.
  destruct Hinv as [He Hd Hph HD Hw Hl Hs Hp Hc Hphs]. rewrite Hcs in *. simpl in Hc.
  destruct Hc as (Hpop & -> & -> & Hr). pose proof (lookup_lt_Some _ _ _ Hr) as HlD.
  assert (first_held (S D) (CTake (index_of capacity (pos D)) (pos D + 1) : Consumer) =
          first_held D (CStoreDequeue (pos D) (pos D + 1) : Consumer)) as Hf
    by (unfold first_held; simpl; lia).
  split; simpl; try done.
  - lia.
  - by rewrite Hf.
  - eapply slots_ok_mono; [done..|]. intros n sl Hn. unfold first_held in Hn. simpl in Hn.
    unfold slot_ok. rewrite decide_False by lia.
    destruct (decide (n = D)) as [->|]; [|by rewrite decide_False by lia].
    rewrite Hr, decide_True by lia. done.
  - intros i p Hi. apply Hp in Hi. destruct p; simpl in *; try done. by rewrite Hf.
  - rewrite Nat.sub_0_r. split_and!; [done| |done|lia].
    by rewrite index_pos.
  - intros n. specialize (Hphs n). destruct (ph !! n) as [[i|i|]|] eqn:En; [| |done..].
    + destruct Hphs as [? ?]. split; [|done]. destruct (decide (n = D)) as [->|]; [|lia].
      congruence.
    + destruct Hphs as [? ?]. split; [|done]. destruct (decide (n = D)) as [->|]; [|lia].
      congruence.
Qed.

(** A change of the slot that the consumer holds. *)
Lemma held_slot_inv s D ph closed c sl pp :
  queue_inv s D ph closed → 1 ≤ D → holds_slot (consumer s) = true → holds_slot c = true →
  consumer_ok D ph (claims s) closed c pp →
  stamp sl = (pos (D - 1) + 1)%Z → held_message (claims s) (D - 1) c (message sl) →
  queue_inv (mkQueue (enqueue_pos s) (dequeue_pos s)
    (<[(D - 1) mod capacity := sl]> (buffer s)) (producers s) c (claims s) pp) D ph closed.
Proof.
  intros [He Hd Hph HD Hw Hl Hs Hp Hc Hphs] H1 Hh Hh' Hok Hst Hm.
  assert (first_held D c = first_held D (consumer s)) as Hf
    by (unfold first_held; by rewrite Hh, Hh').
  assert (first_held D (consumer s) = D - 1) as Hfd by (unfold first_held; by rewrite Hh).
  split; simpl; try done.
  - by rewrite Hf.
  - by rewrite length_insert.
  - eapply slots_ok_set; [done..|lia|done| |].
    + unfold slot_ok. by rewrite decide_True by lia.
    + intros n sl' Hn Hne. unfold slot_ok. by rewrite !decide_False by lia.
  - intros i p Hi. apply Hp in Hi. destruct p; simpl in *; try done. by rewrite Hf.
Qed.

Lemma held_slot s D ph closed :
  queue_inv s D ph closed → holds_slot (consumer s) = true → 1 ≤ D →
  ∃ sl, buffer s !! ((D - 1) mod capacity) = Some sl ∧ stamp sl = (pos (D - 1) + 1)%Z ∧
    held_message (claims s) (D - 1) (consumer s) (message sl).
Proof.
  intros Hinv Hh H1. destruct (qi_slots _ _ _ _ Hinv (D - 1)) as (sl & Hsl & Hok).
  { unfold first_held. rewrite Hh. lia. }
  exists sl. split; [done|]. unfold slot_ok in Hok. by rewrite decide_True in Hok by lia.
Qed.

(** The release of the slot: the window moves. *)
Lemma release_inv s D ph closed i st :
  queue_inv s D ph closed → consumer s = CStoreStamp i st →
  ∃ sl, buffer s !! i = Some sl ∧
    queue_inv (set_consumer CIdle (set_slot i (mkQSlot st (message sl)) s)) D ph closed.
Proof.
  intros Hinv Hcs.
  pose proof (qi_consumer _ _ _ _ Hinv) as Hc. rewrite Hcs in Hc. simpl in Hc.
  destruct Hc as (Hpop & -> & -> & H1).
  destruct (held_slot s D ph closed Hinv) as (sl & Hsl & Hst & Hm); [by rewrite Hcs|done|].
  rewrite Hcs in Hm. simpl in Hm. exists sl. split; [done|].
  destruct Hinv as [He Hd Hph HD Hw Hl Hs Hp Hc Hphs]. rewrite Hcs in *.
  unfold first_held in Hw. simpl in Hw.
  assert ((D - 1 + capacity) mod capacity = (D - 1) mod capacity) as Hmod.
  { pose proof (Nat.Div0.mod_add (D - 1) 1 capacity) as Ha. by rewrite Nat.mul_1_l in Ha. }
  split; simpl; try done.
  - unfold first_held. simpl. lia.
  - by rewrite length_insert.
  - intros n Hn. unfold first_held in Hn. simpl in Hn.
    destruct (decide (n = D - 1 + capacity)) as [->|Hne].
    + eexists. split; [rewrite Hmod; apply list_lookup_insert_eq; rewrite Hl; by apply mod_lt|].
      unfold slot_ok. rewrite decide_False by lia.
      rewrite (lookup_ge_None_2 ph) by lia. simpl. by rewrite Hm.
    + destruct (Hs n) as (sl' & Hsl' & Hok); [unfold first_held; simpl; lia|].
      exists sl'. split.
      * rewrite list_lookup_insert_ne; [done|]. intros Heq.
        apply (window_unique capacity Hcap (D - 1) n (D - 1)) in Heq; lia.
      * unfold slot_ok in *. by rewrite decide_False in Hok |- * by lia.
  - intros j p Hj. apply Hp in Hj. destruct p; simpl in *; try done.
    destruct Hj as (n & ? & ? & ? & Hlt). exists n. split_and!; [done..|].
    unfold first_held in *. simpl in *. lia.
Qed.

(** The effect of a step on the dequeued tickets. *)
Lemma consumer_step_inv s D ph closed :
  queue_inv s D ph closed → bounded (length (claims s)) →
  ∃ s' D', consumer_step capacity s = Done s' ∧ queue_inv s' D' ph closed ∧
    claims s' = claims s ∧ enqueue_pos s' = enqueue_pos s.
Proof.
  intros Hinv Hb. pose proof (bounded_small _ Hb) as Hsm.
  pose proof (qi_consumer _ _ _ _ Hinv) as Hc. unfold consumer_step.
  destruct (consumer s) as [|z st|j st|j st m|j st|z|e] eqn:Hcs; simpl in Hc.
  - destruct (pop_head s D ph closed Hinv Hb) as (c & -> & Hinv'); [by rewrite Hcs|done|].
    by exists (set_consumer c s), D.
  - pose proof Hc as (_ & -> & _ & _).
    rewrite (next_pos_bounded _ D Hb (qi_D _ _ _ _ Hinv)). cbn [obind].
    eexists _, (S D). split; [done|]. split; [by apply dequeue_inv|done].
  - destruct Hc as (Hpop & -> & -> & H1).
    destruct (held_slot s D ph closed Hinv) as (sl & -> & Hst & Hm); [by rewrite Hcs|done|].
    rewrite Hcs in Hm. simpl in Hm. destruct Hm as (m & Hm & Hmsg). simpl. rewrite Hmsg.
    eexists _, D. split; [done|]. split; [|done].
    apply held_slot_inv; [done|done|by rewrite Hcs|done| |done|done]. simpl.
    split_and!; [|done| |done].
    + rewrite Hpop, <-(take_S_r _ _ _ Hm). by replace (S (D - 1)) with D by lia.
    + rewrite pos_add_capacity, right_mask_eq by done. unfold wrap64, u64_modulus.
      pose proof (qi_D _ _ _ _ Hinv).
      pose proof (bounded_pos _ (D - 1 + capacity) Hb ltac:(lia)) as Hp.
      rewrite pos_add_capacity in Hp by done. pose proof (pos_nonneg capacity Hcap (D - 1)).
      pose proof (mask_pos capacity Hcap). rewrite Z.mod_small; lia.
  - destruct Hc as (Hpop & -> & -> & H1).
    destruct (held_slot s D ph closed Hinv) as (sl & -> & Hst & Hm); [by rewrite Hcs|done|].
    simpl. eexists _, D. split; [done|]. split; [|done].
    apply (held_slot_inv s D ph closed
      (CStoreStamp ((D - 1) mod capacity) (pos (D - 1 + capacity)))
      (mkQSlot (stamp sl) Vacated) (popped s)); [done|done|by rewrite Hcs|done..].
  - destruct (release_inv s D ph closed j st Hinv Hcs) as (sl & -> & Hinv'). simpl.
    by eexists _, D.
  - destruct Hc as [Hpop ->]. eexists _, D. split; [done|]. split; [|done].
    apply set_consumer_inv; [done|by rewrite Hcs|done|].
    rewrite (qi_enqueue _ _ _ _ Hinv).
    pose proof (lor_mask capacity Hcap D false) as Hlor. rewrite Z.add_0_r in Hlor.
    rewrite Hlor. destruct (_ =? _)%Z eqn:Eq; [|done]. apply Z.eqb_eq in Eq. simpl.
    destruct closed.
    + split_and!; [done|done|]. symmetry. apply (pos_inj capacity Hcap). lia.
    + pose proof (flag_bit capacity Hcap (length (claims s)) false) as Hf.
      cbv iota in Hf. rewrite Eq in Hf.
      pose proof (flag_bit capacity Hcap D true) as Hf'. cbv iota in Hf'. congruence.
  - assert (popped s = take D (claims s)) as Hpop by (destruct e; naive_solver).
    destruct (pop_head s D ph closed Hinv Hb) as (c & -> & Hinv'); [by rewrite Hcs|done|].
    by exists (set_consumer c s), D.
Qed.

Lemma close_inv s D ph closed :
  queue_inv s D ph closed → bounded (length (claims s)) →
  queue_inv (close capacity s) D ph true.
Proof.
  intros [He Hd Hph HD Hw Hl Hs Hp Hc Hphs] Hb. split; simpl; try done.
  - by rewrite He, lor_mask.
  - destruct (consumer s) as [| | | | | |[]]; simpl in *; naive_solver.
Qed.
End Invariant.

(** ** Reachable queues *)

Section Reachable.
Context {M : Type} (capacity : nat).
Abbreviation K := (closed_channel_mask capacity).
Abbreviation pos := (pos capacity).
Abbreviation Queue := (Queue (M := M)).
Implicit Types s : Queue.

Definition reachable s : Prop :=
  ∃ n s0, queue_new capacity n = Done s0 ∧ rtc (queue_trans capacity) s0 s.

Lemma queue_new_inv n s :
  queue_new capacity n = Done s → 1 ≤ capacity ∧ queue_inv capacity s 0 [] false.
Proof.
  unfold queue_new. destruct (_ <=? _)%Z eqn:E1; simpl; [|done].
  destruct (_ <=? 2 ^ 63)%Z; simpl; [|done]. intros [= <-].
  assert (1 ≤ capacity) as Hcap by lia. split; [done|].
  assert (∀ k, k < capacity → pos k = Z.of_nat k) as Hpos.
  { intros k Hk. unfold ChannelFacts.pos. rewrite Nat.div_small, Nat.mod_small by done. lia. }
  split; simpl; try done; try lia.
  - by rewrite Hpos, Z.add_0_r by lia.
  - by rewrite Hpos by lia.
  - by rewrite length_fmap, length_seq.
  - intros k Hk. unfold first_held in Hk. simpl in Hk.
    exists (mkQSlot (Z.of_nat k) Vacated). rewrite Nat.mod_small by lia. split.
    + rewrite list_lookup_fmap, lookup_seq_lt by lia. done.
    + unfold slot_ok. rewrite decide_False, lookup_nil by lia. simpl. by rewrite Hpos by lia.
  - intros i p Hp. apply lookup_replicate in Hp as [-> _]. done.
Qed.

Lemma queue_step_claims s s' :
  queue_step capacity s (Done s') → ∃ l, claims s' = claims s ++ l.
Proof.
  assert (∃ l, claims s = claims s ++ l) as Hnil by (exists []; by rewrite app_nil_r).
  remember (Done s') as o eqn:Ho.
  destruct 1 as [i c o Hs| |]; subst; [|revert Ho|by injection Ho as <-].
  - unfold producer_step in Hs. destruct (producers s !! i) as [[]|]; simplify_eq; try done.
    + destruct (buffer s !! _); by simplify_eq/=.
    + destruct (next_queue_pos _ _); simplify_eq/=.
      destruct (_ || _); simplify_eq/=; [done|eauto].
    + destruct (buffer s !! _) as [[? []]|]; by simplify_eq/=.
    + destruct (buffer s !! _); by simplify_eq/=.
  - unfold consumer_step, obind, unwrap, rust_assert.
    destruct (consumer s); repeat case_match; intros; by simplify_eq/=.
Qed.

Lemma queue_trans_claims s s' :
  rtc (queue_trans capacity) s s' → ∃ l, claims s' = claims s ++ l.
Proof.
  induction 1 as [s|s s1 s2 Hs _ [l IH]]; [exists []; by rewrite app_nil_r|].
  destruct (queue_step_claims _ _ Hs) as [l1 Hl1]. exists (l1 ++ l).
  by rewrite IH, Hl1, app_assoc.
Qed.

Lemma queue_step_inv s o D ph closed :
  1 ≤ capacity → queue_inv capacity s D ph closed → bounded capacity (length (claims s)) →
  queue_step capacity s o →
  ∃ s' D' ph' closed', o = Done s' ∧ queue_inv capacity s' D' ph' closed' ∧
    (closed = true → closed' = true ∧ claims s' = claims s).
Proof.
  intros Hcap Hinv Hb [i c o' Hs| |].
  - destruct (producer_step_inv capacity Hcap i c s o' D ph closed Hinv Hb Hs)
      as (s' & ph' & -> & Hinv' & _ & Hcl).
    exists s', D, ph', closed. split_and!; [done|done|]. intros ->. naive_solver.
  - destruct (consumer_step_inv capacity Hcap s D ph closed Hinv Hb)
      as (s' & D' & -> & Hinv' & Hcl & _).
    by exists s', D', ph, closed.
  - eexists _, D, ph, true. split; [done|]. split; [by eapply close_inv|done].
Qed.

Lemma bounded_before s s' :
  1 ≤ capacity → rtc (queue_trans capacity) s s' →
  bounded capacity (length (claims s')) → bounded capacity (length (claims s)).
Proof.
  intros Hcap Hr. apply queue_trans_claims in Hr as [l ->].
  rewrite length_app. apply bounded_le; [done|lia].
Qed.

Lemma steps_inv s s' D ph closed :
  1 ≤ capacity → rtc (queue_trans capacity) s s' → bounded capacity (length (claims s')) →
  queue_inv capacity s D ph closed →
  ∃ D' ph' closed', queue_inv capacity s' D' ph' closed' ∧
    (closed = true → closed' = true ∧ claims s' = claims s).
Proof.
  intros Hcap Hr Hb. revert D ph closed.
  induction Hr as [s|s s1 s2 Hs Hr IH]; intros D ph closed Hinv; [by exists D, ph, closed|].
  pose proof (bounded_before _ _ Hcap (rtc_l _ _ _ _ Hs Hr) Hb) as Hbs.
  destruct (queue_step_inv _ _ _ _ _ Hcap Hinv Hbs Hs) as (s' & D' & ph' & cl' & [= <-] & Hi & Hc).
  destruct (IH Hb _ _ _ Hi) as (D2 & ph2 & cl2 & Hi2 & Hc2). exists D2, ph2, cl2.
  split; [done|]. intros Ht. destruct (Hc Ht) as [Ht' Heq]. destruct (Hc2 Ht') as [? Heq2].
  split; [done|]. by rewrite Heq2.
Qed.

Lemma reachable_queue_inv s :
  reachable s → bounded capacity (length (claims s)) →
  1 ≤ capacity ∧ ∃ D ph closed, queue_inv capacity s D ph closed.
Proof.
  intros (n & s0 & Hn & Hr) Hb. destruct (queue_new_inv n s0 Hn) as [Hcap Hinv].
  split; [done|]. destruct (steps_inv _ _ _ _ _ Hcap Hr Hb Hinv) as (D & ph & cl & ? & _). eauto.
Qed.

(** The messages whose slots are free again. *)
Definition released s : nat :=
  match consumer s with
  | CBorrow _ _ _ | CStoreStamp _ _ => length (popped s) - 1
  | _ => length (popped s)
  end.

Lemma released_held s D ph closed :
  queue_inv capacity s D ph closed → released s = first_held D (consumer s).
Proof.
  intros [He Hd Hph HD Hw Hl Hs Hp Hc Hphs]. unfold released, first_held.
  destruct (consumer s) as [| | | | | |[]]; simpl in *; destruct_and?;
    subst; match goal with H : popped s = _ |- _ => rewrite H, length_take end; lia.
Qed.

Lemma popped_prefix s D ph closed :
  queue_inv capacity s D ph closed → ∃ k, popped s = take k (claims s).
Proof.
  intros [He Hd Hph HD Hw Hl Hs Hp Hc Hphs].
  destruct (consumer s) as [| | | | | |[]]; simpl in *; naive_solver.
Qed.

Lemma inv_is_closed s D ph closed :
  1 ≤ capacity → queue_inv capacity s D ph closed → is_closed capacity s = closed.
Proof.
  intros Hcap Hinv. unfold is_closed. rewrite (qi_enqueue _ _ _ _ _ Hinv), land_flag by done.
  pose proof (mask_pos capacity Hcap). destruct closed; [|done].
  by rewrite (proj2 (Z.eqb_neq _ _)) by lia.
Qed.

(** ** Properties *)

(** C15: the mailbox queue under every interleaving of its producers, its
    consumer and closings.  No step panics: slots are in bounds and hold what
    the thread expects.  The messages handed out are a prefix of those whose
    push has claimed a position, in the order of the claims, and at most
    [capacity] claimed messages are not released.  The sequence counts are
    assumed not to have wrapped. *)
Theorem channel_fifo s :
  reachable s → bounded capacity (length (claims s)) →
  (∀ o, queue_step capacity s o → ∃ s', o = Done s') ∧
  popped s `prefix_of` claims s ∧ length (claims s) ≤ released s + capacity.
Proof.
  intros Hr Hb. destruct (reachable_queue_inv s Hr Hb) as (Hcap & D & ph & cl & Hinv).
  split_and!.
  - intros o Ho. destruct (queue_step_inv _ _ _ _ _ Hcap Hinv Hb Ho) as (s' & _ & _ & _ & -> & _).
    by exists s'.
  - destruct (popped_prefix _ _ _ _ Hinv) as [k ->]. exists (drop k (claims s)).
    by rewrite take_drop.
  - rewrite (released_held _ _ _ _ Hinv). apply (qi_window _ _ _ _ _ Hinv).
Qed.

(** The answers of a mailbox queue are exact at the moment of the read that
    decides them.  A push reports a full queue only when [capacity] messages
    are claimed and not released; a pop finds nothing only when every claimed
    message was handed out, or the producer of the oldest other one has not
    finished its push. *)
Lemma full_and_empty_exact s s' :
  reachable s → bounded capacity (length (claims s)) →
  (∀ i c m z, producers s !! i = Some (PStamp m z) →
     producer_step capacity i c s = Some (Done s') →
     producers s' !! i = Some (PReturned (Err Full)) →
     length (claims s) = released s + capacity) ∧
  (∀ z, consumer_step capacity s = Done s' → consumer s' = CCheck z →
     claims s = popped s ∨
     ∃ i, match producers s !! i with
       | Some (PWrite _ p _) | Some (PStore p _) => p = pos (length (popped s))
       | _ => False
       end).
Proof.
  intros Hr Hb. destruct (reachable_queue_inv s Hr Hb) as (Hcap & D & ph & cl & Hinv).
  pose proof (bounded_small capacity Hcap _ Hb) as Hsm. split.
  - intros i c m z Hi Hs Hf. unfold producer_step in Hs. rewrite Hi in Hs.
    destruct (qi_producers _ _ _ _ _ Hinv i _ Hi) as (n & -> & Hn).
    destruct (stamp_read capacity Hcap s D ph cl n Hinv Hb Hn) as (sl & Hsl & Hcmp).
    rewrite Hsl in Hs. simpl in Hs. injection Hs as <-. simpl in Hf.
    rewrite list_lookup_insert_eq in Hf by by eapply lookup_lt_Some.
    destruct (_ ?= 0)%Z; simplify_eq. by rewrite (released_held _ _ _ _ Hinv).
  - intros z Hs Hz. pose proof (qi_consumer _ _ _ _ _ Hinv) as Hc.
    assert (holds_slot (consumer s) = false ∧ popped s = take D (claims s) ∧
      (∀ sl, buffer s !! index_of capacity (dequeue_pos s) = Some sl →
         stamp sl = dequeue_pos s)) as (Hh & Hpop & Hst).
    { unfold consumer_step, obind, unwrap, rust_assert in Hs.
      destruct (consumer s) as [| | | | | |e]; repeat case_match; simplify_eq/=;
        try (destruct e); destruct_and?; split_and!; try done;
        intros sl [= <-]; symmetry; by apply Z.eqb_eq, negb_false_iff. }
    destruct (qi_slots _ _ _ _ _ Hinv D) as (sl & Hsl & Hok).
    { unfold first_held. rewrite Hh. lia. }
    rewrite (qi_dequeue _ _ _ _ _ Hinv), index_pos in Hst by done. specialize (Hst sl Hsl).
    unfold slot_ok in Hok. rewrite decide_False in Hok by lia.
    pose proof (qi_D _ _ _ _ _ Hinv) as HD. pose proof (qi_phases _ _ _ _ _ Hinv D) as Hph.
    assert (length (popped s) = D) as Hlen by (rewrite Hpop, length_take; lia).
    destruct (ph !! D) as [[i|i|]|] eqn:Eph.
    + right. exists i. destruct Hph as [_ [m ->]]. by rewrite Hlen.
    + right. exists i. destruct Hph as [_ ->]. by rewrite Hlen.
    + destruct Hok as [Hok _]. lia.
    + left. apply lookup_ge_None in Eph. rewrite (qi_ph _ _ _ _ _ Hinv) in Eph.
      by rewrite Hpop, take_ge by lia.
Qed.

(** A closed mailbox loses nothing.  When a pop reports that the queue is
    closed, it is, every message ever claimed has been handed out, and no
    later push can add one. *)
Lemma closed_means_drained s :
  reachable s → bounded capacity (length (claims s)) →
  consumer s = CFailed PopClosed →
  is_closed capacity s = true ∧ popped s = claims s ∧
  ∀ s', rtc (queue_trans capacity) s s' → bounded capacity (length (claims s')) →
    claims s' = claims s.
Proof.
  intros Hr Hb Hc. destruct (reachable_queue_inv s Hr Hb) as (Hcap & D & ph & cl & Hinv).
  pose proof (qi_consumer _ _ _ _ _ Hinv) as Hok. rewrite Hc in Hok.
  destruct Hok as (Hpop & -> & ->). split_and!.
  - by eapply inv_is_closed.
  - by rewrite Hpop, take_ge.
  - intros s' Hs Hb'. by destruct (steps_inv _ _ _ _ _ Hcap Hs Hb' Hinv) as (? & ? & ? & _ & [] ).
Qed.

(** Messages whose positions the consumer has passed. *)
Definition dequeued s : nat :=
  match consumer s with CTake _ _ => S (length (popped s)) | _ => length (popped s) end.

Lemma dequeued_eq s D ph closed : queue_inv capacity s D ph closed → dequeued s = D.
Proof.
  intros [He Hd Hph HD Hw Hl Hs Hp Hc Hphs]. unfold dequeued.
  destruct (consumer s) as [| | | | | |[]]; simpl in *; destruct_and?;
    subst; match goal with H : popped s = _ |- _ => rewrite H, length_take end; lia.
Qed.

(** [len] on the positions of [E] claims and [D] dequeues. *)
Lemma queue_len_counts E D (closed : bool) :
  1 ≤ capacity → (2 * K ≤ 2 ^ 62)%Z → D ≤ E ≤ D + capacity →
  queue_len capacity (pos E + (if closed then K else 0)) (pos D) = Done (Z.of_nat (E - D)).
Proof.
  intros Hcap Hsm HED. pose proof (mask_pos capacity Hcap). pose proof (capacity_le_mask capacity Hcap).
  pose proof (low_bits capacity Hcap Hsm) as Hidx. pose proof (sequence_bits capacity Hcap Hsm) as Hseq.
  pose proof (Hidx D false) as Hid. pose proof (Hseq D false) as Hsd. cbv iota in Hid, Hsd.
  rewrite Z.add_0_r in Hid, Hsd.
  unfold queue_len. rewrite Hidx, Hseq, Hid, Hsd. unfold uadd, usub, u64_modulus.
  pose proof (Nat.div_mod E capacity ltac:(lia)). pose proof (Nat.div_mod D capacity ltac:(lia)).
  pose proof (mod_lt capacity Hcap E). pose proof (mod_lt capacity Hcap D).
  destruct (Z.eqb_spec (Z.of_nat (E / capacity) * (2 * K)) (Z.of_nat (D / capacity) * (2 * K)))
    as [Heq|Hneq]; simpl negb; cbv iota.
  - assert (E / capacity = D / capacity) by nia.
    rewrite (proj2 (Z.ltb_lt _ _)) by lia. cbn [obind].
    rewrite (proj2 (Z.leb_le _ _)) by nia. f_equal. nia.
  - assert (E / capacity ≠ D / capacity) by nia.
    assert (E / capacity = S (D / capacity)) by nia.
    rewrite (proj2 (Z.ltb_lt _ _)) by lia. cbn [obind].
    rewrite (proj2 (Z.leb_le _ _)) by nia. f_equal. nia.
Qed.

(** No push and no pop is under way. *)
Definition at_rest s : Prop :=
  Forall (λ p, match p with PIdle | PReturned _ => True | _ => False end) (producers s) ∧
  match consumer s with CIdle | CFailed _ => True | _ => False end.

(** C33: [len] counts the messages in the queue, whether or not it is closed,
    when there is no concurrent push or pop: when none is under way in [s], and
    the states [se] and [sd] from which the two relaxed loads read, which may
    be different and stale, have no push or pop after them, the result is the
    number of messages pushed and not handed out, it is at most the capacity,
    and neither the addition nor the subtraction overflows. *)
Theorem queue_len_exact s se sd :
  reachable s → bounded capacity (length (claims s)) → at_rest s →
  reachable se → rtc (queue_trans capacity) se s → claims se = claims s →
  reachable sd → rtc (queue_trans capacity) sd s → dequeued sd = dequeued s →
  queue_len capacity (enqueue_pos se) (dequeue_pos sd) =
    Done (Z.of_nat (length (claims s) - length (popped s))) ∧
  length (popped s) ≤ length (claims s) ≤ length (popped s) + capacity.
Proof.
  intros Hr Hb [_ Hrest] Hre _ Hcl Hrd Hds Hdq.
  destruct (reachable_queue_inv s Hr Hb) as (Hcap & D & ph & cl & Hinv).
  destruct (reachable_queue_inv se Hre ltac:(by rewrite Hcl)) as (_ & De & phe & cle & Hinve).
  destruct (reachable_queue_inv sd Hrd (bounded_before _ _ Hcap Hds Hb)) as (_ & Dd & phd & cld & Hinvd).
  rewrite (qi_enqueue _ _ _ _ _ Hinve), (qi_dequeue _ _ _ _ _ Hinvd), Hcl.
  rewrite <-(dequeued_eq _ _ _ _ Hinvd), Hdq.
  pose proof (dequeued_eq _ _ _ _ Hinv) as HD.
  assert (dequeued s = length (popped s)) as Hpo by (unfold dequeued; by destruct (consumer s)).
  assert (length (popped s) ≤ length (claims s) ≤ length (popped s) + capacity) as Hle.
  { pose proof (qi_D _ _ _ _ _ Hinv). pose proof (qi_window _ _ _ _ _ Hinv) as Hw.
    unfold first_held in Hw. destruct (holds_slot _); lia. }
  split; [|done]. rewrite Hpo. by apply queue_len_counts; [|eapply bounded_small|].
Qed.
End Reachable.

(** ** Evaluations *)

(** A schedule: a step of a producer with its next message, of the consumer,
    or a closing. *)
Inductive who := Prod (i msg : nat) | Cons | Close.

Fixpoint run_sched (capacity : nat) (l : list who) (s : Queue (M := nat)) : outcome Queue :=
  match l with
  | [] => Done s
  | w :: l =>
      let! s :=
        match w with
        | Prod i m => default (Done s) (producer_step capacity i (mkChoice m false) s)
        | Cons => consumer_step capacity s
        | Close => Done (close capacity s)
        end in
      run_sched capacity l s
  end.

Lemma run_sched_reachable capacity l s s' :
  run_sched capacity l s = Done s' → rtc (queue_trans capacity) s s'.
Proof.
  revert s. induction l as [|w l IH]; intros s; simpl; [by intros [= <-]|].
  destruct w as [i m| |].
  - destruct (producer_step capacity i (mkChoice m false) s) as [o|] eqn:Es; simpl; [|apply IH].
    destruct o; simpl; [|done..]. intros Hr. eapply rtc_l; [|by apply IH].
    by eapply step_producer.
  - destruct (consumer_step capacity s) as [s1| |] eqn:Es; simpl; [|done..]. intros Hr.
    eapply rtc_l; [|by apply IH]. unfold queue_trans. rewrite <-Es. apply step_consumer.
  - simpl. intros Hr. eapply rtc_l; [|by apply IH]. apply step_close.
Qed.

Definition demo_queue (l : list who) : outcome (Queue (M := nat)) :=
  let! s := queue_new 2 2 in run_sched 2 l s.

Lemma demo_queue_reachable l s : demo_queue l = Done s → reachable 2 s.
Proof.
  unfold demo_queue. destruct (queue_new 2 2) as [s0| |] eqn:En; simpl; [|done..].
  intros Hr. exists 2, s0. split; [done|]. by eapply run_sched_reachable.
Qed.

(** Two pushes interleaved, the second one claims first; one pop. *)
Definition two_pushes : list who :=
  [Prod 0 10; Prod 1 11; Prod 0 0; Prod 1 0; Prod 0 0; Prod 1 0; Prod 1 0; Prod 0 0;
   Prod 1 0; Prod 1 0; Prod 0 0; Prod 0 0; Prod 0 0; Prod 0 0].

Lemma channel_fifo_witness :
  ∃ s, demo_queue (two_pushes ++ [Cons; Cons; Cons]) = Done s ∧ claims s = [11; 10] ∧
    popped s = [11] ∧ popped s `prefix_of` claims s.
Proof.
  destruct (demo_queue (two_pushes ++ [Cons; Cons; Cons])) as [s| |] eqn:Es;
    [|vm_compute in Es; discriminate..].
  pose proof (channel_fifo 2 s (demo_queue_reachable _ _ Es)) as Hf.
  exists s. split; [reflexivity|].
  vm_compute in Es. injection Es as <-. split; [reflexivity|]. split; [reflexivity|].
  apply Hf. vm_compute. discriminate.
Defined.

Lemma full_and_empty_exact_witness :
  ∃ s, demo_queue (two_pushes ++ [Prod 0 12; Prod 0 0]) = Done s ∧
    length (claims s) = released s + 2.
Proof.
  destruct (demo_queue (two_pushes ++ [Prod 0 12; Prod 0 0])) as [s| |] eqn:Es;
    [|vm_compute in Es; discriminate..].
  exists s. split; [reflexivity|]. pose proof (demo_queue_reachable _ _ Es) as Hr.
  vm_compute in Es. injection Es as <-.
  match goal with |- length (claims ?s) = _ =>
    let o := eval vm_compute in (producer_step 2 0 (mkChoice 0 false) s) in
    match o with Some (Done ?s') =>
      refine (proj1 (full_and_empty_exact 2 s s' Hr _) 0 (mkChoice 0 false) 12 4%Z _ _ _)
    end
  end.
  - vm_compute. discriminate.
  - vm_compute. reflexivity.
  - vm_compute. reflexivity.
  - vm_compute. reflexivity.
Defined.

Lemma closed_means_drained_witness :
  ∃ s, demo_queue (two_pushes ++ [Close] ++ replicate 12 Cons) = Done s ∧
    is_closed 2 s = true ∧ popped s = [11; 10].
Proof.
  destruct (demo_queue (two_pushes ++ [Close] ++ replicate 12 Cons)) as [s| |] eqn:Es;
    [|vm_compute in Es; discriminate..].
  exists s. split; [reflexivity|]. pose proof (demo_queue_reachable _ _ Es) as Hr.
  vm_compute in Es. injection Es as <-.
  destruct (closed_means_drained 2 _ Hr) as (Hc & Hp & _).
  - vm_compute. discriminate.
  - reflexivity.
  - split; [exact Hc|]. reflexivity.
Defined.

(** The loads read the queue before it is closed and after. *)
Lemma queue_len_exact_witness :
  ∃ se s, demo_queue (two_pushes ++ replicate 5 Cons) = Done se ∧
    demo_queue ((two_pushes ++ replicate 5 Cons) ++ [Close]) = Done s ∧
    queue_len 2 (enqueue_pos se) (dequeue_pos s) = Done 1%Z.
Proof.
  destruct (demo_queue (two_pushes ++ replicate 5 Cons)) as [se| |] eqn:Ee;
    [|vm_compute in Ee; discriminate..].
  destruct (demo_queue ((two_pushes ++ replicate 5 Cons) ++ [Close])) as [s| |] eqn:Es;
    [|vm_compute in Es; discriminate..].
  exists se, s. split; [reflexivity|]. split; [reflexivity|].
  pose proof (demo_queue_reachable _ _ Es) as Hr. pose proof (demo_queue_reachable _ _ Ee) as Hre.
  assert (rtc (queue_trans 2) se s) as Hes.
  { apply (run_sched_reachable 2 [Close]). vm_compute in Ee, Es. injection Ee as <-.
    injection Es as <-. vm_compute. reflexivity. }
  vm_compute in Es. injection Es as <-. vm_compute in Ee. injection Ee as <-.
  refine (proj1 (queue_len_exact 2 _ _ _ Hr _ _ Hre Hes _ Hr (rtc_refl _ _) eq_refl)).
  - vm_compute. discriminate.
  - split; [repeat constructor|constructor].
  - reflexivity.
Defined.

(** With a concurrent push and pop the subtraction of [len] underflows: the
    enqueue position is loaded from the empty queue, and the dequeue position
    after a message was pushed and popped. *)
Lemma queue_len_races :
  ∃ se sd : Queue (M := nat), reachable 2 se ∧ rtc (queue_trans 2) se sd ∧
    queue_len 2 (enqueue_pos se) (dequeue_pos sd) = Panicked.
Proof.
  destruct (demo_queue []) as [se| |] eqn:Ee; [|vm_compute in Ee; discriminate..].
  destruct (run_sched 2 (replicate 6 (Prod 0 7) ++ replicate 2 Cons) se) as [sd| |] eqn:Ed.
  2-3: exfalso; vm_compute in Ee; injection Ee as <-; vm_compute in Ed; discriminate.
  exists se, sd. split; [by eapply demo_queue_reachable|].
  split; [by eapply run_sched_reachable|].
  vm_compute in Ee. injection Ee as <-. vm_compute in Ed. injection Ed as <-.
  vm_compute. reflexivity.
Qed.
