(* ===== verification/Bits.v ===== *)
(** * Bits of machine words

    Masks of 64-bit words as arithmetic on integers. *)

From stdpp Require Import base option numbers.
From Stdlib Require Import ZArith Lia.
From S2P Require Import Prelude.

#[local] Open Scope Z_scope.

Lemma land_slice z a n : 0 <= a → 0 <= n →
  Z.land z (Z.shiftl (Z.ones n) a) = (z / 2 ^ a) mod 2 ^ n * 2 ^ a.
Proof.
  intros Ha Hn.
  rewrite <-Z.land_ones, <-Z.shiftr_div_pow2, <-Z.shiftl_mul_pow2 by lia.
  apply Z.bits_inj'. intros k Hk.
  rewrite Z.land_spec, !Z.shiftl_spec by lia.
  destruct (decide (a ≤ k)%Z) as [Hle|Hlt].
  - rewrite Z.land_spec, Z.shiftr_spec by lia. by replace (k - a + a) with k by lia.
  - rewrite !(Z.testbit_neg_r _ (k - a)) by lia. apply andb_false_r.
Qed.

(** Disjoint masks select disjoint parts of the word. *)
Lemma land_disjoint z m1 m2 : Z.land m1 m2 = 0 →
  Z.land z (Z.lor m1 m2) = Z.land z m1 + Z.land z m2.
Proof.
  intros Hd. rewrite Z.land_lor_distr_r.
  rewrite <-(Z.add_lor_land (Z.land z m1) (Z.land z m2)).
  replace (Z.land (Z.land z m1) (Z.land z m2)) with 0; [lia|].
  by rewrite (Z.land_comm z m2), Z.land_assoc, <-(Z.land_assoc z), Hd, Z.land_0_r,
    Z.land_0_l.
Qed.

Lemma land_complement z m n : 0 <= z < 2 ^ 64 →
  Z.land m n = 0 → Z.lor m n = Z.ones 64 → Z.land z n = z - Z.land z m.
Proof.
  intros Hz Hd Hc. pose proof (land_disjoint z m n Hd) as Hs.
  rewrite Hc, Z.land_ones, Z.mod_small in Hs by lia. lia.
Qed.

Lemma lor_as_sum z m : Z.lor z m = z + m - Z.land z m.
Proof. pose proof (Z.add_lor_land z m). lia. Qed.

Lemma wrap_small z : 0 <= z < 2 ^ 64 → wrap64 z = z.
Proof. intros Hz. unfold wrap64, u64_modulus. by apply Z.mod_small. Qed.

(** Two words without a common bit. *)
Lemma lor_disjoint a b : Z.land a b = 0 → Z.lor a b = a + b.
Proof. intros Hd. rewrite lor_as_sum, Hd. lia. Qed.

Lemma land_low_high n a b : 0 <= n → 0 <= b < 2 ^ n → Z.land (a * 2 ^ n) b = 0.
Proof.
  intros Hn Hb. destruct (decide (b = 0)) as [->|Hne]; [apply Z.land_0_r|].
  apply Z.bits_inj'. intros k Hk. rewrite Z.land_spec, Z.bits_0.
  destruct (decide (k < n)) as [Hlt|Hge].
  - by rewrite Z.mul_pow2_bits_low.
  - rewrite (Z.bits_above_log2 b k), andb_false_r; [done|lia|].
    apply Z.lt_le_trans with n; [|lia]. apply Z.log2_lt_pow2; lia.
Qed.

(** A word made of a high and a low part. *)
Lemma high_low_lor n a b : 0 <= n → 0 <= b < 2 ^ n → Z.lor (a * 2 ^ n) b = a * 2 ^ n + b.
Proof. intros. by apply lor_disjoint, land_low_high. Qed.
