(* ===== verification/Counting.v ===== *)
(** * Counting the elements of a list

    Sums over the threads of a concurrent program, and how they change when
    one thread does; the interleaving models state who owns what with them. *)

From stdpp Require Import base option list numbers.
From Stdlib Require Import Lia.
From S2P Require Import Prelude.

Notation cnt := sum_list_with.

Section Counting.
Context {A : Type} (f : A → nat).

Lemma cnt_insert (l : list A) i x y :
  l !! i = Some x → cnt f (<[i:=y]> l) + f x = cnt f l + f y.
Proof.
  revert i. induction l as [|a l IH]; intros [|i] Hi; simplify_eq/=; [lia|].
  specialize (IH i Hi). lia.
Qed.

Lemma cnt_alter_same (l : list A) i (g : A → A) :
  (∀ x, f (g x) = f x) → cnt f (alter g i l) = cnt f l.
Proof.
  intros Hg. revert i. induction l as [|a l IH]; intros [|i]; simpl; [done|done|by rewrite Hg|].
  by rewrite <-(IH i).
Qed.

Lemma cnt_snoc (l : list A) x : cnt f (l ++ [x]) = cnt f l + f x.
Proof. rewrite sum_list_with_app. simpl. lia. Qed.

Lemma cnt_lookup (l : list A) i x : l !! i = Some x → f x ≤ cnt f l.
Proof.
  revert i. induction l as [|a l IH]; intros [|i] Hi; simplify_eq/=; [lia|].
  specialize (IH i Hi). lia.
Qed.

Lemma cnt_lookup_two (l : list A) i j x y :
  l !! i = Some x → l !! j = Some y → i ≠ j → f x + f y ≤ cnt f l.
Proof.
  revert i j. induction l as [|a l IH]; intros [|i] [|j] Hi Hj Hne; simplify_eq/=.
  - apply cnt_lookup in Hj. lia.
  - apply cnt_lookup in Hi. lia.
  - specialize (IH i j Hi Hj). lia.
Qed.

Lemma cnt_pos (l : list A) : 0 < cnt f l → ∃ i x, l !! i = Some x ∧ 0 < f x.
Proof.
  induction l as [|a l IH]; simpl; [lia|]. intros Hp. destruct (f a) eqn:Ha.
  - destruct IH as (i & x & Hi & Hx); [lia|]. by exists (S i), x.
  - exists 0, a. split; [done|]. lia.
Qed.
End Counting.

(** ** Occurrences *)

(** How often [i] occurs in a list. *)
Definition occ (i : nat) : list nat → nat := cnt (λ j, if decide (j = i) then 1 else 0).

#[global] Arguments occ : simpl never.

Lemma occ_cons i j l : occ i (j :: l) = (if decide (j = i) then 1 else 0) + occ i l.
Proof. done. Qed.

Lemma occ_elem i l : 0 < occ i l ↔ i ∈ l.
Proof.
  induction l as [|j l IH]; [unfold occ; simpl; split; [lia|by intros ?%elem_of_nil]|].
  rewrite occ_cons, elem_of_cons. case_decide; [split; [by auto|lia]|].
  simpl. rewrite IH. naive_solver.
Qed.

Lemma occ_NoDup l : (∀ i, occ i l ≤ 1) → NoDup l.
Proof.
  induction l as [|j l IH]; intros Hocc; constructor.
  - intros Hin%occ_elem. specialize (Hocc j). rewrite occ_cons, decide_True in Hocc by done. lia.
  - apply IH. intros i. specialize (Hocc i). rewrite occ_cons in Hocc. lia.
Qed.

(** ** Sums over indices *)

(** At most the value at [i] goes down. *)
Lemma cnt_change (f g : nat → nat) i l :
  NoDup l → i ∈ l → (∀ j, j ≠ i → f j ≤ g j) → cnt f l + g i ≤ cnt g l + f i.
Proof.
  intros Hnd Hi Hj. induction Hnd as [|j l Hn Hnd IH]; [by apply elem_of_nil in Hi|]. simpl.
  destruct (decide (j = i)) as [->|Hne].
  - assert (cnt f l ≤ cnt g l); [|lia]. clear IH Hnd Hi.
    induction l as [|k l IHl]; [done|]. simpl. apply not_elem_of_cons in Hn as [Hk Hn].
    specialize (IHl Hn). specialize (Hj k ltac:(congruence)). lia.
  - apply elem_of_cons in Hi as [->|Hi]; [done|]. specialize (IH Hi). specialize (Hj j Hne). lia.
Qed.

Lemma cnt_mono (f g : nat → nat) l : (∀ j, f j ≤ g j) → cnt f l ≤ cnt g l.
Proof. intros Hj. induction l as [|k l IH]; [done|]. simpl. specialize (Hj k). lia. Qed.
