(* ===== verification/Task.v ===== *)
(** * Tasks (executor/task.rs, executor/task/)

    A task is a heap cell with a 64-bit state word and a core that holds the
    future, its output or nothing.  Wakers, the promise, the cancellation
    token and the runnable of a task are the threads of the model: each has a
    program counter before its next access to the shared cell, so that the
    interleavings are the paths of [task_step].  An access to a freed cell, to
    a future or output that is not there and a second deallocation are [UB]; a
    failed debug assertion is [AssertFailed].

    Read-modify-write operations, [fetch_update] included, act on the newest
    state.  The initial load of [run] may be stale, as the code expects: it
    reads any state that was stored since the runnable was created, and
    [hist] keeps those.  Each waker handle is used by one thread at a time.

    Ghost state: [wakes] counts the calls to [wake] (and the spawn), [seen] is
    the number of those that the last poll of the future has seen, [leaked]
    and [panics] count the references and the calls lost to the overflow
    guards. *)

From stdpp Require Import base option list numbers.
From Stdlib Require Import ZArith Lia.
From S2P Require Import Prelude.

Definition POLLING : Z := Z.shiftl 1 0.
Definition CLOSED : Z := Z.shiftl 1 1.
Definition REF_INC : Z := Z.shiftl 1 2.
Definition WAKE_INC : Z := Z.shiftl 1 33.

(** [!m] at 64 bits. *)
Definition not64 (m : Z) : Z := u64_max - m.

Definition REF_MASK : Z := Z.land (not64 (REF_INC - 1)) (WAKE_INC - 1).
Definition WAKE_MASK : Z := not64 (WAKE_INC - 1).
Definition REF_CRITICAL : Z := Z.land (REF_MASK / 2) REF_MASK.
Definition WAKE_CRITICAL : Z := Z.land (WAKE_MASK / 2) WAKE_MASK.

Definition runnable_exists (state : Z) : bool :=
  negb (Z.land state POLLING =? 0)%Z && negb (Z.land state (Z.lor WAKE_MASK CLOSED) =? 0)%Z.

Inductive mem (A : Type) := Safe (a : A) | UB | AssertFailed.
Arguments Safe {A}.
Arguments UB {A}.
Arguments AssertFailed {A}.

Inductive HandleKind := Waker | Promise | CancelToken.

Section Task.
Context {T : Type}.
(** [size_of::<S>() == 0]: the scheduling function captures nothing. *)
Variable zero_sized : bool.

Inductive TaskCore := CoreFuture | CoreOutput (v : T) | CoreEmpty.

Inductive Stage := Ready (v : T) | Pending | Cancelled.

(** What a poll of the user's future does. *)
Inductive PollResult := PollReady (v : T) | PollPending | PollPanics.

(** Where a thread stands.  [H..]: the owner of a waker, promise or token;
    [R..]: the holder of a runnable. *)
Inductive Pc :=
| HIdle (k : HandleKind)
| HSchedule (by_val : bool) (old : Z)
| HScheduled (by_val : bool) (old : Z)
| HTakeOutput
| HCancelDropFuture
| HCancelRelease
| HDropFuture
| HDropOutput
| HDealloc
| RScheduled
| RLoad
| RPolling (wake_count : Z)
| RPollSchedule (wake_count : Z)
| RReadyDropFuture (v : T)
| RReadyUpdate
| RReadyDropOutput
| RReadyClear
| RPending (wake_count : Z)
| RCancelDropFuture
| RClose
| RDropFuture
| RDealloc
| Gone.

Record Task := mkTask {
  state : Z;
  core : TaskCore;
  allocated : bool;
  threads : list Pc;
  hist : list (Z * nat);
  wakes : nat;
  seen : nat;
  future_drops : nat;
  outputs : list T;
  taken : list T;
  dropped : list T;
  stages : list Stage;
  leaked : nat;
  panics : nat;
}.

(** ** Accesses to the shared cell *)

Definition access {A} (s : Task) (k : mem A) : mem A := if allocated s then k else UB.

Definition mem_bind {A B} (m : mem A) (k : A → mem B) : mem B :=
  match m with Safe a => k a | UB => UB | AssertFailed => AssertFailed end.

(** A store to the state word, visible to the later loads. *)
Definition store (z : Z) (s : Task) : Task :=
  mkTask z (core s) (allocated s) (threads s) (hist s ++ [(z, wakes s)]) (wakes s) (seen s)
    (future_drops s) (outputs s) (taken s) (dropped s) (stages s) (leaked s) (panics s).
Definition to (i : nat) (pc : Pc) (s : Task) : Task :=
  mkTask (state s) (core s) (allocated s) (<[i:=pc]> (threads s)) (hist s) (wakes s) (seen s)
    (future_drops s) (outputs s) (taken s) (dropped s) (stages s) (leaked s) (panics s).
Definition new_thread (pc : Pc) (s : Task) : Task :=
  mkTask (state s) (core s) (allocated s) (threads s ++ [pc]) (hist s) (wakes s) (seen s)
    (future_drops s) (outputs s) (taken s) (dropped s) (stages s) (leaked s) (panics s).
Definition count_wake (s : Task) : Task :=
  mkTask (state s) (core s) (allocated s) (threads s) (hist s) (S (wakes s)) (seen s)
    (future_drops s) (outputs s) (taken s) (dropped s) (stages s) (leaked s) (panics s).
(** What the next runnable may load: the newest state and what follows. *)
Definition new_hist (s : Task) : Task :=
  mkTask (state s) (core s) (allocated s) (threads s) [(state s, wakes s)] (wakes s) (seen s)
    (future_drops s) (outputs s) (taken s) (dropped s) (stages s) (leaked s) (panics s).
Definition saw (n : nat) (s : Task) : Task :=
  mkTask (state s) (core s) (allocated s) (threads s) (hist s) (wakes s) n
    (future_drops s) (outputs s) (taken s) (dropped s) (stages s) (leaked s) (panics s).
Definition log_stage (st : Stage) (s : Task) : Task :=
  mkTask (state s) (core s) (allocated s) (threads s) (hist s) (wakes s) (seen s)
    (future_drops s) (outputs s) (taken s) (dropped s) (stages s ++ [st]) (leaked s) (panics s).
Definition log_output (v : T) (s : Task) : Task :=
  mkTask (state s) (core s) (allocated s) (threads s) (hist s) (wakes s) (seen s)
    (future_drops s) (outputs s ++ [v]) (taken s) (dropped s) (stages s) (leaked s) (panics s).
Definition log_panic (leak : nat) (s : Task) : Task :=
  mkTask (state s) (core s) (allocated s) (threads s) (hist s) (wakes s) (seen s)
    (future_drops s) (outputs s) (taken s) (dropped s) (stages s) (leaked s + leak)
    (S (panics s)).
Definition drop_value (v : T) (s : Task) : Task :=
  mkTask (state s) (core s) (allocated s) (threads s) (hist s) (wakes s) (seen s)
    (future_drops s) (outputs s) (taken s) (dropped s ++ [v]) (stages s) (leaked s) (panics s).
Definition set_core (c : TaskCore) (s : Task) : Task :=
  mkTask (state s) c (allocated s) (threads s) (hist s) (wakes s) (seen s)
    (future_drops s) (outputs s) (taken s) (dropped s) (stages s) (leaked s) (panics s).

(** [ManuallyDrop::drop] of the future. *)
Definition drop_future (s : Task) : mem Task :=
  access s
    match core s with
    | CoreFuture =>
        Safe (mkTask (state s) CoreEmpty (allocated s) (threads s) (hist s) (wakes s) (seen s)
          (S (future_drops s)) (outputs s) (taken s) (dropped s) (stages s) (leaked s)
          (panics s))
    | _ => UB
    end.

(** [ManuallyDrop::drop] of the output. *)
Definition drop_output (s : Task) : mem Task :=
  access s
    match core s with
    | CoreOutput v => Safe (drop_value v (set_core CoreEmpty s))
    | _ => UB
    end.

(** [ManuallyDrop::take] of the output, which [poll] returns. *)
Definition take_output (s : Task) : mem Task :=
  access s
    match core s with
    | CoreOutput v =>
        Safe (mkTask (state s) CoreEmpty (allocated s) (threads s) (hist s) (wakes s) (seen s)
          (future_drops s) (outputs s) (taken s ++ [v]) (dropped s) (stages s ++ [Ready v])
          (leaked s) (panics s))
    | _ => UB
    end.

Definition dealloc (s : Task) : mem Task :=
  access s
    (Safe (mkTask (state s) (core s) false (threads s) (hist s) (wakes s) (seen s)
       (future_drops s) (outputs s) (taken s) (dropped s) (stages s) (leaked s) (panics s))).

(** ** Wakers *)

(** [clone_waker], called through the handle of thread [i]: a waker, or the
    context of a poll. *)
Definition clone_waker (s : Task) : mem Task :=
  access s
    (let old := state s in
     let s := store (wrap64 (old + REF_INC)) s in
     if (REF_CRITICAL <? Z.land old REF_MASK)%Z then Safe (log_panic 1 s)
     else Safe (new_thread (HIdle Waker) s)).

(** The outcome of the read-modify-write of [wake]. *)
Inductive WakeOutcome := WakePanics | WakeSchedules | WakeReturns.

Definition wake_outcome (old : Z) : WakeOutcome :=
  if (WAKE_CRITICAL <? Z.land old WAKE_MASK)%Z then WakePanics
  else if (Z.land old (Z.lor (Z.lor WAKE_MASK CLOSED) POLLING) =? POLLING)%Z then WakeSchedules
  else WakeReturns.

(** [wake] up to the call of the scheduling function. *)
Definition wake (delta : Z) (s : Task) : Task :=
  let old := state s in
  let s := store (wrap64 (old + delta)) (count_wake s) in
  match wake_outcome old with
  | WakePanics => log_panic 0 s
  | WakeSchedules => new_hist s
  | WakeReturns => s
  end.

(** The end of [wake_by_val], from the state that its [wake] returned. *)
Definition wake_by_val_end (old : Z) : Pc :=
  if (Z.land old (Z.lor REF_MASK POLLING) =? REF_INC)%Z then
    if (Z.land old CLOSED =? 0)%Z then HDropOutput else HDealloc
  else Gone.

(** The decrement of the reference count that the drop handlers of wakers,
    promises and tokens share. *)
Definition drop_ref (i : nat) (s : Task) : mem Task :=
  access s
    (let old := state s in
     let s := store (wrap64 (old - REF_INC)) s in
     Safe (to i
       (if (Z.land old REF_MASK =? REF_INC)%Z && negb (runnable_exists old) then
          if (Z.land old POLLING =? POLLING)%Z then HDropFuture
          else if (Z.land old CLOSED =? 0)%Z then HDropOutput
          else HDealloc
        else Gone) s)).

Definition drop_waker := drop_ref.
Definition promise_drop := drop_ref.
Definition token_drop := drop_ref.

Definition wake_by_val (i : nat) (s : Task) : mem Task :=
  if negb zero_sized then drop_waker i s
  else
    access s
      (let old := state s in
       Safe (to i
         match wake_outcome old with
         | WakePanics => Gone
         | WakeSchedules => HSchedule true old
         | WakeReturns => wake_by_val_end old
         end (wake (WAKE_INC - REF_INC) s))).

Definition wake_by_ref (i : nat) (s : Task) : mem Task :=
  access s
    (let old := state s in
     Safe (to i
       match wake_outcome old with
       | WakeSchedules => HSchedule false old
       | _ => HIdle Waker
       end (wake WAKE_INC s))).

(** The future wakes its own task through the context of the poll. *)
Definition wake_context (i : nat) (wake_count : Z) (s : Task) : mem Task :=
  access s
    (let old := state s in
     Safe (to i
       match wake_outcome old with
       | WakeSchedules => RPollSchedule wake_count
       | _ => RPolling wake_count
       end (wake WAKE_INC s))).

(** [(this.schedule_fn)(runnable, this.tag.clone())]: the tag is read, then
    the runnable is with the executor. *)
Definition schedule (i : nat) (pc : Pc) (s : Task) : mem Task :=
  access s (Safe (new_thread RScheduled (to i pc s))).

(** The scheduling function returns; it has read what it captured. *)
Definition schedule_return (i : nat) (by_val : bool) (old : Z) (s : Task) : mem Task :=
  let k := Safe (to i (if by_val then wake_by_val_end old else HIdle Waker) s) in
  if zero_sized then k else access s k.

(** ** The promise *)

Definition promise_poll (i : nat) (s : Task) : mem Task :=
  access s
    (let old := state s in
     if (Z.land old (Z.lor POLLING CLOSED) =? 0)%Z then
       Safe (to i HTakeOutput (store (Z.lor old CLOSED) s))
     else if (Z.land old CLOSED =? CLOSED)%Z then Safe (log_stage Cancelled s)
     else Safe (log_stage Pending s)).

(** ** The cancellation token *)

(** The closure of the [fetch_update] of [cancel]. *)
Definition cancel_update (s : Z) : Z :=
  if (Z.land s POLLING =? 0)%Z then wrap64 (s - REF_INC)
  else if runnable_exists s then wrap64 (Z.lor s CLOSED - REF_INC)
  else Z.land (Z.lor s CLOSED) (not64 POLLING).

Definition token_cancel (i : nat) (s : Task) : mem Task :=
  access s
    (let old := state s in
     let s := store (cancel_update old) s in
     Safe (to i
       (if runnable_exists old then Gone
        else if (Z.land old POLLING =? 0)%Z then
          if (Z.land old REF_MASK =? REF_INC)%Z then
            if (Z.land old CLOSED =? 0)%Z then HDropOutput else HDealloc
          else Gone
        else HCancelDropFuture) s)).

(** The drop guard of [cancel]. *)
Definition token_release (i : nat) (s : Task) : mem Task :=
  access s
    (let old := state s in
     Safe (to i (if (Z.land old REF_MASK =? REF_INC)%Z then HDealloc else Gone)
       (store (wrap64 (old - REF_INC)) s))).

(** ** The runnable *)

(** The head of the loop of [run]: [z] is the state that was read, with the
    number of wakes it accounts for. *)
Definition run_loop (i : nat) (z : Z) (n : nat) (wake_count : Z) (s : Task) : Task :=
  if (Z.land z CLOSED =? CLOSED)%Z then to i RCancelDropFuture s
  else to i (RPolling wake_count) (saw n s).

(** The load at the head of [run]. *)
Definition run_load (i k : nat) (s : Task) : option (mem Task) :=
  if allocated s then
    match hist s !! k with
    | Some (z, n) =>
        Some (if (Z.land z POLLING =? POLLING)%Z
              then Safe (run_loop i z n (Z.land z WAKE_MASK) s) else AssertFailed)
    | None => None
    end
  else Some UB.

(** [fut.poll(cx)] returns or unwinds; an output is a local value of [run]. *)
Definition run_poll (i : nat) (wake_count : Z) (r : PollResult) (s : Task) : mem Task :=
  access s
    match core s with
    | CoreFuture =>
        Safe match r with
             | PollReady v => to i (RReadyDropFuture v) (log_output v s)
             | PollPending => to i (RPending wake_count) s
             | PollPanics => to i RCancelDropFuture s
             end
    | _ => UB
    end.

(** The future is dropped and replaced by its output; if its drop panics, the
    output is dropped too and the panic guard closes the task. *)
Definition run_publish (i : nat) (v : T) (unwinds : bool) (s : Task) : mem Task :=
  mem_bind (drop_future s) (λ s,
    Safe (if unwinds then to i RClose (drop_value v s)
          else to i RReadyUpdate (set_core (CoreOutput v) s))).

Definition run_complete (i : nat) (s : Task) : mem Task :=
  access s
    (let old := state s in
     if (Z.land old CLOSED =? CLOSED)%Z || (Z.land old REF_MASK =? 0)%Z
     then Safe (to i RReadyDropOutput s)
     else Safe (to i Gone (store (Z.land old (not64 POLLING)) s))).

Definition run_drop_output (i : nat) (unwinds : bool) (s : Task) : mem Task :=
  mem_bind (drop_output s) (λ s, Safe (to i (if unwinds then RClose else RReadyClear) s)).

Definition run_clear (i : nat) (s : Task) : mem Task :=
  access s
    (let old := state s in
     Safe (to i (if (Z.land old REF_MASK =? 0)%Z then RDealloc else Gone)
       (store (Z.land old (not64 POLLING)) s))).

(** The future is pending: the wake count is reset, and the loop goes on if
    the task was woken or cancelled since. *)
Definition run_pending (i : nat) (wake_count : Z) (s : Task) : mem Task :=
  access s
    (let old := state s in
     let s := store (wrap64 (old - wake_count)) s in
     if (wake_count <? old)%Z then
       let wake_count := wrap64 (Z.land old WAKE_MASK - wake_count) in
       Safe
         (if (wake_count =? 0)%Z && (Z.land old CLOSED =? 0)%Z then
            to i (if (Z.land old REF_MASK =? 0)%Z then RDropFuture else Gone) s
          else run_loop i old (wakes s) wake_count s)
     else AssertFailed).

(** The guard that enters the [Closed] phase, in [cancel] and in [run]. *)
Definition run_close (i : nat) (s : Task) : mem Task :=
  access s
    (let old := state s in
     Safe (to i (if (Z.land old REF_MASK =? 0)%Z then RDealloc else Gone)
       (store (Z.land (Z.lor old CLOSED) (not64 POLLING)) s))).

(** ** Steps *)

(** What the holder of a thread does next: a method of its handle, the state
    that a load reads, the result of a poll, or the next access of the method
    it is in, with whether user code that it runs panics. *)
Inductive Call :=
| CallClone
| CallWake
| CallWakeByRef
| CallDrop
| CallPoll
| CallCancel
| CallRun
| CallRead (k : nat)
| CallResult (r : PollResult)
| CallNext (unwinds : bool).

(** A drop in place, then the next program counter, whether or not the drop
    panics. *)
Definition then_to (i : nat) (pc : Pc) (m : mem Task) : mem Task :=
  mem_bind m (λ s, Safe (to i pc s)).

Definition thread_step (i : nat) (pc : Pc) (c : Call) (s : Task) : option (mem Task) :=
  match pc, c with
  | HIdle Waker, CallClone => Some (clone_waker s)
  | HIdle Waker, CallWake => Some (wake_by_val i s)
  | HIdle Waker, CallWakeByRef => Some (wake_by_ref i s)
  | HIdle Waker, CallDrop => Some (drop_waker i s)
  | HIdle Promise, CallPoll => Some (promise_poll i s)
  | HIdle Promise, CallDrop => Some (promise_drop i s)
  | HIdle CancelToken, CallCancel => Some (token_cancel i s)
  | HIdle CancelToken, CallDrop => Some (token_drop i s)
  | HSchedule by_val old, CallNext _ => Some (schedule i (HScheduled by_val old) s)
  | HScheduled by_val old, CallNext _ => Some (schedule_return i by_val old s)
  | HTakeOutput, CallNext _ => Some (then_to i (HIdle Promise) (take_output s))
  | HCancelDropFuture, CallNext _ => Some (then_to i HCancelRelease (drop_future s))
  | HCancelRelease, CallNext _ => Some (token_release i s)
  | HDropFuture, CallNext _ => Some (then_to i HDealloc (drop_future s))
  | HDropOutput, CallNext _ => Some (then_to i HDealloc (drop_output s))
  | HDealloc, CallNext _ => Some (then_to i Gone (dealloc s))
  | RScheduled, CallRun => Some (Safe (to i RLoad s))
  | RScheduled, CallDrop => Some (Safe (to i RCancelDropFuture s))
  | RLoad, CallRead k => run_load i k s
  | RPolling _, CallClone => Some (clone_waker s)
  | RPolling wc, CallWakeByRef => Some (wake_context i wc s)
  | RPolling wc, CallResult r => Some (run_poll i wc r s)
  | RPollSchedule wc, CallNext _ => Some (schedule i (RPolling wc) s)
  | RReadyDropFuture v, CallNext unwinds => Some (run_publish i v unwinds s)
  | RReadyUpdate, CallNext _ => Some (run_complete i s)
  | RReadyDropOutput, CallNext unwinds => Some (run_drop_output i unwinds s)
  | RReadyClear, CallNext _ => Some (run_clear i s)
  | RPending wc, CallNext _ => Some (run_pending i wc s)
  | RCancelDropFuture, CallNext _ => Some (then_to i RClose (drop_future s))
  | RClose, CallNext _ => Some (run_close i s)
  | RDropFuture, CallNext _ => Some (then_to i RDealloc (drop_future s))
  | RDealloc, CallNext _ => Some (then_to i Gone (dealloc s))
  | _, _ => None
  end.

Definition task_step (i : nat) (c : Call) (s : Task) : option (mem Task) :=
  match threads s !! i with
  | Some pc => thread_step i pc c s
  | None => None
  end.

(** [spawn] returns a promise, a runnable and a token; [spawn_and_forget] has
    no promise. *)
Definition spawned (word : Z) (ts : list Pc) : Task :=
  mkTask word CoreFuture true ts [(word, 1)] 1 0 0 [] [] [] [] 0 0.

Definition spawn : Task :=
  spawned (Z.lor (Z.lor (2 * REF_INC) WAKE_INC) POLLING)
    [HIdle Promise; RScheduled; HIdle CancelToken].

Definition spawn_and_forget : Task :=
  spawned (Z.lor (Z.lor REF_INC WAKE_INC) POLLING) [RScheduled; HIdle CancelToken].

(** A step of some thread that is neither undefined nor a failed assertion. *)
Inductive safe_step (s s' : Task) : Prop :=
| safe_step_intro i c : task_step i c s = Some (Safe s') → safe_step s s'.

Inductive spawns : Task → Prop :=
| spawns_spawn : spawns spawn
| spawns_forget : spawns spawn_and_forget.
End Task.

Arguments TaskCore : clear implicits.
Arguments Stage : clear implicits.
Arguments PollResult : clear implicits.
Arguments Pc : clear implicits.
Arguments Task : clear implicits.
Arguments Call : clear implicits.
