(* ===== verification/TaskWord.v ===== *)
(** * The state word of a task

    The 64-bit word of executor/task.rs seen as two flags and two counters:
    each test and each update of the code is given its meaning on [enc]. *)

From stdpp Require Import base option list numbers.
From Stdlib Require Import ZArith Lia.
From S2P Require Import Prelude Bits Task.

#[local] Open Scope Z_scope.

(** The word with flags [p] (POLLING) and [c] (CLOSED), [r] references and a
    wake count of [w]. *)
Definition enc (p c : bool) (r w : Z) : Z :=
  Z.b2z p + 2 * Z.b2z c + 4 * r + 2 ^ 33 * w.

(** Both counters fit in their 31 bits. *)
Definition fits (r w : Z) : Prop := 0 <= r < 2 ^ 31 ∧ 0 <= w < 2 ^ 31.

Section Word.
Context (p c : bool) (r w : Z) (Hf : fits r w).

Lemma enc_range : 0 <= enc p c r w < 2 ^ 64.
Proof. unfold enc, fits in *. destruct p, c; simpl Z.b2z; lia. Qed.

Lemma enc_slice a n : 0 <= a → 0 <= n →
  Z.land (enc p c r w) (Z.shiftl (Z.ones n) a) = (enc p c r w / 2 ^ a) mod 2 ^ n * 2 ^ a.
Proof. apply land_slice. Qed.

Lemma enc_POLLING : Z.land (enc p c r w) POLLING = Z.b2z p.
Proof.
  change POLLING with (Z.shiftl (Z.ones 1) 0). rewrite enc_slice by lia.
  unfold enc, fits in *. change (2 ^ 0) with 1. rewrite Z.div_1_r, Z.mul_1_r.
  symmetry. apply (Z.mod_unique _ _ (Z.b2z c + 2 * r + 2 ^ 32 * w)); destruct p; simpl; lia.
Qed.

Lemma enc_CLOSED : Z.land (enc p c r w) CLOSED = 2 * Z.b2z c.
Proof.
  change CLOSED with (Z.shiftl (Z.ones 1) 1). rewrite enc_slice by lia.
  unfold enc, fits in *.
  rewrite <-(Z.div_unique _ (2 ^ 1) (Z.b2z c + 2 * r + 2 ^ 32 * w) (Z.b2z p))
    by (destruct p; simpl; lia).
  rewrite <-(Z.mod_unique _ (2 ^ 1) (r + 2 ^ 31 * w) (Z.b2z c)) by (destruct c; simpl; lia).
  lia.
Qed.

Lemma enc_REF : Z.land (enc p c r w) REF_MASK = 4 * r.
Proof.
  change REF_MASK with (Z.shiftl (Z.ones 31) 2). rewrite enc_slice by lia.
  unfold enc, fits in *.
  rewrite <-(Z.div_unique _ (2 ^ 2) (r + 2 ^ 31 * w) (Z.b2z p + 2 * Z.b2z c))
    by (destruct p, c; simpl; lia).
  rewrite <-(Z.mod_unique _ (2 ^ 31) w r) by lia. lia.
Qed.

Lemma enc_WAKE : Z.land (enc p c r w) WAKE_MASK = 2 ^ 33 * w.
Proof.
  change WAKE_MASK with (Z.shiftl (Z.ones 31) 33). rewrite enc_slice by lia.
  unfold enc, fits in *.
  rewrite <-(Z.div_unique _ (2 ^ 33) w (Z.b2z p + 2 * Z.b2z c + 4 * r))
    by (destruct p, c; simpl; lia).
  rewrite Z.mod_small by lia. lia.
Qed.

(** ** Tests *)

Lemma test_polling_0 : (Z.land (enc p c r w) POLLING =? 0) = negb p.
Proof. rewrite enc_POLLING. by destruct p. Qed.
Lemma test_polling : (Z.land (enc p c r w) POLLING =? POLLING) = p.
Proof. rewrite enc_POLLING. by destruct p. Qed.
Lemma test_closed_0 : (Z.land (enc p c r w) CLOSED =? 0) = negb c.
Proof. rewrite enc_CLOSED. by destruct c. Qed.
Lemma test_closed : (Z.land (enc p c r w) CLOSED =? CLOSED) = c.
Proof. rewrite enc_CLOSED. by destruct c. Qed.

Lemma test_refs_1 : (Z.land (enc p c r w) REF_MASK =? REF_INC) = (r =? 1).
Proof.
  rewrite enc_REF. change REF_INC with 4.
  destruct (Z.eqb_spec (4 * r) 4), (Z.eqb_spec r 1); lia.
Qed.
Lemma test_refs_0 : (Z.land (enc p c r w) REF_MASK =? 0) = (r =? 0).
Proof. rewrite enc_REF. destruct (Z.eqb_spec (4 * r) 0), (Z.eqb_spec r 0); lia. Qed.
Lemma test_refs_critical :
  (REF_CRITICAL <? Z.land (enc p c r w) REF_MASK) = (2 ^ 30 <=? r).
Proof.
  rewrite enc_REF. change REF_CRITICAL with (2 ^ 32 - 4).
  destruct (Z.ltb_spec (2 ^ 32 - 4) (4 * r)), (Z.leb_spec (2 ^ 30) r); lia.
Qed.

Lemma enc_wake_closed :
  Z.land (enc p c r w) (Z.lor WAKE_MASK CLOSED) = 2 ^ 33 * w + 2 * Z.b2z c.
Proof. by rewrite land_disjoint, enc_WAKE, enc_CLOSED. Qed.

Lemma test_runnable : runnable_exists (enc p c r w) = p && (c || negb (w =? 0)).
Proof.
  unfold runnable_exists. rewrite test_polling_0, enc_wake_closed, negb_involutive.
  destruct p; [simpl|done]. unfold fits in Hf.
  destruct c; simpl; destruct (Z.eqb_spec (2 ^ 33 * w + 2) 0),
    (Z.eqb_spec (2 ^ 33 * w + 0) 0), (Z.eqb_spec w 0); simpl; lia || done.
Qed.

Lemma test_wake : wake_outcome (enc p c r w) =
  if 2 ^ 30 <=? w then WakePanics
  else if p && negb c && (w =? 0) then WakeSchedules else WakeReturns.
Proof.
  unfold wake_outcome. rewrite land_disjoint, enc_wake_closed, enc_POLLING, enc_WAKE by done.
  change WAKE_CRITICAL with (2 ^ 63 - 2 ^ 33). change POLLING with 1. unfold fits in Hf.
  destruct (Z.ltb_spec (2 ^ 63 - 2 ^ 33) (2 ^ 33 * w)), (Z.leb_spec (2 ^ 30) w);
    try lia; try done.
  destruct p, c; simpl Z.b2z;
    match goal with |- context [?a =? 1] => destruct (Z.eqb_spec a 1) end;
    destruct (Z.eqb_spec w 0); simpl; lia || done.
Qed.

Lemma test_last_closed_ref :
  (Z.land (enc p c r w) (Z.lor REF_MASK POLLING) =? REF_INC) = (r =? 1) && negb p.
Proof.
  rewrite land_disjoint, enc_REF, enc_POLLING by done. change REF_INC with 4.
  destruct p; simpl Z.b2z;
    match goal with |- context [?a =? 4] => destruct (Z.eqb_spec a 4) end;
    destruct (Z.eqb_spec r 1); simpl; lia || done.
Qed.

Lemma test_completed :
  (Z.land (enc p c r w) (Z.lor POLLING CLOSED) =? 0) = negb p && negb c.
Proof. rewrite land_disjoint, enc_POLLING, enc_CLOSED by done. by destruct p, c. Qed.

(** ** Updates *)

Lemma upd_close : Z.lor (enc p c r w) CLOSED = enc p true r w.
Proof.
  rewrite lor_as_sum, enc_CLOSED. change CLOSED with 2. unfold enc.
  destruct c; simpl Z.b2z; lia.
Qed.

Lemma upd_unpoll : Z.land (enc p c r w) (not64 POLLING) = enc false c r w.
Proof.
  rewrite (land_complement _ POLLING) by (done || apply enc_range).
  rewrite enc_POLLING. unfold enc. destruct p; simpl Z.b2z; lia.
Qed.

End Word.

(** Changes of the counters, within their bounds. *)
Lemma upd_counts p c r w r' w' d : fits r' w' →
  d = 4 * (r' - r) + 2 ^ 33 * (w' - w) → wrap64 (enc p c r w + d) = enc p c r' w'.
Proof.
  intros Hf ->. rewrite <-(wrap_small (enc p c r' w')) by by apply enc_range.
  f_equal. unfold enc. lia.
Qed.

Lemma upd_release p c r w : fits r w → (1 <= r) →
  wrap64 (enc p c r w - REF_INC) = enc p c (r - 1) w.
Proof.
  intros Hf Hr. apply (upd_counts _ _ _ _ _ _ (- 4)); unfold fits in *; lia.
Qed.

Lemma upd_cancel p c r w : fits r w → 1 <= r →
  cancel_update (enc p c r w) =
    if negb p then enc p c (r - 1) w
    else if c || negb (w =? 0) then enc p true (r - 1) w
    else enc false true r w.
Proof.
  intros Hf Hr. unfold cancel_update. rewrite test_polling_0, test_runnable by done.
  destruct p; simpl; [|by apply upd_release].
  rewrite upd_close by done. destruct (c || negb (w =? 0)).
  - by apply upd_release.
  - by rewrite upd_unpoll.
Qed.

Lemma enc_inj p c r w p' c' r' w' : fits r w → fits r' w' →
  enc p c r w = enc p' c' r' w' → p = p' ∧ c = c' ∧ r = r' ∧ w = w'.
Proof.
  intros Hf Hf' He. split_and!.
  - rewrite <-(test_polling p c r w), He. by apply test_polling.
  - rewrite <-(test_closed p c r w), He. by apply test_closed.
  - assert (4 * r = 4 * r') as ?; [|lia].
    rewrite <-(enc_REF p c r w Hf), He. by apply enc_REF.
  - assert (2 ^ 33 * w = 2 ^ 33 * w') as ?; [|lia].
    rewrite <-(enc_WAKE p c r w Hf), He. by apply enc_WAKE.
Qed.

Lemma spawn_word : Z.lor (Z.lor (2 * REF_INC) WAKE_INC) POLLING = enc true false 2 1.
Proof. reflexivity. Qed.

Lemma spawn_and_forget_word : Z.lor (Z.lor REF_INC WAKE_INC) POLLING = enc true false 1 1.
Proof. reflexivity. Qed.
