(* ===== verification/TaskInv.v ===== *)
(** * The invariant of a task

    At most one thread owns the core of a task at any time: the runnable, the
    thread that took the output or drops a cancelled future, or the one that
    frees the task.  The invariant says which, what that thread may rely on,
    and what the state word means when there is none. *)

From stdpp Require Import base option list numbers relations.
From Stdlib Require Import ZArith Lia.
From S2P Require Import Prelude Bits Counting Task TaskWord.

Section Inv.
Context {T : Type}.
Implicit Types s : Task T.
Implicit Types pc : Pc T.

(** The threads that [REF_COUNT] counts. *)
Definition holds pc : nat :=
  match pc with
  | HIdle _ | HSchedule false _ | HScheduled false _ | HTakeOutput | HCancelDropFuture
  | HCancelRelease => 1
  | _ => 0
  end.

(** The holders of a runnable that have not released the task. *)
Definition runs pc : nat :=
  match pc with
  | HSchedule _ _ | RScheduled | RLoad | RPolling _ | RPollSchedule _ | RReadyDropFuture _
  | RReadyUpdate | RReadyDropOutput | RReadyClear | RPending _ | RCancelDropFuture
  | RClose => 1
  | _ => 0
  end.

(** The threads that free the task. *)
Definition frees pc : nat :=
  match pc with
  | HDropFuture | HDropOutput | HDealloc | RDropFuture | RDealloc => 1
  | _ => 0
  end.

(** The threads with access to the core. *)
Definition owns pc : nat :=
  match pc with HIdle _ | HScheduled _ _ | HCancelRelease | Gone => 0 | _ => 1 end.

Definition is_promise pc : nat :=
  match pc with HIdle Promise | HTakeOutput => 1 | _ => 0 end.
Definition is_taking pc : nat := match pc with HTakeOutput => 1 | _ => 0 end.

Definition has_output s : Prop := ∃ v, core s = CoreOutput v.
Definition has_future s : Prop := core s = CoreFuture ∧ outputs s = [].

(** What the load of a runnable that has not started can read. *)
Definition readable (c : bool) (w : Z) (n : nat) (e : Z * nat) : Prop :=
  ∃ c' r' w', e.1 = enc true c' r' w' ∧ fits r' w' ∧ (1 ≤ w' ≤ w)%Z ∧ (c' = true → c = true) ∧
    (Z.of_nat e.2 + (w - w') = Z.of_nat n)%Z.

Definition waiting (p c : bool) (w : Z) s : Prop :=
  p = true ∧ (1 ≤ w)%Z ∧ has_future s ∧ Forall (readable c w (wakes s)) (hist s) ∧
  (Z.of_nat (seen s) + w = Z.of_nat (wakes s))%Z ∧ hist s ≠ [].

Definition polling (p : bool) (w wake_count : Z) s : Prop :=
  p = true ∧ has_future s ∧
  ∃ n, wake_count = (2 ^ 33 * n)%Z ∧ (1 ≤ n ≤ w)%Z ∧
    (Z.of_nat (seen s) + (w - n) = Z.of_nat (wakes s))%Z.

(** What a thread knows at its program counter. *)
Definition pc_ok (z : bool) (p c : bool) (r w : Z) s pc : Prop :=
  match pc with
  | HIdle _ | Gone => True
  | HSchedule v old =>
      waiting p c w s ∧ wake_by_val_end (T := T) old = Gone ∧ (v = true → z = true)
  | HScheduled v old => wake_by_val_end (T := T) old = Gone ∧ (v = true → z = true)
  | RScheduled | RLoad => waiting p c w s
  | RPolling wc | RPending wc => polling p w wc s
  | RPollSchedule _ => False
  | RReadyDropFuture v =>
      p = true ∧ (c = true ∨ (1 ≤ w)%Z) ∧ core s = CoreFuture ∧ outputs s = [v]
  | RReadyUpdate => p = true ∧ (c = true ∨ (1 ≤ w)%Z) ∧ has_output s
  | RReadyDropOutput =>
      p = true ∧ (c = true ∨ (1 ≤ w)%Z) ∧ has_output s ∧ (c = true ∨ r = 0%Z)
  | RReadyClear =>
      p = true ∧ (c = true ∨ (1 ≤ w)%Z) ∧ core s = CoreEmpty ∧ (c = true ∨ r = 0%Z)
  | RCancelDropFuture => p = true ∧ (c = true ∨ (1 ≤ w)%Z) ∧ has_future s
  | RClose => p = true ∧ (c = true ∨ (1 ≤ w)%Z) ∧ core s = CoreEmpty
  | HTakeOutput => p = false ∧ c = true ∧ has_output s
  | HCancelDropFuture => p = false ∧ c = true ∧ has_future s
  | HCancelRelease => p = false ∧ c = true
  | HDropFuture | RDropFuture => r = 0%Z ∧ has_future s
  | HDropOutput => r = 0%Z ∧ has_output s
  | HDealloc | RDealloc => r = 0%Z ∧ core s = CoreEmpty
  end.

(** No thread owns the core: the phases of the documentation. *)
Definition at_rest (p c : bool) (w : Z) s : Prop :=
  match p, c with
  | true, false => w = 0%Z ∧ has_future s ∧ seen s = wakes s
  | false, false => has_output s
  | false, true => core s = CoreEmpty
  | true, true => False
  end.

(** The stages that the promise has reported. *)
Definition stages_shape (l : list T) (n m : nat) : list (Stage T) :=
  replicate n Pending ++ (Ready <$> l) ++ replicate m Cancelled.

Definition values_ok s : Prop :=
  match core s with
  | CoreFuture => taken s = [] ∧ dropped s = []
  | CoreOutput v => outputs s = [v] ∧ taken s = [] ∧ dropped s = []
  | CoreEmpty => outputs s = taken s ++ dropped s ∧ length (outputs s) ≤ 1
  end.

Record task_inv (z : bool) s (p c : bool) (r w : Z) : Prop := {
  inv_word : state s = enc p c r w;
  inv_r : (0 ≤ r ≤ 2 ^ 30 + Z.of_nat (panics s))%Z;
  inv_w : (0 ≤ w ≤ 2 ^ 30 + Z.of_nat (panics s))%Z;
  inv_refs : r = Z.of_nat (cnt holds (threads s) + leaked s);
  inv_leaked : leaked s ≤ panics s;
  inv_owner : cnt owns (threads s) ≤ 1;
  inv_promise : cnt is_promise (threads s) ≤ 1;
  inv_pcs : ∀ i pc, threads s !! i = Some pc → pc_ok z p c r w s pc;
  inv_rest : cnt owns (threads s) = 0 → allocated s = true →
    at_rest p c w s ∧ (panics s = 0 → 0 < cnt holds (threads s));
  inv_freed : allocated s = false →
    r = 0%Z ∧ cnt owns (threads s) = 0 ∧ core s = CoreEmpty;
  inv_future : future_drops s = match core s with CoreFuture => 0 | _ => 1 end;
  inv_values : values_ok s;
  inv_stages : ∃ n m, stages s = stages_shape (taken s) n m ∧
    (m = 0 ∨ (c = true ∧ cnt is_taking (threads s) = 0));
  inv_taken : taken s = [] ∨ c = true;
}.

(** The calls that panicked were too few for the counters to overflow. *)
Definition few_panics s : Prop := (Z.of_nat (panics s) < 2 ^ 30 - 1)%Z.

Lemma inv_fits z s p c r w : task_inv z s p c r w → few_panics s → fits r w.
Proof. intros [] ?. unfold fits, few_panics in *. lia. Qed.

(** ** What the other threads keep *)

Lemma pc_ok_not_owner z p c r w p' c' r' w' s s' pc :
  owns pc = 0 → pc_ok z p c r w s pc →
  (p = false → p' = false) → (c = true → c' = true) → pc_ok z p' c' r' w' s' pc.
Proof. destruct pc; simpl; try done; naive_solver. Qed.

(** A step of a thread that does not own the core, as the owner sees it. *)
Record calm (p c : bool) (r w : Z) s (p' c' : bool) (r' w' : Z) s' : Prop := {
  calm_p : p' = p;
  calm_c : c = true → c' = true;
  calm_r : r = 0%Z → r' = 0%Z;
  calm_w : (w ≤ w')%Z;
  calm_wakes : (Z.of_nat (wakes s') - Z.of_nat (wakes s) = w' - w)%Z;
  calm_seen : seen s' = seen s;
  calm_core : core s' = core s;
  calm_outputs : outputs s' = outputs s;
  calm_hist : hist s' = hist s ∨ (hist s' = hist s ++ [(enc p c' r' w', wakes s')] ∧ fits r' w');
}.

Lemma calm_readable p c r w s p' c' r' w' s' :
  calm p c r w s p' c' r' w' s' → p = true → (1 ≤ w)%Z →
  Forall (readable c w (wakes s)) (hist s) → Forall (readable c' w' (wakes s')) (hist s').
Proof.
  intros [-> Hc _ Hw Hn _ _ _ Hh] -> H1 Hf.
  assert (Forall (readable c' w' (wakes s')) (hist s)) as Hf'.
  { eapply Forall_impl; [exact Hf|]. intros [z n] (c1 & r1 & w1 & He & Hfit & Hle & Hc1 & Hn1).
    exists c1, r1, w1. simpl in *. split_and!; try done; [lia|lia|naive_solver|lia]. }
  destruct Hh as [->|[-> Hfit]]; [done|]. apply Forall_app. split; [done|].
  apply Forall_singleton. exists c', r', w'. split_and!; simpl; done || lia.
Qed.

Lemma pc_ok_calm z p c r w p' c' r' w' s s' pc :
  calm p c r w s p' c' r' w' s' → pc_ok z p c r w s pc → pc_ok z p' c' r' w' s' pc.
Proof.
  intros Hcalm. pose proof (calm_readable _ _ _ _ _ _ _ _ _ _ Hcalm) as Hread.
  assert (hist s ≠ [] → hist s' ≠ []) as Hne.
  { destruct (calm_hist _ _ _ _ _ _ _ _ _ _ Hcalm) as [->|[-> _]]; [done|].
    intros _ []%app_nil. done. }
  destruct Hcalm as [-> Hc Hr Hw Hn Hs Hcore Hout _].
  destruct pc; simpl; unfold waiting, polling, has_future, has_output;
    rewrite ?Hcore, ?Hout, ?Hs; try (naive_solver lia).
Qed.

(** The threads after a step of thread [i], which may have started others. *)
Lemma pcs_step z p c r w s p' c' r' w' s' i pc pc' new :
  task_inv z s p c r w → threads s !! i = Some pc →
  threads s' = <[i:=pc']> (threads s) ++ new →
  (p = false → p' = false) → (c = true → c' = true) →
  (owns pc = 1 ∨ cnt owns (threads s) = 0 ∨ calm p c r w s p' c' r' w' s') →
  pc_ok z p' c' r' w' s' pc' → Forall (pc_ok z p' c' r' w' s') new →
  ∀ j pcj, threads s' !! j = Some pcj → pc_ok z p' c' r' w' s' pcj.
Proof.
  intros Hinv Hi Ht Hp Hc Hcase Hok Hnew j pcj. rewrite Ht.
  intros [Hj|[_ Hj]]%lookup_app_Some; [|by eapply Forall_lookup_1].
  apply list_lookup_insert_Some in Hj as [(-> & -> & _)|[Hne Hj]]; [done|].
  pose proof (inv_pcs _ _ _ _ _ _ Hinv _ _ Hj) as Hold.
  destruct Hcase as [Ho|[Ho|Hcalm]]; [| |by eapply pc_ok_calm].
  - pose proof (cnt_lookup_two owns _ _ _ _ _ Hi Hj Hne).
    pose proof (inv_owner _ _ _ _ _ _ Hinv).
    eapply pc_ok_not_owner; [|done..]. lia.
  - pose proof (cnt_lookup owns _ _ _ Hj). eapply pc_ok_not_owner; [|done..]. lia.
Qed.
End Inv.
