(* ===== verification/TaskSteps.v ===== *)
(** * Every step of a task keeps its invariant

    One lemma for each operation of executor/task.rs and executor/task/; all
    go through [inv_step], which leaves what is specific to the operation. *)

From stdpp Require Import base option list numbers relations.
From Stdlib Require Import ZArith Lia.
From S2P Require Import Prelude Bits Counting Task TaskWord TaskInv.

(** The new state, flags that only move forward, then the invariant. *)
Ltac step_to := split; [reflexivity|split; [done|split; [done|]]].

Section Steps.
Context {T : Type} (z : bool).
Implicit Types s : Task T.
Implicit Types pc : Pc T.

Definition stages_ok (c : bool) (k : nat) s : Prop :=
  ∃ n m, stages s = stages_shape (taken s) n m ∧ (m = 0 ∨ (c = true ∧ k = 0)).

(** The step is safe, leads to a state with the invariant, and neither sets
    [POLLING] nor clears [CLOSED]. *)
Definition keeps (p c : bool) (m : mem (Task T)) : Prop :=
  ∃ s' p' c' r' w', m = Safe s' ∧ (p = false → p' = false) ∧ (c = true → c' = true) ∧
    task_inv z s' p' c' r' w'.

Lemma inv_step s p c r w i pc pc' new s' p' c' r' w' :
  task_inv z s p c r w → threads s !! i = Some pc →
  threads s' = <[i:=pc']> (threads s) ++ new →
  state s' = enc p' c' r' w' →
  (0 ≤ r' ≤ 2 ^ 30 + Z.of_nat (panics s'))%Z → (0 ≤ w' ≤ 2 ^ 30 + Z.of_nat (panics s'))%Z →
  (r' - r = Z.of_nat (holds pc' + cnt holds new) - Z.of_nat (holds pc) +
            (Z.of_nat (leaked s') - Z.of_nat (leaked s)))%Z →
  leaked s' ≤ panics s' →
  cnt owns (threads s) + owns pc' + cnt owns new ≤ 1 + owns pc →
  is_promise pc' + cnt is_promise new ≤ is_promise pc → cnt is_taking new = 0 →
  (p = false → p' = false) → (c = true → c' = true) →
  (owns pc = 1 ∨ cnt owns (threads s) = 0 ∨ calm p c r w s p' c' r' w' s') →
  pc_ok z p' c' r' w' s' pc' → Forall (pc_ok z p' c' r' w' s') new →
  (cnt owns (threads s) = owns pc → owns pc' + cnt owns new = 0 → allocated s' = true →
     at_rest p' c' w' s' ∧ (panics s' = 0 → (0 < r')%Z)) →
  (allocated s' = false →
     (r' = 0)%Z ∧ cnt owns (threads s) = owns pc ∧ owns pc' + cnt owns new = 0 ∧
     core s' = CoreEmpty) →
  future_drops s' = match core s' with CoreFuture => 0 | _ => 1 end →
  values_ok s' →
  stages_ok c' (cnt is_taking (threads s) + is_taking pc' - is_taking pc) s' →
  (taken s' = [] ∨ c' = true) →
  task_inv z s' p' c' r' w'.
Proof.
  intros Hinv Hi Ht Hword Hr Hw Hrefs Hleak Hown Hprom Htak Hp Hc Hcase Hok Hnew Hrest Hfreed
    Hfut Hval Hst Htaken.
  assert (∀ f, f = holds ∨ f = owns ∨ f = is_promise ∨ f = is_taking →
    cnt f (threads s') + f pc = cnt f (threads s) + f pc' + cnt f new) as Hcnt.
  { intros f _. rewrite Ht, sum_list_with_app.
    pose proof (cnt_insert f (threads s) i pc pc' Hi). lia. }
  pose proof (Hcnt holds (or_introl eq_refl)) as Hh.
  pose proof (Hcnt owns (or_intror (or_introl eq_refl))) as Ho.
  pose proof (Hcnt is_promise (or_intror (or_intror (or_introl eq_refl)))) as Hpr.
  pose proof (Hcnt is_taking (or_intror (or_intror (or_intror eq_refl)))) as Hta.
  pose proof (inv_refs _ _ _ _ _ _ Hinv) as Hr0.
  pose proof (inv_promise _ _ _ _ _ _ Hinv). pose proof (inv_owner _ _ _ _ _ _ Hinv).
  pose proof (cnt_lookup owns _ _ _ Hi). pose proof (cnt_lookup is_taking _ _ _ Hi).
  split; try done; try lia.
  - by eapply pcs_step.
  - intros Hz Ha. destruct Hrest as [Hr1 Hr2]; [lia..|done|]. split; [done|].
    intros Hp0. specialize (Hr2 Hp0). lia.
  - intros Ha. destruct (Hfreed Ha) as (Hr1 & Ho1 & Ho2 & Hcore). split_and!; [lia..|done].
  - destruct Hst as (n & m & Hs & Hm). exists n, m. split; [done|].
    destruct Hm as [|[]]; [by left|right]. split; [done|]. lia.
Qed.

(** A thread with a reference or with the core sees a live task. *)
Lemma inv_live s p c r w i pc :
  task_inv z s p c r w → threads s !! i = Some pc → 0 < holds pc + owns pc →
  allocated s = true.
Proof.
  intros Hinv Hi Hp. destruct (allocated s) eqn:Ha; [done|].
  apply (inv_freed _ _ _ _ _ _ Hinv) in Ha as (? & ? & _).
  pose proof (inv_refs _ _ _ _ _ _ Hinv).
  pose proof (cnt_lookup holds _ _ _ Hi). pose proof (cnt_lookup owns _ _ _ Hi). lia.
Qed.

Lemma inv_holder s p c r w i pc :
  task_inv z s p c r w → threads s !! i = Some pc → holds pc = 1 → (1 ≤ r)%Z.
Proof.
  intros Hinv Hi Hp. rewrite (inv_refs _ _ _ _ _ _ Hinv).
  pose proof (cnt_lookup holds _ _ _ Hi). lia.
Qed.

(** An active runnable is in the polling or wind-down phase. *)
Lemma runs_phase s p c r w pc :
  pc_ok z p c r w s pc → runs pc = 1 → p = true ∧ (c = true ∨ (1 ≤ w)%Z).
Proof.
  destruct pc; simpl; unfold waiting, polling; try done; try naive_solver.
  all: intros (-> & ? & n & ? & ? & ?) _; split; [done|right; lia].
Qed.

(** The core owner, if any, found by what the state word rules out. *)
Lemma no_runner s p c r w :
  task_inv z s p c r w → cnt owns (threads s) ≠ 0 →
  ∃ i pc, threads s !! i = Some pc ∧ owns pc = 1 ∧ pc_ok z p c r w s pc.
Proof.
  intros Hinv Hne. destruct (cnt_pos owns (threads s)) as (i & pc & Hi & Hp); [lia|].
  exists i, pc. pose proof (cnt_lookup owns _ _ _ Hi).
  pose proof (inv_owner _ _ _ _ _ _ Hinv). split_and!; [done|lia|].
  by eapply inv_pcs.
Qed.

(** While a reference exists and the word says that no runnable does, only the
    taking of the output and the drop of a cancelled future own the core. *)
Lemma idle_owner s p c r w :
  task_inv z s p c r w → (1 ≤ r)%Z → p && (c || negb (w =? 0)%Z) = false →
  cnt owns (threads s) = 0 ∨
  (p = false ∧ c = true ∧ ∃ i pc, threads s !! i = Some pc ∧ holds pc = 1 ∧ owns pc = 1).
Proof.
  intros Hinv Hr Hno. destruct (decide (cnt owns (threads s) = 0)) as [|Hne]; [by left|].
  right. destruct (no_runner _ _ _ _ _ Hinv Hne) as (i & pc & Hi & Ho & Hok).
  pose proof (runs_phase _ _ _ _ _ _ Hok) as Hrun.
  destruct pc; simpl in Ho; try lia; simpl in Hok; try done;
    try (destruct (Hrun eq_refl) as [-> [-> | Hw]]; [done|];
         rewrite (proj2 (Z.eqb_neq w 0)) in Hno by lia; by destruct c);
    try (destruct Hok as [? _]; lia);
    (destruct Hok as (-> & -> & _); split_and!; [done|done|]; by eauto).
Qed.

(** The last reference, with no runnable: nobody else has the core. *)
Lemma last_owner s p c r w i pc :
  task_inv z s p c r w → threads s !! i = Some pc → holds pc = 1 → owns pc = 0 →
  r = 1%Z → p && (c || negb (w =? 0)%Z) = false → cnt owns (threads s) = 0.
Proof.
  intros Hinv Hi Hh Ho Hr Hno.
  destruct (idle_owner _ _ _ _ _ Hinv ltac:(lia) Hno) as [|(_ & _ & j & pcj & Hj & Hhj & Hoj)];
    [done|].
  pose proof (inv_refs _ _ _ _ _ _ Hinv).
  assert (i ≠ j) as Hne by (intros ->; simplify_eq; lia).
  pose proof (cnt_lookup_two holds _ _ _ _ _ Hi Hj Hne). lia.
Qed.

(** The stages when the promise reports nothing. *)
Lemma stages_same s p c r w s' c' k :
  task_inv z s p c r w → stages s' = stages s → taken s' = taken s →
  (c = true → c' = true) → k ≤ cnt is_taking (threads s) → stages_ok c' k s'.
Proof.
  intros Hinv Hs Ht Hc Hk. destruct (inv_stages _ _ _ _ _ _ Hinv) as (n & m & Hst & Hm).
  exists n, m. rewrite Hs, Ht. split; [done|].
  destruct Hm as [|[]]; [by left|right]. split; [by auto|lia].
Qed.

(** ** Wakers *)

(** Opens the invariant and the facts that every step uses. *)
Ltac open_inv Hinv Hfew Hi :=
  pose proof (inv_fits _ _ _ _ _ _ Hinv Hfew) as Hfit;
  pose proof (inv_pcs _ _ _ _ _ _ Hinv _ _ Hi) as Hok;
  pose proof (cnt_lookup owns _ _ _ Hi) as Hcown;
  pose proof (cnt_lookup is_taking _ _ _ Hi) as Hctak;
  pose proof Hinv as [Hword Hr Hw Hrefs Hleak Hown Hprom Hpcs Hrest Hfreed Hfut Hval Hst Htk];
  unfold few_panics in Hfew.

(** The side conditions of [inv_step] that hold by computation. *)
Ltac side :=
  simpl; try done; try lia; try (by auto); try (by apply Forall_singleton); try congruence;
  try (eapply stages_same; [eassumption|done|done|done|simpl; lia]).

Lemma clone_keeps s p c r w i pc :
  task_inv z s p c r w → few_panics s → threads s !! i = Some pc →
  pc = HIdle Waker ∨ (∃ wc, pc = RPolling wc) → keeps p c (clone_waker s).
Proof.
  intros Hinv Hfew Hi Hpc. open_inv Hinv Hfew Hi.
  assert (0 < holds pc + owns pc) as Hpos by (destruct Hpc as [->|[wc ->]]; simpl; lia).
  pose proof (inv_live _ _ _ _ _ _ _ Hinv Hi Hpos) as Ha.
  assert (fits (r + 1) w) as Hfit' by (unfold fits in *; lia).
  unfold keeps, clone_waker, access. rewrite Ha, Hword, test_refs_critical by done.
  assert (wrap64 (enc p c r w + REF_INC) = enc p c (r + 1) w) as Hupd
    by (apply upd_counts; [done|change REF_INC with 4%Z; lia]).
  rewrite Hupd.
  destruct (Z.leb_spec (2 ^ 30) r); (eexists _, p, c, (r + 1)%Z, w; step_to).
  - eapply (inv_step _ _ _ _ _ i _ pc []); [done|done|..]; side.
    + by rewrite app_nil_r, list_insert_id.
    + destruct Hpc as [->|[wc ->]]; simpl; [right; right|by left].
      pose proof (inv_holder _ _ _ _ _ _ _ Hinv Hi eq_refl). split; side.
    + destruct Hpc as [->|[wc ->]]; simpl; [done|]. exact Hok.
    + intros Ho Ho' _. destruct (Hrest ltac:(lia) Ha) as [? _]. split; [done|lia].
  - eapply (inv_step _ _ _ _ _ i _ pc [HIdle Waker]); [done|done|..]; side.
    + by rewrite list_insert_id.
    + destruct Hpc as [->|[wc ->]]; simpl; [right; right|by left].
      pose proof (inv_holder _ _ _ _ _ _ _ Hinv Hi eq_refl). split; side.
    + destruct Hpc as [->|[wc ->]]; simpl; [done|]. exact Hok.
    + intros Ho Ho' _. destruct (Hrest ltac:(lia) Ha) as [? _]. split; [done|lia].
Qed.

(** At rest, a task that is woken without being scheduled stays at rest. *)
Lemma at_rest_wake p c w s s' :
  at_rest p c w s → p && negb c && (w =? 0)%Z = false →
  core s' = core s → outputs s' = outputs s → at_rest p c (w + 1) s'.
Proof.
  intros Hr Hno Hc Ho. unfold at_rest, has_output, has_future in *.
  destruct p, c; rewrite ?Hc; try done. destruct Hr as [-> _]. done.
Qed.

Lemma wake_by_ref_keeps s p c r w i :
  task_inv z s p c r w → few_panics s → threads s !! i = Some (HIdle Waker) →
  keeps p c (wake_by_ref i s).
Proof.
  intros Hinv Hfew Hi. open_inv Hinv Hfew Hi.
  pose proof (inv_live _ _ _ _ _ _ _ Hinv Hi ltac:(simpl; lia)) as Ha.
  pose proof (inv_holder _ _ _ _ _ _ _ Hinv Hi eq_refl) as Hr1.
  unfold keeps, wake_by_ref, access. rewrite Ha. unfold wake. rewrite Hword, test_wake by done.
  rewrite (upd_counts _ _ _ _ r (w + 1)%Z) by (unfold fits in *; change WAKE_INC with (2^33)%Z; lia).
  destruct (Z.leb_spec (2 ^ 30) w);
    [|destruct (p && negb c && (w =? 0)%Z) eqn:Hsch];
    (eexists _, p, c, r, (w + 1)%Z; step_to).
  - eapply (inv_step _ _ _ _ _ i _ (HIdle Waker) []); [done|done|..]; side.
    + by rewrite app_nil_r.
    + right; right. split; side. right. split; [done|]. unfold fits in *; lia.
    + intros Ho Ho' _. destruct (Hrest ltac:(lia) Ha) as [Hat _]. split; [|lia].
      eapply at_rest_wake; [done| |done..]. destruct p, c; try done. simpl. lia.
  - apply andb_true_iff in Hsch as [[-> Hc]%andb_true_iff Hw0].
    apply negb_true_iff in Hc as ->. apply Z.eqb_eq in Hw0 as ->.
    destruct (idle_owner _ _ _ _ _ Hinv Hr1 eq_refl) as [Ho|[? _]]; [|done].
    destruct (Hrest Ho Ha) as [(_ & Hfu & Hseen) _].
    eapply (inv_step _ _ _ _ _ i _ (HSchedule false (enc true false r 0)) []);
      [done|done|..]; side.
    + by rewrite app_nil_r.
    + unfold wake_by_val_end. rewrite test_last_closed_ref, andb_false_r by done.
      split_and!; [|done|done]. split_and!; side. apply Forall_singleton.
      exists false, r, 1%Z. unfold fits in *. split_and!; side.
  - eapply (inv_step _ _ _ _ _ i _ (HIdle Waker) []); [done|done|..]; side.
    + by rewrite app_nil_r.
    + right; right. split; side. right. split; [done|]. unfold fits in *; lia.
    + intros Ho Ho' _. destruct (Hrest ltac:(lia) Ha) as [Hat _]. split; [|lia].
      by eapply at_rest_wake.
Qed.

(** ** Releasing a reference *)

Definition same_core s s' : Prop :=
  core s' = core s ∧ allocated s' = allocated s ∧ seen s' = seen s ∧
  future_drops s' = future_drops s ∧ outputs s' = outputs s ∧ taken s' = taken s ∧
  dropped s' = dropped s ∧ stages s' = stages s ∧ leaked s' = leaked s ∧ panics s' = panics s.

(** What the last reference has to do, with no runnable left. *)
Definition free_pc (p c : bool) : Pc T :=
  if p then HDropFuture else if negb c then HDropOutput else HDealloc.

Lemma values_same s s' : same_core s s' → values_ok s → values_ok s'.
Proof.
  intros (Hc & _ & _ & _ & Ho & Ht & Hd & _). unfold values_ok. by rewrite Hc, Ho, Ht, Hd.
Qed.

Lemma at_rest_same p c w s s' :
  same_core s s' → wakes s' = wakes s → at_rest p c w s → at_rest p c w s'.
Proof.
  intros (Hc & _ & Hs & _ & Ho & _) Hw. unfold at_rest, has_output, has_future.
  by rewrite Hc, Ho, Hw, Hs.
Qed.

Lemma release_keeps s p c r w i pc s' w' :
  task_inv z s p c r w → few_panics s → threads s !! i = Some pc →
  holds pc = 1 → owns pc = 0 → same_core s s' →
  threads s' = <[i:=if (r =? 1)%Z && negb (p && (c || negb (w =? 0)%Z))
                    then free_pc p c else Gone]> (threads s) →
  state s' = enc p c (r - 1) w' →
  hist s' = hist s ++ [(enc p c (r - 1) w', wakes s')] →
  (w' = w ∧ wakes s' = wakes s) ∨
  (w' = w + 1 ∧ wakes s' = S (wakes s) ∧ p && negb c && (w =? 0) = false ∧ w < 2 ^ 30)%Z →
  task_inv z s' p c (r - 1) w'.
Proof.
  intros Hinv Hfew Hi Hh Ho Hsame Hth Hwd Hhist Hcase. open_inv Hinv Hfew Hi.
  pose proof (inv_live _ _ _ _ _ _ _ Hinv Hi ltac:(lia)) as Ha.
  pose proof (inv_holder _ _ _ _ _ _ _ Hinv Hi Hh) as Hr1.
  pose proof (values_same _ _ Hsame Hval) as Hval'.
  assert (at_rest p c w s → at_rest p c w' s') as Hat.
  { intros Hat. destruct Hcase as [[-> ?]|(-> & ? & ? & _)]; [by eapply at_rest_same|].
    eapply at_rest_wake; [done..| |]; apply Hsame. }
  destruct Hsame as (Hc & Hal & Hs & Hfd & Hout & Htak & Hd & Hstg & Hlk & Hpn).
  assert (fits (r - 1) w') as Hfit' by (unfold fits in *; lia).
  destruct ((r =? 1)%Z && negb (p && (c || negb (w =? 0)%Z))) eqn:Hlast.
  - apply andb_true_iff in Hlast as [Hr1'%Z.eqb_eq Hno%negb_true_iff].
    pose proof (last_owner _ _ _ _ _ _ _ Hinv Hi Hh Ho Hr1' Hno) as Hown0.
    destruct (Hrest Hown0 Ha) as [Hat0 _].
    assert (holds (free_pc p c) = 0 ∧ owns (free_pc p c) = 1 ∧ is_promise (free_pc p c) = 0 ∧
      is_taking (free_pc p c) = 0) as (Hf1 & Hf2 & Hf3 & Hf4) by (by destruct p, c).
    eapply (inv_step _ _ _ _ _ i _ (free_pc p c) []); [done|done|..]; rewrite ?Hf1, ?Hf2,
      ?Hf3, ?Hf4; side.
    + by rewrite app_nil_r.
    + unfold at_rest, has_future, has_output in Hat0.
      destruct p, c; simpl; unfold has_future, has_output; rewrite ?Hc, ?Hout; try done;
        split; try lia; naive_solver.
    + by rewrite Hc, Hfd.
  - eapply (inv_step _ _ _ _ _ i _ Gone []); [done|done|..]; side.
    + by rewrite app_nil_r.
    + right; right. split; side.
    + intros Hz _ _. destruct (Hrest ltac:(lia) Ha) as [Hat0 _]. split; [by auto|].
      intros _. apply andb_false_iff in Hlast as [Hr1'%Z.eqb_neq|Hno]; [lia|].
      destruct p, c; try done. destruct Hat0 as [-> _]. done.
    + by rewrite Hc, Hfd.
Qed.

Lemma drop_ref_keeps s p c r w i k :
  task_inv z s p c r w → few_panics s → threads s !! i = Some (HIdle k) →
  keeps p c (drop_ref i s).
Proof.
  intros Hinv Hfew Hi. open_inv Hinv Hfew Hi.
  pose proof (inv_live _ _ _ _ _ _ _ Hinv Hi ltac:(simpl; lia)) as Ha.
  pose proof (inv_holder _ _ _ _ _ _ _ Hinv Hi eq_refl) as Hr1.
  unfold keeps, drop_ref, access. rewrite Ha, Hword.
  rewrite upd_release, test_refs_1, test_runnable, test_polling, test_closed_0 by done.
  eexists _, p, c, (r - 1)%Z, w. step_to.
  eapply release_keeps; [done|done|done|done..|by left].
Qed.

Lemma wake_end_enc p c r w : fits r w →
  wake_by_val_end (enc p c r w) = if (r =? 1)%Z && negb p then free_pc p c else Gone.
Proof.
  intros Hf. unfold wake_by_val_end. rewrite test_last_closed_ref, test_closed_0 by done.
  destruct (r =? 1)%Z, p; done.
Qed.

Lemma wake_by_val_keeps s p c r w i :
  task_inv z s p c r w → few_panics s → threads s !! i = Some (HIdle Waker) →
  keeps p c (wake_by_val z i s).
Proof.
  intros Hinv Hfew Hi. unfold wake_by_val. destruct (negb z) eqn:Hz; [by eapply drop_ref_keeps|].
  apply negb_false_iff in Hz. open_inv Hinv Hfew Hi.
  pose proof (inv_live _ _ _ _ _ _ _ Hinv Hi ltac:(simpl; lia)) as Ha.
  pose proof (inv_holder _ _ _ _ _ _ _ Hinv Hi eq_refl) as Hr1.
  unfold keeps, access. rewrite Ha. unfold wake.
  rewrite Hword, test_wake by done. rewrite (upd_counts _ _ _ _ (r - 1)%Z (w + 1)%Z)
    by (unfold fits in *; change (WAKE_INC - REF_INC)%Z with (2 ^ 33 - 4)%Z; lia).
  destruct (Z.leb_spec (2 ^ 30) w);
    [|destruct (p && negb c && (w =? 0)%Z) eqn:Hsch];
    (eexists _, p, c, (r - 1)%Z, (w + 1)%Z; step_to).
  - eapply (inv_step _ _ _ _ _ i _ Gone []); [done|done|..]; side.
    + by rewrite app_nil_r.
    + right; right. split; side. right. split; [done|]. unfold fits in *; lia.
    + intros Ho Ho' _. destruct (Hrest Ho Ha) as [Hat _]. split; [|lia].
      eapply at_rest_wake; [done| |done..]. destruct p, c; try done. simpl. lia.
  - apply andb_true_iff in Hsch as [[-> Hc]%andb_true_iff Hw0].
    apply negb_true_iff in Hc as ->. apply Z.eqb_eq in Hw0 as ->.
    destruct (idle_owner _ _ _ _ _ Hinv Hr1 eq_refl) as [Ho|[? _]]; [|done].
    destruct (Hrest Ho Ha) as [(_ & Hfu & Hseen) _].
    eapply (inv_step _ _ _ _ _ i _ (HSchedule true (enc true false r 0)) []);
      [done|done|..]; side.
    + by rewrite app_nil_r.
    + rewrite wake_end_enc, andb_false_r by done.
      split_and!; [|done|done]. split_and!; side. apply Forall_singleton.
      exists false, (r - 1)%Z, 1%Z. unfold fits in *. split_and!; side.
  - eapply release_keeps; [done|done|done|done|done|done| |done|done|by right; split_and!].
    rewrite wake_end_enc by done. simpl. f_equal. destruct (r =? 1)%Z, p; try done. simpl.
    destruct c; simpl in *; [done|]. by rewrite Hsch.
Qed.

Lemma schedule_keeps s p c r w i v old :
  task_inv z s p c r w → few_panics s → threads s !! i = Some (HSchedule v old) →
  keeps p c (schedule i (HScheduled v old) s).
Proof.
  intros Hinv Hfew Hi. open_inv Hinv Hfew Hi.
  pose proof (inv_live _ _ _ _ _ _ _ Hinv Hi ltac:(simpl; lia)) as Ha.
  destruct Hok as (Hwait & Hend & Hv).
  unfold keeps, schedule, access. rewrite Ha. eexists _, p, c, r, w. step_to.
  eapply (inv_step _ _ _ _ _ i _ (HScheduled v old) [RScheduled]); [done|done|..]; side.
Qed.

Lemma schedule_return_keeps s p c r w i v old :
  task_inv z s p c r w → few_panics s → threads s !! i = Some (HScheduled v old) →
  keeps p c (schedule_return z i v old s).
Proof.
  intros Hinv Hfew Hi. open_inv Hinv Hfew Hi. destruct Hok as (Hend & Hv).
  assert (keeps p c (Safe (to i (if v then wake_by_val_end old else HIdle Waker) s))) as Hk.
  { rewrite Hend. eexists _, p, c, r, w. step_to.
    eapply (inv_step _ _ _ _ _ i _ (if v then Gone else HIdle Waker) []); [done|done|..];
      side; try (by destruct v); try (destruct v; simpl; lia).
    - by rewrite app_nil_r.
    - right; right. split; side.
    - intros Ho _ Ha. destruct (Hrest Ho Ha) as [Hat Hpos]. split; [done|].
      intros Hp0. specialize (Hpos Hp0). lia.
    - intros Ha. destruct (Hfreed Ha) as (Hh & Ho & Hc). by destruct v.
    - eapply stages_same; [done..|]. destruct v; simpl; lia. }
  unfold schedule_return. assert (∀ b, (v = true → b = true) →
    keeps p c (if b then Safe (to i (if v then wake_by_val_end old else HIdle Waker) s)
           else access s (Safe (to i (if v then wake_by_val_end old else HIdle Waker) s))))
    as Hb; [|by apply Hb].
  intros [] Hbv; [done|]. destruct v; [by specialize (Hbv eq_refl)|]. unfold access.
  by rewrite (inv_live _ _ _ _ _ _ _ Hinv Hi ltac:(simpl; lia)).
Qed.

Lemma wake_context_keeps s p c r w i wc :
  task_inv z s p c r w → few_panics s → threads s !! i = Some (RPolling wc) →
  keeps p c (wake_context i wc s).
Proof.
  intros Hinv Hfew Hi. open_inv Hinv Hfew Hi.
  pose proof (inv_live _ _ _ _ _ _ _ Hinv Hi ltac:(simpl; lia)) as Ha.
  destruct Hok as (Hp & Hfu & n & -> & Hn & Hseen).
  unfold keeps, wake_context, access. rewrite Ha. unfold wake. rewrite Hword, test_wake by done.
  rewrite (upd_counts _ _ _ _ r (w + 1)%Z) by (unfold fits in *; change WAKE_INC with (2^33)%Z; lia).
  replace (w =? 0)%Z with false by lia. rewrite andb_false_r.
  destruct (Z.leb_spec (2 ^ 30) w);
    (eexists _, p, c, r, (w + 1)%Z; step_to;
     eapply (inv_step _ _ _ _ _ i _ (RPolling (2 ^ 33 * n)) []); [done|done|..]; side);
    rewrite ?app_nil_r; try done; split_and!; try done; exists n; simpl; lia.
Qed.

(** ** The promise *)

Lemma promise_poll_keeps s p c r w i :
  task_inv z s p c r w → few_panics s → threads s !! i = Some (HIdle Promise) →
  keeps p c (promise_poll i s).
Proof.
  intros Hinv Hfew Hi. open_inv Hinv Hfew Hi.
  pose proof (inv_live _ _ _ _ _ _ _ Hinv Hi ltac:(simpl; lia)) as Ha.
  pose proof (inv_holder _ _ _ _ _ _ _ Hinv Hi eq_refl) as Hr1.
  assert (cnt is_taking (threads s) = 0) as Htak0.
  { destruct (decide (cnt is_taking (threads s) = 0)) as [|Hne]; [done|].
    destruct (cnt_pos is_taking (threads s)) as (j & pcj & Hj & Hpj); [lia|].
    assert (i ≠ j) as Hij by (intros ->; simplify_eq/=; lia).
    pose proof (cnt_lookup_two is_promise _ _ _ _ _ Hi Hj Hij).
    destruct pcj; simpl in *; lia. }
  unfold keeps, promise_poll, access. rewrite Ha, Hword, test_completed, test_closed by done.
  destruct (negb p && negb c) eqn:Hdone.
  - apply andb_true_iff in Hdone as [->%negb_true_iff ->%negb_true_iff].
    rewrite upd_close by done. eexists _, false, true, r, w. step_to.
    destruct (idle_owner _ _ _ _ _ Hinv Hr1 eq_refl) as [Ho|(_ & ? & _)]; [|done].
    destruct (Hrest Ho Ha) as [Hout _].
    eapply (inv_step _ _ _ _ _ i _ HTakeOutput []); [done|done|..]; side.
    + by rewrite app_nil_r.
    + destruct Hst as (n & m & Hs & Hm). exists n, m. split; [done|].
      destruct Hm as [|[]]; [by left|done].
  - assert (∀ st, (st = Cancelled ∧ c = true) ∨ (st = Pending ∧ c = false) →
      task_inv z (log_stage st s) p c r w) as Hlog.
    { intros st Hcase. eapply (inv_step _ _ _ _ _ i _ (HIdle Promise) []); [done|done|..]; side.
      - by rewrite app_nil_r, list_insert_id.
      - right; right. split; side.
      - intros Ho _ _. destruct (Hrest Ho Ha) as [Hat _]. split; [done|lia].
      - destruct Hst as (n & m & Hs & Hm). destruct Hcase as [[-> ->]|[-> ->]].
        + exists n, (S m). simpl. split; [|right; split; [done|lia]]. rewrite Hs.
          unfold stages_shape. by rewrite <-!app_assoc, <-replicate_S_end.
        + destruct Htk as [Htk|]; [|done]. destruct Hm as [->|[]]; [|done].
          exists (S n), 0. simpl. split; [|by left]. rewrite Hs. unfold stages_shape.
          rewrite Htk. simpl. by rewrite !app_nil_r, <-replicate_S_end. }
    destruct c; [eexists _, p, true, r, w|eexists _, p, false, r, w];
      (step_to; apply Hlog; by auto).
Qed.

Lemma take_output_keeps s p c r w i :
  task_inv z s p c r w → few_panics s → threads s !! i = Some HTakeOutput →
  keeps p c (then_to i (HIdle Promise) (take_output s)).
Proof.
  intros Hinv Hfew Hi. open_inv Hinv Hfew Hi.
  pose proof (inv_live _ _ _ _ _ _ _ Hinv Hi ltac:(simpl; lia)) as Ha.
  pose proof (inv_holder _ _ _ _ _ _ _ Hinv Hi eq_refl) as Hr1.
  destruct Hok as (-> & -> & v & Hcore).
  unfold keeps, then_to, take_output, access. rewrite Ha, Hcore. simpl mem_bind.
  eexists _, false, true, r, w. step_to.
  unfold values_ok in Hval. rewrite Hcore in *. destruct Hval as (Hout & Htk0 & Hd0).
  eapply (inv_step _ _ _ _ _ i _ (HIdle Promise) []); [done|done|..]; side.
  - by rewrite app_nil_r.
  - intros _ _ _. split; [done|lia].
  - unfold values_ok. simpl. rewrite Hout, Htk0, Hd0. done.
  - destruct Hst as (n & m & Hs & Hm). destruct Hm as [->|[_ Hm]]; [|simpl in *; lia].
    exists n, 0. simpl. split; [|by left]. rewrite Hs, Htk0. unfold stages_shape. simpl.
    by rewrite app_nil_r.
Qed.

(** ** The cancellation token *)

Lemma token_cancel_keeps s p c r w i :
  task_inv z s p c r w → few_panics s → threads s !! i = Some (HIdle CancelToken) →
  keeps p c (token_cancel i s).
Proof.
  intros Hinv Hfew Hi. open_inv Hinv Hfew Hi.
  pose proof (inv_live _ _ _ _ _ _ _ Hinv Hi ltac:(simpl; lia)) as Ha.
  pose proof (inv_holder _ _ _ _ _ _ _ Hinv Hi eq_refl) as Hr1.
  unfold keeps, token_cancel, access. rewrite Ha, Hword, upd_cancel by done.
  rewrite test_runnable, test_polling_0, test_refs_1, test_closed_0 by done.
  destruct p; simpl.
  - destruct (c || negb (w =? 0)%Z) eqn:Hrun.
    + eexists _, true, true, (r - 1)%Z, w. step_to.
      eapply (inv_step _ _ _ _ _ i _ Gone []); [done|done|..]; side.
      * by rewrite app_nil_r.
      * right; right. split; side. right. split; [done|]. unfold fits in *; lia.
      * intros Ho _ _. destruct (Hrest Ho Ha) as [Hat _].
        destruct c; [done|]. destruct Hat as [-> _]. done.
    + apply orb_false_iff in Hrun as [-> Hw0%negb_false_iff]. apply Z.eqb_eq in Hw0 as ->.
      destruct (idle_owner _ _ _ _ _ Hinv Hr1 eq_refl) as [Ho|(? & _)]; [|done].
      destruct (Hrest Ho Ha) as [(_ & Hfu & _) _].
      eexists _, false, true, r, 0%Z. step_to.
      eapply (inv_step _ _ _ _ _ i _ HCancelDropFuture []); [done|done|..]; side.
      * by rewrite app_nil_r.
  - eexists _, false, c, (r - 1)%Z, w. step_to.
    eapply release_keeps; [done|done|done|done|done|done| |done|done|by left].
    simpl. by rewrite andb_true_r.
Qed.

Lemma cancel_drop_keeps s p c r w i :
  task_inv z s p c r w → few_panics s → threads s !! i = Some HCancelDropFuture →
  keeps p c (then_to i HCancelRelease (drop_future s)).
Proof.
  intros Hinv Hfew Hi. open_inv Hinv Hfew Hi.
  pose proof (inv_live _ _ _ _ _ _ _ Hinv Hi ltac:(simpl; lia)) as Ha.
  pose proof (inv_holder _ _ _ _ _ _ _ Hinv Hi eq_refl) as Hr1.
  destruct Hok as (-> & -> & Hcore & Hout).
  unfold keeps, then_to, drop_future, access. rewrite Ha, Hcore. simpl mem_bind.
  eexists _, false, true, r, w. step_to.
  unfold values_ok in Hval. rewrite Hcore in *. destruct Hval as (Htk0 & Hd0).
  eapply (inv_step _ _ _ _ _ i _ HCancelRelease []); [done|done|..]; side.
  - by rewrite app_nil_r.
  - intros _ _ _. split; [done|lia].
  - unfold values_ok. simpl. rewrite Hout, Htk0, Hd0. split; [done|simpl; lia].
Qed.

Lemma token_release_keeps s p c r w i :
  task_inv z s p c r w → few_panics s → threads s !! i = Some HCancelRelease →
  keeps p c (token_release i s).
Proof.
  intros Hinv Hfew Hi. open_inv Hinv Hfew Hi.
  pose proof (inv_live _ _ _ _ _ _ _ Hinv Hi ltac:(simpl; lia)) as Ha.
  pose proof (inv_holder _ _ _ _ _ _ _ Hinv Hi eq_refl) as Hr1.
  destruct Hok as (-> & ->). unfold keeps, token_release, access. rewrite Ha, Hword.
  rewrite upd_release, test_refs_1 by done.
  eexists _, false, true, (r - 1)%Z, w. step_to.
  eapply release_keeps; [done|done|done|done|done|done| |done|done|by left].
  simpl. by rewrite andb_true_r.
Qed.

(** ** Freeing the task *)

(** The thread that frees the task drops the future or the output first. *)
Lemma free_drop_future_keeps s p c r w i pc pc' :
  task_inv z s p c r w → few_panics s → threads s !! i = Some pc →
  (pc = HDropFuture ∧ pc' = HDealloc) ∨ (pc = RDropFuture ∧ pc' = RDealloc) →
  keeps p c (then_to i pc' (drop_future s)).
Proof.
  intros Hinv Hfew Hi Hcase. open_inv Hinv Hfew Hi.
  assert (holds pc = 0 ∧ owns pc = 1 ∧ holds pc' = 0 ∧ owns pc' = 1 ∧ is_promise pc' = 0 ∧
    is_taking pc = 0 ∧ is_taking pc' = 0 ∧ pc_ok z p c r w s pc = (r = 0%Z ∧ has_future s))
    as (H1 & H2 & H3 & H4 & H5 & H6 & H7 & H8) by (by destruct Hcase as [[-> ->]|[-> ->]]).
  pose proof (inv_live _ _ _ _ _ _ _ Hinv Hi ltac:(lia)) as Ha.
  rewrite H8 in Hok. destruct Hok as (Hr0 & Hcore & Hout).
  unfold keeps, then_to, drop_future, access. rewrite Ha, Hcore. simpl mem_bind.
  eexists _, p, c, r, w. step_to.
  unfold values_ok in Hval. rewrite Hcore in *. destruct Hval as (Htk0 & Hd0).
  eapply (inv_step _ _ _ _ _ i _ pc' []); [done|done|..]; rewrite ?H2, ?H3, ?H4, ?H5; side.
  - by rewrite app_nil_r.
  - by destruct Hcase as [[-> ->]|[-> ->]].
  - unfold values_ok. simpl. rewrite Hout, Htk0, Hd0. split; [done|simpl; lia].
Qed.

Lemma free_drop_output_keeps s p c r w i :
  task_inv z s p c r w → few_panics s → threads s !! i = Some HDropOutput →
  keeps p c (then_to i HDealloc (drop_output s)).
Proof.
  intros Hinv Hfew Hi. open_inv Hinv Hfew Hi.
  pose proof (inv_live _ _ _ _ _ _ _ Hinv Hi ltac:(simpl; lia)) as Ha.
  destruct Hok as (Hr0 & v & Hcore).
  unfold keeps, then_to, drop_output, access. rewrite Ha, Hcore. simpl mem_bind.
  eexists _, p, c, r, w. step_to.
  unfold values_ok in Hval. rewrite Hcore in *. destruct Hval as (Hout & Htk0 & Hd0).
  eapply (inv_step _ _ _ _ _ i _ HDealloc []); [done|done|..]; side.
  - by rewrite app_nil_r.
  - unfold values_ok. simpl. rewrite Hout, Htk0, Hd0. split; [done|simpl; lia].
Qed.

Lemma dealloc_keeps s p c r w i pc :
  task_inv z s p c r w → few_panics s → threads s !! i = Some pc →
  pc = HDealloc ∨ pc = RDealloc → keeps p c (then_to i Gone (dealloc s)).
Proof.
  intros Hinv Hfew Hi Hcase. open_inv Hinv Hfew Hi.
  assert (holds pc = 0 ∧ owns pc = 1 ∧ is_taking pc = 0 ∧
    pc_ok z p c r w s pc = (r = 0%Z ∧ core s = CoreEmpty))
    as (H1 & H2 & H3 & H4) by (by destruct Hcase as [->| ->]).
  pose proof (inv_live _ _ _ _ _ _ _ Hinv Hi ltac:(lia)) as Ha.
  rewrite H4 in Hok. destruct Hok as (Hr0 & Hcore).
  unfold keeps, then_to, dealloc, access. rewrite Ha. simpl mem_bind.
  eexists _, p, c, r, w. step_to.
  eapply (inv_step _ _ _ _ _ i _ Gone []); [done|done|..]; rewrite ?H2; side.
  - by rewrite app_nil_r.
  - intros _. split_and!; try done. lia.
Qed.
End Steps.
