(* ===== verification/TaskRun.v ===== *)
(** * The runnable keeps the invariant of its task

    The steps of executor/task/runnable.rs, then every step of every thread,
    and reachability from a spawn. *)

From stdpp Require Import base option list numbers relations.
From Stdlib Require Import ZArith Lia.
From S2P Require Import Prelude Bits Counting Task TaskWord TaskInv TaskSteps.

(** Opens the invariant at the program counter of the runnable, which owns the
    core of a live task. *)
Ltac open_run Hinv Hfew Hi :=
  pose proof (inv_fits _ _ _ _ _ _ Hinv Hfew) as Hfit;
  pose proof (inv_pcs _ _ _ _ _ _ Hinv _ _ Hi) as Hok;
  pose proof (cnt_lookup owns _ _ _ Hi) as Hcown;
  pose proof (inv_live _ _ _ _ _ _ _ _ Hinv Hi ltac:(simpl; lia)) as Ha;
  pose proof Hinv as [Hword Hr Hw Hrefs Hleak Hown Hprom Hpcs Hrest Hfreed Hfut Hval Hst Htk];
  unfold few_panics in Hfew; simpl in Hcown.

Ltac side :=
  simpl; try done; try lia; try (by auto); try (by rewrite app_nil_r); try congruence;
  try (eapply stages_same; [eassumption|done|done|done|simpl; lia]).

(** A step of a thread that owns the core and starts no thread. *)
Ltac own_step i pc :=
  eapply (inv_step _ _ _ _ _ _ i _ pc []); [eassumption|eassumption|..]; side.

Section Run.
Context {T : Type} (z : bool).
Implicit Types s : Task T.
Implicit Types pc : Pc T.
Notation keeps := (keeps z).

Lemma start_keeps s p c r w i pc :
  task_inv z s p c r w → few_panics s → threads s !! i = Some RScheduled →
  pc = RLoad ∨ pc = RCancelDropFuture → keeps p c (Safe (to i pc s)).
Proof.
  intros Hinv Hfew Hi Hpc. open_run Hinv Hfew Hi.
  assert (holds pc = 0 ∧ owns pc = 1 ∧ is_promise pc = 0 ∧ is_taking pc = 0)
    as (H1 & H2 & H3 & H4) by (by destruct Hpc as [->| ->]).
  eexists _, p, c, r, w. step_to. own_step i pc.
  destruct Hpc as [->| ->]; [done|]. destruct Hok as (? & ? & ? & _). split_and!; auto.
Qed.

Lemma run_load_keeps s p c r w i k m :
  task_inv z s p c r w → few_panics s → threads s !! i = Some RLoad →
  run_load i k s = Some m → keeps p c m.
Proof.
  intros Hinv Hfew Hi. open_run Hinv Hfew Hi.
  destruct Hok as (-> & Hw1 & Hfu & Hread & Hseen & _). unfold run_load. rewrite Ha.
  destruct (hist s !! k) as [[zk n]|] eqn:Hk; [|done]. intros [= <-].
  eapply Forall_lookup_1 in Hread as (c1 & r1 & w1 & He & Hf1 & Hle & Hc1 & Hn); [|done].
  simpl in *. subst zk. rewrite test_polling by done. unfold run_loop.
  rewrite test_closed, enc_WAKE by done.
  destruct c1; (eexists _, true, c, r, w; step_to).
  - own_step i (@RCancelDropFuture T).
  - own_step i (@RPolling T (2 ^ 33 * w1)). split_and!; [done|done|]. exists w1. simpl.
    split_and!; [done|lia|lia|lia].
Qed.

Lemma run_poll_keeps s p c r w i wc res :
  task_inv z s p c r w → few_panics s → threads s !! i = Some (RPolling wc) →
  keeps p c (run_poll i wc res s).
Proof.
  intros Hinv Hfew Hi. open_run Hinv Hfew Hi. pose proof Hok as Hok'.
  destruct Hok as (-> & [Hcore Hout] & n & -> & Hn & Hseen).
  unfold run_poll, access. rewrite Ha, Hcore. unfold values_ok in Hval.
  rewrite Hcore in Hval, Hfut.
  destruct res as [v| |]; (eexists _, true, c, r, w; step_to).
  - own_step i (RReadyDropFuture v).
    + split_and!; [done|right; lia|done|by rewrite Hout].
    + by rewrite Hcore.
    + unfold values_ok. simpl. by rewrite Hcore.
  - own_step i (@RPending T (2 ^ 33 * n)).
    + by rewrite Hcore.
    + unfold values_ok. simpl. by rewrite Hcore.
  - own_step i (@RCancelDropFuture T).
    + split_and!; [done|right; lia|done].
    + by rewrite Hcore.
    + unfold values_ok. simpl. by rewrite Hcore.
Qed.

Lemma run_publish_keeps s p c r w i v unwinds :
  task_inv z s p c r w → few_panics s → threads s !! i = Some (RReadyDropFuture v) →
  keeps p c (run_publish i v unwinds s).
Proof.
  intros Hinv Hfew Hi. open_run Hinv Hfew Hi. destruct Hok as (-> & Hcw & Hcore & Hout).
  unfold values_ok in Hval. rewrite Hcore in Hval, Hfut. destruct Hval as [Htk0 Hd0].
  unfold run_publish, drop_future, access. rewrite Ha, Hcore. simpl mem_bind.
  destruct unwinds; (eexists _, true, c, r, w; step_to).
  - own_step i (@RClose T). unfold values_ok. simpl. rewrite Hout, Htk0, Hd0. simpl.
    split; [done|lia].
  - own_step i (@RReadyUpdate T). split_and!; [done|done|]. by exists v.
Qed.

Lemma run_complete_keeps s p c r w i :
  task_inv z s p c r w → few_panics s → threads s !! i = Some RReadyUpdate →
  keeps p c (run_complete i s).
Proof.
  intros Hinv Hfew Hi. open_run Hinv Hfew Hi. destruct Hok as (-> & Hcw & Hout).
  unfold run_complete, access. rewrite Ha, Hword, test_closed, test_refs_0 by done.
  destruct (c || (r =? 0)%Z) eqn:Hlast.
  - eexists _, true, c, r, w. step_to. own_step i (@RReadyDropOutput T).
    split_and!; [done|done|done|]. apply orb_true_iff in Hlast as [?|?%Z.eqb_eq]; auto.
  - apply orb_false_iff in Hlast as [-> Hr0%Z.eqb_neq]. rewrite upd_unpoll by done.
    eexists _, false, false, r, w. step_to. own_step i (@Gone T).
    intros _ _ _. split; [done|lia].
Qed.

Lemma run_drop_output_keeps s p c r w i unwinds :
  task_inv z s p c r w → few_panics s → threads s !! i = Some RReadyDropOutput →
  keeps p c (run_drop_output i unwinds s).
Proof.
  intros Hinv Hfew Hi. open_run Hinv Hfew Hi.
  destruct Hok as (-> & Hcw & [v Hcore] & Hcr). unfold values_ok in Hval.
  rewrite Hcore in Hval, Hfut. destruct Hval as (Hout & Htk0 & Hd0).
  unfold run_drop_output, drop_output, access. rewrite Ha, Hcore. simpl mem_bind.
  assert (values_ok (drop_value v (set_core CoreEmpty s))) as Hval'.
  { unfold values_ok. simpl. rewrite Hout, Htk0, Hd0. simpl. split; [done|lia]. }
  destruct unwinds; (eexists _, true, c, r, w; step_to).
  - own_step i (@RClose T).
  - own_step i (@RReadyClear T).
Qed.

(** The end of a closed runnable: the last one frees the task. *)
Lemma close_keeps s c r w i pc c' :
  task_inv z s true c r w → few_panics s → threads s !! i = Some pc →
  holds pc = 0 → owns pc = 1 → is_taking pc = 0 → core s = CoreEmpty →
  (c = true → c' = true) → (c' = true ∨ r = 0%Z) →
  keeps true c (Safe (to i (if (r =? 0)%Z then RDealloc else Gone) (store (enc false c' r w) s))).
Proof.
  intros Hinv Hfew Hi Hh Ho Htak Hcore Hc Hcr.
  pose proof (cnt_lookup owns _ _ _ Hi) as Hcown.
  pose proof Hinv as [Hword Hr Hw Hrefs Hleak Hown Hprom Hpcs Hrest Hfreed Hfut Hval Hst Htk].
  pose proof (inv_live _ _ _ _ _ _ _ _ Hinv Hi ltac:(lia)) as Ha.
  assert (taken s = [] ∨ c' = true) by (destruct Htk; auto).
  destruct (Z.eqb_spec r 0) as [Hr0|Hr0];
    (eexists _, false, c', r, w; step_to).
  - own_step i (@RDealloc T).
  - own_step i (@Gone T).
    intros _ _ _. split; [|lia]. destruct Hcr as [-> |]; [done|lia].
Qed.

Lemma run_clear_keeps s p c r w i :
  task_inv z s p c r w → few_panics s → threads s !! i = Some RReadyClear →
  keeps p c (run_clear i s).
Proof.
  intros Hinv Hfew Hi. open_run Hinv Hfew Hi. destruct Hok as (-> & Hcw & Hcore & Hcr).
  unfold run_clear, access. rewrite Ha, Hword, test_refs_0, upd_unpoll by done.
  by eapply close_keeps.
Qed.

Lemma run_close_keeps s p c r w i :
  task_inv z s p c r w → few_panics s → threads s !! i = Some RClose →
  keeps p c (run_close i s).
Proof.
  intros Hinv Hfew Hi. open_run Hinv Hfew Hi. destruct Hok as (-> & Hcw & Hcore).
  unfold run_close, access. rewrite Ha, Hword, test_refs_0, upd_close, upd_unpoll by done.
  eapply close_keeps; try done. by left.
Qed.

Lemma run_cancel_keeps s p c r w i :
  task_inv z s p c r w → few_panics s → threads s !! i = Some RCancelDropFuture →
  keeps p c (then_to i RClose (drop_future s)).
Proof.
  intros Hinv Hfew Hi. open_run Hinv Hfew Hi. destruct Hok as (-> & Hcw & Hcore & Hout).
  unfold values_ok in Hval. rewrite Hcore in Hval, Hfut. destruct Hval as [Htk0 Hd0].
  unfold then_to, drop_future, access. rewrite Ha, Hcore. simpl mem_bind.
  eexists _, true, c, r, w; step_to. own_step i (@RClose T).
  unfold values_ok. simpl. rewrite Hout, Htk0, Hd0. simpl. split; [done|lia].
Qed.

Lemma run_pending_keeps s p c r w i wc :
  task_inv z s p c r w → few_panics s → threads s !! i = Some (RPending wc) →
  keeps p c (run_pending i wc s).
Proof.
  intros Hinv Hfew Hi. open_run Hinv Hfew Hi.
  destruct Hok as (-> & [Hcore Hout] & n & -> & Hn & Hseen).
  unfold run_pending, access. rewrite Ha, Hword.
  assert (fits r (w - n)) as Hfit' by (unfold fits in *; lia).
  assert (2 ^ 33 * n < enc true c r w)%Z as Hlt by (unfold enc, fits in *; destruct c; simpl Z.b2z; lia).
  rewrite (proj2 (Z.ltb_lt _ _) Hlt). unfold run_loop.
  replace (enc true c r w - 2 ^ 33 * n)%Z with (enc true c r w + 2 ^ 33 * (w - n - w))%Z by lia.
  rewrite (upd_counts _ _ _ _ r (w - n)%Z), enc_WAKE by (done || lia).
  rewrite (wrap_small (2 ^ 33 * w - 2 ^ 33 * n)) by (unfold fits in *; lia).
  rewrite test_closed_0, test_closed, test_refs_0 by done.
  unfold values_ok in Hval. rewrite Hcore in Hval, Hfut.
  destruct (Z.eqb_spec (2 ^ 33 * w - 2 ^ 33 * n) 0) as [Hz|Hz], c; simpl.
  - eexists _, true, true, r, (w - n)%Z. step_to. own_step i (@RCancelDropFuture T).
    + split_and!; [done|by left|done].
    + by rewrite Hcore.
    + unfold values_ok. simpl. by rewrite Hcore.
  - destruct (Z.eqb_spec r 0) as [Hr0|Hr0];
      (eexists _, true, false, r, (w - n)%Z; step_to).
    + own_step i (@RDropFuture T).
      * by rewrite Hcore.
      * unfold values_ok. simpl. by rewrite Hcore.
    + own_step i (@Gone T).
      * intros _ _ _. split; [|lia]. split_and!; [lia|done|]. simpl. lia.
      * by rewrite Hcore.
      * unfold values_ok. simpl. by rewrite Hcore.
  - eexists _, true, true, r, (w - n)%Z. step_to. own_step i (@RCancelDropFuture T).
    + split_and!; [done|by left|done].
    + by rewrite Hcore.
    + unfold values_ok. simpl. by rewrite Hcore.
  - eexists _, true, false, r, (w - n)%Z. step_to.
    own_step i (@RPolling T (2 ^ 33 * w - 2 ^ 33 * n)).
    + split_and!; [done|done|]. exists (w - n)%Z. simpl. split_and!; lia.
    + by rewrite Hcore.
    + unfold values_ok. simpl. by rewrite Hcore.
Qed.

(** ** Every step *)

Theorem task_step_keeps s p c r w i call m :
  task_inv z s p c r w → few_panics s → task_step z i call s = Some m → keeps p c m.
Proof.
  intros Hinv Hfew. unfold task_step. destruct (threads s !! i) as [pc|] eqn:Hi; [|done].
  destruct pc as [[]|v old|v old| | | | | | | | |wc|wc|v| | | |wc| | | | |], call as
    [| | | | | | |k|res|unw]; simpl; try done; try (intros [= <-]).
  - eapply clone_keeps; eauto.
  - by eapply wake_by_val_keeps.
  - by eapply wake_by_ref_keeps.
  - by eapply drop_ref_keeps.
  - by eapply drop_ref_keeps.
  - by eapply promise_poll_keeps.
  - by eapply drop_ref_keeps.
  - by eapply token_cancel_keeps.
  - by eapply schedule_keeps.
  - by eapply schedule_return_keeps.
  - by eapply take_output_keeps.
  - by eapply cancel_drop_keeps.
  - by eapply token_release_keeps.
  - eapply free_drop_future_keeps; eauto.
  - by eapply free_drop_output_keeps.
  - eapply dealloc_keeps; eauto.
  - eapply start_keeps; eauto.
  - eapply start_keeps; eauto.
  - by eapply run_load_keeps.
  - eapply clone_keeps; eauto.
  - by eapply wake_context_keeps.
  - by eapply run_poll_keeps.
  - by destruct (inv_pcs _ _ _ _ _ _ Hinv _ _ Hi).
  - by eapply run_publish_keeps.
  - by eapply run_complete_keeps.
  - by eapply run_drop_output_keeps.
  - by eapply run_clear_keeps.
  - by eapply run_pending_keeps.
  - by eapply run_cancel_keeps.
  - by eapply run_close_keeps.
  - eapply free_drop_future_keeps; eauto.
  - eapply dealloc_keeps; eauto.
Qed.
End Run.
