(* ===== verification/TaskFacts.v ===== *)
(** * What holds of every reachable task

    Memory safety under every interleaving, the phases of the documentation,
    who frees the task, what the promise reports, and why no wake-up is
    lost. *)

From stdpp Require Import base option list numbers relations.
From Stdlib Require Import ZArith Lia.
From S2P Require Import Prelude Bits Counting Task TaskWord TaskInv TaskSteps TaskRun.

Section Facts.
Context {T : Type} (z : bool).
Implicit Types s : Task T.
Implicit Types pc : Pc T.

(** ** Reachability *)

Definition reachable s : Prop := ∃ s0, spawns s0 ∧ rtc (safe_step z) s0 s.

Lemma spawn_inv : task_inv z (spawn (T := T)) true false 2 1.
Proof.
  assert (Forall (readable false 1 1) [(enc true false 2 1, 1)]) as Hread.
  { apply Forall_singleton. exists false, 2%Z, 1%Z. unfold fits. split_and!; simpl; done || lia. }
  unfold spawn. rewrite spawn_word. split; simpl; try done; try lia.
  - intros [|[|[|i]]] pc Hi; simplify_eq/=; by try done.
  - exists 0, 0. by auto.
  - by left.
Qed.

Lemma spawn_and_forget_inv : task_inv z (spawn_and_forget (T := T)) true false 1 1.
Proof.
  assert (Forall (readable false 1 1) [(enc true false 1 1, 1)]) as Hread.
  { apply Forall_singleton. exists false, 1%Z, 1%Z. unfold fits. split_and!; simpl; done || lia. }
  unfold spawn_and_forget. rewrite spawn_and_forget_word. split; simpl; try done; try lia.
  - intros [|[|i]] pc Hi; simplify_eq/=; by try done.
  - exists 0, 0. by auto.
  - by left.
Qed.

(** Panics of the overflow guards and wake-ups are never forgotten. *)
Lemma step_counts i call s s' :
  task_step z i call s = Some (Safe s') → panics s ≤ panics s' ∧ wakes s ≤ wakes s'.
Proof.
  unfold task_step. destruct (threads s !! i) as [pc|]; [|done].
  destruct pc as [[]|v old|v old| | | | | | | | |wc|wc|v| | | |wc| | | | |], call as
    [| | | | | | |k|res|unw]; simpl; try done;
    unfold clone_waker, wake_by_val, wake_by_ref, drop_waker, promise_drop, token_drop,
      drop_ref, promise_poll, token_cancel, token_release, wake_context, wake, schedule,
      schedule_return, then_to, run_load, run_poll, run_publish, run_complete,
      run_drop_output, run_clear, run_pending, run_close, mem_bind, drop_ref;
    unfold take_output, drop_future, drop_output, dealloc, run_loop, access; intros Hs;
    repeat case_match; simplify_eq/=; lia.
Qed.

Lemma rtc_panics s s' : rtc (safe_step z) s s' → panics s ≤ panics s'.
Proof.
  induction 1 as [|s1 s2 s3 [i call Hs] _ IH]; [lia|]. apply step_counts in Hs. lia.
Qed.

Definition has_inv s : Prop := ∃ p c r w, task_inv z s p c r w.

Lemma rtc_inv s s' : has_inv s → rtc (safe_step z) s s' → few_panics s' → has_inv s'.
Proof.
  intros Hinv Hr Hfew. induction Hr as [|s1 s2 s3 [i call Hs] Hr IH]; [done|].
  apply IH; [|done]. destruct Hinv as (p & c & r & w & Hinv).
  apply rtc_panics in Hr. pose proof (step_counts _ _ _ _ Hs) as [Hle _].
  assert (few_panics s1) as Hfew1 by (unfold few_panics in *; lia).
  destruct (task_step_keeps _ _ _ _ _ _ _ _ _ Hinv Hfew1 Hs)
    as (s' & p' & c' & r' & w' & [= <-] & _ & _ & Hinv'). by exists p', c', r', w'.
Qed.

Lemma reachable_inv s : reachable s → few_panics s → has_inv s.
Proof.
  intros (s0 & Hsp & Hr). intros Hfew. apply (rtc_inv s0 s); [|done|done]. unfold has_inv.
  destruct Hsp; eauto using spawn_inv, spawn_and_forget_inv.
Qed.

(** A sequence of steps, as an executable schedule. *)
Fixpoint exec (l : list (nat * Call T)) s : option (Task T) :=
  match l with
  | [] => Some s
  | (i, call) :: l =>
      match task_step z i call s with
      | Some (Safe s) => exec l s
      | _ => None
      end
  end.

Lemma exec_wakes l s s' : exec l s = Some s' → wakes s ≤ wakes s'.
Proof.
  revert s. induction l as [|[i call] l IH]; intros s; simpl; [by intros [= ->]|].
  destruct (task_step z i call s) as [[s1| |]|] eqn:Hs; [|done..].
  apply step_counts in Hs. intros Hl%IH. lia.
Qed.

Lemma exec_rtc l s s' : exec l s = Some s' → rtc (safe_step z) s s'.
Proof.
  revert s. induction l as [|[i call] l IH]; intros s; simpl; [by intros [= ->]|].
  destruct (task_step z i call s) as [[s1| |]|] eqn:Hs; [|done..].
  intros Hl. eapply rtc_l; [by econstructor|]. by apply IH.
Qed.

(** ** Memory safety *)

(** The next access of the thread is to the core of the task. *)
Definition at_core pc : bool :=
  match pc with
  | HTakeOutput | HCancelDropFuture | HDropFuture | HDropOutput | RPolling _
  | RReadyDropFuture _ | RReadyDropOutput | RCancelDropFuture | RDropFuture => true
  | _ => false
  end.

Definition core_race s : Prop :=
  ∃ i j pc pc', i ≠ j ∧ threads s !! i = Some pc ∧ threads s !! j = Some pc' ∧
    at_core pc = true ∧ at_core pc' = true.

(** C19: memory safety of a task under every interleaving of its wakers, its
    promise, its cancellation token and its runnables, and whatever the loads
    read that may be stale.  No step accesses a freed task, drops, moves or
    polls a future or an output that is not there, frees twice or fails a
    debug assertion, no two threads race for the core, and there is at most
    one runnable.  This holds until the guards against overflow have panicked
    about 2^30 times. *)
Theorem task_memory_safe s :
  reachable s → few_panics s →
  (∀ i call m, task_step z i call s = Some m → ∃ s', m = Safe s') ∧
  ¬ core_race s ∧ cnt runs (threads s) ≤ 1.
Proof.
  intros Hr Hfew. destruct (reachable_inv s Hr Hfew) as (p & c & r & w & Hinv). split_and!.
  - intros i call m Hm.
    destruct (task_step_keeps _ _ _ _ _ _ _ _ _ Hinv Hfew Hm) as (s' & _ & _ & _ & _ & -> & _).
    eauto.
  - intros (i & j & pc & pc' & Hne & Hi & Hj & Hc & Hc').
    pose proof (cnt_lookup_two owns _ _ _ _ _ Hi Hj Hne).
    pose proof (inv_owner _ _ _ _ _ _ Hinv). destruct pc, pc'; simpl in *; done || lia.
  - etrans; [|by eapply inv_owner]. clear. induction (threads s) as [|pc l IH]; simpl; [lia|].
    destruct pc; simpl; lia.
Qed.

(** ** Phases *)

Inductive Phase := PollingIdle | PollingScheduled | Completed | WindDown | ClosedPhase.

(** The table of the documentation, read from the flags and the wake count. *)
Definition phase (state : Z) : Phase :=
  match (Z.land state CLOSED =? 0)%Z, (Z.land state POLLING =? 0)%Z with
  | true, false => if (Z.land state WAKE_MASK =? 0)%Z then PollingIdle else PollingScheduled
  | true, true => Completed
  | false, false => WindDown
  | false, true => ClosedPhase
  end.

(** From the polling phase to any other; from the completed and the wind-down
    phase to the closed phase only. *)
Definition phase_edge (a b : Phase) : Prop :=
  match a with
  | PollingIdle | PollingScheduled => True
  | Completed => b = Completed ∨ b = ClosedPhase
  | WindDown => b = WindDown ∨ b = ClosedPhase
  | ClosedPhase => b = ClosedPhase
  end.

Lemma phase_enc p c r w : fits r w →
  phase (enc p c r w) =
    match c, p with
    | false, true => if (w =? 0)%Z then PollingIdle else PollingScheduled
    | false, false => Completed
    | true, true => WindDown
    | true, false => ClosedPhase
    end.
Proof.
  intros Hf. unfold phase. rewrite test_closed_0, test_polling_0, enc_WAKE by done.
  replace (2 ^ 33 * w =? 0)%Z with (w =? 0)%Z; [by destruct p, c|].
  destruct (Z.eqb_spec w 0), (Z.eqb_spec (2 ^ 33 * w) 0); lia.
Qed.

(** The number of active runnables is what the word says. *)
Lemma inv_runs s p c r w :
  task_inv z s p c r w → allocated s = true → cnt frees (threads s) = 0 →
  cnt runs (threads s) = if p && (c || negb (w =? 0)%Z) then 1 else 0.
Proof.
  intros Hinv Ha Hfr.
  assert (∀ l, cnt runs l ≤ cnt owns (l : list (Pc T))) as Hle.
  { induction l as [|pc l IH]; simpl; [lia|]. destruct pc; simpl; lia. }
  pose proof (inv_owner _ _ _ _ _ _ Hinv) as Ho. specialize (Hle (threads s)).
  destruct (decide (cnt owns (threads s) = 0)) as [H0|Hne].
  - destruct (inv_rest _ _ _ _ _ _ Hinv H0 Ha) as [Hat _]. unfold at_rest in Hat.
    destruct p, c; simpl; try done; try lia. destruct Hat as [-> _]. simpl. lia.
  - destruct (no_runner _ _ _ _ _ _ Hinv Hne) as (i & pc & Hi & Hoi & Hok).
    pose proof (cnt_lookup frees _ _ _ Hi). destruct (runs pc) as [|n] eqn:Hrun.
    + replace (cnt runs (threads s)) with 0.
      { destruct pc; simpl in *; try lia; by destruct Hok as (-> & _). }
      destruct (decide (cnt runs (threads s) = 0)) as [|Hr]; [done|].
      destruct (cnt_pos runs (threads s)) as (j & pcj & Hj & Hpj); [lia|].
      assert (i ≠ j) as Hij by (intros ->; simplify_eq; lia).
      pose proof (cnt_lookup_two owns _ _ _ _ _ Hi Hj Hij). destruct pcj; simpl in *; lia.
    + pose proof (cnt_lookup runs _ _ _ Hi).
      assert (runs pc = 1) as Hr1 by (destruct pc; simpl in *; lia).
      destruct (runs_phase _ _ _ _ _ _ _ Hok Hr1) as [-> [-> |Hw]]; simpl; [lia|].
      replace (w =? 0)%Z with false by lia. rewrite orb_true_r. lia.
Qed.

(** C21: the state word of a live task says what the documentation's table says.
    The reference count is the number of live wakers, promises and tokens
    (plus the references lost to a panicking clone); a runnable exists exactly
    when the word says so, and there is one; the union holds the future in the
    idle polling phase, the output in the completed phase and, once a thread
    that took over has finished, nothing in the closed phase; and the phase
    only moves along the documented transitions. *)
Theorem task_phases s :
  reachable s → few_panics s → allocated s = true → cnt frees (threads s) = 0 →
  Z.land (state s) REF_MASK = (REF_INC * Z.of_nat (cnt holds (threads s) + leaked s))%Z ∧
  cnt runs (threads s) = (if runnable_exists (state s) then 1 else 0) ∧
  match phase (state s) with
  | PollingIdle => core s = CoreFuture ∧ cnt runs (threads s) = 0
  | PollingScheduled | WindDown => cnt runs (threads s) = 1
  | Completed => has_output s ∧ cnt runs (threads s) = 0
  | ClosedPhase => cnt runs (threads s) = 0 ∧
      (core s = CoreEmpty ∨ HTakeOutput ∈ threads s ∨ HCancelDropFuture ∈ threads s)
  end ∧
  (∀ s', safe_step z s s' → few_panics s' → phase_edge (phase (state s)) (phase (state s'))).
Proof.
  intros Hr Hfew Ha Hfr. destruct (reachable_inv s Hr Hfew) as (p & c & r & w & Hinv).
  pose proof (inv_fits _ _ _ _ _ _ Hinv Hfew) as Hfit.
  pose proof (inv_runs _ _ _ _ _ Hinv Ha Hfr) as Hrun.
  pose proof (inv_word _ _ _ _ _ _ Hinv) as Hword.
  pose proof (no_runner _ _ _ _ _ _ Hinv) as Hno.
  rewrite Hword, test_runnable, enc_REF, phase_enc by done.
  split_and!; [by rewrite (inv_refs _ _ _ _ _ _ Hinv)|done| |].
  - assert (∀ Q : Prop, (cnt owns (threads s) = 0 → Q) →
      (∀ i pc, threads s !! i = Some pc → owns pc = 1 → frees pc = 0 → pc_ok z p c r w s pc → Q)
      → Q) as Hcases.
    { intros Q H0 H1. destruct (decide (cnt owns (threads s) = 0)) as [|Hne]; [by auto|].
      destruct (Hno Hne) as (i & pc & Hi & Ho & Hok). pose proof (cnt_lookup frees _ _ _ Hi).
      eapply H1; eauto. lia. }
    assert (cnt owns (threads s) = 0 → at_rest p c w s) as Hat
      by (intros H0; by apply (inv_rest _ _ _ _ _ _ Hinv)).
    destruct c, p; simpl in Hrun |- *; [done| | |].
    + split; [done|]. apply Hcases; [by intros ?%Hat; left|]. intros i pc Hi Ho Hf Hok.
      apply list_elem_of_lookup_2 in Hi.
      pose proof (runs_phase _ _ _ _ _ _ _ Hok) as Hrp.
      destruct pc; simpl in *; try lia; try (by destruct (Hrp eq_refl) as [? _]); by auto.
    + destruct (Z.eqb_spec w 0) as [->|Hw]; [|done]. split; [|done].
      apply Hcases; [by intros (_ & [? _] & _)%Hat|]. intros i pc Hi Ho Hf Hok.
      pose proof (runs_phase _ _ _ _ _ _ _ Hok) as Hrp.
      destruct pc; simpl in *; try lia; try (destruct (Hrp eq_refl) as [_ [|]]; [done|lia]);
        by destruct Hok as [? _].
    + split; [|done]. apply Hcases; [by intros ?%Hat|]. intros i pc Hi Ho Hf Hok.
      pose proof (runs_phase _ _ _ _ _ _ _ Hok) as Hrp.
      destruct pc; simpl in *; try lia; try (by destruct (Hrp eq_refl) as [? _]);
        by destruct Hok as (_ & ? & _).
  - intros s' [i call Hs] Hfew'.
    destruct (task_step_keeps _ _ _ _ _ _ _ _ _ Hinv Hfew Hs)
      as (? & p' & c' & r' & w' & [= <-] & Hp & Hc & Hinv').
    rewrite (inv_word _ _ _ _ _ _ Hinv'), phase_enc by by eapply inv_fits.
    destruct c, p; simpl; [rewrite (Hc eq_refl)|rewrite (Hc eq_refl), (Hp eq_refl)|
      by destruct (w =? 0)%Z|rewrite (Hp eq_refl)]; simpl; [by destruct p'; auto|done|].
    by destruct c'; auto.
Qed.

(** ** The end of a task *)

Lemma all_gone_cnt (f : Pc T → nat) l :
  f Gone = 0 → Forall (λ pc, pc = Gone) l → cnt f l = 0.
Proof. intros Hf. induction 1 as [|pc l -> _ IH]; simpl; lia. Qed.

(** A future that is still there has not produced more than one output. *)
Lemma owner_outputs p c r w s pc :
  pc_ok z p c r w s pc → owns pc = 1 → core s = CoreFuture → length (outputs s) ≤ 1.
Proof.
  destruct pc; simpl; try done; unfold waiting, polling, has_future, has_output;
    intros; destruct_and?; try congruence;
    try (by match goal with Hx : ∃ v, core _ = CoreOutput v |- _ => destruct Hx; congruence end);
    match goal with Hx : outputs _ = _ |- _ => rewrite Hx end; simpl; lia.
Qed.

Lemma inv_outputs s p c r w : task_inv z s p c r w → length (outputs s) ≤ 1.
Proof.
  intros Hinv. pose proof (inv_values _ _ _ _ _ _ Hinv) as Hval. unfold values_ok in Hval.
  destruct (core s) eqn:Hcore; [|destruct Hval as [-> _]; simpl; lia|by destruct Hval].
  destruct (decide (cnt owns (threads s) = 0)) as [Ho|Ho].
  - destruct (allocated s) eqn:Ha.
    + destruct (inv_rest _ _ _ _ _ _ Hinv Ho Ha) as [Hat _].
      unfold at_rest, has_output, has_future in Hat. rewrite Hcore in Hat.
      destruct p, c; [done| |done|by destruct Hat]. destruct Hat as (_ & [_ ->] & _). simpl; lia.
    + by destruct (inv_freed _ _ _ _ _ _ Hinv Ha) as (_ & _ & ?); congruence.
  - destruct (no_runner _ _ _ _ _ _ Hinv Ho) as (i & pc & Hi & Hoi & Hok).
    by eapply owner_outputs.
Qed.

(** C22: a task is freed when its last handle is gone, and its values are
    accounted for.  When all wakers, the promise, the token and every runnable
    have finished (and no overflow guard has panicked), the task has been
    deallocated, its future was dropped exactly once, and an output that was
    produced was moved out by the promise or dropped, exactly once.  At any
    time the future has been dropped at most once, and the promise has
    reported that the task is pending, then at most once the output, then that
    it is cancelled. *)
Theorem task_ends_clean s :
  reachable s → few_panics s →
  (Forall (λ pc, pc = Gone) (threads s) → panics s = 0 →
     allocated s = false ∧ core s = CoreEmpty ∧ future_drops s = 1 ∧
     outputs s = taken s ++ dropped s) ∧
  future_drops s ≤ 1 ∧ length (outputs s) ≤ 1 ∧ length (taken s) ≤ 1 ∧
  taken s ⊆ outputs s ∧
  (∃ n m, stages s = stages_shape (taken s) n m).
Proof.
  intros Hr Hfew. destruct (reachable_inv s Hr Hfew) as (p & c & r & w & Hinv).
  pose proof Hinv as [_ _ _ Hrefs Hleak _ _ Hpcs Hrest Hfreed Hfut Hval (n & m & Hst & _) _].
  split_and!.
  - intros Hgone Hp0.
    pose proof (all_gone_cnt holds _ eq_refl Hgone) as Hh.
    pose proof (all_gone_cnt owns _ eq_refl Hgone) as Ho.
    assert (allocated s = false) as Ha.
    { destruct (allocated s); [|done]. destruct (Hrest Ho eq_refl) as [_ Hpos]. lia. }
    destruct (Hfreed Ha) as (_ & _ & Hcore). unfold values_ok in Hval.
    rewrite Hcore in Hfut, Hval. by split_and!; try apply Hval.
  - rewrite Hfut. case_match; lia.
  - by eapply inv_outputs.
  - unfold values_ok in Hval. destruct (core s); [destruct Hval as [-> _]; simpl; lia| |].
    + destruct Hval as (_ & -> & _). simpl. lia.
    + destruct Hval as [Ho Hl]. rewrite Ho, length_app in Hl. lia.
  - unfold values_ok in Hval. destruct (core s); [destruct Hval as [-> _]; set_solver| |].
    + destruct Hval as (_ & -> & _). set_solver.
    + destruct Hval as [-> Hl]. set_solver.
  - eauto.
Qed.
End Facts.
