(* ===== verification/TaskLive.v ===== *)
(** * No wake-up is lost

    The number of steps that a runnable has left, which its own steps decrease
    and which the other threads cannot increase without waking the task. *)

From stdpp Require Import base option list numbers relations.
From Stdlib Require Import ZArith Lia.
From S2P Require Import Prelude Bits Counting Task TaskWord TaskInv TaskSteps TaskRun TaskFacts.

Section Live.
Context {T : Type} (z : bool).
Implicit Types s : Task T.
Implicit Types pc : Pc T.

(** The threads of runnables that an executor has. *)
Definition is_runner pc : bool :=
  match pc with
  | RScheduled | RLoad | RPolling _ | RPollSchedule _ | RReadyDropFuture _ | RReadyUpdate
  | RReadyDropOutput | RReadyClear | RPending _ | RCancelDropFuture | RClose | RDropFuture
  | RDealloc => true
  | _ => false
  end.

(** A bound on the remaining steps of a runnable; a poll that started before
    the last wake-up is followed by another one. *)
Definition steps_left (word : Z) pc : nat :=
  match pc with
  | RScheduled => 11
  | RLoad => 10
  | RPolling wc => if (wc <? Z.land word WAKE_MASK)%Z then 9 else 7
  | RPending wc => if (wc <? Z.land word WAKE_MASK)%Z then 8 else 6
  | RReadyDropFuture _ => 5
  | RReadyUpdate => 4
  | RReadyDropOutput | RCancelDropFuture => 3
  | RReadyClear | RClose | RDropFuture => 2
  | RDealloc => 1
  | _ => 0
  end.

(** A step other than the cloning of the waker by the future. *)
Definition is_progress (c : Call T) : bool :=
  match c with CallClone => false | _ => true end.

Lemma lookup_to i pc s : i < length (threads s) → threads (to i pc s) !! i = Some pc.
Proof. intros. simpl. by apply list_lookup_insert_eq. Qed.

(** Thread [i] is a runnable with less than [n] steps left, or has finished. *)
Definition moves (i : nat) s (n : nat) : Prop :=
  ∃ pc, threads s !! i = Some pc ∧ (is_runner pc = true ∨ pc = Gone) ∧
    steps_left (state s) pc < n.

(** Closes a goal [moves i s n] after the step has been evaluated. *)
Ltac moves_tac :=
  repeat case_match; simplify_eq;
  (eexists; split; [by apply lookup_to|split; [by auto|]]); simpl; repeat case_match; lia.

Lemma run_pending_left s p c r w i wc s' :
  task_inv z s p c r w → few_panics s → threads s !! i = Some (RPending wc) →
  run_pending i wc s = Safe s' → moves i s' (steps_left (state s) (RPending wc)).
Proof.
  intros Hinv Hfew Hi. pose proof (inv_fits _ _ _ _ _ _ Hinv Hfew) as Hfit.
  pose proof (inv_pcs _ _ _ _ _ _ Hinv _ _ Hi) as (-> & _ & n & -> & Hn & _).
  apply lookup_lt_Some in Hi. unfold run_pending, run_loop, access.
  rewrite (inv_word _ _ _ _ _ _ Hinv).
  assert (fits r (w - n)) as Hfit' by (unfold fits in *; lia).
  assert (wrap64 (enc true c r w - 2 ^ 33 * n) = enc true c r (w - n)) as Hupd
    by (rewrite <-(upd_counts true c r w r (w - n) (- (2 ^ 33 * n))); [by f_equal|done|lia]).
  rewrite Hupd, test_closed, test_closed_0, enc_WAKE by done.
  rewrite (wrap_small (2 ^ 33 * w - 2 ^ 33 * n)) by (unfold fits in *; lia). intros Hs.
  destruct (allocated s); [|done]. destruct (2 ^ 33 * n <? enc true c r w)%Z; [|done].
  destruct (Z.eqb_spec (2 ^ 33 * w - 2 ^ 33 * n) 0) as [Hz|Hz], c; simpl in Hs;
    try (destruct (Z.land _ REF_MASK =? 0)%Z); simplify_eq;
    (eexists; split; [by apply lookup_to|split; [by auto|]]); simpl;
    rewrite ?enc_WAKE by done; repeat case_match; lia.
Qed.

Lemma own_step_left s p c r w i pc call s' :
  task_inv z s p c r w → few_panics s → threads s !! i = Some pc → is_runner pc = true →
  is_progress call = true → task_step z i call s = Some (Safe s') → wakes s' = wakes s →
  moves i s' (steps_left (state s) pc).
Proof.
  intros Hinv Hfew Hi Hrun Hprog. unfold task_step. rewrite Hi.
  assert (i < length (threads s)) as Hlt by by apply lookup_lt_Some in Hi.
  destruct pc as [[]|v old|v old| | | | | | | | |wc|wc|v| | | |wc| | | | |]; try done;
    destruct call as [| | | | | | |k|res|unw]; simpl thread_step; try done; intros Hs Hwk.
  - moves_tac.
  - moves_tac.
  - unfold run_load, run_loop in Hs. moves_tac.
  - unfold wake_context, wake, access in Hs. exfalso.
    repeat case_match; simplify_eq; simpl in Hwk; lia.
  - unfold run_poll, access in Hs. moves_tac.
  - by destruct (inv_pcs _ _ _ _ _ _ Hinv _ _ Hi).
  - unfold run_publish, drop_future, access in Hs. simpl in Hs.
    destruct (allocated s); [|done]. destruct (core s); [|done..]. simpl in Hs. moves_tac.
  - unfold run_complete, access in Hs. moves_tac.
  - unfold run_drop_output, drop_output, access in Hs.
    destruct (allocated s); [|done]. destruct (core s); [done| |done]. simpl in Hs. moves_tac.
  - unfold run_clear, access in Hs. moves_tac.
  - eapply run_pending_left; [done..|]. by simplify_eq.
  - unfold then_to, drop_future, access in Hs.
    destruct (allocated s); [|done]. destruct (core s); [|done..]. simpl in Hs. moves_tac.
  - unfold run_close, access in Hs. moves_tac.
  - unfold then_to, drop_future, access in Hs.
    destruct (allocated s); [|done]. destruct (core s); [|done..]. simpl in Hs. moves_tac.
  - unfold then_to, dealloc, access in Hs. destruct (allocated s); [|done]. simpl in Hs.
    moves_tac.
Qed.

(** A step changes the program counter of its thread and may start threads. *)
Lemma step_threads s j pcj call s' :
  threads s !! j = Some pcj → task_step z j call s = Some (Safe s') →
  ∃ pcj' new, threads s' = <[j:=pcj']> (threads s) ++ new ∧
    (is_progress call = false → pcj' = pcj).
Proof.
  intros Hj. unfold task_step. rewrite Hj.
  assert (∀ new, ∃ pcj' new', threads s ++ new = <[j:=pcj']> (threads s) ++ new' ∧
    (is_progress call = false → pcj' = pcj)) as Hsame
    by (intros new; exists pcj, new; by rewrite list_insert_id).
  assert (∃ pcj' new', threads s = <[j:=pcj']> (threads s) ++ new' ∧
    (is_progress call = false → pcj' = pcj)) as Hnone
    by (exists pcj, []; by rewrite app_nil_r, list_insert_id).
  assert (∀ pc', is_progress call = true →
    ∃ pcj' new', <[j:=pc']> (threads s) = <[j:=pcj']> (threads s) ++ new' ∧
      (is_progress call = false → pcj' = pcj)) as Hto
    by (intros pc' Hp; exists pc', []; rewrite app_nil_r; split; [done|congruence]).
  assert (∀ pc' new, is_progress call = true →
    ∃ pcj' new', <[j:=pc']> (threads s) ++ new = <[j:=pcj']> (threads s) ++ new' ∧
      (is_progress call = false → pcj' = pcj)) as Hnew
    by (intros pc' new Hp; exists pc', new; split; [done|congruence]).
  destruct pcj as [[]|v old|v old| | | | | | | | |wc|wc|v| | | |wc| | | | |], call as
    [| | | | | | |k|res|unw]; simpl; try done;
    unfold clone_waker, wake_by_val, wake_by_ref, drop_waker, promise_drop, token_drop,
      promise_poll, token_cancel, token_release, wake_context, wake, schedule,
      schedule_return, then_to, run_load, run_poll, run_publish, run_complete,
      run_drop_output, run_clear, run_pending, run_close, mem_bind, drop_ref;
    unfold take_output, drop_future, drop_output, dealloc, run_loop, access; intros Hs;
    repeat case_match; simplify_eq/=; by auto.
Qed.

(** A step that does not wake the task leaves the wake count to the runnable. *)
Lemma handle_step_wakes s p c r w j pcj call s' :
  task_inv z s p c r w → few_panics s → threads s !! j = Some pcj →
  owns pcj = 0 ∨ is_progress call = false →
  task_step z j call s = Some (Safe s') → wakes s' = wakes s →
  Z.land (state s') WAKE_MASK = Z.land (state s) WAKE_MASK.
Proof.
  intros Hinv Hfew Hj Hcase. unfold task_step. rewrite Hj.
  pose proof (inv_fits _ _ _ _ _ _ Hinv Hfew) as Hfit.
  pose proof (inv_r _ _ _ _ _ _ Hinv) as Hr. pose proof (inv_word _ _ _ _ _ _ Hinv) as Hword.
  assert (holds pcj = 1 → (1 ≤ r)%Z) as Hr1 by by apply inv_holder with (1 := Hinv) (2 := Hj).
  assert (fits (r + 1) w) as Hfit1 by (unfold fits, few_panics in *; lia).
  assert (holds pcj = 1 → fits (r - 1) w) as Hfit2
    by (intros Hh; specialize (Hr1 Hh); unfold fits in *; lia).
  assert (∀ s1, clone_waker s = Safe s1 →
    Z.land (state s1) WAKE_MASK = Z.land (state s) WAKE_MASK) as Hclone.
  { intros s1. unfold clone_waker, access. rewrite Hword.
    rewrite (upd_counts p c r w (r + 1) w) by (done || change REF_INC with 4%Z; lia).
    intros Hs. repeat case_match; simplify_eq; simpl; by rewrite !enc_WAKE. }
  assert (∀ s1, holds pcj = 1 → drop_ref j s = Safe s1 →
    Z.land (state s1) WAKE_MASK = Z.land (state s) WAKE_MASK) as Hdrop.
  { intros s1 Hh. unfold drop_ref, access. rewrite Hword, upd_release by auto. intros Hs.
    case_match; simplify_eq; simpl. by rewrite !enc_WAKE by auto. }
  destruct pcj as [[]|v old|v old| | | | | | | | |wc|wc|v| | | |wc| | | | |]; simpl in *;
    destruct call as [| | | | | | |k|res|unw]; simpl; try done; try (by destruct Hcase);
    intros Hs Hwk; simplify_eq; try (by apply Hclone); try (by apply Hdrop).
  - unfold wake_by_val in Hs. destruct (negb z); [by apply Hdrop|].
    unfold wake, access in Hs. repeat case_match; simplify_eq; simpl in Hwk; lia.
  - unfold wake_by_ref, wake, access in Hs. repeat case_match; simplify_eq; simpl in Hwk; lia.
  - unfold promise_poll, access in Hs. rewrite Hword, upd_close in Hs by done.
    rewrite Hword. repeat case_match; simplify_eq; simpl; rewrite ?Hword; by rewrite !enc_WAKE.
  - unfold token_cancel, access in Hs. rewrite Hword, upd_cancel in Hs by auto.
    rewrite Hword. case_match; simplify_eq; simpl. repeat case_match;
      by rewrite !enc_WAKE by auto.
  - unfold schedule_return, access in Hs. repeat case_match; by simplify_eq.
  - unfold token_release, access in Hs. rewrite Hword, upd_release in Hs by auto.
    rewrite Hword. case_match; simplify_eq; simpl. by rewrite !enc_WAKE by auto.
Qed.

(** A clone made by the future, or a step of another thread. *)
Lemma other_step_left s p c r w i pc j call s' :
  task_inv z s p c r w → few_panics s → threads s !! i = Some pc → is_runner pc = true →
  (j ≠ i ∨ is_progress call = false) →
  task_step z j call s = Some (Safe s') → wakes s' = wakes s →
  threads s' !! i = Some pc ∧ steps_left (state s') pc = steps_left (state s) pc.
Proof.
  intros Hinv Hfew Hi Hrun Hcase Hs Hwk.
  destruct (threads s !! j) as [pcj|] eqn:Hj; [|by unfold task_step in Hs; rewrite Hj in Hs].
  assert (owns pcj = 0 ∨ is_progress call = false) as Hown.
  { destruct (decide (j = i)) as [->|Hne]; [right; naive_solver|left].
    pose proof (cnt_lookup_two owns _ _ _ _ _ Hj Hi Hne).
    pose proof (inv_owner _ _ _ _ _ _ Hinv). destruct pc; simpl in *; done || lia. }
  pose proof (handle_step_wakes _ _ _ _ _ _ _ _ _ Hinv Hfew Hj Hown Hs Hwk) as Hm.
  destruct (step_threads _ _ _ _ _ Hj Hs) as (pcj' & new & Hth & Hsame). split.
  - rewrite Hth. apply lookup_app_l_Some. destruct (decide (j = i)) as [->|Hne].
    + simplify_eq. rewrite Hsame by naive_solver. by rewrite list_insert_id.
    + by rewrite list_lookup_insert_ne.
  - destruct pc; simpl; by rewrite ?Hm.
Qed.

(** ** Executions without a wake-up *)

Definition own_steps (i : nat) (l : list (nat * Call T)) : nat :=
  cnt (λ x : nat * Call T, if decide (x.1 = i) then if is_progress x.2 then 1 else 0 else 0) l.

Lemma exec_left i l s s' pc p c r w :
  task_inv z s p c r w → threads s !! i = Some pc → is_runner pc = true ∨ pc = Gone →
  exec z l s = Some s' → few_panics s' → wakes s' = wakes s →
  ∃ pc', threads s' !! i = Some pc' ∧ (is_runner pc' = true ∨ pc' = Gone) ∧
    own_steps i l + steps_left (state s') pc' ≤ steps_left (state s) pc.
Proof.
  revert s pc p c r w. induction l as [|[j call] l IH]; intros s pc p c r w Hinv Hi Hrun Hex Hfew Hwk.
  { simpl in Hex. simplify_eq. exists pc. split_and!; [done..|]. unfold own_steps. simpl. lia. }
  simpl in Hex. destruct (task_step z j call s) as [[s1| |]|] eqn:Hs; [|done..].
  pose proof (exec_wakes _ _ _ _ Hex) as Hle. destruct (step_counts _ _ _ _ _ Hs) as [Hp1 Hle1].
  apply exec_rtc in Hex as Hr. pose proof (rtc_panics _ _ _ Hr) as Hp2.
  assert (few_panics s) as Hfew0 by (unfold few_panics in *; lia).
  assert (wakes s1 = wakes s) as Hwk1 by lia.
  destruct (task_step_keeps _ _ _ _ _ _ _ _ _ Hinv Hfew0 Hs)
    as (? & p' & c' & r' & w' & [= <-] & _ & _ & Hinv1).
  assert (∃ pc1, threads s1 !! i = Some pc1 ∧ (is_runner pc1 = true ∨ pc1 = Gone) ∧
    own_steps i [(j, call)] + steps_left (state s1) pc1 ≤ steps_left (state s) pc)
    as (pc1 & Hi1 & Hrun1 & Hstep).
  { unfold own_steps. simpl. destruct Hrun as [Hrun| ->].
    - destruct (decide (j = i ∧ is_progress call = true)) as [[-> Hpr]|Hno].
      + destruct (own_step_left _ _ _ _ _ _ _ _ _ Hinv Hfew0 Hi Hrun Hpr Hs Hwk1)
          as (pc1 & ? & ? & ?). exists pc1. rewrite decide_True, Hpr by done. split_and!; [done..|lia].
      + assert (j ≠ i ∨ is_progress call = false) as Hcase
          by (destruct (is_progress call); [left|by right]; naive_solver).
        destruct (other_step_left _ _ _ _ _ _ _ _ _ _ Hinv Hfew0 Hi Hrun Hcase Hs Hwk1)
          as [? Heq]. exists pc. split_and!; [done|by left|]. rewrite Heq.
        case_decide; [|lia]. destruct (is_progress call); [naive_solver|lia].
    - exists Gone. destruct (threads s !! j) as [pcj|] eqn:Hj;
        [|by unfold task_step in Hs; rewrite Hj in Hs].
      assert (j ≠ i) as Hne
        by (intros ->; unfold task_step in Hs; rewrite Hi in Hs; by destruct call).
      destruct (step_threads _ _ _ _ _ Hj Hs) as (pcj' & new & Hth & _).
      rewrite decide_False by done. split_and!; [|by right|done]. rewrite Hth.
      apply lookup_app_l_Some. by rewrite list_lookup_insert_ne. }
  destruct (IH s1 pc1 p' c' r' w') as (pc' & Hi' & Hrun' & Hl'); [done..|lia|].
  exists pc'. split_and!; [done..|]. unfold own_steps in *. simpl in *. lia.
Qed.

(** A runnable is never blocked. *)
Lemma runner_enabled s i pc p c r w :
  task_inv z s p c r w → threads s !! i = Some pc → is_runner pc = true →
  ∃ call m, is_progress call = true ∧ task_step z i call s = Some m.
Proof.
  intros Hinv Hi Hrun. pose proof (inv_pcs _ _ _ _ _ _ Hinv _ _ Hi) as Hok.
  unfold task_step. rewrite Hi.
  destruct pc; try done;
    try (by exists (CallNext false); eexists; split; [done|reflexivity]).
  - exists CallRun. eexists. split; [done|reflexivity].
  - destruct Hok as (_ & _ & _ & _ & _ & Hne). exists (CallRead 0). simpl. unfold run_load.
    destruct (allocated s); [|by eauto]. destruct (hist s) as [|[z0 n0] h]; [done|]. eauto.
  - exists (CallResult PollPending). eexists. split; [done|reflexivity].
Qed.

Lemma steps_left_bound word pc : steps_left word pc ≤ 11.
Proof. destruct pc; simpl; repeat case_match; lia. Qed.

(** C20: no wake-up is lost.  Whenever a task is idle in its polling phase,
    every call to [wake] so far (and the spawn) has been seen by a poll that
    started after it.  And a runnable always gets there: in every execution in
    which the task is not woken again, whatever the other threads do, the
    runnable takes at most eleven steps (apart from the clones that the future
    makes of its waker), and as long as it has not finished it can take
    another one. *)
Theorem no_wakeup_lost s :
  reachable z s → few_panics s →
  (allocated s = true → cnt frees (threads s) = 0 → phase (state s) = PollingIdle →
     seen s = wakes s) ∧
  (∀ i pc l s', threads s !! i = Some pc → is_runner pc = true →
     exec z l s = Some s' → few_panics s' → wakes s' = wakes s →
     own_steps i l ≤ 11 ∧
     ∃ pc', threads s' !! i = Some pc' ∧
       (pc' = Gone ∨ ∃ call m, is_progress call = true ∧ task_step z i call s' = Some m)).
Proof.
  intros Hr Hfew. destruct (reachable_inv _ _ Hr Hfew) as (p & c & r & w & Hinv). split.
  - intros Ha Hfr. pose proof (inv_fits _ _ _ _ _ _ Hinv Hfew) as Hfit.
    rewrite (inv_word _ _ _ _ _ _ Hinv), phase_enc by done. intros Hph.
    assert (p = true ∧ c = false ∧ w = 0%Z) as (-> & -> & ->).
    { destruct p, c; try done. destruct (Z.eqb_spec w 0); done. }
    destruct (decide (cnt owns (threads s) = 0)) as [Ho|Ho].
    { destruct (inv_rest _ _ _ _ _ _ Hinv Ho Ha) as [(_ & _ & ?) _]. done. }
    destruct (no_runner _ _ _ _ _ _ Hinv Ho) as (i & pc & Hi & Hoi & Hok).
    pose proof (cnt_lookup frees _ _ _ Hi). pose proof (runs_phase _ _ _ _ _ _ _ Hok) as Hrp.
    destruct pc; simpl in *; try lia; try (destruct (Hrp eq_refl) as [_ [|]]; [done|lia]);
      by destruct Hok as [? _].
  - intros i pc l s' Hi Hrun Hex Hfew' Hwk.
    destruct (exec_left i l s s' pc p c r w) as (pc' & Hi' & Hrun' & Hl); try done; [by left|].
    pose proof (steps_left_bound (state s) pc). split; [lia|]. exists pc'. split; [done|].
    destruct Hrun' as [Hrun'|]; [right|by left]. apply exec_rtc in Hex.
    destruct (rtc_inv z s s') as (p' & c' & r' & w' & Hinv'); [by exists p, c, r, w|done..|].
    by eapply runner_enabled.
Qed.
End Live.

(** ** Evaluations *)

(** The runnable polls the future, which keeps a clone of its waker and is
    pending; the clone wakes the task during the poll and the runnable polls
    again; the future is then ready and the promise takes its output. *)
Definition demo_steps : list (nat * Call nat) :=
  [(1, CallRun); (0, CallPoll); (1, CallRead 0); (1, CallClone); (1, CallResult PollPending);
   (3, CallWakeByRef); (1, CallNext false); (1, CallResult (PollReady 7)); (3, CallWake);
   (1, CallNext false); (1, CallNext false); (0, CallPoll); (0, CallNext false);
   (2, CallCancel); (0, CallDrop); (0, CallNext false)].

Definition demo (n : nat) : Task nat := default spawn (exec true (take n demo_steps) spawn).

Lemma demo_reachable n : reachable true (demo n).
Proof.
  exists spawn. split; [constructor|]. unfold demo.
  destruct (exec true (take n demo_steps) spawn) eqn:Hex; simpl; [by eapply exec_rtc|].
  apply rtc_refl.
Qed.

(** The task woken while it was being polled. *)
Lemma task_memory_safe_witness :
  threads (demo 6) = [HIdle Promise; RPending (2 ^ 33); HIdle CancelToken; HIdle Waker] ∧
  cnt runs (threads (demo 6)) ≤ 1.
Proof.
  split; [by vm_compute|]. refine (proj2 (proj2 (task_memory_safe true (demo 6) _ _))).
  - apply demo_reachable.
  - vm_compute; reflexivity.
Defined.

Lemma task_phases_witness :
  phase (state (demo 6)) = PollingScheduled ∧ cnt runs (threads (demo 6)) = 1.
Proof.
  split; [by vm_compute|].
  refine (proj1 (proj2 (task_phases true (demo 6) _ _ _ _))); vm_compute; try done.
  apply (demo_reachable 6).
Defined.

(** The promise saw a pending task, then the output; everything is freed. *)
Lemma task_ends_clean_witness :
  stages (demo 16) = [Pending; Ready 7] ∧ taken (demo 16) = [7] ∧
  allocated (demo 16) = false ∧ future_drops (demo 16) = 1.
Proof.
  destruct (task_ends_clean true (demo 16) (demo_reachable 16)) as [Hend _];
    [vm_compute; reflexivity|].
  split_and!; [by vm_compute|by vm_compute|..]; apply Hend; vm_compute;
    repeat constructor.
Defined.

(** From the first poll, the runnable ends within eleven steps. *)
Lemma no_wakeup_lost_witness :
  wakes (demo 6) = 2 ∧ seen (demo 6) = 1 ∧ seen (demo 7) = 2 ∧
  own_steps 1 [(1, CallNext false); (1, CallResult (PollReady 7)); (1, CallNext false)] ≤ 11.
Proof.
  split_and!; [by vm_compute..|].
  destruct (no_wakeup_lost true (demo 6)) as [_ Hlive];
    [apply demo_reachable|vm_compute; reflexivity|].
  destruct (exec true [(1, CallNext false); (1, CallResult (PollReady 7)); (1, CallNext false)]
              (demo 6)) as [s'|] eqn:Hex; [|vm_compute in Hex; discriminate].
  eapply (Hlive 1 (RPending (2 ^ 33)) _ s'); [reflexivity|reflexivity|exact Hex| |];
    vm_compute in Hex; injection Hex as <-; vm_compute; reflexivity.
Defined.
