(* ===== verification/TaskSet.v ===== *)
(** * The set of woken tasks (util/task_set.rs)

    The sub-tasks of a broadcast are linked in a stack through their indices:
    each task has a [next] field, and one word holds the index of the last
    scheduled task with the number of tasks still to be scheduled before the
    parent is notified.  Wakers push concurrently; the parent takes the whole
    stack and walks it.  As in the other lock-free components, a thread stands
    before its next atomic access; a weak compare-and-exchange may fail for no
    reason, and an index out of bounds panics.

    Ghost state: [due] holds the tasks that were woken and not yet yielded or
    discarded, [yielded] what the iterators returned, [asked] and [pushed] the
    notification that the parent last requested and the tasks scheduled since,
    [fired] how often the countdown reached zero since. *)

From stdpp Require Import base option list numbers gmap.
From Stdlib Require Import ZArith Lia.
From S2P Require Import Prelude Counting.

#[local] Open Scope Z_scope.

Definition u32_max : Z := 2 ^ 32 - 1.
Definition SLEEPING : Z := u32_max.
Definition EMPTY : Z := u32_max - 1.
Definition INDEX_MASK : Z := u32_max.
Definition COUNTDOWN_MASK : Z := u64_max - INDEX_MASK.
Definition COUNTDOWN_ONE : Z := Z.shiftl 1 32.

(** Where the holder of a waker of task [i] stands in [wake_by_ref]. *)
Inductive WakerPc :=
| WIdle (i : nat)
| WChecked (i : nat) (next : Z)
| WCasNext (i : nat) (head : Z)
| WCasHead (i : nat) (head : Z)
| WSwap (i : nat) (head : Z)
| WNotify (i : nat).

(** Where the parent stands: outside, in [take_scheduled], with an iterator,
    or in its drop handler. *)
Inductive ParentPc :=
| PIdle
| PTake (countdown : Z) (discard : bool) (head : Z)
| PIter (next_index : Z)
| PDrop (next_index : Z)
| PDropStore (index : nat) (next_index : Z).

Record TaskSet := mkTaskSet {
  nexts : list Z;
  head : Z;
  task_count : nat;
  wakers : list WakerPc;
  parent : ParentPc;
  due : gset nat;
  yielded : list nat;
  asked : Z;
  pushed : Z;
  fired : nat;
  notified : nat;
}.

Definition set_next (i : nat) (v : Z) (s : TaskSet) : TaskSet :=
  mkTaskSet (<[i:=v]> (nexts s)) (head s) (task_count s) (wakers s) (parent s) (due s)
    (yielded s) (asked s) (pushed s) (fired s) (notified s).
Definition to_waker (k : nat) (pc : WakerPc) (s : TaskSet) : TaskSet :=
  mkTaskSet (nexts s) (head s) (task_count s) (<[k:=pc]> (wakers s)) (parent s) (due s)
    (yielded s) (asked s) (pushed s) (fired s) (notified s).
Definition add_waker (i : nat) (s : TaskSet) : TaskSet :=
  mkTaskSet (nexts s) (head s) (task_count s) (wakers s ++ [WIdle i]) (parent s) (due s)
    (yielded s) (asked s) (pushed s) (fired s) (notified s).
Definition to_parent (pc : ParentPc) (s : TaskSet) : TaskSet :=
  mkTaskSet (nexts s) (head s) (task_count s) (wakers s) pc (due s)
    (yielded s) (asked s) (pushed s) (fired s) (notified s).
Definition set_due (d : gset nat) (s : TaskSet) : TaskSet :=
  mkTaskSet (nexts s) (head s) (task_count s) (wakers s) (parent s) d
    (yielded s) (asked s) (pushed s) (fired s) (notified s).
Definition log_yield (i : nat) (s : TaskSet) : TaskSet :=
  mkTaskSet (nexts s) (head s) (task_count s) (wakers s) (parent s) (due s)
    (yielded s ++ [i]) (asked s) (pushed s) (fired s) (notified s).
Definition count_notify (s : TaskSet) : TaskSet :=
  mkTaskSet (nexts s) (head s) (task_count s) (wakers s) (parent s) (due s)
    (yielded s) (asked s) (pushed s) (fired s) (S (notified s)).
(** The head after a push, and after the parent has taken the stack. *)
Definition push_head (h : Z) (fires : bool) (s : TaskSet) : TaskSet :=
  mkTaskSet (nexts s) h (task_count s) (wakers s) (parent s) (due s)
    (yielded s) (asked s) (pushed s + 1) (if fires then S (fired s) else fired s) (notified s).
Definition reset_head (h asked : Z) (s : TaskSet) : TaskSet :=
  mkTaskSet (nexts s) h (task_count s) (wakers s) (parent s) (due s)
    (yielded s) asked 0 0 (notified s).

(** ** Constructors and the methods of the parent *)

Definition task_set_new : TaskSet :=
  mkTaskSet [] EMPTY 0 [] PIdle ∅ [] 0 0 0 0.

Definition with_len (len : nat) : outcome TaskSet :=
  let! _ := rust_assert ((Z.of_nat len <=? EMPTY) && (Z.of_nat len <=? SLEEPING)) in
  Done (mkTaskSet (replicate len SLEEPING) EMPTY len [] PIdle ∅ [] 0 0 0 0).

(** The vector of tasks is never shrunk. *)
Definition resize (len : nat) (s : TaskSet) : outcome TaskSet :=
  let! _ := rust_assert ((Z.of_nat len <=? EMPTY) && (Z.of_nat len <=? SLEEPING)) in
  Done (mkTaskSet (nexts s ++ replicate (len - length (nexts s)) SLEEPING) (head s) len
    (wakers s) (parent s) (due s) (yielded s) (asked s) (pushed s) (fired s) (notified s)).

Definition has_scheduled (s : TaskSet) : bool := negb (Z.land (head s) INDEX_MASK =? EMPTY).

Definition waker_of (idx : nat) (s : TaskSet) : outcome TaskSet :=
  let! _ := rust_assert (idx <? task_count s)%nat in
  let! _ := unwrap (nexts s !! idx) in
  Done (add_waker idx s).

(** [take_scheduled] up to the first attempt, for its caller or for
    [discard_scheduled]. *)
Definition take_scheduled (notify_count : nat) (discard : bool) (s : TaskSet) :
    outcome TaskSet :=
  let! _ := rust_assert (Z.of_nat notify_count <=? u32_max) in
  Done (to_parent (PTake (Z.of_nat notify_count) discard (head s)) s).

Definition discard_scheduled (s : TaskSet) : outcome TaskSet :=
  if negb (head s =? EMPTY) then take_scheduled 0 true s else Done s.

(** The compare-and-exchange of [take_scheduled]. *)
Definition take_cas (countdown : Z) (discard : bool) (h : Z) (spurious : bool) (s : TaskSet) :
    TaskSet :=
  let empty := Z.land h INDEX_MASK =? EMPTY in
  let new_head := if empty then Z.lor (countdown * COUNTDOWN_ONE) EMPTY else EMPTY in
  if negb spurious && (head s =? h) then
    let s := reset_head new_head (if empty then countdown else 0) s in
    if empty then to_parent PIdle s
    else to_parent (if discard then PDrop (Z.land h INDEX_MASK)
                    else PIter (Z.land h INDEX_MASK)) s
  else to_parent (PTake countdown discard (head s)) s.

(** One turn of the loop of [TaskIterator::next]; [None] ends the iteration,
    which the caller then drops. *)
Definition iter_next (next_index : Z) (s : TaskSet) : outcome TaskSet :=
  if next_index =? EMPTY then Done s
  else
    let index := Z.to_nat next_index in
    let! next := unwrap (nexts s !! index) in
    let s := set_due (due s ∖ {[index]}) (set_next index SLEEPING s) in
    let s := to_parent (PIter next) s in
    Done (if (index <? task_count s)%nat then log_yield index s else s).

(** The drop handler of the iterator: a load, then a store. *)
Definition iter_drop (next_index : Z) (s : TaskSet) : outcome TaskSet :=
  if next_index =? EMPTY then Done (to_parent PIdle s)
  else
    let index := Z.to_nat next_index in
    let! next := unwrap (nexts s !! index) in
    Done (to_parent (PDropStore index next) s).

Definition iter_drop_store (index : nat) (next_index : Z) (s : TaskSet) : outcome TaskSet :=
  let! _ := unwrap (nexts s !! index) in
  Done (to_parent (PDrop next_index) (set_due (due s ∖ {[index]}) (set_next index SLEEPING s))).

(** ** [wake_by_ref] *)

(** The load of [next]. *)
Definition wake_load (k i : nat) (s : TaskSet) : outcome TaskSet :=
  let! next := unwrap (nexts s !! i) in
  Done (to_waker k (WChecked i next) s).

(** The head of the first loop: the load of the head, or the no-op exchange
    which confirms that the task is scheduled. *)
Definition wake_check (k i : nat) (next : Z) (spurious : bool) (s : TaskSet) : outcome TaskSet :=
  if next =? SLEEPING then Done (to_waker k (WCasNext i (head s)) s)
  else
    let! actual := unwrap (nexts s !! i) in
    Done (if negb spurious && (actual =? next)
          then to_waker k (WIdle i) (set_due (due s ∪ {[i]}) s)
          else to_waker k (WChecked i actual) s).

Definition wake_cas_next (k i : nat) (h : Z) (spurious : bool) (s : TaskSet) :
    outcome TaskSet :=
  let! actual := unwrap (nexts s !! i) in
  Done (if negb spurious && (actual =? SLEEPING)
        then to_waker k (WCasHead i h)
               (set_due (due s ∪ {[i]}) (set_next i (Z.land h INDEX_MASK) s))
        else to_waker k (WChecked i actual) s).

(** The countdown and the head after a push. *)
Definition new_countdown (countdown : Z) : Z :=
  wrap64 (countdown - (if countdown =? 0 then 0 else 1) * COUNTDOWN_ONE).

Definition wake_cas_head (k i : nat) (h : Z) (spurious : bool) (s : TaskSet) : TaskSet :=
  let countdown := Z.land h COUNTDOWN_MASK in
  let new_head := Z.lor (new_countdown countdown) (Z.of_nat i) in
  if negb spurious && (head s =? h) then
    let fires := countdown =? COUNTDOWN_ONE in
    to_waker k (if fires then WNotify i else WIdle i) (push_head new_head fires s)
  else to_waker k (WSwap i (head s)) s.

Definition wake_swap (k i : nat) (h : Z) (s : TaskSet) : outcome TaskSet :=
  let! _ := unwrap (nexts s !! i) in
  Done (to_waker k (WCasHead i h) (set_next i (Z.land h INDEX_MASK) s)).

(** ** Steps *)

Inductive ParentCall :=
| CallTake (notify_count : nat)
| CallDiscard
| CallResize (len : nat)
| CallWakerOf (idx : nat)
| CallIterNext
| CallIterDrop
| CallGoOn (spurious : bool).

Definition parent_step (c : ParentCall) (s : TaskSet) : option (outcome TaskSet) :=
  match parent s, c with
  | PIdle, CallTake n => Some (take_scheduled n false s)
  | PIdle, CallDiscard => Some (discard_scheduled s)
  | PIdle, CallResize len => Some (resize len s)
  | (PIdle | PIter _), CallWakerOf idx => Some (waker_of idx s)
  | PTake n d h, CallGoOn spurious => Some (Done (take_cas n d h spurious s))
  | PIter i, CallIterNext => Some (iter_next i s)
  | PIter i, CallIterDrop => Some (Done (to_parent (PDrop i) s))
  | PDrop i, CallGoOn _ => Some (iter_drop i s)
  | PDropStore i n, CallGoOn _ => Some (iter_drop_store i n s)
  | _, _ => None
  end.

Inductive WakerCall := CallWakeByRef | CallCloneWaker | CallOn (spurious : bool).

Definition waker_step (k : nat) (c : WakerCall) (s : TaskSet) : option (outcome TaskSet) :=
  match wakers s !! k with
  | None => None
  | Some pc =>
      match pc, c with
      | WIdle i, CallWakeByRef => Some (wake_load k i s)
      | WIdle i, CallCloneWaker => Some (Done (add_waker i s))
      | WChecked i n, CallOn spurious => Some (wake_check k i n spurious s)
      | WCasNext i h, CallOn spurious => Some (wake_cas_next k i h spurious s)
      | WCasHead i h, CallOn spurious => Some (Done (wake_cas_head k i h spurious s))
      | WSwap i h, CallOn _ => Some (wake_swap k i h s)
      | WNotify i, CallOn _ => Some (Done (to_waker k (WIdle i) (count_notify s)))
      | _, _ => None
      end
  end.

(** A step of the parent or of a waker. *)
Inductive set_step (s : TaskSet) (o : outcome TaskSet) : Prop :=
| set_step_parent c : parent_step c s = Some o → set_step s o
| set_step_waker k c : waker_step k c s = Some o → set_step s o.
