(* ===== verification/TaskSetFacts.v ===== *)
(** * The set of woken tasks: correctness

    The stack and the iterator hold each scheduled task once, no wake-up is
    lost, and the parent is notified in time. *)

From stdpp Require Import base option list numbers gmap relations.
From Stdlib Require Import ZArith Lia.
From S2P Require Import Prelude Bits Counting TaskSet.

#[local] Open Scope Z_scope.

(** ** The head word *)

Definition idx (h : Z) : Z := Z.land h INDEX_MASK.

Section Head.
Context (c i : Z) (Hc : 0 <= c < 2 ^ 32) (Hi : 0 <= i < 2 ^ 32).

Lemma idx_word : idx (c * 2 ^ 32 + i) = i.
Proof.
  unfold idx. change INDEX_MASK with (Z.ones 32). rewrite Z.land_ones by lia.
  symmetry. apply (Z.mod_unique _ _ c); lia.
Qed.

Lemma countdown_word : Z.land (c * 2 ^ 32 + i) COUNTDOWN_MASK = c * 2 ^ 32.
Proof.
  rewrite (land_complement _ INDEX_MASK) by (done || lia).
  fold (idx (c * 2 ^ 32 + i)). rewrite idx_word. lia.
Qed.

Lemma new_countdown_word : new_countdown (c * 2 ^ 32) = Z.max 0 (c - 1) * 2 ^ 32.
Proof.
  unfold new_countdown. change COUNTDOWN_ONE with (2 ^ 32).
  rewrite wrap_small; destruct (Z.eqb_spec (c * 2 ^ 32) 0); lia.
Qed.
End Head.

(** ** Linked lists of task indices *)

Fixpoint chain (nx : list Z) (z : Z) (l : list nat) : Prop :=
  match l with
  | [] => z = EMPTY
  | i :: l => z = Z.of_nat i ∧ ∃ v, nx !! i = Some v ∧ chain nx v l
  end.

(** A task outside the list may change. *)
Lemma chain_set nx z l i v : occ i l = 0%nat → chain nx z l → chain (<[i:=v]> nx) z l.
Proof.
  revert z. induction l as [|j l IH]; intros z; [done|]. rewrite occ_cons.
  case_decide; [simpl; lia|]. intros Ho (-> & u & Hj & Hl). split; [done|]. exists u.
  split; [by rewrite list_lookup_insert_ne|]. by apply IH.
Qed.

Lemma chain_app nx k z l : chain nx z l → chain (nx ++ k) z l.
Proof.
  revert z. induction l as [|j l IH]; intros z; [done|]. intros (-> & u & Hj & Hl).
  split; [done|]. exists u. split; [by apply lookup_app_l_Some|]. by apply IH.
Qed.

Lemma chain_lookup nx z l i : chain nx z l → i ∈ l → is_Some (nx !! i).
Proof.
  revert z. induction l as [|j l IH]; intros z; [by intros _ ?%elem_of_nil|].
  intros (-> & u & Hj & Hl) [->|Hin]%elem_of_cons; [by eauto|by eapply IH].
Qed.

(** The head of a list is [EMPTY] or the index of a task. *)
Lemma chain_cases nx z l : chain nx z l → Z.of_nat (length nx) <= EMPTY →
  (z = EMPTY ∧ l = []) ∨
  (∃ i l', l = i :: l' ∧ z = Z.of_nat i ∧ (i < length nx)%nat ∧ z < EMPTY).
Proof.
  destruct l as [|i l']; intros Hc Hlen; [by left|right].
  destruct Hc as (-> & v & Hv%lookup_lt_Some & _). exists i, l'. split_and!; [done..|lia].
Qed.

Lemma chain_range nx z l : chain nx z l → Z.of_nat (length nx) <= EMPTY →
  0 <= z < 2 ^ 32 ∧ z ≠ SLEEPING.
Proof.
  intros Hc Hlen. unfold EMPTY, SLEEPING, u32_max in *.
  destruct (chain_cases _ _ _ Hc Hlen) as [[-> _]|(i & _ & _ & -> & _ & ?)];
    unfold EMPTY, u32_max in *; lia.
Qed.

(** ** Invariant *)

(** Task [i] has been claimed by a waker that has not linked it yet. *)
Definition flies (i : nat) (pc : WakerPc) : nat :=
  match pc with WCasHead j _ | WSwap j _ => if decide (j = i) then 1 else 0 | _ => 0 end.

Definition rest_index (pc : ParentPc) : Z :=
  match pc with PIter i | PDrop i | PDropStore _ i => i | _ => EMPTY end.
Definition dropping (i : nat) (pc : ParentPc) : nat :=
  match pc with PDropStore j _ => if decide (j = i) then 1 else 0 | _ => 0 end.

Definition waker_ok (nx : list Z) (pc : WakerPc) : Prop :=
  match pc with
  | WIdle i | WChecked i _ | WNotify i => is_Some (nx !! i)
  | WCasNext i h | WSwap i h => is_Some (nx !! i) ∧ idx h ≠ SLEEPING
  | WCasHead i h => nx !! i = Some (idx h) ∧ idx h ≠ SLEEPING
  end.

Record set_inv (s : TaskSet) (l m : list nat) : Prop := {
  inv_len : Z.of_nat (length (nexts s)) <= EMPTY ∧ (task_count s <= length (nexts s))%nat;
  inv_stack : chain (nexts s) (idx (head s)) l;
  inv_rest : chain (nexts s) (rest_index (parent s)) m;
  inv_asked : 0 <= asked s <= u32_max ∧ 0 <= pushed s;
  inv_head : head s = Z.max 0 (asked s - pushed s) * 2 ^ 32 + idx (head s);
  inv_fired : fired s = if (0 <? asked s) && (asked s <=? pushed s) then 1%nat else 0%nat;
  inv_count : ∀ i v, nexts s !! i = Some v →
    (occ i l + occ i m + dropping i (parent s) + cnt (flies i) (wakers s))%nat =
    if (v =? SLEEPING)%Z then 0%nat else 1%nat;
  inv_wakers : ∀ k pc, wakers s !! k = Some pc → waker_ok (nexts s) pc;
  inv_parent : match parent s with
    | PTake n _ _ => 0 <= n <= u32_max
    | PDropStore i _ => is_Some (nexts s !! i)
    | _ => True
    end;
  inv_due : ∀ i, i ∈ due s → ∃ v, nexts s !! i = Some v ∧ v ≠ SLEEPING;
}.

Definition has_inv (s : TaskSet) : Prop := ∃ l m, set_inv s l m.

Lemma set_word s l m : set_inv s l m →
  0 <= Z.max 0 (asked s - pushed s) < 2 ^ 32 ∧ 0 <= idx (head s) < 2 ^ 32 ∧
  idx (head s) ≠ SLEEPING.
Proof.
  intros Hinv. pose proof (inv_asked _ _ _ Hinv) as [? ?].
  pose proof (chain_range _ _ _ (inv_stack _ _ _ Hinv) (proj1 (inv_len _ _ _ Hinv))).
  unfold u32_max in *. lia.
Qed.

(** The other wakers see a task whose [next] field they have not claimed
    change, or their own stay. *)
Lemma waker_ok_set nx i v pc u : nx !! i = Some u →
  flies i pc = 0%nat → waker_ok nx pc → waker_ok (<[i:=v]> nx) pc.
Proof.
  intros Hi. assert (∀ j, is_Some (nx !! j) → is_Some (<[i:=v]> nx !! j)) as Hsome.
  { intros j. rewrite !lookup_lt_is_Some, length_insert. done. }
  destruct pc as [j|j n|j h|j h|j h|j]; simpl; try (by auto); try (by intros _ []; auto).
  case_decide; [done|]. intros _ []. by rewrite list_lookup_insert_ne.
Qed.

Lemma waker_ok_app nx k pc : waker_ok nx pc → waker_ok (nx ++ k) pc.
Proof.
  assert (∀ j, is_Some (nx !! j) → is_Some ((nx ++ k) !! j)) as Hsome.
  { intros j [u Hu]. exists u. by apply lookup_app_l_Some. }
  destruct pc as [j|j n|j h|j h|j h|j]; simpl; try (by auto); try (by intros []; auto).
  intros []. split; [by apply lookup_app_l_Some|done].
Qed.

(** ** The parent *)

(** Opens the invariant. *)
Ltac open_set Hinv :=
  pose proof (set_word _ _ _ Hinv) as (Hcd & Hidx & Hslp);
  pose proof Hinv as [[Hlen Htc] Hstack Hrest [Hask Hpush] Hhead Hfired Hcount Hwk Hpar Hdue].

(** The step returns and keeps the invariant. *)
Definition returns (o : outcome TaskSet) : Prop := ∃ s', o = Done s' ∧ has_inv s'.

Lemma take_scheduled_returns n d s l m :
  set_inv s l m → parent s = PIdle → Z.of_nat n <= u32_max → returns (take_scheduled n d s).
Proof.
  intros Hinv Hp Hn. open_set Hinv. rewrite Hp in *. unfold take_scheduled.
  rewrite (proj2 (Z.leb_le _ _) Hn). simpl. eexists. split; [done|]. exists l, m.
  split; simpl; try done. lia.
Qed.

Lemma resize_returns len s l m :
  set_inv s l m → Z.of_nat len <= EMPTY → returns (resize len s).
Proof.
  intros Hinv Hn. open_set Hinv. unfold resize.
  rewrite (proj2 (Z.leb_le _ _) Hn), (proj2 (Z.leb_le _ SLEEPING))
    by (unfold EMPTY, SLEEPING in *; lia).
  simpl. eexists. split; [done|]. exists l, m.
  split; simpl; try done; try (by apply chain_app).
  - rewrite length_app, length_replicate. lia.
  - intros i v Hi. apply lookup_app_Some in Hi as [Hi|[Hge Hi]]; [by apply Hcount|].
    apply lookup_replicate_1 in Hi as [-> _]. simpl.
    assert (¬ is_Some (nexts s !! i)) as Hno by (rewrite lookup_lt_is_Some; lia).
    assert (occ i l = 0 ∧ occ i m = 0)%nat as [-> ->].
    { split; (destruct (occ i _) eqn:Ho; [done|]); exfalso; apply Hno.
      - apply (chain_lookup _ _ l i Hstack). apply occ_elem. lia.
      - apply (chain_lookup _ _ m i Hrest). apply occ_elem. lia. }
    assert (dropping i (parent s) = 0)%nat as ->.
    { destruct (parent s); simpl; try done. case_decide; [subst|done]. done. }
    destruct (decide (cnt (flies i) (wakers s) = 0)%nat) as [->|Hne]; [done|].
    destruct (cnt_pos (flies i) (wakers s)) as (k & pc & Hk & Hf); [lia|].
    apply Hwk in Hk. exfalso. apply Hno.
    destruct pc; simpl in *; try lia; (case_decide; [subst|lia]); destruct Hk; by eauto.
  - intros k pc Hk. by apply waker_ok_app, Hwk with k.
  - destruct (parent s); try done. destruct Hpar as [u Hu]. exists u.
    by apply lookup_app_l_Some.
  - intros i Hi. destruct (Hdue i Hi) as (v & ? & ?). exists v.
    split; [by apply lookup_app_l_Some|done].
Qed.

Lemma waker_of_returns i s l m :
  set_inv s l m → (i < task_count s)%nat → returns (waker_of i s).
Proof.
  intros Hinv Hi. open_set Hinv. unfold waker_of. rewrite (proj2 (Nat.ltb_lt _ _) Hi). simpl.
  destruct (lookup_lt_is_Some_2 (nexts s) i) as [v Hv]; [lia|]. rewrite Hv. simpl.
  eexists. split; [done|]. exists l, m. split; simpl; try done.
  - intros j u Hj. rewrite cnt_snoc. simpl. rewrite Nat.add_0_r. by apply Hcount.
  - intros k pc [Hk|[_ Hk]]%lookup_app_Some; [by apply Hwk with k|].
    apply list_lookup_singleton_Some in Hk as [_ <-]. by exists v.
Qed.

Lemma take_cas_returns n d h sp s l m :
  set_inv s l m → parent s = PTake n d h → has_inv (take_cas n d h sp s).
Proof.
  intros Hinv Hp. open_set Hinv. rewrite Hp in *. simpl in *. unfold take_cas.
  destruct (negb sp && (head s =? h)) eqn:Hok.
  2: { exists l, m. split; simpl; done. }
  apply andb_true_iff in Hok as [_ <-%Z.eqb_eq]. fold (idx (head s)).
  destruct (chain_cases _ _ _ Hrest Hlen) as [[_ ->]|(? & ? & _ & _ & _ & ?)]; [|lia].
  destruct (chain_cases _ _ _ Hstack Hlen) as [[Hi ->]|(i & l' & -> & Hi & Hlt & HltE)].
  - rewrite Hi, Z.eqb_refl. exists [], []. unfold EMPTY, u32_max in *.
    change COUNTDOWN_ONE with (2 ^ 32). rewrite high_low_lor by lia.
    split; simpl; try done; rewrite ?Z.sub_0_r, ?idx_word by lia; try done; try lia.
    destruct (Z.ltb_spec 0 n), (Z.leb_spec n 0); simpl; done || lia.
  - replace (idx (head s) =? EMPTY) with false by lia. exists [], (i :: l').
    assert (chain (nexts s) (idx (head s)) (i :: l')) as Hm by exact Hstack.
    assert (idx EMPTY = EMPTY) as He by reflexivity.
    destruct d; (split; simpl; rewrite ?He; try done; try lia);
      (intros j v Hj; specialize (Hcount j v Hj); rewrite <-Hcount; unfold occ; simpl; lia).
Qed.

(** One turn of the iterator takes the first task of the rest. *)
Lemma iter_next_spec s l j m :
  set_inv s l (j :: m) → parent s = PIter (Z.of_nat j) →
  ∃ s' v, iter_next (Z.of_nat j) s = Done s' ∧ set_inv s' l m ∧ parent s' = PIter v ∧
    nexts s' = <[j:=SLEEPING]> (nexts s) ∧ due s' = due s ∖ {[j]} ∧
    task_count s' = task_count s ∧ is_Some (nexts s !! j) ∧
    yielded s' = yielded s ++ (if (j <? task_count s)%nat then [j] else []).
Proof.
  intros Hinv Hp. open_set Hinv. rewrite Hp in *. simpl in Hrest. unfold iter_next.
  destruct Hrest as (_ & v & Hv & Hm). pose proof (lookup_lt_Some _ _ _ Hv) as Hlt.
  replace (Z.of_nat j =? EMPTY) with false by lia. rewrite Nat2Z.id, Hv. simpl.
  pose proof (Hcount j v Hv) as Hcj. rewrite occ_cons, decide_True in Hcj by done.
  assert (v ≠ SLEEPING) as Hvs by (intros ->; simpl in Hcj; lia).
  rewrite (proj2 (Z.eqb_neq v SLEEPING)) in Hcj by done.
  assert (set_inv (to_parent (PIter v)
    (set_due (due s ∖ {[j]}) (set_next j SLEEPING s))) l m) as Hinv'.
  { split; simpl; try done.
    - by rewrite length_insert.
    - apply chain_set; [lia|done].
    - apply chain_set; [lia|done].
    - intros k u [(-> & <- & _)|[Hne Hk]]%list_lookup_insert_Some; [simpl; lia|].
      specialize (Hcount k u Hk). rewrite occ_cons, decide_False in Hcount by done.
      simpl in Hcount. lia.
    - intros k pc Hk. eapply waker_ok_set; [done| |by eapply Hwk].
      pose proof (cnt_lookup (flies j) _ _ _ Hk). lia.
    - intros k [Hk Hne]%elem_of_difference. destruct (Hdue k Hk) as (u & Hu & ?).
      exists u. split; [|done]. rewrite list_lookup_insert_ne; [done|]. set_solver. }
  destruct (j <? task_count s)%nat eqn:Hact.
  - exists (log_yield j (to_parent (PIter v) (set_due (due s ∖ {[j]}) (set_next j SLEEPING s)))), v.
    split_and!; try done. destruct Hinv' as [? ? ? ? ? ? ? ? ? ?]. split; assumption.
  - eexists _, v. split_and!; try done. by rewrite app_nil_r.
Qed.

Lemma iter_next_returns i s l m :
  set_inv s l m → parent s = PIter i → returns (iter_next i s).
Proof.
  intros Hinv Hp. pose proof (inv_rest _ _ _ Hinv) as Hrest. rewrite Hp in Hrest.
  destruct m as [|j m]; simpl in Hrest.
  - subst i. unfold iter_next. rewrite Z.eqb_refl. exists s. split; [done|by exists l, []].
  - destruct Hrest as [-> _]. destruct (iter_next_spec _ _ _ _ Hinv Hp) as (s' & v & Hs & Hi & _).
    exists s'. split; [done|by exists l, m].
Qed.

Lemma iter_drop_returns i s l m :
  set_inv s l m → parent s = PDrop i → returns (iter_drop i s).
Proof.
  intros Hinv Hp. open_set Hinv. rewrite Hp in *. simpl in *. unfold iter_drop.
  destruct (chain_cases _ _ _ Hrest Hlen) as [[-> ->]|(j & m' & -> & -> & Hlt & HltE)].
  { rewrite Z.eqb_refl. eexists. split; [done|]. exists l, []. by split. }
  replace (Z.of_nat j =? EMPTY) with false by lia. rewrite Nat2Z.id.
  destruct Hrest as (_ & v & Hv & Hm). rewrite Hv. simpl. eexists. split; [done|].
  exists l, m'. split; simpl; try done; try (by exists v).
  intros k u Hk. specialize (Hcount k u Hk). rewrite occ_cons in Hcount. simpl in Hcount. lia.
Qed.

Lemma iter_drop_store_returns i n s l m :
  set_inv s l m → parent s = PDropStore i n → returns (iter_drop_store i n s).
Proof.
  intros Hinv Hp. open_set Hinv. rewrite Hp in *. simpl in *. unfold iter_drop_store.
  destruct Hpar as [v Hv]. rewrite Hv. simpl. eexists. split; [done|].
  pose proof (Hcount i v Hv) as Hci. rewrite decide_True in Hci by done.
  assert (v ≠ SLEEPING) as Hvs by (intros ->; simpl in Hci; lia).
  rewrite (proj2 (Z.eqb_neq v SLEEPING)) in Hci by done.
  exists l, m. split; simpl; try done.
  - by rewrite length_insert.
  - apply chain_set; [lia|done].
  - apply chain_set; [lia|done].
  - intros k u [(-> & <- & _)|[Hne Hk]]%list_lookup_insert_Some; [simpl; lia|].
    specialize (Hcount k u Hk). rewrite decide_False in Hcount by done. lia.
  - intros k pc Hk. eapply waker_ok_set; [done| |by eapply Hwk].
    pose proof (cnt_lookup (flies i) _ _ _ Hk). lia.
  - intros k [Hk Hne]%elem_of_difference. destruct (Hdue k Hk) as (u & Hu & ?).
    exists u. split; [|done]. rewrite list_lookup_insert_ne; [done|]. set_solver.
Qed.

(** ** The wakers *)

(** A waker moves and nothing is claimed or released. *)
Lemma to_waker_inv k pc pc' s l m d :
  set_inv s l m → wakers s !! k = Some pc → (∀ i, flies i pc' = flies i pc) →
  waker_ok (nexts s) pc' →
  (∀ i, i ∈ d → ∃ v, nexts s !! i = Some v ∧ v ≠ SLEEPING) →
  set_inv (to_waker k pc' (set_due d s)) l m.
Proof.
  intros Hinv Hk Hfl Hok Hd. open_set Hinv. split; simpl; try done.
  - intros i v Hi. specialize (Hcount i v Hi).
    pose proof (cnt_insert (flies i) (wakers s) k pc pc' Hk). rewrite Hfl in *. lia.
  - intros j pcj [(-> & <- & _)|[Hne Hj]]%list_lookup_insert_Some; [done|by apply Hwk with j].
Qed.

Lemma to_waker_inv_same k pc pc' s l m :
  set_inv s l m → wakers s !! k = Some pc → (∀ i, flies i pc' = flies i pc) →
  waker_ok (nexts s) pc' → set_inv (to_waker k pc' s) l m.
Proof.
  intros Hinv Hk Hfl Hok. pose proof (inv_due _ _ _ Hinv).
  replace (to_waker k pc' s) with (to_waker k pc' (set_due (due s) s)) by by destruct s.
  by eapply to_waker_inv.
Qed.

Lemma wake_load_returns k i s l m :
  set_inv s l m → wakers s !! k = Some (WIdle i) → returns (wake_load k i s).
Proof.
  intros Hinv Hk. pose proof (inv_wakers _ _ _ Hinv _ _ Hk) as [v Hv].
  unfold wake_load. rewrite Hv. simpl. eexists. split; [done|]. exists l, m.
  eapply to_waker_inv_same; [done..|by exists v].
Qed.

Lemma wake_check_returns k i n sp s l m :
  set_inv s l m → wakers s !! k = Some (WChecked i n) → returns (wake_check k i n sp s).
Proof.
  intros Hinv Hk. pose proof (inv_wakers _ _ _ Hinv _ _ Hk) as [v Hv].
  pose proof (set_word _ _ _ Hinv) as (_ & _ & Hslp).
  unfold wake_check. destruct (Z.eqb_spec n SLEEPING) as [->|Hn].
  - eexists. split; [done|]. exists l, m. eapply to_waker_inv_same; [done..|].
    split; [by exists v|done].
  - rewrite Hv. simpl. eexists. split; [done|]. exists l, m.
    destruct (negb sp && (v =? n)) eqn:Hok.
    + apply andb_true_iff in Hok as [_ ->%Z.eqb_eq].
      eapply to_waker_inv; [done..|by exists n|].
      intros j [Hj| ->%elem_of_singleton]%elem_of_union; [|by exists n].
      by apply (inv_due _ _ _ Hinv).
    + eapply to_waker_inv_same; [done..|by exists v].
Qed.

(** The waker [k] writes the [next] field of a task that only it has claimed. *)
Lemma waker_claim_inv k pc i h u s l m d :
  set_inv s l m → wakers s !! k = Some pc → nexts s !! i = Some u →
  idx h ≠ SLEEPING → flies i pc = (if (u =? SLEEPING)%Z then 0%nat else 1%nat) →
  (∀ j, j ≠ i → flies j pc = 0%nat) →
  (∀ j, j ∈ d → j = i ∨ ∃ v, nexts s !! j = Some v ∧ v ≠ SLEEPING) →
  set_inv (to_waker k (WCasHead i h) (set_due d (set_next i (idx h) s))) l m.
Proof.
  intros Hinv Hk Hi Hh Hfl Hne Hd. open_set Hinv. pose proof (Hcount i u Hi) as Hci.
  pose proof (cnt_lookup (flies i) _ _ _ Hk) as Hle.
  assert (is_Some (nexts s !! i)) as Hsome by by exists u.
  split; simpl; try done.
  - by rewrite length_insert.
  - apply chain_set; [lia|done].
  - apply chain_set; [lia|done].
  - intros j v Hj. pose proof (cnt_insert (flies j) (wakers s) k pc (WCasHead i h) Hk) as Hc.
    simpl in Hc. apply list_lookup_insert_Some in Hj as [(<- & <- & _)|[Hij Hj]].
    + rewrite decide_True in Hc by done. rewrite (proj2 (Z.eqb_neq _ _) Hh).
      destruct (u =? SLEEPING)%Z; lia.
    + rewrite decide_False, Hne in Hc by done. specialize (Hcount j v Hj). lia.
  - intros j pcj [(-> & <- & _)|[Hkj Hj]]%list_lookup_insert_Some.
    + split; [|done]. apply list_lookup_insert_eq. by apply lookup_lt_is_Some.
    + eapply waker_ok_set; [done| |by eapply Hwk].
      pose proof (cnt_lookup_two (flies i) _ _ _ _ _ Hk Hj Hkj).
      destruct (u =? SLEEPING)%Z; lia.
  - destruct (parent s); try done. by rewrite lookup_lt_is_Some, length_insert, <-lookup_lt_is_Some.
  - intros j Hj. destruct (decide (j = i)) as [->|Hij].
    { exists (idx h). split; [|done]. apply list_lookup_insert_eq. by apply lookup_lt_is_Some. }
    destruct (Hd j Hj) as [|(v & Hv & ?)]; [done|]. exists v.
    by rewrite list_lookup_insert_ne.
Qed.

Lemma wake_cas_next_returns k i h sp s l m :
  set_inv s l m → wakers s !! k = Some (WCasNext i h) → returns (wake_cas_next k i h sp s).
Proof.
  intros Hinv Hk. pose proof (inv_wakers _ _ _ Hinv _ _ Hk) as [[v Hv] Hh].
  unfold wake_cas_next. rewrite Hv. simpl. eexists. split; [done|]. exists l, m.
  destruct (negb sp && (v =? SLEEPING)) eqn:Hok.
  - apply andb_true_iff in Hok as [_ ->%Z.eqb_eq]. eapply waker_claim_inv; [done..|].
    intros j [Hj| ->%elem_of_singleton]%elem_of_union; [right|by left].
    by apply (inv_due _ _ _ Hinv).
  - eapply to_waker_inv_same; [done..|by exists v].
Qed.

Lemma wake_swap_returns k i h s l m :
  set_inv s l m → wakers s !! k = Some (WSwap i h) → returns (wake_swap k i h s).
Proof.
  intros Hinv Hk. pose proof (inv_wakers _ _ _ Hinv _ _ Hk) as [[v Hv] Hh].
  unfold wake_swap. rewrite Hv. simpl. eexists. split; [done|]. exists l, m.
  pose proof (inv_count _ _ _ Hinv i v Hv) as Hci.
  pose proof (cnt_lookup (flies i) _ _ _ Hk) as Hle. simpl in Hle.
  rewrite decide_True in Hle by done.
  replace (set_next i (Z.land h INDEX_MASK) s)
    with (set_due (due s) (set_next i (idx h) s)) by by destruct s.
  eapply waker_claim_inv; [done|done|done|done| | |].
  - simpl. rewrite decide_True by done. destruct (v =? SLEEPING)%Z; [lia|done].
  - intros j Hj. simpl. by rewrite decide_False.
  - intros j Hj. right. by apply (inv_due _ _ _ Hinv).
Qed.

Lemma wake_cas_head_returns k i h sp s l m :
  set_inv s l m → wakers s !! k = Some (WCasHead i h) → has_inv (wake_cas_head k i h sp s).
Proof.
  intros Hinv Hk. open_set Hinv. pose proof (Hwk _ _ Hk) as [Hi Hh].
  unfold wake_cas_head. destruct (negb sp && (head s =? h)) eqn:Hok.
  2: { exists l, m. eapply to_waker_inv_same; [done|done|done|]. split; [by eexists|done]. }
  apply andb_true_iff in Hok as [_ <-%Z.eqb_eq]. exists (i :: l), m.
  pose proof (lookup_lt_Some _ _ _ Hi) as Hlt.
  assert (0 <= Z.of_nat i < 2 ^ 32) as Hir by (unfold EMPTY, u32_max in *; lia).
  set (c := Z.max 0 (asked s - pushed s)) in *.
  assert (Z.land (head s) COUNTDOWN_MASK = c * 2 ^ 32) as Hc
    by (rewrite Hhead at 1; by apply countdown_word).
  rewrite Hc, new_countdown_word by done.
  rewrite high_low_lor by lia. change COUNTDOWN_ONE with (2 ^ 32).
  set (pc' := if c * 2 ^ 32 =? 2 ^ 32 then WNotify i else WIdle i).
  assert (∀ j, flies j pc' = 0%nat) as Hfl by (intros j; unfold pc'; by destruct (_ =? _)).
  assert (Z.max 0 (c - 1) = Z.max 0 (asked s - (pushed s + 1))) as Hc' by lia.
  split; simpl; try done; rewrite ?idx_word by lia; try done; try lia.
  - split; [done|]. by exists (idx (head s)).
  - subst c. rewrite Hfired. unfold u32_max in *.
    destruct (Z.eqb_spec (Z.max 0 (asked s - pushed s) * 2 ^ 32) (2 ^ 32)),
      (Z.ltb_spec 0 (asked s)), (Z.leb_spec (asked s) (pushed s)),
      (Z.leb_spec (asked s) (pushed s + 1)); simpl; done || lia.
  - intros j v Hj. specialize (Hcount j v Hj). rewrite occ_cons.
    pose proof (cnt_insert (flies j) (wakers s) k _ pc' Hk) as Hcn. rewrite Hfl in Hcn.
    simpl in Hcn. lia.
  - intros j pcj [(-> & <- & _)|[Hkj Hj]]%list_lookup_insert_Some; [|by apply Hwk with j].
    unfold pc'. destruct (_ =? _); by eexists.
Qed.

(** ** Every step *)

(** The calls that the documentation allows. *)
Definition legal (s : TaskSet) (c : ParentCall) : Prop :=
  match c with
  | CallTake n => Z.of_nat n <= u32_max
  | CallResize len => Z.of_nat len <= EMPTY
  | CallWakerOf i => (i < task_count s)%nat
  | _ => True
  end.

Lemma parent_step_returns c s o :
  has_inv s → legal s c → parent_step c s = Some o → returns o.
Proof.
  intros (l & m & Hinv) Hl. unfold parent_step.
  destruct (parent s) as [|n d h|i|i|i n] eqn:Hp, c; try done; intros [= <-].
  - by eapply take_scheduled_returns.
  - unfold discard_scheduled. case_match; [|by eexists; split; [done|exists l, m]].
    by eapply take_scheduled_returns.
  - by eapply resize_returns.
  - by eapply waker_of_returns.
  - eexists. split; [done|]. by eapply take_cas_returns.
  - by eapply waker_of_returns.
  - by eapply iter_next_returns.
  - open_set Hinv. rewrite Hp in *. eexists. split; [done|]. exists l, m. by split.
  - by eapply iter_drop_returns.
  - by eapply iter_drop_store_returns.
Qed.

Lemma waker_step_returns k c s o : has_inv s → waker_step k c s = Some o → returns o.
Proof.
  intros (l & m & Hinv). unfold waker_step.
  destruct (wakers s !! k) as [pc|] eqn:Hk; [|done].
  pose proof (inv_wakers _ _ _ Hinv _ _ Hk) as Hok.
  destruct pc as [i|i n|i h|i h|i h|i], c; try done; intros [= <-].
  - by eapply wake_load_returns.
  - eexists. split; [done|]. exists l, m. open_set Hinv. split; simpl; try done.
    + intros j u Hj. rewrite cnt_snoc. simpl. rewrite Nat.add_0_r. by apply Hcount.
    + intros j pc [Hj|[_ Hj]]%lookup_app_Some; [by apply Hwk with j|].
      by apply list_lookup_singleton_Some in Hj as [_ <-].
  - by eapply wake_check_returns.
  - by eapply wake_cas_next_returns.
  - eexists. split; [done|]. by eapply wake_cas_head_returns.
  - by eapply wake_swap_returns.
  - eexists. split; [done|]. exists l, m.
    pose proof (to_waker_inv_same k _ (WIdle i) s l m Hinv Hk ltac:(done) Hok) as Hinv'.
    destruct Hinv' as [? ? ? ? ? ? ? ? ? ?]. by split.
Qed.

(** ** Reachable sets *)

Definition set_trans (s s' : TaskSet) : Prop := set_step s (Done s').

Inductive set_init : TaskSet → Prop :=
| init_new : set_init task_set_new
| init_with_len len s : with_len len = Done s → set_init s.

Definition set_reachable (s : TaskSet) : Prop := ∃ s0, set_init s0 ∧ rtc set_trans s0 s.

Lemma set_init_inv s : set_init s → has_inv s.
Proof.
  intros [|len s' Hs]; exists [], [].
  - by split.
  - unfold with_len in Hs.
    destruct (Z.leb_spec (Z.of_nat len) EMPTY); simpl in Hs; [|done].
    destruct (Z.of_nat len <=? SLEEPING); simpl in Hs; [|done]. injection Hs as <-.
    split; simpl; try done.
    + rewrite length_replicate. lia.
    + by intros i v [-> _]%lookup_replicate_1.
Qed.

(** An illegal call panics, so that it leads to no state. *)
Lemma illegal_panics c s s' : parent_step c s = Some (Done s') → legal s c.
Proof.
  unfold parent_step. destruct (parent s), c as [n| |len|j| | |]; simpl; try done;
    intros [= Hs].
  - unfold take_scheduled in Hs. destruct (Z.leb_spec (Z.of_nat n) u32_max); done.
  - unfold resize in Hs. destruct (Z.leb_spec (Z.of_nat len) EMPTY); done.
  - unfold waker_of in Hs. destruct (Nat.ltb_spec j (task_count s)); done.
  - unfold waker_of in Hs. destruct (Nat.ltb_spec j (task_count s)); done.
Qed.

Lemma set_reachable_inv s : set_reachable s → has_inv s.
Proof.
  intros (s0 & Hi & Hr). apply set_init_inv in Hi. induction Hr as [|s1 s2 s3 Hs _ IH]; [done|].
  apply IH. destruct Hs as [c Hs|k c Hs].
  - destruct (parent_step_returns _ _ _ Hi (illegal_panics _ _ _ Hs) Hs) as (? & [= <-] & ?). done.
  - destruct (waker_step_returns _ _ _ _ Hi Hs) as (? & [= <-] & ?). done.
Qed.

(** C23: the stack of woken tasks is sound under every interleaving of wakers
    with the parent.  No step panics unless the call breaks a documented
    bound; the stack and the rest of the current iteration are two
    well-formed lists without a common or repeated task; a task that was woken
    and not yet yielded or discarded is in one of them, or a waker is about to
    link it, or it is being discarded, so that no wake-up is lost; and after a
    request to be notified after [n] tasks, the countdown fires exactly when
    the [n]-th task is pushed. *)
Theorem task_set_sound s :
  set_reachable s →
  (∀ c o, legal s c → parent_step c s = Some o → o ≠ Panicked) ∧
  (∀ k c o, waker_step k c s = Some o → o ≠ Panicked) ∧
  (∃ l m, chain (nexts s) (Z.land (head s) INDEX_MASK) l ∧
     chain (nexts s) (rest_index (parent s)) m ∧ NoDup (l ++ m) ∧
     ∀ i, i ∈ due s →
       i ∈ l ∨ i ∈ m ∨ dropping i (parent s) = 1%nat ∨
       ∃ k pc, wakers s !! k = Some pc ∧ flies i pc = 1%nat) ∧
  (0 < asked s → fired s = if asked s <=? pushed s then 1%nat else 0%nat).
Proof.
  intros Hr%set_reachable_inv. pose proof Hr as (l & m & Hinv). open_set Hinv. split_and!.
  - intros c o Hl Ho ->. by destruct (parent_step_returns _ _ _ Hr Hl Ho) as (? & ? & _).
  - intros k c o Ho ->. by destruct (waker_step_returns _ _ _ _ Hr Ho) as (? & ? & _).
  - exists l, m. split_and!; [done..| |].
    + apply occ_NoDup. intros i. unfold occ. rewrite sum_list_with_app. fold (occ i l) (occ i m).
      destruct (nexts s !! i) as [v|] eqn:Hi; [specialize (Hcount i v Hi); destruct (v =? SLEEPING); lia|].
      assert (∀ z k, chain (nexts s) z k → occ i k = 0%nat) as Hz;
        [|pose proof (Hz _ _ Hstack); pose proof (Hz _ _ Hrest); lia].
      intros z k Hk. destruct (occ i k) eqn:Ho; [done|exfalso].
      destruct (chain_lookup _ _ _ i Hk) as [? ?]; [apply occ_elem; lia|congruence].
    + intros i Hi. destruct (Hdue i Hi) as (v & Hv & Hne). specialize (Hcount i v Hv).
      rewrite (proj2 (Z.eqb_neq _ _) Hne) in Hcount.
      destruct (decide (0 < occ i l)%nat) as [?%occ_elem|]; [by auto|].
      destruct (decide (0 < occ i m)%nat) as [?%occ_elem|]; [by auto|].
      destruct (decide (dropping i (parent s) = 1)%nat) as [?|]; [by auto|].
      destruct (cnt_pos (flies i) (wakers s)) as (k & pc & Hk & Hf); [lia|].
      pose proof (cnt_lookup (flies i) _ _ _ Hk). right; right; right. exists k, pc.
      split; [done|]. lia.
  - intros Ha. rewrite Hfired. by rewrite (proj2 (Z.ltb_lt _ _) Ha).
Qed.

(** ** Iterating over the scheduled tasks *)

(** The parent calls [next] until the iteration ends, no waker interfering
    with its own accesses. *)
Fixpoint iter_all (fuel : nat) (s : TaskSet) : outcome TaskSet :=
  match parent s with
  | PIter i =>
      if i =? EMPTY then Done s
      else
        match fuel with
        | O => NoFuel
        | S fuel => let! s := iter_next i s in iter_all fuel s
        end
  | _ => Done s
  end.

Lemma iter_all_spec s l m i :
  set_inv s l m → parent s = PIter i →
  ∃ s', iter_all (length m) s = Done s' ∧ parent s' = PIter EMPTY ∧
    yielded s' = yielded s ++ filter (λ j, (j < task_count s)%nat) m ∧
    (∀ j, j ∈ m → nexts s' !! j = Some SLEEPING ∧ j ∉ due s') ∧
    (∀ j, j ∉ m → nexts s' !! j = nexts s !! j ∧ (j ∈ due s' ↔ j ∈ due s)).
Proof.
  revert s i. induction m as [|j m IH]; intros s i Hinv Hp; pose proof (inv_rest _ _ _ Hinv) as Hc;
    rewrite Hp in Hc; simpl in Hc.
  { subst i. exists s. split_and!; try done.
    - simpl. by rewrite Hp.
    - by rewrite app_nil_r.
    - by intros j ?%elem_of_nil. }
  destruct Hc as (-> & _).
  destruct (iter_next_spec _ _ _ _ Hinv Hp) as
    (s1 & v & Hs1 & Hinv1 & Hp1 & Hn1 & Hd1 & Ht1 & Hsome & Hy1).
  destruct (IH s1 v Hinv1 Hp1) as (s' & Hs' & Hp' & Hy' & Hin' & Hout').
  pose proof (proj1 (inv_len _ _ _ Hinv)) as Hlen. apply lookup_lt_is_Some in Hsome.
  assert (NoDup (j :: m)) as [Hj _]%NoDup_cons.
  { apply occ_NoDup. intros k. destruct (nexts s !! k) as [u|] eqn:Hk.
    - pose proof (inv_count _ _ _ Hinv k u Hk). destruct (u =? SLEEPING); lia.
    - destruct (occ k (j :: m)) eqn:Ho; [lia|exfalso].
      destruct (chain_lookup _ _ _ k (inv_rest _ _ _ Hinv)) as [? ?]; [apply occ_elem; lia|].
      congruence. }
  exists s'. split_and!.
  - simpl. rewrite Hp. replace (Z.of_nat j =? EMPTY) with false by lia. by rewrite Hs1.
  - done.
  - rewrite Hy', Hy1, Ht1, <-app_assoc, filter_cons. f_equal.
    destruct (Nat.ltb_spec j (task_count s)); [by rewrite decide_True|].
    rewrite decide_False by lia. done.
  - intros k [->|Hk]%elem_of_cons; [|by apply Hin'].
    destruct (Hout' j Hj) as [-> Hdue]. rewrite Hn1, Hdue, Hd1. split; [|set_solver].
    by apply list_lookup_insert_eq.
  - intros k [Hkj Hk]%not_elem_of_cons. destruct (Hout' k Hk) as [-> Hdue].
    rewrite Hn1, Hdue, Hd1, list_lookup_insert_ne by done. split; [done|]. set_solver.
Qed.

(** [take_scheduled] whose exchange succeeds, and the iteration it returns. *)
Definition take_all (n fuel : nat) (s : TaskSet) : outcome TaskSet :=
  let! s := take_scheduled n false s in
  iter_all fuel (take_cas (Z.of_nat n) false (head s) false s).

(** Taking the scheduled tasks yields each of them once.  When the parent
    takes a stack of tasks and iterates over it, the iteration ends after as
    many turns as there are tasks, yields exactly the active ones among them,
    each once and last scheduled first, puts all of them to sleep so that they
    can be woken again, and leaves the other tasks alone. *)
Lemma task_set_yields_once s n :
  set_reachable s → parent s = PIdle → has_scheduled s = true → Z.of_nat n <= u32_max →
  ∃ l s', chain (nexts s) (Z.land (head s) INDEX_MASK) l ∧ NoDup l ∧ l ≠ [] ∧
    take_all n (length l) s = Done s' ∧
    parent s' = PIter EMPTY ∧
    yielded s' = yielded s ++ filter (λ j, (j < task_count s)%nat) l ∧
    (∀ j, j ∈ l → nexts s' !! j = Some SLEEPING ∧ j ∉ due s') ∧
    (∀ j, j ∉ l → nexts s' !! j = nexts s !! j ∧ (j ∈ due s' ↔ j ∈ due s)).
Proof.
  intros Hr Hp Hsch Hn. apply set_reachable_inv in Hr as (l & m & Hinv). open_set Hinv.
  unfold has_scheduled in Hsch. fold (idx (head s)) in Hsch.
  apply negb_true_iff, Z.eqb_neq in Hsch.
  assert (m = []) as ->.
  { rewrite Hp in Hrest. simpl in Hrest.
    by destruct (chain_cases _ _ _ Hrest Hlen) as [[_ ->]|(? & ? & _ & _ & _ & ?)]; [|lia]. }
  unfold take_all, take_scheduled. rewrite (proj2 (Z.leb_le _ _) Hn). simpl.
  unfold take_cas. simpl. fold (idx (head s)).
  rewrite Z.eqb_refl, (proj2 (Z.eqb_neq _ _) Hsch).
  set (s1 := to_parent (PIter (idx (head s))) _).
  assert (set_inv s1 [] l) as Hinv1.
  { split; simpl; try done. intros j v Hj. specialize (Hcount j v Hj). rewrite <-Hcount, Hp.
    unfold occ. simpl. lia. }
  destruct (iter_all_spec s1 [] l _ Hinv1 eq_refl) as (s' & Hs' & Hp' & Hy' & Hin & Hout).
  exists l, s'. split_and!; try done.
  - apply occ_NoDup. intros k. destruct (nexts s !! k) as [u|] eqn:Hk.
    + specialize (Hcount k u Hk). destruct (u =? SLEEPING); lia.
    + destruct (occ k l) eqn:Ho; [lia|exfalso].
      destruct (chain_lookup _ _ _ k Hstack) as [? ?]; [apply occ_elem; lia|congruence].
  - intros ->. by simpl in Hstack.
Qed.

(** ** Evaluations *)

(** A schedule: [inl] is a step of the parent, [inr] of a waker. *)
Fixpoint run_set (sched : list (ParentCall + nat * WakerCall)) (s : TaskSet) : outcome TaskSet :=
  match sched with
  | [] => Done s
  | x :: sched =>
      match (match x with inl c => parent_step c s | inr (k, c) => waker_step k c s end) with
      | Some o => let! s := o in run_set sched s
      | None => NoFuel
      end
  end.

Lemma run_set_rtc sched s s' : run_set sched s = Done s' → rtc set_trans s s'.
Proof.
  revert s. induction sched as [|x sched IH]; intros s; simpl; [by intros [= ->]|].
  destruct x as [c|[k c]].
  - destruct (parent_step c s) as [[s1| |]|] eqn:Hs; simpl; try done.
    intros Hl. eapply rtc_l; [by eapply set_step_parent|]. by apply IH.
  - destruct (waker_step k c s) as [[s1| |]|] eqn:Hs; simpl; try done.
    intros Hl. eapply rtc_l; [by eapply set_step_waker|]. by apply IH.
Qed.

(** Three sub-tasks; the parent asks to be notified after two; tasks 2 and 0
    are woken, the latter twice, the two pushes contending for the head. *)
Definition demo_sched : list (ParentCall + nat * WakerCall) :=
  [inl (CallResize 3); inl (CallWakerOf 0); inl (CallWakerOf 2); inl (CallTake 2);
   inl (CallGoOn false); inr (0%nat, CallWakeByRef); inr (1%nat, CallWakeByRef);
   inr (0%nat, CallOn false); inr (1%nat, CallOn false); inr (0%nat, CallOn false);
   inr (1%nat, CallOn false); inr (1%nat, CallOn false); inr (0%nat, CallOn false);
   inr (0%nat, CallOn false); inr (0%nat, CallOn false); inr (0%nat, CallOn false);
   inr (0%nat, CallWakeByRef); inr (0%nat, CallOn false)].

Definition demo_set : TaskSet :=
  match run_set demo_sched task_set_new with Done s => s | _ => task_set_new end.

Lemma demo_set_reachable : set_reachable demo_set.
Proof.
  exists task_set_new. split; [constructor|]. unfold demo_set.
  destruct (run_set demo_sched task_set_new) as [s| |] eqn:Hs; [|apply rtc_refl..].
  by apply run_set_rtc in Hs.
Qed.

Lemma task_set_sound_witness :
  asked demo_set = 2 ∧ pushed demo_set = 2 ∧ notified demo_set = 1%nat ∧
  fired demo_set = 1%nat.
Proof.
  split_and!; [by vm_compute..|].
  refine (proj2 (proj2 (proj2 (task_set_sound demo_set demo_set_reachable))) _).
  by vm_compute.
Defined.

Lemma task_set_yields_once_witness :
  ∃ l s', take_all 3 (length l) demo_set = Done s' ∧ parent s' = PIter EMPTY ∧
    yielded s' = filter (λ j, (j < 3)%nat) l.
Proof.
  destruct (task_set_yields_once demo_set 3 demo_set_reachable) as
    (l & s' & _ & _ & _ & Hs & Hp & Hy & _); [by vm_compute..|].
  exists l, s'. split_and!; [done..|]. rewrite Hy. by vm_compute.
Defined.
