(* ===== verification/WeakMemory.v ===== *)
(** * Atomic accesses with memory orderings

    A memory in which a load may read a stale value: each location has the
    list of its stores, each store carries the view of memory that an
    acquiring reader obtains, and each thread has views that bound from below
    what it may still read.  This is the fragment of the C++ memory model that
    sequence locks rely on: relaxed, acquire and release accesses and fences,
    for locations with a single writer, whose stores go to the end of the
    list. *)

From stdpp Require Import base option list numbers.
From Stdlib Require Import ZArith Lia.
From S2P Require Import Prelude.

(** For each location, the index of the oldest store that may be read. *)
Definition view := nat → nat.
Definition view0 : view := λ _, 0.
Definition vjoin (v w : view) : view := λ l, v l `max` w l.
Definition vat (l t : nat) : view := λ k, if decide (k = l) then t else 0.

Record Msg := mkMsg { mval : Z; mview : view }.
Notation memory := (list (list Msg)).

(** [cur] bounds the reads of the thread, [acq] is what an acquire fence
    makes it [cur], [rel] what the last release fence published. *)
Record Thread := mkThread { cur : view; acq : view; rel : view }.
Definition thread0 : Thread := mkThread view0 view0 view0.

Inductive Ordering := Relaxed | Acquire | Release.

(** A load that reads the [t]-th store. *)
Definition load (l : nat) (o : Ordering) (t : nat) (M : memory) (th : Thread) :
    option (Z * Thread) :=
  match M !! l with
  | Some ms =>
      match ms !! t with
      | Some m =>
          if (cur th l <=? t)%nat then
            let c := vjoin (cur th) (vat l t) in
            let a := vjoin (vjoin (acq th) (vat l t)) (mview m) in
            Some (mval m,
                  match o with
                  | Acquire => mkThread (vjoin c (mview m)) a (rel th)
                  | _ => mkThread c a (rel th)
                  end)
          else None
      | None => None
      end
  | None => None
  end.

Definition store (l : nat) (z : Z) (o : Ordering) (M : memory) (th : Thread) :
    option (memory * Thread) :=
  match M !! l with
  | Some ms =>
      let at_t := vat l (length ms) in
      let c := vjoin (cur th) at_t in
      let w := match o with Release => c | _ => vjoin (rel th) at_t end in
      Some (<[l := ms ++ [mkMsg z w]]> M, mkThread c (vjoin (acq th) at_t) (rel th))
  | None => None
  end.

Definition fence (o : Ordering) (th : Thread) : Thread :=
  match o with
  | Acquire => mkThread (vjoin (cur th) (acq th)) (acq th) (rel th)
  | Release => mkThread (cur th) (acq th) (cur th)
  | Relaxed => th
  end.

(** ** What an access tells *)

Lemma vat_eq l t : vat l t l = t.
Proof. unfold vat. by rewrite decide_True. Qed.
Lemma vat_ne l k t : k ≠ l → vat l t k = 0.
Proof. intros. unfold vat. by rewrite decide_False. Qed.

Lemma load_Some l o t M th z th' :
  load l o t M th = Some (z, th') →
  ∃ ms m, M !! l = Some ms ∧ ms !! t = Some m ∧ z = mval m ∧ cur th l ≤ t ∧
    (∀ k, cur th k ≤ cur th' k) ∧ t ≤ cur th' l ∧
    (∀ k, acq th k ≤ acq th' k) ∧ (∀ k, mview m k ≤ acq th' k) ∧
    (o = Acquire → ∀ k, mview m k ≤ cur th' k).
Proof.
  unfold load. destruct (M !! l) as [ms|] eqn:Hl; [|done].
  destruct (ms !! t) as [m|] eqn:Ht; [|done]. destruct (Nat.leb_spec (cur th l) t); [|done].
  intros [= <- <-]. exists ms, m.
  split_and!; try done; try (by intros -> k; simpl; unfold vjoin; lia);
    try (intros k); destruct o; simpl; unfold vjoin; rewrite ?vat_eq; lia.
Qed.

(** The index that a load reads is in the list, so that the newest store is
    the only one left once the thread has seen it. *)
Lemma load_newest l o t M th z th' ms :
  load l o t M th = Some (z, th') → M !! l = Some ms → S (cur th l) = length ms →
  t = cur th l.
Proof.
  intros Hload Hl Hlen. apply load_Some in Hload as (ms' & m & Hl' & Ht & _ & Hle & _).
  simplify_eq. apply lookup_lt_Some in Ht. lia.
Qed.

Lemma store_Some l z o M th M' th' :
  store l z o M th = Some (M', th') →
  ∃ ms m, M !! l = Some ms ∧ M' = <[l := ms ++ [m]]> M ∧ mval m = z ∧
    (∀ k, cur th k ≤ cur th' k) ∧ length ms ≤ cur th' l ∧
    (∀ k, k ≠ l → cur th' k = cur th k) ∧ rel th' = rel th ∧
    (∀ k, rel th k ≤ mview m k ∨ o = Release) ∧ (o = Release → ∀ k, cur th k ≤ mview m k) ∧
    cur th' l = cur th l `max` length ms.
Proof.
  unfold store. destruct (M !! l) as [ms|] eqn:Hl; [|done]. intros [= <- <-].
  eexists ms, _. split_and!; try done.
  - intros k. simpl. unfold vjoin. lia.
  - simpl. unfold vjoin. rewrite vat_eq. lia.
  - intros k Hk. simpl. unfold vjoin. rewrite vat_ne by done. lia.
  - intros k. destruct o; [left|left|by right]; simpl; unfold vjoin; lia.
  - intros -> k. simpl. unfold vjoin. lia.
  - simpl. unfold vjoin. by rewrite vat_eq.
Qed.

(** ** Views point into memory *)

Definition view_in (M : memory) (v : view) : Prop := ∀ l ms, M !! l = Some ms → v l < length ms.
Definition mem_wf (M : memory) : Prop :=
  ∀ l ms t m, M !! l = Some ms → ms !! t = Some m → view_in M (mview m).
Definition thread_wf (M : memory) (th : Thread) : Prop :=
  view_in M (cur th) ∧ view_in M (acq th) ∧ view_in M (rel th).

(** The locations stay and only get more stores. *)
Definition extends (M M' : memory) : Prop :=
  ∀ l ms', M' !! l = Some ms' → ∃ ms, M !! l = Some ms ∧ length ms ≤ length ms'.

Lemma view_in_join M v w : view_in M v → view_in M w → view_in M (vjoin v w).
Proof. intros Hv Hw l ms Hl. unfold vjoin. specialize (Hv l ms Hl). specialize (Hw l ms Hl). lia. Qed.

Lemma view_in_at M l t ms :
  (∀ k ks, M !! k = Some ks → 0 < length ks) → M !! l = Some ms → t < length ms →
  view_in M (vat l t).
Proof.
  intros Hpos Hl Ht k ks Hk. unfold vat. case_decide; [by simplify_eq|by eapply Hpos].
Qed.

Lemma view_in_pos M v : view_in M v → ∀ k ks, M !! k = Some ks → 0 < length ks.
Proof. intros Hv k ks Hk. specialize (Hv k ks Hk). lia. Qed.

Lemma view_in_extends M M' v : extends M M' → view_in M v → view_in M' v.
Proof.
  intros He Hv l ms' Hl. destruct (He l ms' Hl) as (ms & Hms & Hle).
  specialize (Hv l ms Hms). lia.
Qed.

Lemma thread_wf_extends M M' th : extends M M' → thread_wf M th → thread_wf M' th.
Proof. intros He (? & ? & ?). split_and!; by eapply view_in_extends. Qed.

Lemma load_wf l o t M th z th' :
  load l o t M th = Some (z, th') → mem_wf M → thread_wf M th → thread_wf M th'.
Proof.
  unfold load. destruct (M !! l) as [ms|] eqn:Hl; [|done].
  destruct (ms !! t) as [m|] eqn:Ht; [|done]. destruct (_ <=? _)%nat; [|done].
  intros [= _ <-] Hm (Hc & Ha & Hr).
  pose proof (view_in_at M l t ms (view_in_pos _ _ Hc) Hl (lookup_lt_Some _ _ _ Ht)) as Hat.
  pose proof (Hm _ _ _ _ Hl Ht) as Hmv.
  destruct o; split_and!; simpl; auto using view_in_join.
Qed.

(** A load of the newest store is always possible. *)
Lemma load_enabled l o t M th ms :
  thread_wf M th → M !! l = Some ms → S t = length ms → is_Some (load l o t M th).
Proof.
  intros (Hc & _) Hl Ht. unfold load. rewrite Hl.
  destruct (lookup_lt_is_Some_2 ms t) as [m Hm]; [lia|]. rewrite Hm.
  specialize (Hc l ms Hl). rewrite (proj2 (Nat.leb_le _ _)) by lia. by eexists.
Qed.

Lemma store_wf l z o M th M' th' :
  store l z o M th = Some (M', th') → mem_wf M → thread_wf M th →
  extends M M' ∧ mem_wf M' ∧ thread_wf M' th'.
Proof.
  unfold store. destruct (M !! l) as [ms|] eqn:Hl; [|done]. intros [= <- <-] Hm Ht.
  set (M' := <[l:=_]> M).
  assert (extends M M') as He.
  { intros k ks Hk. apply list_lookup_insert_Some in Hk as [(<- & <- & _)|[Hne Hk]].
    - exists ms. rewrite length_app. split; [done|simpl; lia].
    - by exists ks. }
  assert (M' !! l = Some (ms ++ [mkMsg z (match o with Release => vjoin (cur th) (vat l (length ms))
    | _ => vjoin (rel th) (vat l (length ms)) end)])) as Hl'.
  { apply list_lookup_insert_eq. by eapply lookup_lt_Some. }
  pose proof (thread_wf_extends _ _ _ He Ht) as (Hc & Ha & Hr).
  assert (view_in M' (vat l (length ms))) as Hat.
  { eapply view_in_at; [by eapply view_in_pos|exact Hl'|]. rewrite length_app. simpl. lia. }
  split_and!; simpl; auto using view_in_join.
  - intros k ks t m Hk Htm. apply list_lookup_insert_Some in Hk as [(<- & <- & _)|[Hne Hk]].
    + apply lookup_app_Some in Htm as [Htm|[_ Htm]].
      * eapply view_in_extends; [exact He|]. by eapply Hm.
      * apply list_lookup_singleton_Some in Htm as [_ <-]. simpl.
        destruct o; auto using view_in_join.
    + eapply view_in_extends; [exact He|]. by eapply Hm.
  - split_and!; simpl; auto using view_in_join.
Qed.

Lemma fence_wf o M th : thread_wf M th → thread_wf M (fence o th).
Proof. intros (? & ? & ?). destruct o; split_and!; simpl; auto using view_in_join. Qed.

(** A fresh thread may read anything. *)
Lemma thread0_wf M th : thread_wf M th → thread_wf M thread0.
Proof.
  intros (Hc & _). assert (view_in M view0) by (intros l ms Hl; by eapply view_in_pos).
  by split_and!.
Qed.
