(* ===== verification/SyncCell.v ===== *)
(** * The sequence lock (util/sync_cell.rs, time/monotonic_time.rs)

    One writer and any number of readers share a sequence count and the words
    of a value.  The accesses have the memory orderings of the code and run on
    [WeakMemory], so that every load may be stale within what its ordering
    allows.  Location 0 is the sequence count, location [k + 1] the [k]-th word
    of the value.

    Ghost state: [written] lists the initial value and every value that was
    given to [write]; [rseen] the positions in that list of the values that a
    reader has returned. *)

From stdpp Require Import base option list numbers relations.
From Stdlib Require Import ZArith Lia Sorting.Sorted.
From S2P Require Import Prelude Time WeakMemory.

(** A value whose words can be read and written one at a time; a torn load
    must not panic. *)
Class TearableAtomic (V : Type) := {
  nwords : nat;
  tearable_words : V → list Z;
  tearable_build : list Z → outcome V;
}.

Class TearableLaws (V : Type) `{TearableAtomic V} := {
  words_length : ∀ v : V, length (tearable_words v) = nwords;
  build_words : ∀ v : V, tearable_build (tearable_words v) = Done v;
  build_torn : ∀ l, length l = nwords →
    (∀ k x, l !! k = Some x → ∃ v : V, tearable_words v !! k = Some x) →
    ∃ v : V, tearable_build l = Done v;
}.

(** [TearableAtomicTime]. *)
#[export] Instance TearableAtomicTime {T : Type} `{MonotonicTime T} : TearableAtomic T := {|
  nwords := 2;
  tearable_words := λ t, [as_secs t; subsec_nanos t];
  tearable_build := λ l,
    match l with [secs; nanos] => unwrap (mt_new secs nanos) | _ => Panicked end;
|}.

#[export] Instance TearableAtomicTime_laws {T : Type} `{MonotonicTimeLaws T} : TearableLaws T.
Proof.
  split.
  - done.
  - intros t. simpl. by rewrite mt_new_of_parts.
  - intros [|s [|n [|]]] Hlen Hk; try done. simpl.
    destruct (Hk 0 s eq_refl) as [t [= <-]]. destruct (Hk 1 n eq_refl) as [u [= <-]].
    destruct (mt_parts_range t) as [Hs _]. destruct (mt_parts_range u) as [_ [Hn Hlt]].
    destruct (proj2 (mt_new_is_Some (T := T) (as_secs t) (subsec_nanos u) Hs Hn) Hlt)
      as [x Hx]. exists x. by rewrite Hx.
Qed.

Record SyncCellReadError := mkSyncCellReadError {}.

Section SyncCell.
Context {V : Type} `{TearableAtomic V}.

Inductive WriterPc :=
| WIdle
| WStoreOdd (v : V) (seq : Z)
| WFence (v : V) (seq : Z)
| WWords (v : V) (seq : Z) (k : nat)
| WRead (acc : list Z).

Inductive ReaderPc :=
| RIdle
| RWords (seq : Z) (acc : list Z)
| RFence (seq : Z) (value : V)
| RCheck (seq : Z) (value : V).

Record Reader := mkReader {
  rpc : ReaderPc;
  rthread : Thread;
  rlog : list (result V SyncCellReadError);
  rseen : list nat;
}.

Record Cell := mkCell {
  mem : memory;
  wpc : WriterPc;
  wthread : Thread;
  wlog : list V;
  written : list V;
  readers : list Reader;
}.

(** [SyncCell::new]. *)
Definition cell_new (v : V) : Cell :=
  mkCell ([mkMsg 0 view0] :: ((λ z, [mkMsg z view0]) <$> tearable_words v))
    WIdle thread0 [] [v] [].

(** [SyncCell::reader], and the clone of a reader. *)
Definition new_reader : Reader := mkReader RIdle thread0 [] [].
Definition reader (s : Cell) : Cell :=
  mkCell (mem s) (wpc s) (wthread s) (wlog s) (written s) (readers s ++ [new_reader]).

Definition to_writer (pc : WriterPc) (M : memory) (th : Thread) (s : Cell) : Cell :=
  mkCell M pc th (wlog s) (written s) (readers s).
Definition start_write (v : V) (seq : Z) (th : Thread) (s : Cell) : Cell :=
  mkCell (mem s) (WStoreOdd v seq) th (wlog s) (written s ++ [v]) (readers s).
Definition log_writer (v : V) (s : Cell) : Cell :=
  mkCell (mem s) WIdle (wthread s) (wlog s ++ [v]) (written s) (readers s).
Definition set_reader (i : nat) (r : Reader) (s : Cell) : Cell :=
  mkCell (mem s) (wpc s) (wthread s) (wlog s) (written s) (<[i:=r]> (readers s)).

(** ** The writer: [SyncCell::write] and [SyncCell::read] *)

(** A call, or the next access with the store that a load reads. *)
Inductive WriterCall := CallWrite (v : V) (t : nat) | CallRead | CallAccess (t : nat).

Definition writer_step (c : WriterCall) (s : Cell) : option (outcome Cell) :=
  match wpc s, c with
  | WIdle, CallWrite v t =>
      '(seq, th) ← load 0 Relaxed t (mem s) (wthread s);
      Some (Done (start_write v seq th s))
  | WIdle, CallRead => Some (Done (to_writer (WRead []) (mem s) (wthread s) s))
  | WStoreOdd v seq, CallAccess _ =>
      '(M, th) ← store 0 (wrap64 (seq + 1)) Relaxed (mem s) (wthread s);
      Some (Done (to_writer (WFence v seq) M th s))
  | WFence v seq, CallAccess _ =>
      Some (Done (to_writer (WWords v seq 0) (mem s) (fence Release (wthread s)) s))
  | WWords v seq k, CallAccess _ =>
      match tearable_words v !! k with
      | Some x =>
          '(M, th) ← store (S k) x Relaxed (mem s) (wthread s);
          Some (Done (to_writer (WWords v seq (S k)) M th s))
      | None =>
          '(M, th) ← store 0 (wrap64 (seq + 2)) Release (mem s) (wthread s);
          Some (Done (to_writer WIdle M th s))
      end
  | WRead acc, CallAccess t =>
      if (length acc <? nwords)%nat then
        '(x, th) ← load (S (length acc)) Relaxed t (mem s) (wthread s);
        Some (Done (to_writer (WRead (acc ++ [x])) (mem s) th s))
      else Some (let! v := tearable_build acc in Done (log_writer v s))
  | _, _ => None
  end.

(** ** A reader: [SyncCellReader::try_read]; [read] repeats it *)

Definition finish (i : nat) (r : Reader) (th : Thread) (res : result V SyncCellReadError)
    (seen : list nat) (s : Cell) : Cell :=
  set_reader i (mkReader RIdle th (rlog r ++ [res]) (rseen r ++ seen)) s.

(** The store that each load reads is chosen by [t]. *)
Definition reader_step (i t : nat) (s : Cell) : option (outcome Cell) :=
  r ← readers s !! i;
  match rpc r with
  | RIdle =>
      '(seq, th) ← load 0 Acquire t (mem s) (rthread r);
      Some (Done (if negb (Z.land seq 1 =? 0)%Z
                  then finish i r th (Err mkSyncCellReadError) [] s
                  else set_reader i (mkReader (RWords seq []) th (rlog r) (rseen r)) s))
  | RWords seq acc =>
      if (length acc <? nwords)%nat then
        '(x, th) ← load (S (length acc)) Relaxed t (mem s) (rthread r);
        Some (Done (set_reader i (mkReader (RWords seq (acc ++ [x])) th (rlog r) (rseen r)) s))
      else
        Some (let! v := tearable_build acc in
              Done (set_reader i (mkReader (RFence seq v) (rthread r) (rlog r) (rseen r)) s))
  | RFence seq v =>
      Some (Done (set_reader i
        (mkReader (RCheck seq v) (fence Acquire (rthread r)) (rlog r) (rseen r)) s))
  | RCheck seq v =>
      '(new_seq, th) ← load 0 Relaxed t (mem s) (rthread r);
      Some (Done (if (new_seq =? seq)%Z then finish i r th (Ok v) [Z.to_nat (seq / 2)] s
                  else finish i r th (Err mkSyncCellReadError) [] s))
  end.

Inductive cell_step (s : Cell) (o : outcome Cell) : Prop :=
| cell_step_writer c : writer_step c s = Some o → cell_step s o
| cell_step_reader i t : reader_step i t s = Some o → cell_step s o
| cell_step_new : o = Done (reader s) → cell_step s o.
End SyncCell.

Arguments WriterPc : clear implicits.
Arguments ReaderPc : clear implicits.
Arguments Reader : clear implicits.
Arguments Cell : clear implicits.
Arguments WriterCall : clear implicits.
