(* ===== verification/SyncCellFacts.v ===== *)
(** * The sequence lock: correctness

    A read that succeeds returns a value that was written as a whole, and the
    reads of one reader never go back in time, although loads may be stale. *)

From stdpp Require Import base option list numbers relations.
From Stdlib Require Import ZArith Lia Sorting.Sorted.
From S2P Require Import Prelude Bits Time WeakMemory SyncCell.

Section Facts.
Context {V : Type} `{TearableLaws V}.
Implicit Types s : Cell V.

(** ** Invariant *)

(** The [a]-th value that was written has [x] as its [k]-th word. *)
Definition word_at (h : list V) (a k : nat) (x : Z) : Prop :=
  ∃ v, h !! a = Some v ∧ tearable_words v !! k = Some x.

(** The words that a reader has loaded since it read the count [2 n]. *)
Definition loaded (h : list V) (n : nat) (acc : list Z) (vw : view) : Prop :=
  ∀ k x, acc !! k = Some x → ∃ a, n ≤ a ∧ word_at h a k x ∧ 2 * a ≤ S (vw 0).

Definition oks (l : list (result V SyncCellReadError)) : list V :=
  omap (λ r, match r with Ok v => Some v | Err _ => None end) l.

Definition rpc_ok (h : list V) (pc : ReaderPc V) (th : Thread) : Prop :=
  match pc with
  | RIdle => True
  | RWords seq acc => ∃ n, seq = Z.of_nat (2 * n) ∧ 2 * n ≤ cur th 0 ∧
      (∀ k, k < nwords → n ≤ cur th (S k)) ∧ length acc ≤ nwords ∧ loaded h n acc (acq th)
  | RFence seq v => ∃ n acc, seq = Z.of_nat (2 * n) ∧ 2 * n ≤ cur th 0 ∧
      length acc = nwords ∧ tearable_build acc = Done v ∧ loaded h n acc (acq th)
  | RCheck seq v => ∃ n acc, seq = Z.of_nat (2 * n) ∧ 2 * n ≤ cur th 0 ∧
      length acc = nwords ∧ tearable_build acc = Done v ∧ loaded h n acc (cur th)
  end.

Record reader_ok (h : list V) (r : Reader V) : Prop := {
  rok_seen : Forall2 (λ v n, h !! n = Some v) (oks (rlog r)) (rseen r);
  rok_sorted : Sorted le (rseen r);
  rok_old : Forall (λ n, 2 * n ≤ cur (rthread r) 0) (rseen r);
  rok_pc : rpc_ok h (rpc r) (rthread r);
}.

(** The number of stores to the sequence count and to the [k]-th word, when
    [n] is the position of the last value given to [write]. *)
Definition seq_len (pc : WriterPc V) (n : nat) : nat :=
  match pc with
  | WIdle | WRead _ => 2 * n + 1
  | WStoreOdd _ _ => 2 * n - 1
  | WFence _ _ | WWords _ _ _ => 2 * n
  end.
Definition word_len (pc : WriterPc V) (n k : nat) : nat :=
  match pc with
  | WIdle | WRead _ => S n
  | WStoreOdd _ _ | WFence _ _ => n
  | WWords _ _ j => if (k <? j)%nat then S n else n
  end.

Definition wpc_ok (h : list V) (n : nat) (pc : WriterPc V) (th : Thread) : Prop :=
  match pc with
  | WIdle => True
  | WStoreOdd v seq | WFence v seq => 1 ≤ n ∧ h !! n = Some v ∧ seq = Z.of_nat (2 * (n - 1))
  | WWords v seq j => 1 ≤ n ∧ h !! n = Some v ∧ seq = Z.of_nat (2 * (n - 1)) ∧
      j ≤ nwords ∧ 2 * n - 1 ≤ rel th 0
  | WRead acc => ∃ v, h !! n = Some v ∧ acc = take (length acc) (tearable_words v)
  end.

Record cell_inv s (n : nat) : Prop := {
  ci_locs : length (mem s) = S nwords;
  ci_last : length (written s) = S n;
  ci_seq : ∀ t m, (mem s !!! 0) !! t = Some m → mval m = Z.of_nat t ∧
    ∀ j, t = 2 * j → ∀ k, k < nwords → j ≤ mview m (S k);
  ci_words : ∀ k, k < nwords → ∀ a m, (mem s !!! S k) !! a = Some m →
    word_at (written s) a k (mval m) ∧ 2 * a ≤ S (mview m 0);
  ci_seq_len : length (mem s !!! 0) = seq_len (wpc s) n;
  ci_word_len : ∀ k, k < nwords → length (mem s !!! S k) = word_len (wpc s) n k;
  ci_seq_cur : S (cur (wthread s) 0) = seq_len (wpc s) n;
  ci_word_cur : ∀ k, k < nwords → S (cur (wthread s) (S k)) = word_len (wpc s) n k;
  ci_wpc : wpc_ok (written s) n (wpc s) (wthread s);
  ci_wlog : Forall (λ v, v ∈ written s) (wlog s);
  ci_readers : ∀ i r, readers s !! i = Some r → reader_ok (written s) r;
}.

(** The sequence count has not wrapped. *)
Definition few_writes s : Prop := (Z.of_nat (2 * length (written s)) < 2 ^ 64)%Z.

(** ** Readers *)

Lemma word_at_app h h' a k x : word_at h a k x → word_at (h ++ h') a k x.
Proof. intros (v & Ha & Hx). exists v. split; [by apply lookup_app_l_Some|done]. Qed.

Lemma loaded_mono h h' n acc vw vw' :
  loaded h n acc vw → vw 0 ≤ vw' 0 → loaded (h ++ h') n acc vw'.
Proof.
  intros Hl Hv k x Hk. destruct (Hl k x Hk) as (a & ? & ? & ?). exists a.
  split_and!; [done|by apply word_at_app|lia].
Qed.

Lemma reader_ok_app h h' r : reader_ok h r → reader_ok (h ++ h') r.
Proof.
  intros [Hs Hso Ho Hp]. split; [|done|done|].
  - eapply Forall2_impl; [exact Hs|]. intros v n. apply lookup_app_l_Some.
  - destruct (rpc r); simpl in *; [done|..].
    + destruct Hp as (n & ? & ? & ? & ? & ?). exists n. split_and!; try done.
      by eapply loaded_mono.
    + destruct Hp as (n & acc & ? & ? & ? & ? & ?). exists n, acc. split_and!; try done.
      by eapply loaded_mono.
    + destruct Hp as (n & acc & ? & ? & ? & ? & ?). exists n, acc. split_and!; try done.
      by eapply loaded_mono.
Qed.

Lemma locs_lookup s n l ms : cell_inv s n → mem s !! l = Some ms →
  ms = mem s !!! l ∧ (l = 0 ∨ ∃ k, k < nwords ∧ l = S k).
Proof.
  intros Hinv Hl. pose proof (ci_locs _ _ Hinv). apply lookup_lt_Some in Hl as Hlt. split.
  - symmetry. by apply list_lookup_total_correct.
  - destruct l as [|k]; [by left|right]. exists k. split; [lia|done].
Qed.

Lemma oks_app l l' : oks (l ++ l') = oks l ++ oks l'.
Proof. unfold oks. apply omap_app. Qed.

Lemma Sorted_snoc_le l n : Sorted le l → Forall (λ m, m ≤ n) l → Sorted le (l ++ [n]).
Proof.
  induction 1 as [|m l Hs IH Hr]; intros Hf; [repeat constructor|]. simpl.
  apply Forall_cons_1 in Hf as [Hm Hf]. constructor; [by apply IH|].
  destruct l; simpl; [by repeat constructor|]. inversion Hr. by constructor.
Qed.

(** What a reader knows once its check has succeeded. *)
Lemma checked s n seq v th acc m :
  cell_inv s n → seq = Z.of_nat (2 * m) → length acc = nwords →
  tearable_build acc = Done v → loaded (written s) m acc (cur th) →
  cur th 0 ≤ 2 * m → 2 * m < length (mem s !!! 0) → written s !! m = Some v.
Proof.
  intros Hinv -> Hlen Hb Hl Hc Hm. rewrite (ci_seq_len _ _ Hinv) in Hm.
  pose proof (ci_last _ _ Hinv) as Hw.
  assert (m ≤ n) as Hmn by (destruct (wpc s); simpl in Hm; lia).
  destruct (lookup_lt_is_Some_2 (written s) m) as [u Hu]; [lia|].
  assert (acc = tearable_words u) as ->; [|rewrite build_words in Hb; by injection Hb as <-].
  apply list_eq_same_length with nwords; [by apply words_length|done|].
  intros k x y Hk Hx Hy. destruct (Hl k x Hx) as (a & Ha & (w & Hwa & Hwx) & H2a).
  assert (a = m) as -> by lia. simplify_eq. done.
Qed.

(** ** Steps of a reader *)

(** Only the reader [i] changes. *)
Lemma set_reader_inv s n i r' :
  cell_inv s n → reader_ok (written s) r' → cell_inv (set_reader i r' s) n.
Proof.
  intros Hinv Hr. destruct Hinv as [? ? ? ? ? ? ? ? ? ? Hrd]. split; simpl; try done.
  intros j rj [(-> & <- & _)|[_ Hj]]%list_lookup_insert_Some; [done|by eapply Hrd].
Qed.

(** A read that fails reports nothing. *)
Lemma finish_err_ok h r th :
  reader_ok h r → cur (rthread r) 0 ≤ cur th 0 →
  reader_ok h (mkReader RIdle th (rlog r ++ [Err mkSyncCellReadError]) (rseen r ++ [])).
Proof.
  intros [Hs Hso Ho _] Hle. split; simpl; try done; rewrite ?app_nil_r; try done.
  - rewrite oks_app. simpl. by rewrite app_nil_r.
  - eapply Forall_impl; [exact Ho|]. simpl. lia.
Qed.

Lemma even_land n : Z.land (Z.of_nat n) 1 = (Z.of_nat n mod 2)%Z.
Proof. change 1%Z with (Z.ones 1). by rewrite Z.land_ones. Qed.

Lemma reader_start s n i r t seq th :
  cell_inv s n → readers s !! i = Some r → rpc r = RIdle →
  load 0 Acquire t (mem s) (rthread r) = Some (seq, th) →
  cell_inv (if negb (Z.land seq 1 =? 0)%Z then finish i r th (Err mkSyncCellReadError) [] s
            else set_reader i (mkReader (RWords seq []) th (rlog r) (rseen r)) s) n.
Proof.
  intros Hinv Hi Hpc Hload. pose proof (ci_readers _ _ Hinv _ _ Hi) as Hr.
  apply load_Some in Hload as (ms & m & Hl & Ht & -> & Hle & Hcur & Htl & _ & _ & Hacq).
  destruct (locs_lookup _ _ _ _ Hinv Hl) as [-> _].
  destruct (ci_seq _ _ Hinv _ _ Ht) as [-> Hv]. rewrite even_land.
  destruct (Z.eqb_spec (Z.of_nat t mod 2) 0) as [He|He]; simpl.
  - apply set_reader_inv; [done|]. destruct Hr as [Hs Hso Ho _]. split; simpl; try done.
    + eapply Forall_impl; [exact Ho|]. simpl. intros x Hx. specialize (Hcur 0). lia.
    + assert (t = 2 * (t / 2)) as Ht2.
      { assert (t mod 2 = 0) by (apply Nat2Z.inj; by rewrite Nat2Z.inj_mod).
        pose proof (Nat.div_mod_eq t 2). lia. }
      exists (t / 2). split_and!; try done; [lia|lia| |lia].
      intros k Hk. etrans; [by apply (Hv (t / 2))|]. by apply Hacq.
  - apply set_reader_inv; [done|]. apply finish_err_ok; [done|]. apply Hcur.
Qed.

Lemma reader_load s n i r t seq acc x th :
  cell_inv s n → readers s !! i = Some r → rpc r = RWords seq acc → length acc < nwords →
  load (S (length acc)) Relaxed t (mem s) (rthread r) = Some (x, th) →
  cell_inv (set_reader i (mkReader (RWords seq (acc ++ [x])) th (rlog r) (rseen r)) s) n.
Proof.
  intros Hinv Hi Hpc Hlen Hload. pose proof (ci_readers _ _ Hinv _ _ Hi) as [Hs Hso Ho Hp].
  rewrite Hpc in Hp. destruct Hp as (m & -> & Hm & Hk & _ & Hl).
  apply load_Some in Hload as (ms & msg & Hms & Ht & -> & Hle & Hcur & _ & Hacq & Hmv & _).
  destruct (locs_lookup _ _ _ _ Hinv Hms) as [-> _].
  destruct (ci_words _ _ Hinv _ Hlen _ _ Ht) as [Hat H2].
  apply set_reader_inv; [done|]. split; simpl; try done.
  - eapply Forall_impl; [exact Ho|]. simpl. intros y Hy. specialize (Hcur 0). lia.
  - exists m. split_and!; try done.
    + specialize (Hcur 0). lia.
    + intros k Hkn. etrans; [by apply Hk|]. apply Hcur.
    + rewrite length_app. simpl. lia.
    + intros k y Hy. apply lookup_app_Some in Hy as [Hy|[Hge Hy]].
      * destruct (Hl k y Hy) as (a & ? & ? & ?). exists a. split_and!; try done.
        specialize (Hacq 0). lia.
      * apply list_lookup_singleton_Some in Hy as [Hz <-].
        assert (k = length acc) as -> by lia. exists t. split_and!; [|done|].
        -- etrans; [by apply Hk|done].
        -- specialize (Hmv 0). lia.
Qed.

Lemma cell_reader_inv s n i t o :
  cell_inv s n → reader_step i t s = Some o → ∃ s', o = Done s' ∧ cell_inv s' n ∧
    written s' = written s.
Proof.
  intros Hinv. unfold reader_step. destruct (readers s !! i) as [r|] eqn:Hi; [|done]. simpl.
  pose proof (ci_readers _ _ Hinv _ _ Hi) as Hr.
  destruct (rpc r) as [|seq acc|seq v|seq v] eqn:Hpc.
  - destruct (load 0 Acquire t (mem s) (rthread r)) as [[seq th]|] eqn:Hl; [|done]. simpl.
    intros [= <-]. eexists. split; [done|]. split; [by eapply reader_start|]. by case_match.
  - destruct (Nat.ltb_spec (length acc) nwords) as [Hlt|Hge].
    + destruct (load (S (length acc)) Relaxed t (mem s) (rthread r)) as [[x th]|] eqn:Hl;
        [|done]. simpl. intros [= <-]. eexists. split; [done|].
      split; [by eapply reader_load|done].
    + destruct Hr as [Hs Hso Ho Hp]. rewrite Hpc in Hp.
      destruct Hp as (m & -> & Hm & Hk & Hlen & Hl).
      destruct (build_torn acc) as [v Hv]; [lia| |].
      { intros k x Hx. destruct (Hl k x Hx) as (a & _ & (u & _ & Hu) & _). by exists u. }
      rewrite Hv. simpl. intros [= <-]. eexists. split; [done|]. split; [|done].
      apply set_reader_inv; [done|]. split; simpl; try done.
      exists m, acc. split_and!; try done. lia.
  - intros [= <-]. eexists. split; [done|]. split; [|done].
    apply set_reader_inv; [done|]. destruct Hr as [Hs Hso Ho Hp]. rewrite Hpc in Hp.
    destruct Hp as (m & acc & -> & Hm & Hlen & Hb & Hl). split; simpl; try done.
    + eapply Forall_impl; [exact Ho|]. simpl. unfold vjoin. lia.
    + exists m, acc. split_and!; try done; simpl; unfold vjoin; [lia|].
      rewrite <-(app_nil_r (written s)). eapply loaded_mono; [exact Hl|]. lia.
  - destruct (load 0 Relaxed t (mem s) (rthread r)) as [[seq' th]|] eqn:Hl; [|done]. simpl.
    intros [= <-]. eexists. split; [done|]. split; [|by case_match].
    apply load_Some in Hl as (ms & msg & Hms & Ht & -> & Hle & Hcur & Htl & _).
    destruct (locs_lookup _ _ _ _ Hinv Hms) as [-> _].
    destruct (ci_seq _ _ Hinv _ _ Ht) as [-> _].
    destruct (Z.eqb_spec (Z.of_nat t) seq) as [He|Hne];
      [|apply set_reader_inv; [done|]; apply finish_err_ok; [done|apply Hcur]].
    destruct Hr as [Hs Hso Ho Hp]. rewrite Hpc in Hp.
    destruct Hp as (m & acc & -> & Hm & Hlen & Hb & Hld). apply Nat2Z.inj in He as ->.
    assert (Z.to_nat (Z.of_nat (2 * m) / 2) = m) as Hdiv.
    { rewrite Nat2Z.inj_mul, Z.mul_comm, Z.div_mul by lia. apply Nat2Z.id. }
    apply set_reader_inv; [done|]. rewrite Hdiv. split; simpl; try done.
    + rewrite oks_app. apply Forall2_app; [done|]. simpl. constructor; [|constructor].
      eapply (checked s n); try done. by apply lookup_lt_Some in Ht.
    + apply Sorted_snoc_le; [done|]. eapply Forall_impl; [exact Ho|]. simpl. lia.
    + apply Forall_app. split; [|by repeat constructor; lia].
      eapply Forall_impl; [exact Ho|]. simpl. specialize (Hcur 0). lia.
Qed.

(** ** Steps of the writer *)

Lemma mem_total_ne (M : memory) l k ms : l ≠ k → <[l:=ms]> M !!! k = M !!! k.
Proof. intros. by apply list_lookup_total_insert_ne. Qed.
Lemma mem_total_eq (M : memory) l ms : l < length M → <[l:=ms]> M !!! l = ms.
Proof. intros. by apply list_lookup_total_correct, list_lookup_insert_eq. Qed.

(** A store to the sequence count. *)
Lemma store_seq_inv s n seq o M th pc :
  cell_inv s n → store 0 seq o (mem s) (wthread s) = Some (M, th) →
  seq = Z.of_nat (length (mem s !!! 0)) →
  seq_len pc n = S (seq_len (wpc s) n) →
  (∀ k, k < nwords → word_len pc n k = word_len (wpc s) n k) →
  (∀ j, length (mem s !!! 0) = 2 * j → o = Release ∧ ∀ k, k < nwords → j < word_len pc n k) →
  wpc_ok (written s) n pc th →
  cell_inv (to_writer pc M th s) n.
Proof.
  intros Hinv Hst Hval Hsl Hwl Hev Hpc.
  apply store_Some in Hst as (ms & m & Hms & -> & Hmv & Hcur & Hlen & Hne & Hrel & _ & Hr & Hc0).
  destruct (locs_lookup _ _ _ _ Hinv Hms) as [-> _].
  destruct Hinv as [Hloc Hlast Hseq Hwd Hsl0 Hwl0 Hsc Hwc _ Hlog Hrd].
  split; simpl; try done.
  - by rewrite length_insert.
  - rewrite mem_total_eq by lia. intros t m' [Ht|[Hge Ht]]%lookup_app_Some; [by apply Hseq|].
    apply list_lookup_singleton_Some in Ht as [Ht <-].
    assert (t = length (mem s !!! 0)) as -> by lia. split; [by rewrite Hmv|].
    intros j Hj k Hk. destruct (Hev j Hj) as [-> Hw]. specialize (Hw k Hk).
    specialize (Hr eq_refl (S k)). specialize (Hwc k Hk). rewrite Hwl in Hw by done. lia.
  - intros k Hk. rewrite mem_total_ne by done. by apply Hwd.
  - rewrite mem_total_eq, length_app by lia. simpl. lia.
  - intros k Hk. rewrite mem_total_ne, Hwl by done. by apply Hwl0.
  - rewrite Hc0, Hsl. lia.
  - intros k Hk. rewrite Hne, Hwl by done. by apply Hwc.
Qed.

(** A store to a word. *)
Lemma store_word_inv s n v seq k x M th :
  cell_inv s n → wpc s = WWords v seq k → tearable_words v !! k = Some x →
  store (S k) x Relaxed (mem s) (wthread s) = Some (M, th) →
  cell_inv (to_writer (WWords v seq (S k)) M th s) n.
Proof.
  intros Hinv Hpc Hx Hst. pose proof (lookup_lt_Some _ _ _ Hx) as Hk. rewrite words_length in Hk.
  apply store_Some in Hst as
    (ms & m & Hms & -> & Hmv & Hcur & Hlen & Hne & Hrel & Hvw & _ & Hc0).
  destruct (locs_lookup _ _ _ _ Hinv Hms) as [-> _].
  destruct Hinv as [Hloc Hlast Hseq Hwd Hsl0 Hwl0 Hsc Hwc Hwp Hlog Hrd].
  rewrite Hpc in *. simpl in *. destruct Hwp as (Hn & Hv & Hsq & Hj & Hrl).
  pose proof (Hwl0 k Hk) as Hlk. rewrite Nat.ltb_irrefl in Hlk.
  assert (∀ i, i ≠ k → (i <? S k)%nat = (i <? k)%nat) as Hlt.
  { intros i Hi. destruct (Nat.ltb_spec i (S k)), (Nat.ltb_spec i k); lia. }
  assert ((k <? S k)%nat = true) as Hkk by (apply Nat.ltb_lt; lia).
  split; simpl; try done.
  - by rewrite length_insert.
  - rewrite mem_total_ne by done. done.
  - intros i Hi a m' Ha. destruct (decide (i = k)) as [->|Hik].
    + rewrite mem_total_eq in Ha by lia.
      apply lookup_app_Some in Ha as [Ha|[Hge Ha]]; [by apply Hwd|].
      apply list_lookup_singleton_Some in Ha as [Ha <-].
      assert (a = n) as -> by lia. split; [exists v; by rewrite Hmv|].
      destruct (Hvw 0) as [Hv0|]; [lia|done].
    + rewrite mem_total_ne in Ha by lia. by apply Hwd.
  - by rewrite mem_total_ne.
  - intros i Hi. destruct (decide (i = k)) as [->|Hik].
    + rewrite mem_total_eq, length_app, Hkk by lia. simpl. lia.
    + rewrite mem_total_ne, Hlt by lia. by apply Hwl0.
  - by rewrite Hne.
  - intros i Hi. destruct (decide (i = k)) as [->|Hik].
    + rewrite Hc0, Hkk, Hlk. specialize (Hwc k Hk). rewrite Nat.ltb_irrefl in Hwc. lia.
    + rewrite Hne, Hlt by lia. by apply Hwc.
  - split_and!; try done. by rewrite Hrel.
Qed.

(** A load of the writer while it does not write reads the newest store. *)
Lemma writer_load s n l t x th :
  cell_inv s n → (wpc s = WIdle ∨ ∃ acc, wpc s = WRead acc) → l ≤ nwords →
  load l Relaxed t (mem s) (wthread s) = Some (x, th) →
  t = cur (wthread s) l ∧ (∀ k, cur th k = cur (wthread s) k) ∧
  ∃ m, (mem s !!! l) !! t = Some m ∧ x = mval m.
Proof.
  intros Hinv Hpc Hl Hload. pose proof Hload as Hload'.
  apply load_Some in Hload' as (ms & m & Hms & Ht & -> & Hle & _).
  destruct (locs_lookup _ _ _ _ Hinv Hms) as [-> Hcase].
  assert (S (cur (wthread s) l) = length (mem s !!! l)) as Hlen.
  { destruct Hcase as [->|(k & Hk & ->)].
    - by rewrite (ci_seq_cur _ _ Hinv), (ci_seq_len _ _ Hinv).
    - by rewrite (ci_word_cur _ _ Hinv), (ci_word_len _ _ Hinv). }
  pose proof (load_newest _ _ _ _ _ _ _ _ Hload Hms Hlen) as ->.
  split_and!; [done| |by exists m]. unfold load in Hload. rewrite Hms, Ht in Hload.
  destruct (_ <=? _)%nat; [|done]. injection Hload as <-. intros k. simpl. unfold vjoin.
  destruct (decide (k = l)) as [->|Hk]; [rewrite vat_eq; lia|rewrite vat_ne by done; lia].
Qed.

Lemma cell_writer_inv s n c o :
  cell_inv s n → writer_step c s = Some o →
  ∃ s' n', o = Done s' ∧ (few_writes s' → cell_inv s' n') ∧
    (written s' = written s ∨ ∃ v, written s' = written s ++ [v]).
Proof.
  intros Hinv. pose proof (ci_wpc _ _ Hinv) as Hp. pose proof (ci_last _ _ Hinv) as Hlast.
  pose proof (ci_seq_len _ _ Hinv) as Hsl.
  unfold writer_step. destruct (wpc s) as [|v seq|v seq|v seq k|acc] eqn:Hpc, c as [u t| |t];
    try done; simpl in Hp, Hsl.
  - destruct (load 0 Relaxed t (mem s) (wthread s)) as [[seq th]|] eqn:Hl; [|done]. simpl.
    intros [= <-]. eexists _, (S n). split; [done|]. split; [intros _|by right; exists u].
    destruct (writer_load _ _ _ _ _ _ Hinv (or_introl Hpc) (Nat.le_0_l _) Hl)
      as (-> & Hcur & m & Hm & ->). destruct (ci_seq _ _ Hinv _ _ Hm) as [-> _].
    destruct Hinv as [Hloc _ Hseq Hwd Hsl0 Hwl0 Hsc Hwc _ Hlog Hrd]. rewrite Hpc in *.
    simpl in Hsc, Hwc, Hwl0. split; simpl; try done.
    + rewrite length_app. simpl. lia.
    + intros k Hk a m' Ha. destruct (Hwd k Hk a m' Ha). split; [by apply word_at_app|done].
    + lia.
    + rewrite Hcur. lia.
    + intros k Hk. rewrite Hcur. by apply Hwc.
    + split_and!; [lia| |f_equal; lia]. rewrite lookup_app_r by lia.
      by replace (S n - length (written s)) with 0 by lia.
    + eapply Forall_impl; [exact Hlog|]. intros x Hx. apply elem_of_app. by left.
    + intros i r Hr. by apply reader_ok_app, Hrd with i.
  - intros [= <-]. eexists _, n. split; [done|]. split; [intros _|by left].
    destruct (lookup_lt_is_Some_2 (written s) n) as [v Hv]; [lia|].
    destruct Hinv as [Hloc _ Hseq Hwd Hsl0 Hwl0 Hsc Hwc _ Hlog Hrd]. rewrite Hpc in *.
    split; simpl; try done. by exists v.
  - destruct (store 0 _ Relaxed (mem s) (wthread s)) as [[M th]|] eqn:Hst; [|done]. simpl.
    intros [= <-]. eexists _, n. split; [done|]. split; [|by left]. unfold few_writes. simpl.
    intros Hfew. destruct Hp as (Hn & Hv & ->). eapply store_seq_inv; [done|exact Hst|..];
      rewrite ?Hpc; simpl; try done.
    + rewrite wrap_small; lia.
    + lia.
    + intros j Hj. lia.
  - intros [= <-]. eexists _, n. split; [done|]. split; [intros _|by left].
    destruct Hp as (Hn & Hv & ->).
    destruct Hinv as [Hloc _ Hseq Hwd Hsl0 Hwl0 Hsc Hwc _ Hlog Hrd]. rewrite Hpc in *.
    simpl in *. split; simpl; try done. split_and!; try done; lia.
  - destruct (tearable_words v !! k) as [x|] eqn:Hx.
    + destruct (store (S k) x Relaxed (mem s) (wthread s)) as [[M th]|] eqn:Hst; [|done].
      simpl. intros [= <-]. eexists _, n. split; [done|]. split; [intros _|by left].
      by eapply store_word_inv.
    + destruct (store 0 _ Release (mem s) (wthread s)) as [[M th]|] eqn:Hst; [|done]. simpl.
      intros [= <-]. eexists _, n. split; [done|]. split; [|by left]. unfold few_writes. simpl.
      intros Hfew. destruct Hp as (Hn & Hv & -> & Hk & _).
      apply lookup_ge_None in Hx. rewrite words_length in Hx.
      eapply store_seq_inv; [done|exact Hst|..]; rewrite ?Hpc; simpl; try done.
      * rewrite wrap_small; lia.
      * lia.
      * intros i Hi. by rewrite (proj2 (Nat.ltb_lt i k)) by lia.
      * intros j Hj. split; [done|]. intros i Hi. lia.
  - destruct (Nat.ltb_spec (length acc) nwords) as [Hlt|Hge].
    + destruct (load (S (length acc)) Relaxed t (mem s) (wthread s)) as [[x th]|] eqn:Hl;
        [|done]. simpl. intros [= <-]. eexists _, n. split; [done|]. split; [intros _|by left].
      destruct (writer_load _ _ _ _ _ _ Hinv (or_intror (ex_intro _ acc Hpc)) Hlt Hl)
        as (-> & Hcur & m & Hm & ->).
      destruct (ci_words _ _ Hinv _ Hlt _ _ Hm) as [(v' & Hv' & Hw) _].
      pose proof (ci_word_cur _ _ Hinv _ Hlt) as Hc. rewrite Hpc in Hc. simpl in Hc.
      destruct Hinv as [Hloc _ Hseq Hwd Hsl0 Hwl0 Hsc Hwc _ Hlog Hrd]. rewrite Hpc in *.
      simpl in *. split; simpl; try done.
      * by rewrite Hcur.
      * intros k Hk. rewrite Hcur. by apply Hwc.
      * destruct Hp as (v & Hv & Hacc). exists v. split; [done|].
        injection Hc as Hc. rewrite Hc in Hv'. simplify_eq.
        rewrite length_app. simpl. rewrite Nat.add_1_r, (take_S_r _ _ _ Hw). by f_equal.
    + destruct Hp as (v & Hv & Hacc). rewrite take_ge in Hacc by (rewrite words_length; lia).
      rewrite Hacc, build_words. simpl. intros [= <-]. eexists _, n. split; [done|].
      split; [intros _|by left].
      destruct Hinv as [Hloc _ Hseq Hwd Hsl0 Hwl0 Hsc Hwc _ Hlog Hrd]. rewrite Hpc in *.
      split; simpl; try done. apply Forall_app. split; [done|]. constructor; [|constructor].
      by eapply list_elem_of_lookup_2.
Qed.

(** ** Reachable states *)

Definition cell_next s s' : Prop := cell_step s (Done s').
Definition cell_reachable (v : V) s : Prop := rtc cell_next (cell_new v) s.

Lemma cell_new_inv v : cell_inv (cell_new v) 0.
Proof.
  assert (∀ k, k < nwords → ∃ z, tearable_words v !! k = Some z ∧
    mem (cell_new v) !!! S k = [mkMsg z view0]) as Hw.
  { intros k Hk. destruct (lookup_lt_is_Some_2 (tearable_words v) k) as [z Hz];
      [by rewrite words_length|]. exists z. split; [done|].
    apply list_lookup_total_correct. simpl. by rewrite list_lookup_fmap, Hz. }
  split; simpl; try done.
  - by rewrite length_fmap, words_length.
  - intros t m Ht. apply list_lookup_singleton_Some in Ht as [-> <-]. simpl.
    split; [done|]. intros j Hj k Hk. lia.
  - intros k Hk a m Ha. destruct (Hw k Hk) as (z & Hz & He). simpl in He. rewrite He in Ha.
    apply list_lookup_singleton_Some in Ha as [-> <-]. split; [by exists v|simpl; lia].
  - intros k Hk. destruct (Hw k Hk) as (z & Hz & He). simpl in He. by rewrite He.
Qed.

Lemma reader_inv s n : cell_inv s n → cell_inv (reader s) n.
Proof.
  intros [Hloc Hlast Hseq Hwd Hsl0 Hwl0 Hsc Hwc Hwp Hlog Hrd]. split; simpl; try done.
  intros i r Hr. apply lookup_app_Some in Hr as [Hr|[_ Hr]]; [by eapply Hrd|].
  apply list_lookup_singleton_Some in Hr as [_ <-]. split; simpl; constructor.
Qed.

Lemma cell_step_inv s n o : cell_inv s n → cell_step s o →
  ∃ s' n', o = Done s' ∧ (few_writes s' → cell_inv s' n') ∧ written s `prefix_of` written s'.
Proof.
  intros Hinv [c Hw|i t Hr| ->].
  - destruct (cell_writer_inv _ _ _ _ Hinv Hw) as (s' & n' & -> & Hi & Hwr).
    exists s', n'. split_and!; [done|done|]. destruct Hwr as [->|[v ->]]; [done|].
    by apply prefix_app_r.
  - destruct (cell_reader_inv _ _ _ _ _ Hinv Hr) as (s' & -> & Hi & Hwr).
    exists s', n. by rewrite Hwr.
  - exists (reader s), n. split_and!; [done| |done]. intros _. by apply reader_inv.
Qed.

(** Every step keeps what was written. *)
Ltac open_access :=
  repeat (first
    [ match goal with
      | |- context [load ?a ?b ?c ?d ?e] => destruct (load a b c d e) as [[? ?]|]
      | |- context [store ?a ?b ?c ?d ?e] => destruct (store a b c d e) as [[? ?]|]
      | |- context [tearable_build ?a] => destruct (tearable_build a)
      end
    | case_match ]; simpl; try done).

Lemma written_grows s s' : cell_next s s' → length (written s) ≤ length (written s').
Proof.
  intros [c Hc|i t Hi|[= ->]]; [..|done].
  - revert Hc. unfold writer_step. open_access; intros; simplify_eq/=; rewrite ?length_app; lia.
  - revert Hi. unfold reader_step. destruct (readers s !! i) as [r|]; [|done]. simpl.
    open_access; intros; simplify_eq/=; lia.
Qed.

Lemma reachable_cell_inv v s : cell_reachable v s → few_writes s → ∃ n, cell_inv s n.
Proof.
  intros Hr. refine (rtc_ind_r (λ s, few_writes s → ∃ n, cell_inv s n) _ _ _ s Hr).
  - intros _. exists 0. apply cell_new_inv.
  - intros y z Hy Hyz IH Hfew. pose proof (written_grows _ _ Hyz).
    destruct IH as [n Hn]; [unfold few_writes in *; lia|].
    destruct (cell_step_inv _ _ _ Hn Hyz) as (s' & n' & [= <-] & Hi & _). eauto.
Qed.

(** C24: a sequence lock gives only whole values.  In every state that can be
    reached before the sequence count wraps, whatever stale values the loads
    return: no operation panics, not even on a torn load; the results of a
    reader that are not errors are values that were given to [write] (or the
    initial value), at positions that never go back; and the read of the
    writer returns the last value that it wrote. *)
Theorem sync_cell_reads v s :
  cell_reachable v s → few_writes s →
  (∀ o, cell_step s o → ∃ s', o = Done s') ∧
  (∀ i r, readers s !! i = Some r →
     Forall2 (λ v n, written s !! n = Some v) (oks (rlog r)) (rseen r) ∧ Sorted le (rseen r)) ∧
  (∀ acc t s', wpc s = WRead acc → length acc = nwords →
     writer_step (CallAccess t) s = Some (Done s') →
     ∃ u, last (written s) = Some u ∧ wlog s' = wlog s ++ [u]).
Proof.
  intros Hr Hfew. destruct (reachable_cell_inv _ _ Hr Hfew) as [n Hinv]. split_and!.
  - intros o Ho. destruct (cell_step_inv _ _ _ Hinv Ho) as (s' & _ & -> & _). by exists s'.
  - intros i r Hi. destruct (ci_readers _ _ Hinv _ _ Hi). done.
  - intros acc t s' Hpc Hacc. unfold writer_step. rewrite Hpc, Hacc, Nat.ltb_irrefl.
    pose proof (ci_wpc _ _ Hinv) as Hw. rewrite Hpc in Hw. destruct Hw as (u & Hu & Hw).
    rewrite Hw, take_ge, build_words by (rewrite words_length; lia). simpl.
    intros [= <-]. exists u. split; [|done].
    by rewrite last_lookup, (ci_last _ _ Hinv).
Qed.

(** ** Views of the threads *)

Record cell_wf s : Prop := {
  cw_mem : mem_wf (mem s);
  cw_writer : thread_wf (mem s) (wthread s);
  cw_readers : ∀ i r, readers s !! i = Some r → thread_wf (mem s) (rthread r);
}.

Lemma cell_new_wf v : cell_wf (cell_new v).
Proof.
  assert (∀ l ms, mem (cell_new v) !! l = Some ms → ∃ z, ms = [mkMsg z view0]) as Hone.
  { intros [|l] ms; simpl; [intros [= <-]; eauto|].
    rewrite list_lookup_fmap. intros (z & _ & Hz)%fmap_Some_1. by exists z. }
  assert (view_in (mem (cell_new v)) view0) as Hv.
  { intros l ms Hl. destruct (Hone _ _ Hl) as [z ->]. simpl. unfold view0. lia. }
  split; [|by split_and!|done].
  intros l ms t m Hl Ht. destruct (Hone _ _ Hl) as [z ->].
  by apply list_lookup_singleton_Some in Ht as [_ <-].
Qed.

Lemma set_reader_wf s i r : cell_wf s → thread_wf (mem s) (rthread r) → cell_wf (set_reader i r s).
Proof.
  intros [Hm Hw Hr] Ht. split; [done..|]. intros j r' Hj. simpl in *.
  apply list_lookup_insert_Some in Hj as [(_ & <- & _)|[_ Hj]]; [done|by eapply Hr].
Qed.

Lemma writer_load_wf s pc l o t z th log h : cell_wf s →
  load l o t (mem s) (wthread s) = Some (z, th) →
  cell_wf (mkCell (mem s) pc th log h (readers s)).
Proof. intros [Hm Hw Hr] Hl. split; [done| |done]. by eapply load_wf. Qed.

Lemma writer_store_wf s pc l z o M th : cell_wf s →
  store l z o (mem s) (wthread s) = Some (M, th) → cell_wf (to_writer pc M th s).
Proof.
  intros [Hm Hw Hr] Hs. destruct (store_wf _ _ _ _ _ _ _ Hs Hm Hw) as (He & ? & ?).
  split; simpl; [done..|]. intros i r Hi. eapply thread_wf_extends; [done|by eapply Hr].
Qed.

Lemma cell_next_wf s s' : cell_wf s → cell_next s s' → cell_wf s'.
Proof.
  intros Hwf [c Hc|i t Hi|[= ->]].
  - pose proof Hwf as [Hm Hw Hr]. revert Hc. unfold writer_step.
    destruct (wpc s), c; try done.
    + destruct (load _ _ _ _ _) as [[z th]|] eqn:Hl; [|done]. intros [= <-].
      by eapply writer_load_wf.
    + intros [= <-]. by split.
    + destruct (store _ _ _ _ _) as [[M th]|] eqn:Hl; [|done]. intros [= <-].
      by eapply writer_store_wf.
    + intros [= <-]. split; [done|by apply (fence_wf Release)|done].
    + case_match; destruct (store _ _ _ _ _) as [[M th]|] eqn:Hl; try done; intros [= <-];
        by eapply writer_store_wf.
    + case_match.
      * destruct (load _ _ _ _ _) as [[z th]|] eqn:Hl; [|done]. intros [= <-].
        by eapply writer_load_wf.
      * destruct (tearable_build acc); try done. intros [= <-]. by split.
  - revert Hi. unfold reader_step. destruct (readers s !! i) as [r|] eqn:Hi; [|done]. simpl.
    pose proof Hwf as [Hm _ Hr]. specialize (Hr _ _ Hi).
    destruct (rpc r); [..|intros [= <-]|].
    + destruct (load _ _ _ _ _) as [[z th]|] eqn:Hl; [|done]. intros [= <-].
      case_match; apply set_reader_wf; try done; by eapply load_wf.
    + case_match.
      * destruct (load _ _ _ _ _) as [[z th]|] eqn:Hl; [|done]. intros [= <-].
        apply set_reader_wf; [done|]. by eapply load_wf.
      * destruct (tearable_build acc); try done. intros [= <-]. by apply set_reader_wf.
    + apply set_reader_wf; [done|]. by apply (fence_wf Acquire).
    + destruct (load _ _ _ _ _) as [[z th]|] eqn:Hl; [|done]. intros [= <-].
      case_match; apply set_reader_wf; try done; by eapply load_wf.
  - destruct Hwf as [Hm Hw Hr]. split; [done..|]. intros i r Hi. simpl in *.
    apply lookup_app_Some in Hi as [Hi|[_ Hi]]; [by eapply Hr|].
    apply list_lookup_singleton_Some in Hi as [_ <-]. by eapply thread0_wf.
Qed.

Lemma reachable_cell_wf v s : cell_reachable v s → cell_wf s.
Proof.
  intros Hr. refine (rtc_ind_r cell_wf _ _ _ s Hr); [apply cell_new_wf|].
  intros y z _ Hyz Hy. by eapply cell_next_wf.
Qed.

(** ** A read that is synchronized with the last write *)

Definition reader_next (i : nat) s s' : Prop := ∃ t, reader_step i t s = Some (Done s').

(** The reader after [j] steps of an undisturbed [try_read]. *)
Definition caught (r0 : Reader V) (n : nat) (v : V) (j : nat) (r : Reader V) : Prop :=
  2 * n ≤ cur (rthread r) 0 ∧
  if decide (j = 0) then rpc r = RIdle ∧ rlog r = rlog r0
  else if decide (j ≤ S nwords) then
    rpc r = RWords (Z.of_nat (2 * n)) (take (j - 1) (tearable_words v)) ∧
    (∀ k, k < nwords → n ≤ cur (rthread r) (S k)) ∧ rlog r = rlog r0
  else if decide (j = nwords + 2) then rpc r = RFence (Z.of_nat (2 * n)) v ∧ rlog r = rlog r0
  else if decide (j = nwords + 3) then rpc r = RCheck (Z.of_nat (2 * n)) v ∧ rlog r = rlog r0
  else rpc r = RIdle ∧ rlog r = rlog r0 ++ [Ok v].

Lemma caught_load s n (r : Reader V) l o t0 :
  cell_inv s n → cell_wf s → wpc s = WIdle → l ≤ nwords → thread_wf (mem s) (rthread r) →
  t0 ≤ cur (rthread r) l → S t0 = length (mem s !!! l) →
  is_Some (load l o t0 (mem s) (rthread r)) ∧
  ∀ t z th, load l o t (mem s) (rthread r) = Some (z, th) →
    t = t0 ∧ ∃ m, (mem s !!! l) !! t0 = Some m ∧ z = mval m ∧ (∀ k, cur (rthread r) k ≤ cur th k) ∧
      (o = Acquire → ∀ k, mview m k ≤ cur th k).
Proof.
  intros Hinv Hwf Hpc Hl Ht Hc Hlen.
  assert (mem s !! l = Some (mem s !!! l)) as Hms.
  { apply list_lookup_lookup_total_lt. rewrite (ci_locs _ _ Hinv). lia. }
  split; [by eapply load_enabled|].
  intros t z th (ms & m & Hms' & Htm & -> & Hle & Hcur & _ & _ & _ & Hacq)%load_Some.
  rewrite Hms in Hms'. injection Hms' as <-. pose proof (lookup_lt_Some _ _ _ Htm).
  assert (t = t0) as -> by lia. split; [done|]. by exists m.
Qed.

Lemma even_store s n j m : cell_inv s n → (mem s !!! 0) !! (2 * j) = Some m →
  negb (Z.land (mval m) 1 =? 0)%Z = false.
Proof.
  intros Hinv Hm. destruct (ci_seq _ _ Hinv _ _ Hm) as [-> _]. rewrite even_land.
  rewrite Nat2Z.inj_mul, Z.mul_comm, Z.mod_mul by lia. done.
Qed.

Lemma caught_step s n v i (r0 r : Reader V) j :
  cell_inv s n → cell_wf s → wpc s = WIdle → last (written s) = Some v →
  readers s !! i = Some r → caught r0 n v j r → j < nwords + 4 →
  (∃ s', reader_next i s s') ∧
  ∀ s', reader_next i s s' → ∃ r', s' = set_reader i r' s ∧ caught r0 n v (S j) r'.
Proof.
  intros Hinv Hwf Hpc Hv Hi [Hc0 Hc] Hj. pose proof (cw_readers _ Hwf _ _ Hi) as Ht.
  pose proof (ci_seq_len _ _ Hinv) as Hsl. rewrite Hpc in Hsl. simpl in Hsl.
  rewrite last_lookup, (ci_last _ _ Hinv) in Hv. simpl in Hv.
  destruct (caught_load s n r 0 Acquire (2 * n)) as [Ha Ha'];
    [done|done|done|lia|done|done|lia|].
  destruct (caught_load s n r 0 Relaxed (2 * n)) as [Hb Hb'];
    [done|done|done|lia|done|done|lia|].
  unfold caught. unfold reader_next, reader_step. rewrite Hi. simpl.
  repeat case_decide; try lia; subst.
  - destruct Hc as [-> Hlog].
    destruct Ha as [[z th] Ha]. pose proof (Ha' _ _ _ Ha) as (_ & m & Hm & -> & _).
    pose proof (λ m, even_store s n n m Hinv) as Hev.
    split; [exists (set_reader i (mkReader (RWords (mval m) []) th (rlog r) (rseen r)) s), (2 * n);
      rewrite Ha; simpl; by rewrite Hev|].
    intros s' [t Hs]. destruct (load 0 Acquire t (mem s) (rthread r)) as [[z' th']|] eqn:Hld;
      [|done]. destruct (Ha' _ _ _ Hld) as (-> & m' & Hm' & -> & Hcur & Hacq). simpl in Hs.
    rewrite Hev in Hs by done. injection Hs as <-. eexists. split; [done|]. simpl.
    destruct (ci_seq _ _ Hinv _ _ Hm') as [-> Hvw].
    split; [specialize (Hcur 0); lia|]. split_and!; [done| |done].
    intros k Hk. etrans; [by eapply Hvw|by apply Hacq].
  - destruct Hc as (-> & Hk & Hlog).
    rewrite length_take, words_length. replace ((j - 1) `min` nwords) with (j - 1) by lia.
    destruct (Nat.ltb_spec (j - 1) nwords); [|lia].
    destruct (caught_load s n r (S (j - 1)) Relaxed n) as [Hd Hd'];
      [done|done|done|lia|done|by apply Hk|..].
    { rewrite (ci_word_len _ _ Hinv) by done. by rewrite Hpc. }
    destruct Hd as [[z th] Hd]. split.
    { eexists _, n. by rewrite Hd. }
    intros s' [t Hs]. destruct (load _ _ t _ _) as [[z' th']|] eqn:Hld; [|done].
    destruct (Hd' _ _ _ Hld) as (-> & m' & Hm' & -> & Hcur & _). simpl in Hs.
    injection Hs as <-. eexists. split; [done|]. simpl.
    split; [specialize (Hcur 0); lia|]. split_and!; [|by intros k Hkn; etrans; [apply Hk|]|done].
    destruct (ci_words _ _ Hinv (j - 1) ltac:(lia) _ _ Hm') as [(u & Hu & Hw) _].
    rewrite Hv in Hu. injection Hu as <-. rewrite Nat.sub_0_r.
    replace j with (S (j - 1)) at 2 by lia. by rewrite (take_S_r _ _ _ Hw).
  - destruct Hc as (-> & Hk & Hlog). rewrite take_ge by (rewrite words_length; lia).
    rewrite words_length, Nat.ltb_irrefl, build_words. simpl. split; [by eexists _, 0|].
    intros s' [t [= <-]]. by eexists.
  - destruct Hc as (-> & Hlog). split; [by eexists _, 0|].
    intros s' [t [= <-]]. eexists. split; [done|]. simpl. unfold vjoin. split; [lia|done].
  - destruct Hc as (-> & Hlog). destruct Hb as [[z th] Hb]. split.
    { eexists _, (2 * n). by rewrite Hb. }
    intros s' [t Hs]. destruct (load _ _ t _ _) as [[z' th']|] eqn:Hld; [|done].
    destruct (Hb' _ _ _ Hld) as (-> & m' & Hm' & -> & Hcur & _). simpl in Hs.
    destruct (ci_seq _ _ Hinv _ _ Hm') as [Hz _]. rewrite Hz, Z.eqb_refl in Hs.
    injection Hs as <-. eexists. split; [done|]. simpl.
    split; [specialize (Hcur 0); lia|]. by rewrite Hlog.
Qed.

Lemma set_reader_idem i r r' s : set_reader i r' (set_reader i r s) = set_reader i r' s.
Proof. unfold set_reader. simpl. by rewrite list_insert_insert_eq. Qed.

Lemma caught_steps v0 s n v i r0 j :
  cell_reachable v0 s → few_writes s → cell_inv s n → wpc s = WIdle →
  last (written s) = Some v → readers s !! i = Some r0 → rpc r0 = RIdle →
  2 * n ≤ cur (rthread r0) 0 → j ≤ nwords + 4 →
  (∃ s', nsteps (reader_next i) j s s') ∧
  ∀ s', nsteps (reader_next i) j s s' → cell_reachable v0 s' ∧
    ∃ r', s' = set_reader i r' s ∧ caught r0 n v j r'.
Proof.
  intros Hr Hfew Hinv Hpc Hv Hi Hidle Hc. induction j as [|j IH]; intros Hj.
  { split; [by eexists; constructor|]. intros s' Hs. inversion Hs; subst s'.
    split; [done|]. exists r0. unfold set_reader. rewrite list_insert_id by done.
    by destruct s. }
  destruct IH as [[s1 Hs1] IH]; [lia|].
  assert (∀ s1, nsteps (reader_next i) j s s1 → (∃ s', reader_next i s1 s') ∧
    ∀ s', reader_next i s1 s' → cell_reachable v0 s' ∧
      ∃ r', s' = set_reader i r' s ∧ caught r0 n v (S j) r') as Hstep.
  { intros s2 Hs2. destruct (IH _ Hs2) as (Hr2 & r & -> & Hcr).
    assert (cell_inv (set_reader i r s) n) as Hinv2.
    { destruct (reachable_cell_inv _ _ Hr2) as [n' Hn']; [done|].
      assert (n' = n) as ->; [|done].
      pose proof (ci_last _ _ Hn') as H1. pose proof (ci_last _ _ Hinv) as H2.
      simpl in H1. congruence. }
    assert (readers (set_reader i r s) !! i = Some r) as Hi2.
    { apply list_lookup_insert_eq. by eapply lookup_lt_Some. }
    destruct (caught_step _ n v i r0 r j Hinv2 (reachable_cell_wf _ _ Hr2)) as [He Hs]; try done.
    split; [done|]. intros s' Hs'. destruct (Hs s' Hs') as (r' & Heq & Hcr').
    split; [|exists r'; by rewrite <-set_reader_idem with (r := r)].
    eapply rtc_r; [exact Hr2|]. destruct Hs' as [t Ht]. by eapply cell_step_reader. }
  split.
  - destruct (Hstep _ Hs1) as [[s' Hs'] _]. exists s'. by eapply nsteps_r.
  - intros s' Hs'. apply nsteps_inv_r in Hs' as (s2 & Hs2 & Hn). by apply (Hstep s2 Hs2).
Qed.

(** A read that is synchronized with the last write succeeds.  When the
    writer is idle and an idle reader has seen the last sequence count, its
    next [try_read], alone, takes exactly the accesses of the code, is never
    blocked, and returns the last value that was written. *)
Lemma synchronized_read_succeeds v0 s i r :
  cell_reachable v0 s → few_writes s → wpc s = WIdle → readers s !! i = Some r →
  rpc r = RIdle → length (mem s !!! 0) ≤ S (cur (rthread r) 0) →
  ∃ v, last (written s) = Some v ∧
    (∃ s', nsteps (reader_next i) (nwords + 4) s s') ∧
    ∀ s', nsteps (reader_next i) (nwords + 4) s s' →
      ∃ r', readers s' !! i = Some r' ∧ rpc r' = RIdle ∧ rlog r' = rlog r ++ [Ok v].
Proof.
  intros Hr Hfew Hpc Hi Hidle Hc. destruct (reachable_cell_inv _ _ Hr Hfew) as [n Hinv].
  destruct (lookup_lt_is_Some_2 (written s) n) as [v Hv]; [rewrite (ci_last _ _ Hinv); lia|].
  exists v. assert (last (written s) = Some v) as Hl
    by (by rewrite last_lookup, (ci_last _ _ Hinv)).
  rewrite (ci_seq_len _ _ Hinv), Hpc in Hc. simpl in Hc.
  destruct (caught_steps v0 s n v i r (nwords + 4)) as [Hex Hall]; try done; [lia|].
  split_and!; [done|done|]. intros s' Hs'. destruct (Hall s' Hs') as (_ & r' & -> & _ & Hcr).
  exists r'. split; [apply list_lookup_insert_eq; by eapply lookup_lt_Some|].
  repeat case_decide; try lia. done.
Qed.
End Facts.

(** ** A concrete run *)

Inductive Move (V : Type) := MWriter (c : WriterCall V) | MReader (i t : nat) | MNew.
Arguments MWriter {V} c.
Arguments MReader {V} i t.
Arguments MNew {V}.

Definition move {V : Type} `{TearableAtomic V} (m : Move V) (s : Cell V) : option (Cell V) :=
  match m with
  | MWriter c => match writer_step c s with Some (Done s') => Some s' | _ => None end
  | MReader i t => match reader_step i t s with Some (Done s') => Some s' | _ => None end
  | MNew => Some (reader s)
  end.
Fixpoint moves {V : Type} `{TearableAtomic V} (ms : list (Move V)) (s : Cell V) :
    option (Cell V) :=
  match ms with
  | [] => Some s
  | m :: ms => s' ← move m s; moves ms s'
  end.

Lemma moves_reachable {V : Type} `{TearableAtomic V} ms (s s' : Cell V) :
  moves ms s = Some s' → rtc cell_next s s'.
Proof.
  revert s. induction ms as [|m ms IH]; intros s; simpl; [intros [= <-]; constructor|].
  destruct (move m s) as [s1|] eqn:Hm; [|done]. simpl. intros Hr.
  eapply rtc_l; [|by apply IH]. unfold cell_next. destruct m; simpl in Hm.
  - repeat case_match; simplify_eq. by eapply cell_step_writer.
  - repeat case_match; simplify_eq. by eapply cell_step_reader.
  - simplify_eq. by apply cell_step_new.
Qed.

(** Two writes of a time stamp.  The reader tries while the second write has
    stored one word only, and reads on stale values; then the writer finishes
    and the reader, with a fresh count, reads again. *)
Definition torn_moves : list (Move TaiTime) :=
  let w t := MWriter (CallAccess t) in
  [MNew; MWriter (CallWrite (ns 1) 0); w 0; w 0; w 0; w 0; w 0;
   MReader 0 2; MReader 0 1;
   MWriter (CallWrite (ns 2) 2); w 0; w 0; w 0; w 0;
   MReader 0 2; MReader 0 0; MReader 0 0; MReader 0 3].
Definition quiet_moves : list (Move TaiTime) :=
  torn_moves ++ [MWriter (CallAccess 0); MReader 0 4; MReader 0 2; MReader 0 2; MReader 0 0;
    MReader 0 0; MReader 0 4].
Definition cell_after (ms : list (Move TaiTime)) : Cell TaiTime :=
  default (cell_new (ns 0)) (moves ms (cell_new (ns 0))).

Lemma quiet_reachable : cell_reachable (ns 0) (cell_after quiet_moves).
Proof.
  unfold cell_after. destruct (moves quiet_moves (cell_new (ns 0))) as [s|] eqn:Hs; simpl.
  - by apply moves_reachable in Hs.
  - apply rtc_refl.
Qed.

Lemma quiet_few_writes : few_writes (cell_after quiet_moves).
Proof. by vm_compute. Qed.

Lemma sync_cell_reads_witness :
  (rlog <$> readers (cell_after quiet_moves)) = [[Err mkSyncCellReadError; Ok (ns 2)]] ∧
  (rseen <$> readers (cell_after quiet_moves)) = [[2]] ∧
  ∀ i r, readers (cell_after quiet_moves) !! i = Some r → Sorted le (rseen r).
Proof.
  split_and!; [by vm_compute..|]. intros i r Hi.
  exact (proj2 (proj1 (proj2 (sync_cell_reads (ns 0) (cell_after quiet_moves)
    quiet_reachable quiet_few_writes)) i r Hi)).
Defined.

Lemma synchronized_read_succeeds_witness :
  ∃ s', nsteps (reader_next 0) 6 (cell_after quiet_moves) s'.
Proof.
  destruct (readers (cell_after quiet_moves) !! 0) as [r|] eqn:Hr; [|by vm_compute in Hr].
  assert (rpc r = RIdle ∧ length (mem (cell_after quiet_moves) !!! 0) ≤ S (cur (rthread r) 0))
    as [Hpc Hc].
  { revert Hr. vm_compute. intros [= <-]. vm_compute. split; [done|lia]. }
  destruct (synchronized_read_succeeds (ns 0) (cell_after quiet_moves) 0 r) as (v & _ & Hex & _);
    [exact quiet_reachable|exact quiet_few_writes|by vm_compute|done..|]. exact Hex.
Defined.
