(* ===== verification/MailboxQueue.v ===== *)
(** * The queue of a mailbox, as the channel uses it

    The specification of channel/queue.rs: a push first claims the next
    position and publishes its message later, so that a message can be behind
    one that is not published yet; a pop takes the message at the head when it
    is published, and the slot is free again when the borrowed message is
    dropped.  [ChannelRefines] shows that the concurrent queue implements it. *)

From stdpp Require Import base option list numbers.
From Stdlib Require Import ZArith Lia.
From S2P Require Import Prelude ChannelQueue.

Section MailboxQueue.
Context {M : Type} (capacity : nat).

(** All claims, each with whether it is published; how many were taken, and
    how many of the slots were released. *)
Record MQueue := mkMQueue {
  mq_claims : list (M * bool);
  mq_taken : nat;
  mq_released : nat;
  mq_closed : bool;
}.

Definition mq_new : MQueue := mkMQueue [] 0 0 false.

Definition mq_full (q : MQueue) : bool :=
  (capacity <=? length (mq_claims q) - mq_released q)%nat.

Definition mq_claim (m : M) (q : MQueue) : result (nat * MQueue) PushError :=
  if mq_closed q then Err PushClosed
  else if mq_full q then Err Full
  else Ok (length (mq_claims q),
           mkMQueue (mq_claims q ++ [(m, false)]) (mq_taken q) (mq_released q) (mq_closed q)).

Definition mq_publish (n : nat) (q : MQueue) : MQueue :=
  mkMQueue (alter (λ c, (c.1, true)) n (mq_claims q)) (mq_taken q) (mq_released q)
    (mq_closed q).

Definition mq_pop (q : MQueue) : result (M * MQueue) PopError :=
  match mq_claims q !! mq_taken q with
  | Some (m, true) =>
      Ok (m, mkMQueue (mq_claims q) (S (mq_taken q)) (mq_released q) (mq_closed q))
  | Some (_, false) => Err Empty
  | None => if mq_closed q then Err PopClosed else Err Empty
  end.

Definition mq_release (q : MQueue) : MQueue :=
  mkMQueue (mq_claims q) (mq_taken q) (S (mq_released q)) (mq_closed q).
Definition mq_close (q : MQueue) : MQueue :=
  mkMQueue (mq_claims q) (mq_taken q) (mq_released q) true.
Definition mq_len (q : MQueue) : nat := length (mq_claims q) - mq_taken q.
End MailboxQueue.

Arguments MQueue : clear implicits.
