(* ===== verification/Channel.v ===== *)
(** * The channel of a mailbox (channel.rs, simulation/mailbox.rs)

    Senders and the receiver as interleaved threads around the queue of
    [MailboxQueue]: the futures returned by [Sender::send], the future of
    [Receiver::recv], the handles that are cloned and dropped, and the calls
    that close the channel.  The two signals come from other crates and are
    used through interfaces: a poll of [wait_until] evaluates the predicate
    and, when it fails, registers the waiter; a notification makes a waiter
    ready to be polled again.  A future may also be polled without having been
    notified.  Each poll runs on a thread of the executor, whose
    [THREAD_MSG_COUNT] it changes. *)

From stdpp Require Import base option list numbers relations.
From Stdlib Require Import ZArith Lia.
From S2P Require Import Prelude ChannelQueue MailboxQueue.

(** ** The signals *)

(** [async_event::Event]: several waiters. *)
Class AsyncEvent (E : Type) := {
  ev_new : E;
  ev_waits : E → nat → bool;
  ev_wait : nat → E → E;
  ev_leave : nat → E → E;
  ev_notify_one : E → E;
  ev_notify_all : E → E;
}.

Class AsyncEventLaws (E : Type) `{AsyncEvent E} := {
  ev_waits_new : ∀ j, ev_waits (ev_new : E) j = false;
  ev_waits_wait : ∀ (e : E) i j, ev_waits (ev_wait i e) j = bool_decide (j = i) || ev_waits e j;
  ev_waits_leave : ∀ (e : E) i j,
    ev_waits (ev_leave i e) j = negb (bool_decide (j = i)) && ev_waits e j;
  ev_notify_old : ∀ (e : E) j, ev_waits (ev_notify_one e) j = true → ev_waits e j = true;
  ev_notify_some : ∀ (e : E) k, ev_waits e k = true → ∃ i, ev_waits e i = true ∧
    ∀ j, ev_waits (ev_notify_one e) j = negb (bool_decide (j = i)) && ev_waits e j;
  ev_waits_all : ∀ (e : E) j, ev_waits (ev_notify_all e) j = false;
}.

(** [diatomic_waker::DiatomicWaker]: one waiter. *)
Class DiatomicWaker (W : Type) := {
  dw_new : W;
  dw_waits : W → bool;
  dw_wait : W → W;
  dw_leave : W → W;
  dw_notify : W → W;
}.

Class DiatomicWakerLaws (W : Type) `{DiatomicWaker W} := {
  dw_waits_new : dw_waits (dw_new : W) = false;
  dw_waits_wait : ∀ w : W, dw_waits (dw_wait w) = true;
  dw_waits_leave : ∀ w : W, dw_waits (dw_leave w) = false;
  dw_waits_notify : ∀ w : W, dw_waits (dw_notify w) = false;
}.

Record SendError := mkSendError {}.
Record RecvError := mkRecvError {}.

(** [Mailbox::DEFAULT_CAPACITY]. *)
Definition DEFAULT_CAPACITY : nat := 16.

(** [wrapping_add] and [wrapping_sub] on [isize]. *)
Definition isize_wrap (z : Z) : Z := to_isize (wrap64 z).

Section Channel.
Context {M E W : Type} `{AsyncEvent E} `{DiatomicWaker W} (capacity : nat).

(** The future of [send]: [msg_fn] is taken by each evaluation of the
    predicate and put back when the queue is full. *)
Inductive SendPc :=
| SPoll (msg_fn : option M)
| SPublish (n : nat)
| SNotify
| SCount
| SDone (r : result unit SendError).

Record Send := mkSend { s_owner : nat; s_pc : SendPc }.

(** The receiver, between calls or in [recv]. *)
Inductive RecvPc :=
| RIdle
| RPoll
| RGot (msg : M)
| RCall (msg : M)
| RDrop
| RNotifySender
| RRunning
| RDone (r : result unit RecvError)
| RDropped.

(** The rest of a call that closes the channel. *)
Inductive Closer := KNotifyReceiver (senders_too : bool) | KNotifyAll | KDone.

Record Chan := mkChan {
  queue : MQueue M;
  receiver_signal : W;
  sender_signal : E;
  sender_count : Z;
  handles : list bool;
  sends : list Send;
  recv : RecvPc;
  future_box : bool;
  closers : list Closer;
  msg_counts : list Z;
  executed : list M;
}.

(** [Receiver::new], with its first sender not made yet, for an executor with
    [threads] threads. *)
Definition channel_new (threads : nat) : outcome Chan :=
  let! _ := rust_assert (1 <=? Z.of_nat capacity)%Z in
  let! _ := rust_assert (Z.of_nat capacity <=? 2 ^ 63)%Z in
  Done (mkChan mq_new dw_new ev_new 0 [] [] RIdle true [] (replicate threads 0%Z) []).

Definition set_queue (q : MQueue M) (s : Chan) : Chan :=
  mkChan q (receiver_signal s) (sender_signal s) (sender_count s) (handles s) (sends s) (recv s)
    (future_box s) (closers s) (msg_counts s) (executed s).
Definition set_receiver_signal (w : W) (s : Chan) : Chan :=
  mkChan (queue s) w (sender_signal s) (sender_count s) (handles s) (sends s) (recv s)
    (future_box s) (closers s) (msg_counts s) (executed s).
Definition set_sender_signal (e : E) (s : Chan) : Chan :=
  mkChan (queue s) (receiver_signal s) e (sender_count s) (handles s) (sends s) (recv s)
    (future_box s) (closers s) (msg_counts s) (executed s).
Definition set_handles (n : Z) (hs : list bool) (s : Chan) : Chan :=
  mkChan (queue s) (receiver_signal s) (sender_signal s) n hs (sends s) (recv s)
    (future_box s) (closers s) (msg_counts s) (executed s).
Definition set_sends (l : list Send) (s : Chan) : Chan :=
  mkChan (queue s) (receiver_signal s) (sender_signal s) (sender_count s) (handles s) l (recv s)
    (future_box s) (closers s) (msg_counts s) (executed s).
Definition set_recv (r : RecvPc) (s : Chan) : Chan :=
  mkChan (queue s) (receiver_signal s) (sender_signal s) (sender_count s) (handles s) (sends s) r
    (future_box s) (closers s) (msg_counts s) (executed s).
Definition set_box (b : bool) (s : Chan) : Chan :=
  mkChan (queue s) (receiver_signal s) (sender_signal s) (sender_count s) (handles s) (sends s)
    (recv s) b (closers s) (msg_counts s) (executed s).
Definition set_closers (l : list Closer) (s : Chan) : Chan :=
  mkChan (queue s) (receiver_signal s) (sender_signal s) (sender_count s) (handles s) (sends s)
    (recv s) (future_box s) l (msg_counts s) (executed s).
Definition set_executed (l : list M) (s : Chan) : Chan :=
  mkChan (queue s) (receiver_signal s) (sender_signal s) (sender_count s) (handles s) (sends s)
    (recv s) (future_box s) (closers s) (msg_counts s) l.
(** [THREAD_MSG_COUNT.set(THREAD_MSG_COUNT.get().wrapping_add(d))]. *)
Definition add_msg_count (t : nat) (d : Z) (s : Chan) : Chan :=
  mkChan (queue s) (receiver_signal s) (sender_signal s) (sender_count s) (handles s) (sends s)
    (recv s) (future_box s) (closers s) (alter (λ z, isize_wrap (z + d)) t (msg_counts s))
    (executed s).

Definition set_send (i : nat) (x : Send) (pc : SendPc) (s : Chan) : Chan :=
  set_sends (<[i := mkSend (s_owner x) pc]> (sends s)) s.

(** ** [Sender::send] *)

(** A call on the handle [h]. *)
Definition send (h : nat) (m : M) (s : Chan) : Chan :=
  set_sends (sends s ++ [mkSend h (SPoll (Some m))]) s.

(** The next access of the [i]-th send, on the thread [t]. *)
Definition send_step (t i : nat) (s : Chan) : option (outcome Chan) :=
  x ← sends s !! i;
  match s_pc x with
  | SPoll msg_fn => Some
      (let! m := unwrap msg_fn in
       match mq_claim capacity m (queue s) with
       | Ok (n, q) =>
           Done (set_send i x (SPublish n)
             (set_sender_signal (ev_leave i (sender_signal s)) (set_queue q s)))
       | Err Full =>
           Done (set_send i x (SPoll (Some m))
             (set_sender_signal (ev_wait i (sender_signal s)) s))
       | Err PushClosed =>
           Done (set_send i x (SDone (Err mkSendError))
             (set_sender_signal (ev_leave i (sender_signal s)) s))
       end)
  | SPublish n => Some (Done (set_send i x SNotify (set_queue (mq_publish n (queue s)) s)))
  | SNotify => Some (Done (set_send i x SCount
      (set_receiver_signal (dw_notify (receiver_signal s)) s)))
  | SCount => Some (Done (set_send i x (SDone (Ok tt)) (add_msg_count t 1 s)))
  | SDone _ => None
  end.

(** ** [Receiver::recv] *)

Definition recv_step (t : nat) (s : Chan) : option (outcome Chan) :=
  match recv s with
  | RIdle | RDone _ => Some (Done (set_recv RPoll s))
  | RPoll => Some (Done
      match mq_pop (queue s) with
      | Ok (m, q) =>
          set_recv (RGot m) (set_receiver_signal (dw_leave (receiver_signal s)) (set_queue q s))
      | Err Empty => set_receiver_signal (dw_wait (receiver_signal s)) s
      | Err PopClosed =>
          set_recv (RDone (Err mkRecvError))
            (set_receiver_signal (dw_leave (receiver_signal s)) s)
      end)
  | RGot m => Some (Done (set_recv (RCall m) (add_msg_count t (-1) s)))
  | RCall m => Some
      (let! _ := rust_assert (future_box s) in
       Done (set_recv RDrop (set_box false (set_executed (executed s ++ [m]) s))))
  | RDrop => Some (Done (set_recv RNotifySender (set_queue (mq_release (queue s)) s)))
  | RNotifySender => Some (Done (set_recv RRunning
      (set_sender_signal (ev_notify_one (sender_signal s)) s)))
  | RRunning => Some (Done (set_recv (RDone (Ok tt)) (set_box true s)))
  | RDropped => None
  end.

(** ** Handles and closing *)

Definition live (h : nat) (s : Chan) : bool := default false (handles s !! h).
Definition in_flight (h : nat) (x : Send) : bool :=
  (s_owner x =? h)%nat && match s_pc x with SDone _ => false | _ => true end.
Definition receiver_free (s : Chan) : bool :=
  match recv s with RIdle | RDone _ => true | _ => false end.
(** The future of [recv], with the receiver, can be dropped where it awaits. *)
Definition receiver_droppable (s : Chan) : bool :=
  match recv s with RIdle | RDone _ | RPoll | RRunning => true | _ => false end.

(** [Receiver::sender] and [Sender::clone]; the reference count of the shared
    data, which has one reference per handle, aborts beyond [isize::MAX]. *)
Definition new_handle (s : Chan) : option Chan :=
  if (Z.of_nat (length (filter (λ b, b = true) (handles s))) <? 2 ^ 63)%Z
  then Some (set_handles (wrap64 (sender_count s + 1)) (handles s ++ [true]) s)
  else None.

(** [Sender::close]. *)
Definition sender_close (s : Chan) : Chan :=
  set_closers (closers s ++ [KNotifyReceiver true]) (set_queue (mq_close (queue s)) s).

(** [Receiver::close]. *)
Definition receiver_close (s : Chan) : Chan :=
  if negb (mq_closed (queue s)) then
    set_closers (closers s ++ [KNotifyAll]) (set_queue (mq_close (queue s)) s)
  else s.

(** [Receiver::drop]. *)
Definition receiver_drop (s : Chan) : Chan :=
  set_recv RDropped
    (set_receiver_signal (dw_leave (receiver_signal s))
      (set_closers (closers s ++ [KNotifyAll]) (set_queue (mq_close (queue s)) s))).

(** [Sender::drop]. *)
Definition sender_drop (h : nat) (s : Chan) : Chan :=
  let old := sender_count s in
  let s := set_handles (wrap64 (sender_count s - 1)) (<[h := false]> (handles s)) s in
  if (old =? 1)%Z && negb (mq_closed (queue s)) then
    set_closers (closers s ++ [KNotifyReceiver false]) (set_queue (mq_close (queue s)) s)
  else s.

Definition closer_step (i : nat) (s : Chan) : option Chan :=
  k ← closers s !! i;
  match k with
  | KNotifyReceiver b => Some
      (set_closers (<[i := if b : bool then KNotifyAll else KDone]> (closers s))
        (set_receiver_signal (dw_notify (receiver_signal s)) s))
  | KNotifyAll => Some
      (set_closers (<[i := KDone]> (closers s))
        (set_sender_signal (ev_notify_all (sender_signal s)) s))
  | KDone => None
  end.

(** ** Steps *)

Inductive chan_step (s : Chan) (o : outcome Chan) : Prop :=
| chan_send h m : live h s = true → o = Done (send h m s) → chan_step s o
| chan_send_step t i : t < length (msg_counts s) → send_step t i s = Some o → chan_step s o
| chan_recv_step t : t < length (msg_counts s) → recv_step t s = Some o → chan_step s o
| chan_new_handle s' : new_handle s = Some s' → o = Done s' → chan_step s o
| chan_sender_close h : live h s = true → o = Done (sender_close s) → chan_step s o
| chan_receiver_close : receiver_free s = true → o = Done (receiver_close s) → chan_step s o
| chan_receiver_drop : receiver_droppable s = true → o = Done (receiver_drop s) → chan_step s o
| chan_sender_drop h : live h s = true → Forall (λ x, in_flight h x = false) (sends s) →
    o = Done (sender_drop h s) → chan_step s o
| chan_closer i s' : closer_step i s = Some s' → o = Done s' → chan_step s o.
End Channel.

Arguments SendPc : clear implicits.
Arguments Send : clear implicits.
Arguments RecvPc : clear implicits.
Arguments Chan : clear implicits.

(** ** Mailboxes: a mailbox is the receiver, an address is a sender handle *)

Section Mailbox.
Context {M E W : Type} `{AsyncEvent E} `{DiatomicWaker W}.

Definition Mailbox_with_capacity (capacity threads : nat) : outcome (Chan M E W) :=
  channel_new capacity threads.
Definition Mailbox_new (threads : nat) : outcome (Chan M E W) :=
  channel_new DEFAULT_CAPACITY threads.

Definition Mailbox_default (threads : nat) : outcome (Chan M E W) := Mailbox_new threads.

(** [Mailbox::address], the clone of an [Address] and the conversions into an
    [Address]: each makes one more handle. *)
Definition address (s : Chan M E W) : option (Chan M E W) := new_handle s.
Definition Address_clone (s : Chan M E W) : option (Chan M E W) := new_handle s.
Definition Address_from_address (s : Chan M E W) : option (Chan M E W) := Address_clone s.
Definition Address_from_mailbox (s : Chan M E W) : option (Chan M E W) := address s.

(** The constructor panics exactly on the capacities that its doc names. *)
Lemma Mailbox_with_capacity_panics capacity threads :
  Mailbox_with_capacity capacity threads = Panicked ↔
  capacity = 0 ∨ (2 ^ 63 < Z.of_nat capacity)%Z.
Proof.
  unfold Mailbox_with_capacity, channel_new, rust_assert.
  destruct (Z.leb_spec 1 (Z.of_nat capacity)), (Z.leb_spec (Z.of_nat capacity) (2 ^ 63));
    simpl; split; try done; lia.
Qed.
End Mailbox.
