(* ===== verification/MailboxFacts.v ===== *)
(** * The channel of a mailbox: correctness

    Messages are executed in the order in which they were claimed and each
    once; the thread counts add up to the number of messages in the queue; and
    no notification is lost, so that a channel on which nobody can move has
    nothing to receive and no blocked sender. *)

From stdpp Require Import base option list numbers relations.
From Stdlib Require Import ZArith Lia.
From S2P Require Import Prelude Bits Counting ChannelQueue MailboxQueue Channel.

Section Facts.
Context {M E W : Type} `{AsyncEventLaws E} `{DiatomicWakerLaws W}.
Context (capacity : nat).
Implicit Types (s : Chan M E W) (q : MQueue M) (m : M).

(** ** Structure *)

(** The slot of the message that is taken is not released yet. *)
Definition holding (r : RecvPc M) : nat :=
  match r with RGot _ | RCall _ | RDrop => 1 | _ => 0 end.
(** The message that is taken is not called yet. *)
Definition uncalled (r : RecvPc M) : nat := match r with RGot _ | RCall _ => 1 | _ => 0 end.
Definition box_out (r : RecvPc M) : bool :=
  match r with RDrop | RNotifySender | RRunning => true | _ => false end.

Definition idle (x : Send M) : bool := match s_pc x with SDone _ => true | _ => false end.
Definition alive (hs : list bool) : nat := cnt (λ b : bool, if b then 1 else 0) hs.

Record queue_ok (q : MQueue M) (held : nat) : Prop := {
  qo_released : mq_taken q = mq_released q + held;
  qo_taken : mq_taken q ≤ length (mq_claims q);
  qo_room : length (mq_claims q) ≤ mq_released q + capacity;
  qo_ready : ∀ n c, n < mq_taken q → mq_claims q !! n = Some c → c.2 = true;
}.

Record struct_ok s : Prop := {
  so_queue : queue_ok (queue s) (holding (recv s));
  so_box : recv s ≠ RDropped → future_box s = negb (box_out (recv s));
  so_msg : ∀ i x o, sends s !! i = Some x → s_pc x = SPoll o → is_Some o;
  so_owner : ∀ n m, mq_claims (queue s) !! n = Some (m, false) →
    ∃ i x, sends s !! i = Some x ∧ s_pc x = SPublish n;
  so_got : ∀ m, recv s = RGot m ∨ recv s = RCall m →
    mq_claims (queue s) !! pred (mq_taken (queue s)) = Some (m, true);
  so_executed : executed s =
    take (mq_taken (queue s) - uncalled (recv s)) (fst <$> mq_claims (queue s));
  so_count : sender_count s = Z.of_nat (alive (handles s));
  so_alive : (Z.of_nat (alive (handles s)) ≤ 2 ^ 63)%Z;
  so_flight : ∀ i x, sends s !! i = Some x → idle x = false → live (s_owner x) s = true;
  so_closed : ∀ e, recv s = RDone (Err e) →
    mq_closed (queue s) = true ∧ mq_taken (queue s) = length (mq_claims (queue s));
}.

(** ** Wake-ups *)

(** The send will be polled, and is not waiting for a notification. *)
Definition ready s (i : nat) : nat :=
  match sends s !! i with
  | Some (mkSend _ (SPoll _)) => if ev_waits (sender_signal s) i then 0 else 1
  | _ => 0
  end.
Definition readys s : nat := cnt (ready s) (seq 0 (length (sends s))).
Definition notifying (r : RecvPc M) : nat := match r with RNotifySender => 1 | _ => 0 end.

Definition closer_all (k : Closer) : Prop := k = KNotifyAll ∨ k = KNotifyReceiver true.
Definition closer_receiver (k : Closer) : Prop := ∃ b, k = KNotifyReceiver b.

Record wake_ok s : Prop := {
  wo_waits : ∀ i, ev_waits (sender_signal s) i = true →
    ∃ x o, sends s !! i = Some x ∧ s_pc x = SPoll o;
  wo_senders : ∀ i, ev_waits (sender_signal s) i = true → mq_closed (queue s) = false →
    mq_released (queue s) + capacity ≤
      length (mq_claims (queue s)) + readys s + notifying (recv s);
  wo_closed : ∀ i, ev_waits (sender_signal s) i = true → mq_closed (queue s) = true →
    ∃ j k, closers s !! j = Some k ∧ closer_all k;
  wo_receiver : dw_waits (receiver_signal s) = true → recv s = RPoll ∧
    (mq_pop (queue s) = Err Empty ∨
     (∃ i x, sends s !! i = Some x ∧ s_pc x = SNotify) ∨
     ∃ j k, closers s !! j = Some k ∧ closer_receiver k);
}.

(** ** Counts *)

(** The message is claimed and not counted yet. *)
Definition uncounted (x : Send M) : nat :=
  match s_pc x with SPublish _ | SNotify | SCount => 1 | _ => 0 end.
Definition got (r : RecvPc M) : nat := match r with RGot _ => 1 | _ => 0 end.
Definition zsum (l : list Z) : Z := foldr Z.add 0%Z l.

(** Up to a multiple of the modulus, as the counts wrap. *)
Definition count_ok s : Prop := ∃ k,
  (zsum (msg_counts s) + Z.of_nat (cnt uncounted (sends s)) =
   Z.of_nat (mq_len (queue s) + got (recv s)) + k * 2 ^ 64)%Z.

(** ** The queue *)

Lemma mq_claim_inv q held m n q' :
  queue_ok q held → mq_claim capacity m q = Ok (n, q') →
  queue_ok q' held ∧ n = length (mq_claims q) ∧ mq_claims q' = mq_claims q ++ [(m, false)] ∧
  mq_taken q' = mq_taken q ∧ mq_released q' = mq_released q ∧
  mq_closed q = false ∧ mq_closed q' = false.
Proof.
  intros [Hr Ht Hroom Hrd]. unfold mq_claim. destruct (mq_closed q) eqn:Hc; [done|].
  destruct (mq_full capacity q) eqn:Hf; [done|]. intros [= <- <-].
  unfold mq_full in Hf. apply Nat.leb_gt in Hf.
  split_and!; try done. split; simpl; rewrite ?length_app; simpl; try done; [lia|lia|].
  intros k c Hk Hc'. apply lookup_app_Some in Hc' as [Hc'|[Hge _]]; [by eapply Hrd|lia].
Qed.

(** A claim is not published, so that an empty queue stays so. *)
Lemma claim_empty q held m n q' : queue_ok q held → mq_claim capacity m q = Ok (n, q') →
  mq_pop q = Err Empty → mq_pop q' = Err Empty.
Proof.
  intros Hq Hcl. destruct (mq_claim_inv _ _ _ _ _ Hq Hcl) as (_ & _ & Hc & Ht & _ & Hop & Hop').
  unfold mq_pop. rewrite Hc, Ht, Hop, Hop'. intros Hemp.
  destruct (mq_claims q !! mq_taken q) as [[m' []]|] eqn:Hl; [done|..].
  - by rewrite (lookup_app_l_Some _ _ _ _ Hl).
  - apply lookup_ge_None in Hl. destruct Hq as [_ Htl _ _].
    rewrite lookup_app_r by lia. by replace (mq_taken q - length (mq_claims q)) with 0 by lia.
Qed.

Lemma claim_full q held m : queue_ok q held → mq_claim capacity m q = Err Full →
  length (mq_claims q) = mq_released q + capacity ∧ mq_closed q = false.
Proof.
  intros [Hr Ht Hroom Hrd]. unfold mq_claim. destruct (mq_closed q); [done|].
  unfold mq_full. destruct (Nat.leb_spec capacity (length (mq_claims q) - mq_released q));
    [|done]. split; [lia|done].
Qed.

Lemma claim_closed q m : mq_claim capacity m q = Err PushClosed → mq_closed q = true.
Proof. unfold mq_claim. destruct (mq_closed q); [done|]. by case_match. Qed.

Lemma publish_lookup q n k c : mq_claims (mq_publish n q) !! k = Some c →
  ∃ c', mq_claims q !! k = Some c' ∧ c.1 = c'.1 ∧ (c'.2 = true → c.2 = true) ∧
    (k = n → c.2 = true) ∧ (k ≠ n → c = c').
Proof.
  simpl. destruct (decide (k = n)) as [->|Hne].
  - rewrite list_lookup_alter_eq. intros (c' & Hc & ->)%fmap_Some_1. by exists c'.
  - rewrite list_lookup_alter_ne by done. intros Hc. exists c. by split_and!.
Qed.

Lemma publish_msgs q n : (mq_claims (mq_publish n q)).*1 = (mq_claims q).*1.
Proof.
  apply list_eq. intros k. rewrite !list_lookup_fmap. simpl.
  destruct (decide (k = n)) as [->|Hne].
  - rewrite list_lookup_alter_eq. by destruct (mq_claims q !! n).
  - by rewrite list_lookup_alter_ne.
Qed.

Lemma publish_ok q held n : queue_ok q held → queue_ok (mq_publish n q) held.
Proof.
  intros [Hr Ht Hroom Hrd]. split; simpl; rewrite ?length_alter; try done.
  intros k c Hk Hc. apply publish_lookup in Hc as (c' & Hc & _ & Hb & _).
  apply Hb. by eapply Hrd.
Qed.

Lemma pop_ok q m q' : queue_ok q 0 → mq_pop q = Ok (m, q') →
  queue_ok q' 1 ∧ mq_claims q !! mq_taken q = Some (m, true) ∧ mq_claims q' = mq_claims q ∧
  mq_taken q' = S (mq_taken q) ∧ mq_released q' = mq_released q ∧ mq_closed q' = mq_closed q.
Proof.
  intros [Hr Ht Hroom Hrd]. unfold mq_pop.
  destruct (mq_claims q !! mq_taken q) as [[m' b]|] eqn:Hh; [|by destruct (mq_closed q)].
  destruct b; [|done]. intros [= <- <-]. split_and!; try done.
  apply lookup_lt_Some in Hh as Hlt. split; simpl; [lia|lia|done|].
  intros n c Hn Hc. destruct (decide (n = mq_taken q)) as [->|]; [by simplify_eq|].
  eapply Hrd; [|done]. lia.
Qed.

Lemma pop_closed q held : queue_ok q held → mq_pop q = Err PopClosed →
  mq_closed q = true ∧ mq_taken q = length (mq_claims q).
Proof.
  intros [Hr Ht _ _]. unfold mq_pop. destruct (mq_claims q !! mq_taken q) as [[m b]|] eqn:Hh;
    [by destruct b|]. apply lookup_ge_None in Hh. destruct (mq_closed q); [|done].
  split; [done|lia].
Qed.

Lemma release_ok q : queue_ok q 1 → queue_ok (mq_release q) 0.
Proof. intros [Hr Ht Hroom Hrd]. split; simpl; [lia|done|lia|done]. Qed.

Lemma close_ok q held : queue_ok q held → queue_ok (mq_close q) held.
Proof. intros [Hr Ht Hroom Hrd]. by split. Qed.

(** ** Preservation of the structure *)

(** Signals, closers and counts do not matter to it. *)
Lemma struct_ext s s' : struct_ok s → queue s' = queue s → recv s' = recv s →
  future_box s' = future_box s → sends s' = sends s → executed s' = executed s →
  sender_count s' = sender_count s → handles s' = handles s → struct_ok s'.
Proof.
  intros [? ? ? ? ? ? ? ? ? ?] Hq Hr Hb Hs He Hc Hh. unfold live in *.
  split; unfold live; rewrite ?Hq, ?Hr, ?Hb, ?Hs, ?He, ?Hc, ?Hh; done.
Qed.

(** One send moves on, and the queue with it. *)
Lemma struct_send s i x pc q :
  struct_ok s → sends s !! i = Some x → s_pc x = pc →
  ∀ pc', (∀ o, pc' = SPoll o → is_Some o) → idle x = false →
  queue_ok q (holding (recv s)) → mq_taken q = mq_taken (queue s) →
  mq_closed q = mq_closed (queue s) →
  ((mq_claims q).*1 = (mq_claims (queue s)).*1 ∨ mq_closed (queue s) = false) →
  (∀ n c, mq_claims (queue s) !! n = Some c → ∃ c', mq_claims q !! n = Some c' ∧
     c'.1 = c.1 ∧ (c.2 = true → c'.2 = true)) →
  (∀ n m, mq_claims q !! n = Some (m, false) →
     pc' = SPublish n ∨ pc ≠ SPublish n ∧ mq_claims (queue s) !! n = Some (m, false)) →
  struct_ok (set_send i x pc' (set_queue q s)).
Proof.
  intros [Hq Hbox Hmsg Hown Hgot Hex Hcnt Hal Hfl Hcl] Hi Hpc pc' Hpoll Hidle Hq' Htk Hclo
    Hgrow Hkeep Hunp.
  split; simpl; try done.
  - intros j y o Hj Hy. apply list_lookup_insert_Some in Hj as [(<- & <- & _)|[Hne Hj]].
    + by apply Hpoll.
    + by eapply Hmsg.
  - intros n m Hn. destruct (Hunp n m Hn) as [->|[Hpn Hold]].
    + exists i. eexists. split; [apply list_lookup_insert_eq; by eapply lookup_lt_Some|done].
    + destruct (Hown n m Hold) as (j & y & Hj & Hy). exists j, y. split; [|done].
      rewrite list_lookup_insert_ne; [done|]. intros ->. congruence.
  - intros m Hm. destruct (Hkeep _ _ (Hgot m Hm)) as ([m' b] & Hc & Hc1 & Hc2).
    rewrite Htk. simpl in *. subst m'. by rewrite Hc, Hc2.
  - rewrite Hex, Htk. apply list_eq. intros k.
    destruct (decide (k < mq_taken (queue s) - uncalled (recv s))) as [Hk|Hk].
    + rewrite !lookup_take_lt, !list_lookup_fmap by lia.
      destruct Hq as [_ Htl _ _].
      destruct (lookup_lt_is_Some_2 (mq_claims (queue s)) k) as [c Hc]; [lia|].
      destruct (Hkeep _ _ Hc) as (c' & -> & Hc1 & _). rewrite Hc. simpl. by rewrite Hc1.
    + by rewrite !lookup_take_ge by lia.
  - intros j y Hj Hy. unfold live. simpl. apply list_lookup_insert_Some in Hj as
      [(<- & <- & _)|[Hne Hj]]; [by apply (Hfl i x)|by eapply Hfl].
  - intros e He. destruct (Hcl e He) as [Hc1 Hc2]. rewrite Hclo, Htk. split; [done|].
    destruct Hgrow as [Heq|Hf]; [|congruence].
    apply (f_equal length) in Heq. rewrite !length_fmap in Heq. lia.
Qed.

Lemma struct_send_step s t i s' :
  struct_ok s → send_step capacity t i s = Some (Done s') → struct_ok s'.
Proof.
  intros Hs. unfold send_step. destruct (sends s !! i) as [x|] eqn:Hi; [|done]. simpl.
  pose proof (so_queue _ Hs) as Hq.
  destruct (s_pc x) as [o|n| | |r] eqn:Hpc; [..|done]; intros Hst; simplify_eq.
  - destruct (so_msg _ Hs _ _ _ Hi Hpc) as [m ->]. simpl in Hst.
    destruct (mq_claim capacity m (queue s)) as [[n q]|[|]] eqn:Hcl; simplify_eq.
    + destruct (mq_claim_inv _ _ _ _ _ Hq Hcl) as (Hq' & -> & Hc & Ht & Hr & Hop & Hop').
      eapply struct_ext; [eapply (struct_send s i x _ q Hs Hi Hpc (SPublish _))|..]; try done.
      * unfold idle. by rewrite Hpc.
      * by rewrite Hop.
      * by right.
      * intros k c Hk. exists c. rewrite Hc. split; [by apply lookup_app_l_Some|done].
      * intros k m' Hk. rewrite Hc in Hk. apply lookup_app_Some in Hk as [Hk|[Hge Hk]].
        -- right. split; [congruence|done].
        -- apply list_lookup_singleton_Some in Hk as [Hk _]. left. f_equal. lia.
    + eapply struct_ext; [eapply (struct_send s i x _ (queue s) Hs Hi Hpc (SPoll (Some m)))|..];
        try done; try (by intros ? [= <-]); try (by unfold idle; rewrite Hpc); eauto.
    + eapply struct_ext; [eapply (struct_send s i x _ (queue s) Hs Hi Hpc (SDone _))|..];
        try done; try (by intros ? [= <-]); try (by unfold idle; rewrite Hpc); eauto.
  - eapply struct_ext; [eapply (struct_send s i x _ (mq_publish n (queue s)) Hs Hi Hpc SNotify)|..];
      try done.
    + unfold idle. by rewrite Hpc.
    + by apply publish_ok.
    + left. apply publish_msgs.
    + intros k c Hk. simpl. destruct (decide (k = n)) as [->|Hne].
      * rewrite list_lookup_alter_eq, Hk. by eexists.
      * rewrite list_lookup_alter_ne by done. by exists c.
    + intros k m' Hk. apply publish_lookup in Hk as (c' & Hk & _ & _ & Hn & Hne). simpl in *.
      right. destruct (decide (k = n)) as [->|Hkn]; [by specialize (Hn eq_refl)|].
      rewrite Hk, Hne by done. split; congruence.
  - eapply struct_ext; [eapply (struct_send s i x _ (queue s) Hs Hi Hpc SCount)|..]; try done; try (by intros ? [= <-]); try (by unfold idle; rewrite Hpc); eauto.
  - eapply struct_ext; [eapply (struct_send s i x _ (queue s) Hs Hi Hpc (SDone (Ok tt)))|..];
      try done; try (by intros ? [= <-]); try (by unfold idle; rewrite Hpc); eauto.
Qed.

Lemma struct_recv_step s t s' :
  struct_ok s → recv_step t s = Some (Done s') → struct_ok s'.
Proof.
  intros Hs. pose proof Hs as [Hq Hbox Hmsg Hown Hgot Hex Hcnt Hal Hfl Hcl].
  unfold recv_step. destruct (recv s) as [| |m|m| | | |r|] eqn:Hr; [..|done]; simpl in *;
    intros Hst; simplify_eq; try pose proof (Hbox ltac:(done)) as Hb.
  - split; simpl; rewrite ?Hr; try done. by intros m [|].
  - destruct (mq_pop (queue s)) as [[m q]|[|]] eqn:Hp; simplify_eq.
    + destruct (pop_ok _ _ _ Hq Hp) as (Hq' & Hh & Hc & Ht & Hrl & Hclo).
      split; simpl; rewrite ?Hc, ?Ht; try done.
      by intros m' [[= <-]|].
    + eapply struct_ext; [exact Hs|done..].
    + destruct (pop_closed _ _ Hq Hp). split; simpl; try done. by intros m [|].
  - split; simpl; try done. intros m' [|[= <-]]; [done|]. apply Hgot. by left.
  - rewrite Hb in Hst. simpl in Hst. simplify_eq.
    split; simpl; try done; [by intros m' [|]|].
    rewrite Hex. destruct Hq as [Hrel Htl _ _]. simpl in *.
    destruct (mq_taken (queue s)) as [|k] eqn:Hk; [lia|].
    rewrite !Nat.sub_0_r, Nat.sub_1_r. simpl. symmetry. apply take_S_r.
    pose proof (Hgot m (or_intror eq_refl)) as Hg. simpl in Hg. by rewrite list_lookup_fmap, Hg.
  - split; simpl; try done; [by apply release_ok|]. by intros m [|].
  - split; simpl; try done. by intros m [|].
  - split; simpl; try done. by intros m [|].
  - split; simpl; try done. by intros m [|].
Qed.

Lemma alive_app hs b : alive (hs ++ [b]) = alive hs + if b then 1 else 0.
Proof. unfold alive. by rewrite cnt_snoc. Qed.

Lemma alive_filter hs : length (filter (λ b, b = true) hs) = alive hs.
Proof.
  induction hs as [|[] hs IH]; [done|..].
  - rewrite filter_cons_True by done. simpl. by f_equal.
  - by rewrite filter_cons_False.
Qed.

Lemma live_lookup h s : live h s = true ↔ handles s !! h = Some true.
Proof. unfold live. destruct (handles s !! h) as [[]|]; simpl; split; congruence. Qed.

Lemma alive_drop hs h : hs !! h = Some true → alive (<[h := false]> hs) + 1 = alive hs.
Proof. intros Hh. pose proof (cnt_insert (λ b : bool, if b then 1 else 0) _ _ _ false Hh). simpl in *. unfold alive. lia. Qed.

(** Closing keeps the structure, and so does anything done to the signals. *)
Lemma struct_close s s' : struct_ok s → queue s' = mq_close (queue s) → recv s' = recv s →
  future_box s' = future_box s → sends s' = sends s → executed s' = executed s →
  sender_count s' = sender_count s → handles s' = handles s → struct_ok s'.
Proof.
  intros [? ? ? ? ? ? ? ? ? Hcl] Hq Hr Hb Hs He Hc Hh. unfold live in *.
  split; unfold live; rewrite ?Hq, ?Hr, ?Hb, ?Hs, ?He, ?Hc, ?Hh; try done.
  - by apply close_ok.
  - intros e Hd. split; [done|]. by apply (Hcl e).
Qed.

Lemma new_handle_ok s s' : struct_ok s → new_handle s = Some s' → struct_ok s'.
Proof.
  intros [? ? ? ? ? ? Hcnt Hal Hfl ?]. unfold new_handle. rewrite alive_filter.
  destruct (Z.ltb_spec (Z.of_nat (alive (handles s))) (2 ^ 63)); [|done]. intros [= <-].
  split; simpl; try done.
  - rewrite alive_app, Hcnt, wrap_small by lia. lia.
  - rewrite alive_app. lia.
  - intros i x Hi Hx. specialize (Hfl i x Hi Hx). apply live_lookup.
    apply live_lookup in Hfl. by apply lookup_app_l_Some.
Qed.

Lemma drop_handle_ok s h : struct_ok s → live h s = true →
  Forall (λ x, in_flight h x = false) (sends s) →
  struct_ok (set_handles (wrap64 (sender_count s - 1)) (<[h := false]> (handles s)) s) ∧
  (sender_count s = 1%Z → Forall (λ x, idle x = true) (sends s)).
Proof.
  intros [? ? ? ? ? ? Hcnt Hal Hfl ?] Hh Hno. apply live_lookup in Hh.
  pose proof (alive_drop _ _ Hh) as Hd. split.
  - split; simpl; try done.
    + rewrite Hcnt, wrap_small by lia. lia.
    + lia.
    + intros i x Hi Hx. specialize (Hfl i x Hi Hx). apply live_lookup. simpl.
      apply live_lookup in Hfl. rewrite list_lookup_insert_ne; [done|]. intros ->.
      rewrite Forall_lookup in Hno. specialize (Hno i x Hi). unfold in_flight in Hno.
      rewrite Nat.eqb_refl in Hno. unfold idle in Hx. by destruct (s_pc x).
  - intros Hone. apply Forall_lookup. intros i x Hi. destruct (idle x) eqn:Hx; [done|].
    specialize (Hfl i x Hi Hx). apply live_lookup in Hfl.
    destruct (decide (s_owner x = h)) as [He|Hne].
    + rewrite Forall_lookup in Hno. specialize (Hno i x Hi). unfold in_flight in Hno.
      rewrite He, Nat.eqb_refl in Hno. unfold idle in Hx. by destruct (s_pc x).
    + assert (<[h := false]> (handles s) !! s_owner x = Some true) as Hl
        by (by rewrite list_lookup_insert_ne).
      apply (cnt_lookup (λ b : bool, if b then 1 else 0)) in Hl.
      unfold alive in *. lia.
Qed.

Lemma struct_step s s' : struct_ok s → chan_step capacity s (Done s') → struct_ok s'.
Proof.
  intros Hs [h m Hl [= ->]|t i Ht Hst|t Ht Hst|s1 Hst [= ->]|h Hl [= ->]|Hl [= ->]|Hl [= ->]|
    h Hl Hno [= ->]|i s1 Hst [= ->]].
  - destruct Hs as [? ? Hmsg Hown ? ? ? ? Hfl ?]. split; simpl; try done.
    + intros i x o Hi Hx. apply lookup_app_Some in Hi as [Hi|[_ Hi]]; [by eapply Hmsg|].
      apply list_lookup_singleton_Some in Hi as [_ <-]. injection Hx as <-. by eexists.
    + intros n m' Hn. destruct (Hown n m' Hn) as (i & x & Hi & Hx). exists i, x.
      split; [by apply lookup_app_l_Some|done].
    + intros i x Hi Hx. apply lookup_app_Some in Hi as [Hi|[_ Hi]]; [by eapply Hfl|].
      by apply list_lookup_singleton_Some in Hi as [_ <-].
  - by eapply struct_send_step.
  - by eapply struct_recv_step.
  - by eapply new_handle_ok.
  - by eapply struct_close.
  - unfold receiver_close. destruct (negb _); [by eapply struct_close|done].
  - destruct Hs as [Hq Hbox ? ? ? Hex ? ? ? ?]. unfold receiver_droppable in Hl.
    destruct (recv s) eqn:Hr; try done; (split; simpl; try done; [by apply close_ok|by intros ? [|]]).
  - unfold sender_drop. destruct (drop_handle_ok s h Hs Hl Hno) as [Hs' _].
    destruct (_ && _); [by eapply struct_close|done].
  - unfold closer_step in Hst. destruct (closers s !! i) as [[b| |]|]; simplify_eq/=;
      by eapply struct_ext.
Qed.

(** No unwrap fails. *)
Lemma chan_no_panic s o : struct_ok s → chan_step capacity s o → ∃ s', o = Done s'.
Proof.
  intros Hs [h m Hl ->|t i Ht Hst|t Ht Hst|s1 Hst ->|h Hl ->|Hl ->|Hl ->|h Hl Hno ->|i s1 Hst ->];
    eauto.
  - revert Hst. unfold send_step. destruct (sends s !! i) as [x|] eqn:Hi; [|done]. simpl.
    destruct (s_pc x) as [o'|n| | |r] eqn:Hpc; intros Hst; simplify_eq; eauto.
    destruct (so_msg _ Hs _ _ _ Hi Hpc) as [m ->]. simpl.
    destruct (mq_claim capacity m (queue s)) as [[n q]|[|]]; eauto.
  - revert Hst. unfold recv_step. pose proof (so_box _ Hs) as Hb.
    destruct (recv s); intros Hst; simplify_eq; eauto.
    rewrite Hb by done. simpl. eauto.
Qed.

(** ** Preservation of the wake-ups *)

Lemma ready_le s i : ready s i ≤ 1.
Proof. unfold ready. destruct (sends s !! i) as [[o []]|]; try lia. case_match; lia. Qed.

Lemma readys_ext s s' : sends s' = sends s → sender_signal s' = sender_signal s →
  readys s' = readys s.
Proof. intros Hs He. unfold readys, ready. by rewrite Hs, He. Qed.

Lemma ready_set_ne s s' i j : sends s' !! j = sends s !! j →
  ev_waits (sender_signal s') j = ev_waits (sender_signal s) j → i ≠ j → ready s' j = ready s j.
Proof. intros Hs He _. unfold ready. by rewrite Hs, He. Qed.

(** At most the send [i] stops being ready. *)
Lemma readys_set s s' i x pc : sends s !! i = Some x →
  sends s' = <[i := mkSend (s_owner x) pc]> (sends s) →
  (∀ j, j ≠ i → ev_waits (sender_signal s') j = ev_waits (sender_signal s) j) →
  readys s + ready s' i ≤ readys s' + ready s i.
Proof.
  intros Hi Hs He. unfold readys. rewrite Hs, length_insert. apply cnt_change.
  - apply NoDup_seq.
  - apply elem_of_seq. apply lookup_lt_Some in Hi. lia.
  - intros j Hj. rewrite (ready_set_ne s s' i j); try done; [|by apply He].
    by rewrite Hs, list_lookup_insert_ne.
Qed.

(** Waiters, room and pending notifications, when a send moves on. *)
Lemma wake_send s s' i x pc :
  wake_ok s → sends s !! i = Some x → sends s' = <[i := mkSend (s_owner x) pc]> (sends s) →
  closers s' = closers s → recv s' = recv s →
  mq_released (queue s') = mq_released (queue s) → mq_closed (queue s') = mq_closed (queue s) →
  (∀ j, j ≠ i → ev_waits (sender_signal s') j = ev_waits (sender_signal s) j) →
  (ev_waits (sender_signal s') i = true →
     (∃ o, pc = SPoll o) ∧ mq_closed (queue s) = false ∧
     mq_released (queue s) + capacity ≤ length (mq_claims (queue s'))) →
  (mq_closed (queue s) = false →
     mq_released (queue s) + capacity ≤ length (mq_claims (queue s')) ∨
     length (mq_claims (queue s)) + ready s i ≤ length (mq_claims (queue s')) + ready s' i) →
  (dw_waits (receiver_signal s') = true → dw_waits (receiver_signal s) = true ∧
     ((mq_pop (queue s) = Err Empty → mq_pop (queue s') = Err Empty) ∧ s_pc x ≠ SNotify ∨
      pc = SNotify)) →
  wake_ok s'.
Proof.
  intros [Hw Hr Hc Hd] Hi Hs Hk Hrv Hrel Hclo He Hei Hroom Hdw.
  pose proof (lookup_lt_Some _ _ _ Hi) as Hlt.
  pose proof (readys_set s s' i x pc Hi Hs He) as Hrs.
  assert (sends s' !! i = Some (mkSend (s_owner x) pc)) as Hi'
    by (rewrite Hs; by apply list_lookup_insert_eq).
  split.
  - intros j Hj. destruct (decide (j = i)) as [->|Hne].
    + destruct (Hei Hj) as [[o ->] _]. by eexists _, o.
    + rewrite He in Hj by done. destruct (Hw j Hj) as (y & o & Hy & Ho). exists y, o.
      split; [by rewrite Hs, list_lookup_insert_ne|done].
  - intros j Hj Hop. rewrite Hclo in Hop. rewrite Hrel, Hrv.
    destruct (decide (j = i)) as [->|Hne].
    + destruct (Hei Hj) as (_ & _ & Hfull). lia.
    + rewrite He in Hj by done. specialize (Hr j Hj Hop). destruct (Hroom Hop); lia.
  - intros j Hj Hop. rewrite Hclo in Hop. rewrite Hk. destruct (decide (j = i)) as [->|Hne].
    + destruct (Hei Hj) as (_ & Hf & _). congruence.
    + rewrite He in Hj by done. by eapply Hc.
  - intros Hj. destruct (Hdw Hj) as [Hold Hcase]. destruct (Hd Hold) as [Hp Hor].
    split; [by rewrite Hrv|].
    destruct Hcase as [[Hpop Hnn]| ->]; [|right; left; by exists i, (mkSend (s_owner x) SNotify)].
    rewrite Hk. destruct Hor as [Hemp|[(j & y & Hy & Hpc)|Hcl]];
      [left; by apply Hpop| |by right; right].
    right. left. exists j, y. split; [|done]. rewrite Hs, list_lookup_insert_ne; [done|].
    intros ->. congruence.
Qed.

Lemma wake_send_step s t i s' :
  struct_ok s → wake_ok s → send_step capacity t i s = Some (Done s') → wake_ok s'.
Proof.
  intros Hst Hwk. unfold send_step. destruct (sends s !! i) as [x|] eqn:Hi; [|done]. simpl.
  pose proof (so_queue _ Hst) as Hq. pose proof (ready_le s i) as Hle.
  assert (∀ j, j ≠ i → ev_waits (ev_leave i (sender_signal s)) j = ev_waits (sender_signal s) j)
    as Hlv by (intros j Hj; rewrite ev_waits_leave, bool_decide_eq_false_2; done).
  assert (ev_waits (ev_leave i (sender_signal s)) i = false) as Hli
    by (rewrite ev_waits_leave, bool_decide_eq_true_2; done).
  assert ((∀ o, s_pc x ≠ SPoll o) → ready s i = 0 ∧ ev_waits (sender_signal s) i = false) as Hnp.
  { intros Hn. split.
    - unfold ready. rewrite Hi. destruct x as [ow []]; try done. by edestruct Hn.
    - destruct (ev_waits (sender_signal s) i) eqn:Hwi; [|done].
      destruct (wo_waits _ Hwk _ Hwi) as (y & o & Hy & Ho). simplify_eq. by edestruct Hn. }
  destruct (s_pc x) as [o|n| | |r] eqn:Hpc; [..|done]; intros Hdo; simplify_eq.
  - destruct (so_msg _ Hst _ _ _ Hi Hpc) as [m ->]. simpl in Hdo.
    destruct (mq_claim capacity m (queue s)) as [[n q]|[|]] eqn:Hcl; simplify_eq.
    + destruct (mq_claim_inv _ _ _ _ _ Hq Hcl) as (Hq' & -> & Hc & Ht & Hr & Hop & Hop').
      eapply (wake_send s _ i x); simpl; try done.
      * by rewrite Hop.
      * rewrite Hli. done.
      * intros _. right. rewrite Hc, length_app. simpl. lia.
      * intros Hdw. split; [done|]. left. rewrite Hpc. split; [|done].
        intros Hemp. exact (claim_empty _ _ _ _ _ Hq Hcl Hemp).
    + destruct (claim_full _ _ _ Hq Hcl) as [Hfull Hop].
      eapply (wake_send s _ i x); simpl; try done.
      * intros j Hj. by rewrite ev_waits_wait, bool_decide_eq_false_2.
      * intros _. split_and!; [by eexists|done|lia].
      * intros _. left. lia.
      * intros Hdw. split; [done|]. left. rewrite Hpc. by split.
    + pose proof (claim_closed _ _ Hcl) as Hc. eapply (wake_send s _ i x); simpl; try done.
      * rewrite Hli. done.
      * congruence.
      * intros Hdw. split; [done|]. left. rewrite Hpc. by split.
  - destruct Hnp as [Hn0 Hwi]; [done|]. eapply (wake_send s _ i x); simpl; try done.
    + congruence.
    + intros _. right. rewrite length_alter. lia.
    + intros Hdw. split; [done|]. by right.
  - destruct Hnp as [Hn0 Hwi]; [done|]. eapply (wake_send s _ i x); simpl; try done.
    + congruence.
    + intros _. right. lia.
    + by rewrite dw_waits_notify.
  - destruct Hnp as [Hn0 Hwi]; [done|]. eapply (wake_send s _ i x); simpl; try done.
    + congruence.
    + intros _. right. lia.
    + intros Hdw. split; [done|]. left. rewrite Hpc. by split.
Qed.

(** Waiters, room and pending notifications, when no send changes. *)
Lemma wake_ext s s' :
  wake_ok s → sends s' = sends s → sender_signal s' = sender_signal s →
  (∀ j k, closers s !! j = Some k → closers s' !! j = Some k) →
  (mq_closed (queue s') = mq_closed (queue s) ∨
   ∃ j k, closers s' !! j = Some k ∧ closer_all k) →
  (mq_closed (queue s) = true → mq_closed (queue s') = true) →
  mq_claims (queue s') = mq_claims (queue s) →
  mq_released (queue s') + notifying (recv s) ≤ mq_released (queue s) + notifying (recv s') →
  (dw_waits (receiver_signal s') = true → recv s' = RPoll ∧
    (mq_pop (queue s') = Err Empty ∨
     dw_waits (receiver_signal s) = true ∧
       (mq_pop (queue s) = Err Empty → mq_pop (queue s') = Err Empty) ∨
     ∃ j k, closers s' !! j = Some k ∧ closer_receiver k)) →
  wake_ok s'.
Proof.
  intros [Hw Hr Hc Hd] Hs He Hk Hclo Hmono Hcl Hrel Hdw.
  pose proof (readys_ext _ _ Hs He) as Hrs. split.
  - rewrite He, Hs. done.
  - intros i. rewrite He. intros Hi Hop. rewrite Hcl, Hrs.
    destruct (mq_closed (queue s)) eqn:Hop0; [by rewrite Hmono in Hop|].
    specialize (Hr i Hi eq_refl). lia.
  - intros i. rewrite He. intros Hi Hop. destruct Hclo as [Heq|Hex]; [|done].
    rewrite Heq in Hop. destruct (Hc i Hi Hop) as (j & k & Hj & Hka). exists j, k. auto.
  - intros Hj. destruct (Hdw Hj) as [Hp [Hemp|[[Hold Himp]|Hex]]]; [by auto| |by auto].
    split; [done|]. destruct (Hd Hold) as [_ [Hemp|[Hn|(j & k & Hjk & Hkr)]]].
    + left. auto.
    + right. left. by rewrite Hs.
    + right. right. exists j, k. auto.
Qed.

Lemma not_polling s : wake_ok s → recv s ≠ RPoll → dw_waits (receiver_signal s) = false.
Proof.
  intros Hw Hr. destruct (dw_waits (receiver_signal s)) eqn:Hd; [|done].
  by destruct (wo_receiver _ Hw Hd).
Qed.

Lemma wake_recv_step s t s' :
  struct_ok s → wake_ok s → recv_step t s = Some (Done s') → wake_ok s'.
Proof.
  intros Hst Hwk. pose proof (so_queue _ Hst) as Hq. pose proof (not_polling s Hwk) as Hno.
  unfold recv_step. destruct (recv s) as [| |m|m| | | |r|] eqn:Hr; [..|done];
    intros Hdo; simplify_eq; try (specialize (Hno ltac:(done))).
  - eapply wake_ext; [exact Hwk|..]; simpl; try done; [by left|by rewrite Hr|congruence].
  - destruct (mq_pop (queue s)) as [[m q]|[|]] eqn:Hp; simplify_eq.
    + destruct (pop_ok _ _ _ Hq Hp) as (Hq' & Hh & Hc & Ht & Hrl & Hclo).
      eapply wake_ext; [exact Hwk|..]; simpl; rewrite ?Hr, ?Hrl; try done;
        [by left|by rewrite Hclo|by rewrite dw_waits_leave].
    + eapply wake_ext; [exact Hwk|..]; simpl; try done; [by left|by auto].
    + eapply wake_ext; [exact Hwk|..]; simpl; rewrite ?Hr; try done;
        [by left|by rewrite dw_waits_leave].
  - eapply wake_ext; [exact Hwk|..]; simpl; rewrite ?Hr; try done; [by left|congruence].
  - destruct (future_box s); [|done]. simplify_eq/=.
    eapply wake_ext; [exact Hwk|..]; simpl; rewrite ?Hr; try done; [by left|congruence].
  - eapply wake_ext; [exact Hwk|..]; simpl; rewrite ?Hr; try done;
      [by left|simpl; lia|congruence].
  - destruct Hwk as [Hw Hrm Hc Hd]. rewrite Hr in Hrm.
    assert (∀ i, ev_waits (ev_notify_one (sender_signal s)) i = true →
      ev_waits (sender_signal s) i = true ∧ ∃ k, ev_waits (sender_signal s) k = true ∧
      ∀ j, ev_waits (ev_notify_one (sender_signal s)) j =
        negb (bool_decide (j = k)) && ev_waits (sender_signal s) j) as Hone.
    { intros i Hi. pose proof (ev_notify_old _ _ Hi) as Hi0. split; [done|].
      by eapply ev_notify_some. }
    split; simpl.
    + intros i Hi. by apply Hw, Hone.
    + intros i Hi Hop. destruct (Hone i Hi) as [Hi0 (k & Hk & Hall)].
      specialize (Hrm i Hi0 Hop). simpl in Hrm.
      destruct (Hw k Hk) as ([ow pc] & o & Hx & Ho). simpl in Ho. subst pc.
      set (s' := set_recv RRunning (set_sender_signal (ev_notify_one (sender_signal s)) s)).
      assert (readys s + ready s' k ≤ readys s' + ready s k) as Hle.
      { apply cnt_change; [apply NoDup_seq| |].
        - apply elem_of_seq. apply lookup_lt_Some in Hx. simpl. lia.
        - intros j Hj. unfold ready. simpl. rewrite Hall.
          rewrite bool_decide_eq_false_2 by done. done. }
      assert (ready s k = 0) as Hk0 by (unfold ready; by rewrite Hx, Hk).
      assert (ready s' k = 1) as Hk1.
      { unfold ready. simpl. rewrite Hx, Hall. by rewrite bool_decide_eq_true_2. }
      lia.
    + intros i Hi Hop. apply (Hc i); [by apply Hone|done].
    + congruence.
  - eapply wake_ext; [exact Hwk|..]; simpl; rewrite ?Hr; try done; [by left|congruence].
  - eapply wake_ext; [exact Hwk|..]; simpl; rewrite ?Hr; try done; [by left|congruence].
Qed.

Lemma wake_send_call s h m : wake_ok s → wake_ok (send h m s).
Proof.
  intros [Hw Hr Hc Hd]. split; simpl; try done.
  - intros i Hi. destruct (Hw i Hi) as (x & o & Hx & Ho). exists x, o.
    split; [by apply lookup_app_l_Some|done].
  - intros i Hi Hop. specialize (Hr i Hi Hop).
    assert (readys s ≤ readys (send h m s)); [|lia].
    unfold readys. simpl. rewrite length_app. simpl. rewrite Nat.add_1_r, seq_S.
    rewrite sum_list_with_app. etrans; [|apply Nat.le_add_r]. apply cnt_mono.
    intros j. unfold ready. simpl. destruct (sends s !! j) as [y|] eqn:Hj; [|lia].
    by rewrite (lookup_app_l_Some _ _ _ _ Hj).
  - intros Hdw. destruct (Hd Hdw) as [Hp [|[(i & x & Hi & Hx)|]]]; auto.
    split; [done|]. right. left. exists i, x. split; [by apply lookup_app_l_Some|done].
Qed.

Lemma closers_snoc s k j c : closers s !! j = Some c → (closers s ++ [k]) !! j = Some c.
Proof. apply lookup_app_l_Some. Qed.
Lemma closers_last s k : (closers s ++ [k]) !! length (closers s) = Some k.
Proof. by rewrite lookup_app_r, Nat.sub_diag by lia. Qed.

Lemma wake_closer_step s i s' : wake_ok s → closer_step i s = Some s' → wake_ok s'.
Proof.
  intros [Hw Hr Hc Hd]. unfold closer_step. destruct (closers s !! i) as [k|] eqn:Hi; [|done].
  pose proof (lookup_lt_Some _ _ _ Hi) as Hlt.
  simpl. destruct k as [b| |]; intros [= <-]; split; simpl; try done.
  - intros j Hj Hop. destruct (Hc j Hj Hop) as (n & k & Hn & Hk).
    destruct (decide (n = i)) as [->|Hne].
    + rewrite Hi in Hn. injection Hn as <-. destruct Hk as [|[= ->]]; [done|].
      exists i, KNotifyAll. split; [by apply list_lookup_insert_eq|by left].
    + exists n, k. split; [by rewrite list_lookup_insert_ne|done].
  - by rewrite dw_waits_notify.
  - intros j. by rewrite ev_waits_all.
  - intros j. by rewrite ev_waits_all.
  - intros j. by rewrite ev_waits_all.
  - intros Hdw. destruct (Hd Hdw) as [Hp [|[|(n & k & Hn & Hk)]]]; auto.
    split; [done|]. right. right. exists n, k. split; [|done].
    rewrite list_lookup_insert_ne; [done|]. intros ->. rewrite Hi in Hn. injection Hn as <-.
    by destruct Hk.
Qed.

Lemma wake_step s s' : struct_ok s → wake_ok s → chan_step capacity s (Done s') → wake_ok s'.
Proof.
  intros Hs Hwk [h m Hl [= ->]|t i Ht Hst|t Ht Hst|s1 Hst [= ->]|h Hl [= ->]|Hl [= ->]|
    Hl [= ->]|h Hl Hno [= ->]|i s1 Hst [= ->]].
  - by apply wake_send_call.
  - by eapply wake_send_step.
  - by eapply wake_recv_step.
  - unfold new_handle in Hst. destruct (_ <? _)%Z; [|done]. injection Hst as <-.
    by destruct Hwk.
  - eapply wake_ext; [exact Hwk|..]; simpl; try done.
    + intros j k. apply closers_snoc.
    + right. exists (length (closers s)), (KNotifyReceiver true).
      split; [apply closers_last|by right].
    + intros Hdw. destruct (wo_receiver _ Hwk Hdw) as [Hp _]. split; [done|]. right. right.
      exists (length (closers s)), (KNotifyReceiver true). split; [apply closers_last|by eexists].
  - unfold receiver_close. destruct (negb _); [|done].
    eapply wake_ext; [exact Hwk|..]; simpl; try done.
    + intros j k. apply closers_snoc.
    + right. exists (length (closers s)), KNotifyAll. split; [apply closers_last|by left].
    + rewrite not_polling; [done|done|]. unfold receiver_free in Hl. by destruct (recv s).
  - eapply wake_ext; [exact Hwk|..]; simpl; try done.
    + intros j k. apply closers_snoc.
    + right. exists (length (closers s)), KNotifyAll. split; [apply closers_last|by left].
    + unfold receiver_droppable in Hl. by destruct (recv s).
    + by rewrite dw_waits_leave.
  - destruct (drop_handle_ok s h Hs Hl Hno) as [_ Hidle]. unfold sender_drop.
    destruct (Z.eqb_spec (sender_count s) 1) as [Hone|]; [|by destruct Hwk].
    destruct (negb _); [|by destruct Hwk]. specialize (Hidle Hone).
    assert (∀ i, ev_waits (sender_signal s) i = false) as Hnw.
    { intros i. destruct (ev_waits (sender_signal s) i) eqn:Hi; [|done].
      destruct (wo_waits _ Hwk _ Hi) as (x & o & Hx & Ho). rewrite Forall_lookup in Hidle.
      specialize (Hidle i x Hx). unfold idle in Hidle. by rewrite Ho in Hidle. }
    split; simpl; [intros i; by rewrite Hnw..|].
    intros Hdw. destruct (wo_receiver _ Hwk Hdw) as [Hp _]. split; [done|]. right. right.
    exists (length (closers s)), (KNotifyReceiver false). split; [apply closers_last|by eexists].
  - by eapply wake_closer_step.
Qed.

(** ** Preservation of the counts *)

Lemma isize_wrap_eq z : ∃ k, (isize_wrap z = z + k * 2 ^ 64)%Z.
Proof.
  unfold isize_wrap, to_isize, wrap64. change u64_modulus with (2 ^ 64)%Z.
  pose proof (Z_div_mod_eq_full z (2 ^ 64)) as Hz.
  destruct (Z.ltb_spec (z mod 2 ^ 64) (2 ^ 63)).
  - exists (- (z / 2 ^ 64))%Z. lia.
  - exists (- (z / 2 ^ 64) - 1)%Z. lia.
Qed.

Lemma zsum_alter (l : list Z) t d : t < length l →
  ∃ k, (zsum (alter (λ z, isize_wrap (z + d)) t l) = zsum l + d + k * 2 ^ 64)%Z.
Proof.
  revert t. induction l as [|z l IH]; intros [|t] Ht; simpl in *; [lia|lia|..].
  - destruct (isize_wrap_eq (z + d)) as [k Hk]. exists k. lia.
  - destruct (IH t) as [k Hk]; [lia|]. exists k. unfold alter in Hk. lia.
Qed.

Lemma count_send_step s t i s' : struct_ok s → count_ok s → t < length (msg_counts s) →
  send_step capacity t i s = Some (Done s') → count_ok s'.
Proof.
  intros Hs [k Hk] Ht. unfold send_step. destruct (sends s !! i) as [x|] eqn:Hi; [|done]. simpl.
  pose proof (λ pc, cnt_insert uncounted _ _ _ (mkSend (s_owner x) pc) Hi) as Hcn.
  pose proof (so_queue _ Hs) as Hq. unfold uncounted at 2 4 in Hcn. unfold count_ok, mq_len in *.
  destruct (s_pc x) as [o|n| | |r] eqn:Hpc; [..|done]; intros Hst; simplify_eq.
  - destruct (so_msg _ Hs _ _ _ Hi Hpc) as [m ->]. simpl in Hst.
    destruct (mq_claim capacity m (queue s)) as [[n q]|[|]] eqn:Hcl; simplify_eq/=.
    + destruct (mq_claim_inv _ _ _ _ _ Hq Hcl) as (Hq' & -> & Hc & Htk & _).
      rewrite Hc, Htk, length_app. simpl. specialize (Hcn (SPublish (length (mq_claims (queue s))))).
      simpl in Hcn. destruct Hq as [_ Htl _ _]. exists k. lia.
    + specialize (Hcn (SPoll (Some m))). simpl in Hcn. exists k. lia.
    + specialize (Hcn (SDone (Err mkSendError))). simpl in Hcn. exists k. lia.
  - simpl. rewrite length_alter. specialize (Hcn SNotify). simpl in Hcn. exists k. lia.
  - specialize (Hcn SCount). simpl in *. exists k. lia.
  - specialize (Hcn (SDone (Ok ()))). simpl in *. destruct (zsum_alter _ _ 1 Ht) as [k' Hk'].
    exists (k + k')%Z. lia.
Qed.

Lemma count_step s s' : struct_ok s → count_ok s → chan_step capacity s (Done s') → count_ok s'.
Proof.
  intros Hs Hct [h m Hl [= ->]|t i Ht Hst|t Ht Hst|s1 Hst [= ->]|h Hl [= ->]|Hl [= ->]|
    Hl [= ->]|h Hl Hno [= ->]|i s1 Hst [= ->]]; try done.
  - destruct Hct as [k Hk]. exists k. simpl. rewrite cnt_snoc, Nat.add_0_r. done.
  - by eapply count_send_step.
  - destruct Hct as [k Hk]. pose proof (so_queue _ Hs) as Hq. revert Hst. unfold recv_step.
    destruct (recv s) as [| |m|m| | | |r|] eqn:Hr; [..|done]; intros Hst; simplify_eq.
    + by exists k.
    + destruct (mq_pop (queue s)) as [[m q]|[|]] eqn:Hp; simplify_eq.
      * destruct (pop_ok _ _ _ Hq Hp) as (Hq' & Hh & Hc & Htk & _).
        exists k. unfold mq_len in *. simpl in *. rewrite Hc, Htk.
        apply lookup_lt_Some in Hh. lia.
      * exists k. simpl. by rewrite Hr.
      * by exists k.
    + destruct (zsum_alter _ _ (-1) Ht) as [k' Hk']. exists (k + k')%Z. simpl in *. lia.
    + destruct (future_box s); [|done]. simplify_eq/=. by exists k.
    + by exists k.
    + by exists k.
    + by exists k.
    + by exists k.
  - unfold new_handle in Hst. destruct (_ <? _)%Z; [|done]. by injection Hst as <-.
  - unfold receiver_close. by destruct (negb _).
  - destruct Hct as [k Hk]. exists k. simpl in *. unfold receiver_droppable in Hl.
    by destruct (recv s).
  - unfold sender_drop. by destruct (_ && _).
  - unfold closer_step in Hst. destruct (closers s !! i) as [[b| |]|]; simplify_eq/=; done.
Qed.

(** ** Reachable states *)

Definition chan_next s s' : Prop := chan_step capacity s (Done s').
Definition chan_reachable (threads : nat) s : Prop :=
  ∃ s0, channel_new capacity threads = Done s0 ∧ rtc chan_next s0 s.

Lemma zsum_zero n : zsum (replicate n 0%Z) = 0%Z.
Proof. induction n as [|n IH]; [done|]. simpl. by rewrite IH. Qed.

Lemma reachable_ok threads s : chan_reachable threads s →
  struct_ok s ∧ wake_ok s ∧ count_ok s.
Proof.
  intros (s0 & Hnew & Hr). refine (rtc_ind_r (λ s, struct_ok s ∧ wake_ok s ∧ count_ok s) s0 _ _ s Hr).
  - unfold channel_new in Hnew. destruct (1 <=? _)%Z; [|done]. destruct (_ <=? 2 ^ 63)%Z; [|done].
    simpl in Hnew. injection Hnew as <-. split_and!.
    + split; simpl; try done; [|by intros ? [|]]. split; simpl; try done; lia.
    + split; simpl; [intros i; by rewrite ev_waits_new..|by rewrite dw_waits_new].
    + exists 0%Z. simpl. by rewrite zsum_zero.
  - intros y z _ Hyz (Hs & Hw & Hc). split_and!;
      [by eapply struct_step|by eapply wake_step|by eapply count_step].
Qed.

Lemma reachable_capacity threads s : chan_reachable threads s → 1 ≤ capacity.
Proof.
  intros (s0 & Hnew & _). unfold channel_new in Hnew.
  destruct (Z.leb_spec 1 (Z.of_nat capacity)); [lia|done].
Qed.

(** A send that is polled only after a notification. *)
Definition blocked s (i : nat) : Prop := ev_waits (sender_signal s) i = true.

(** C18: messages are delivered in order and once, and no operation of the
    channel panics.  The messages whose closures were called are, in order,
    the first messages that the queue accepted, up to the message that the
    receiver is about to call; [recv] fails only when the channel is closed
    and every accepted message was called. *)
Theorem channel_delivers threads s :
  chan_reachable threads s →
  (∀ o, chan_step capacity s o → ∃ s', o = Done s') ∧
  executed s = take (mq_taken (queue s) - uncalled (recv s)) (mq_claims (queue s)).*1 ∧
  (∀ m, recv s = RGot m ∨ recv s = RCall m →
     (mq_claims (queue s)).*1 !! length (executed s) = Some m) ∧
  (∀ e, recv s = RDone (Err e) →
     mq_closed (queue s) = true ∧ executed s = (mq_claims (queue s)).*1).
Proof.
  intros Hr. destruct (reachable_ok _ _ Hr) as (Hs & _ & _).
  pose proof Hs as [Hq Hbox Hmsg Hown Hgot Hex Hcnt Hal Hfl Hcl].
  split_and!; [by intros o; apply chan_no_panic|done|..].
  - intros m Hm. rewrite Hex, list_lookup_fmap. destruct Hq as [Hrel Htl _ _].
    assert (uncalled (recv s) = 1 ∧ holding (recv s) = 1) as [Hu Hh]
      by (by destruct Hm as [-> | ->]).
    rewrite length_take, length_fmap, Hu, Nat.min_l, Nat.sub_1_r, (Hgot m Hm) by lia. done.
  - intros e He. destruct (Hcl e He) as [Hc Ht]. split; [done|].
    rewrite Hex, He. simpl. rewrite Nat.sub_0_r, take_ge; [done|]. rewrite length_fmap. lia.
Qed.

(** C17: no notification is lost.  When every send has returned or waits for a
    notification, no call that closes the channel is pending, and the receiver
    waits for a notification, then the queue is empty and open and no send is
    blocked; and no send stays blocked on a closed channel. *)
Theorem channel_never_stuck threads s :
  chan_reachable threads s →
  (∀ i x, sends s !! i = Some x → idle x = true ∨ blocked s i) →
  Forall (λ k, k = KDone) (closers s) →
  (dw_waits (receiver_signal s) = true →
     mq_len (queue s) = 0 ∧ mq_closed (queue s) = false ∧ ∀ i, ¬ blocked s i) ∧
  (mq_closed (queue s) = true → ∀ i, ¬ blocked s i).
Proof.
  intros Hr Hsd Hk. destruct (reachable_ok _ _ Hr) as (Hs & Hw & _).
  pose proof (reachable_capacity _ _ Hr) as Hpos.
  rewrite Forall_lookup in Hk.
  assert (∀ i x, sends s !! i = Some x → idle x = true ∨ ∃ o, s_pc x = SPoll o) as Hpoll.
  { intros i x Hi. destruct (Hsd i x Hi) as [|Hb]; [by left|right].
    destruct (wo_waits _ Hw i Hb) as (y & o & Hy & Ho). simplify_eq. by exists o. }
  assert (mq_closed (queue s) = true → ∀ i, ¬ blocked s i) as Hcl.
  { intros Hc i Hb. destruct (wo_closed _ Hw i Hb Hc) as (j & k & Hj & Hka).
    rewrite (Hk j k Hj) in Hka. by destruct Hka. }
  split; [|done]. intros Hdw. destruct (wo_receiver _ Hw Hdw) as [Hp Hor].
  assert (mq_pop (queue s) = Err Empty) as Hemp.
  { destruct Hor as [|[(i & x & Hi & Hx)|(j & k & Hj & [b Hkb])]]; [done|..].
    - destruct (Hpoll i x Hi) as [Hd|[o Ho]]; [unfold idle in Hd|]; by rewrite Hx in *.
    - specialize (Hk j k Hj). congruence. }
  destruct (so_queue _ Hs) as [Hrel Htl Hroom _]. rewrite Hp in Hrel. simpl in Hrel.
  unfold mq_pop in Hemp.
  destruct (mq_claims (queue s) !! mq_taken (queue s)) as [[m []]|] eqn:Hl; [done|..].
  - destruct (so_owner _ Hs _ _ Hl) as (i & x & Hi & Hx).
    destruct (Hpoll i x Hi) as [Hd|[o Ho]]; [unfold idle in Hd|]; by rewrite Hx in *.
  - apply lookup_ge_None in Hl. destruct (mq_closed (queue s)) eqn:Hc; [done|].
    split_and!; [unfold mq_len; lia|done|]. intros i Hb.
    pose proof (wo_senders _ Hw i Hb Hc) as Hfree. rewrite Hp in Hfree. simpl in Hfree.
    assert (readys s = 0) as Hz; [|lia].
    destruct (decide (readys s = 0)) as [|Hne]; [done|]. exfalso.
    destruct (cnt_pos (ready s) (seq 0 (length (sends s)))) as (n & j & Hn & Hj);
      [unfold readys in Hne; lia|].
    unfold ready in Hj. destruct (sends s !! j) as [[ow pc]|] eqn:Hsj; [|lia].
    destruct pc as [o| | | |]; try lia.
    destruct (Hsd j _ Hsj) as [Hd|Hd]; [done|]. unfold blocked in Hd. rewrite Hd in Hj. lia.
Qed.

(** The counts of in-flight messages are exact.  When no thread is between
    its access to the queue and its count, the counts of all threads add up
    (as [isize], modulo wrapping) to the number of messages in the queue. *)
Lemma message_counts_exact threads s :
  chan_reachable threads s →
  Forall (λ x, uncounted x = 0) (sends s) → got (recv s) = 0 →
  (Z.of_nat capacity < 2 ^ 63)%Z →
  isize_wrap (zsum (msg_counts s)) = Z.of_nat (mq_len (queue s)).
Proof.
  intros Hr Hun Hg Hcap. destruct (reachable_ok _ _ Hr) as (Hs & _ & [k Hk]).
  assert (cnt uncounted (sends s) = 0) as Hz.
  { clear -Hun. induction Hun as [|x l Hx Hl IH]; [done|]. simpl. lia. }
  destruct (so_queue _ Hs) as [Hrel Htl Hroom _].
  assert (mq_len (queue s) ≤ capacity) as Hle by (unfold mq_len; lia).
  rewrite Hz, Hg in Hk. unfold isize_wrap, wrap64.
  replace (zsum (msg_counts s)) with (Z.of_nat (mq_len (queue s)) + k * 2 ^ 64)%Z by lia.
  change u64_modulus with (2 ^ 64)%Z. rewrite Z.mod_add, Z.mod_small by lia.
  unfold to_isize. by rewrite (proj2 (Z.ltb_lt _ _)) by lia.
Qed.
End Facts.

(** ** A concrete run *)

(** Waiters in a queue, notified in order. *)
#[export] Instance fifo_event : AsyncEvent (list nat) := {|
  ev_new := [];
  ev_waits e i := bool_decide (i ∈ e);
  ev_wait i e := if bool_decide (i ∈ e) then e else e ++ [i];
  ev_leave i e := filter (λ j, j ≠ i) e;
  ev_notify_one e := match e with i :: _ => filter (λ j, j ≠ i) e | [] => [] end;
  ev_notify_all _ := [];
|}.

#[export] Instance fifo_event_laws : AsyncEventLaws (list nat).
Proof.
  assert (∀ (e : list nat) i j, bool_decide (j ∈ filter (λ k, k ≠ i) e) =
    negb (bool_decide (j = i)) && bool_decide (j ∈ e)) as Hf.
  { intros e i j. apply eq_bool_prop_intro. rewrite andb_True, negb_True, !bool_decide_spec.
    rewrite list_elem_of_filter. done. }
  split; simpl; try done.
  - intros e i j. destruct (decide (i ∈ e)) as [Hi|Hi].
    + rewrite (bool_decide_eq_true_2 (i ∈ e)) by done.
      destruct (decide (j = i)) as [->|Hne]; [|by rewrite (bool_decide_eq_false_2 (j = i))].
      rewrite (bool_decide_eq_true_2 (i = i)) by done. by apply bool_decide_eq_true_2.
    + rewrite (bool_decide_eq_false_2 (i ∈ e)) by done.
      apply eq_bool_prop_intro. rewrite orb_True, !bool_decide_spec, elem_of_app.
      rewrite list_elem_of_singleton. tauto.
  - intros [|i e] j; [done|]. rewrite Hf. by intros [_ ?]%andb_true_iff.
  - intros [|i e] k Hk; [done|]. exists i. split; [|apply Hf].
    apply bool_decide_eq_true_2. by left.
Qed.

#[export] Instance flag_waker : DiatomicWaker bool := {|
  dw_new := false;
  dw_waits w := w;
  dw_wait _ := true;
  dw_leave _ := false;
  dw_notify _ := false;
|}.

#[export] Instance flag_waker_laws : DiatomicWakerLaws bool.
Proof. by split. Qed.

Inductive CMove := MvHandle | MvSend (h m : nat) | MvStep (t i : nat) | MvRecv (t : nat)
  | MvClose (h : nat) | MvDrop (h : nat) | MvCloser (i : nat).

Definition done_state (o : option (outcome (Chan nat (list nat) bool))) :
    option (Chan nat (list nat) bool) :=
  match o with Some (Done s) => Some s | _ => None end.

Definition chan_move (cap : nat) (m : CMove) (s : Chan nat (list nat) bool) :
    option (Chan nat (list nat) bool) :=
  match m with
  | MvHandle => new_handle s
  | MvSend h m => if live h s then Some (send h m s) else None
  | MvStep t i =>
      if (t <? length (msg_counts s))%nat then done_state (send_step cap t i s) else None
  | MvRecv t => if (t <? length (msg_counts s))%nat then done_state (recv_step t s) else None
  | MvClose h => if live h s then Some (sender_close s) else None
  | MvDrop h =>
      if live h s && bool_decide (Forall (λ x, in_flight h x = false) (sends s))
      then Some (sender_drop h s) else None
  | MvCloser i => closer_step i s
  end.

Lemma done_state_Some o s : done_state o = Some s → o = Some (Done s).
Proof. destruct o as [[]|]; simpl; congruence. Qed.

Lemma chan_move_next cap m s s' : chan_move cap m s = Some s' → chan_next cap s s'.
Proof.
  destruct m; simpl; intros Hm.
  - by eapply chan_new_handle.
  - destruct (live h s) eqn:Hl; simplify_eq. by eapply chan_send.
  - destruct (Nat.ltb_spec t (length (msg_counts s))); [|done].
    eapply chan_send_step; [done|]. by apply done_state_Some.
  - destruct (Nat.ltb_spec t (length (msg_counts s))); [|done].
    eapply chan_recv_step; [done|]. by apply done_state_Some.
  - destruct (live h s) eqn:Hl; simplify_eq. by eapply chan_sender_close.
  - destruct (live h s) eqn:Hl; [|done]. simpl in Hm. case_bool_decide; simplify_eq.
    by eapply chan_sender_drop.
  - by eapply chan_closer.
Qed.

Fixpoint chan_moves (cap : nat) (ms : list CMove) (s : Chan nat (list nat) bool) :
    option (Chan nat (list nat) bool) :=
  match ms with
  | [] => Some s
  | m :: ms => s' ← chan_move cap m s; chan_moves cap ms s'
  end.

Lemma chan_moves_next cap ms s s' : chan_moves cap ms s = Some s' → rtc (chan_next cap) s s'.
Proof.
  revert s. induction ms as [|m ms IH]; intros s; simpl; [intros [= <-]; constructor|].
  destruct (chan_move cap m s) as [s1|] eqn:Hm; [|done]. simpl. intros Hr.
  eapply rtc_l; [by eapply chan_move_next|by apply IH].
Qed.

(** Capacity 1, two threads.  The second send finds the queue full and blocks;
    the receiver takes the first message and notifies it; the second message
    is sent and received, and the receiver waits again. *)
Definition demo_moves : list CMove :=
  [MvHandle; MvHandle; MvSend 0 7; MvSend 1 8; MvStep 0 0; MvStep 1 1;
   MvStep 0 0; MvStep 0 0; MvStep 0 0;
   MvRecv 1; MvRecv 1; MvRecv 1; MvRecv 1; MvRecv 1; MvRecv 1; MvRecv 1;
   MvStep 1 1; MvStep 1 1; MvStep 1 1; MvStep 1 1].
Definition drain_moves : list CMove := demo_moves ++ replicate 8 (MvRecv 0) ++ [MvRecv 0].
Definition demo_chan (ms : list CMove) : Chan nat (list nat) bool :=
  match channel_new 1 2 with
  | Done s => default s (chan_moves 1 ms s)
  | _ => mkChan mq_new dw_new ev_new 0 [] [] RIdle true [] [] []
  end.

Lemma demo_chan_reachable ms : chan_reachable 1 2 (demo_chan ms).
Proof.
  eexists. split; [by vm_compute|]. unfold demo_chan. simpl.
  destruct (chan_moves 1 ms _) as [s|] eqn:Hs; [by apply chan_moves_next in Hs|apply rtc_refl].
Qed.

Lemma channel_delivers_witness :
  executed (demo_chan drain_moves) = [7; 8] ∧
  ∀ o, chan_step 1 (demo_chan drain_moves) o → ∃ s', o = Done s'.
Proof.
  split; [by vm_compute|].
  exact (proj1 (channel_delivers 1 2 (demo_chan drain_moves) (demo_chan_reachable drain_moves))).
Defined.

Lemma channel_never_stuck_witness :
  mq_len (queue (demo_chan drain_moves)) = 0 ∧
  mq_closed (queue (demo_chan drain_moves)) = false ∧ ∀ i, ¬ blocked (demo_chan drain_moves) i.
Proof.
  assert (sends (demo_chan drain_moves) =
    [mkSend 0 (SDone (Ok tt)); mkSend 1 (SDone (Ok tt))]) as Hs by (by vm_compute).
  destruct (channel_never_stuck 1 2 (demo_chan drain_moves) (demo_chan_reachable drain_moves))
    as [Hr _].
  - rewrite Hs. intros i x Hi. left. revert i x Hi. apply Forall_lookup. repeat constructor.
  - assert (closers (demo_chan drain_moves) = []) as -> by (by vm_compute). constructor.
  - apply Hr. by vm_compute.
Defined.

Lemma message_counts_exact_witness :
  msg_counts (demo_chan demo_moves) = [1; 0]%Z ∧
  isize_wrap (zsum (msg_counts (demo_chan demo_moves))) =
    Z.of_nat (mq_len (queue (demo_chan demo_moves))).
Proof.
  split; [by vm_compute|].
  apply (message_counts_exact 1 2 (demo_chan demo_moves) (demo_chan_reachable demo_moves)).
  - assert (sends (demo_chan demo_moves) =
      [mkSend 0 (SDone (Ok tt)); mkSend 1 (SDone (Ok tt))]) as -> by (by vm_compute).
    repeat constructor.
  - by vm_compute.
  - by vm_compute.
Defined.
