(* ===== verification/ChannelRefines.v ===== *)
(** * The concurrent queue implements the queue of the mailbox

    Every step of an interleaving of the accesses of [ChannelQueue] is one
    operation of [MailboxQueue] or none, and the answers of its calls are
    those of [MailboxQueue]. *)

From stdpp Require Import base option list numbers relations.
From Stdlib Require Import ZArith Lia.
From S2P Require Import Prelude ChannelQueue ChannelFacts MailboxQueue.

Section Refines.
Context {M : Type} (capacity : nat).
Abbreviation Queue := (Queue (M := M)).
Abbreviation Producer := (Producer (M := M)).
Abbreviation pos := (pos capacity).
Implicit Types (s : Queue) (p : Producer) (q : MQueue M).

(** The position that a producer has claimed and not published. *)
Definition holder p : option Z :=
  match p with PWrite _ z _ | PStore z _ => Some z | _ => None end.

Definition pending (hs : list (option Z)) (n : nat) : bool :=
  existsb (λ h, bool_decide (h = Some (pos n))) hs.

Definition taking s : nat := match consumer s with CTake _ _ => 1 | _ => 0 end.

Definition mailbox_of s : MQueue M :=
  mkMQueue (imap (λ n m, (m, negb (pending (holder <$> producers s) n))) (claims s))
    (length (popped s) + taking s) (released s) (is_closed capacity s).

Inductive mailbox_op q q' : Prop :=
| op_none : q' = q → mailbox_op q q'
| op_claim m n : mq_claim capacity m q = Ok (n, q') → mailbox_op q q'
| op_publish n m : mq_claims q !! n = Some (m, false) → q' = mq_publish n q → mailbox_op q q'
| op_pop m : mq_pop q = Ok (m, q') → mailbox_op q q'
| op_release : mq_released q < mq_taken q → q' = mq_release q → mailbox_op q q'
| op_close : q' = mq_close q → mailbox_op q q'.

(** What the answers that are given in a step say. *)
Record answers_ok s s' : Prop := {
  an_full : ∀ i m z, producers s !! i = Some (PStamp m z) →
    producers s' !! i = Some (PReturned (Err Full)) → mq_full capacity (mailbox_of s) = true;
  an_push_closed : ∀ i, (∀ r, producers s !! i ≠ Some (PReturned r)) →
    producers s' !! i = Some (PReturned (Err PushClosed)) → mq_closed (mailbox_of s) = true;
  an_empty : ∀ z, (∀ z', consumer s ≠ CCheck z') → consumer s' = CCheck z →
    ∀ m q, mq_pop (mailbox_of s) ≠ Ok (m, q);
  an_pop_closed : (∀ e, consumer s ≠ CFailed e) → consumer s' = CFailed PopClosed →
    mq_pop (mailbox_of s) = Err PopClosed;
  an_borrow : ∀ i st m, consumer s' = CBorrow i st m → consumer s ≠ CBorrow i st m →
    mq_claims (mailbox_of s) !! pred (mq_taken (mailbox_of s)) = Some (m, true);
}.

(** ** Pending positions *)

Lemma pending_true hs n : pending hs n = true ↔ Some (pos n) ∈ hs.
Proof.
  unfold pending. rewrite existsb_exists. split.
  - intros (h & Hin & Hd). apply bool_decide_eq_true in Hd as ->. by apply list_elem_of_In.
  - intros Hin. exists (Some (pos n)). split; [by apply list_elem_of_In|by apply bool_decide_eq_true_2].
Qed.

Lemma pending_iff hs hs' n n' : (Some (pos n) ∈ hs ↔ Some (pos n') ∈ hs') →
  pending hs n = pending hs' n'.
Proof. intros Hiff. apply eq_true_iff_eq. by rewrite !pending_true. Qed.

Section Inv.
Context (Hcap : 1 ≤ capacity).
Context s D ph closed (Hinv : queue_inv capacity s D ph closed).

(** A pending position is one whose ticket is not ready. *)
Lemma pending_phase n : pending (holder <$> producers s) n = true ↔
  ∃ i, ph !! n = Some (PhClaimed i) ∨ ph !! n = Some (PhWritten i).
Proof.
  rewrite pending_true, list_elem_of_fmap. split.
  - intros (p & Hp & [i Hi]%list_elem_of_lookup_1). exists i.
    pose proof (qi_producers _ _ _ _ _ Hinv i p Hi) as Hok.
    destruct p; simplify_eq/=.
    + destruct Hok as (k & He & _ & Hk & _). apply pos_inj in He as ->; [by left|done].
    + destruct Hok as (k & He & _ & Hk). apply pos_inj in He as ->; [by right|done].
  - intros [i Hi]. pose proof (qi_phases _ _ _ _ _ Hinv n) as Hph.
    destruct Hi as [Hi|Hi]; rewrite Hi in Hph.
    + destruct Hph as [_ [m Hm]]. exists (PWrite m (pos n) (pos n)).
      split; [done|]. by eapply list_elem_of_lookup_2.
    + destruct Hph as [_ Hm]. exists (PStore (pos n) (pos n)).
      split; [done|]. by eapply list_elem_of_lookup_2.
Qed.

(** At most one producer is at a position. *)
Lemma holder_unique i j p p' n : producers s !! i = Some p → producers s !! j = Some p' →
  holder p = Some (pos n) → holder p' = Some (pos n) → i = j.
Proof.
  assert (∀ i p, producers s !! i = Some p → holder p = Some (pos n) →
    ph !! n = Some (PhClaimed i) ∨ ph !! n = Some (PhWritten i)) as Hone.
  { intros k p0 Hk Hh. pose proof (qi_producers _ _ _ _ _ Hinv k p0 Hk) as Hok.
    destruct p0; simplify_eq/=.
    - destruct Hok as (t & He & _ & Ht & _). apply pos_inj in He as ->; [by left|done].
    - destruct Hok as (t & He & _ & Ht). apply pos_inj in He as ->; [by right|done]. }
  intros Hi Hj Hp Hp'. destruct (Hone _ _ Hi Hp) as [Ha|Ha], (Hone _ _ Hj Hp') as [Hb|Hb];
    congruence.
Qed.

Lemma claims_lookup n : mq_claims (mailbox_of s) !! n =
  (λ m, (m, negb (pending (holder <$> producers s) n))) <$> claims s !! n.
Proof. simpl. by rewrite list_lookup_imap. Qed.

Lemma taken_eq : mq_taken (mailbox_of s) = D.
Proof.
  destruct Hinv as [He Hd Hph HD Hw Hl Hs Hp Hc Hphs]. unfold taking. simpl.
  unfold taking. destruct (consumer s) as [| | | | | |[]]; simpl in *; destruct_and?;
    subst; match goal with H : popped s = _ |- _ => rewrite H, length_take end; lia.
Qed.
End Inv.

(** The queue is unchanged when the pending positions are. *)
Lemma mailbox_same s s' :
  holder <$> producers s' = holder <$> producers s → claims s' = claims s →
  length (popped s') + taking s' = length (popped s) + taking s →
  released s' = released s → enqueue_pos s' = enqueue_pos s → mailbox_of s' = mailbox_of s.
Proof. intros Hh Hc Ht Hr He. unfold mailbox_of, is_closed. by rewrite Hh, Hc, Ht, Hr, He. Qed.

Lemma holder_set s i p p' : producers s !! i = Some p → holder p' = holder p →
  holder <$> <[i := p']> (producers s) = holder <$> producers s.
Proof.
  intros Hi Hp. rewrite list_fmap_insert, Hp. apply list_insert_id.
  by rewrite list_lookup_fmap, Hi.
Qed.

Lemma push_loop_holder (m : M) z : holder (push_loop capacity m z) = None.
Proof. unfold push_loop. by destruct (negb _). Qed.

Lemma elem_insert {A} (l : list A) i x y z : l !! i = Some x → z ≠ x → z ≠ y →
  z ∈ <[i := y]> l ↔ z ∈ l.
Proof.
  intros Hi Hx Hy. split; intros [j Hj]%list_elem_of_lookup_1.
  - apply list_lookup_insert_Some in Hj as [(_ & <- & _)|[_ Hj]]; [done|].
    by eapply list_elem_of_lookup_2.
  - eapply (list_elem_of_lookup_2 _ j). rewrite list_lookup_insert_ne; [done|]. congruence.
Qed.

(** ** Steps of a producer *)

Section Steps.
Context (Hcap : 1 ≤ capacity).
Context s D ph closed (Hinv : queue_inv capacity s D ph closed).
Context (Hb : bounded capacity (length (claims s))).

Lemma claim_refines i m z st s' ph' :
  producers s !! i = Some (PCas m z st) → enqueue_pos s = z →
  producers s' = <[i := PWrite m z st]> (producers s) → claims s' = claims s ++ [m] →
  popped s' = popped s → consumer s' = consumer s → queue_inv capacity s' D ph' closed →
  mq_claim capacity m (mailbox_of s) = Ok (length (claims s), mailbox_of s').
Proof.
  intros Hi Hz Hp Hcl Hpo Hco Hinv'.
  destruct (qi_producers _ _ _ _ _ Hinv i _ Hi) as (n & -> & -> & Hn & Hroom).
  assert (closed = false) as Hop.
  { destruct closed eqn:Hc; [|done]. pose proof (inv_is_closed _ _ _ _ _ Hcap Hinv) as Hd.
    unfold is_closed in Hd. rewrite Hz in Hd.
    pose proof (land_flag capacity Hcap n false) as Hl. simpl in Hl.
    rewrite Z.add_0_r in Hl. by rewrite Hl in Hd. }
  assert (n = length (claims s)) as ->.
  { pose proof (qi_enqueue _ _ _ _ _ Hinv) as He. rewrite Hz, Hop, Z.add_0_r in He.
    by apply pos_inj in He. }
  unfold mq_claim, mq_full. simpl.
  rewrite (inv_is_closed _ _ _ _ _ Hcap Hinv), Hop, length_imap.
  rewrite (released_held _ _ _ _ _ Hinv).
  destruct (Nat.leb_spec capacity (length (claims s) - first_held D (consumer s))); [lia|].
  do 2 f_equal. unfold mailbox_of. rewrite (inv_is_closed _ _ _ _ _ Hcap Hinv'), Hop.
  unfold released, taking. rewrite Hpo, Hco. f_equal. rewrite Hcl, imap_app. simpl.
  f_equal.
  - apply list_eq. intros k. rewrite !list_lookup_imap.
    destruct (claims s !! k) as [m'|] eqn:Hk; [|done]. simpl. do 3 f_equal.
    apply pending_iff. rewrite Hp, list_fmap_insert. simpl.
    symmetry. eapply elem_insert; [by rewrite list_lookup_fmap, Hi|done|].
    intros [= He%pos_inj]; [|done]. apply lookup_lt_Some in Hk. lia.
  - do 3 f_equal. symmetry. apply negb_false_iff, pending_true. rewrite Nat.add_0_r, Hp, list_fmap_insert.
    eapply (list_elem_of_lookup_2 _ i). simpl. apply list_lookup_insert_eq.
    rewrite length_fmap. by eapply lookup_lt_Some.
  - symmetry. exact (released_held _ _ _ _ _ Hinv).
Qed.

Lemma publish_refines i z st s' ph' r :
  producers s !! i = Some (PStore z st) →
  producers s' = <[i := PReturned r]> (producers s) → claims s' = claims s →
  popped s' = popped s → consumer s' = consumer s → queue_inv capacity s' D ph' closed →
  ∃ n m, mq_claims (mailbox_of s) !! n = Some (m, false) ∧
    mailbox_of s' = mq_publish n (mailbox_of s).
Proof.
  intros Hi Hp Hcl Hpo Hco Hinv'.
  destruct (qi_producers _ _ _ _ _ Hinv i _ Hi) as (n & -> & -> & Hph).
  pose proof (lookup_lt_Some _ _ _ Hph) as Hlt. rewrite (qi_ph _ _ _ _ _ Hinv) in Hlt.
  destruct (lookup_lt_is_Some_2 (claims s) n Hlt) as [m Hm]. exists n, m. split.
  { rewrite claims_lookup, Hm. simpl. do 2 f_equal. apply negb_false_iff.
    rewrite (pending_phase Hcap _ _ _ _ Hinv). exists i. by right. }
  unfold mailbox_of at 1, mq_publish. rewrite (inv_is_closed _ _ _ _ _ Hcap Hinv').
  simpl. rewrite (inv_is_closed _ _ _ _ _ Hcap Hinv).
  unfold released, taking. rewrite Hpo, Hco, Hcl. f_equal.
  apply list_eq. intros k. rewrite list_lookup_imap, Hp, list_fmap_insert. simpl.
  destruct (decide (k = n)) as [->|Hne].
  - rewrite list_lookup_alter_eq, list_lookup_imap, Hm. simpl. do 2 f_equal.
    apply negb_true_iff, not_true_iff_false. rewrite pending_true.
    intros [j Hj]%list_elem_of_lookup_1.
    apply list_lookup_insert_Some in Hj as [(_ & ? & _)|[Hij Hj]]; [done|].
    rewrite list_lookup_fmap in Hj. apply fmap_Some in Hj as (p' & Hj & Hh).
    apply Hij. by eapply (holder_unique Hcap _ _ _ _ Hinv).
  - rewrite list_lookup_alter_ne, list_lookup_imap by done.
    destruct (claims s !! k) as [m'|] eqn:Hk; [|done]. simpl. do 3 f_equal.
    apply pending_iff. eapply elem_insert; [by rewrite list_lookup_fmap, Hi|..|done].
    simpl. intros [= He%pos_inj]; done.
Qed.

Lemma producer_refines i c s' : producer_step capacity i c s = Some (Done s') →
  mailbox_op (mailbox_of s) (mailbox_of s').
Proof.
  intros Hst.
  destruct (producer_step_inv capacity Hcap i c s _ D ph closed Hinv Hb Hst)
    as (s1 & ph' & [= <-] & Hinv' & _).
  unfold producer_step in Hst. destruct (producers s !! i) as [p|] eqn:Hi; [|done].
  assert (∀ p', holder p' = holder p → mailbox_op (mailbox_of s) (mailbox_of (set_producer i p' s)))
    as Hquiet.
  { intros p' Hp. apply op_none. apply mailbox_same; simpl; try done. by apply holder_set with p. }
  destruct p as [|m|m z|m z st|m z st|z st|r]; simplify_eq/=.
  - by apply Hquiet.
  - apply Hquiet, push_loop_holder.
  - destruct (buffer s !! _) as [sl|]; simplify_eq/=. apply Hquiet. by case_match.
  - destruct (next_queue_pos capacity z) as [np| |]; simpl in Hst; [|done..].
    destruct (Z.eqb_spec (enqueue_pos s) z) as [Hz|]; simpl in Hst;
      [destruct (spurious c)|]; simplify_eq; try apply Hquiet, push_loop_holder.
    eapply op_claim. by eapply claim_refines.
  - destruct (buffer s !! _) as [[st' []]|]; simplify_eq/=. apply op_none.
    apply mailbox_same; simpl; try done. by apply holder_set with (PWrite m z st).
  - destruct (buffer s !! _) as [sl|]; simplify_eq/=.
    edestruct (publish_refines i z st) as (n & m & Hn & Heq); [exact Hi|..|exact Hinv'|];
      [done..|]. by eapply op_publish.
  - by apply Hquiet.
Qed.

(** ** Steps of the consumer *)

Lemma consumer_refines s' : consumer_step capacity s = Done s' →
  mailbox_op (mailbox_of s) (mailbox_of s').
Proof.
  intros Hst. pose proof (taken_eq Hcap s D ph closed Hinv) as Htk.
  pose proof (released_held _ _ _ _ _ Hinv) as Hrel.
  pose proof (qi_consumer _ _ _ _ _ Hinv) as Hc. unfold consumer_step, obind, unwrap, rust_assert in Hst.
  destruct (consumer s) as [|z st|j st|j st m|j st|z|e] eqn:Hcs; simpl in Hc.
  - apply op_none. repeat case_match; simplify_eq/=; apply mailbox_same; try done;
      unfold taking, released; simpl; by rewrite Hcs.
  - destruct (next_queue_pos capacity z) as [np| |]; [|done..].
    injection Hst as <-. destruct Hc as (Hp & -> & -> & Hrd).
    pose proof (lookup_lt_Some _ _ _ Hrd) as Hlt. rewrite (qi_ph _ _ _ _ _ Hinv) in Hlt.
    destruct (lookup_lt_is_Some_2 (claims s) D Hlt) as [m Hm]. apply (op_pop _ _ m).
    unfold mq_pop. rewrite Htk, claims_lookup, Hm. simpl.
    assert (pending (holder <$> producers s) D = false) as ->.
    { apply not_true_iff_false. rewrite (pending_phase Hcap _ _ _ _ Hinv).
      intros [i [Hi|Hi]]; congruence. }
    simpl. do 2 f_equal. unfold mailbox_of. simpl. f_equal.
    + unfold taking. simpl. rewrite Hp, length_take. lia.
    + unfold released. simpl. by rewrite Hcs.
  - apply op_none. repeat case_match; simplify_eq/=. unfold mailbox_of, taking, released. simpl.
    rewrite Hcs, length_app. f_equal; simpl; lia.
  - apply op_none. repeat case_match; simplify_eq/=. apply mailbox_same; try done;
      unfold taking, released; simpl; by rewrite Hcs.
  - destruct (buffer s !! j) as [sl|]; [|done]. injection Hst as <-.
    destruct Hc as (Hp & -> & -> & HD).
    apply op_release.
    + rewrite Htk. simpl. rewrite Hrel. unfold first_held. simpl. lia.
    + unfold mailbox_of, mq_release, taking, released. simpl. rewrite Hcs. simpl. f_equal.
      rewrite Hp, length_take. pose proof (qi_D _ _ _ _ _ Hinv). lia.
  - injection Hst as <-. apply op_none. apply mailbox_same; try done;
      unfold taking, released; simpl; by rewrite Hcs.
  - apply op_none. repeat case_match; simplify_eq/=; apply mailbox_same; try done;
      unfold taking, released; simpl; by rewrite Hcs.
Qed.

Lemma close_refines : mailbox_op (mailbox_of s) (mailbox_of (close capacity s)).
Proof.
  apply op_close. unfold mailbox_of, mq_close. simpl. f_equal.
  apply (inv_is_closed _ _ D ph true Hcap). by eapply close_inv.
Qed.

(** ** Answers *)

Lemma new_producer i j p p' (ps : list Producer) :
  ps !! i = Some p → <[i := p']> ps !! j = Some (PReturned (Err PushClosed)) →
  (∀ r, ps !! j ≠ Some (PReturned r)) → j = i ∧ p' = PReturned (Err PushClosed).
Proof.
  intros Hi Hj Hne. apply list_lookup_insert_Some in Hj as [(<- & <- & _)|[_ Hj]]; [done|].
  by destruct (Hne (Err PushClosed)).
Qed.

Lemma push_loop_closed (m : M) : push_loop capacity m (enqueue_pos s) = PReturned (Err PushClosed) →
  mq_closed (mailbox_of s) = true.
Proof. unfold push_loop. simpl. unfold is_closed. by destruct (negb _). Qed.

Lemma producer_answers i c s' : producer_step capacity i c s = Some (Done s') → answers_ok s s'.
Proof.
  intros Hst. assert (consumer s' = consumer s ∧ producers s' = <[i := default PIdle (producers s' !! i)]> (producers s))
    as [Hco Hps].
  { revert Hst. unfold producer_step, obind. destruct (producers s !! i) as [p|] eqn:Hi; [|done].
    pose proof (lookup_lt_Some _ _ _ Hi) as Hlt.
    destruct p; repeat (case_match || destruct (buffer s !! _) as [[? []]|]); intros; simplify_eq/=;
      rewrite list_lookup_insert_eq by done; done. }
  split; try (rewrite Hco; congruence).
  - intros j m z Hj Hf. unfold producer_step in Hst.
    destruct (decide (j = i)) as [->|Hne];
      [|rewrite Hps, list_lookup_insert_ne, Hj in Hf by done; done].
    rewrite Hj in Hst. destruct (qi_producers _ _ _ _ _ Hinv i _ Hj) as (n & -> & Hn).
    destruct (stamp_read capacity Hcap s D ph closed n Hinv Hb Hn) as (sl & Hsl & Hcmp).
    rewrite Hsl in Hst. simpl in Hst. injection Hst as <-. simpl in Hf.
    rewrite list_lookup_insert_eq in Hf by by eapply lookup_lt_Some.
    destruct (_ ?= 0)%Z; simplify_eq. unfold mq_full. simpl.
    rewrite length_imap, (released_held _ _ _ _ _ Hinv). apply Nat.leb_le. lia.
  - intros j Hne Hj. unfold producer_step in Hst.
    destruct (producers s !! i) as [p|] eqn:Hi; [|done]. rewrite Hps in Hj.
    destruct (new_producer _ _ _ _ _ Hi Hj Hne) as [-> Hd].
    destruct p as [|m|m z|m z st|m z st|z st|r]; simplify_eq/=.
    + rewrite list_lookup_insert_eq in Hd by by eapply lookup_lt_Some. done.
    + rewrite list_lookup_insert_eq in Hd by by eapply lookup_lt_Some. by apply push_loop_closed in Hd.
    + destruct (buffer s !! _) as [sl|]; simplify_eq/=.
      rewrite list_lookup_insert_eq in Hd by by eapply lookup_lt_Some. simpl in Hd.
      by destruct (_ ?= 0)%Z.
    + destruct (next_queue_pos capacity z) as [np| |]; simplify_eq/=.
      destruct (negb _ || _); simplify_eq/=;
        rewrite list_lookup_insert_eq in Hd by (by eapply lookup_lt_Some);
        [by apply push_loop_closed in Hd|done].
    + destruct (buffer s !! _) as [[st' []]|]; simplify_eq/=.
      by rewrite list_lookup_insert_eq in Hd by by eapply lookup_lt_Some.
    + destruct (buffer s !! _) as [sl|]; simplify_eq/=.
      by rewrite list_lookup_insert_eq in Hd by by eapply lookup_lt_Some.
    + rewrite list_lookup_insert_eq in Hd by by eapply lookup_lt_Some. done.
Qed.

Lemma consumer_answers s' : consumer_step capacity s = Done s' → answers_ok s s'.
Proof.
  intros Hst. pose proof (taken_eq Hcap s D ph closed Hinv) as Htk.
  pose proof (bounded_small capacity Hcap _ Hb) as Hsm.
  pose proof (qi_consumer _ _ _ _ _ Hinv) as Hc.
  assert (producers s' = producers s) as Hps.
  { unfold consumer_step, obind, unwrap, rust_assert in Hst.
    destruct (consumer s); repeat case_match; by simplify_eq/=. }
  split; try (rewrite Hps; congruence).
  - intros z _ Hz m q. unfold mq_pop. rewrite Htk, claims_lookup.
    assert (holds_slot (consumer s) = false ∧
      (∀ sl, buffer s !! index_of capacity (dequeue_pos s) = Some sl →
         stamp sl = dequeue_pos s)) as (Hh & Hsd).
    { unfold consumer_step, obind, unwrap, rust_assert in Hst.
      destruct (consumer s) as [| | | | | |e]; repeat case_match; simplify_eq/=;
        try (destruct e); split; try done;
        intros sl [= <-]; symmetry; by apply Z.eqb_eq, negb_false_iff. }
    destruct (qi_slots _ _ _ _ _ Hinv D) as (sl & Hsl & Hok).
    { unfold first_held. rewrite Hh. lia. }
    rewrite (qi_dequeue _ _ _ _ _ Hinv), index_pos in Hsd by done. specialize (Hsd sl Hsl).
    unfold slot_ok in Hok. rewrite decide_False in Hok by lia.
    pose proof (pending_phase Hcap _ _ _ _ Hinv D) as Hpd.
    destruct (ph !! D) as [[i|i|]|] eqn:Eph.
    + rewrite (proj2 Hpd) by (exists i; by left). destruct (claims s !! D); [done|]. simpl.
      by destruct (is_closed capacity s).
    + rewrite (proj2 Hpd) by (exists i; by right). destruct (claims s !! D); [done|]. simpl.
      by destruct (is_closed capacity s).
    + destruct Hok as [Hok _]. lia.
    + apply lookup_ge_None in Eph. rewrite (qi_ph _ _ _ _ _ Hinv) in Eph.
      rewrite lookup_ge_None_2 by lia. simpl. by destruct (is_closed capacity s).
  - intros Hne Hcl. destruct (consumer_step_inv capacity Hcap s D ph closed Hinv Hb)
      as (s1 & D' & Hs1 & Hinv' & Hclm & Henq). rewrite Hst in Hs1. injection Hs1 as <-.
    assert (D' = D) as ->.
    { pose proof (qi_dequeue _ _ _ _ _ Hinv') as Hd'. pose proof (qi_dequeue _ _ _ _ _ Hinv) as Hd.
      unfold consumer_step, obind, unwrap, rust_assert in Hst.
      destruct (consumer s); repeat case_match; simplify_eq/=; rewrite Hd in Hd';
        by apply pos_inj in Hd'. }
    pose proof (qi_consumer _ _ _ _ _ Hinv') as Hc'. rewrite Hcl in Hc'. simpl in Hc'.
    destruct Hc' as (_ & Hcd & HD). unfold mq_pop. rewrite Htk, claims_lookup.
    rewrite lookup_ge_None_2 by (rewrite <-Hclm; lia). simpl.
    by rewrite (inv_is_closed _ _ _ _ _ Hcap Hinv), Hcd.
  - intros i st m Hbw Hne. unfold consumer_step, obind, unwrap, rust_assert in Hst.
    rewrite Htk, claims_lookup. clear Htk.
    destruct (consumer s) as [|z st'|j st'|j st' m'|j st'|z|e] eqn:Hcs;
      repeat case_match; simplify_eq/=. destruct Hc as (Hp & -> & -> & HD).
    destruct (qi_slots _ _ _ _ _ Hinv (D - 1)) as (sl & Hsl & Hok).
    { unfold first_held. rewrite Hcs. simpl. lia. }
    rewrite Hcs in Hok. unfold slot_ok in Hok. rewrite decide_True in Hok by lia.
    destruct Hok as [_ (x & Hx & Hbox)]. simplify_eq.
    rewrite <-Nat.sub_1_r, Hx. simpl.
    assert (pending (holder <$> producers s) (D - 1) = false) as ->; [|simpl; congruence].
    apply not_true_iff_false. rewrite (pending_phase Hcap _ _ _ _ Hinv).
    intros [k Hk]. pose proof (qi_phases _ _ _ _ _ Hinv (D - 1)) as Hph.
    destruct Hk as [Hk|Hk]; rewrite Hk in Hph; lia.
Qed.

Lemma close_answers : answers_ok s (close capacity s).
Proof. split; simpl; congruence. Qed.
End Steps.

(** C16: the concurrent queue of a mailbox refines the queue that the channel
    uses.  In a reachable state before the sequence counts wrap, every step of
    a producer, of the consumer or of a closing is one operation of that queue
    (a claim, a publication, a pop, a release, a close) or none; a push
    answers that the queue is full or closed, and a pop that it is empty or
    closed, only when that queue does; and the message that the consumer
    borrows is the one that was popped. *)
Theorem channel_queue_refines s s' :
  reachable capacity s → bounded capacity (length (claims s)) →
  queue_step capacity s (Done s') →
  mailbox_op (mailbox_of s) (mailbox_of s') ∧ answers_ok s s'.
Proof.
  intros Hr Hb Hst. destruct (reachable_queue_inv _ s Hr Hb) as (Hcap & D & ph & cl & Hinv).
  remember (Done s') as o eqn:Ho. destruct Hst as [i c o Hs| |]; subst.
  - split; [by eapply producer_refines|by eapply producer_answers].
  - split; [by eapply consumer_refines|by eapply consumer_answers].
  - injection Ho as <-. split; [by eapply close_refines|by eapply close_answers].
Qed.
End Refines.

(** The queue starts as the empty mailbox queue. *)
Lemma mailbox_new {M : Type} capacity n (s : Queue (M := M)) :
  queue_new capacity n = Done s → mailbox_of capacity s = mq_new.
Proof.
  unfold queue_new, obind, rust_assert. repeat case_match; try done. by intros [= <-].
Qed.

Lemma channel_queue_refines_witness :
  ∃ s s', demo_queue (two_pushes ++ [Prod 0 12; Prod 0 0]) = Done s ∧
    demo_queue (two_pushes ++ [Prod 0 12; Prod 0 0; Prod 0 0]) = Done s' ∧
    producers s' !! 0 = Some (PReturned (Err Full)) ∧ mq_full 2 (mailbox_of 2 s) = true.
Proof.
  destruct (demo_queue (two_pushes ++ [Prod 0 12; Prod 0 0])) as [s| |] eqn:Es;
    [|vm_compute in Es; discriminate..].
  destruct (demo_queue (two_pushes ++ [Prod 0 12; Prod 0 0; Prod 0 0])) as [s'| |] eqn:Es';
    [|vm_compute in Es'; discriminate..].
  exists s, s'. split; [reflexivity|]. split; [reflexivity|].
  pose proof (demo_queue_reachable _ _ Es) as Hr.
  vm_compute in Es. injection Es as <-. vm_compute in Es'. injection Es' as <-.
  split; [reflexivity|].
  match goal with |- mq_full 2 (mailbox_of 2 ?s) = true =>
    let o := eval vm_compute in (producer_step 2 0 (mkChoice 0 false) s) in
    match o with Some (Done ?s') =>
      refine (an_full _ _ _ (proj2 (channel_queue_refines 2 s s' Hr _ _)) 0 12 4%Z _ _)
    end
  end.
  - vm_compute. discriminate.
  - apply (step_producer _ _ 0 (mkChoice 0 false)). vm_compute. reflexivity.
  - vm_compute. reflexivity.
  - vm_compute. reflexivity.
Defined.
