(* ===== verification/Bit.v ===== *)
(** * Selection of the n-th set bit (util/bit.rs)

    The tree of adders and the binary search of [find_bit], on 64-bit words
    with the overflow checks of a debug build, and the proof that the result
    is the position of the bit of the requested rank. *)

From stdpp Require Import base option list numbers.
From Stdlib Require Import ZArith Lia.
From S2P Require Import Prelude Bits ChannelQueue.

#[local] Open Scope Z_scope.

(** ** Checked shifts of [usize] and subtraction of [isize] *)

Definition ushl (a k : Z) : outcome Z :=
  if (0 <=? k) && (k <? 64) then Done (wrap64 (Z.shiftl a k)) else Panicked.
Definition isub (a b : Z) : outcome Z :=
  if (- 2 ^ 63 <=? a - b) && (a - b <? 2 ^ 63) then Done (a - b) else Panicked.

(** ** The function *)

Definition P : nat := 6.

(** [sum_masks], whose [!0] is the greatest word. *)
Definition sum_masks : list Z := (λ p, (2 ^ 64 - 1) / (1 + 2 ^ 2 ^ Z.of_nat p)) <$> seq 0 P.

(** The sub-sums of groups of 8, 16 etc. adjacent bits. *)
Fixpoint sum_loop (ps : list nat) (sum : list Z) : outcome (list Z) :=
  match ps with
  | [] => Done sum
  | p :: ps =>
      let! t := uadd (sum !!! p) (Z.shiftr (sum !!! p) (2 ^ Z.of_nat p)) in
      sum_loop ps (<[S p := Z.land t (sum_masks !!! p)]> sum)
  end.

Definition sub_sums (value : Z) : outcome (list Z) :=
  let sum := <[0%nat := value]> (replicate (P + 1) 0) in
  let! s1 := usub value (Z.land (Z.shiftr value 1) (sum_masks !!! 0%nat)) in
  let sum := <[1%nat := s1]> sum in
  let! s2 := uadd (Z.land s1 (sum_masks !!! 1%nat)) (Z.land (Z.shiftr s1 2) (sum_masks !!! 1%nat)) in
  sum_loop (seq 2 (P - 2)) (<[2%nat := s2]> sum).

(** The binary search, from the coarsest level down. *)
Fixpoint search_loop (p : nat) (sum : list Z) (rank shift : Z) : outcome Z :=
  match p with
  | O => Done shift
  | S p =>
      let sub_mask := 2 ^ 2 ^ Z.of_nat p - 1 in
      let lower_sum := Z.land (Z.shiftr (sum !!! p) shift) sub_mask in
      let! d := isub (to_isize lower_sum) (to_isize rank) in
      let cmp_mask := wrap64 (Z.shiftr d 63) in
      let! rank := usub rank (Z.land lower_sum cmp_mask) in
      let! shift := uadd shift (Z.land (2 ^ Z.of_nat p) cmp_mask) in
      search_loop p sum rank shift
  end.

Definition find_bit (value : Z) (rank_fn : Z → Z) : outcome Z :=
  let! sum := sub_sums value in
  search_loop P sum (rank_fn (sum !!! P)) 0.

(** ** Numbers by their digits *)

(** The number with the digits [l] in base [2 ^ w], the lowest first. *)
Fixpoint num (w : Z) (l : list Z) : Z :=
  match l with
  | [] => 0
  | d :: l => d + 2 ^ w * num w l
  end.

Definition digits (w : Z) (l : list Z) : Prop := Forall (λ d, 0 <= d < 2 ^ w) l.

Lemma num_nonneg w l : 0 <= w → Forall (λ d, 0 <= d) l → 0 <= num w l.
Proof.
  intros Hw. induction 1 as [|d l Hd Hl IH]; simpl; [lia|].
  pose proof (Z.pow_nonneg 2 w). nia.
Qed.

Lemma digits_nonneg w l : digits w l → Forall (λ d, 0 <= d) l.
Proof.
  unfold digits. rewrite !Forall_lookup. intros Hd i x Hi. specialize (Hd i x Hi). lia.
Qed.

Lemma num_bound w l : 0 <= w → digits w l → num w l < 2 ^ (w * Z.of_nat (length l)).
Proof.
  intros Hw. induction 1 as [|d l Hd Hl IH]; simpl; [by rewrite Z.mul_0_r|].
  replace (w * Z.of_nat (S (length l))) with (w + w * Z.of_nat (length l)) by lia.
  rewrite Z.pow_add_r by lia. nia.
Qed.

Lemma num_tail w d l : 0 <= w → 0 <= d < 2 ^ w → Z.shiftr (num w (d :: l)) w = num w l.
Proof.
  intros Hw Hd. rewrite Z.shiftr_div_pow2 by lia. simpl.
  rewrite Z.add_comm, Z.mul_comm, Z.div_add_l, Z.div_small by lia. lia.
Qed.

(** Digit-wise conjunction. *)
Lemma num_land w a b x y : 0 <= w → 0 <= a < 2 ^ w → 0 <= b < 2 ^ w →
  Z.land (a + 2 ^ w * x) (b + 2 ^ w * y) = Z.land a b + 2 ^ w * Z.land x y.
Proof.
  intros Hw Ha Hb.
  assert (∀ c z, 0 <= c < 2 ^ w → c + 2 ^ w * z = Z.lor (z * 2 ^ w) c) as Hlor.
  { intros c z Hc. rewrite high_low_lor by lia. lia. }
  assert (0 <= Z.land a b < 2 ^ w) as Hab.
  { split; [apply Z.land_nonneg; lia|].
    destruct (decide (a = 0)) as [->|Hne]; [rewrite Z.land_0_l; lia|].
    destruct (decide (Z.land a b = 0)) as [->|Hl]; [lia|].
    apply Z.log2_lt_cancel. rewrite Z.log2_pow2 by lia.
    apply Z.le_lt_trans with (Z.log2 a).
    - etrans; [apply Z.log2_land; lia|apply Z.le_min_l].
    - apply Z.log2_lt_pow2; lia. }
  rewrite !Hlor by done. apply Z.bits_inj'. intros k Hk.
  rewrite ?Z.land_spec, ?Z.lor_spec. rewrite ?Z.land_spec.
  destruct (decide (k < w)) as [Hlt|Hge].
  - by rewrite !Z.mul_pow2_bits_low by lia.
  - assert (∀ c, 0 <= c < 2 ^ w → Z.testbit c k = false) as Hhi.
    { intros c Hc. destruct (decide (c = 0)) as [->|]; [apply Z.bits_0|].
      apply Z.bits_above_log2; [lia|]. apply Z.lt_le_trans with w; [|lia].
      apply Z.log2_lt_pow2; lia. }
    rewrite !(Hhi a), !(Hhi b), !orb_false_r by done.
    rewrite !Z.mul_pow2_bits by lia. by rewrite Z.land_spec.
Qed.

(** ** Sums of pairs *)

Fixpoint evens (l : list Z) : list Z :=
  match l with a :: _ :: l => a :: evens l | l => l end.
Fixpoint odds (l : list Z) : list Z :=
  match l with _ :: b :: l => b :: odds l | _ => [] end.
Fixpoint pair_sums (l : list Z) : list Z :=
  match l with a :: b :: l => (a + b) :: pair_sums l | l => l end.

(** Induction on lists of even length. *)
Lemma even_ind (Q : list Z → Prop) : Q [] → (∀ a b l, Q l → Q (a :: b :: l)) →
  ∀ n l, length l = (2 * n)%nat → Q l.
Proof.
  intros H0 H2 n. induction n as [|n IH]; intros l Hl.
  - destruct l; [done|simpl in Hl; lia].
  - destruct l as [|a [|b l]]; simpl in Hl; [lia|lia|]. apply H2, IH. lia.
Qed.

Lemma num_pair w a b l : 0 <= w → num w (a :: b :: l) = (a + 2 ^ w * b) + 2 ^ (2 * w) * num w l.
Proof. intros Hw. simpl. replace (2 * w) with (w + w) by lia. rewrite Z.pow_add_r by lia. lia. Qed.

Lemma land_low_digit w a b : 0 <= w → 0 <= a < 2 ^ w → Z.land (a + 2 ^ w * b) (2 ^ w - 1) = a.
Proof.
  intros Hw Ha. replace (2 ^ w - 1) with (Z.ones w) by (rewrite Z.ones_equiv; lia).
  rewrite Z.land_ones by lia. rewrite (Z.mul_comm _ b), Z.mod_add, Z.mod_small; lia.
Qed.

Lemma num_evens w n l : 0 <= w → digits w l → length l = (2 * n)%nat →
  Z.land (num w l) (num (2 * w) (replicate n (2 ^ w - 1))) = num (2 * w) (evens l).
Proof.
  intros Hw. revert l. induction n as [|n IH]; intros l Hd Hl.
  { destruct l; [done|simpl in Hl; lia]. }
  destruct l as [|a [|b l]]; simpl in Hl; [lia|lia|].
  apply Forall_cons_1 in Hd as [Ha [Hb Hd]%Forall_cons_1].
  assert (2 ^ (2 * w) = 2 ^ w * 2 ^ w) as H2w
    by (replace (2 * w) with (w + w) by lia; rewrite Z.pow_add_r; lia).
  rewrite num_pair by done. cbn [replicate num evens]. rewrite num_land by nia.
  rewrite IH by (done || lia). by rewrite land_low_digit.
Qed.

Lemma num_snoc_zero w l : num w (l ++ [0]) = num w l.
Proof. induction l as [|d l IH]; simpl; [lia|]. by rewrite IH. Qed.

Lemma evens_tail n a b l : length l = (2 * n)%nat → evens (b :: l ++ [0]) = odds (a :: b :: l).
Proof.
  intros Hl. simpl. revert a b. revert n l Hl. refine (even_ind _ _ _); [done|].
  intros c d l IH a b. simpl. f_equal. by apply (IH c).
Qed.

(** The upper members of the pairs. *)
Lemma num_odds w n l : 0 <= w → digits w l → length l = (2 * n)%nat →
  Z.land (Z.shiftr (num w l) w) (num (2 * w) (replicate n (2 ^ w - 1))) = num (2 * w) (odds l).
Proof.
  intros Hw Hd Hl. destruct l as [|a [|b l]]; simpl in Hl.
  - destruct n; [|lia]. simpl. by rewrite Z.shiftr_0_l.
  - lia.
  - pose proof Hd as [Ha Hd']%Forall_cons_1. rewrite num_tail, <-num_snoc_zero by lia.
    rewrite (num_evens w n ((b :: l) ++ [0])).
    + change ((b :: l) ++ [0]) with (b :: l ++ [0]).
      by rewrite (evens_tail (n - 1) a b l) by lia.
    + done.
    + apply Forall_app. split; [done|]. constructor; [|constructor].
      split; [lia|]. apply Z.pow_pos_nonneg; lia.
    + rewrite length_app. simpl. lia.
Qed.

Lemma evens_odds w n l : length l = (2 * n)%nat →
  num w (evens l) + num w (odds l) = num w (pair_sums l).
Proof. revert n l. refine (even_ind _ _ _); [done|]. intros a b l IH. simpl. lia. Qed.

(** The first level: a word less its upper bits of pairs. *)
Lemma pairs_of_bits n l : length l = (2 * n)%nat →
  num 1 l - num 2 (odds l) = num 2 (pair_sums l).
Proof.
  revert n l. refine (even_ind _ _ _); [done|]. intros a b l IH.
  rewrite num_pair by lia. cbn [odds pair_sums num]. change (2 * 1) with 2. lia.
Qed.

(** Neighbours added, then masked. *)
Lemma num_neighbours w d l : 0 <= w → 0 <= d < 2 ^ w →
  num w (d :: l) + Z.shiftr (num w (d :: l)) w = num w (zip_with Z.add (d :: l) (l ++ [0])).
Proof.
  intros Hw Hd. rewrite num_tail by done.
  clear Hd. revert d. induction l as [|e l IH]; intros d; simpl; [lia|].
  specialize (IH e). simpl in IH. lia.
Qed.

Lemma evens_neighbours n l : length l = (2 * n)%nat → ∀ d b,
  evens (zip_with Z.add (d :: b :: l) ((b :: l) ++ [0])) = pair_sums (d :: b :: l).
Proof.
  revert n l. refine (even_ind _ _ _); [done|]. intros c e l IH d b.
  cbn [app zip_with evens pair_sums]. f_equal. exact (IH c e).
Qed.

(** ** The levels of the tree *)

Fixpoint bits (n : nat) (v : Z) : list Z :=
  match n with O => [] | S n => (v mod 2) :: bits n (v / 2) end.

Lemma bits_length n v : length (bits n v) = n.
Proof. revert v. induction n as [|n IH]; intros v; simpl; [done|]. by rewrite IH. Qed.

Lemma bits_digits n v : Forall (λ d, 0 <= d <= 1) (bits n v).
Proof.
  revert v. induction n as [|n IH]; intros v; simpl; constructor; [|done].
  pose proof (Z.mod_pos_bound v 2). lia.
Qed.

Lemma bits_num n v : 0 <= v → num 1 (bits n v) = v mod 2 ^ Z.of_nat n.
Proof.
  revert v. induction n as [|n IH]; intros v Hv; [by rewrite Z.mod_1_r|]. cbn [bits num].
  rewrite IH by (apply Z.div_pos; lia). rewrite Nat2Z.inj_succ, Z.pow_succ_r by lia.
  rewrite Z.rem_mul_r by lia. lia.
Qed.

Lemma bits_lookup n v k : (k < n)%nat → bits n v !! k = Some (Z.b2z (Z.testbit v (Z.of_nat k))).
Proof.
  revert v k. induction n as [|n IH]; intros v [|k] Hk; [lia..| |]; cbn [bits].
  - change (Z.of_nat 0) with 0. by rewrite Z.bit0_mod.
  - simpl. rewrite IH by lia. do 2 f_equal.
    by rewrite Z.div2_bits, <-Nat2Z.inj_succ by lia.
Qed.

Definition level (p : nat) (v : Z) : list Z := Nat.iter p pair_sums (bits 64 v).

Lemma pair_sums_length n l : length l = (2 * n)%nat → length (pair_sums l) = n.
Proof.
  revert l. induction n as [|n IH]; intros l Hl; [by destruct l|].
  destruct l as [|a [|b l]]; simpl in Hl; [lia|lia|]. simpl. rewrite IH; lia.
Qed.

Lemma pair_sums_lookup n l j a b : length l = (2 * n)%nat →
  l !! (2 * j)%nat = Some a → l !! (2 * j + 1)%nat = Some b → pair_sums l !! j = Some (a + b).
Proof.
  revert l j. induction n as [|n IH]; intros l j Hl Ha Hb; [by destruct l|].
  destruct l as [|x [|y l]]; simpl in Hl; [lia|lia|]. destruct j as [|j].
  - simpl in *. by simplify_eq.
  - cbn [pair_sums]. simpl. apply IH; [lia|..].
    + by replace (2 * S j)%nat with (S (S (2 * j))) in Ha by lia.
    + by replace (2 * S j + 1)%nat with (S (S (2 * j + 1))) in Hb by lia.
Qed.

Lemma pair_sums_bound c n l : length l = (2 * n)%nat → Forall (λ d, 0 <= d <= c) l →
  Forall (λ d, 0 <= d <= 2 * c) (pair_sums l).
Proof.
  revert n l. refine (even_ind _ _ _); [done|]. intros a b l IH Hd.
  apply Forall_cons_1 in Hd as [Ha [Hb Hd]%Forall_cons_1]. simpl. constructor; [lia|]. by apply IH.
Qed.

Lemma level_ok p v : (p <= P)%nat →
  length (level p v) = (2 ^ (P - p))%nat ∧ Forall (λ d, 0 <= d <= 2 ^ Z.of_nat p) (level p v).
Proof.
  induction p as [|p IH]; intros Hp.
  { split; [apply bits_length|apply bits_digits]. }
  destruct IH as [Hl Hd]; [lia|]. change (level (S p) v) with (pair_sums (level p v)).
  assert (length (level p v) = (2 * 2 ^ (P - S p))%nat) as Hl'.
  { rewrite Hl. replace (P - p)%nat with (S (P - S p)) by lia. done. }
  split; [by apply pair_sums_length|]. rewrite Nat2Z.inj_succ, Z.pow_succ_r by lia.
  by eapply pair_sums_bound.
Qed.

(** ** The sub-sums are the levels *)

Lemma mask_eq p : (p < P)%nat →
  sum_masks !!! p = num (2 * 2 ^ Z.of_nat p) (replicate (2 ^ (P - S p)) (2 ^ 2 ^ Z.of_nat p - 1)).
Proof.
  intros Hp. do 6 (destruct p as [|p]; [by vm_compute|]). unfold P in Hp. lia.
Qed.

Definition level_num (v : Z) (p : nat) : Z := num (2 ^ Z.of_nat p) (level p v).

Lemma level_digits p v : (p <= P)%nat → digits (2 ^ Z.of_nat p) (level p v).
Proof.
  intros Hp. destruct (level_ok p v Hp) as [_ Hd]. unfold digits.
  rewrite Forall_lookup in *. intros i x Hi. specialize (Hd i x Hi).
  pose proof (Z.pow_gt_lin_r 2 (2 ^ Z.of_nat p)). lia.
Qed.

Lemma level_even p v : (p < P)%nat → length (level p v) = (2 * 2 ^ (P - S p))%nat.
Proof.
  intros Hp. rewrite (proj1 (level_ok p v ltac:(lia))).
  by replace (P - p)%nat with (S (P - S p)) by lia.
Qed.

Lemma level_num_bound p v : (p <= P)%nat → 0 <= level_num v p < 2 ^ 64.
Proof.
  intros Hp. pose proof (level_digits p v Hp) as Hd. split.
  - apply num_nonneg; [lia|]. by eapply digits_nonneg.
  - eapply Z.lt_le_trans; [apply num_bound; [lia|done]|].
    rewrite (proj1 (level_ok p v Hp)). rewrite Nat2Z.inj_pow, <-Z.pow_add_r by lia.
    apply Z.pow_le_mono_r; [lia|]. apply Z.eq_le_incl. rewrite <-Nat2Z.inj_add.
    by replace (p + (P - p))%nat with P by lia.
Qed.

Lemma level_next v p : level_num v (S p) = num (2 * 2 ^ Z.of_nat p) (pair_sums (level p v)).
Proof. unfold level_num. by rewrite Nat2Z.inj_succ, Z.pow_succ_r by lia. Qed.

(** A level from the one below, when the sums of two neighbours do not
    overlap. *)
Lemma level_step v p : (2 <= p < P)%nat →
  ∃ t, uadd (level_num v p) (Z.shiftr (level_num v p) (2 ^ Z.of_nat p)) = Done t ∧
    Z.land t (sum_masks !!! p) = level_num v (S p).
Proof.
  intros Hp. pose proof (level_digits p v ltac:(lia)) as Hd.
  pose proof (level_even p v ltac:(lia)) as Hl. rewrite level_next.
  destruct (level_ok p v ltac:(lia)) as [_ Hsm]. unfold level_num in *.
  set (w := 2 ^ Z.of_nat p) in *. assert (0 <= w) by (unfold w; lia).
  assert (2 * w < 2 ^ w) as H2w.
  { unfold w. assert (p = 2 ∨ p = 3 ∨ p = 4 ∨ p = 5)%nat as [->|[->|[->| ->]]]
      by (unfold P in Hp; lia); by vm_compute. }
  assert (∃ d b l, level p v = d :: b :: l ∧ length l = (2 * (2 ^ (P - S p) - 1))%nat)
    as (d & b & l & Heq & Hll).
  { pose proof (Nat.pow_nonzero 2 (P - S p) ltac:(lia)).
    destruct (level p v) as [|d [|b l]]; cbn [length] in Hl; [lia|lia|].
    exists d, b, l. split; [done|lia]. }
  rewrite Heq in *. pose proof Hd as [Hd1 _]%Forall_cons_1.
  assert (digits w (zip_with Z.add (d :: b :: l) ((b :: l) ++ [0]))) as Hz.
  { apply Forall_lookup. intros i z (x & y & -> & Hx & Hy)%lookup_zip_with_Some.
    rewrite Forall_lookup in Hsm. pose proof (Hsm i x Hx).
    assert (0 <= y <= w) as Hy'; [|lia].
    apply lookup_app_Some in Hy as [Hy|[_ Hy]]; [by apply (Hsm (S i))|].
    apply list_lookup_singleton_Some in Hy as [_ <-]. lia. }
  assert (length (zip_with Z.add (d :: b :: l) ((b :: l) ++ [0])) = (2 * 2 ^ (P - S p))%nat) as Hzl.
  { rewrite length_zip_with, length_app. cbn [length] in *. lia. }
  unfold uadd. rewrite num_neighbours by done. eexists. split.
  - rewrite (proj2 (Z.ltb_lt _ _)); [done|].
    eapply Z.lt_le_trans; [apply num_bound; [done|exact Hz]|].
    rewrite Hzl. unfold w. apply Z.pow_le_mono_r; [lia|].
    assert (p = 2 ∨ p = 3 ∨ p = 4 ∨ p = 5)%nat as [->|[->|[->| ->]]]
      by (unfold P in Hp; lia); by vm_compute.
  - rewrite mask_eq by lia. fold w. rewrite num_evens by done.
    by rewrite (evens_neighbours _ _ Hll).
Qed.

Lemma sum_loop_ok v k : (k <= P - 2)%nat → ∀ sum, length sum = (P + 1)%nat →
  (∀ p, (p <= P - k)%nat → sum !! p = Some (level_num v p)) →
  ∃ sum', sum_loop (seq (P - k) k) sum = Done sum' ∧
    ∀ p, (p <= P)%nat → sum' !! p = Some (level_num v p).
Proof.
  induction k as [|k IH]; intros Hk sum Hl Hs; cbn [seq sum_loop].
  - exists sum. split; [done|]. intros p Hp. apply Hs. lia.
  - destruct (level_step v (P - S k)) as (t & Ht & Hm); [lia|].
    pose proof (Hs (P - S k)%nat ltac:(lia)) as Hlk. apply list_lookup_total_correct in Hlk.
    rewrite Hlk, Ht. cbn [obind].
    rewrite Hm. replace (S (P - S k)) with (P - k)%nat by lia.
    apply IH; [lia|by rewrite length_insert|].
    intros p Hp. destruct (decide (p = P - k)%nat) as [->|Hne].
    + apply list_lookup_insert_eq. lia.
    + rewrite list_lookup_insert_ne by lia. apply Hs. lia.
Qed.

Lemma level_0 v : 0 <= v < 2 ^ 64 → level_num v 0 = v.
Proof. intros Hv. change (num 1 (bits 64 v) = v). rewrite bits_num by lia. by apply Z.mod_small. Qed.

Lemma sub_sums_ok v : 0 <= v < 2 ^ 64 →
  ∃ sum, sub_sums v = Done sum ∧ ∀ p, (p <= P)%nat → sum !! p = Some (level_num v p).
Proof.
  intros Hv. unfold sub_sums.
  pose proof (level_0 v Hv) as H0. pose proof (level_num_bound 1 v ltac:(unfold P; lia)) as Hb1.
  pose proof (level_num_bound 2 v ltac:(unfold P; lia)) as Hb2.
  assert (v - Z.land (Z.shiftr v 1) (sum_masks !!! 0%nat) = level_num v 1) as H1.
  { rewrite level_next, mask_eq by (unfold P; lia). rewrite <-H0 at 1 2. unfold level_num.
    change (2 ^ Z.of_nat 0) with 1. rewrite (num_odds 1).
    - change (2 * 1) with 2. by apply (pairs_of_bits 32).
    - lia.
    - apply (level_digits 0). lia.
    - done. }
  unfold usub. rewrite (proj2 (Z.leb_le _ _)) by lia. rewrite H1. cbn [obind].
  assert (Z.land (level_num v 1) (sum_masks !!! 1%nat) +
    Z.land (Z.shiftr (level_num v 1) 2) (sum_masks !!! 1%nat) = level_num v 2) as H2.
  { rewrite (level_next v 1), mask_eq by (unfold P; lia). unfold level_num.
    change (2 ^ Z.of_nat 1) with 2.
    pose proof (level_digits 1 v ltac:(unfold P; lia)) as Hd.
    pose proof (level_even 1 v ltac:(unfold P; lia)) as He.
    rewrite (num_odds 2), (num_evens 2) by (done || lia). by eapply evens_odds. }
  unfold uadd. rewrite H2, (proj2 (Z.ltb_lt _ _)) by lia. cbn [obind].
  apply (sum_loop_ok v (P - 2)); [lia|done|].
  intros p Hp. destruct p as [|[|[|p]]]; simpl; [by rewrite H0|done|done|unfold P in Hp; lia].
Qed.

(** ** The search *)

(** The number of set bits below position [n]. *)
Definition ones_below (v : Z) (n : nat) : Z := foldr Z.add 0 (take n (bits 64 v)).

Lemma sum_app l l' : foldr Z.add 0 (l ++ l') = foldr Z.add 0 l + foldr Z.add 0 l'.
Proof. induction l as [|d l IH]; simpl; [done|]. lia. Qed.

Lemma level_halves p v j d : (p < P)%nat → level (S p) v !! j = Some d →
  ∃ a b, level p v !! (2 * j)%nat = Some a ∧ level p v !! (2 * j + 1)%nat = Some b ∧ d = a + b.
Proof.
  intros Hp Hj. pose proof (level_even p v Hp) as Hl.
  pose proof (lookup_lt_Some _ _ _ Hj) as Hlt.
  rewrite (proj1 (level_ok (S p) v ltac:(lia))) in Hlt.
  destruct (lookup_lt_is_Some_2 (level p v) (2 * j)) as [a Ha]; [lia|].
  destruct (lookup_lt_is_Some_2 (level p v) (2 * j + 1)) as [b Hb]; [lia|].
  exists a, b. split_and!; [done..|].
  pose proof (pair_sums_lookup _ _ _ _ _ Hl Ha Hb) as Hab.
  change (pair_sums (level p v)) with (level (S p) v) in Hab. congruence.
Qed.

Lemma level_prefix p v j d : (p <= P)%nat → level p v !! j = Some d →
  ones_below v (2 ^ p * (j + 1)) = ones_below v (2 ^ p * j) + d.
Proof.
  revert j d. induction p as [|p IH]; intros j d Hp Hj.
  - unfold ones_below. rewrite !Nat.mul_1_l, Nat.add_1_r.
    change (level 0 v) with (bits 64 v) in Hj. rewrite (take_S_r _ _ _ Hj), sum_app. simpl. lia.
  - destruct (level_halves p v j d Hp Hj) as (a & b & Ha & Hb & ->).
    pose proof (IH _ _ ltac:(lia) Ha) as IHa. pose proof (IH _ _ ltac:(lia) Hb) as IHb.
    rewrite Nat.pow_succ_r'.
    replace (2 * 2 ^ p * (j + 1))%nat with (2 ^ p * (2 * j + 1 + 1))%nat by lia.
    replace (2 * 2 ^ p * j)%nat with (2 ^ p * (2 * j))%nat by lia. lia.
Qed.

Lemma num_digit w l j d : 0 <= w → digits w l → l !! j = Some d →
  Z.land (Z.shiftr (num w l) (w * Z.of_nat j)) (2 ^ w - 1) = d.
Proof.
  intros Hw. revert j. induction l as [|e l IH]; intros j Hd Hj; [done|].
  apply Forall_cons_1 in Hd as [He Hd]. destruct j as [|j].
  - injection Hj as ->. rewrite Z.mul_0_r, Z.shiftr_0_r. cbn [num]. by apply land_low_digit.
  - rewrite Nat2Z.inj_succ, Z.mul_succ_r, Z.add_comm.
    rewrite <-Z.shiftr_shiftr, num_tail by lia. by apply IH.
Qed.

(** The branchless comparison. *)
Lemma search_branch lower rank : 0 <= lower <= 64 → 0 <= rank < 2 ^ 63 →
  ∃ d, isub (to_isize lower) (to_isize rank) = Done d ∧
    ∀ x, 0 <= x < 2 ^ 64 →
      Z.land x (wrap64 (Z.shiftr d 63)) = if lower <? rank then x else 0.
Proof.
  intros Hl Hr. unfold to_isize. rewrite !(proj2 (Z.ltb_lt _ (2 ^ 63))) by lia.
  unfold isub. rewrite (proj2 (Z.leb_le _ _)), (proj2 (Z.ltb_lt _ _)) by lia.
  eexists. split; [done|]. intros x Hx. rewrite Z.shiftr_div_pow2 by lia.
  destruct (Z.ltb_spec lower rank).
  - replace ((lower - rank) / 2 ^ 63) with (-1).
    + change (wrap64 (-1)) with (Z.ones 64). rewrite Z.land_ones by lia. by apply Z.mod_small.
    + apply Z.div_unique with (lower - rank + 2 ^ 63); lia.
  - rewrite Z.div_small by lia. change (wrap64 0) with 0. apply Z.land_0_r.
Qed.

Section Search.
Context (v : Z) (sum : list Z).
Context (Hsum : ∀ p, (p <= P)%nat → sum !! p = Some (level_num v p)).

Lemma search_step p j c rank : (p < P)%nat → 0 <= rank < 2 ^ 63 →
  level (S p) v !! j = Some c →
  ∃ a b, level p v !! (2 * j)%nat = Some a ∧ level p v !! (2 * j + 1)%nat = Some b ∧
    c = a + b ∧ 0 <= a ∧ 0 <= b ∧
    search_loop (S p) sum rank (2 ^ Z.of_nat (S p) * Z.of_nat j) =
      if a <? rank then search_loop p sum (rank - a) (2 ^ Z.of_nat p * Z.of_nat (2 * j + 1))
      else search_loop p sum rank (2 ^ Z.of_nat p * Z.of_nat (2 * j)).
Proof.
  intros Hp Hr Hj. destruct (level_halves p v j c Hp Hj) as (a & b & Ha & Hb & ->).
  exists a, b. destruct (level_ok p v ltac:(lia)) as [Hlen Hd].
  rewrite Forall_lookup in Hd. pose proof (Hd _ _ Ha) as Ha'. pose proof (Hd _ _ Hb) as Hb'.
  split_and!; try done; try lia.
  assert (2 ^ Z.of_nat p <= 64) as Hp64.
  { change 64 with (2 ^ 6). apply Z.pow_le_mono_r; [lia|]. unfold P in Hp. lia. }
  assert (2 ^ Z.of_nat (S p) * Z.of_nat j = 2 ^ Z.of_nat p * Z.of_nat (2 * j)) as Hsh
    by (rewrite Nat2Z.inj_succ, Z.pow_succ_r by lia; lia).
  cbn [search_loop]. pose proof (Hsum p ltac:(lia)) as Hl.
  apply list_lookup_total_correct in Hl. rewrite Hl. unfold level_num. rewrite Hsh, (num_digit _ _ (2 * j) a);
    [|lia|by apply level_digits; lia|done].
  destruct (search_branch a rank) as (d & Hd' & Hland); [lia|done|]. rewrite Hd'. cbn [obind].
  rewrite !Hland by lia. unfold usub, uadd.
  assert (Z.of_nat (2 * j + 1) <= 64) as Hj64.
  { apply lookup_lt_Some in Hb. rewrite Hlen in Hb.
    assert (2 ^ (P - p) <= 2 ^ 6)%nat by (apply Nat.pow_le_mono_r; unfold P; lia). simpl in *. lia. }
  destruct (Z.ltb_spec a rank).
  - rewrite (proj2 (Z.leb_le _ _)) by lia. cbn [obind].
    rewrite (proj2 (Z.ltb_lt _ _)) by nia. cbn [obind]. f_equal. lia.
  - rewrite Z.sub_0_r, Z.add_0_r, (proj2 (Z.leb_le _ _)) by lia. cbn [obind].
    by rewrite (proj2 (Z.ltb_lt _ _)) by nia.
Qed.

Lemma search_found p : (p <= P)%nat → ∀ j c rank, level p v !! j = Some c → 1 <= rank <= c →
  rank < 2 ^ 63 →
  ∃ n, search_loop p sum rank (2 ^ Z.of_nat p * Z.of_nat j) = Done (Z.of_nat n) ∧ (n < 64)%nat ∧
    Z.testbit v (Z.of_nat n) = true ∧ ones_below v n = ones_below v (2 ^ p * j) + rank - 1.
Proof.
  induction p as [|p IH]; intros Hp j c rank Hj Hr Hr63.
  - exists j. pose proof (lookup_lt_Some _ _ _ Hj) as Hlt. change (level 0 v) with (bits 64 v) in *.
    rewrite bits_length in Hlt. rewrite bits_lookup in Hj by done.
    destruct (Z.testbit v (Z.of_nat j)); simplify_eq/=; [|lia].
    split_and!; [by rewrite Z.mul_1_l|done|done|rewrite Nat.add_0_r; lia].
  - destruct (search_step p j c rank ltac:(lia) ltac:(lia) Hj)
      as (a & b & Ha & Hb & -> & Ha0 & Hb0 & ->).
    pose proof (level_prefix p v _ _ ltac:(lia) Ha) as Hpre.
    replace (2 ^ S p * j)%nat with (2 ^ p * (2 * j))%nat by (rewrite Nat.pow_succ_r'; lia).
    destruct (Z.ltb_spec a rank).
    + destruct (IH ltac:(lia) _ _ (rank - a) Hb) as (n & Hn & H64 & Ht & Ho); [lia..|].
      exists n. split_and!; [done..|]. lia.
    + destruct (IH ltac:(lia) _ _ rank Ha) as (n & Hn & H64 & Ht & Ho); [lia..|].
      exists n. by split_and!.
Qed.

Lemma search_low p : (p <= P)%nat → ∀ j c, level p v !! j = Some c →
  search_loop p sum 0 (2 ^ Z.of_nat p * Z.of_nat j) = Done (2 ^ Z.of_nat p * Z.of_nat j).
Proof.
  induction p as [|p IH]; intros Hp j c Hj; [done|].
  destruct (search_step p j c 0 ltac:(lia) ltac:(lia) Hj) as (a & b & Ha & Hb & -> & Ha0 & Hb0 & ->).
  rewrite (proj2 (Z.ltb_ge _ _)) by lia. rewrite (IH ltac:(lia) _ _ Ha).
  f_equal. rewrite Nat2Z.inj_succ, Z.pow_succ_r by lia. lia.
Qed.

Lemma search_high p : (p <= P)%nat → ∀ j c rank, level p v !! j = Some c → c < rank < 2 ^ 63 →
  search_loop p sum rank (2 ^ Z.of_nat p * Z.of_nat j) =
    Done (2 ^ Z.of_nat p * (Z.of_nat j + 1) - 1).
Proof.
  induction p as [|p IH]; intros Hp j c rank Hj Hr; [simpl; f_equal; lia|].
  destruct (level_ok (S p) v Hp) as [_ Hd]. rewrite Forall_lookup in Hd. pose proof (Hd _ _ Hj).
  destruct (search_step p j c rank ltac:(lia) ltac:(lia) Hj)
    as (a & b & Ha & Hb & -> & Ha0 & Hb0 & ->).
  rewrite (proj2 (Z.ltb_lt _ _)) by lia. rewrite (IH ltac:(lia) _ _ (rank - a) Hb) by lia.
  f_equal. rewrite Nat2Z.inj_succ, Z.pow_succ_r by lia. lia.
Qed.
End Search.

(** The search starts with the whole word. *)
Lemma find_bit_unfold v : 0 <= v < 2 ^ 64 →
  ∃ sum, (∀ p, (p <= P)%nat → sum !! p = Some (level_num v p)) ∧
    level P v !! 0%nat = Some (ones_below v 64) ∧ 0 <= ones_below v 64 <= 64 ∧
    ∀ f, find_bit v f = search_loop P sum (f (ones_below v 64)) (2 ^ Z.of_nat P * Z.of_nat 0).
Proof.
  intros Hv. destruct (sub_sums_ok v Hv) as (sum & Hs & Hsum). exists sum.
  pose proof (Hsum P ltac:(lia)) as HP. apply list_lookup_total_correct in HP.
  destruct (level_ok P v ltac:(lia)) as [Hl Hd].
  assert (level P v !! 0%nat = Some (ones_below v 64)) as Htop.
  { destruct (lookup_lt_is_Some_2 (level P v) 0) as [c Hc]; [rewrite Hl; apply Nat.lt_0_1|].
    rewrite Hc. pose proof (level_prefix P v 0 c ltac:(lia) Hc) as Hpre.
    change (ones_below v (2 ^ P * (0 + 1))) with (ones_below v 64) in Hpre.
    change (ones_below v (2 ^ P * 0)) with 0 in Hpre. f_equal. lia. }
  assert (level_num v P = ones_below v 64) as Hcnt.
  { unfold level_num. destruct (level P v) as [|c [|]]; [done| |simpl in Hl; lia].
    injection Htop as ->. cbn [num]. lia. }
  split_and!; [done..| | |].
  - rewrite Forall_lookup in Hd. apply (Hd _ _ Htop).
  - rewrite Forall_lookup in Hd. apply (Hd _ _ Htop).
  - intros f. unfold find_bit. rewrite Hs. cbn [obind]. by rewrite HP, Hcnt.
Qed.

Lemma find_bit_found v f : 0 <= v < 2 ^ 64 → 1 <= f (ones_below v 64) <= ones_below v 64 →
  ∃ n, find_bit v f = Done (Z.of_nat n) ∧ (n < 64)%nat ∧ Z.testbit v (Z.of_nat n) = true ∧
    ones_below v n = f (ones_below v 64) - 1.
Proof.
  intros Hv Hr. destruct (find_bit_unfold v Hv) as (sum & Hsum & Htop & H64 & Hf).
  destruct (search_found v sum Hsum P ltac:(lia) 0 _ (f (ones_below v 64)) Htop)
    as (n & Hn & Hn64 & Ht & Ho); [lia..|].
  exists n. rewrite Hf. split_and!; [done..|].
  change (ones_below v (2 ^ P * 0)) with 0 in Ho. lia.
Qed.

(** [find_bit] selects the bit of the requested rank.  The closure gets the
    number of set bits; no intermediate sum overflows; for a rank from 1 to
    that number, the result is the position of a set bit with [rank - 1] set
    bits below it; for rank 0 it is 0, and for a greater rank (below
    [isize::MAX]) it is 63. *)
Lemma find_bit_selects v rank_fn :
  0 <= v < 2 ^ 64 →
  let rank := rank_fn (ones_below v 64) in
  0 <= rank < 2 ^ 63 →
  ∃ n, find_bit v rank_fn = Done (Z.of_nat n) ∧ (n < 64)%nat ∧
    (1 <= rank <= ones_below v 64 →
       Z.testbit v (Z.of_nat n) = true ∧ ones_below v n = rank - 1) ∧
    (rank = 0 → n = 0%nat) ∧ (ones_below v 64 < rank → n = 63%nat).
Proof.
  intros Hv rank Hr. destruct (find_bit_unfold v Hv) as (sum & Hsum & Htop & H64 & Hf).
  destruct (decide (rank = 0)) as [He|Hne].
  - exists 0%nat. rewrite Hf. fold rank. rewrite He, (search_low v sum Hsum P ltac:(lia) 0 _ Htop).
    split_and!; lia || done.
  - destruct (decide (rank <= ones_below v 64)) as [Hle|Hgt].
    + destruct (find_bit_found v rank_fn Hv) as (n & Hn & Hn64 & Ht & Ho); [fold rank; lia|].
      exists n. fold rank in Ho. split_and!; try done; lia.
    + exists 63%nat. rewrite Hf. fold rank.
      rewrite (search_high v sum Hsum P ltac:(lia) 0 _ rank Htop) by lia.
      split_and!; [by vm_compute|lia..].
Qed.

(** The third set bit of 0b10110100. *)
Lemma find_bit_selects_witness :
  find_bit 180 (λ _, 3) = Done 5 ∧ Z.testbit 180 5 = true ∧ ones_below 180 5 = 2.
Proof.
  destruct (find_bit_selects 180 (λ _, 3)) as (n & Hn & _ & Hf & _); [lia|simpl; lia|].
  assert (find_bit 180 (λ _, 3) = Done 5) as H5 by (vm_compute; reflexivity).
  rewrite Hn in H5. injection H5 as Heq. rewrite Hn. split; [by rewrite Heq|].
  assert (n = 5%nat) as -> by lia. apply Hf.
  assert (ones_below 180 64 = 4) as -> by (vm_compute; reflexivity). lia.
Defined.

(** A rank that is negative as an [isize] is taken for a small one, although
    it is greater than the number of set bits. *)
Lemma find_bit_huge_rank : find_bit 180 (λ _, 2 ^ 64 - 1) = Done 0.
Proof. vm_compute. reflexivity. Qed.
