(* ===== verification/PoolManager.v ===== *)
(** * The choice of a victim (executor/mt_executor/pool_manager.rs, util/rng.rs)

    The iterator over the active workers from which a worker may steal: a bit
    field rotated so that a random active worker comes first. *)

From stdpp Require Import base option list numbers.
From Stdlib Require Import ZArith Lia.
From S2P Require Import Prelude Bits ChannelQueue Bit.

#[local] Open Scope Z_scope.

(** ** The random generator *)

Record Rng := mkRng { seed : Z }.

(** [Rng::gen]: the products are on 128 bits. *)
Definition gen (self : Rng) : Z * Rng :=
  let seed := wrap64 (seed self + 0xA0761D6478BD642F) in
  let t := seed * Z.lxor seed 0xE7037ED1A0B428DB in
  (Z.lxor (wrap64 t) (wrap64 (Z.shiftr t 64)), mkRng seed).

Definition gen_bounded (upper_bound : Z) (self : Rng) : Z * Rng :=
  let '(r, self) := gen self in
  (wrap64 (Z.shiftr (r * upper_bound) 64), self).

Lemma lxor_bound a b : 0 <= a < 2 ^ 64 → 0 <= b < 2 ^ 64 → 0 <= Z.lxor a b < 2 ^ 64.
Proof.
  intros Ha Hb. split; [apply Z.lxor_nonneg; lia|].
  destruct (decide (Z.lxor a b = 0)) as [->|Hne]; [lia|].
  assert (0 <= Z.lxor a b) by (apply Z.lxor_nonneg; lia).
  apply Z.log2_lt_pow2; [lia|].
  eapply Z.le_lt_trans; [apply Z.log2_lxor; lia|].
  assert (∀ c, 0 <= c < 2 ^ 64 → Z.log2 c < 64) as Hlog.
  { intros c Hc. destruct (decide (c = 0)) as [->|]; [by vm_compute|].
    apply Z.log2_lt_pow2; lia. }
  apply Z.max_lub_lt; by apply Hlog.
Qed.

Lemma wrap64_range z : 0 <= wrap64 z < 2 ^ 64.
Proof. unfold wrap64. change u64_modulus with (2 ^ 64). apply Z.mod_pos_bound. lia. Qed.

Lemma gen_range self : 0 <= (gen self).1 < 2 ^ 64.
Proof. apply lxor_bound; apply wrap64_range. Qed.

(** A bounded number is below its bound. *)
Lemma gen_bounded_range n self : 0 < n < 2 ^ 64 → 0 <= (gen_bounded n self).1 < n.
Proof.
  intros Hn. unfold gen_bounded. pose proof (gen_range self) as Hg.
  destruct (gen self) as [r rng]. simpl in *.
  rewrite Z.shiftr_div_pow2 by lia.
  assert (0 <= r * n / 2 ^ 64 < n) as Hq.
  { split; [apply Z.div_pos; nia|]. apply Z.div_lt_upper_bound; nia. }
  rewrite wrap_small by lia. done.
Qed.

(** ** Trailing zeros and ones *)

Fixpoint count_trailing (b : bool) (fuel : nat) (z : Z) : nat :=
  match fuel with
  | O => 0
  | S fuel => if eqb (Z.odd z) b then S (count_trailing b fuel (z / 2)) else 0
  end.
Definition trailing_zeros (z : Z) : nat := count_trailing false 64 z.
Definition trailing_ones (z : Z) : nat := count_trailing true 64 z.

Lemma count_trailing_below b fuel z k : (k < count_trailing b fuel z)%nat →
  Z.testbit z (Z.of_nat k) = b.
Proof.
  revert z k. induction fuel as [|fuel IH]; intros z k Hk; simpl in Hk; [lia|].
  destruct (eqb (Z.odd z) b) eqn:Hb; [|lia]. apply eqb_prop in Hb. destruct k as [|k].
  - by rewrite <-Hb, Z.bit0_odd.
  - rewrite Nat2Z.inj_succ, <-Z.div2_bits by lia. apply IH. lia.
Qed.

Lemma count_trailing_at b fuel z : (count_trailing b fuel z < fuel)%nat →
  Z.testbit z (Z.of_nat (count_trailing b fuel z)) = negb b.
Proof.
  revert z. induction fuel as [|fuel IH]; intros z Hk; simpl in *; [lia|].
  destruct (eqb (Z.odd z) b) eqn:Hb.
  - rewrite Nat2Z.inj_succ, <-Z.div2_bits by lia. apply IH. lia.
  - rewrite Z.bit0_odd. destruct (Z.odd z), b; done.
Qed.

Lemma count_trailing_le b fuel z : (count_trailing b fuel z <= fuel)%nat.
Proof.
  revert z. induction fuel as [|fuel IH]; intros z; simpl; [lia|].
  destruct (eqb _ _); [|lia]. specialize (IH (z / 2)). lia.
Qed.

(** ** The iterator *)

Section Stealers.
Context {Stealer : Type}.

Record ShuffledStealers := mkShuffled {
  stealers : list Stealer;
  candidates : Z;
  next_candidate : Z;
}.

(** [ShuffledStealers::new]. *)
Definition shuffled_new (candidates : Z) (stealers : list Stealer) (rng : Rng) :
    outcome ShuffledStealers :=
  if candidates =? 0 then Done (mkShuffled stealers 0 0)
  else
    let! next_candidate := find_bit candidates (λ count, (gen_bounded count rng).1 + 1) in
    let candidate_count := Z.of_nat (length stealers) in
    let! bit := ushl 1 next_candidate in
    let lower_bits := Z.land candidates (bit - 1) in
    let! up := usub candidate_count next_candidate in
    let! high := ushl lower_bits up in
    Done (mkShuffled stealers (Z.lor (Z.shiftr candidates next_candidate) high) next_candidate).

(** [Iterator::next]; [!1] is the word with all bits but the lowest. *)
Definition shuffled_next (self : ShuffledStealers) :
    outcome (option (Stealer * ShuffledStealers)) :=
  if candidates self =? 0 then Done None
  else
    let cand := Z.land (candidates self) (2 ^ 64 - 2) in
    let current_candidate := next_candidate self in
    let! self' :=
      if negb (cand =? 0) then
        let shift := Z.of_nat (trailing_zeros cand) in
        let cand := Z.shiftr cand shift in
        let! next := uadd (next_candidate self) shift in
        let! next :=
          if Z.of_nat (length (stealers self)) <=? next
          then usub next (Z.of_nat (length (stealers self))) else Done next in
        Done (mkShuffled (stealers self) cand next)
      else Done (mkShuffled (stealers self) cand (next_candidate self)) in
    let! stealer := unwrap (stealers self !! Z.to_nat current_candidate) in
    Done (Some (stealer, self')).

(** All that the iterator yields. *)
Fixpoint shuffled_all (fuel : nat) (self : ShuffledStealers) : outcome (list Stealer) :=
  match fuel with
  | O => NoFuel
  | S fuel =>
      let! r := shuffled_next self in
      match r with
      | None => Done []
      | Some (s, self) => let! l := shuffled_all fuel self in Done (s :: l)
      end
  end.

(** [PoolManager::shuffled_stealers], with the bit field that it has loaded. *)
Definition shuffled_stealers (active_workers : Z) (stealers : list Stealer)
    (excluded_worker_id : option Z) (rng : Rng) : outcome ShuffledStealers :=
  let! candidates :=
    match excluded_worker_id with
    | Some id => let! bit := ushl 1 id in Done (Z.ldiff active_workers bit)
    | None => Done active_workers
    end in
  shuffled_new candidates stealers rng.

(** ** What the iterator yields *)

Lemma mod_once a n : (n <= a < 2 * n)%nat → (a mod n = a - n)%nat.
Proof. intros Ha. symmetry. apply Nat.mod_unique with 1%nat; lia. Qed.

(** The workers whose bit is set, from position [start] on and around. *)
Definition bits_set (c : Z) (l : list nat) : list nat :=
  filter (λ j, Z.testbit c (Z.of_nat j) = true) l.
Definition around (n start : nat) (l : list nat) : list nat := (λ j, (start + j) mod n)%nat <$> l.

Lemma testbit_clear c k : 0 <= c < 2 ^ 64 →
  Z.testbit (Z.land c (2 ^ 64 - 2)) (Z.of_nat k) =
    negb (k =? 0)%nat && Z.testbit c (Z.of_nat k).
Proof.
  intros Hc. replace (2 ^ 64 - 2) with (Z.shiftl (Z.ones 63) 1) by (by vm_compute).
  rewrite Z.land_spec, Z.shiftl_spec by lia. destruct k as [|k]; simpl negb.
  - rewrite (Z.testbit_neg_r _ (_ - 1)) by lia. apply andb_false_r.
  - destruct (decide (k < 63)%nat) as [Hk|Hk].
    + rewrite (Z.ones_spec_low 63) by lia. by rewrite andb_true_r.
    + assert (Z.testbit c (Z.of_nat (S k)) = false) as ->; [|done].
      destruct (decide (c = 0)) as [->|]; [apply Z.bits_0|].
      apply Z.bits_above_log2; [lia|]. apply Z.lt_le_trans with 64; [|lia].
      apply Z.log2_lt_pow2; lia.
Qed.

Lemma testbit_bound c k n : 0 <= c < 2 ^ Z.of_nat k → (k <= n)%nat →
  Z.testbit c (Z.of_nat n) = false.
Proof.
  intros Hc Hn. destruct (decide (c = 0)) as [->|]; [apply Z.bits_0|].
  apply Z.bits_above_log2; [lia|]. apply Z.lt_le_trans with (Z.of_nat k); [|lia].
  apply Z.log2_lt_pow2; lia.
Qed.

Lemma zero_bits c : 0 <= c < 2 ^ 64 →
  (∀ k, (k < 64)%nat → Z.testbit c (Z.of_nat k) = false) → c = 0.
Proof.
  intros Hc Hk. apply Z.bits_inj'. intros k Hk0. rewrite Z.bits_0.
  replace k with (Z.of_nat (Z.to_nat k)) by lia.
  destruct (decide (Z.to_nat k < 64)%nat); [by apply Hk|by apply (testbit_bound c 64); [|lia]].
Qed.

Lemma trailing_zeros_spec c : 0 <= c < 2 ^ 64 → c ≠ 0 →
  (trailing_zeros c < 64)%nat ∧ Z.testbit c (Z.of_nat (trailing_zeros c)) = true ∧
  ∀ k, (k < trailing_zeros c)%nat → Z.testbit c (Z.of_nat k) = false.
Proof.
  intros Hc Hne. pose proof (count_trailing_le false 64 c) as Hle.
  assert (∀ k, (k < trailing_zeros c)%nat → Z.testbit c (Z.of_nat k) = false) as Hlow
    by (intros k; apply count_trailing_below).
  assert (trailing_zeros c < 64)%nat as Hlt.
  { destruct (decide (trailing_zeros c < 64)%nat); [done|]. destruct Hne.
    apply zero_bits; [done|]. intros k Hk. apply Hlow. lia. }
  split_and!; [done| |done]. by apply (count_trailing_at false 64).
Qed.

Lemma bits_set_none c l : (∀ j, j ∈ l → Z.testbit c (Z.of_nat j) = false) → bits_set c l = [].
Proof.
  intros Hl. unfold bits_set. induction l as [|j l IH]; [done|].
  rewrite filter_cons_False by (rewrite Hl; [done|by left]). apply IH. intros k Hk. apply Hl. by right.
Qed.

(** Dropping the first candidate and shifting to the next one. *)
Lemma bits_set_next c k t : (1 <= t <= k)%nat → Z.testbit c 0 = true →
  (∀ j, (1 <= j < t)%nat → Z.testbit c (Z.of_nat j) = false) →
  bits_set c (seq 0 k) = 0%nat :: (Nat.add t <$> bits_set (Z.shiftr c (Z.of_nat t)) (seq 0 (k - t))).
Proof.
  intros Ht H0 Hz. unfold bits_set. replace k with (S ((t - 1) + (k - t))) at 1 by lia.
  cbn [seq]. rewrite filter_cons_True by done. f_equal. rewrite seq_app, list.filter_app.
  assert (filter (λ j, Z.testbit c (Z.of_nat j) = true) (seq 1 (t - 1)) = []) as ->.
  { apply bits_set_none. intros j Hj%elem_of_seq. apply Hz. lia. }
  simpl. replace (S (t - 1)) with t by lia.
  replace (seq t (k - t)) with (Nat.add t <$> seq 0 (k - t))
    by (rewrite fmap_add_seq; f_equal; lia).
  generalize (seq 0 (k - t)). intros l. induction l as [|j l IH]; [done|]. cbn [fmap list_fmap].
  assert (Z.testbit c (Z.of_nat (t + j)) = Z.testbit (Z.shiftr c (Z.of_nat t)) (Z.of_nat j)) as He
    by (rewrite Z.shiftr_spec by lia; f_equal; lia).
  destruct (decide (Z.testbit (Z.shiftr c (Z.of_nat t)) (Z.of_nat j) = true)) as [Hb|Hb].
  - rewrite !filter_cons_True by (by rewrite ?He). cbn [fmap list_fmap]. by f_equal.
  - by rewrite !filter_cons_False by (by rewrite ?He).
Qed.

Lemma bits_set_last c k : (1 <= k)%nat → Z.testbit c 0 = true →
  (∀ j, (1 <= j)%nat → Z.testbit c (Z.of_nat j) = false) → bits_set c (seq 0 k) = [0%nat].
Proof.
  intros Hk H0 Hz. unfold bits_set. replace k with (S (k - 1)) by lia. cbn [seq].
  rewrite filter_cons_True by done. f_equal. apply bits_set_none.
  intros j Hj%elem_of_seq. apply Hz. lia.
Qed.

Lemma around_shift n start t l : (0 < n)%nat →
  around n start (Nat.add t <$> l) = around n ((start + t) mod n) l.
Proof.
  intros Hn. unfold around. rewrite <-list_fmap_compose. apply list_fmap_ext.
  intros _ j _. simpl. rewrite Nat.Div0.add_mod_idemp_l. f_equal. lia.
Qed.

Definition yields (ss : list Stealer) (idx : list nat) (l : list Stealer) : Prop :=
  Forall2 (λ i x, ss !! i = Some x) idx l.

(** The bit field without its lowest bit. *)
Lemma cleared c : 0 <= c < 2 ^ 64 →
  let c1 := Z.land c (2 ^ 64 - 2) in
  0 <= c1 < 2 ^ 64 ∧ Z.testbit c1 0 = false ∧
  ∀ j, (1 <= j)%nat → Z.testbit c1 (Z.of_nat j) = Z.testbit c (Z.of_nat j).
Proof.
  intros Hc c1. pose proof (λ j, testbit_clear c j Hc) as Hclear. fold c1 in Hclear. split_and!.
  - apply Z.land_nonneg. lia.
  - unfold c1. replace (2 ^ 64 - 2) with (Z.shiftl (Z.ones 63) 1) by (by vm_compute).
    rewrite land_slice by lia. pose proof (Z.mod_pos_bound (c / 2 ^ 1) (2 ^ 63)). lia.
  - exact (Hclear 0%nat).
  - intros j Hj. rewrite Hclear, (proj2 (Nat.eqb_neq j 0)) by lia. done.
Qed.

Lemma next_index (n nx t : nat) : (nx < n)%nat → (t <= n)%nat →
  (if Z.of_nat n <=? Z.of_nat nx + Z.of_nat t
   then usub (Z.of_nat nx + Z.of_nat t) (Z.of_nat n) else Done (Z.of_nat nx + Z.of_nat t)) =
  Done (Z.of_nat ((nx + t) mod n)).
Proof.
  intros Hnx Ht. unfold usub.
  destruct (Z.leb_spec (Z.of_nat n) (Z.of_nat nx + Z.of_nat t)); f_equal.
  - rewrite Nat2Z.inj_mod, Nat2Z.inj_add. apply Z.mod_unique_pos with 1; lia.
  - rewrite Nat.mod_small by lia. lia.
Qed.

(** One call: the current worker, then either nothing is left or the next
    candidate is [t] positions further. *)
Lemma shuffled_next_yields (ss : list Stealer) k c nx x :
  (k <= length ss)%nat → (length ss <= 64)%nat → (nx < length ss)%nat → ss !! nx = Some x →
  0 <= c < 2 ^ Z.of_nat k → Z.testbit c 0 = true →
  (shuffled_next (mkShuffled ss c (Z.of_nat nx)) = Done (Some (x, mkShuffled ss 0 (Z.of_nat nx))) ∧
   bits_set c (seq 0 k) = [0%nat]) ∨
  ∃ t, (1 <= t < k)%nat ∧ Z.testbit c (Z.of_nat t) = true ∧
    shuffled_next (mkShuffled ss c (Z.of_nat nx)) =
      Done (Some (x, mkShuffled ss (Z.shiftr c (Z.of_nat t)) (Z.of_nat ((nx + t) mod length ss)))) ∧
    bits_set c (seq 0 k) =
      0%nat :: (Nat.add t <$> bits_set (Z.shiftr c (Z.of_nat t)) (seq 0 (k - t))).
Proof.
  intros Hkn Hn Hnx Hx Hc H0. unfold shuffled_next. cbn [candidates next_candidate stealers].
  assert (1 <= k)%nat as Hk.
  { destruct k; [|lia]. assert (c = 0) as -> by (change (2 ^ Z.of_nat 0) with 1 in Hc; lia). done. }
  assert (c ≠ 0) as Hc0 by (intros ->; done). rewrite (proj2 (Z.eqb_neq c 0)) by done.
  assert (0 <= c < 2 ^ 64) as Hc64 by (pose proof (Z.pow_le_mono_r 2 (Z.of_nat k) 64); lia).
  destruct (cleared c Hc64) as (Hc1 & Hlow & Hsame). set (c1 := Z.land c (2 ^ 64 - 2)) in *.
  destruct (Z.eqb_spec c1 0) as [Hz|Hz]; cbn [negb obind].
  { left. rewrite Nat2Z.id, Hx, Hz. split; [done|]. apply bits_set_last; [done..|].
    intros j Hj. by rewrite <-Hsame, Hz, Z.bits_0. }
  right. destruct (trailing_zeros_spec c1 Hc1 Hz) as (Ht64 & Ht1 & Htz).
  set (t := trailing_zeros c1) in *. exists t.
  assert (1 <= t)%nat as Ht.
  { destruct (decide (t = 0)%nat) as [Ht0|]; [|lia]. rewrite Ht0 in Ht1.
    change (Z.of_nat 0) with 0 in Ht1. congruence. }
  rewrite Hsame in Ht1 by done.
  assert (t < k)%nat as Htk.
  { destruct (decide (t < k)%nat); [done|]. by rewrite (testbit_bound c k) in Ht1 by (done || lia). }
  assert (Z.shiftr c1 (Z.of_nat t) = Z.shiftr c (Z.of_nat t)) as ->.
  { apply Z.bits_inj'. intros j Hj. rewrite !Z.shiftr_spec by lia.
    replace (j + Z.of_nat t) with (Z.of_nat (Z.to_nat j + t)) by lia. apply Hsame. lia. }
  split; [done|]. split; [done|]. split.
  - unfold uadd. rewrite (proj2 (Z.ltb_lt _ _)) by lia. cbn [obind].
    rewrite next_index by lia. cbn [obind]. by rewrite Nat2Z.id, Hx.
  - apply bits_set_next; [lia|done|]. intros j Hj. rewrite <-Hsame by lia. apply Htz. lia.
Qed.

Lemma shuffled_all_yields (ss : list Stealer) fuel : ∀ k c nx,
  (k < fuel)%nat → (k <= length ss)%nat → (length ss <= 64)%nat → (nx < length ss)%nat →
  0 <= c < 2 ^ Z.of_nat k → Z.testbit c 0 = true →
  ∃ l, shuffled_all fuel (mkShuffled ss c (Z.of_nat nx)) = Done l ∧
    yields ss (around (length ss) nx (bits_set c (seq 0 k))) l.
Proof.
  induction fuel as [|fuel IH]; intros k c nx Hk Hkn Hn Hnx Hc H0; [lia|].
  destruct (lookup_lt_is_Some_2 ss nx Hnx) as [x Hx]. cbn [shuffled_all].
  destruct (shuffled_next_yields ss k c nx x Hkn Hn Hnx Hx Hc H0)
    as [[-> Hb]|(t & Ht & Htb & -> & ->)]; cbn [obind].
  - destruct fuel as [|fuel]; [assert (k = 0%nat) as -> by lia; done|]. rewrite Hb. cbn. eexists. split; [done|].
    rewrite Nat.add_0_r, Nat.mod_small by done. by repeat constructor.
  - destruct (IH (k - t)%nat (Z.shiftr c (Z.of_nat t)) ((nx + t) mod length ss)%nat)
      as (l & Hl & Hy); [lia|lia|done|apply Nat.mod_upper_bound; lia| | |].
    + rewrite Z.shiftr_div_pow2 by lia. split; [apply Z.div_pos; lia|].
      apply Z.div_lt_upper_bound; [lia|]. rewrite <-Z.pow_add_r by lia.
      replace (Z.of_nat t + Z.of_nat (k - t)) with (Z.of_nat k) by lia. lia.
    + by rewrite Z.shiftr_spec, Z.add_0_l by lia.
    + rewrite Hl. cbn [obind]. eexists. split; [done|].
      unfold around. cbn [fmap list_fmap]. constructor; [by rewrite Nat.add_0_r, Nat.mod_small|].
      change (yields ss (around (length ss) nx
        (Nat.add t <$> bits_set (Z.shiftr c (Z.of_nat t)) (seq 0 (k - t)))) l).
      rewrite around_shift by lia. exact Hy.
Qed.

(** ** The rotated bit field *)

Lemma rotated_bit c n start j : 0 <= c < 2 ^ Z.of_nat n → (start < n)%nat → (j < n)%nat →
  Z.testbit (Z.lor (Z.shiftr c (Z.of_nat start))
    (Z.shiftl (Z.land c (Z.ones (Z.of_nat start))) (Z.of_nat (n - start)))) (Z.of_nat j) =
  Z.testbit c (Z.of_nat ((start + j) mod n)).
Proof.
  intros Hc Hs Hj. rewrite Z.lor_spec, Z.shiftr_spec, Z.shiftl_spec, Z.land_spec by lia.
  destruct (decide (start + j < n)%nat) as [Hlt|Hge].
  - rewrite (Z.testbit_neg_r _ (Z.of_nat j - Z.of_nat (n - start))) by lia.
    rewrite orb_false_r, Nat.mod_small by lia. f_equal. lia.
  - rewrite mod_once by lia.
    replace (Z.of_nat j + Z.of_nat start) with (Z.of_nat (start + j)) by lia.
    rewrite (testbit_bound c n) by (done || lia).
    rewrite Z.ones_spec_low, andb_true_r by lia. simpl. f_equal. lia.
Qed.

Lemma bits_set_rotated c n start r : (0 < n)%nat →
  (∀ j, (j < n)%nat → Z.testbit r (Z.of_nat j) = Z.testbit c (Z.of_nat ((start + j) mod n))) →
  around n start (bits_set r (seq 0 n)) = bits_set c (around n start (seq 0 n)).
Proof.
  intros Hn Hr. unfold around, bits_set.
  assert (∀ l, Forall (λ j, j < n)%nat l →
    (λ j, ((start + j) mod n)%nat) <$> filter (λ j, Z.testbit r (Z.of_nat j) = true) l =
    filter (λ j, Z.testbit c (Z.of_nat j) = true) ((λ j, ((start + j) mod n)%nat) <$> l)) as Hl.
  { induction 1 as [|j l Hj Hl IH]; [done|]. cbn [fmap list_fmap].
    destruct (decide (Z.testbit r (Z.of_nat j) = true)) as [Hb|Hb].
    - rewrite !filter_cons_True by (by rewrite <-?Hr). cbn [fmap list_fmap]. by f_equal.
    - by rewrite !filter_cons_False by (by rewrite <-?Hr). }
  apply Hl, Forall_lookup. intros i j Hj%lookup_seq. lia.
Qed.

Lemma around_perm n start : (start < n)%nat → around n start (seq 0 n) ≡ₚ seq 0 n.
Proof.
  intros Hs. apply NoDup_Permutation; [|apply NoDup_seq|].
  - apply NoDup_fmap_2_strong; [|apply NoDup_seq].
    intros i j Hi%elem_of_seq Hj%elem_of_seq He.
    destruct (decide (start + i < n)%nat), (decide (start + j < n)%nat);
      rewrite ?(Nat.mod_small (start + i)), ?(Nat.mod_small (start + j)) in He by lia; [lia|..];
      rewrite ?(mod_once (start + i)), ?(mod_once (start + j)) in He by lia; lia.
  - intros i. unfold around. rewrite list_elem_of_fmap, elem_of_seq. split.
    + intros (j & -> & _). pose proof (Nat.mod_upper_bound (start + j) n). lia.
    + intros Hi. destruct (decide (start <= i)%nat).
      * exists (i - start)%nat. rewrite elem_of_seq, Nat.mod_small by lia. lia.
      * exists (n + i - start)%nat. rewrite elem_of_seq.
        replace (start + (n + i - start))%nat with (i + n)%nat by lia.
        rewrite mod_once by lia. lia.
Qed.

Lemma ones_below_range v n : 0 <= ones_below v n <= 64.
Proof.
  unfold ones_below. pose proof (Forall_take _ n _ (bits_digits 64 v)) as Hd.
  assert (∀ l, Forall (λ d, 0 <= d <= 1) l → 0 <= foldr Z.add 0 l <= Z.of_nat (length l)) as Hs.
  { induction 1 as [|d l Hd1 Hl IH]; simpl; lia. }
  specialize (Hs _ Hd). rewrite length_take, bits_length in Hs. lia.
Qed.

Lemma ones_below_pos v : 0 <= v < 2 ^ 64 → v ≠ 0 → 0 < ones_below v 64.
Proof.
  intros Hv Hne. pose proof (ones_below_range v 64).
  destruct (decide (ones_below v 64 = 0)) as [Hz|]; [|lia]. destruct Hne. apply zero_bits; [done|].
  intros k Hk. pose proof (bits_lookup 64 v k Hk) as Hb.
  assert (∀ l, Forall (λ d, 0 <= d <= 1) l → foldr Z.add 0 l = 0 → ∀ i d, l !! i = Some d → d = 0) as Hs.
  { induction 1 as [|d l Hd1 Hl IH]; simpl; [done|]. intros Hsum i d' Hi.
    assert (0 <= foldr Z.add 0 l) by (clear -Hl; induction Hl; simpl; lia).
    destruct i as [|i]; simpl in Hi; [simplify_eq; lia|]. apply (IH ltac:(lia) i). done. }
  unfold ones_below in Hz. rewrite take_ge in Hz by (rewrite bits_length; lia).
  pose proof (Hs _ (bits_digits 64 v) Hz _ _ Hb) as He. by destruct (Z.testbit v (Z.of_nat k)).
Qed.

(** The construction: the first candidate, and the bit field rotated by it. *)
Lemma shuffled_new_rotates (ss : list Stealer) c rng :
  let n := length ss in
  (0 < n < 64)%nat → 0 < c < 2 ^ Z.of_nat n →
  ∃ start r, shuffled_new c ss rng = Done (mkShuffled ss r (Z.of_nat start)) ∧ (start < n)%nat ∧
    Z.testbit c (Z.of_nat start) = true ∧ 0 <= r < 2 ^ Z.of_nat n ∧
    ∀ j, (j < n)%nat → Z.testbit r (Z.of_nat j) = Z.testbit c (Z.of_nat ((start + j) mod n)).
Proof.
  intros n Hn Hc. unfold shuffled_new. rewrite (proj2 (Z.eqb_neq c 0)) by lia.
  pose proof (Z.pow_le_mono_r 2 (Z.of_nat n) 64 ltac:(lia) ltac:(lia)) as Hn64.
  pose proof (ones_below_range c 64) as Hr.
  pose proof (ones_below_pos c ltac:(lia) ltac:(lia)) as Hp.
  pose proof (gen_bounded_range (ones_below c 64) rng ltac:(lia)) as Hg.
  destruct (find_bit_found c (λ count, (gen_bounded count rng).1 + 1) ltac:(lia))
    as (start & Hf & Hs64 & Ht & _); [cbv beta; lia|]. rewrite Hf. cbn [obind].
  assert (start < n)%nat as Hsn.
  { destruct (decide (start < n)%nat); [done|]. by rewrite (testbit_bound c n) in Ht by lia. }
  unfold ushl at 1. rewrite (proj2 (Z.leb_le _ _)), (proj2 (Z.ltb_lt _ _)) by lia. cbn [andb obind].
  unfold usub. rewrite (proj2 (Z.leb_le _ _)) by lia. cbn [obind].
  unfold ushl. rewrite (proj2 (Z.leb_le _ _)), (proj2 (Z.ltb_lt _ _)) by lia. cbn [andb obind].
  rewrite Z.shiftl_1_l, (wrap_small (2 ^ _)) by (split; [lia|apply Z.pow_lt_mono_r; lia]).
  replace (2 ^ Z.of_nat start - 1) with (Z.ones (Z.of_nat start)) by (rewrite Z.ones_equiv; lia).
  replace (Z.of_nat (length ss) - Z.of_nat start) with (Z.of_nat (n - start)) by (unfold n in *; lia).
  assert (2 ^ Z.of_nat n = 2 ^ Z.of_nat start * 2 ^ Z.of_nat (n - start)) as Hpow
    by (rewrite <-Z.pow_add_r by lia; f_equal; lia).
  pose proof (Z.mod_pos_bound c (2 ^ Z.of_nat start) ltac:(lia)) as Hlow.
  assert (0 <= Z.shiftr c (Z.of_nat start) < 2 ^ Z.of_nat (n - start)) as Hhigh.
  { rewrite Z.shiftr_div_pow2 by lia. split; [apply Z.div_pos; lia|].
    apply Z.div_lt_upper_bound; lia. }
  assert (0 < 2 ^ Z.of_nat (n - start)) as Hm by (apply Z.pow_pos_nonneg; lia).
  rewrite wrap_small by (rewrite Z.land_ones, Z.shiftl_mul_pow2 by lia; nia).
  eexists start, _. split; [done|]. split_and!; [done|done|..|].
  - apply Z.lor_nonneg. split; [lia|]. apply Z.shiftl_nonneg. apply Z.land_nonneg. lia.
  - rewrite Z.land_ones, Z.shiftl_mul_pow2, Z.lor_comm, high_low_lor by lia. nia.
  - intros j Hj. apply rotated_bit; [lia|done..].
Qed.

(** The victims of a search are the candidates, each once.  For a pool of
    fewer than 64 workers and any bit field of candidates, the construction
    and the iteration do not panic and end; the iterator yields the workers
    whose bit is set in cyclic order from one of them on, which is a
    permutation of all of them. *)
Lemma shuffled_stealers_visit_all (ss : list Stealer) c rng :
  (0 < length ss < 64)%nat → 0 <= c < 2 ^ Z.of_nat (length ss) →
  ∃ it l start, shuffled_new c ss rng = Done it ∧
    shuffled_all (S (length ss)) it = Done l ∧ (start < length ss)%nat ∧
    (c ≠ 0 → Z.testbit c (Z.of_nat start) = true) ∧
    yields ss (bits_set c (around (length ss) start (seq 0 (length ss)))) l ∧
    bits_set c (around (length ss) start (seq 0 (length ss))) ≡ₚ bits_set c (seq 0 (length ss)).
Proof.
  intros Hn Hc. destruct (decide (c = 0)) as [->|Hc0].
  { exists (mkShuffled ss 0 0), [], 0%nat. split_and!; try done; [lia| |].
    - rewrite bits_set_none; [constructor|]. intros. apply Z.bits_0.
    - rewrite !bits_set_none by (intros; apply Z.bits_0). done. }
  destruct (shuffled_new_rotates ss c rng Hn ltac:(lia)) as (start & r & Hnew & Hs & Ht & Hr & Hrot).
  destruct (shuffled_all_yields ss (S (length ss)) (length ss) r start) as (l & Hl & Hy);
    try lia; [|].
  { change 0 with (Z.of_nat 0). rewrite (Hrot 0%nat), Nat.add_0_r, Nat.mod_small by lia. done. }
  eexists _, l, start. split_and!; try done.
  - rewrite <-(bits_set_rotated c (length ss) start r) by (done || lia). exact Hy.
  - apply filter_Permutation. by apply around_perm.
Qed.
End Stealers.

Section Returns.
Context {Stealer : Type}.
Abbreviation ShuffledStealers := (ShuffledStealers (Stealer := Stealer)).

(** *** Any pool: the only other outcome is a panic *)

Lemma land_le_l a b : 0 <= a → Z.land a b <= a.
Proof.
  intros Ha. assert (0 <= Z.ldiff a b) by (apply Z.ldiff_nonneg; lia).
  assert (a - Z.ldiff a b = Z.land a b); [|lia].
  rewrite Z.sub_nocarry_ldiff; apply Z.bits_inj'; intros k _;
    rewrite ?Z.ldiff_spec, ?Z.land_spec, ?Z.bits_0;
    by destruct (Z.testbit a k), (Z.testbit b k).
Qed.

Lemma shuffled_next_smaller (self self' : ShuffledStealers) s k :
  0 <= candidates self < 2 ^ Z.of_nat (S k) →
  shuffled_next self = Done (Some (s, self')) → 0 <= candidates self' < 2 ^ Z.of_nat k.
Proof.
  intros Hc. unfold shuffled_next. destruct (candidates self =? 0) eqn:E0; [done|].
  set (c := Z.land (candidates self) (2 ^ 64 - 2)).
  assert (0 <= c <= candidates self) as Hle.
  { unfold c. split; [apply Z.land_nonneg; lia|].
    apply land_le_l. lia. }
  assert (Z.testbit c 0 = false) as Hlow by (unfold c; by rewrite Z.land_spec, andb_false_r).
  assert (0 < 2 ^ Z.of_nat k) as Hpos by (apply Z.pow_pos_nonneg; lia).
  destruct (Z.eqb_spec c 0) as [Hz|Hz]; simpl negb; cbv iota; cbn [obind].
  - destruct (unwrap _); simpl; [|done..]. intros [= _ <-]. simpl. lia.
  - assert (1 <= trailing_zeros c)%nat as Htz.
    { destruct (trailing_zeros c) as [|n] eqn:Ht; [|lia]. unfold trailing_zeros in Ht.
      pose proof (count_trailing_at false 64 c) as Ha. rewrite Ht in Ha.
      specialize (Ha ltac:(lia)). change (Z.of_nat 0) with 0 in Ha.
      rewrite Hlow in Ha. done. }
    destruct (uadd _ _) as [nx| |]; simpl; [|done..].
    destruct (if _ <=? nx then _ else _) as [nx'| |]; simpl; [|done..].
    destruct (unwrap _); simpl; [|done..]. intros [= _ <-]. simpl.
    rewrite Z.shiftr_div_pow2 by lia. split; [apply Z.div_pos; [lia|apply Z.pow_pos_nonneg; lia]|].
    apply Z.div_lt_upper_bound; [apply Z.pow_pos_nonneg; lia|].
    rewrite Nat2Z.inj_succ, Z.pow_succ_r in Hc by lia.
    assert (2 ^ 1 <= 2 ^ Z.of_nat (trailing_zeros c)) by (apply Z.pow_le_mono_r; lia). nia.
Qed.

Lemma shuffled_next_returns (self : ShuffledStealers) : shuffled_next self ≠ NoFuel.
Proof.
  unfold shuffled_next, uadd, usub, unwrap. destruct (_ =? 0); [done|].
  destruct (negb _); simpl; repeat (case_match; simpl; try done).
Qed.

Lemma shuffled_all_returns k (self : ShuffledStealers) :
  0 <= candidates self < 2 ^ Z.of_nat k → shuffled_all (S k) self ≠ NoFuel.
Proof.
  revert self. induction k as [|k IH]; intros self Hc.
  { cbn [shuffled_all]. unfold shuffled_next. simpl in Hc.
    rewrite (proj2 (Z.eqb_eq (candidates self) 0)) by lia. done. }
  cbn [shuffled_all]. pose proof (shuffled_next_returns self) as Hr.
  destruct (shuffled_next self) as [[[s self']|]| |] eqn:En; cbn [obind]; [|done..].
  specialize (IH self' (shuffled_next_smaller _ _ _ _ Hc En)). cbn [shuffled_all] in IH.
  destruct (obind (shuffled_next self') _); done.
Qed.

Lemma lor_below a b k : 0 <= a < 2 ^ k → 0 <= b < 2 ^ k → 0 <= k → 0 <= Z.lor a b < 2 ^ k.
Proof.
  intros Ha Hb Hk. assert (0 <= Z.lor a b) by (apply Z.lor_nonneg; lia). split; [done|].
  destruct (decide (a = 0)) as [->|]; [rewrite Z.lor_0_l; lia|].
  destruct (decide (b = 0)) as [->|]; [rewrite Z.lor_0_r; lia|].
  assert (Z.lor a b ≠ 0) by (rewrite Z.lor_eq_0_iff; lia).
  apply Z.log2_lt_pow2; [lia|]. rewrite Z.log2_lor by lia.
  apply Z.max_lub_lt; apply Z.log2_lt_pow2; lia.
Qed.

Lemma ushl_small a k : 0 <= k < 64 → ushl a k = Done (wrap64 (Z.shiftl a k)).
Proof. intros Hk. unfold ushl. by rewrite (proj2 (Z.leb_le _ _)), (proj2 (Z.ltb_lt _ _)) by lia. Qed.

(** With 64 workers, the construction succeeds or its last shift overflows. *)
Lemma shuffled_new_full (ss : list Stealer) c rng :
  length ss = 64%nat → 0 <= c < 2 ^ 64 →
  shuffled_new c ss rng = Panicked ∨
  ∃ it, shuffled_new c ss rng = Done it ∧ 0 <= candidates it < 2 ^ 64.
Proof.
  intros Hn Hc. unfold shuffled_new. destruct (Z.eqb_spec c 0) as [->|Hc0].
  { right. eexists. split; [done|]. simpl. lia. }
  pose proof (ones_below_range c 64) as Hr. pose proof (ones_below_pos c Hc Hc0) as Hp.
  pose proof (gen_bounded_range (ones_below c 64) rng ltac:(lia)) as Hg.
  destruct (find_bit_found c (λ count, (gen_bounded count rng).1 + 1) ltac:(lia))
    as (start & -> & Hs & _); [cbv beta; lia|]. cbn [obind].
  rewrite (ushl_small 1) by lia. cbn [obind].
  unfold usub. rewrite (proj2 (Z.leb_le _ _)) by lia. cbn [obind].
  unfold ushl. destruct (_ && _); cbn [obind]; [|left; reflexivity]. right. eexists. split; [reflexivity|].
  apply lor_below; [|apply wrap64_range|lia]. rewrite Z.shiftr_div_pow2 by lia.
  assert (0 < 2 ^ Z.of_nat start) by (apply Z.pow_pos_nonneg; lia).
  split; [apply Z.div_pos; lia|]. apply Z.div_lt_upper_bound; nia.
Qed.

(** The victims that worker [id] tries: the search does not panic in a pool of
    fewer than 64 workers, and always ends. *)
Lemma victims_found (a id : Z) (ss : list Stealer) rng :
  (0 < length ss <= 64)%nat → 0 <= a < 2 ^ Z.of_nat (length ss) → 0 <= id < 64 →
  let o := let! it := shuffled_stealers a ss (Some id) rng in shuffled_all (S (length ss)) it in
  (∃ l, o = Done l) ∨ o = Panicked ∧ length ss = 64%nat.
Proof.
  intros Hn Ha Hid. unfold shuffled_stealers. rewrite (ushl_small 1) by lia. cbn [obind].
  set (c := Z.ldiff a _).
  assert (0 <= c < 2 ^ Z.of_nat (length ss)) as Hc.
  { unfold c. split; [apply Z.ldiff_nonneg; lia|].
    eapply Z.le_lt_trans; [|apply Ha]. rewrite Z.ldiff_land. apply land_le_l. lia. }
  destruct (decide (length ss < 64)%nat).
  { destruct (shuffled_stealers_visit_all ss c rng ltac:(lia) Hc) as (it & vs & st & Hnew & Hl & _).
    rewrite Hnew. left. exists vs. exact Hl. }
  assert (length ss = 64%nat) as Hn64 by lia. rewrite Hn64 in Hc |- *.
  destruct (shuffled_new_full ss c rng Hn64 Hc) as [->|(it & -> & Hit)]; [by right|]. cbn [obind].
  pose proof (shuffled_all_returns 64 it Hit) as Hr.
  destruct (shuffled_all 65 it) as [l| |]; [by left; exists l|by right|done].
Qed.
End Returns.

Arguments ShuffledStealers : clear implicits.

(** *** The victims of a search *)

(** The active workers other than [id]. *)
Definition others (active_workers : Z) (id : nat) (l : list nat) : list nat :=
  filter (λ i, Z.testbit active_workers (Z.of_nat i) = true ∧ i ≠ id) l.

Lemma others_bits active id l :
  bits_set (Z.ldiff active (2 ^ Z.of_nat id)) l = others active id l.
Proof.
  apply list_filter_iff. intros i. rewrite Z.ldiff_spec. destruct (decide (i = id)) as [->|Hne].
  - rewrite Z.pow2_bits_true by lia. rewrite andb_false_r. naive_solver.
  - rewrite Z.pow2_bits_false by lia. rewrite andb_true_r. naive_solver.
Qed.

(** C40: a worker that looks for work tries to steal from every other active
    worker, once.  In a pool of fewer than 64 workers, for every bit field of
    active workers and every state of the random generator, the iterator over
    the stealers is built and runs to its end without a panic; it yields the
    stealers of the active workers other than the caller in cyclic order from
    one of them on, so that each of them comes up exactly once. *)
Theorem search_visits_every_active_worker {Stealer} (ss : list Stealer) active id rng :
  (0 < length ss < 64)%nat → 0 <= active < 2 ^ Z.of_nat (length ss) → (id < length ss)%nat →
  ∃ it l start,
    shuffled_stealers active ss (Some (Z.of_nat id)) rng = Done it ∧
    shuffled_all (S (length ss)) it = Done l ∧
    yields ss (others active id (around (length ss) start (seq 0 (length ss)))) l ∧
    (l ≠ [] → start ∈ others active id (seq 0 (length ss))) ∧
    others active id (around (length ss) start (seq 0 (length ss))) ≡ₚ
      others active id (seq 0 (length ss)).
Proof.
  intros Hn Ha Hid. unfold shuffled_stealers.
  rewrite (ushl_small 1) by lia. cbn [obind].
  rewrite Z.shiftl_1_l, wrap_small by (split; [lia|apply Z.pow_lt_mono_r; lia]).
  set (c := Z.ldiff active _).
  destruct (shuffled_stealers_visit_all ss c rng Hn) as (it & l & start & Hnew & Hl & Hs & Ht & Hy & Hp).
  { unfold c. split; [apply Z.ldiff_nonneg; lia|]. rewrite Z.ldiff_land.
    pose proof (land_le_l active (Z.lnot (2 ^ Z.of_nat id))). lia. }
  exists it, l, start. rewrite <-!others_bits. fold c. split_and!; try done.
  intros Hne. apply list_elem_of_filter.
  split; [|apply elem_of_seq; lia]. apply Ht. intros Hc. destruct Hne.
  rewrite Hc, bits_set_none in Hy by (intros; apply Z.bits_0). by inversion Hy.
Qed.

(** Workers 1, 2 and 4 of five are active and worker 2 searches. *)
Lemma search_visits_every_active_worker_witness :
  ∃ it l start, shuffled_stealers 22 [10; 11; 12; 13; 14] (Some 2) (mkRng 7) = Done it ∧
    shuffled_all 6 it = Done l ∧ length l = 2%nat ∧ (start = 1 ∨ start = 4)%nat.
Proof.
  destruct (search_visits_every_active_worker [10; 11; 12; 13; 14] 22 2 (mkRng 7))
    as (it & l & start & Hn & Hl & Hy & Hs & Hp); [simpl; lia..|].
  apply Permutation_length in Hp. apply Forall2_length in Hy.
  assert (length l = 2%nat) as H2 by (rewrite <-Hy; exact Hp).
  exists it, l, start. split; [exact Hn|]. split; [exact Hl|]. split; [exact H2|].
  assert (start ∈ [1; 4]%nat) as Hin by (apply Hs; intros ->; discriminate H2).
  clear -Hin. rewrite !elem_of_cons in Hin. destruct Hin as [->|[->|Hin]]; [by left|by right|].
  by apply not_elem_of_nil in Hin.
Defined.

(** With 64 workers, when worker 0 is the only candidate, the shift of the
    lower bits by [candidate_count - next_candidate], which is 64, overflows. *)
Lemma full_pool_shift_overflows {A : Type} (ss : list A) rng :
  length ss = 64%nat → shuffled_new 1 ss rng = Panicked.
Proof.
  intros Hn. unfold shuffled_new. cbn [Z.eqb].
  assert (ones_below 1 64 = 1) as H1 by (vm_compute; reflexivity).
  pose proof (gen_bounded_range 1 rng ltac:(lia)) as Hg.
  destruct (find_bit_found 1 (λ count, (gen_bounded count rng).1 + 1) ltac:(lia))
    as (n & -> & _ & Ht & _); [rewrite H1; lia|]. cbn [obind].
  assert (n = 0%nat) as ->.
  { destruct n; [done|]. rewrite (testbit_bound 1 1) in Ht; [done| |lia]. simpl. lia. }
  rewrite Hn. reflexivity.
Qed.
