(* ===== verification/WorkerPool.v ===== *)
(** * The state of the worker pool (executor/mt_executor/pool_manager.rs)

    The bit field of the active workers, the count of the searching ones and
    the slot for a panic.  Each function that is one atomic access, or that
    runs under the mutex, is one function on the state; the loops that
    activate a worker are program counters, one access per step. *)

From stdpp Require Import base option list numbers relations.
From Stdlib Require Import ZArith Lia.
From S2P Require Import Prelude Bits ChannelQueue Bit PoolManager.

#[local] Open Scope Z_scope.

Section Pool.
Context {Panic : Type}.

Record PoolManager := mkPool {
  pool_size : nat;
  active_workers : Z;
  searching_workers : Z;
  worker_panic : option Panic;
}.

Definition pool_new (pool_size : nat) : outcome PoolManager :=
  let! _ := rust_assert (1 <=? Z.of_nat pool_size) in
  let! _ := rust_assert (Z.of_nat pool_size <=? 64) in
  Done (mkPool pool_size 0 0 None).

Definition set_active (a : Z) (self : PoolManager) : PoolManager :=
  mkPool (pool_size self) a (searching_workers self) (worker_panic self).
Definition set_searching (n : Z) (self : PoolManager) : PoolManager :=
  mkPool (pool_size self) (active_workers self) n (worker_panic self).
Definition set_panic (p : option Panic) (self : PoolManager) : PoolManager :=
  mkPool (pool_size self) (active_workers self) (searching_workers self) p.

Definition begin_worker_search (self : PoolManager) : PoolManager :=
  set_searching (wrap64 (searching_workers self + 1)) self.
Definition end_worker_search (self : PoolManager) : PoolManager :=
  set_searching (wrap64 (searching_workers self - 1)) self.
Definition searching_worker_count (self : PoolManager) : Z := searching_workers self.

(** [!0 >> (usize::BITS - pool_size)]. *)
Definition set_all_workers_active (self : PoolManager) : PoolManager :=
  set_active (Z.shiftr (2 ^ 64 - 1) (64 - Z.of_nat (pool_size self))) self.
Definition set_all_workers_inactive (self : PoolManager) : PoolManager := set_active 0 self.
Definition pool_is_idle (self : PoolManager) : bool := active_workers self =? 0.

(** The result says whether the worker is now inactive. *)
Definition try_set_worker_inactive (worker_id : nat) (self : PoolManager) :
    outcome (bool * PoolManager) :=
  let bit := 2 ^ Z.of_nat worker_id in
  let active := active_workers self in
  let self := set_active (if active =? bit then active else Z.ldiff active bit) self in
  let! _ := rust_assert (negb (Z.land active bit =? 0)) in
  Done (negb (active =? bit), self).

Definition register_panic (p : Panic) (self : PoolManager) : PoolManager :=
  match worker_panic self with None => set_panic (Some p) self | Some _ => self end.
Definition take_panic (self : PoolManager) : option Panic * PoolManager :=
  (worker_panic self, set_panic None self).

(** ** Activation of a worker *)

Inductive ActPc :=
| ALoad
| ALoop (active : Z)
| ABeginSearch (worker : nat)
| AUnpark (worker : nat)
| ADone.

(** The next access of [activate_worker_relaxed] and, with [sync], of
    [activate_worker]; the worker to unpark, if the access is that. *)
Definition activate_step (sync : bool) (pc : ActPc) (self : PoolManager) :
    ActPc * PoolManager * option nat :=
  match pc with
  | ALoad => (ALoop (active_workers self), self, None)
  | ALoop a =>
      let first_idle_worker := trailing_ones a in
      if (pool_size self <=? first_idle_worker)%nat then
        if sync then
          (if active_workers self =? a then ADone else ALoop (active_workers self), self, None)
        else (ADone, self, None)
      else
        let bit := 2 ^ Z.of_nat first_idle_worker in
        let old := active_workers self in
        (if Z.land old bit =? 0 then ABeginSearch first_idle_worker else ALoop old,
         set_active (Z.lor old bit) self, None)
  | ABeginSearch w => (AUnpark w, begin_worker_search self, None)
  | AUnpark w => (ADone, self, Some w)
  | ADone => (ADone, self, None)
  end.
End Pool.

Arguments PoolManager : clear implicits.

(** ** The injector queue (executor/mt_executor/injector.rs) *)

Section Injector.
Context {T : Type} (BUCKET_CAPACITY : nat).

(** A bucket is the list of its tasks. *)
Definition bucket_push (task : T) (b : list T) : result (list T) T :=
  if (length b <? BUCKET_CAPACITY)%nat then Ok (b ++ [task]) else Err task.
Definition bucket_from_iter (l : list T) : list T := take BUCKET_CAPACITY l.

Record Injector := mkInjector { buckets : list (list T); is_empty : bool }.

Definition injector_new : outcome Injector :=
  let! _ := rust_assert (1 <=? BUCKET_CAPACITY)%nat in Done (mkInjector [] true).

(** A new bucket with one task; a push that fails is ignored. *)
Definition new_bucket (task : T) : list T :=
  match bucket_push task [] with Ok b => b | Err _ => [] end.

Definition insert_task (task : T) (self : Injector) : Injector :=
  match buckets self with
  | bucket :: rest =>
      match bucket_push task bucket with
      | Ok bucket => mkInjector (bucket :: rest) (is_empty self)
      | Err task => mkInjector ((new_bucket task :: rest) ++ [bucket]) (is_empty self)
      end
  | [] => mkInjector [new_bucket task] false
  end.

Definition push_bucket (bucket : list T) (self : Injector) : Injector :=
  mkInjector (buckets self ++ [bucket])
    (if (length (buckets self) =? 0)%nat then false else is_empty self).

(** The part of [pop_bucket] that runs under the mutex; before it, the flag is
    loaded. *)
Definition pop_bucket_locked (self : Injector) : option (list T) * Injector :=
  let bucket := last (buckets self) in
  let buckets := take (length (buckets self) - 1) (buckets self) in
  (bucket, mkInjector buckets (if (length buckets =? 0)%nat then true else is_empty self)).

(** The flag is exact and the buckets are neither empty nor too large. *)
Record injector_ok (self : Injector) : Prop := {
  io_flag : is_empty self = true ↔ buckets self = [];
  io_buckets : Forall (λ b, (1 <= length b <= BUCKET_CAPACITY)%nat) (buckets self);
}.

Definition injector_tasks (self : Injector) : list T := concat (buckets self).

Lemma insert_task_ok task self : (1 <= BUCKET_CAPACITY)%nat → injector_ok self →
  injector_ok (insert_task task self) ∧
  injector_tasks (insert_task task self) ≡ₚ task :: injector_tasks self.
Proof.
  intros Hcap [Hf Hb]. unfold insert_task, new_bucket, bucket_push, injector_tasks. simpl.
  rewrite (proj2 (Nat.ltb_lt 0 BUCKET_CAPACITY)) by lia.
  destruct (buckets self) as [|b rest] eqn:Hi; simpl.
  { split; [|done]. split; simpl; [split; done|]. constructor; [simpl; lia|constructor]. }
  apply Forall_cons_1 in Hb as [Hb Hr]. destruct (Nat.ltb_spec (length b) BUCKET_CAPACITY); simpl.
  - split; [split; simpl|].
    + rewrite Hf. done.
    + constructor; [rewrite length_app; simpl; lia|done].
    + rewrite <-app_assoc. simpl. by rewrite Permutation_middle.
  - split; [split; simpl|].
    + rewrite Hf. done.
    + constructor; [simpl; lia|]. apply Forall_app. split; [done|]. by constructor.
    + rewrite concat_app. simpl. rewrite app_nil_r. by rewrite Permutation_app_comm.
Qed.

Lemma push_bucket_ok b self : (1 <= length b <= BUCKET_CAPACITY)%nat → injector_ok self →
  injector_ok (push_bucket b self) ∧
  injector_tasks (push_bucket b self) ≡ₚ b ++ injector_tasks self.
Proof.
  intros Hlen [Hf Hb]. unfold push_bucket, injector_tasks. split; [split; simpl|simpl].
  - destruct (buckets self) as [|x l]; simpl; [split; done|]. rewrite Hf. done.
  - apply Forall_app. split; [done|]. by constructor.
  - rewrite concat_app. simpl. by rewrite app_nil_r, Permutation_app_comm.
Qed.

Lemma pop_bucket_ok self : injector_ok self →
  injector_ok (pop_bucket_locked self).2 ∧
  match (pop_bucket_locked self).1 with
  | Some b => (1 <= length b <= BUCKET_CAPACITY)%nat ∧
      injector_tasks self ≡ₚ b ++ injector_tasks (pop_bucket_locked self).2
  | None => buckets self = []
  end.
Proof.
  intros [Hf Hb]. unfold pop_bucket_locked, injector_tasks. simpl.
  induction (buckets self) as [|b l _] eqn:Hi using rev_ind; simpl.
  { split; [split; simpl; [done|constructor]|done]. }
  rewrite last_snoc, length_app. simpl. rewrite Nat.add_sub, take_app_length.
  apply Forall_app in Hb as [Hl Hb]. apply Forall_cons_1 in Hb as [Hb _].
  split; [split; simpl; [|done]|split; [done|]].
  - destruct l as [|x l]; simpl; [done|]. rewrite Hf. split; [|done]. by destruct l.
  - rewrite concat_app. simpl. by rewrite app_nil_r, Permutation_app_comm.
Qed.
End Injector.

Arguments Injector : clear implicits.
