(* ===== verification/MtExecutor.v ===== *)
(** * The multi-threaded executor (executor/mt_executor.rs)

    The executor thread and the worker threads as interleaved programs, one
    shared access per step, around the pool manager and the injector of
    [WorkerPool].  The work-stealing queues come from the st3 crate and are an
    interface; what a task does while it runs (wake tasks, send and receive
    messages, finish, panic) is chosen freely, and so are the state of the
    random generator of a search, timeouts and whether a search goes on.
    Accesses take effect at once; the cancellation tokens and the drop of the executor are in
    [ActiveTasks].

    Ghost state: [submitted] lists the runnables given to the executor and
    [ran] those whose [run] was called; [failed] is set by a panic or a
    timeout. *)

From stdpp Require Import base option list numbers relations strings.
From Stdlib Require Import ZArith Lia.
From S2P Require Import Prelude ChannelQueue PoolManager WorkerPool StableQueue Time SeqFuture Scheduler Simulation.

(** ** The local queues *)

Class WorkQueue (Q T : Type) := {
  wq_new : Q;
  wq_items : Q → list T;
  wq_push : T → Q → result Q T;
  wq_pop : Q → option (T * Q);
  wq_drain : nat → Q → option (list T * Q);
  wq_spare : Q → nat;
  wq_extend : list T → Q → Q;
  wq_steal : Q → Q → option (T * Q * Q);
}.

(** A push succeeds. *)
Definition wq_room {Q T : Type} `{WorkQueue Q T} (q : Q) : Prop := ∀ t : T, ∃ q', wq_push t q = Ok q'.

(** No task is lost or made up; a drain makes room, and a steal leaves it. *)
Class WorkQueueLaws (Q T : Type) `{WorkQueue Q T} := {
  wq_new_items : wq_items (wq_new : Q) = [];
  wq_push_Ok : ∀ (t : T) (q q' : Q), wq_push t q = Ok q' → wq_items q' ≡ₚ t :: wq_items q;
  wq_push_Err : ∀ (t t' : T) (q : Q), wq_push t q = Err t' → t' = t;
  wq_pop_Some : ∀ (t : T) (q q' : Q), wq_pop q = Some (t, q') → wq_items q ≡ₚ t :: wq_items q';
  wq_pop_None : ∀ q : Q, wq_pop q = None → wq_items q = [];
  wq_drain_Some : ∀ n (q q' : Q) (l : list T), wq_drain n q = Some (l, q') →
    wq_items q ≡ₚ l ++ wq_items q' ∧ 1 ≤ length l ≤ n ∧ wq_room q';
  wq_extend_items : ∀ (l : list T) (q : Q), length l ≤ wq_spare q →
    wq_items (wq_extend l q) ≡ₚ l ++ wq_items q;
  wq_steal_Some : ∀ (t : T) (v d v' d' : Q), wq_steal v d = Some (t, v', d') →
    wq_items v ++ wq_items d ≡ₚ t :: wq_items v' ++ wq_items d';
  wq_steal_room : ∀ (t : T) (v d v' d' : Q), wq_steal v d = Some (t, v', d') →
    wq_room v → wq_room v';
}.

Definition BUCKET_SIZE : nat := 128.
Definition is_none {A} (o : option A) : bool := match o with None => true | Some _ => false end.

Section MtExecutor.
Context {Q T Payload : Type} `{WorkQueue Q T}.
Abbreviation Panic := (ModelId * Payload)%type.

(** The worker threads, in [run_local_worker] and, from a running task, in
    [schedule_task]. *)
Inductive WPc :=
| WDeactivate
| WInactiveCount
| WCheckInjector
| WSetAllInactive
| WIdleCount
| WUnparkExecutor
| WPark
| WBeginSearch
| WCheckAbort
| WPopBucket
| WLockPop
| WExtend (bucket : list T)
| WVictims
| WSteal (victims : list nat)
| WGiveUp
| WEndSearch
| WPop
| WGotTask (task : T)
| WRun
| WPush (prev_task : T)
| WDrain (prev_task : T)
| WPushBucket (drain : list T) (prev_task : T)
| WPushAgain (prev_task : T)
| WNeedHelp
| WActivate (a : ActPc)
| WResume
| WRegister (p : Panic)
| WAbort
| WActivateAll
| WUnparkAll (i : nat)
| WUnparkMain
| WReturned.

Record Worker := mkWorker {
  w_pc : WPc;
  local_queue : Q;
  fast_slot : option T;
  w_token : bool;
  thread_msg_count : Z;
}.

(** The executor thread, in [Executor::new], between calls, or in [run]. *)
Inductive MainPc :=
| MNew
| MIdle (r : option (result unit (ExecutorError Payload)))
| MActivate (a : ActPc)
| MTakePanic
| MCheckIdle
| MLoadCount
| MPark
| MAbort
| MActivateAll
| MUnparkAll (i : nat).

Record Mt := mkMt {
  pool : PoolManager Panic;
  injector : Injector T;
  workers : list Worker;
  main_pc : MainPc;
  main_token : bool;
  abort_signal : bool;
  msg_count : Z;
  submitted : list T;
  ran : list T;
  failed : bool;
}.

(** [Executor::new], up to the point where the executor thread parks. *)
Definition executor_new (num_threads : nat) : outcome Mt :=
  let! pm := pool_new num_threads in
  let! inj := injector_new BUCKET_SIZE in
  Done (mkMt (set_all_workers_active pm) inj
    (replicate num_threads (mkWorker WDeactivate wq_new None false 0))
    MNew false false 0 [] [] false).

Definition set_pool (p : PoolManager Panic) (s : Mt) : Mt :=
  mkMt p (injector s) (workers s) (main_pc s) (main_token s) (abort_signal s) (msg_count s)
    (submitted s) (ran s) (failed s).
Definition set_injector (i : Injector T) (s : Mt) : Mt :=
  mkMt (pool s) i (workers s) (main_pc s) (main_token s) (abort_signal s) (msg_count s)
    (submitted s) (ran s) (failed s).
Definition set_workers (l : list Worker) (s : Mt) : Mt :=
  mkMt (pool s) (injector s) l (main_pc s) (main_token s) (abort_signal s) (msg_count s)
    (submitted s) (ran s) (failed s).
Definition set_main (pc : MainPc) (s : Mt) : Mt :=
  mkMt (pool s) (injector s) (workers s) pc (main_token s) (abort_signal s) (msg_count s)
    (submitted s) (ran s) (failed s).
Definition set_main_token (b : bool) (s : Mt) : Mt :=
  mkMt (pool s) (injector s) (workers s) (main_pc s) b (abort_signal s) (msg_count s)
    (submitted s) (ran s) (failed s).
Definition set_abort (s : Mt) : Mt :=
  mkMt (pool s) (injector s) (workers s) (main_pc s) (main_token s) true (msg_count s)
    (submitted s) (ran s) (failed s).
Definition add_msg_count (d : Z) (s : Mt) : Mt :=
  mkMt (pool s) (injector s) (workers s) (main_pc s) (main_token s) (abort_signal s)
    (to_isize (wrap64 (msg_count s + d))) (submitted s) (ran s) (failed s).
Definition submit (t : T) (s : Mt) : Mt :=
  mkMt (pool s) (injector s) (workers s) (main_pc s) (main_token s) (abort_signal s) (msg_count s)
    (submitted s ++ [t]) (ran s) (failed s).
Definition log_run (t : T) (s : Mt) : Mt :=
  mkMt (pool s) (injector s) (workers s) (main_pc s) (main_token s) (abort_signal s) (msg_count s)
    (submitted s) (ran s ++ [t]) (failed s).
Definition set_failed (s : Mt) : Mt :=
  mkMt (pool s) (injector s) (workers s) (main_pc s) (main_token s) (abort_signal s) (msg_count s)
    (submitted s) (ran s) true.

Definition to_pc (pc : WPc) (x : Worker) : Worker :=
  mkWorker pc (local_queue x) (fast_slot x) (w_token x) (thread_msg_count x).
Definition with_queue (q : Q) (x : Worker) : Worker :=
  mkWorker (w_pc x) q (fast_slot x) (w_token x) (thread_msg_count x).
Definition with_slot (o : option T) (x : Worker) : Worker :=
  mkWorker (w_pc x) (local_queue x) o (w_token x) (thread_msg_count x).
Definition with_token (b : bool) (x : Worker) : Worker :=
  mkWorker (w_pc x) (local_queue x) (fast_slot x) b (thread_msg_count x).
Definition with_count (z : Z) (x : Worker) : Worker :=
  mkWorker (w_pc x) (local_queue x) (fast_slot x) (w_token x) z.

Definition set_worker (w : nat) (x : Worker) (s : Mt) : Mt :=
  set_workers (<[w := x]> (workers s)) s.
(** [Unparker::unpark] of a worker. *)
Definition unpark (w : nat) (s : Mt) : Mt :=
  set_workers (alter (with_token true) w (workers s)) s.
Definition unpark_opt (o : option nat) (s : Mt) : Mt :=
  match o with Some w => unpark w s | None => s end.

(** What a running task does next, and the other choices of a worker. *)
Inductive TaskAct := ActWake (t : T) | ActCount (d : Z) | ActFinish | ActPanic (p : Panic).
Record Choice := mkChoice {
  act : TaskAct;
  busy : bool;
  rng : Rng;
  gives_up : bool;
}.

(** [update_msg_count]. *)
Definition update_msg_count (w : nat) (x : Worker) (pc : WPc) (s : Mt) : Mt :=
  set_worker w (to_pc pc (with_count 0 x)) (add_msg_count (thread_msg_count x) s).

(** ** A worker: the part of [run_local_worker] that parks and searches *)

(** A stealer is the number of its worker.  The iterator over the victims only
    depends on the bit field that was loaded, and is run at once; a steal may
    find its victim busy. *)
Definition search_step (w : nat) (c : Choice) (x : Worker) (s : Mt) : option (outcome Mt) :=
  let go pc := Some (Done (set_worker w (to_pc pc x) s)) in
  match w_pc x with
  | WDeactivate => Some
      (let! r := try_set_worker_inactive w (pool s) in
       Done (set_worker w (to_pc (if r.1 : bool then WInactiveCount else WCheckInjector) x)
         (set_pool r.2 s)))
  | WInactiveCount => Some (Done (update_msg_count w x WPark s))
  | WCheckInjector => go (if is_empty (injector s) then WSetAllInactive else WBeginSearch)
  | WSetAllInactive => Some (Done
      (set_worker w (to_pc WIdleCount x) (set_pool (set_all_workers_inactive (pool s)) s)))
  | WIdleCount => Some (Done (update_msg_count w x WUnparkExecutor s))
  | WUnparkExecutor => Some (Done (set_worker w (to_pc WPark x) (set_main_token true s)))
  | WPark =>
      if w_token x then Some (Done (set_worker w (to_pc WCheckAbort (with_token false x)) s))
      else None
  | WBeginSearch => Some (Done
      (set_worker w (to_pc WCheckAbort x) (set_pool (begin_worker_search (pool s)) s)))
  | WCheckAbort => go (if abort_signal s then WReturned else WPopBucket)
  | WPopBucket => go (if is_empty (injector s) then WVictims else WLockPop)
  | WLockPop =>
      let '(b, inj) := pop_bucket_locked (injector s) in
      Some (Done (set_worker w
        (to_pc (match b with Some b => WExtend b | None => WVictims end) x)
        (set_injector inj s)))
  | WExtend b =>
      if (length b <=? wq_spare (local_queue x))%nat then
        Some (Done (set_worker w (to_pc WEndSearch (with_queue (wq_extend b (local_queue x)) x)) s))
      else None
  | WVictims => Some
      (let n := length (workers s) in
       let! stealers := shuffled_stealers (active_workers (pool s)) (seq 0 n)
                          (Some (Z.of_nat w)) (rng c) in
       let! victims := shuffled_all (S n) stealers in
       Done (set_worker w (to_pc (WSteal victims) x) s))
  | WSteal [] => go (if gives_up c then WGiveUp else WPopBucket)
  | WSteal (v :: vs) =>
      match workers s !! v with
      | Some y =>
          if busy c || (v =? w)%nat then go (WSteal vs)
          else match wq_steal (local_queue y) (local_queue x) with
            | None => go (WSteal vs)
            | Some (t, qv, qw) => Some
                (let! _ := rust_assert (is_none (fast_slot x)) in
                 Done (set_worker w (to_pc WEndSearch (with_slot (Some t) (with_queue qw x)))
                   (set_worker v (with_queue qv y) s)))
            end
      | None => go (WSteal vs)
      end
  | WGiveUp => Some (Done
      (set_worker w (to_pc WDeactivate x) (set_pool (end_worker_search (pool s)) s)))
  | WEndSearch => Some (Done
      (set_worker w (to_pc WPop x) (set_pool (end_worker_search (pool s)) s)))
  | _ => None
  end.

(** ** A worker: the part that runs tasks, with [schedule_task] *)

Definition task_step (w : nat) (c : Choice) (x : Worker) (s : Mt) : option (outcome Mt) :=
  let go pc := Some (Done (set_worker w (to_pc pc x) s)) in
  match w_pc x with
  | WPop =>
      match fast_slot x with
      | Some t => Some (Done (set_worker w (to_pc (WGotTask t) (with_slot None x)) s))
      | None =>
          match wq_pop (local_queue x) with
          | Some (t, q) => Some (Done (set_worker w (to_pc (WGotTask t) (with_queue q x)) s))
          | None => go WResume
          end
      end
  | WGotTask t =>
      if abort_signal s then go WReturned
      else Some (Done (log_run t (set_worker w (to_pc WRun x) s)))
  | WRun =>
      match act c with
      | ActWake t => Some (Done (submit t (set_worker w
          (to_pc (match fast_slot x with Some prev => WPush prev | None => WRun end)
            (with_slot (Some t) x)) s)))
      | ActCount d => Some (Done (set_worker w
          (with_count (to_isize (wrap64 (thread_msg_count x + d))) x) s))
      | ActFinish => go WPop
      | ActPanic p => Some (Done (set_failed (set_worker w (to_pc (WRegister p) x) s)))
      end
  | WPush prev =>
      match wq_push prev (local_queue x) with
      | Ok q => Some (Done (set_worker w (to_pc WNeedHelp (with_queue q x)) s))
      | Err prev => go (WDrain prev)
      end
  | WDrain prev =>
      match (if busy c then None else wq_drain BUCKET_SIZE (local_queue x)) with
      | Some (l, q) => Some (Done (set_worker w (to_pc (WPushBucket l prev) (with_queue q x)) s))
      | None => Some (Done (set_worker w (to_pc WNeedHelp x)
          (set_injector (insert_task BUCKET_SIZE prev (injector s)) s)))
      end
  | WPushBucket l prev => Some (Done (set_worker w (to_pc (WPushAgain prev) x)
      (set_injector (push_bucket (bucket_from_iter BUCKET_SIZE l) (injector s)) s)))
  | WPushAgain prev =>
      match wq_push prev (local_queue x) with
      | Ok q => Some (Done (set_worker w (to_pc WNeedHelp (with_queue q x)) s))
      | Err _ => Some Panicked
      end
  | WNeedHelp => go (if (searching_worker_count (pool s) =? 0)%Z then WActivate ALoad else WRun)
  | WActivate a =>
      let '(a, pm, o) := activate_step false a (pool s) in
      Some (Done (unpark_opt o (set_worker w
        (to_pc (match a with ADone => WRun | _ => WActivate a end) x) (set_pool pm s))))
  | WResume => Some (Done
      (set_worker w (to_pc WPopBucket x) (set_pool (begin_worker_search (pool s)) s)))
  | WRegister p => Some (Done
      (set_worker w (to_pc WAbort x) (set_pool (register_panic p (pool s)) s)))
  | WAbort => Some (Done (set_abort (set_worker w (to_pc WActivateAll x) s)))
  | WActivateAll => Some (Done
      (set_worker w (to_pc (WUnparkAll 0) x) (set_pool (set_all_workers_active (pool s)) s)))
  | WUnparkAll i =>
      if (i <? length (workers s))%nat
      then Some (Done (unpark i (set_worker w (to_pc (WUnparkAll (S i)) x) s)))
      else go WUnparkMain
  | WUnparkMain => Some (Done (set_main_token true (set_worker w (to_pc WReturned x) s)))
  | _ => None
  end.

Definition worker_step (w : nat) (c : Choice) (s : Mt) : option (outcome Mt) :=
  x ← workers s !! w;
  match search_step w c x s with
  | Some o => Some o
  | None => task_step w c x s
  end.

(** ** The executor thread *)

Inductive MainAct := ActSpawn (t : T) | ActRunCall | ActTimeout | ActNext.

Definition main_step (c : MainAct) (s : Mt) : option (outcome Mt) :=
  match main_pc s, c with
  | MNew, ActNext =>
      if main_token s then Some
        (let! _ := rust_assert (pool_is_idle (pool s)) in
         Done (set_main (MIdle None) (set_main_token false s)))
      else None
  | MIdle _, ActSpawn t =>
      Some (Done (submit t (set_injector (insert_task BUCKET_SIZE t (injector s)) s)))
  | MIdle _, ActRunCall => Some (Done (set_main (MActivate ALoad) s))
  | MActivate a, ActNext =>
      let '(a, pm, o) := activate_step true a (pool s) in
      Some (Done (unpark_opt o (set_main
        (match a with ADone => MTakePanic | _ => MActivate a end) (set_pool pm s))))
  | MTakePanic, ActNext =>
      let '(o, pm) := take_panic (pool s) in
      Some (Done (set_main
        (match o with
         | Some (id, p) => MIdle (Some (Err (ExecPanic id p)))
         | None => MCheckIdle
         end) (set_pool pm s)))
  | MCheckIdle, ActNext =>
      Some (Done (set_main (if pool_is_idle (pool s) then MLoadCount else MPark) s))
  | MLoadCount, ActNext => Some
      (let n := msg_count s in
       if negb (n =? 0)%Z then
         let! _ := rust_assert (0 <=? n)%Z in
         Done (set_main (MIdle (Some (Err (UnprocessedMessages n)))) s)
       else Done (set_main (MIdle (Some (Ok tt))) s))
  | MPark, ActNext =>
      if main_token s then Some (Done (set_main MTakePanic (set_main_token false s))) else None
  | MPark, ActTimeout => Some (Done (set_failed (set_main MAbort s)))
  | MAbort, ActNext => Some (Done (set_abort (set_main MActivateAll s)))
  | MActivateAll, ActNext =>
      Some (Done (set_main (MUnparkAll 0) (set_pool (set_all_workers_active (pool s)) s)))
  | MUnparkAll i, ActNext =>
      if (i <? length (workers s))%nat
      then Some (Done (unpark i (set_main (MUnparkAll (S i)) s)))
      else Some (Done (set_main (MIdle (Some (Err ExecTimeout))) s))
  | _, _ => None
  end.

Inductive mt_step (s : Mt) (o : outcome Mt) : Prop :=
| mt_worker w c : worker_step w c s = Some o → mt_step s o
| mt_main c : main_step c s = Some o → mt_step s o.

Definition mt_next (s s' : Mt) : Prop := mt_step s (Done s').
End MtExecutor.

Arguments WPc : clear implicits.
Arguments Worker : clear implicits.
Arguments MainPc : clear implicits.
Arguments Mt : clear implicits.
Arguments TaskAct : clear implicits.
Arguments Choice : clear implicits.
Arguments MainAct : clear implicits.
