(* ===== verification/MtFacts.v ===== *)
(** * The multi-threaded executor: every task is run

    As long as nothing fails, a runnable that was given to the executor is run
    once: the workers account for every runnable, a worker that is marked
    inactive holds none, and the pool becomes idle only when no queue holds
    one.  The count of messages, however, is not complete when the pool is
    idle. *)

From stdpp Require Import base option list numbers relations strings.
From Stdlib Require Import ZArith Lia.
From S2P Require Import Prelude Counting ChannelQueue Bit PoolManager WorkerPool StableQueue Time SeqFuture Scheduler Simulation MtExecutor.

Section Facts.
Context {Q T Payload : Type} `{WorkQueueLaws Q T}.
Implicit Types (s : Mt Q T Payload) (x y : Worker Q T Payload) (pc : WPc T Payload).

(** ** Invariant *)

(** Marked inactive, or about to be woken. *)
Definition resting pc : bool :=
  match pc with WInactiveCount | WIdleCount | WUnparkExecutor | WPark => true | _ => false end.
(** The local queue and the fast slot are empty. *)
Definition hungry pc : bool :=
  match pc with
  | WDeactivate | WInactiveCount | WCheckInjector | WSetAllInactive | WIdleCount
  | WUnparkExecutor | WPark | WBeginSearch | WCheckAbort | WPopBucket | WLockPop | WExtend _
  | WVictims | WSteal _ | WGiveUp | WResume => true
  | _ => false
  end.
Definition failing pc : bool :=
  match pc with
  | WRegister _ | WAbort | WActivateAll | WUnparkAll _ | WUnparkMain | WReturned => true
  | _ => false
  end.
Definition last_active pc : bool :=
  match pc with WCheckInjector | WSetAllInactive => true | _ => false end.
Definition reporting pc : bool :=
  match pc with WIdleCount | WUnparkExecutor => true | _ => false end.
Definition needs_room pc : bool :=
  match pc with WPushBucket _ _ | WPushAgain _ => true | _ => false end.

(** The worker that an activation has claimed and not unparked yet. *)
Definition target (a : ActPc) : option nat :=
  match a with ABeginSearch w | AUnpark w => Some w | _ => None end.
Definition worker_target x : option nat :=
  match w_pc x with WActivate a => target a | _ => None end.
Definition main_target (m : MainPc Payload) : option nat :=
  match m with MActivate a => target a | _ => None end.
Definition hits (w : nat) (o : option nat) : nat := if decide (o = Some w) then 1 else 0.
Definition pending s (w : nat) : nat :=
  hits w (main_target (main_pc s)) + cnt (λ x, hits w (worker_target x)) (workers s).

Definition bit (a : Z) (w : nat) : bool := Z.testbit a (Z.of_nat w).

Record worker_ok (a : Z) (inj : Injector T) (m : MainPc Payload) (w : nat) x : Prop := {
  wk_pc : failing (w_pc x) = false;
  wk_bit : resting (w_pc x) = false → bit a w = true;
  wk_hungry : hungry (w_pc x) = true → wq_items (local_queue x) = [] ∧ fast_slot x = None;
  wk_last : last_active (w_pc x) = true → a = (2 ^ Z.of_nat w)%Z;
  wk_setall : w_pc x = WSetAllInactive → buckets inj = [];
  wk_reporting : reporting (w_pc x) = true → m = MNew → a = 0%Z;
  wk_room : needs_room (w_pc x) = true → wq_room (local_queue x);
  wk_bucket : ∀ b, w_pc x = WExtend b → 1 ≤ length b;
  wk_drain : ∀ l t, w_pc x = WPushBucket l t → 1 ≤ length l ≤ BUCKET_SIZE;
}.

(** The executor thread. *)
Definition main_ok (m : MainPc Payload) (token : bool) (a : Z) : Prop :=
  match m with
  | MNew => token = true → a = 0%Z
  | MIdle _ | MActivate ALoad | MLoadCount => a = 0%Z
  | MActivate (ALoop b) => a = 0%Z ∧ b = 0%Z
  | MActivate _ | MTakePanic | MCheckIdle | MPark => True
  | MAbort | MActivateAll | MUnparkAll _ => False
  end.
(** The executor thread is in the loop of [run]: the pool is idle only when
    the injector is empty. *)
Definition in_loop (m : MainPc Payload) : bool :=
  match m with
  | MActivate ALoad | MActivate (ALoop _) | MIdle _ => false
  | _ => true
  end.

(** The runnables that a worker has. *)
Definition pc_tasks pc : list T :=
  match pc with
  | WExtend b => b
  | WGotTask t | WPush t | WDrain t | WPushAgain t => [t]
  | WPushBucket l t => l ++ [t]
  | _ => []
  end.
Definition worker_tasks x : list T :=
  wq_items (local_queue x) ++ option_list (fast_slot x) ++ pc_tasks (w_pc x).
Definition held s : list T := injector_tasks (injector s) ++ concat (worker_tasks <$> workers s).

(** A resting worker is marked active when it is about to be woken: when it has
    its token or one of the [n] activations has claimed it. *)
Definition tokens_ok (a : Z) (w : nat) (n : nat) x : Prop :=
  (if w_token x then 1 else 0) + n = if resting (w_pc x) && bit a w then 1 else 0.

Record mt_inv s : Prop := {
  mi_abort : abort_signal s = false;
  mi_size : pool_size (pool s) = length (workers s);
  mi_panic : worker_panic (pool s) = None;
  mi_threads : 1 ≤ length (workers s) ≤ 64;
  mi_range : (0 ≤ active_workers (pool s) < 2 ^ Z.of_nat (length (workers s)))%Z;
  mi_injector : injector_ok BUCKET_SIZE (injector s);
  mi_workers : ∀ w x, workers s !! w = Some x →
    worker_ok (active_workers (pool s)) (injector s) (main_pc s) w x;
  mi_tokens : ∀ w x, workers s !! w = Some x →
    tokens_ok (active_workers (pool s)) w (pending s w) x;
  mi_main : main_ok (main_pc s) (main_token s) (active_workers (pool s));
  mi_loop : in_loop (main_pc s) = true → active_workers (pool s) = 0%Z → buckets (injector s) = [];
  mi_tasks : submitted s ≡ₚ ran s ++ held s;
}.

(** What only construction and panics set. *)
Definition fixed (p : PoolManager (ModelId * Payload)) := (pool_size p, worker_panic p).

(** ** Bits *)

Lemma bit_pow w v : bit (2 ^ Z.of_nat w) v = bool_decide (v = w).
Proof.
  unfold bit. destruct (decide (v = w)) as [->|Hne].
  - rewrite bool_decide_eq_true_2 by done. apply Z.pow2_bits_true. lia.
  - rewrite bool_decide_eq_false_2 by done. apply Z.pow2_bits_false. lia.
Qed.

Lemma bit_zero w : bit 0 w = false.
Proof. apply Z.bits_0. Qed.

(** Another worker than the last active one is not active. *)
Lemma last_alone s w x v y : mt_inv s → workers s !! w = Some x → last_active (w_pc x) = true →
  workers s !! v = Some y → resting (w_pc y) = false → v = w.
Proof.
  intros Hinv Hw Hl Hv Hr. pose proof (wk_last _ _ _ _ _ (mi_workers _ Hinv _ _ Hw) Hl) as Ha.
  pose proof (wk_bit _ _ _ _ _ (mi_workers _ Hinv _ _ Hv) Hr) as Hb. rewrite Ha, bit_pow in Hb.
  by apply bool_decide_eq_true in Hb.
Qed.

Lemma active_nonzero s w x : mt_inv s → workers s !! w = Some x → resting (w_pc x) = false →
  active_workers (pool s) ≠ 0%Z.
Proof.
  intros Hinv Hw Hr Ha. pose proof (wk_bit _ _ _ _ _ (mi_workers _ Hinv _ _ Hw) Hr) as Hb.
  by rewrite Ha, bit_zero in Hb.
Qed.

(** ** Tasks *)

Lemma held_split (ws : list (Worker Q T Payload)) w x : ws !! w = Some x →
  ∃ rest, concat (worker_tasks <$> ws) ≡ₚ worker_tasks x ++ rest ∧
    ∀ y, concat (worker_tasks <$> <[w := y]> ws) ≡ₚ worker_tasks y ++ rest.
Proof.
  revert w. induction ws as [|z ws IH]; intros [|w] Hw; simplify_eq/=.
  - eexists. split; [reflexivity|]. done.
  - destruct (IH w Hw) as (rest & He & Hy). exists (worker_tasks z ++ rest). split.
    + rewrite He. by rewrite Permutation_app_swap_app.
    + intros y. rewrite Hy. by rewrite Permutation_app_swap_app.
Qed.

(** The tasks after a step of the worker [w], which takes the new runnables
    [l1] and runs [l2]. *)
Lemma tasks_move s s' w x y l1 l2 :
  mt_inv s → workers s !! w = Some x → workers s' = <[w := y]> (workers s) →
  submitted s' = submitted s ++ l1 → ran s' = ran s ++ l2 →
  l1 ++ injector_tasks (injector s) ++ worker_tasks x ≡ₚ
    l2 ++ injector_tasks (injector s') ++ worker_tasks y →
  submitted s' ≡ₚ ran s' ++ held s'.
Proof.
  intros Hinv Hw Hws Hsub Hran Hl. destruct (held_split _ _ _ Hw) as (rest & He & Hy).
  unfold held. rewrite Hsub, Hran, Hws, Hy, (mi_tasks _ Hinv). unfold held. rewrite He.
  rewrite (Permutation_app_comm _ l1), <-!app_assoc.
  rewrite (Permutation_app_swap_app l1 (ran s)). apply Permutation_app_head.
  rewrite !app_assoc. apply Permutation_app_tail. rewrite <-!app_assoc. exact Hl.
Qed.

(** ** Activations and tokens *)

Lemma pending_set s s' w x y v :
  workers s !! w = Some x → workers s' = <[w := y]> (workers s) →
  main_target (main_pc s') = main_target (main_pc s) →
  pending s' v + hits v (worker_target x) = pending s v + hits v (worker_target y).
Proof.
  intros Hw Hws Hm. unfold pending. rewrite Hm, Hws.
  pose proof (cnt_insert (λ x, hits v (worker_target x)) _ _ _ y Hw) as Hc. simpl in Hc. lia.
Qed.

Lemma hits_other v w o : o = Some w → v ≠ w → hits v o = 0.
Proof. intros -> Hne. unfold hits. rewrite decide_False; [done|]. congruence. Qed.
Lemma hits_same w : hits w (Some w) = 1.
Proof. unfold hits. by rewrite decide_True. Qed.
Lemma hits_None w : hits w None = 0.
Proof. done. Qed.

(** ** Steps that do not change the active workers *)

Lemma worker_ok_inj a inj inj' m w x : worker_ok a inj m w x → w_pc x ≠ WSetAllInactive →
  worker_ok a inj' m w x.
Proof. intros [] Hne. by split. Qed.

Lemma inv_move s s' w x y :
  mt_inv s → workers s !! w = Some x → workers s' = <[w := y]> (workers s) →
  active_workers (pool s') = active_workers (pool s) → fixed (pool s') = fixed (pool s) →
  main_pc s' = main_pc s → abort_signal s' = abort_signal s →
  (main_token s' = main_token s ∨ (main_pc s = MNew → active_workers (pool s) = 0%Z)) →
  injector_ok BUCKET_SIZE (injector s') →
  (injector s' = injector s ∨ resting (w_pc x) = false ∧ last_active (w_pc x) = false) →
  worker_ok (active_workers (pool s)) (injector s') (main_pc s) w y →
  (∀ n, tokens_ok (active_workers (pool s)) w n x → tokens_ok (active_workers (pool s)) w n y) →
  worker_target y = worker_target x →
  submitted s' ≡ₚ ran s' ++ held s' →
  mt_inv s'.
Proof.
  intros Hinv Hw Hws Hact Hsize Hm Hab Htok Hio Hinj Hy Hto Htg Htasks.
  injection Hsize as Hsize Hpan.
  pose proof (lookup_lt_Some _ _ _ Hw) as Hlt. split; rewrite ?Hact, ?Hm, ?Hws; try done.
  - by rewrite Hab, (mi_abort _ Hinv).
  - rewrite Hsize, length_insert. apply (mi_size _ Hinv).
  - rewrite Hpan. apply (mi_panic _ Hinv).
  - rewrite length_insert. apply (mi_threads _ Hinv).
  - rewrite length_insert. apply (mi_range _ Hinv).
  - intros v z Hv. apply list_lookup_insert_Some in Hv as [(<- & <- & _)|[Hne Hv]]; [done|].
    pose proof (mi_workers _ Hinv _ _ Hv) as Hok. destruct Hinj as [->|[Hr Hla]]; [done|].
    apply worker_ok_inj with (injector s); [done|]. intros Hpc. apply Hne.
    eapply (last_alone s v z w x); try done. by rewrite Hpc.
  - intros v z Hv. assert (pending s' v = pending s v) as ->.
    { pose proof (pending_set s s' w x y v Hw Hws ltac:(by rewrite Hm)) as Hp.
      rewrite Htg in Hp. lia. }
    apply list_lookup_insert_Some in Hv as [(<- & <- & _)|[Hne Hv]].
    + apply Hto. by apply (mi_tokens _ Hinv).
    + by apply (mi_tokens _ Hinv).
  - pose proof (mi_main _ Hinv) as Hmain. destruct Htok as [->|Hnew]; [done|].
    destruct (main_pc s); try done. simpl in *. auto.
  - intros Hl Ha. destruct Hinj as [->|[Hr _]]; [by apply (mi_loop _ Hinv)|].
    by destruct (active_nonzero s w x Hinv Hw Hr).
Qed.

(** ** Steps that change the active workers or the tokens *)

(** What the executor thread is not doing while a worker is active. *)
Lemma main_ok_active m token a a' : main_ok m token a → a ≠ 0%Z → main_ok m token a'.
Proof. destruct m as [|r|[|b| | |]| | | | | | |]; simpl; try done; tauto. Qed.

(** The worker [w], which is active, changes the bit field to [a'] and itself
    to [y]; the bits of the others are the same. *)
Lemma inv_bits s s' w x y a' :
  mt_inv s → workers s !! w = Some x → resting (w_pc x) = false → worker_target x = None →
  workers s' = <[w := y]> (workers s) → worker_target y = None → w_token y = w_token x →
  active_workers (pool s') = a' → fixed (pool s') = fixed (pool s) →
  main_pc s' = main_pc s → main_token s' = main_token s → abort_signal s' = abort_signal s →
  injector s' = injector s → submitted s' = submitted s → ran s' = ran s →
  (0 ≤ a' < 2 ^ Z.of_nat (length (workers s)))%Z →
  (∀ v, v ≠ w → bit a' v = bit (active_workers (pool s)) v) →
  bit a' w = false → resting (w_pc y) = true → worker_tasks y = worker_tasks x →
  worker_ok a' (injector s) (main_pc s) w y →
  (a' = 0%Z → buckets (injector s) = []) →
  mt_inv s'.
Proof.
  intros Hinv Hw Hr Htx Hws Hty Htok Ha' Hsize Hm Hmt Hab Hin Hsub Hran Hrange Hbits Hbw Hry Htask
    Hok Hz. injection Hsize as Hsize Hpan. pose proof (active_nonzero s w x Hinv Hw Hr) as Hnz.
  split; rewrite ?Ha', ?Hm, ?Hws, ?Hin, ?Hmt; try done.
  - by rewrite Hab, (mi_abort _ Hinv).
  - rewrite Hsize, length_insert. apply (mi_size _ Hinv).
  - rewrite Hpan. apply (mi_panic _ Hinv).
  - rewrite length_insert. apply (mi_threads _ Hinv).
  - by rewrite length_insert.
  - apply (mi_injector _ Hinv).
  - intros v z Hv. apply list_lookup_insert_Some in Hv as [(<- & <- & _)|[Hne Hv]]; [done|].
    pose proof (mi_workers _ Hinv _ _ Hv) as [? Hb ? Hl ? Hrp ? ? ?]. split; try done.
    + intros Hrz. rewrite Hbits by done. auto.
    + intros Hlz. destruct Hne. by eapply (last_alone s v z w x).
    + intros Hrz Hmz. by destruct (Hnz (Hrp Hrz Hmz)).
  - intros v z Hv. assert (pending s' v = pending s v) as ->.
    { pose proof (pending_set s s' w x y v Hw Hws ltac:(by rewrite Hm)) as Hp.
      rewrite Htx, Hty in Hp. lia. }
    apply list_lookup_insert_Some in Hv as [(<- & <- & _)|[Hne Hv]].
    + pose proof (mi_tokens _ Hinv _ _ Hw) as Ht. unfold tokens_ok in *. rewrite Hr in Ht.
      rewrite Htok, Hry, Hbw. exact Ht.
    + unfold tokens_ok. rewrite Hbits by done. by apply (mi_tokens _ Hinv).
  - by eapply main_ok_active, Hnz; apply (mi_main _ Hinv).
  - eapply (tasks_move s s' w x y [] []); try done; rewrite ?app_nil_r; try done.
    by rewrite Hin, Htask.
Qed.

Lemma ldiff_pow a w : bit a w = true →
  Z.ldiff a (2 ^ Z.of_nat w) = (a - 2 ^ Z.of_nat w)%Z.
Proof.
  intros Hb. symmetry. apply Z.sub_nocarry_ldiff. apply Z.bits_inj'. intros n Hn.
  rewrite Z.ldiff_spec, Z.bits_0. destruct (decide (n = Z.of_nat w)) as [->|Hne].
  - unfold bit in Hb. by rewrite Hb, andb_false_r.
  - by rewrite Z.pow2_bits_false by lia.
Qed.

Lemma bit_ldiff a w v : bit (Z.ldiff a (2 ^ Z.of_nat w)) v = bit a v && bool_decide (v ≠ w).
Proof.
  pose proof (bit_pow w v) as Hp. unfold bit in *. rewrite Z.ldiff_spec, Hp. f_equal.
  by repeat case_bool_decide.
Qed.

Lemma bit_lor a w v : bit (Z.lor a (2 ^ Z.of_nat w)) v = bit a v || bool_decide (v = w).
Proof. pose proof (bit_pow w v) as Hp. unfold bit in *. by rewrite Z.lor_spec, Hp. Qed.

Lemma land_bit a w : (Z.land a (2 ^ Z.of_nat w) =? 0)%Z = negb (bit a w).
Proof.
  unfold bit. destruct (Z.testbit a (Z.of_nat w)) eqn:Hb; simpl.
  - apply Z.eqb_neq. intros He. assert (Z.testbit (Z.land a (2 ^ Z.of_nat w)) (Z.of_nat w) = false) as Hf
      by (rewrite He; apply Z.bits_0).
    by rewrite Z.land_spec, Hb, Z.pow2_bits_true in Hf by lia.
  - apply Z.eqb_eq. apply Z.bits_inj'. intros n Hn. rewrite Z.land_spec, Z.bits_0.
    destruct (decide (n = Z.of_nat w)) as [->|Hne]; [by rewrite Hb|].
    by rewrite (Z.pow2_bits_false _ n), andb_false_r by lia.
Qed.
(** A worker before and after a step of an activation. *)
Definition running pc : bool := match pc with WActivate _ | WRun => true | _ => false end.
Record same_work x x' : Prop := {
  sw_queue : local_queue x' = local_queue x;
  sw_slot : fast_slot x' = fast_slot x;
  sw_pc : w_pc x' = w_pc x ∨ running (w_pc x) = true ∧ running (w_pc x') = true;
}.

Lemma same_work_refl x : same_work x x.
Proof. split; auto. Qed.

Lemma worker_ok_same a a' inj m m' w x x' : worker_ok a inj m w x → same_work x x' →
  (∀ v, bit a v = true → bit a' v = true) → (a' = a ∨ last_active (w_pc x) = false) →
  (m' = MNew → m = MNew ∧ (a' = a ∨ a ≠ 0%Z)) → worker_ok a' inj m' w x'.
Proof.
  intros Hok [Hq Hs Hpc] Hb Hl Hm.
  destruct Hpc as [Hpc|[Hr Hr']].
  - destruct Hok as [H1 H2 H3 H4 H5 H6 H7 H8 H9]. split; rewrite ?Hpc, ?Hq, ?Hs; auto.
    + intros Hla. destruct Hl as [->|Hl]; [auto|]. congruence.
    + intros Hrep Hnew. destruct (Hm Hnew) as [Hmn Ha]. pose proof (H6 Hrep Hmn). destruct Ha; congruence.
  - pose proof (wk_bit _ _ _ _ _ Hok) as H2. destruct (w_pc x); try done;
      (destruct (w_pc x') eqn:Hx'; try done; split; rewrite ?Hx'; simpl; intros; simplify_eq; auto).
Qed.

Lemma same_work_tasks x x' : same_work x x' → worker_tasks x' = worker_tasks x.
Proof.
  intros [Hq Hs Hpc]. unfold worker_tasks. rewrite Hq, Hs. do 2 f_equal.
  destruct Hpc as [->|[Hr Hr']]; [done|]. by destruct (w_pc x), (w_pc x').
Qed.

Lemma held_same s s' : length (workers s') = length (workers s) → injector s' = injector s →
  (∀ v x', workers s' !! v = Some x' → ∃ x, workers s !! v = Some x ∧ same_work x x') →
  held s' = held s.
Proof.
  intros Hlen Hin Hws. unfold held. rewrite Hin. do 2 f_equal. apply list_eq. intros v.
  rewrite !list_lookup_fmap. destruct (workers s' !! v) as [x'|] eqn:Hv; simpl.
  - destruct (Hws v x' Hv) as (x & -> & Hs). simpl. by rewrite (same_work_tasks _ _ Hs).
  - apply lookup_ge_None in Hv. rewrite Hlen in Hv. by rewrite (proj2 (lookup_ge_None _ _) Hv).
Qed.

(** A step of an activation, by a worker or by the executor thread. *)
Lemma inv_activation s s' a' :
  mt_inv s → length (workers s') = length (workers s) → abort_signal s' = abort_signal s →
  fixed (pool s') = fixed (pool s) → active_workers (pool s') = a' →
  (0 ≤ a' < 2 ^ Z.of_nat (length (workers s)))%Z → injector s' = injector s →
  main_ok (main_pc s') (main_token s') a' →
  (in_loop (main_pc s') = true → a' = 0%Z → buckets (injector s) = []) →
  (∀ v, bit (active_workers (pool s)) v = true → bit a' v = true) →
  (a' = active_workers (pool s) ∨
    ∀ v x, workers s !! v = Some x → last_active (w_pc x) = false) →
  (main_pc s' = MNew → main_pc s = MNew ∧
    (a' = active_workers (pool s) ∨ active_workers (pool s) ≠ 0%Z)) →
  (∀ v x', workers s' !! v = Some x' → ∃ x, workers s !! v = Some x ∧ same_work x x' ∧
    tokens_ok a' v (pending s' v) x') →
  submitted s' = submitted s → ran s' = ran s →
  mt_inv s'.
Proof.
  intros Hinv Hlen Hab Hsize Ha' Hrange Hin Hm Hloop Hmono Hlast Hnew Hws Hsub Hran.
  injection Hsize as Hsize Hpan.
  split; rewrite ?Ha', ?Hlen, ?Hin, ?Hab, ?Hsize, ?Hpan; try done; try apply Hinv.
  - intros v x' Hv. destruct (Hws v x' Hv) as (x & Hx & Hsame & _).
    eapply worker_ok_same; [by apply (mi_workers _ Hinv)|done|done| |done].
    destruct Hlast as [?|Hlast]; [by left|]. right. eauto.
  - intros v x' Hv. by destruct (Hws v x' Hv) as (x & Hx & _ & Ht).
  - rewrite Hsub, Hran, (held_same s s'), (mi_tasks _ Hinv); try done.
    intros v x' Hv. destruct (Hws v x' Hv) as (x & Hx & ? & Ht). by exists x.
Qed.

(** ** Steps of a worker *)

(** A step that touches the worker only, and the number of searching
    workers. *)
Lemma inv_local s s' w x y :
  mt_inv s → workers s !! w = Some x → workers s' = <[w := y]> (workers s) →
  active_workers (pool s') = active_workers (pool s) → fixed (pool s') = fixed (pool s) →
  main_pc s' = main_pc s → abort_signal s' = abort_signal s →
  (main_token s' = main_token s ∨ (main_pc s = MNew → active_workers (pool s) = 0%Z)) →
  injector s' = injector s → submitted s' = submitted s → ran s' = ran s →
  worker_ok (active_workers (pool s)) (injector s) (main_pc s) w y →
  (∀ n, tokens_ok (active_workers (pool s)) w n x → tokens_ok (active_workers (pool s)) w n y) →
  worker_target y = worker_target x → worker_tasks x ≡ₚ worker_tasks y →
  mt_inv s'.
Proof.
  intros Hinv Hw Hws Hact Hsize Hm Hab Htok Hin Hsub Hran Hok Hto Htg Htasks.
  eapply (inv_move s s' w x y); try done; rewrite ?Hin; try done.
  - apply (mi_injector _ Hinv).
  - by left.
  - apply (tasks_move s s' w x y [] []); rewrite ?app_nil_r, ?Hin; try done.
    simpl. by rewrite Htasks.
Qed.

(** Proves [worker_ok] of the next state from that of the worker [x]. *)
Ltac worker_next Hok Hpc :=
  let H := fresh in
  pose proof Hok as H; destruct H; rewrite Hpc in *; simpl in *; split; simpl;
  intros; simplify_eq; auto; try done.

(** The case of a step that only goes on. *)
Ltac by_local Hinv Hw Hok Hpc :=
  eexists; split; [reflexivity|];
  eapply (inv_local _ _ _ _ _ Hinv Hw); [reflexivity|..]; simpl; rewrite ?Hpc; simpl;
  [reflexivity|reflexivity|reflexivity|reflexivity|try by left
  |reflexivity|reflexivity|reflexivity| |try by (unfold tokens_ok; rewrite Hpc)| |];
  try (unfold worker_target; simpl; by rewrite ?Hpc);
  try (unfold worker_tasks; simpl; by rewrite ?Hpc);
  try (by worker_next Hok Hpc).

Lemma deactivate_ok s w x o : mt_inv s → workers s !! w = Some x → w_pc x = WDeactivate →
  (let! r := try_set_worker_inactive w (pool s) in
   Done (set_worker w (to_pc (if r.1 : bool then WInactiveCount else WCheckInjector) x)
     (set_pool r.2 s))) = o → ∃ s', o = Done s' ∧ mt_inv s'.
Proof.
  intros Hinv Hw Hpc <-. pose proof (mi_workers _ Hinv _ _ Hw) as Hok.
  assert (resting (w_pc x) = false) as Hr by (by rewrite Hpc).
  pose proof (wk_bit _ _ _ _ _ Hok Hr) as Hb. unfold try_set_worker_inactive. simpl.
  rewrite land_bit, Hb. simpl. destruct (Z.eqb_spec (active_workers (pool s)) (2 ^ Z.of_nat w)) as [Ha|Ha].
  { simpl. by_local Hinv Hw Hok Hpc. }
  simpl. eexists. split; [reflexivity|].
  assert (worker_tasks (to_pc WInactiveCount x) = worker_tasks x) as Ht
    by (unfold worker_tasks; simpl; by rewrite Hpc).
  assert (Z.ldiff (active_workers (pool s)) (2 ^ Z.of_nat w) ≠ 0%Z) as Hne.
  { rewrite ldiff_pow by done. lia. }
  eapply (inv_bits s _ w x _ _ Hinv Hw Hr); simpl; try reflexivity; try done.
  - unfold worker_target. by rewrite Hpc.
  - pose proof (mi_range _ Hinv). split; [apply Z.ldiff_nonneg; lia|].
    rewrite ldiff_pow by done. lia.
  - intros v Hv. rewrite bit_ldiff, bool_decide_eq_true_2 by done. by rewrite andb_true_r.
  - rewrite bit_ldiff, bool_decide_eq_false_2 by tauto. by rewrite andb_false_r.
  - worker_next Hok Hpc.
Qed.

Lemma all_inactive_ok s w x : mt_inv s → workers s !! w = Some x → w_pc x = WSetAllInactive →
  mt_inv (set_worker w (to_pc WIdleCount x) (set_pool (set_all_workers_inactive (pool s)) s)).
Proof.
  intros Hinv Hw Hpc. pose proof (mi_workers _ Hinv _ _ Hw) as Hok.
  assert (resting (w_pc x) = false) as Hr by (by rewrite Hpc).
  pose proof (wk_last _ _ _ _ _ Hok ltac:(by rewrite Hpc)) as Ha.
  assert (worker_tasks (to_pc WIdleCount x) = worker_tasks x) as Ht
    by (unfold worker_tasks; simpl; by rewrite Hpc).
  eapply (inv_bits s _ w x _ _ Hinv Hw Hr); simpl; try reflexivity; try done.
  - unfold worker_target. by rewrite Hpc.
  - lia.
  - intros v Hv. rewrite bit_zero, Ha, bit_pow. by rewrite bool_decide_eq_false_2.
  - apply bit_zero.
  - worker_next Hok Hpc.
  - intros _. by apply (wk_setall _ _ _ _ _ Hok).
Qed.

Lemma park_ok s w x : mt_inv s → workers s !! w = Some x → w_pc x = WPark → w_token x = true →
  mt_inv (set_worker w (to_pc WCheckAbort (with_token false x)) s).
Proof.
  intros Hinv Hw Hpc Htok. pose proof (mi_workers _ Hinv _ _ Hw) as Hok.
  pose proof (mi_tokens _ Hinv _ _ Hw) as Ht. unfold tokens_ok in Ht. rewrite Htok, Hpc in Ht.
  destruct (bit (active_workers (pool s)) w) eqn:Hb; simpl in Ht; [|lia].
  eapply (inv_local s _ w x _ Hinv Hw); [reflexivity|..]; simpl; try done; try by left.
  - by worker_next Hok Hpc.
  - intros n. unfold tokens_ok. simpl. rewrite Htok, Hpc, Hb. simpl. lia.
  - unfold worker_target. simpl. by rewrite Hpc.
  - unfold worker_tasks. simpl. by rewrite Hpc.
Qed.

Lemma lock_pop_ok s w x : mt_inv s → workers s !! w = Some x → w_pc x = WLockPop →
  mt_inv (set_worker w
    (to_pc (match (pop_bucket_locked (injector s)).1 with Some b => WExtend b | None => WVictims end) x)
    (set_injector (pop_bucket_locked (injector s)).2 s)).
Proof.
  intros Hinv Hw Hpc. pose proof (mi_workers _ Hinv _ _ Hw) as Hok.
  destruct (pop_bucket_ok BUCKET_SIZE _ (mi_injector _ Hinv)) as [Hio Hpop].
  destruct (pop_bucket_locked (injector s)) as [b inj] eqn:Heq. simpl in *.
  eapply (inv_move s _ w x _ Hinv Hw); [reflexivity|..
    |eapply (tasks_move s _ w x _ [] [] Hinv Hw); [reflexivity|..]]; simpl; try done; try by left.
  - right. by rewrite Hpc.
  - destruct b as [b|]; worker_next Hok Hpc; lia.
  - intros n. unfold tokens_ok. simpl. rewrite Hpc. by destruct b.
  - unfold worker_target. simpl. rewrite Hpc. by destruct b.
  - by rewrite app_nil_r.
  - by rewrite app_nil_r.
  - unfold worker_tasks. simpl. rewrite Hpc. simpl. destruct b as [b|]; simpl.
    + destruct Hpop as [_ ->]. rewrite !app_nil_r, !app_assoc.
      rewrite (Permutation_app_comm _ b). by rewrite !app_assoc.
    + unfold injector_tasks. rewrite Hpop. unfold pop_bucket_locked in Heq. rewrite Hpop in Heq.
      simpl in Heq. by simplify_eq/=.
Qed.

Lemma extend_ok s w x b : mt_inv s → workers s !! w = Some x → w_pc x = WExtend b →
  length b ≤ wq_spare (local_queue x) →
  mt_inv (set_worker w (to_pc WEndSearch (with_queue (wq_extend b (local_queue x)) x)) s).
Proof.
  intros Hinv Hw Hpc Hlen. pose proof (mi_workers _ Hinv _ _ Hw) as Hok.
  eapply (inv_local s _ w x _ Hinv Hw); [reflexivity|..]; simpl; try done; try by left.
  - by worker_next Hok Hpc.
  - intros n. unfold tokens_ok. by rewrite Hpc.
  - unfold worker_target. simpl. by rewrite Hpc.
  - unfold worker_tasks. simpl. rewrite Hpc, wq_extend_items by done. simpl.
    rewrite app_nil_r, <-app_assoc, (Permutation_app_comm b). by rewrite <-app_assoc.
Qed.

(** The state after the victim's queue has changed; its log of submitted
    runnables is adjusted. *)
Definition robbed (v : nat) y s : Mt Q T Payload :=
  let s' := set_worker v y s in
  mkMt (pool s') (injector s') (workers s') (main_pc s') (main_token s') (abort_signal s')
    (msg_count s') (ran s' ++ held s') (ran s') (failed s').

Lemma robbed_ok s v y q : mt_inv s → workers s !! v = Some y → hungry (w_pc y) = false →
  (wq_room (local_queue y) → wq_room q) → mt_inv (robbed v (with_queue q y) s).
Proof.
  intros Hinv Hv Hh Hroom. pose proof (mi_workers _ Hinv _ _ Hv) as Hok.
  eapply (inv_move s _ v y _ Hinv Hv); [reflexivity|..]; simpl; try done; try by left.
  - apply (mi_injector _ Hinv).
  - destruct Hok. split; simpl; auto. intros Hc. by rewrite Hc in Hh.
Qed.

Lemma steal_ok s w x v y t qv qw :
  mt_inv s → workers s !! w = Some x → hungry (w_pc x) = true → resting (w_pc x) = false →
  worker_target x = None → pc_tasks (w_pc x) = [] →
  v ≠ w → workers s !! v = Some y → wq_steal (local_queue y) (local_queue x) = Some (t, qv, qw) →
  mt_inv (set_worker w (to_pc WEndSearch (with_slot (Some t) (with_queue qw x)))
    (set_worker v (with_queue qv y) s)).
Proof.
  intros Hinv Hw Hh Hr Htg Hpt Hne Hv Hsteal. pose proof (mi_workers _ Hinv _ _ Hw) as Hok.
  destruct (wk_hungry _ _ _ _ _ Hok Hh) as [Hq Hs].
  pose proof (wq_steal_Some _ _ _ _ _ Hsteal) as Hperm. rewrite Hq, app_nil_r in Hperm.
  assert (hungry (w_pc y) = false) as Hhy.
  { destruct (hungry (w_pc y)) eqn:Hhy; [|done].
    destruct (wk_hungry _ _ _ _ _ (mi_workers _ Hinv _ _ Hv) Hhy) as [Hqy _].
    rewrite Hqy in Hperm. by apply Permutation_nil_cons in Hperm. }
  pose proof (robbed_ok s v y qv Hinv Hv Hhy ltac:(by apply (wq_steal_room _ _ _ _ _ Hsteal))) as Hinv1.
  assert (workers (robbed v (with_queue qv y) s) !! w = Some x) as Hw1
    by (simpl; by rewrite list_lookup_insert_ne).
  eapply (inv_move _ _ w x _ Hinv1 Hw1); [reflexivity|..]; simpl; try done; try by left.
  - apply (mi_injector _ Hinv).
  - pose proof (wk_bit _ _ _ _ _ Hok). destruct Hok; split; simpl; try done. auto.
  - intros n. unfold tokens_ok. simpl. by rewrite Hr.
  - rewrite (mi_tasks _ Hinv). apply Permutation_app_head. unfold held. simpl.
    apply Permutation_app_head. destruct (held_split _ _ _ Hv) as (r1 & -> & Hr1).
    destruct (held_split _ _ _ Hw1) as (r2 & Hr2 & ->). simpl in Hr2. rewrite Hr1 in Hr2.
    unfold worker_tasks in *. simpl in *. rewrite Hq, Hs, Hpt in Hr2. simpl in Hr2.
    rewrite Hperm, <-Hr2. simpl. rewrite <-!app_assoc. simpl.
    rewrite <-(Permutation_middle (wq_items qw)). apply Permutation_skip.
    rewrite !app_assoc. do 3 apply Permutation_app_tail. by rewrite Permutation_app_comm.
Qed.

Lemma flag_exact s : mt_inv s → is_empty (injector s) = true → buckets (injector s) = [].
Proof. intros Hinv. by apply (io_flag _ _ (mi_injector _ Hinv)). Qed.

(** The victims of a search: only a pool of 64 workers can panic. *)
Lemma victims_ok s w c x o : mt_inv s → workers s !! w = Some x → w_pc x = WVictims →
  search_step w c x s = Some o →
  (∃ s', o = Done s' ∧ mt_inv s') ∨ o = Panicked ∧ length (workers s) = 64.
Proof.
  intros Hinv Hw Hpc Hstep. pose proof (mi_workers _ Hinv _ _ Hw) as Hok.
  pose proof (mi_threads _ Hinv) as Hn. pose proof (lookup_lt_Some _ _ _ Hw) as Hlt.
  unfold search_step in Hstep. rewrite Hpc in Hstep. injection Hstep as <-.
  pose proof (victims_found (active_workers (pool s)) (Z.of_nat w)
    (seq 0 (length (workers s))) (rng c)) as Hv.
  rewrite !length_seq in Hv. specialize (Hv ltac:(lia) (mi_range _ Hinv) ltac:(lia)). simpl in Hv.
  destruct (shuffled_stealers _ _ _ _) as [it| |]; cbn [obind] in Hv |- *.
  - destruct Hv as [[l Hl]|[Hl ?]]; rewrite Hl; [left|by right]. by_local Hinv Hw Hok Hpc.
  - right. by destruct Hv as [[? ?]|[_ ?]].
  - by destruct Hv as [[? ?]|[? _]].
Qed.

(** A step of a worker that looks for work keeps the invariant, and its
    assertions hold. *)
Lemma search_ok s w c x o : mt_inv s → workers s !! w = Some x → w_pc x ≠ WVictims →
  search_step w c x s = Some o → ∃ s', o = Done s' ∧ mt_inv s'.
Proof.
  intros Hinv Hw Hnv Hstep. pose proof (mi_workers _ Hinv _ _ Hw) as Hok.
  unfold search_step in Hstep. destruct (w_pc x) eqn:Hpc; try done.
  - injection Hstep as Hstep. by eapply deactivate_ok.
  - injection Hstep as <-. unfold update_msg_count. by_local Hinv Hw Hok Hpc.
  - injection Hstep as <-. pose proof (flag_exact s Hinv) as Hf.
    destruct (is_empty (injector s)); by_local Hinv Hw Hok Hpc.
  - injection Hstep as <-. eexists. split; [reflexivity|]. by apply all_inactive_ok.
  - injection Hstep as <-. unfold update_msg_count. by_local Hinv Hw Hok Hpc.
  - injection Hstep as <-. by_local Hinv Hw Hok Hpc. right. apply (wk_reporting _ _ _ _ _ Hok). by rewrite Hpc.
  - destruct (w_token x) eqn:Htok; [|done]. injection Hstep as <-. eexists. split; [reflexivity|].
    by apply park_ok.
  - injection Hstep as <-. by_local Hinv Hw Hok Hpc.
  - injection Hstep as <-. rewrite (mi_abort _ Hinv). by_local Hinv Hw Hok Hpc.
  - injection Hstep as <-. destruct (is_empty (injector s)); by_local Hinv Hw Hok Hpc.
  - pose proof (lock_pop_ok s w x Hinv Hw Hpc) as Hl.
    destruct (pop_bucket_locked (injector s)) as [b inj]. injection Hstep as <-.
    eexists. by split.
  - destruct (Nat.leb_spec (length bucket) (wq_spare (local_queue x))); [|done].
    injection Hstep as <-. eexists. split; [reflexivity|]. by apply extend_ok.
  - destruct victims as [|v vs].
    { injection Hstep as <-. destruct (gives_up c); by_local Hinv Hw Hok Hpc. }
    destruct (workers s !! v) as [y|] eqn:Hv; [|injection Hstep as <-; by_local Hinv Hw Hok Hpc].
    destruct (busy c || (v =? w)%nat) eqn:Hb; [injection Hstep as <-; by_local Hinv Hw Hok Hpc|].
    apply orb_false_iff in Hb as [_ Hvw]. apply Nat.eqb_neq in Hvw.
    destruct (wq_steal (local_queue y) (local_queue x)) as [[[t qv] qw]|] eqn:Hs;
      [|injection Hstep as <-; by_local Hinv Hw Hok Hpc].
    destruct (wk_hungry _ _ _ _ _ Hok ltac:(by rewrite Hpc)) as [_ Hslot]. rewrite Hslot in Hstep.
    injection Hstep as <-. eexists. split; [reflexivity|].
    eapply steal_ok; try done; try (by rewrite Hpc); unfold worker_target; by rewrite Hpc.
  - injection Hstep as <-. by_local Hinv Hw Hok Hpc.
  - injection Hstep as <-. by_local Hinv Hw Hok Hpc.
Qed.

(** ** Activations *)

Lemma same_work_resting x x' : same_work x x' → resting (w_pc x') = resting (w_pc x).
Proof.
  intros [_ _ [->|[Hr Hr']]]; [done|]. by destruct (w_pc x), (w_pc x').
Qed.

Lemma lor_range a i n : (0 ≤ a < 2 ^ Z.of_nat n)%Z → i < n →
  (0 ≤ Z.lor a (2 ^ Z.of_nat i) < 2 ^ Z.of_nat n)%Z.
Proof.
  intros [Ha0 Ha1] Hi. assert (0 < 2 ^ Z.of_nat i)%Z by (apply Z.pow_pos_nonneg; lia).
  assert (0 ≤ Z.lor a (2 ^ Z.of_nat i))%Z by (apply Z.lor_nonneg; lia). split; [done|].
  destruct (Z.eq_dec (Z.lor a (2 ^ Z.of_nat i)) 0) as [->|Hne]; [lia|].
  apply Z.log2_lt_pow2; [lia|]. rewrite Z.log2_lor, Z.log2_pow2 by lia.
  destruct (Z.eq_dec a 0) as [->|Ha]; [simpl; lia|].
  apply Z.max_lub_lt; [|lia]. apply Z.log2_lt_pow2; lia.
Qed.

(** An activation claims the worker [i]. *)
Lemma inv_claim s s' i :
  mt_inv s → i < length (workers s) → bit (active_workers (pool s)) i = false →
  length (workers s') = length (workers s) → abort_signal s' = abort_signal s →
  fixed (pool s') = fixed (pool s) →
  active_workers (pool s') = Z.lor (active_workers (pool s)) (2 ^ Z.of_nat i) →
  injector s' = injector s → submitted s' = submitted s → ran s' = ran s →
  main_ok (main_pc s') (main_token s') (active_workers (pool s')) →
  (∀ v x, workers s !! v = Some x → last_active (w_pc x) = false) →
  (main_pc s' = MNew → main_pc s = MNew ∧ active_workers (pool s) ≠ 0%Z) →
  (∀ v x', workers s' !! v = Some x' →
    ∃ x, workers s !! v = Some x ∧ same_work x x' ∧ w_token x' = w_token x) →
  (∀ v, pending s' v = pending s v + hits v (Some i)) →
  mt_inv s'.
Proof.
  intros Hinv Hi Hb Hlen Hab Hsize Hact Hin Hsub Hran Hm Hlast Hnew Hws Hp.
  rewrite Hact in Hm. eapply (inv_activation s s' _ Hinv); try done.
  - apply lor_range; [apply (mi_range _ Hinv)|done].
  - intros _ Hz. pose proof (bit_lor (active_workers (pool s)) i i) as Hbi.
    rewrite Hz, bit_zero, bool_decide_eq_true_2, orb_true_r in Hbi; done.
  - intros v Hv. by rewrite bit_lor, Hv.
  - by right.
  - intros Hn. destruct (Hnew Hn). auto.
  - intros v x' Hv. destruct (Hws v x' Hv) as (x & Hx & Hsame & Htok). exists x. split_and!; try done.
    pose proof (mi_tokens _ Hinv _ _ Hx) as Ht. unfold tokens_ok in *.
    rewrite Hp, Htok, (same_work_resting _ _ Hsame), bit_lor.
    destruct (decide (v = i)) as [->|Hne].
    + rewrite hits_same, bool_decide_eq_true_2, orb_true_r by done. rewrite Hb, andb_false_r in Ht.
      destruct (resting (w_pc x)) eqn:Hr; [simpl; lia|].
      pose proof (wk_bit _ _ _ _ _ (mi_workers _ Hinv _ _ Hx) Hr). congruence.
    + rewrite (hits_other v i), bool_decide_eq_false_2, orb_false_r by done. by rewrite Nat.add_0_r.
Qed.

(** An activation gives the worker [i] its token. *)
Lemma inv_unpark s s' i :
  mt_inv s →
  length (workers s') = length (workers s) → abort_signal s' = abort_signal s →
  fixed (pool s') = fixed (pool s) →
  active_workers (pool s') = active_workers (pool s) →
  injector s' = injector s → submitted s' = submitted s → ran s' = ran s →
  main_ok (main_pc s') (main_token s') (active_workers (pool s')) →
  (active_workers (pool s) = 0%Z → buckets (injector s) = []) →
  (main_pc s' = MNew → main_pc s = MNew) →
  (∀ v x', workers s' !! v = Some x' → ∃ x, workers s !! v = Some x ∧ same_work x x' ∧
    w_token x' = if decide (v = i) then true else w_token x) →
  (∀ v, pending s' v + hits v (Some i) = pending s v) →
  mt_inv s'.
Proof.
  intros Hinv Hlen Hab Hsize Hact Hin Hsub Hran Hm Hlp Hnew Hws Hp.
  rewrite Hact in Hm. eapply (inv_activation s s' _ Hinv); try done.
  - apply (mi_range _ Hinv).
  - by left.
  - intros Hn. auto.
  - intros v x' Hv. destruct (Hws v x' Hv) as (x & Hx & Hsame & Htok). exists x. split_and!; try done.
    pose proof (mi_tokens _ Hinv _ _ Hx) as Ht. specialize (Hp v). unfold tokens_ok in *.
    rewrite Htok, (same_work_resting _ _ Hsame). destruct (decide (v = i)) as [->|Hne].
    + rewrite hits_same in Hp. destruct (w_token x), (resting (w_pc x) && _); lia.
    + rewrite (hits_other v i) in Hp by done. rewrite <-Ht. lia.
Qed.

(** The worker [w] is in an activation: it goes on without touching the
    pool's bits. *)
Lemma activate_local s w x a pm pc :
  mt_inv s → workers s !! w = Some x → w_pc x = WActivate a →
  active_workers pm = active_workers (pool s) → fixed pm = fixed (pool s) →
  running pc = true → match pc with WActivate b => target b | _ => None end = target a →
  mt_inv (set_worker w (to_pc pc x) (set_pool pm s)).
Proof.
  intros Hinv Hw Hpc Ha Hs Hr Ht. pose proof (mi_workers _ Hinv _ _ Hw) as Hok.
  eapply (inv_local s _ w x _ Hinv Hw); [reflexivity|..]; simpl; try done; try by left.
  - eapply worker_ok_same; [done| |done|by left|by auto].
    split; simpl; [done|done|]. rewrite Hpc. by right.
  - intros n. unfold tokens_ok. simpl. rewrite Hpc. by destruct pc.
  - unfold worker_target. simpl. by rewrite Hpc.
  - rewrite (same_work_tasks x (to_pc pc x)); [done|]. split; simpl; [done|done|]. rewrite Hpc. by right.
Qed.

Lemma activator_alone s w x a v y : mt_inv s → workers s !! w = Some x → w_pc x = WActivate a →
  workers s !! v = Some y → last_active (w_pc y) = false.
Proof.
  intros Hinv Hw Hpc Hv. destruct (last_active (w_pc y)) eqn:Hl; [|done].
  assert (w = v) as -> by (eapply (last_alone s v y w x); try done; by rewrite Hpc).
  simplify_eq. by rewrite Hpc in Hl.
Qed.

Lemma claim_ok s w x a i :
  mt_inv s → workers s !! w = Some x → w_pc x = WActivate a → target a = None →
  i < length (workers s) → bit (active_workers (pool s)) i = false →
  mt_inv (set_worker w (to_pc (WActivate (ABeginSearch i)) x)
    (set_pool (set_active (Z.lor (active_workers (pool s)) (2 ^ Z.of_nat i)) (pool s)) s)).
Proof.
  intros Hinv Hw Hpc Ht Hi Hb.
  assert (active_workers (pool s) ≠ 0%Z) as Hnz by (eapply active_nonzero; try done; by rewrite Hpc).
  eapply (inv_claim s _ i Hinv Hi Hb); simpl; try done.
  - by rewrite length_insert.
  - by eapply main_ok_active, Hnz; apply (mi_main _ Hinv).
  - intros v y Hv. by apply (activator_alone s w x a v y).
  - intros v x' Hv. apply list_lookup_insert_Some in Hv as [(<- & <- & _)|[_ Hv]].
    + exists x. split_and!; try done. split; simpl; try done. rewrite Hpc. by right.
    + exists x'. split_and!; try done. apply same_work_refl.
  - intros v. pose proof (pending_set s (set_worker w (to_pc (WActivate (ABeginSearch i)) x)
      (set_pool (set_active (Z.lor (active_workers (pool s)) (2 ^ Z.of_nat i)) (pool s)) s))
      w x _ v Hw eq_refl eq_refl) as Hp.
    unfold worker_target in Hp. rewrite Hpc, Ht, hits_None in Hp. simpl in Hp.
    by rewrite Nat.add_0_r in Hp.
Qed.

Lemma unpark_ok s w x i :
  mt_inv s → workers s !! w = Some x → w_pc x = WActivate (AUnpark i) →
  mt_inv (unpark i (set_worker w (to_pc WRun x) (set_pool (pool s) s))).
Proof.
  intros Hinv Hw Hpc.
  assert (active_workers (pool s) ≠ 0%Z) as Hnz by (eapply active_nonzero; try done; by rewrite Hpc).
  eapply (inv_unpark s _ i Hinv); simpl; try done.
  - by rewrite length_alter, length_insert.
  - apply (mi_main _ Hinv).
  - intros v x' Hv. destruct (decide (v = i)) as [->|Hne].
    + rewrite list_lookup_alter_eq in Hv. apply fmap_Some in Hv as (z & Hv & ->).
      apply list_lookup_insert_Some in Hv as [(<- & <- & _)|[_ Hv]].
      * exists x. split_and!; try done. split; simpl; try done. rewrite Hpc. by right.
      * exists z. split_and!; try done. split; by auto.
    + rewrite list_lookup_alter_ne in Hv by done.
      apply list_lookup_insert_Some in Hv as [(<- & <- & _)|[_ Hv]].
      * exists x. split_and!; try done. split; simpl; try done. rewrite Hpc. by right.
      * exists x'. split_and!; try done. apply same_work_refl.
  - intros v. pose proof (pending_set s (set_worker w (to_pc WRun x) s) w x _ v Hw eq_refl eq_refl)
      as Hp. unfold worker_target in Hp. rewrite Hpc in Hp. simpl in Hp. rewrite hits_None in Hp.
    unfold pending in *. simpl in *. rewrite cnt_alter_same; [lia|]. done.
Qed.

Lemma lor_set a i : bit a i = true → Z.lor a (2 ^ Z.of_nat i) = a.
Proof.
  intros Hb. apply Z.bits_inj'. intros n Hn. rewrite Z.lor_spec.
  destruct (decide (n = Z.of_nat i)) as [->|Hne]; [by unfold bit in Hb; rewrite Hb|].
  by rewrite Z.pow2_bits_false, orb_false_r by lia.
Qed.

Lemma activate_ok s w x a r : mt_inv s → workers s !! w = Some x → w_pc x = WActivate a →
  activate_step false a (pool s) = r →
  mt_inv (unpark_opt r.2 (set_worker w
    (to_pc (match r.1.1 with ADone => WRun | _ => WActivate r.1.1 end) x) (set_pool r.1.2 s))).
Proof.
  intros Hinv Hw Hpc <-. destruct a as [|b|i|i|]; simpl.
  - by eapply activate_local.
  - destruct (pool_size (pool s) <=? trailing_ones b) eqn:Hi; simpl.
    { by eapply activate_local. }
    apply Nat.leb_gt in Hi. rewrite (mi_size _ Hinv) in Hi. rewrite land_bit.
    destruct (bit (active_workers (pool s)) (trailing_ones b)) eqn:Hb; simpl.
    + rewrite lor_set by done. by eapply activate_local.
    + by eapply claim_ok.
  - by eapply activate_local.
  - by apply unpark_ok.
  - by eapply activate_local.
Qed.

(** ** Steps of a worker that runs tasks *)

Lemma run_ok s w x t : mt_inv s → workers s !! w = Some x → w_pc x = WGotTask t →
  mt_inv (log_run t (set_worker w (to_pc WRun x) s)).
Proof.
  intros Hinv Hw Hpc. pose proof (mi_workers _ Hinv _ _ Hw) as Hok.
  eapply (inv_move s _ w x _ Hinv Hw); [reflexivity|..
    |eapply (tasks_move s _ w x _ [] [t] Hinv Hw); [reflexivity|..]]; simpl; try done; try by left.
  - apply (mi_injector _ Hinv).
  - by worker_next Hok Hpc.
  - intros n. unfold tokens_ok. simpl. by rewrite Hpc.
  - unfold worker_target. simpl. by rewrite Hpc.
  - by rewrite app_nil_r.
  - unfold worker_tasks. simpl. rewrite Hpc. simpl. rewrite app_nil_r, !app_assoc.
    by rewrite Permutation_app_comm.
Qed.

Lemma wake_ok s w x t : mt_inv s → workers s !! w = Some x → w_pc x = WRun →
  mt_inv (submit t (set_worker w
    (to_pc (match fast_slot x with Some prev => WPush prev | None => WRun end)
      (with_slot (Some t) x)) s)).
Proof.
  intros Hinv Hw Hpc. pose proof (mi_workers _ Hinv _ _ Hw) as Hok.
  eapply (inv_move s _ w x _ Hinv Hw); [reflexivity|..
    |eapply (tasks_move s _ w x _ [t] [] Hinv Hw); [reflexivity|..]]; simpl; try done; try by left.
  - apply (mi_injector _ Hinv).
  - destruct (fast_slot x); by worker_next Hok Hpc.
  - intros n. unfold tokens_ok. simpl. rewrite Hpc. by destruct (fast_slot x).
  - unfold worker_target. simpl. rewrite Hpc. by destruct (fast_slot x).
  - by rewrite app_nil_r.
  - unfold worker_tasks. simpl. rewrite Hpc. destruct (fast_slot x) as [prev|]; simpl.
    + by rewrite !app_assoc, Permutation_middle.
    + rewrite !app_nil_r, app_assoc, <-Permutation_cons_append. done.
Qed.

Lemma drain_ok s w x prev l q : mt_inv s → workers s !! w = Some x → w_pc x = WDrain prev →
  wq_drain BUCKET_SIZE (local_queue x) = Some (l, q) →
  mt_inv (set_worker w (to_pc (WPushBucket l prev) (with_queue q x)) s).
Proof.
  intros Hinv Hw Hpc Hd. pose proof (mi_workers _ Hinv _ _ Hw) as Hok.
  destruct (wq_drain_Some _ _ _ _ Hd) as (Hperm & Hlen & Hroom).
  eapply (inv_local s _ w x _ Hinv Hw); [reflexivity|..]; simpl; try done; try by left.
  - by worker_next Hok Hpc.
  - intros n. unfold tokens_ok. simpl. by rewrite Hpc.
  - unfold worker_target. simpl. by rewrite Hpc.
  - unfold worker_tasks. simpl. rewrite Hpc. simpl. rewrite Hperm, <-!app_assoc.
    rewrite (Permutation_app_swap_app l (wq_items _)).
    by rewrite (Permutation_app_swap_app l (option_list _)).
Qed.

(** The worker gives runnables to the injector. *)
Lemma inject_ok s w x pc inj l : mt_inv s → workers s !! w = Some x →
  resting (w_pc x) = false → last_active (w_pc x) = false → worker_target x = None →
  injector_ok BUCKET_SIZE inj → injector_tasks inj ≡ₚ l ++ injector_tasks (injector s) →
  pc_tasks (w_pc x) = l ++ pc_tasks pc →
  worker_ok (active_workers (pool s)) inj (main_pc s) w (to_pc pc x) →
  resting pc = false → match pc with WActivate a => target a | _ => None end = None →
  mt_inv (set_worker w (to_pc pc x) (set_injector inj s)).
Proof.
  intros Hinv Hw Hr Hl Htg Hio Hit Hpt Hok Hr' Htg'.
  eapply (inv_move s _ w x _ Hinv Hw); [reflexivity|..
    |eapply (tasks_move s _ w x _ [] [] Hinv Hw); [reflexivity|..]]; simpl; try done; try by left.
  - by right.
  - intros n. unfold tokens_ok. simpl. by rewrite Hr, Hr'.
  - by rewrite Htg.
  - by rewrite app_nil_r.
  - by rewrite app_nil_r.
  - unfold worker_tasks. simpl. rewrite Hit, Hpt.
    rewrite (Permutation_app_comm l (injector_tasks _)), <-app_assoc. apply Permutation_app_head.
    rewrite (Permutation_app_swap_app (option_list _)), (Permutation_app_swap_app (wq_items _)).
    done.
Qed.

Lemma pop_task_ok s w x o : mt_inv s → workers s !! w = Some x → w_pc x = WPop →
  match fast_slot x with
  | Some t => Some (Done (set_worker w (to_pc (WGotTask t) (with_slot None x)) s))
  | None =>
      match wq_pop (local_queue x) with
      | Some (t, q) => Some (Done (set_worker w (to_pc (WGotTask t) (with_queue q x)) s))
      | None => Some (Done (set_worker w (to_pc WResume x) s))
      end
  end = Some o → ∃ s', o = Done s' ∧ mt_inv s'.
Proof.
  intros Hinv Hw Hpc Hstep. pose proof (mi_workers _ Hinv _ _ Hw) as Hok.
  destruct (fast_slot x) as [t|] eqn:Hs.
  { injection Hstep as <-. by_local Hinv Hw Hok Hpc. unfold worker_tasks. simpl. by rewrite Hs, Hpc. }
  destruct (wq_pop (local_queue x)) as [[t q]|] eqn:Hq; injection Hstep as <-.
  - by_local Hinv Hw Hok Hpc. unfold worker_tasks. simpl.
    rewrite (wq_pop_Some _ _ _ Hq), Hs, Hpc. simpl. by rewrite app_nil_r, Permutation_cons_append.
  - apply wq_pop_None in Hq. by_local Hinv Hw Hok Hpc.
Qed.

Lemma push_ok s w x prev q : mt_inv s → workers s !! w = Some x →
  w_pc x = WPush prev ∨ w_pc x = WPushAgain prev → wq_push prev (local_queue x) = Ok q →
  mt_inv (set_worker w (to_pc WNeedHelp (with_queue q x)) s).
Proof.
  intros Hinv Hw Hpc Hp. pose proof (mi_workers _ Hinv _ _ Hw) as Hok.
  apply wq_push_Ok in Hp.
  assert (mt_inv (set_worker w (to_pc WNeedHelp (with_queue q x)) s) ↔
    ∃ s', Done (set_worker w (to_pc WNeedHelp (with_queue q x)) s) = Done s' ∧ mt_inv s') as ->.
  { split; [by eauto|]. by intros (s' & [= <-] & ?). }
  destruct Hpc as [Hpc|Hpc]; by_local Hinv Hw Hok Hpc;
    unfold worker_tasks; simpl; rewrite Hp, Hpc; simpl;
    by rewrite app_nil_r, app_assoc, Permutation_app_comm.
Qed.

(** A step of a worker that runs tasks keeps the invariant unless a task
    panics, and its assertions hold. *)
Lemma task_ok s w c x o : mt_inv s → workers s !! w = Some x → task_step w c x s = Some o →
  ∃ s', o = Done s' ∧ (failed s' = true ∨ mt_inv s').
Proof.
  intros Hinv Hw Hstep. pose proof (mi_workers _ Hinv _ _ Hw) as Hok.
  pose proof (mi_injector _ Hinv) as Hio.
  unfold task_step in Hstep. destruct (w_pc x) as [| | | | | | | | | | | | | | | | |t| |prev|prev|l prev|prev| |a| | | | | | |] eqn:Hpc; try done;
    try (pose proof (wk_pc _ _ _ _ _ Hok) as Hf; by rewrite Hpc in Hf).
  - destruct (pop_task_ok s w x o Hinv Hw Hpc Hstep) as (s' & ? & ?). eauto.
  - rewrite (mi_abort _ Hinv) in Hstep. injection Hstep as <-. eexists. split; [reflexivity|].
    right. by apply run_ok.
  - destruct (act c) as [t|d| |p]; injection Hstep as <-.
    + eexists. split; [reflexivity|]. right. by apply wake_ok.
    + assert (∃ s', Done (set_worker w (with_count (to_isize (wrap64 (thread_msg_count x + d))) x) s)
        = Done s' ∧ mt_inv s') as (s' & ? & ?); [|by eauto].
      by_local Hinv Hw Hok Hpc. by destruct Hok.
    + assert (∃ s', Done (set_worker w (to_pc WPop x) s) = Done s' ∧ mt_inv s')
        as (s' & ? & ?); [|by eauto]. by_local Hinv Hw Hok Hpc.
    + eexists. split; [reflexivity|]. by left.
  - destruct (wq_push prev (local_queue x)) as [q|e] eqn:Hp; injection Hstep as <-.
    + eexists. split; [reflexivity|]. right. eapply push_ok; by eauto.
    + apply wq_push_Err in Hp as ->.
      assert (∃ s', Done (set_worker w (to_pc (WDrain prev) x) s) = Done s' ∧ mt_inv s')
        as (s' & ? & ?); [|by eauto]. by_local Hinv Hw Hok Hpc.
  - destruct (if busy c then None else wq_drain BUCKET_SIZE (local_queue x)) as [[l q]|] eqn:Hd;
      injection Hstep as <-; eexists; (split; [reflexivity|]); right.
    + destruct (busy c); [done|]. by apply drain_ok.
    + destruct (insert_task_ok BUCKET_SIZE prev (injector s) ltac:(unfold BUCKET_SIZE; lia) Hio) as [Hi Ht].
      eapply (inject_ok s w x _ _ [prev]); rewrite ?Hpc; try done.
      * unfold worker_target. by rewrite Hpc.
      * by worker_next Hok Hpc.
  - pose proof (wk_drain _ _ _ _ _ Hok l prev Hpc) as Hlen.
    assert (bucket_from_iter BUCKET_SIZE l = l) as Hl by (apply take_ge; lia). rewrite Hl in Hstep.
    injection Hstep as <-. eexists. split; [reflexivity|]. right.
    destruct (push_bucket_ok BUCKET_SIZE l (injector s) Hlen Hio) as [Hi Ht].
    eapply (inject_ok s w x _ _ l); rewrite ?Hpc; try done.
    + unfold worker_target. by rewrite Hpc.
    + by worker_next Hok Hpc.
  - destruct (wk_room _ _ _ _ _ Hok ltac:(by rewrite Hpc) prev) as [q Hp]. rewrite Hp in Hstep.
    injection Hstep as <-. eexists. split; [reflexivity|]. right. eapply push_ok; by eauto.
  - injection Hstep as <-.
    assert (∃ s', Done (set_worker w (to_pc
      (if (searching_worker_count (pool s) =? 0)%Z then WActivate ALoad else WRun) x) s)
      = Done s' ∧ mt_inv s') as (s' & ? & ?); [|by eauto].
    destruct (searching_worker_count (pool s) =? 0)%Z; by_local Hinv Hw Hok Hpc.
  - pose proof (activate_ok s w x a _ Hinv Hw Hpc eq_refl) as Ha.
    destruct (activate_step false a (pool s)) as [[a' pm] r]. injection Hstep as <-.
    eexists. split; [reflexivity|]. by right.
  - injection Hstep as <-. assert (∃ s', Done (set_worker w (to_pc WPopBucket x)
      (set_pool (begin_worker_search (pool s)) s)) = Done s' ∧ mt_inv s') as (s' & ? & ?); [|by eauto].
    by_local Hinv Hw Hok Hpc.
Qed.

(** ** Steps of the executor thread *)

Lemma inv_main s s' :
  mt_inv s → workers s' = workers s → abort_signal s' = abort_signal s →
  fixed (pool s') = fixed (pool s) → active_workers (pool s') = active_workers (pool s) →
  (injector s' = injector s ∨ active_workers (pool s) = 0%Z) →
  injector_ok BUCKET_SIZE (injector s') →
  main_ok (main_pc s') (main_token s') (active_workers (pool s)) → main_pc s' ≠ MNew →
  main_target (main_pc s') = main_target (main_pc s) →
  (in_loop (main_pc s') = true → active_workers (pool s) = 0%Z → buckets (injector s') = []) →
  submitted s' ≡ₚ ran s' ++ held s' →
  mt_inv s'.
Proof.
  intros Hinv Hws Hab Hfix Hact Hin Hio Hm Hnew Htg Hloop Htasks. injection Hfix as Hsize Hpan.
  split; rewrite ?Hws, ?Hab, ?Hsize, ?Hpan, ?Hact; try done; try apply Hinv.
  - intros w x Hw. pose proof (mi_workers _ Hinv _ _ Hw) as Hok.
    assert (worker_ok (active_workers (pool s)) (injector s) (main_pc s') w x) as Hok'.
    { eapply worker_ok_same; [done|apply same_work_refl|done|by left|done]. }
    destruct Hin as [->|Ha]; [done|]. apply worker_ok_inj with (injector s); [done|].
    intros Hpc. eapply (active_nonzero s w x); try done. by rewrite Hpc.
  - intros w x Hw. assert (pending s' w = pending s w) as ->
      by (unfold pending; by rewrite Htg, Hws). by apply (mi_tokens _ Hinv).
Qed.

(** A step that changes only the program counter and the token. *)
Lemma inv_main_pc s m token :
  mt_inv s → main_ok m token (active_workers (pool s)) → m ≠ MNew →
  main_target m = main_target (main_pc s) →
  (in_loop m = true → in_loop (main_pc s) = true) →
  mt_inv (set_main m (set_main_token token s)).
Proof.
  intros Hinv Hm Hnew Htg Hl. eapply (inv_main s); simpl; try done; try by left.
  - apply (mi_injector _ Hinv).
  - intros Hi. apply (mi_loop _ Hinv). auto.
  - apply (mi_tasks _ Hinv).
Qed.

Lemma set_main_eta m s : set_main m s = set_main m (set_main_token (main_token s) s).
Proof. done. Qed.

Lemma spawn_ok s t r : mt_inv s → main_pc s = MIdle r →
  mt_inv (submit t (set_injector (insert_task BUCKET_SIZE t (injector s)) s)).
Proof.
  intros Hinv Hpc. pose proof (mi_main _ Hinv) as Hm. rewrite Hpc in Hm.
  destruct (insert_task_ok BUCKET_SIZE t (injector s) ltac:(unfold BUCKET_SIZE; lia)
    (mi_injector _ Hinv)) as [Hi Ht].
  eapply (inv_main s); simpl; rewrite ?Hpc; try done; [by right|].
  rewrite (mi_tasks _ Hinv). unfold held. simpl. rewrite Ht.
  rewrite <-Permutation_cons_append. simpl. by rewrite Permutation_middle.
Qed.

Lemma main_claim_ok s : mt_inv s → main_pc s = MActivate (ALoop 0) →
  active_workers (pool s) = 0%Z →
  mt_inv (set_main (MActivate (ABeginSearch 0)) (set_pool (set_active (Z.lor 0 1) (pool s)) s)).
Proof.
  intros Hinv Hpc Ha. pose proof (mi_threads _ Hinv).
  eapply (inv_claim s _ 0 Hinv); simpl; try done; try lia.
  - by rewrite Ha.
  - by rewrite Ha.
  - intros v x Hv. destruct (last_active (w_pc x)) eqn:Hl; [|done].
    pose proof (wk_last _ _ _ _ _ (mi_workers _ Hinv _ _ Hv) Hl) as Hp. lia.
  - intros v x Hv. exists x. split_and!; try done. apply same_work_refl.
  - intros v. unfold pending. simpl. rewrite Hpc. simpl. lia.
Qed.

Lemma main_unpark_ok s i : mt_inv s → main_pc s = MActivate (AUnpark i) →
  mt_inv (unpark i (set_main MTakePanic (set_pool (pool s) s))).
Proof.
  intros Hinv Hpc. eapply (inv_unpark s _ i Hinv); simpl; try done.
  - by rewrite length_alter.
  - apply (mi_loop _ Hinv). by rewrite Hpc.
  - intros v x' Hv. destruct (decide (v = i)) as [->|Hne].
    + rewrite list_lookup_alter_eq in Hv. apply fmap_Some in Hv as (z & Hv & ->).
      exists z. split_and!; try done. split; by auto.
    + rewrite list_lookup_alter_ne in Hv by done. exists x'. split_and!; try done.
      apply same_work_refl.
  - intros v. unfold pending. simpl. rewrite Hpc. simpl. rewrite cnt_alter_same by done. lia.
Qed.

Lemma main_activate_ok s a r : mt_inv s → main_pc s = MActivate a →
  activate_step true a (pool s) = r →
  mt_inv (unpark_opt r.2 (set_main
    (match r.1.1 with ADone => MTakePanic | _ => MActivate r.1.1 end) (set_pool r.1.2 s))).
Proof.
  intros Hinv Hpc <-. pose proof (mi_main _ Hinv) as Hm. pose proof (mi_threads _ Hinv).
  pose proof (mi_injector _ Hinv). pose proof (mi_tasks _ Hinv). pose proof (mi_loop _ Hinv) as Hlp.
  rewrite Hpc in Hm, Hlp. destruct a as [|b|i|i|]; simpl in *.
  - eapply (inv_main s); simpl; rewrite ?Hpc; try done. by left.
  - destruct Hm as [Ha ->]. rewrite (mi_size _ Hinv). change (trailing_ones 0) with 0.
    destruct (Nat.leb_spec (length (workers s)) 0); [lia|]. rewrite Ha. simpl. by apply main_claim_ok.
  - eapply (inv_main s); simpl; rewrite ?Hpc; try done; by auto.
  - by apply main_unpark_ok.
  - eapply (inv_main s); simpl; rewrite ?Hpc; try done; by auto.
Qed.
End Facts.
