(* ===== verification/MtProperties.v ===== *)
(** * The multi-threaded executor: properties of its runs

    The claims about every run of the executor, proved from the invariant of
    [MtFacts], and a run that shows that the count of messages can be read too
    early. *)

From stdpp Require Import base option list numbers relations strings.
From Stdlib Require Import ZArith Lia.
From S2P Require Import Prelude Counting ChannelQueue Bit PoolManager WorkerPool StableQueue Time SeqFuture Scheduler Simulation MtExecutor MtFacts.

Section Runs.
Context {Q T Payload : Type} `{WorkQueueLaws Q T}.
Implicit Types (s : Mt Q T Payload) (x : Worker Q T Payload).

(** ** The executor thread *)

Lemma main_step_ok s c o : mt_inv s → main_step c s = Some o →
  (∃ s', o = Done s' ∧ (failed s' = true ∨ mt_inv s')) ∨
  o = Panicked ∧ main_pc s = MLoadCount ∧ (msg_count s < 0)%Z.
Proof.
  intros Hinv Hstep. pose proof (mi_main _ Hinv) as Hm. unfold main_step in Hstep.
  destruct (main_pc s) as [|r|a| | | | | | |i] eqn:Hpc; destruct c as [t| | |]; try done; simpl in Hm.
  - destruct (main_token s); [|done]. unfold pool_is_idle in Hstep. rewrite Hm in Hstep by done.
    injection Hstep as <-. left. eexists. split; [reflexivity|]. right.
    apply inv_main_pc; rewrite ?Hpc; try done. by apply Hm.
  - injection Hstep as <-. left. eexists. split; [reflexivity|]. right. by eapply spawn_ok.
  - injection Hstep as <-. left. eexists. split; [reflexivity|]. right. rewrite set_main_eta.
    by apply inv_main_pc; rewrite ?Hpc.
  - pose proof (main_activate_ok s a _ Hinv Hpc eq_refl) as Ha.
    destruct (activate_step true a (pool s)) as [[a' pm] r]. injection Hstep as <-.
    left. eexists. split; [reflexivity|]. by right.
  - left. unfold take_panic in Hstep. rewrite (mi_panic _ Hinv) in Hstep. injection Hstep as <-.
    eexists. split; [reflexivity|]. right.
    eapply (inv_main s); simpl; rewrite ?Hpc; try done; try by left.
    + unfold fixed. simpl. by rewrite (mi_panic _ Hinv).
    + apply (mi_injector _ Hinv).
    + intros _. apply (mi_loop _ Hinv). by rewrite Hpc.
    + apply (mi_tasks _ Hinv).
  - injection Hstep as <-. left. eexists. split; [reflexivity|]. right. rewrite set_main_eta.
    apply inv_main_pc; rewrite ?Hpc; unfold pool_is_idle; try done;
      destruct (Z.eqb_spec (active_workers (pool s)) 0); done.
  - destruct (Z.eqb_spec (msg_count s) 0) as [Hz|Hz]; simpl in Hstep.
    { injection Hstep as <-. left. eexists. split; [reflexivity|]. right. rewrite set_main_eta.
      by apply inv_main_pc; rewrite ?Hpc. }
    destruct (Z.leb_spec 0 (msg_count s)); simpl in Hstep; injection Hstep as <-.
    + left. eexists. split; [reflexivity|]. right. rewrite set_main_eta.
      by apply inv_main_pc; rewrite ?Hpc.
    + by right.
  - injection Hstep as <-. left. eexists. split; [reflexivity|]. by left.
  - destruct (main_token s); [|done]. injection Hstep as <-. left. eexists.
    split; [reflexivity|]. right. by apply inv_main_pc; rewrite ?Hpc.
Qed.

(** A worker of a pool of the maximum size is about to list its victims. *)
Definition search_overflow s : Prop :=
  length (workers s) = 64 ∧ ∃ w x, workers s !! w = Some x ∧ w_pc x = WVictims.

Definition is_victims (pc : WPc T Payload) : bool := match pc with WVictims => true | _ => false end.

Lemma step_ok s o : mt_inv s → mt_step s o →
  (∃ s', o = Done s' ∧ (failed s' = true ∨ mt_inv s')) ∨
  o = Panicked ∧ (main_pc s = MLoadCount ∧ (msg_count s < 0)%Z ∨ search_overflow s).
Proof.
  intros Hinv [w c Hstep|c Hstep].
  2:{ destruct (main_step_ok s c o Hinv Hstep) as [?|(-> & ? & ?)]; eauto 6. }
  unfold worker_step in Hstep. destruct (workers s !! w) as [x|] eqn:Hw; [|done]. simpl in Hstep.
  destruct (search_step w c x s) as [o'|] eqn:Hs; [|left; by eapply task_ok].
  injection Hstep as <-. destruct (is_victims (w_pc x)) eqn:Hv.
  - assert (w_pc x = WVictims) as Hpc by (by destruct (w_pc x)).
    destruct (victims_ok s w c x o' Hinv Hw Hpc Hs) as [(s' & ? & ?)|[-> ?]]; [by eauto 6|].
    right. split; [done|]. right. split; [done|]. by exists w, x.
  - destruct (search_ok s w c x o' Hinv Hw) as (s' & ? & ?); [by destruct (w_pc x)|done|]. eauto 6.
Qed.

(** ** Runs *)

Lemma failed_keeps s s' : failed s = true → mt_next s s' → failed s' = true.
Proof.
  intros Hf [w c Hstep|c Hstep].
  - unfold worker_step in Hstep. destruct (workers s !! w) as [x|]; [|done]. simpl in Hstep.
    destruct (search_step w c x s) as [o'|] eqn:Hs.
    + injection Hstep as ->. unfold search_step, update_msg_count, try_set_worker_inactive, rust_assert in Hs.
      destruct (w_pc x); simplify_eq/=; try done.
      all: repeat (case_match; simplify_eq/=); try done.
      destruct (shuffled_stealers _ _ _ _) as [it| |]; try done. cbn [obind] in Hs.
      destruct (obind (shuffled_next it) _); by simplify_eq/=.
    + unfold task_step in Hstep.
      destruct (w_pc x); simplify_eq/=; repeat (case_match; simplify_eq/=); try done;
        unfold unpark_opt; by case_match.
  - unfold main_step, rust_assert in Hstep. destruct (main_pc s), c; simplify_eq/=; repeat (case_match; simplify_eq/=);
      try done; unfold unpark_opt; by case_match.
Qed.

Lemma executor_new_ok n s : executor_new n = Done s → mt_inv s.
Proof.
  unfold executor_new, pool_new, injector_new.
  destruct (Z.leb_spec 1 (Z.of_nat n)); [|done]. destruct (Z.leb_spec (Z.of_nat n) 64); [|done].
  simpl. intros [= <-].
  assert ((2 ^ 64 - 1) ≫ (64 - Z.of_nat n) = Z.ones (Z.of_nat n))%Z as Ha.
  { change (2 ^ 64 - 1)%Z with (Z.ones 64). rewrite Z.shiftr_div_pow2 by lia.
    rewrite Z.ones_div_pow2 by lia. f_equal. lia. }
  unfold set_all_workers_active. simpl in *. rewrite Ha.
  assert (∀ w, w < n → bit (Z.ones (Z.of_nat n)) w = true) as Hb.
  { intros w Hw. unfold bit. apply Z.ones_spec_low. lia. }
  assert (Z.ones (Z.of_nat n) ≠ 0)%Z as Hnz.
  { intros Hz. specialize (Hb 0 ltac:(lia)). by rewrite Hz in Hb. }
  split; simpl; rewrite ?length_replicate; try done; try lia.
  - rewrite Z.ones_equiv. assert (0 < 2 ^ Z.of_nat n)%Z by (apply Z.pow_pos_nonneg; lia). lia.
  - intros w x Hw. apply lookup_replicate in Hw as [-> Hw]. split; simpl; try done.
    + auto.
    + intros _. split; [apply wq_new_items|done].
  - intros w x Hw. apply lookup_replicate in Hw as [-> Hw]. unfold tokens_ok, pending. simpl.
    clear. induction n as [|n IH]; [done|]. simpl in *. done.
  - unfold held. simpl. clear -H0. induction n as [|n IH]; [done|]. simpl.
    unfold worker_tasks in *. simpl in *. by rewrite wq_new_items.
Qed.

Lemma runs_ok n s0 s : executor_new n = Done s0 → rtc mt_next s0 s → failed s = false → mt_inv s.
Proof.
  intros Hnew Hr. refine (rtc_ind_r (λ s, failed s = false → mt_inv s) s0 _ _ s Hr).
  { intros _. by eapply executor_new_ok. }
  intros s1 s2 _ Hs IH Hf.
  assert (failed s1 = false) as Hf1.
  { destruct (failed s1) eqn:Hf1; [|done]. pose proof (failed_keeps _ _ Hf1 Hs). congruence. }
  destruct (step_ok s1 _ (IH Hf1) Hs) as [(s' & [= <-] & [?|?])|[? _]]; congruence.
Qed.

(** The injector and every worker are empty when the pool is idle. *)
Lemma idle_empty s : mt_inv s → in_loop (main_pc s) = true → active_workers (pool s) = 0%Z →
  held s = [].
Proof.
  intros Hinv Hl Ha. unfold held, injector_tasks. rewrite (mi_loop _ Hinv Hl Ha). simpl.
  apply concat_nil_Forall, Forall_fmap, Forall_lookup. intros w x Hw. simpl.
  pose proof (mi_workers _ Hinv _ _ Hw) as Hok. destruct (resting (w_pc x)) eqn:Hr.
  - destruct (wk_hungry _ _ _ _ _ Hok) as [Hq Hs]; [by destruct (w_pc x)|].
    unfold worker_tasks. rewrite Hq, Hs. by destruct (w_pc x).
  - by destruct (active_nonzero s w x Hinv Hw Hr).
Qed.

(** C25: no runnable is lost or run twice.  In every run of the executor in which
    no task panics and no timeout occurs, whatever the interleaving of the
    threads, the runnables that were spawned or woken are those that were run
    and those in the injector, in a local queue, in a fast slot or in the hands
    of a worker; and when the executor thread has seen the pool idle, all of
    them were run. *)
Theorem mt_runs_every_task n s0 s :
  executor_new n = Done s0 → rtc mt_next s0 s → failed s = false →
  submitted s ≡ₚ ran s ++ held s ∧ (main_pc s = MLoadCount → submitted s ≡ₚ ran s).
Proof.
  intros Hnew Hr Hf. pose proof (runs_ok _ _ _ Hnew Hr Hf) as Hinv.
  split; [apply (mi_tasks _ Hinv)|]. intros Hpc. pose proof (mi_main _ Hinv) as Hm.
  rewrite Hpc in Hm. rewrite (mi_tasks _ Hinv), (idle_empty s Hinv); [by rewrite app_nil_r| |done].
  by rewrite Hpc.
Qed.

(** C26: the assertions of the executor.  While no task panics and no timeout
    occurs, only two steps of the workers and of the executor thread can panic:
    the conversion of the count of messages to an unsigned number, and, in a
    pool of 64 workers, the list of the victims of a search, one shift of which
    can overflow.  So a worker that deactivates itself is marked active, the
    fast slot is empty when a task is stolen, the local queue has room after it
    was drained, the pool is idle when construction ends, and no shift, index or
    subtraction of the search for victims fails in a smaller pool. *)
Theorem mt_assertions_hold n s0 s o :
  executor_new n = Done s0 → rtc mt_next s0 s → failed s = false → mt_step s o →
  (∃ s', o = Done s') ∨
  o = Panicked ∧ (main_pc s = MLoadCount ∧ (msg_count s < 0)%Z ∨ search_overflow s).
Proof.
  intros Hnew Hr Hf Hs.
  destruct (step_ok s o (runs_ok _ _ _ Hnew Hr Hf) Hs) as [(s' & -> & _)|?]; eauto.
Qed.
End Runs.

(** ** A queue and a scheduler *)

Definition bounded_push (t : nat) (q : list nat) : result (list nat) nat :=
  if (length q <? 256)%nat then Ok (q ++ [t]) else Err t.
Definition bounded_drain (n : nat) (q : list nat) : option (list nat * list nat) :=
  let k := Nat.min n (length q - Nat.div2 (length q)) in
  if (1 <=? k)%nat && (length q <=? 256)%nat then Some (take k q, drop k q) else None.
Definition bounded_steal (v d : list nat) : option (nat * list nat * list nat) :=
  match v with t :: v => Some (t, v, d) | [] => None end.

#[local] Instance bounded_queue : WorkQueue (list nat) nat := {|
  wq_new := [];
  wq_items q := q;
  wq_push := bounded_push;
  wq_pop q := match q with t :: q => Some (t, q) | [] => None end;
  wq_drain := bounded_drain;
  wq_spare q := 256 - length q;
  wq_extend l q := q ++ l;
  wq_steal := bounded_steal;
|}.

Lemma bounded_room (q : list nat) : wq_room (T := nat) q ↔ length q < 256.
Proof.
  unfold wq_room. simpl. unfold bounded_push. destruct (Nat.ltb_spec (length q) 256); split; try done.
  - intros _ t. by eexists.
  - intros Hr. by destruct (Hr 0).
  - lia.
Qed.

#[local] Instance bounded_queue_laws : WorkQueueLaws (list nat) nat.
Proof.
  split; simpl.
  - done.
  - intros t q q'. unfold bounded_push. case_match; [|done]. intros [= <-].
    symmetry. apply Permutation_cons_append.
  - intros t t' q. unfold bounded_push. by case_match; [|intros [= <-]].
  - intros t [|u q] q'; [done|]. by intros [= -> ->].
  - by intros [|u q].
  - intros n q q' l. unfold bounded_drain.
    destruct ((1 <=? _)%nat && _) eqn:Hk; [|done]. intros [= <- <-].
    apply andb_true_iff in Hk as [Hk%Nat.leb_le Hq%Nat.leb_le].
    rewrite bounded_room, length_take, length_drop, take_drop.
    revert Hk. generalize (Nat.div2 (length q)). intros h Hk. split_and!; [done|lia..].
  - intros l q _. by rewrite Permutation_app_comm.
  - intros t [|u v] d v' d'; [done|]. by intros [= -> -> ->].
  - intros t [|u v] d v' d'; [done|]. intros [= -> -> ->]. rewrite !bounded_room. simpl. lia.
Qed.

Abbreviation State := (Mt (list nat) nat nat).
Inductive Sched := SWorker (w : nat) (c : Choice nat nat) | SMain (c : MainAct nat).
Definition sched_step (a : Sched) (s : State) : option (outcome State) :=
  match a with SWorker w c => worker_step w c s | SMain c => main_step c s end.
Fixpoint sched_run (l : list Sched) (s : State) : option State :=
  match l with
  | [] => Some s
  | a :: l => match sched_step a s with Some (Done s) => sched_run l s | _ => None end
  end.

Lemma sched_step_mt a s o : sched_step a s = Some o → mt_step s o.
Proof. destruct a; intros Hs; [by eapply mt_worker|by eapply mt_main]. Qed.

Lemma sched_run_rtc l s s' : sched_run l s = Some s' → rtc mt_next s s'.
Proof.
  revert s. induction l as [|a l IH]; intros s; simpl; [by intros [= ->]|].
  destruct (sched_step a s) as [[s1| |]|] eqn:Hs; try done. intros Hr.
  eapply rtc_l; [by eapply sched_step_mt|]. by apply IH.
Qed.

(** ** The count of messages is read too early *)

(** [goes]: a worker goes on and finds every victim busy; [acts]: its task does
    [a]; [steals]: it lists its victims and steals from the first of them. *)
Definition goes (n w : nat) : list Sched := replicate n (SWorker w (mkChoice ActFinish true (mkRng 7) true)).
Definition acts (w : nat) (a : TaskAct nat nat) : list Sched := [SWorker w (mkChoice a true (mkRng 7) true)].
Definition steals (w : nat) : list Sched := replicate 2 (SWorker w (mkChoice ActFinish false (mkRng 7) true)).
Definition mains (n : nat) : list Sched := replicate n (SMain ActNext).

(** The first worker runs a task that sends a message and wakes two tasks; the
    second worker steals one of them, which receives the message.  The first
    worker marks itself inactive and is preempted before it adds its count; the
    second, the last active one, adds its own and unparks the executor. *)
Definition race : list Sched :=
  goes 2 0 ++ goes 5 1 ++ mains 1 ++ [SMain (ActSpawn 1); SMain ActRunCall] ++ mains 4 ++
  goes 8 0 ++ acts 0 (ActCount 1) ++ acts 0 (ActWake 2) ++ acts 0 (ActWake 3) ++ goes 6 0 ++
  goes 3 1 ++ steals 1 ++ goes 3 1 ++ acts 1 (ActCount (-1)) ++
  goes 4 0 ++ goes 8 0 ++ goes 7 1 ++ goes 5 1 ++ mains 2.

(** The state after [race], and the one after construction. *)
Definition new_state : State :=
  match executor_new 2 with Done s => s | _ => mkMt (mkPool 0 0 0 None) (mkInjector [] true) [] MNew false false 0 [] [] false end.
Definition race_state : State := default new_state (sched_run race new_state).

Lemma race_reachable : executor_new 2 = Done new_state ∧ rtc mt_next new_state race_state.
Proof.
  split; [reflexivity|]. apply (sched_run_rtc race).
  assert (is_Some (sched_run race new_state)) as [s Hs]; [vm_compute; by eexists|].
  unfold race_state. by rewrite Hs.
Qed.

(** C27: the count of messages is read too early.  A worker marks itself inactive before it adds its count of messages, so
    that the executor thread can see the pool idle without it: although every
    message was received, the count is negative and its conversion panics. *)
Theorem message_count_read_too_early :
  ∃ s0 s : State, executor_new 2 = Done s0 ∧ rtc mt_next s0 s ∧ failed s = false ∧
    main_pc s = MLoadCount ∧ msg_count s = (-1)%Z ∧
    foldr Z.add (msg_count s) (thread_msg_count <$> workers s) = 0%Z ∧ mt_step s Panicked.
Proof.
  exists new_state, race_state. destruct race_reachable as [Hn Hr].
  split_and!; [done|done|vm_compute; reflexivity..|].
  apply (sched_step_mt (SMain ActNext)). vm_compute. reflexivity.
Qed.

Lemma mt_runs_every_task_witness :
  failed race_state = false ∧ submitted race_state = [1; 2; 3] ∧ ran race_state = [1; 2; 3] ∧
  submitted race_state ≡ₚ ran race_state.
Proof.
  split; [vm_compute; reflexivity|]. split; [vm_compute; reflexivity|].
  split; [vm_compute; reflexivity|].
  apply (mt_runs_every_task 2 new_state race_state (proj1 race_reachable) (proj2 race_reachable));
    vm_compute; reflexivity.
Defined.

Lemma mt_assertions_hold_witness :
  (∃ s' : State, Panicked = Done s') ∨
  Panicked (A := State) = Panicked ∧
    (main_pc race_state = MLoadCount ∧ (msg_count race_state < 0)%Z ∨ search_overflow race_state).
Proof.
  apply (mt_assertions_hold 2 new_state race_state Panicked
    (proj1 race_reachable) (proj2 race_reachable)); [vm_compute; reflexivity|].
  apply (sched_step_mt (SMain ActNext)). vm_compute. reflexivity.
Defined.
