(* ===== verification/StExecutor.v ===== *)
(** * The single-threaded executor (executor/st_executor.rs)

    The work queue, the list of cancellation tokens and the run loop.  What a
    task does while it runs is the [World]'s choice: it wakes tasks, sends and
    receives messages, drops futures, returns or panics.  The slab of the slab
    crate is an interface.  With a timeout the tasks run on another thread;
    whether the timeout expires, and after how many tasks, is given by a list
    of deadlines.  The executor then implements the interface that the
    simulation uses. *)

From stdpp Require Import base option list numbers strings relations gmap.
From Stdlib Require Import ZArith Lia.
From S2P Require Import Prelude ChannelQueue StableQueue Time SeqFuture Scheduler Simulation StepFacts Stepping.

(** ** Slabs *)

Class Slab (L A : Type) := {
  slab_new : L;
  slab_map : L → gmap nat A;
  vacant_key : L → nat;
  slab_insert : A → L → L;
  try_remove : nat → L → L;
  slab_drain : L → list A;
}.

Class SlabLaws (L A : Type) `{Slab L A} := {
  slab_new_map : slab_map (slab_new : L) = ∅;
  vacant_key_fresh : ∀ s : L, slab_map s !! vacant_key s = None;
  slab_insert_map : ∀ (a : A) (s : L), slab_map (slab_insert a s) = <[vacant_key s := a]> (slab_map s);
  try_remove_map : ∀ k (s : L), slab_map (try_remove k s) = delete k (slab_map s);
  slab_drain_map : ∀ s : L, slab_drain s ≡ₚ snd <$> map_to_list (slab_map s);
}.

(** ** State *)

(** A runnable: its task, the executor that its task was spawned on, and the
    key of its cancellation token. *)
Record Runnable := mkRunnable { task : nat; task_executor : nat; task_key : nat }.

(** What happens while a task runs: the waker of a task pushes its runnable,
    messages are sent and received, a wrapped future is dropped. *)
Inductive Event := EvWake (r : Runnable) | EvCount (d : Z) | EvDrop (cancellation_key : nat).

(** A call of [task.run()]: its events and, if it panics after them, the model
    and the payload. *)
Record Poll (Payload : Type) := mkPoll {
  events : list Event;
  model : ModelId;
  panic : option Payload;
}.
Arguments mkPoll {Payload}.
Arguments events {Payload}.
Arguments model {Payload}.
Arguments panic {Payload}.

Section Inner.
Context {L W Payload : Type} `{Slab L nat}.
Context (run_task : Runnable → W → Poll Payload * W) (cancel : nat → W → list Event * W).
Context (wrong_executor : Payload).

(** [ExecutorContext] and [ExecutorInner]; the queue is listed from its end. *)
Record ExecutorContext := mkContext { queue : list Runnable; executor_id : nat; msg_count : Z }.
Record ExecutorInner := mkInner { context : ExecutorContext; active_tasks : L }.

Definition context_new (executor_id : nat) : ExecutorContext := mkContext [] executor_id 0.
Definition inner_new (executor_id : nat) : ExecutorInner := mkInner (context_new executor_id) slab_new.

(** The state of the run loop, with the thread's count of messages; ghost
    state: the runnables that were woken, those that were run, and the messages
    sent less those received. *)
Record Loop := mkLoop {
  inner : ExecutorInner;
  thread_msg_count : Z;
  world : W;
  woken : list Runnable;
  ran : list Runnable;
  net : Z;
}.

Definition set_runnables (l : list Runnable) (self : ExecutorInner) : ExecutorInner :=
  mkInner (mkContext l (executor_id (context self)) (msg_count (context self))) (active_tasks self).

(** [spawn] and [spawn_and_forget] for the new task [task]. *)
Definition spawn_inner (task : nat) (self : ExecutorInner) : ExecutorInner :=
  let key := vacant_key (active_tasks self) in
  mkInner
    (mkContext (mkRunnable task (executor_id (context self)) key :: queue (context self))
      (executor_id (context self)) (msg_count (context self)))
    (slab_insert task (active_tasks self)).

(** [schedule_task]; [None] when the assertion on the executor fails. *)
Definition schedule_task (r : Runnable) (self : ExecutorInner) : option ExecutorInner :=
  if (task_executor r =? executor_id (context self))%nat
  then Some (set_runnables (r :: queue (context self)) self)
  else None.

(** One event; [false] when it panics. *)
Definition event_step (ev : Event) (s : Loop) : bool * Loop :=
  match ev with
  | EvWake r =>
      match schedule_task r (inner s) with
      | Some self =>
          (true, mkLoop self (thread_msg_count s) (world s) (woken s ++ [r]) (ran s) (net s))
      | None => (false, s)
      end
  | EvCount d =>
      (true, mkLoop (inner s) (to_isize (wrap64 (thread_msg_count s + d))) (world s) (woken s) (ran s) (net s + d))
  | EvDrop k =>
      (true, mkLoop (mkInner (context (inner s)) (try_remove k (active_tasks (inner s))))
        (thread_msg_count s) (world s) (woken s) (ran s) (net s))
  end.

Fixpoint events_run (l : list Event) (s : Loop) : bool * Loop :=
  match l with
  | [] => (true, s)
  | ev :: l => let '(ok, s) := event_step ev s in if ok : bool then events_run l s else (false, s)
  end.

Inductive LoopEnd := LEmpty | LAborted | LPanic (model_id : ModelId) (payload : Payload) | LFuel.

(** The closure that [ExecutorInner::run] catches the panics of.  The signal is
    read after every task: [abort_signal i] is what is read after the task [i]
    of this loop. *)
Fixpoint run_loop (fuel : nat) (abort_signal : nat → bool) (s : Loop) : LoopEnd * Loop :=
  match fuel with
  | O => (LFuel, s)
  | S fuel =>
      match queue (context (inner s)) with
      | [] => (LEmpty, s)
      | r :: q =>
          let '(poll, w) := run_task r (world s) in
          let s := mkLoop (set_runnables q (inner s)) (thread_msg_count s) w (woken s) (ran s ++ [r]) (net s) in
          let '(ok, s) := events_run (events poll) s in
          if negb ok then (LPanic (model poll) wrong_executor, s)
          else match panic poll with
            | Some p => (LPanic (model poll) p, s)
            | None =>
                if abort_signal 0 then (LAborted, s)
                else run_loop fuel (λ i, abort_signal (S i)) s
            end
      end
  end.

(** [ExecutorInner::run] on a thread whose count is [thread]; the result is
    [None] when the conversion of the count panics. *)
Definition start (self : ExecutorInner) (w : W) : Loop :=
  mkLoop self (msg_count (context self)) w [] [] 0.

Definition set_msg_count (n : Z) (self : ExecutorInner) : ExecutorInner :=
  mkInner (mkContext (queue (context self)) (executor_id (context self)) n) (active_tasks self).

Definition inner_run (fuel : nat) (abort_signal : nat → bool) (thread : Z) (self : ExecutorInner) (w : W) :
    outcome (option (result unit (ExecutorError Payload)) * Loop) :=
  let msg_count_stash := thread in
  let '(r, s) := run_loop fuel abort_signal (start self w) in
  match r with
  | LFuel => NoFuel
  | LPanic model_id payload => Done (Some (Err (ExecPanic model_id payload)), s)
  | LEmpty | LAborted =>
      let n := thread_msg_count s in
      let s := mkLoop (set_msg_count n (inner s)) msg_count_stash (world s) (woken s) (ran s) (net s) in
      if (n =? 0)%Z then Done (Some (Ok tt), s)
      else if (0 <=? n)%Z then Done (Some (Err (UnprocessedMessages n)), s)
      else Done (None, s)
  end.

(** [ExecutorInner::drop]: the dropped futures may wake tasks, but do not touch
    the list. *)
Fixpoint drop_events (evs : list Event) (self : ExecutorInner) : option ExecutorInner :=
  match evs with
  | [] => Some self
  | EvWake r :: evs => self ← schedule_task r self; drop_events evs self
  | _ :: evs => drop_events evs self
  end.

Fixpoint cancel_all (tokens : list nat) (self : ExecutorInner) (w : W) :
    option (ExecutorInner * W) :=
  match tokens with
  | [] => Some (self, w)
  | t :: tokens =>
      let '(evs, w) := cancel t w in
      self ← drop_events evs self;
      cancel_all tokens self w
  end.

Definition inner_drop (self : ExecutorInner) (w : W) : option (ExecutorInner * W) :=
  cancel_all (slab_drain (active_tasks self)) (mkInner (context self) slab_new) w.
End Inner.

Arguments ExecutorInner : clear implicits.
Arguments Loop : clear implicits.
Arguments LoopEnd : clear implicits.

(** ** The executor *)

(** The futures, mailboxes and slots, which tasks use together with the shared
    state [Sh] of the scheduler. *)
Class World (W Sh Task Obs Reply Payload : Type) := {
  w_run : Runnable → W * Sh → Poll Payload * (W * Sh);
  w_spawn : nat → Task → W → W;
  w_observer_len : W → Obs → Z;
  w_slot_new : W → nat * W;
  w_slot_try_read : W → nat → option Reply;
  w_wrong_executor : Payload;
}.

#[export] Hint Mode World ! - - - - - : typeclass_instances.

Section Executor.
Context {L W Sh Task Obs Reply Payload : Type} `{Slab L nat}.
Context `{!World W Sh Task Obs Reply Payload}.
Context (fuel : nat).

(** [st_thread] is the count of the thread that uses the executor, [st_next]
    the number of tasks spawned so far, and [st_deadlines] says for the next
    runs whether they exceed their timeout, and after how many tasks. *)
Record StExecutor := mkSt {
  st_inner : option (ExecutorInner L);
  st_abort : bool;
  st_world : W;
  st_thread : Z;
  st_next : nat;
  st_deadlines : list (option nat);
}.

Definition st_new (executor_id : nat) (w : W) (thread : Z) (deadlines : list (option nat)) :
    StExecutor :=
  mkSt (Some (inner_new executor_id)) false w thread 0 deadlines.

Definition st_accepts (self : StExecutor) : bool :=
  match st_inner self with Some _ => true | None => false end.

Definition st_spawn (t : Task) (self : StExecutor) : StExecutor :=
  match st_inner self with
  | Some inner =>
      mkSt (Some (spawn_inner (st_next self) inner)) (st_abort self)
        (w_spawn (st_next self) t (st_world self)) (st_thread self) (S (st_next self))
        (st_deadlines self)
  | None => self
  end.

(** The state after a run that leaves [inner], the world [w] and the thread's
    count [thread]. *)
Definition st_after (inner : option (ExecutorInner L)) (abort : bool) (w : W) (thread : Z)
    (deadlines : list (option nat)) (self : StExecutor) : StExecutor :=
  mkSt inner abort w thread (st_next self) deadlines.

(** Only the executor sets the signal, when a run times out: during a run that
    does not, it is what it was before.  A run that times out is followed up to
    the task during which the timeout expires. *)
Definition st_run (timeout : Duration) (self : StExecutor) (sh : Sh) :
    outcome (StExecutor * Sh * result unit (ExecutorError Payload)) :=
  match st_inner self with
  | None => Panicked
  | Some inner0 =>
      if is_zero timeout then
        let! (r, s) := inner_run w_run (w_wrong_executor (W := W)) fuel (λ _, st_abort self)
          (st_thread self) inner0 (st_world self, sh) in
        match r with
        | Some r => Done (st_after (Some (inner s)) (st_abort self) (world s).1
            (thread_msg_count s) (st_deadlines self) self, (world s).2, r)
        | None => Panicked
        end
      else
        let timed_out w :=
          st_after None true w (st_thread self) (tail (st_deadlines self)) self in
        match default None (head (st_deadlines self)) with
        | Some n =>
            let s := (run_loop w_run (w_wrong_executor (W := W)) n (λ _, st_abort self)
              (start inner0 (st_world self, sh))).2 in
            Done (timed_out (world s).1, (world s).2, Err ExecTimeout)
        | None =>
            let! (r, s) := inner_run w_run (w_wrong_executor (W := W)) fuel (λ _, st_abort self) 0
              inner0 (st_world self, sh) in
            match r with
            | Some r => Done (st_after (Some (inner s)) (st_abort self) (world s).1
                (st_thread self) (tail (st_deadlines self)) self, (world s).2, r)
            | None => Done (timed_out (world s).1, (world s).2, Err ExecTimeout)
            end
        end
  end.

Definition st_executor : Executor StExecutor Sh Task Obs Reply Payload := {|
  accepts_tasks := st_accepts;
  spawn_and_forget := st_spawn;
  executor_run := st_run;
  observer_len self := w_observer_len (st_world self);
  slot_new self :=
    let (n, w) := w_slot_new (st_world self) in
    (n, mkSt (st_inner self) (st_abort self) w (st_thread self) (st_next self) (st_deadlines self));
  slot_try_read self := w_slot_try_read (st_world self);
|}.
End Executor.

Arguments StExecutor : clear implicits.
