(* ===== verification/StFacts.v ===== *)
(** * The single-threaded executor: properties

    A run executes every queued and woken runnable once and accounts for the
    messages; the executor keeps the contract that the simulation relies on;
    and two places where it leaves its contract: the thread's count of messages
    after a panic, and an executor that has timed out. *)

From stdpp Require Import base option list numbers strings relations gmap.
From Stdlib Require Import ZArith Lia.
From S2P Require Import Prelude ChannelQueue StableQueue PriorityQueue Time SeqFuture Scheduler Simulation StepFacts Stepping Demo StExecutor.

Lemma isize_congr z : ∃ k, (to_isize (wrap64 z) = z + k * 2 ^ 64)%Z.
Proof.
  unfold to_isize, wrap64. change u64_modulus with (2 ^ 64)%Z.
  pose proof (Z.div_mod z (2 ^ 64) ltac:(lia)) as Hd.
  destruct (_ <? _)%Z; [exists (- (z / 2 ^ 64))%Z|exists (- (z / 2 ^ 64) - 1)%Z]; lia.
Qed.

Section InnerFacts.
Context {L W Payload : Type} `{SlabLaws L nat}.
Context (run_task : Runnable → W → Poll Payload * W) (cancel : nat → W → list Event * W).
Context (wrong_executor : Payload).
Implicit Types (s : Loop L W) (self : ExecutorInner L).
Abbreviation inner_run := (inner_run run_task wrong_executor).
Abbreviation run_loop := (run_loop run_task wrong_executor).

(** The runnables in the queue. *)
Definition queued s : list Runnable := StExecutor.queue (context (inner s)).

(** Runnables are run, or still queued; the thread counts the messages. *)
Record accounted (q : list Runnable) (n : Z) s : Prop := {
  ac_tasks : ran s ++ queued s ≡ₚ q ++ woken s;
  ac_count : ∃ k, (thread_msg_count s = n + net s + k * 2 ^ 64)%Z;
}.

Lemma event_accounted q n ev s : accounted q n s → accounted q n (event_step ev s).2.
Proof.
  intros [Ht [k Hk]]. destruct ev as [r|d|key]; simpl.
  - unfold schedule_task. destruct (_ =? _)%nat; simpl; [|by split; eauto]. split; simpl; [|eauto].
    unfold queued in *. simpl. rewrite app_assoc, <-Ht, <-Permutation_middle.
    by rewrite Permutation_cons_append.
  - split; simpl; [done|]. destruct (isize_congr (thread_msg_count s + d)) as [k' Hk'].
    exists (k + k')%Z. lia.
  - by split; eauto.
Qed.

Lemma events_accounted q n l s : accounted q n s → accounted q n (events_run l s).2.
Proof.
  revert s. induction l as [|ev l IH]; intros s Hs; simpl; [done|].
  pose proof (event_accounted q n ev s Hs). destruct (event_step ev s) as [[] s']; simpl in *; auto.
Qed.

Lemma loop_accounted fuel abort q n s :
  accounted q n s → accounted q n (run_loop fuel abort s).2.
Proof.
  revert abort s. induction fuel as [|fuel IH]; intros abort s Hs; simpl; [done|].
  destruct (StExecutor.queue (context (inner s))) as [|r rs] eqn:Hq; simpl; [done|].
  destruct (run_task r (world s)) as [poll w].
  set (s1 := mkLoop _ _ _ _ _ _).
  assert (accounted q n s1) as H1.
  { destruct Hs as [Ht Hk]. split; [|done]. unfold queued in *. rewrite Hq in Ht. simpl.
    by rewrite <-app_assoc. }
  pose proof (events_accounted q n (events poll) s1 H1) as H2.
  destruct (events_run (events poll) s1) as [ok s2]. simpl in H2.
  destruct ok; simpl; [|done]. destruct (panic poll); simpl; [done|].
  destruct (abort 0); simpl; auto.
Qed.

Lemma loop_empty fuel abort s : (run_loop fuel abort s).1 = LEmpty →
  queued (run_loop fuel abort s).2 = [].
Proof.
  revert abort s. induction fuel as [|fuel IH]; intros abort s; simpl; [done|].
  destruct (StExecutor.queue (context (inner s))) as [|r rs] eqn:Hq; simpl; [done|].
  destruct (run_task r (world s)) as [poll w].
  destruct (events_run _ _) as [ok s2]. destruct ok; simpl; [|done].
  destruct (panic poll); simpl; [done|]. destruct (abort 0); simpl; [done|auto].
Qed.

Lemma events_run_ran l s : ran (events_run l s).2 = ran s.
Proof.
  revert s. induction l as [|ev l IH]; intros s; simpl; [done|].
  destruct ev as [r|d|k]; simpl; try (by rewrite IH).
  unfold schedule_task. destruct (_ =? _)%nat; simpl; [by rewrite IH|done].
Qed.

(** A loop that stops early has just read a set signal, for the first time. *)
Lemma loop_aborted fuel abort s : (run_loop fuel abort s).1 = LAborted →
  ∃ i, length (ran (run_loop fuel abort s).2) = length (ran s) + S i ∧ abort i = true ∧
    ∀ j, j < i → abort j = false.
Proof.
  revert abort s. induction fuel as [|fuel IH]; intros abort s; simpl; [done|].
  destruct (StExecutor.queue (context (inner s))) as [|r rs]; simpl; [done|].
  destruct (run_task r (world s)) as [poll w]. set (s1 := mkLoop _ _ _ _ _ _).
  pose proof (events_run_ran (events poll) s1) as Hran.
  destruct (events_run (events poll) s1) as [ok s2]. simpl in Hran.
  destruct ok; simpl; [|done]. destruct (panic poll); simpl; [done|].
  destruct (abort 0) eqn:Ha; simpl.
  - intros _. exists 0. rewrite Hran, length_app. simpl. split_and!; [lia|done|lia].
  - intros He. destruct (IH _ _ He) as (i & Hlen & Hi & Hlt). exists (S i).
    rewrite Hlen, Hran, length_app. simpl. split_and!; [lia|done|].
    intros [|j] Hj; [done|]. apply Hlt. lia.
Qed.

(** C28: a run of the single-threaded executor, whatever is read from the abort
    signal after each task.  Every runnable that was queued before the run or
    woken during it is run once or is still queued.  When the run ends without
    a panic, either none is still queued or the abort signal was found set
    after the last task that was run, and not before; the count of messages
    that is kept, and reported when it is not zero, is the old one plus the
    messages sent less those received (up to wrap-around), and the count of
    the calling thread is then as before the run. *)
Theorem st_run_accounts fuel abort thread self w r s :
  inner_run fuel abort thread self w = Done (r, s) →
  ran s ++ queued s ≡ₚ StExecutor.queue (context self) ++ woken s ∧
  match r with
  | Some (Err (ExecPanic _ _)) => True
  | Some (Err ExecTimeout) => False
  | _ =>
      (queued s = [] ∨
       ∃ i, length (ran s) = S i ∧ abort i = true ∧ ∀ j, j < i → abort j = false) ∧
      thread_msg_count s = thread ∧
      (∃ k, msg_count (context (inner s)) = msg_count (context self) + net s + k * 2 ^ 64)%Z ∧
      match r with
      | Some (Ok _) => msg_count (context (inner s)) = 0%Z
      | Some (Err (UnprocessedMessages n)) =>
          n = msg_count (context (inner s)) ∧ (0 < n)%Z
      | _ => (msg_count (context (inner s)) < 0)%Z
      end
  end.
Proof.
  unfold StExecutor.inner_run. intros Hr.
  pose proof (loop_accounted fuel abort (StExecutor.queue (context self)) (msg_count (context self))
    (start self w)) as Hac.
  pose proof (loop_empty fuel abort (start self w)) as Hem.
  pose proof (loop_aborted fuel abort (start self w)) as Hab.
  destruct (run_loop fuel abort (start self w)) as [e s1]. simpl in *.
  destruct Hac as [Ht [k Hk]].
  { split; simpl; [by rewrite app_nil_r|]. exists 0%Z. lia. }
  assert (e = LEmpty ∨ e = LAborted → queued s1 = [] ∨
    ∃ i, length (ran s1) = S i ∧ abort i = true ∧ ∀ j, j < i → abort j = false) as Hend
    by (intros [->| ->]; auto).
  destruct e as [| |id p|]; [..|done]; [| |by injection Hr as <- <-].
  all: specialize (Hend ltac:(auto)).
  all: destruct (Z.eqb_spec (thread_msg_count s1) 0) as [Hz|Hz];
    [|destruct (Z.leb_spec 0 (thread_msg_count s1))];
    injection Hr as <- <-; simpl; unfold queued in *; simpl; (split; [done|]);
    split_and!; eauto; try lia.
Qed.

(** After a panic the count of the calling thread is lost.  When a task
    panics, the run ends in the same state whatever the count of the thread was
    before it: the saved count is not restored, and the thread is left with
    that of the nested executor. *)
Lemma st_panic_loses_thread_count fuel abort thread self w id p s :
  inner_run fuel abort thread self w = Done (Some (Err (ExecPanic id p)), s) →
  ∀ thread', inner_run fuel abort thread' self w = Done (Some (Err (ExecPanic id p)), s).
Proof.
  unfold StExecutor.inner_run. intros Hr thread'.
  destruct (run_loop fuel abort (start self w)) as [e s1].
  destruct e; try done; by repeat case_match; simplify_eq.
Qed.

(** ** Termination *)

Fixpoint wakes (l : list Event) : nat :=
  match l with
  | [] => 0
  | ev :: l => match ev with EvWake _ => S (wakes l) | _ => wakes l end
  end.

Lemma events_run_length l s :
  length (queued (events_run l s).2) ≤ length (queued s) + wakes l ∧
  world (events_run l s).2 = world s.
Proof.
  revert s. induction l as [|ev l IH]; intros s; simpl; [split; [lia|done]|].
  destruct ev as [r|d|k]; simpl.
  - unfold schedule_task. destruct (_ =? _)%nat; simpl; [|split; [lia|done]].
    match goal with |- context[events_run l ?s1] => destruct (IH s1) as [Hl Hw] end.
    unfold queued in *. simpl in *. split; [lia|done].
  - apply (IH (mkLoop _ _ _ _ _ _)).
  - match goal with |- context[events_run l ?s1] => destruct (IH s1) as [Hl Hw] end. done.
Qed.

(** C29: a run ends when the tasks do not wake each other for ever: if [mu]
    bounds the number of wake-ups that are still to come, then as many
    iterations as there are queued runnables and wake-ups to come, plus one,
    are enough. *)
Theorem st_run_terminates (mu : W → nat) fuel abort thread self w :
  (∀ r w, wakes (events (run_task r w).1) + mu (run_task r w).2 ≤ mu w) →
  length (StExecutor.queue (context self)) + mu w < fuel →
  inner_run fuel abort thread self w ≠ NoFuel.
Proof.
  intros Hmu Hlen.
  assert (∀ s, length (queued s) + mu (world s) < fuel → (run_loop fuel abort s).1 ≠ LFuel) as Hloop.
  { clear Hlen. revert abort. induction fuel as [|fuel IH]; intros abort s Hs; [lia|]. simpl.
    unfold queued in Hs.
    destruct (StExecutor.queue (context (inner s))) as [|r rs] eqn:Hq; simpl; [done|].
    pose proof (Hmu r (world s)) as Hr. destruct (run_task r (world s)) as [poll w1]. simpl in Hr.
    set (s1 := mkLoop _ _ _ _ _ _). destruct (events_run_length (events poll) s1) as [Hl Hw].
    destruct (events_run (events poll) s1) as [ok s2]. simpl in Hl, Hw, Hs.
    destruct ok; simpl; [|done]. destruct (panic poll); simpl; [done|].
    destruct (abort 0); simpl; [done|]. apply IH. rewrite Hw. simpl. unfold queued in Hl at 2.
    simpl in Hl. lia. }
  unfold StExecutor.inner_run. specialize (Hloop (start self w)). simpl in Hloop.
  destruct (run_loop fuel abort (start self w)) as [e s1]. simpl in Hloop.
  destruct e; try done; [by repeat case_match..|]. by destruct Hloop.
Qed.

(** ** Dropping the executor *)

(** When the dropped futures wake tasks of this executor only, the drop cancels
    the task of every token in the list, one after the other, and does not
    panic. *)
Lemma inner_drop_returns self w :
  (∀ t w r, EvWake r ∈ (cancel t w).1 → task_executor r = executor_id (context self)) →
  ∃ self', inner_drop cancel self w =
    Some (self', foldl (λ w t, (cancel t w).2) w (slab_drain (active_tasks self))) ∧
    executor_id (context self') = executor_id (context self).
Proof.
  intros Hid. unfold inner_drop.
  remember (mkInner (context self) slab_new) as self1 eqn:Hs1.
  assert (executor_id (context self1) = executor_id (context self)) as Hid1 by by subst.
  clear Hs1. revert self1 w Hid1.
  induction (slab_drain (active_tasks self)) as [|t l IH]; intros self1 w Hid1; simpl; [eauto|].
  pose proof (Hid t w) as Hw. destruct (cancel t w) as [evs w1]. simpl in Hw |- *.
  assert (∃ self2, drop_events evs self1 = Some self2 ∧
    executor_id (context self2) = executor_id (context self)) as (self2 & -> & Hid2).
  { clear IH. revert self1 Hid1. induction evs as [|ev evs IHe]; intros self1 Hid1; simpl; [eauto|].
    destruct ev as [r|d|k]; simpl; try (apply IHe; [|done]; intros r' Hr'; apply Hw; by right).
    unfold schedule_task. rewrite (Hw r) by left. rewrite Hid1, Nat.eqb_refl. simpl.
    apply IHe; [|done]. intros r' Hr'. apply Hw. by right. }
  simpl. by apply IH.
Qed.
End InnerFacts.

(** ** The contract with the simulation *)

Section Contract.
Context {T : Type} `{MonotonicTimeLaws T}.
Context {Call Addr SourceFut QCall Obs Reply Payload : Type}.
Abbreviation Action := (Action Call Addr SourceFut).
Abbreviation Task := (Task Call Addr SourceFut QCall).
Context {Q : Type} `{!StableQueue Q (T * Z) Action} `{!StableQueueLaws Q (T * Z) Action}.
Abbreviation Shared := (Shared Q T).
Context {L W : Type} `{!Slab L nat} `{!World W Shared Task Obs Reply Payload}.
Context (fuel : nat).
#[local] Instance the_executor : Executor (StExecutor L W) Shared Task Obs Reply Payload :=
  st_executor fuel.

(** Tasks use the scheduler's state through its operations. *)
Context (w_run_ops : ∀ r (w : W) (sh : Shared), rtc sched_op sh (w_run r (w, sh)).2.2).

Lemma events_run_world (l : list Event) (s : Loop L (W * Shared)) :
  world (events_run l s).2 = world s.
Proof. apply events_run_length. Qed.

Lemma loop_ops n abort (s : Loop L (W * Shared)) :
  rtc sched_op (world s).2
    (world (run_loop w_run (w_wrong_executor (W := W)) n abort s).2).2.
Proof.
  revert abort s. induction n as [|n IH]; intros abort s; simpl; [done|].
  destruct (StExecutor.queue (context (inner s))) as [|r rs]; simpl; [done|].
  destruct (world s) as [w sh] eqn:Hw. pose proof (w_run_ops r w sh) as Hops.
  destruct (w_run r (w, sh)) as [poll [w1 sh1]]. simpl in Hops.
  set (s1 := mkLoop _ _ _ _ _ _). pose proof (events_run_world (events poll) s1) as He.
  destruct (events_run (events poll) s1) as [ok s2]. simpl in He. subst s1. simpl in He.
  specialize (IH (λ i, abort (S i)) s2). rewrite He in IH. simpl in IH.
  destruct ok; simpl; [|by rewrite He]. destruct (panic poll); simpl; [by rewrite He|].
  destruct (abort 0); simpl; [by rewrite He|]. by etrans.
Qed.

Lemma inner_run_ops n abort thread (self : ExecutorInner L) (w : W) (sh : Shared) r s :
  inner_run w_run (w_wrong_executor (W := W)) n abort thread self (w, sh) = Done (r, s) →
  rtc sched_op sh (world s).2.
Proof.
  unfold inner_run. pose proof (loop_ops n abort (start self (w, sh))) as Hl.
  destruct (run_loop _ _ _ _ _) as [e s1]. simpl in Hl.
  destruct e; try done; by repeat case_match; intros; simplify_eq/=.
Qed.

Lemma st_run_ops d (e e' : StExecutor L W) (sh sh' : Shared) r :
  st_run fuel d e sh = Done (e', sh', r) → rtc sched_op sh sh'.
Proof.
  unfold st_run. destruct (st_inner e) as [i|]; [|done]. destruct (is_zero d).
  - destruct (inner_run _ _ _ _ _ _ _) as [[[r0|] s]| |] eqn:Hr; simpl; try done.
    intros [= _ <- _]. by eapply inner_run_ops.
  - destruct (default None (head (st_deadlines e))) as [n|].
    + intros [= _ <- _]. apply (loop_ops n (λ _, st_abort e) (start i (st_world e, sh))).
    + destruct (inner_run _ _ _ _ _ _ _) as [[[r0|] s]| |] eqn:Hr; simpl; try done;
        intros [= _ <- _]; by eapply inner_run_ops.
Qed.

(** A run gives the executor back unless it times out. *)
Lemma st_run_accepts d (e e' : StExecutor L W) (sh sh' : Shared) r :
  st_run fuel d e sh = Done (e', sh', r) → st_accepts e' = true ∨ r = Err ExecTimeout.
Proof.
  unfold st_run. destruct (st_inner e) as [i|]; [|done]. destruct (is_zero d).
  - destruct (inner_run _ _ _ _ _ _ _) as [[[r0|] s]| |]; simpl; try done.
    intros [= <- _ _]. by left.
  - destruct (default None (head (st_deadlines e))) as [n|].
    + intros [= _ _ <-]. by right.
    + destruct (inner_run _ _ _ _ _ _ _) as [[[r0|] s]| |]; simpl; try done;
        intros [= <- _ <-]; [by left|by right].
Qed.

Lemma st_spawn_accepts (t : Task) (e : StExecutor L W) : st_accepts (st_spawn t e) = st_accepts e.
Proof. unfold st_spawn. destruct (st_inner e) eqn:Hi; [|done]. unfold st_accepts. by rewrite Hi. Qed.

#[local] Instance st_executor_accepts : ExecutorAccepts (E := StExecutor L W).
Proof.
  split; simpl.
  - apply st_spawn_accepts.
  - intros d e e' sh sh' Hr _. destruct (st_run_accepts _ _ _ _ _ _ Hr) as [Ha|Ha]; [exact Ha|done].
Qed.

#[local] Instance st_executor_laws : ExecutorLaws (E := StExecutor L W).
Proof. intros d e e' sh sh' r Hr. exact (st_run_ops d e e' sh sh' r Hr). Qed.

Lemma inner_run_no_timeout n abort thread (self : ExecutorInner L) (w : W * Shared) r s :
  inner_run w_run (w_wrong_executor (W := W)) n abort thread self w = Done (r, s) →
  r ≠ Some (Err ExecTimeout).
Proof.
  unfold inner_run. destruct (run_loop _ _ _ _ _) as [e s1].
  destruct e; try done; by repeat case_match; intros; simplify_eq/=.
Qed.

Lemma st_run_timeout d (e e' : StExecutor L W) (sh sh' : Shared) :
  st_run fuel d e sh = Done (e', sh', Err ExecTimeout) → st_inner e' = None.
Proof.
  unfold st_run. destruct (st_inner e) as [i|]; [|done]. destruct (is_zero d).
  - destruct (inner_run _ _ _ _ _ _ _) as [[[r0|] s]| |] eqn:Hr; simpl; try done.
    intros [= _ _ ->]. by apply inner_run_no_timeout in Hr.
  - destruct (default None (head (st_deadlines e))) as [n|]; [by intros [= <- _]|].
    destruct (inner_run _ _ _ _ _ _ _) as [[[r0|] s]| |] eqn:Hr; simpl; try done;
      [|by intros [= <- _]].
    intros [= _ _ ->]. by apply inner_run_no_timeout in Hr.
Qed.

(** C30: the single-threaded executor keeps the contract of the simulation when
    the tasks keep theirs: a run changes the scheduling state only through the
    operations of the scheduler, and the executor accepts tasks after it unless
    it timed out; spawning a task never changes that. *)
Theorem st_executor_contract (d : Duration) (t : Task) (e e' : StExecutor L W) (sh sh' : Shared) r :
  accepts_tasks (spawn_and_forget t e) = accepts_tasks e ∧
  (executor_run d e sh = Done (e', sh', r) →
    rtc sched_op sh sh' ∧ (accepts_tasks e' = true ∨ r = Err ExecTimeout)).
Proof.
  split; [apply st_spawn_accepts|]. intros Hr.
  split; [exact (st_run_ops d e e' sh sh' r Hr)|exact (st_run_accepts d e e' sh sh' r Hr)].
Qed.

Context {C : Type} `{!Clock C T} (is_send_error : Payload → bool).
Implicit Types (self : Simulation (StExecutor L W) C Shared Obs).

Lemma map_error_timeout self (err : ExecutorError Payload) :
  map_executor_error is_send_error self err = Done Timeout → err = ExecTimeout.
Proof.
  destruct err as [n| |id p]; simpl; [by destruct (deadlock_info self)|done|].
  destruct (match ModelId_get id with Some _ => _ | None => _ end) as [[]| |]; simpl; try done;
    by destruct (is_send_error p).
Qed.

Lemma run_timeout self self' :
  run is_send_error self = Done (Err Timeout, self') →
  is_terminated self' = true ∧ st_accepts (executor self') = false.
Proof.
  unfold run. destruct (is_terminated self); [done|]. destruct (is_halted (shared self)); [done|].
  destruct (executor_run _ _ _) as [[[e sh] r]| |] eqn:Hr; simpl; [|done..].
  destruct r as [|err]; [done|].
  destruct (map_executor_error _ _ _) as [err'| |] eqn:Hm; simpl; [|done..].
  intros [= -> <-]. split; [done|]. apply map_error_timeout in Hm as ->. simpl.
  unfold st_accepts. by rewrite (st_run_timeout _ _ _ _ _ Hr).
Qed.

(** A simulation whose single-threaded executor has timed out.  The executor
    has given its state to a thread that it no longer waits for: the simulation
    is terminated, stepping reports so, but [process], [process_event] and
    [process_query], which spawn a task before they check for termination,
    panic. *)
Lemma st_timeout_then_panics self self' :
  run is_send_error self = Done (Err Timeout, self') →
  (∃ self'', step is_send_error self' = Done (Err Terminated, self'')) ∧
  (∀ a, process is_send_error a self' = Panicked) ∧
  (∀ func address, process_event is_send_error func address self' = Panicked) ∧
  (∀ func address, process_query is_send_error func address self' = Panicked).
Proof.
  intros Hr. destruct (run_timeout self self' Hr) as [Hterm Hacc].
  split_and!.
  - unfold step, step_to_next. rewrite Hterm. simpl. eauto.
  - intros a. unfold process, spawn_task. simpl. by rewrite Hacc.
  - intros func address. unfold process_event, spawn_task. simpl. by rewrite Hacc.
  - intros func address. unfold process_query, spawn_task. simpl.
    destruct (w_slot_new (st_world (executor self'))) as [n w]. simpl.
    unfold st_accepts in *. simpl. by rewrite Hacc.
Qed.
End Contract.

(** ** Evaluations *)

(** Keys are the smallest ones that are free. *)
Definition first_free (m : gmap nat nat) : nat :=
  default 0 (list_find (λ k, m !! k = None) (seq 0 (S (size m))) ≫= λ p, Some p.2).

#[local] Instance map_slab : Slab (gmap nat nat) nat := {|
  slab_new := ∅;
  slab_map m := m;
  vacant_key := first_free;
  slab_insert a m := <[first_free m := a]> m;
  try_remove := delete;
  slab_drain m := snd <$> map_to_list m;
|}.

Lemma first_free_None m : m !! first_free m = None.
Proof.
  unfold first_free. destruct (list_find _ _) as [[i k]|] eqn:Hf; simpl.
  { by apply list_find_Some in Hf as (_ & ? & _). }
  exfalso. apply list_find_None in Hf. rewrite Forall_forall in Hf.
  assert (list_to_set (seq 0 (S (size m))) ⊆ dom m) as Hsub.
  { intros k Hk. apply elem_of_list_to_set in Hk. apply elem_of_dom.
    apply Hf in Hk.
    by apply not_eq_None_Some. }
  apply subseteq_size in Hsub. rewrite size_dom, size_list_to_set, length_seq in Hsub by apply NoDup_seq.
  lia.
Qed.

#[local] Instance map_slab_laws : SlabLaws (gmap nat nat) nat.
Proof. split; simpl; try done. apply first_free_None. Qed.

(** A world that is the list of what the next tasks do. *)
Definition Script : Type := list (Poll bool).
Definition play (r : Runnable) (w : Script) : Poll bool * Script :=
  match w with p :: w => (p, w) | [] => (mkPoll [] ModelId_none None, []) end.

(** Two tasks; the one spawned last sends two messages and wakes the other one
    again, which receives one message each time. *)
Definition two_tasks : ExecutorInner (gmap nat nat) := spawn_inner 1 (spawn_inner 0 (inner_new 7)).
Definition run0 : Runnable := mkRunnable 0 7 0.
Definition sends_twice : Script :=
  [mkPoll [EvCount 2; EvWake run0; EvDrop 1] ModelId_none None;
   mkPoll [EvCount (-1)] ModelId_none None; mkPoll [EvCount (-1); EvDrop 0] ModelId_none None].
Definition one_panics : Script :=
  [mkPoll [EvCount 2] ModelId_none None; mkPoll [EvCount (-1)] 4%Z (Some true)].

(** The same run, complete, and aborted after its second task. *)
Lemma st_run_accounts_witness :
  (∃ s, inner_run play false 10 (λ _, false) 5 two_tasks sends_twice = Done (Some (Ok tt), s) ∧
    ran s = [mkRunnable 1 7 1; run0; run0] ∧ thread_msg_count s = 5%Z ∧
    ran s ++ queued s ≡ₚ StExecutor.queue (context two_tasks) ++ woken s) ∧
  (∃ s, inner_run play false 10 (λ i, i =? 1) 5 two_tasks sends_twice =
      Done (Some (Err (UnprocessedMessages 1)), s) ∧
    ran s = [mkRunnable 1 7 1; run0] ∧ queued s = [run0] ∧
    ran s ++ queued s ≡ₚ StExecutor.queue (context two_tasks) ++ woken s).
Proof.
  split.
  - destruct (inner_run play false 10 (λ _, false) 5 two_tasks sends_twice) as [[r s]| |] eqn:Hr;
      [|vm_compute in Hr; discriminate..].
    assert (r = Some (Ok tt)) as -> by (vm_compute in Hr; by injection Hr as <- _).
    exists s. split; [done|]. split; [vm_compute in Hr; by injection Hr as <-|].
    destruct (st_run_accounts play false 10 (λ _, false) 5 two_tasks sends_twice _ s Hr)
      as (Ht & _ & Hc & _).
    split; [exact Hc|exact Ht].
  - destruct (inner_run play false 10 (λ i, i =? 1) 5 two_tasks sends_twice) as [[r s]| |] eqn:Hr;
      [|vm_compute in Hr; discriminate..].
    assert (r = Some (Err (UnprocessedMessages 1))) as ->
      by (vm_compute in Hr; by injection Hr as <- _).
    exists s. split; [done|]. split; [vm_compute in Hr; by injection Hr as <-|].
    split; [vm_compute in Hr; by injection Hr as <-|].
    exact (proj1 (st_run_accounts play false 10 (λ i, i =? 1) 5 two_tasks sends_twice _ s Hr)).
Defined.

Lemma st_panic_loses_thread_count_witness :
  ∃ s, inner_run play false 10 (λ _, false) 5 two_tasks one_panics =
      Done (Some (Err (ExecPanic 4%Z true)), s) ∧ thread_msg_count s = 1%Z ∧
    inner_run play false 10 (λ _, false) 6 two_tasks one_panics =
      Done (Some (Err (ExecPanic 4%Z true)), s).
Proof.
  destruct (inner_run play false 10 (λ _, false) 5 two_tasks one_panics) as [[r s]| |] eqn:Hr;
    [|vm_compute in Hr; discriminate..].
  assert (r = Some (Err (ExecPanic 4%Z true))) as -> by (vm_compute in Hr; by injection Hr as <- _).
  exists s. split; [done|]. split; [vm_compute in Hr; by injection Hr as <-|].
  exact (st_panic_loses_thread_count play false 10 (λ _, false) 5 two_tasks one_panics 4%Z true s Hr 6%Z).
Defined.

Lemma st_run_terminates_witness :
  inner_run play false 6 (λ _, false) 5 two_tasks sends_twice ≠ NoFuel.
Proof.
  apply (st_run_terminates play false (λ w, sum_list_with (λ p, wakes (events p)) w)).
  - intros r [|p w]; simpl; lia.
  - vm_compute. lia.
Defined.

#[local] Instance script_world : World Script DShared DTask Z unit bool := {|
  w_run r x := let '(p, w) := play r x.1 in (p, (w, x.2));
  w_spawn _ _ w := w;
  w_observer_len _ n := n;
  w_slot_new w := (0, w);
  w_slot_try_read _ _ := None;
  w_wrong_executor := false;
|}.

Lemma script_world_ops (r : Runnable) (w : Script) (sh : DShared) :
  rtc sched_op sh (w_run r (w, sh)).2.2.
Proof. simpl. by destruct (play r w). Qed.

#[local] Instance script_executor :
  Executor (StExecutor (gmap nat nat) Script) DShared DTask Z unit bool := st_executor 10.

Definition st_sim (deadlines : list (option nat)) :
    Simulation (StExecutor (gmap nat nat) Script) NoClock DShared Z :=
  mkSim (st_spawn (SpawnFut (Scheduler.process_event 3 4)) (st_new 7 sends_twice 5 deadlines))
    (mkShared (queue_of []) MT_EPOCH false []) mkNoClock None (dur 1) [] [] false.

Lemma st_executor_contract_witness :
  ∃ e' sh', executor_run (dur 1) (executor (st_sim [])) (shared (st_sim [])) =
      Done (e', sh', Err (UnprocessedMessages 1)) ∧
    rtc sched_op (shared (st_sim [])) sh' ∧ accepts_tasks e' = true.
Proof.
  destruct (executor_run (dur 1) (executor (st_sim [])) (shared (st_sim [])))
    as [[[e' sh'] r]| |] eqn:Hr; [|vm_compute in Hr; discriminate..].
  exists e', sh'.
  destruct (proj2 (st_executor_contract 10 script_world_ops (dur 1)
    (SpawnFut (Scheduler.process_event 3 4)) (executor (st_sim [])) e' (shared (st_sim [])) sh' r) Hr)
    as [Hops Hacc].
  assert (r = Err (UnprocessedMessages 1)) as Hre
    by (vm_compute in Hr; by injection Hr as _ _ <-).
  split; [by rewrite Hre|]. split; [exact Hops|]. destruct Hacc as [Ha|Ha]; [exact Ha|].
  by rewrite Hre in Ha.
Defined.

Lemma st_timeout_then_panics_witness :
  ∃ self', run id (st_sim [Some 1]) = Done (Err Timeout, self') ∧
    process_event id 3 4 self' = Panicked.
Proof.
  destruct (run id (st_sim [Some 1])) as [[r self']| |] eqn:Hr; [|vm_compute in Hr; discriminate..].
  assert (r = Err Timeout) as -> by (vm_compute in Hr; by injection Hr as <- _).
  exists self'. split; [done|].
  exact (proj1 (proj2 (proj2 (st_timeout_then_panics 10 id (st_sim [Some 1]) self' Hr))) 3 4).
Defined.
