(* ===== verification/CachedLock.v ===== *)
(** * The cached read-write lock (util/cached_rw_lock.rs)

    The handles of a lock, each with its cache, as interleaved programs around
    a mutex and the epoch.  The loads of the epoch are relaxed: a handle may
    read any epoch that is not older than the newest one it knows of ([seen]);
    the mutex passes this knowledge on, and so does any other synchronization
    between the threads of two handles.  Epochs do not overflow.

    [observe] is what users see of a value, which cloning preserves.  Ghost
    state: [history] lists the shared values, by epoch; [dirty] marks a cache
    that was used as a scratchpad since it was last synchronized. *)

From stdpp Require Import base option list numbers relations.
From Stdlib Require Import Lia.
From S2P Require Import Prelude.

Section Lock.
Context {A : Type} (clone : A → A).

(** [HSync]: the epoch was found to differ; [HGuard]: the write guard is held. *)
Inductive HPc := HIdle | HSync | HGuard.

Record Handle := mkHandle {
  value : A;
  epoch : nat;
  seen : nat;
  dirty : bool;
  h_pc : HPc;
}.

Record Lock := mkLock {
  sh_value : A;
  sh_epoch : nat;
  sh_seen : nat;
  holder : option nat;
  poisoned : bool;
  handles : list Handle;
  history : list A;
}.

(** [CachedRwLock::new]. *)
Definition lock_new (t : A) : Lock :=
  mkLock (clone t) 0 0 None false [mkHandle t 0 0 false HIdle] [clone t].

Definition set_handle (i : nat) (h : Handle) (s : Lock) : Lock :=
  mkLock (sh_value s) (sh_epoch s) (sh_seen s) (holder s) (poisoned s) (<[i := h]> (handles s))
    (history s).
Definition see (n : nat) (h : Handle) : Handle :=
  mkHandle (value h) (epoch h) (seen h `max` n) (dirty h) (h_pc h).
Definition goto (pc : HPc) (h : Handle) : Handle :=
  mkHandle (value h) (epoch h) (seen h) (dirty h) pc.

(** A relaxed load of the epoch may return [e]. *)
Definition may_load (e : nat) (h : Handle) (s : Lock) : bool :=
  (seen h <=? e)%nat && (e <=? sh_epoch s)%nat.

Inductive Act :=
| ARead (e : nat)
| ASync (e : nat)
| AWrite (e : nat)
| ADrop (f : A → bool * A)
| AScratch (f : A → A)
| AClone
| ASee (j : nat).

(** [read] and [write_scratchpad]: the load of the epoch, which is [e]. *)
Definition read_step (i e : nat) (h : Handle) (s : Lock) : option (Lock * option (result A unit)) :=
  if may_load e h s then
    let h := see e h in
    if (e =? epoch h)%nat then Some (set_handle i h s, Some (Ok (value h)))
    else Some (set_handle i (goto HSync h) s, None)
  else None.

(** [read] and [write_scratchpad]: the part under the mutex. *)
Definition sync_step (i e : nat) (h : Handle) (s : Lock) : option (Lock * option (result A unit)) :=
  match holder s with
  | Some _ => None
  | None =>
      let h := goto HIdle (see (sh_seen s) h) in
      if poisoned s then Some (set_handle i h s, Some (Err tt))
      else if may_load e h s then
        let h := mkHandle (clone (sh_value s)) e (seen h `max` e) false HIdle in
        let s := set_handle i h s in
        Some (mkLock (sh_value s) (sh_epoch s) (seen h) None (poisoned s) (handles s) (history s),
              Some (Ok (value h)))
      else None
  end.

(** [write], up to the point where the guard is returned. *)
Definition write_step (i e : nat) (h : Handle) (s : Lock) : option (Lock * option (result A unit)) :=
  match holder s with
  | Some _ => None
  | None =>
      let h := see (sh_seen s) h in
      if may_load e h s then
        let h := goto HGuard (see (S e) h) in
        Some (mkLock (sh_value s) (S e) (sh_seen s) (Some i) (poisoned s)
                (<[i := h]> (handles s)) (history s),
              if poisoned s then Some (Err tt) else None)
      else None
  end.

(** The use of the guard and its drop; [f] says whether it returns or
    panics, and the value that it leaves. *)
Definition drop_step (i : nat) (f : A → bool * A) (h : Handle) (s : Lock) : Lock :=
  let '(ok, v) := f (sh_value s) in
  mkLock v (sh_epoch s) (seen h) None (poisoned s || negb ok) (<[i := goto HIdle h]> (handles s))
    (history s ++ [v]).

Definition lock_step (i : nat) (a : Act) (s : Lock) : option (Lock * option (result A unit)) :=
  h ← handles s !! i;
  match h_pc h, a with
  | HIdle, ARead e => read_step i e h s
  | HIdle, AWrite e => write_step i e h s
  | HIdle, AScratch f =>
      Some (set_handle i (mkHandle (f (value h)) (epoch h) (seen h) true HIdle) s, None)
  | HIdle, AClone =>
      Some (mkLock (sh_value s) (sh_epoch s) (sh_seen s) (holder s) (poisoned s)
              (handles s ++ [mkHandle (clone (value h)) (epoch h) (seen h) (dirty h) HIdle])
              (history s), None)
  | HIdle, ASee j => h' ← handles s !! j; Some (set_handle i (see (seen h') h) s, None)
  | HSync, ASync e => sync_step i e h s
  | HGuard, ADrop f => Some (drop_step i f h s, None)
  | _, _ => None
  end.

Definition lock_next (s s' : Lock) : Prop := ∃ i a r, lock_step i a s = Some (s', r).

(** ** Invariant *)

Context {B : Type} (observe : A → B).
Hypothesis clone_observe : ∀ a, observe (clone a) = observe a.

Definition observed (s : Lock) (e : nat) : option B := observe <$> history s !! e.

Record handle_ok (s : Lock) (i : nat) (h : Handle) : Prop := {
  ho_seen : seen h ≤ sh_epoch s;
  ho_epoch : epoch h < length (history s);
  ho_value : dirty h = false → observed s (epoch h) = Some (observe (value h));
  ho_guard : h_pc h = HGuard ↔ holder s = Some i;
  ho_held : h_pc h = HGuard → seen h = sh_epoch s;
}.

Record lock_inv (s : Lock) : Prop := {
  li_history : length (history s) = match holder s with None => S (sh_epoch s) | Some _ => sh_epoch s end;
  li_seen : holder s = None → sh_seen s = sh_epoch s;
  li_value : last (history s) = Some (sh_value s);
  li_handles : ∀ i h, handles s !! i = Some h → handle_ok s i h;
  li_holder : ∀ i, holder s = Some i → is_Some (handles s !! i);
}.

Lemma lock_new_inv t : lock_inv (lock_new t).
Proof.
  split; try done. intros [|i] h Hh; simplify_eq/=. split; simpl; try done; [lia|].
  intros _. unfold observed. simpl. by rewrite clone_observe.
Qed.

(** A step that changes one handle only. *)
Lemma set_handle_inv i h s : lock_inv s → i < length (handles s) → handle_ok s i h →
  lock_inv (set_handle i h s).
Proof.
  intros [H1 H2 H3 H4 H5] Hi Hh. split; try done; simpl.
  - intros j x Hx. apply list_lookup_insert_Some in Hx as [(<- & <- & _)|[_ Hx]].
    + by destruct Hh.
    + by destruct (H4 j x Hx).
  - intros j Hj. destruct (decide (i = j)) as [->|Hne].
    + rewrite list_lookup_insert_eq by done. eauto.
    + rewrite list_lookup_insert_ne by done. auto.
Qed.

Lemma may_load_iff e h s : may_load e h s = true ↔ seen h ≤ e ≤ sh_epoch s.
Proof. unfold may_load. rewrite andb_true_iff, !Nat.leb_le. done. Qed.

Lemma observed_last s : lock_inv s → holder s = None →
  observed s (sh_epoch s) = Some (observe (sh_value s)).
Proof.
  intros Hinv Hh. pose proof (li_history s Hinv) as Hl. rewrite Hh in Hl.
  pose proof (li_value s Hinv) as Hv. rewrite last_lookup, Hl in Hv. simpl in Hv.
  unfold observed. by rewrite Hv.
Qed.

(** ** Preservation *)

Lemma read_step_inv i e h s s' r : lock_inv s → handles s !! i = Some h → h_pc h = HIdle →
  read_step i e h s = Some (s', r) →
  lock_inv s' ∧ history s' = history s ∧
  (∀ v, r = Some (Ok v) → v = value h ∧ seen h ≤ epoch h) ∧ r ≠ Some (Err tt).
Proof.
  intros Hinv Hh Hpc. unfold read_step. pose proof (lookup_lt_Some _ _ _ Hh) as Hi.
  destruct (may_load e h s) eqn:Hm; [|done]. apply may_load_iff in Hm.
  pose proof (li_handles s Hinv i h Hh) as [H1 H2 H3 H4 H5]. simpl.
  destruct (Nat.eqb_spec e (epoch h)) as [->|Hne]; intros [= <- <-].
  - split_and!; try done; [|intros v [= <-]; split; [done|lia]].
    apply set_handle_inv; try done. split; simpl; try done; [lia|]. rewrite Hpc. done.
  - split_and!; try done. apply set_handle_inv; try done. split; simpl; try done; [lia|].
    split; [done|]. intros Ho. apply H4 in Ho. congruence.
Qed.

Lemma sync_step_inv i e h s s' r : lock_inv s → handles s !! i = Some h → h_pc h = HSync →
  sync_step i e h s = Some (s', r) →
  lock_inv s' ∧ history s' = history s ∧
  (∀ v, r = Some (Ok v) → observed s (sh_epoch s) = Some (observe v) ∧ seen h ≤ sh_epoch s ∧
    ∃ h', handles s' !! i = Some h' ∧ epoch h' = sh_epoch s ∧ dirty h' = false) ∧
  (r = Some (Err tt) → poisoned s = true).
Proof.
  intros Hinv Hh Hpc. unfold sync_step. pose proof (lookup_lt_Some _ _ _ Hh) as Hi.
  destruct (holder s) eqn:Hho; [done|].
  pose proof (li_seen s Hinv Hho) as Hss. pose proof (li_handles s Hinv i h Hh) as [H1 H2 H3 H4 H5].
  destruct (poisoned s) eqn:Hp.
  { intros [= <- <-]. split_and!; try done. apply set_handle_inv; try done.
    split; simpl; try done; [lia|]. by rewrite Hho. }
  destruct (may_load _ _ _) eqn:Hm; [|done]. apply may_load_iff in Hm. simpl in Hm.
  assert (e = sh_epoch s) as -> by lia. pose proof (observed_last s Hinv Hho) as Ho.
  intros [= <- <-]. split; [|split; [done|]].
  - assert (lock_inv (set_handle i (mkHandle (clone (sh_value s)) (sh_epoch s)
      ((seen h `max` sh_seen s) `max` sh_epoch s) false HIdle) s)) as [G1 G2 G3 G4 G5].
    { apply set_handle_inv; try done. split; simpl; try done; [lia|..].
      - pose proof (li_history s Hinv) as Hl. rewrite Hho in Hl. lia.
      - intros _. by rewrite clone_observe.
      - by rewrite Hho. }
    simpl in *. rewrite Hho in G1. split; simpl in *; try done.
    + intros _. lia.
    + intros j x Hx. destruct (G4 j x Hx) as [K1 K2 K3 K4 K5]. split; simpl in *; try done.
      by rewrite Hho in K4.
  - split; [|done]. intros v [= <-]. rewrite clone_observe. split_and!; [done|lia|].
    eexists. split; [simpl; by rewrite list_lookup_insert_eq|]. done.
Qed.

Lemma write_step_inv i e h s s' r : lock_inv s → handles s !! i = Some h → h_pc h = HIdle →
  write_step i e h s = Some (s', r) →
  lock_inv s' ∧ history s' = history s ∧ (∀ v, r ≠ Some (Ok v)) ∧ (r = Some (Err tt) → poisoned s = true).
Proof.
  intros Hinv Hh Hpc. unfold write_step. pose proof (lookup_lt_Some _ _ _ Hh) as Hi.
  destruct (holder s) eqn:Hho; [done|].
  pose proof (li_seen s Hinv Hho) as Hss. pose proof Hinv as [G1 G2 G3 G4 G5].
  pose proof (G4 i h Hh) as [H1 H2 H3 H4 H5].
  destruct (may_load _ _ _) eqn:Hm; [|done]. apply may_load_iff in Hm. simpl in Hm.
  assert (e = sh_epoch s) as -> by lia. intros [= <- <-].
  split_and!; [|done|by destruct (poisoned s)|by destruct (poisoned s)].
  rewrite Hho in G1. split; simpl; try done.
  - intros j x Hx. apply list_lookup_insert_Some in Hx as [(<- & <- & _)|[Hne Hx]].
    + split; simpl; try done; lia.
    + destruct (G4 j x Hx) as [K1 K2 K3 K4 K5]. split; simpl; try done; [lia| |].
      * split; [|congruence]. intros Hg. apply K4 in Hg. congruence.
      * intros Hg. apply K4 in Hg. congruence.
  - intros j [= <-]. rewrite list_lookup_insert_eq by done. eauto.
Qed.

Lemma observed_app s v (e : nat) b : observed s e = Some b →
  observe <$> (history s ++ [v]) !! e = Some b.
Proof.
  unfold observed. intros (a & Ha & ->)%fmap_Some. by rewrite (lookup_app_l_Some _ _ _ _ Ha).
Qed.

Lemma drop_step_inv i f h s : lock_inv s → handles s !! i = Some h → h_pc h = HGuard →
  lock_inv (drop_step i f h s).
Proof.
  intros Hinv Hh Hpc. unfold drop_step. pose proof (lookup_lt_Some _ _ _ Hh) as Hi.
  pose proof Hinv as [G1 G2 G3 G4 G5]. pose proof (G4 i h Hh) as [H1 H2 H3 H4 H5].
  destruct (f (sh_value s)) as [ok v]. pose proof (proj1 H4 Hpc) as Hho. rewrite Hho in G1.
  split; simpl; rewrite ?length_app, ?last_snoc; simpl; try done.
  - lia.
  - intros _. auto.
  - intros j x Hx. apply list_lookup_insert_Some in Hx as [(<- & <- & _)|[Hne Hx]].
    + split; simpl; try done; [rewrite length_app; lia|].
      intros Hd. apply observed_app. auto.
    + destruct (G4 j x Hx) as [K1 K2 K3 K4 K5]. split; simpl; try done.
      * rewrite length_app. lia.
      * intros Hd. apply observed_app. auto.
      * split; [|done]. intros Hg. apply K4 in Hg. congruence.
Qed.

Lemma lock_step_inv i a s s' r : lock_inv s → lock_step i a s = Some (s', r) → lock_inv s'.
Proof.
  intros Hinv. unfold lock_step. destruct (handles s !! i) as [h|] eqn:Hh; [|done]. simpl.
  pose proof (lookup_lt_Some _ _ _ Hh) as Hi.
  pose proof Hinv as [G1 G2 G3 G4 G5]. pose proof (G4 i h Hh) as [H1 H2 H3 H4 H5].
  destruct (h_pc h) eqn:Hpc, a as [e|e|e|f|f| |j]; try done.
  - intros Hs. by apply (read_step_inv i e h s s' r).
  - intros Hs. by apply (write_step_inv i e h s s' r).
  - intros [= <- <-]. apply set_handle_inv; try done.
  - intros [= <- <-]. split; simpl; try done.
    + intros j x Hx. apply lookup_app_Some in Hx as [Hx|[Hge Hx]].
      * destruct (G4 j x Hx). by split.
      * apply list_lookup_singleton_Some in Hx as [Hj <-]. split; simpl; try done.
        -- intros Hd. rewrite clone_observe. auto.
        -- split; [done|]. intros Ho. destruct (G5 j Ho) as [y Hy].
           apply lookup_lt_Some in Hy. lia.
    + intros j Hj. destruct (G5 j Hj) as [y Hy]. exists y. by apply lookup_app_l_Some.
  - destruct (handles s !! j) as [h'|] eqn:Hj; [|done]. simpl. intros [= <- <-].
    apply set_handle_inv; try done. destruct (G4 j h' Hj) as [K1 _ _ _ _].
    split; simpl; rewrite ?Hpc; try done; lia.
  - intros Hs. by apply (sync_step_inv i e h s s' r).
  - intros [= <- <-]. by apply drop_step_inv.
Qed.

Lemma lock_reachable_inv t s : rtc lock_next (lock_new t) s → lock_inv s.
Proof.
  intros Hr. refine (rtc_ind_r lock_inv _ _ _ s Hr); [apply lock_new_inv|].
  intros s1 s2 _ (i & a & r & Hs) Hinv. by eapply lock_step_inv.
Qed.

(** C31: reads of the cached lock.  Whatever the interleaving of the handles and
    although the epoch is loaded without ordering, a read or a scratchpad
    access that succeeds gives a value that the shared data had at some epoch,
    never a mixture, unless the cache was modified as a scratchpad; that epoch
    is not older than the newest one that the handle knew of before, so that a
    handle sees every write that happened before its read and never goes back
    in time; and an access fails only when a writer has panicked. *)
Theorem cached_lock_reads t s i a s' r h :
  rtc lock_next (lock_new t) s → handles s !! i = Some h → lock_step i a s = Some (s', Some r) →
  match r with
  | Ok v => ∃ e h', handles s' !! i = Some h' ∧ epoch h' = e ∧ seen h ≤ e ∧ e ≤ seen h' ∧
      (dirty h = false ∨ h_pc h = HSync → observed s e = Some (observe v))
  | Err _ => poisoned s = true
  end.
Proof.
  intros Hr Hh. pose proof (lock_reachable_inv t s Hr) as Hinv. unfold lock_step. rewrite Hh. simpl.
  pose proof (lookup_lt_Some _ _ _ Hh) as Hi. pose proof (li_handles s Hinv i h Hh) as [H1 H2 H3 H4 H5].
  destruct (h_pc h) eqn:Hpc, a as [e|e|e|f|f| |j]; try done.
  - intros Hs. pose proof (read_step_inv i e h s s' _ Hinv Hh Hpc Hs) as (_ & _ & Hok & Herr).
    destruct r as [v|[]]; [|done]. destruct (Hok v eq_refl) as [-> Hle].
    unfold read_step in Hs. destruct (may_load e h s); [|done]. simpl in Hs.
    destruct (Nat.eqb_spec e (epoch h)) as [->|]; [|done]. injection Hs as <-. simpl.
    exists (epoch h). eexists. rewrite list_lookup_insert_eq by done. split_and!; try done.
    + simpl. lia.
    + intros [Hd|]; [auto|done].
  - intros Hs. pose proof (write_step_inv i e h s s' _ Hinv Hh Hpc Hs) as (_ & _ & Hok & Herr).
    destruct r as [v|[]]; [by destruct (Hok v)|auto].
  - destruct (handles s !! j); simpl; [|done]. done.
  - intros Hs. pose proof (sync_step_inv i e h s s' _ Hinv Hh Hpc Hs) as (Hinv' & Hhist & Hok & Herr).
    destruct r as [v|[]]; [|auto]. destruct (Hok v eq_refl) as (Ho & Hle & h' & Hh' & He & Hd).
    exists (epoch h'), h'. rewrite He. split_and!; try done.
    unfold sync_step in Hs. destruct (holder s); [done|]. destruct (poisoned s); [done|].
    destruct (may_load _ _ _); [|done]. injection Hs as <- _. simpl in Hh'.
    rewrite list_lookup_insert_eq in Hh' by done. injection Hh' as <-. simpl in *. lia.
Qed.
End Lock.

Arguments Lock : clear implicits.
Arguments Act : clear implicits.

(** ** Evaluation *)

Fixpoint lock_run (l : list (nat * Act (list nat))) (s : Lock (list nat)) : option (Lock (list nat)) :=
  match l with
  | [] => Some s
  | (i, a) :: l => match lock_step id i a s with Some (s, _) => lock_run l s | None => None end
  end.

Lemma lock_run_rtc l s s' : lock_run l s = Some s' → rtc (lock_next id) s s'.
Proof.
  revert s. induction l as [|[i a] l IH]; intros s; simpl; [by intros [= ->]|].
  destruct (lock_step id i a s) as [[s1 r]|] eqn:Hs; [|done]. intros Hr.
  eapply rtc_l; [|by apply IH]. by exists i, a, r.
Qed.

(** A clone is made, the first handle appends a value, the clone first reads
    its cache, as it may, then synchronizes with the thread of the first handle
    and finds out that its cache is old. *)
Definition demo_lock : Lock (list nat) :=
  default (lock_new id []) (lock_run
    [(0, AClone); (0, AWrite 0); (0, ADrop (λ v, (true, v ++ [7]))); (1, ARead 0); (1, ASee 0);
     (1, ARead 1)] (lock_new id [])).

Lemma cached_lock_reads_witness :
  ∃ s' h, handles demo_lock !! 1 = Some h ∧ seen h = 1 ∧
    lock_step id 1 (ASync 1) demo_lock = Some (s', Some (Ok [7])) ∧
    ∃ e h', handles s' !! 1 = Some h' ∧ epoch h' = e ∧ seen h ≤ e ∧ e ≤ seen h' ∧
      (dirty h = false ∨ h_pc h = HSync → observed id demo_lock e = Some [7]).
Proof.
  destruct (lock_step id 1 (ASync 1) demo_lock) as [[s' r]|] eqn:Hs; [|vm_compute in Hs; done].
  destruct (handles demo_lock !! 1) as [h|] eqn:Hh; [|vm_compute in Hh; done].
  assert (seen h = 1) as Hseen by (vm_compute in Hh; by injection Hh as <-).
  assert (r = Some (Ok [7])) as -> by (vm_compute in Hs; by injection Hs as _ <-).
  exists s', h. split; [done|]. split; [done|]. split; [done|].
  refine (cached_lock_reads id id _ [] demo_lock 1 (ASync 1) s' (Ok [7]) h _ Hh Hs); [done|].
  apply (lock_run_rtc [(0, AClone); (0, AWrite 0); (0, ADrop (λ v, (true, v ++ [7]))); (1, ARead 0);
    (1, ASee 0); (1, ARead 1)]). vm_compute. reflexivity.
Defined.
