(* ===== verification/OutputSenders.v ===== *)
(** * The senders of output ports (ports/output/sender.rs)

    What an output port is connected to: inputs of models, event sinks and
    replier ports, each possibly behind a map or a filter.  Sending gives a
    future, which borrows its sender until it is dropped.

    What the senders use is an interface on a world [W]: the futures of a
    mailbox's channel ([channel::Sender::send], see Channel) and the reusable
    reply channels of the [multishot] crate.  The closure that a sender puts in
    a mailbox is a [Message]: the call of the model's method and, for a query,
    the reply sender that it uses when the method returns.  A writer of an
    event sink is the effect of its [write]. *)

From stdpp Require Import base option list numbers.
From S2P Require Import Prelude.

Section Interface.
Context (Addr Call QCall Reply SendFut Rx W : Type).

Inductive Message := EventCall (call : Call) | QueryCall (call : QCall) (reply_sender : Rx).

(** A poll of a channel's future: pending, sent, or the mailbox is gone.
    [rx_sender]: [multishot::Receiver::sender], none when the last sender is
    still alive; [rx_poll]: a poll of [multishot::Receiver::recv], an error
    when the sender was dropped. *)
Class PortWorld := {
  ch_send : Addr → Message → SendFut;
  ch_poll : SendFut → W → SendFut * W * option (result unit unit);
  ch_drop : SendFut → W → W;
  rx_new : W → Rx * W;
  rx_sender : Rx → W → option W;
  rx_poll : Rx → W → W * option (result Reply unit);
}.
End Interface.
Arguments EventCall {Call QCall Rx}.
Arguments QueryCall {Call QCall Rx}.
Arguments ch_send {Addr Call QCall Reply SendFut Rx W _}.
Arguments ch_poll {Addr Call QCall Reply SendFut Rx W _}.
Arguments ch_drop {Addr Call QCall Reply SendFut Rx W _}.
Arguments rx_new {Addr Call QCall Reply SendFut Rx W _}.
Arguments rx_sender {Addr Call QCall Reply SendFut Rx W _}.
Arguments rx_poll {Addr Call QCall Reply SendFut Rx W _}.

(** [RecycledFuture]: a future with the box it was given; the box is lent by
    the sender at [lender_box]. *)
Record RecycledFuture (F : Type) := mkRecycled { fut : F; lender_box : nat }.
Arguments mkRecycled {F}.
Arguments fut {F}.
Arguments lender_box {F}.

Section Senders.
Context {Addr Call QCall Reply SendFut Rx W : Type}.
Context `{PW : PortWorld Addr Call QCall Reply SendFut Rx W}.

(** [Poll] of a future of a sender: [poll] and [Drop]. *)
Definition rf_poll {F R : Type} (poll : F → W → F * W * option R) (self : RecycledFuture F) (w : W) :
    RecycledFuture F * W * option R :=
  let '(f, w, p) := poll (fut self) w in (mkRecycled f (lender_box self), w, p).

(** ** Futures *)

Inductive EventFut := ESend (send_fut : SendFut) | EWrite (write : W → W).

Definition event_poll (f : EventFut) (w : W) : EventFut * W * option (result unit unit) :=
  match f with
  | ESend f => let '(f, w, p) := ch_poll f w in (ESend f, w, p)
  | EWrite write => (f, write w, Some (Ok tt))
  end.

Definition event_drop (f : EventFut) (w : W) : W :=
  match f with ESend f => ch_drop f w | EWrite _ => w end.

(** The future of a query: the message is sent, then its reply is awaited. *)
Inductive QueryFut (R : Type) :=
| QSend (send_fut : SendFut) (reply_receiver : Rx) (reply_map : Reply → R)
| QRecv (reply_receiver : Rx) (reply_map : Reply → R).
Arguments QSend {R}.
Arguments QRecv {R}.

Definition recv_poll {R : Type} (rx : Rx) (reply_map : Reply → R) (w : W) :
    QueryFut R * W * option (result R unit) :=
  let (w, p) := rx_poll rx w in
  (QRecv rx reply_map, w, result_map reply_map <$> p).

Definition query_poll {R : Type} (f : QueryFut R) (w : W) :
    QueryFut R * W * option (result R unit) :=
  match f with
  | QSend f rx reply_map =>
      let '(f, w, p) := ch_poll f w in
      match p with
      | None => (QSend f rx reply_map, w, None)
      | Some (Err e) => (QSend f rx reply_map, w, Some (Err e))
      | Some (Ok _) => recv_poll rx reply_map w
      end
  | QRecv rx reply_map => recv_poll rx reply_map w
  end.

Definition query_drop {R : Type} (f : QueryFut R) (w : W) : W :=
  match f with QSend f _ _ => ch_drop f w | QRecv _ _ => w end.

(** ** Senders of events

    [fut_storage]: whether the sender holds the box of its last future. *)

Section Events.
Context {T : Type}.

Record InputSender := mkInputSender { is_func : T → Call; is_sender : Addr; is_storage : bool }.

Definition InputSender_new (func : T → Call) (sender : Addr) : InputSender :=
  mkInputSender func sender false.

Definition InputSender_send_owned (arg : T) (self : InputSender) : option EventFut * InputSender :=
  let func := is_func self in
  let f := ch_send (is_sender self) (EventCall (func arg)) in
  (Some (ESend f), mkInputSender (is_func self) (is_sender self) false).

Definition InputSender_send (arg : T) (self : InputSender) : option EventFut * InputSender :=
  InputSender_send_owned arg self.

Definition InputSender_clone (self : InputSender) : InputSender :=
  mkInputSender (is_func self) (is_sender self) false.

Record MapInputSender (U : Type) := mkMapInputSender {
  mis_map : T → U; mis_func : U → Call; mis_sender : Addr; mis_storage : bool;
}.
Arguments mkMapInputSender {U}.
Arguments mis_map {U}.
Arguments mis_func {U}.
Arguments mis_sender {U}.
Arguments mis_storage {U}.

Definition MapInputSender_new {U : Type} (map : T → U) (func : U → Call) (sender : Addr) :
    MapInputSender U :=
  mkMapInputSender map func sender false.

Definition MapInputSender_send {U : Type} (arg : T) (self : MapInputSender U) :
    option EventFut * MapInputSender U :=
  let func := mis_func self in
  let arg := mis_map self arg in
  let f := ch_send (mis_sender self) (EventCall (func arg)) in
  (Some (ESend f), mkMapInputSender (mis_map self) (mis_func self) (mis_sender self) false).

Definition MapInputSender_clone {U : Type} (self : MapInputSender U) : MapInputSender U :=
  mkMapInputSender (mis_map self) (mis_func self) (mis_sender self) false.

Record FilterMapInputSender (U : Type) := mkFilterMapInputSender {
  fis_filter_map : T → option U; fis_func : U → Call; fis_sender : Addr; fis_storage : bool;
}.
Arguments mkFilterMapInputSender {U}.
Arguments fis_filter_map {U}.
Arguments fis_func {U}.
Arguments fis_sender {U}.
Arguments fis_storage {U}.

Definition FilterMapInputSender_new {U : Type} (filter_map : T → option U) (func : U → Call)
    (sender : Addr) : FilterMapInputSender U :=
  mkFilterMapInputSender filter_map func sender false.

Definition FilterMapInputSender_send {U : Type} (arg : T) (self : FilterMapInputSender U) :
    option EventFut * FilterMapInputSender U :=
  match fis_filter_map self arg with
  | None => (None, self)
  | Some arg =>
      let func := fis_func self in
      let f := ch_send (fis_sender self) (EventCall (func arg)) in
      (Some (ESend f),
       mkFilterMapInputSender (fis_filter_map self) (fis_func self) (fis_sender self) false)
  end.

Definition FilterMapInputSender_clone {U : Type} (self : FilterMapInputSender U) :
    FilterMapInputSender U :=
  mkFilterMapInputSender (fis_filter_map self) (fis_func self) (fis_sender self) false.

Record EventSinkSender := mkEventSinkSender { ess_writer : T → W → W; ess_storage : bool }.

Definition EventSinkSender_new (writer : T → W → W) : EventSinkSender :=
  mkEventSinkSender writer false.

(** The event is written when the future is first polled. *)
Definition EventSinkSender_send_owned (arg : T) (self : EventSinkSender) :
    option EventFut * EventSinkSender :=
  let writer := ess_writer self in
  (Some (EWrite (writer arg)), mkEventSinkSender (ess_writer self) false).

Definition EventSinkSender_send (arg : T) (self : EventSinkSender) :
    option EventFut * EventSinkSender :=
  EventSinkSender_send_owned arg self.

Definition EventSinkSender_clone (self : EventSinkSender) : EventSinkSender :=
  mkEventSinkSender (ess_writer self) false.

Record MapEventSinkSender (U : Type) := mkMapEventSinkSender {
  mes_writer : U → W → W; mes_map : T → U; mes_storage : bool;
}.
Arguments mkMapEventSinkSender {U}.
Arguments mes_writer {U}.
Arguments mes_map {U}.
Arguments mes_storage {U}.

Definition MapEventSinkSender_new {U : Type} (map : T → U) (writer : U → W → W) :
    MapEventSinkSender U :=
  mkMapEventSinkSender writer map false.

Definition MapEventSinkSender_send {U : Type} (arg : T) (self : MapEventSinkSender U) :
    option EventFut * MapEventSinkSender U :=
  let writer := mes_writer self in
  let arg := mes_map self arg in
  (Some (EWrite (writer arg)), mkMapEventSinkSender (mes_writer self) (mes_map self) false).

Definition MapEventSinkSender_clone {U : Type} (self : MapEventSinkSender U) :
    MapEventSinkSender U :=
  mkMapEventSinkSender (mes_writer self) (mes_map self) false.

Record FilterMapEventSinkSender (U : Type) := mkFilterMapEventSinkSender {
  fes_writer : U → W → W; fes_filter_map : T → option U; fes_storage : bool;
}.
Arguments mkFilterMapEventSinkSender {U}.
Arguments fes_writer {U}.
Arguments fes_filter_map {U}.
Arguments fes_storage {U}.

Definition FilterMapEventSinkSender_new {U : Type} (filter_map : T → option U)
    (writer : U → W → W) : FilterMapEventSinkSender U :=
  mkFilterMapEventSinkSender writer filter_map false.

Definition FilterMapEventSinkSender_send {U : Type} (arg : T) (self : FilterMapEventSinkSender U) :
    option EventFut * FilterMapEventSinkSender U :=
  let writer := fes_writer self in
  match fes_filter_map self arg with
  | None => (None, self)
  | Some arg =>
      (Some (EWrite (writer arg)),
       mkFilterMapEventSinkSender (fes_writer self) (fes_filter_map self) false)
  end.

Definition FilterMapEventSinkSender_clone {U : Type} (self : FilterMapEventSinkSender U) :
    FilterMapEventSinkSender U :=
  mkFilterMapEventSinkSender (fes_writer self) (fes_filter_map self) false.
End Events.

(** ** Senders of queries

    [receiver] is [None] as long as the reply channel was never used.  All
    replies travel as [Reply]; the reply type of a replier is given by a
    function on it. *)

Section Queries.
Context {T R : Type}.

(** [reply_receiver.sender().unwrap()]. *)
Definition reply_sender (receiver : option Rx) (w : W) : outcome (Rx * W) :=
  let (rx, w) := match receiver with Some rx => (rx, w) | None => rx_new w end in
  let! w := unwrap (rx_sender rx w) in
  Done (rx, w).

Record ReplierSender := mkReplierSender {
  rs_func : T → QCall; rs_reply : Reply → R; rs_sender : Addr; rs_receiver : option Rx;
  rs_storage : bool;
}.

Definition ReplierSender_new (func : T → QCall) (reply : Reply → R) (sender : Addr) :
    ReplierSender :=
  mkReplierSender func reply sender None false.

Definition ReplierSender_send_owned (arg : T) (self : ReplierSender) (w : W) :
    outcome (option (QueryFut R) * ReplierSender * W) :=
  let func := rs_func self in
  let! (rx, w) := reply_sender (rs_receiver self) w in
  let send_fut := ch_send (rs_sender self) (QueryCall (func arg) rx) in
  Done (Some (QSend send_fut rx (rs_reply self)),
        mkReplierSender (rs_func self) (rs_reply self) (rs_sender self) (Some rx) false, w).

Definition ReplierSender_send (arg : T) (self : ReplierSender) (w : W) :
    outcome (option (QueryFut R) * ReplierSender * W) :=
  ReplierSender_send_owned arg self w.

Definition ReplierSender_clone (self : ReplierSender) : ReplierSender :=
  mkReplierSender (rs_func self) (rs_reply self) (rs_sender self) None false.

Record MapReplierSender (U : Type) := mkMapReplierSender {
  mrs_query_map : T → U; mrs_reply_map : Reply → R; mrs_func : U → QCall; mrs_sender : Addr;
  mrs_receiver : option Rx; mrs_storage : bool;
}.
Arguments mkMapReplierSender {U}.
Arguments mrs_query_map {U}.
Arguments mrs_reply_map {U}.
Arguments mrs_func {U}.
Arguments mrs_sender {U}.
Arguments mrs_receiver {U}.
Arguments mrs_storage {U}.

Definition MapReplierSender_new {U : Type} (query_map : T → U) (reply_map : Reply → R)
    (func : U → QCall) (sender : Addr) : MapReplierSender U :=
  mkMapReplierSender query_map reply_map func sender None false.

Definition MapReplierSender_send {U : Type} (arg : T) (self : MapReplierSender U) (w : W) :
    outcome (option (QueryFut R) * MapReplierSender U * W) :=
  let func := mrs_func self in
  let arg := mrs_query_map self arg in
  let! (rx, w) := reply_sender (mrs_receiver self) w in
  let send_fut := ch_send (mrs_sender self) (QueryCall (func arg) rx) in
  Done (Some (QSend send_fut rx (mrs_reply_map self)),
        mkMapReplierSender (mrs_query_map self) (mrs_reply_map self) (mrs_func self)
          (mrs_sender self) (Some rx) false, w).

Definition MapReplierSender_clone {U : Type} (self : MapReplierSender U) : MapReplierSender U :=
  mkMapReplierSender (mrs_query_map self) (mrs_reply_map self) (mrs_func self) (mrs_sender self)
    None false.

Record FilterMapReplierSender (U : Type) := mkFilterMapReplierSender {
  frs_query_filter_map : T → option U; frs_reply_map : Reply → R; frs_func : U → QCall;
  frs_sender : Addr; frs_receiver : option Rx; frs_storage : bool;
}.
Arguments mkFilterMapReplierSender {U}.
Arguments frs_query_filter_map {U}.
Arguments frs_reply_map {U}.
Arguments frs_func {U}.
Arguments frs_sender {U}.
Arguments frs_receiver {U}.
Arguments frs_storage {U}.

Definition FilterMapReplierSender_new {U : Type} (query_filter_map : T → option U)
    (reply_map : Reply → R) (func : U → QCall) (sender : Addr) : FilterMapReplierSender U :=
  mkFilterMapReplierSender query_filter_map reply_map func sender None false.

Definition FilterMapReplierSender_send {U : Type} (arg : T) (self : FilterMapReplierSender U)
    (w : W) : outcome (option (QueryFut R) * FilterMapReplierSender U * W) :=
  match frs_query_filter_map self arg with
  | None => Done (None, self, w)
  | Some arg =>
      let func := frs_func self in
      let! (rx, w) := reply_sender (frs_receiver self) w in
      let send_fut := ch_send (frs_sender self) (QueryCall (func arg) rx) in
      Done (Some (QSend send_fut rx (frs_reply_map self)),
            mkFilterMapReplierSender (frs_query_filter_map self) (frs_reply_map self)
              (frs_func self) (frs_sender self) (Some rx) false, w)
  end.

Definition FilterMapReplierSender_clone {U : Type} (self : FilterMapReplierSender U) :
    FilterMapReplierSender U :=
  mkFilterMapReplierSender (frs_query_filter_map self) (frs_reply_map self) (frs_func self)
    (frs_sender self) None false.
End Queries.
End Senders.
Arguments EventFut : clear implicits.
Arguments QueryFut : clear implicits.
Arguments QSend {Reply SendFut Rx R}.
Arguments QRecv {Reply SendFut Rx R}.
Arguments InputSender : clear implicits.
Arguments MapInputSender : clear implicits.
Arguments FilterMapInputSender : clear implicits.
Arguments EventSinkSender : clear implicits.
Arguments MapEventSinkSender : clear implicits.
Arguments FilterMapEventSinkSender : clear implicits.
Arguments ReplierSender : clear implicits.
Arguments MapReplierSender : clear implicits.
Arguments FilterMapReplierSender : clear implicits.
Arguments mkMapInputSender {Addr Call T U}.
Arguments mkFilterMapInputSender {Addr Call T U}.
Arguments mkMapEventSinkSender {W T U}.
Arguments mkFilterMapEventSinkSender {W T U}.
Arguments mkMapReplierSender {Addr QCall Reply Rx T R U}.
Arguments mkFilterMapReplierSender {Addr QCall Reply Rx T R U}.
