(* ===== verification/OutputPorts.v ===== *)
(** * Output ports (ports/output.rs, ports/output/broadcaster.rs,
    util/unwrap_or_throw.rs)

    The boxed senders, the broadcasters over them and the ports [Output],
    [Requestor] and [UniRequestor].  An asynchronous method is run by a list of
    polls, as in Broadcast: each poll comes with the change that the rest of
    the program made to the world before it and with the woken tasks.  When
    the list ends before the method has returned, its future is dropped. *)

From stdpp Require Import base option list numbers.
From Stdlib Require Import ZArith Lia.
From S2P Require Import Prelude Broadcast CachedLock OutputSenders.

(** ** The [Sender] trait

    [lend] puts the box of a dropped future back. *)

Class SenderOps (S T F W : Type) := {
  send : T → S → W → outcome (option F * S * W);
  send_owned : T → S → W → outcome (option F * S * W);
  sender_clone : S → S;
  lend : S → S;
}.

Class FutureOps (F R W : Type) := {
  poll_fut : F → W → F * W * option (result R unit);
  drop_fut : F → W → W;
}.

Section Boxed.
Context {Addr Call QCall Reply SendFut Rx W : Type}.
Context `{PW : PortWorld Addr Call QCall Reply SendFut Rx W}.

(** [Box<dyn Sender<T, ()>>]. *)
Inductive EventSender (T : Type) :=
| DInput (s : InputSender Addr Call T)
| DMapInput (U : Type) (s : MapInputSender Addr Call T U)
| DFilterMapInput (U : Type) (s : FilterMapInputSender Addr Call T U)
| DEventSink (s : EventSinkSender W T)
| DMapEventSink (U : Type) (s : MapEventSinkSender W T U)
| DFilterMapEventSink (U : Type) (s : FilterMapEventSinkSender W T U).
Arguments DInput {T}.
Arguments DMapInput {T U}.
Arguments DFilterMapInput {T U}.
Arguments DEventSink {T}.
Arguments DMapEventSink {T U}.
Arguments DFilterMapEventSink {T U}.

(** [Box<dyn Sender<T, R>>] of a query. *)
Inductive QuerySender (T R : Type) :=
| DReplier (s : ReplierSender Addr QCall Reply Rx T R)
| DMapReplier (U : Type) (s : MapReplierSender Addr QCall Reply Rx T R U)
| DFilterMapReplier (U : Type) (s : FilterMapReplierSender Addr QCall Reply Rx T R U).
Arguments DReplier {T R}.
Arguments DMapReplier {T R U}.
Arguments DFilterMapReplier {T R U}.

Abbreviation EventFut := (EventFut SendFut W).
Abbreviation QueryFut := (QueryFut Reply SendFut Rx).

(** Only the two senders that clone their argument define [send_owned]; for
    the others it is [send]. *)
Definition EventSender_send {T : Type} (arg : T) (self : EventSender T) :
    option EventFut * EventSender T :=
  match self with
  | DInput s => let (o, s) := InputSender_send arg s in (o, DInput s)
  | DMapInput s => let (o, s) := MapInputSender_send arg s in (o, DMapInput s)
  | DFilterMapInput s => let (o, s) := FilterMapInputSender_send arg s in (o, DFilterMapInput s)
  | DEventSink s => let (o, s) := EventSinkSender_send arg s in (o, DEventSink s)
  | DMapEventSink s => let (o, s) := MapEventSinkSender_send arg s in (o, DMapEventSink s)
  | DFilterMapEventSink s =>
      let (o, s) := FilterMapEventSinkSender_send arg s in (o, DFilterMapEventSink s)
  end.

Definition EventSender_send_owned {T : Type} (arg : T) (self : EventSender T) :
    option EventFut * EventSender T :=
  match self with
  | DInput s => let (o, s) := InputSender_send_owned arg s in (o, DInput s)
  | DEventSink s => let (o, s) := EventSinkSender_send_owned arg s in (o, DEventSink s)
  | _ => EventSender_send arg self
  end.

Definition EventSender_clone {T : Type} (self : EventSender T) : EventSender T :=
  match self with
  | DInput s => DInput (InputSender_clone s)
  | DMapInput s => DMapInput (MapInputSender_clone s)
  | DFilterMapInput s => DFilterMapInput (FilterMapInputSender_clone s)
  | DEventSink s => DEventSink (EventSinkSender_clone s)
  | DMapEventSink s => DMapEventSink (MapEventSinkSender_clone s)
  | DFilterMapEventSink s => DFilterMapEventSink (FilterMapEventSinkSender_clone s)
  end.

Definition EventSender_lend {T : Type} (self : EventSender T) : EventSender T :=
  match self with
  | DInput (mkInputSender f a _) => DInput (mkInputSender f a true)
  | DMapInput (mkMapInputSender m f a _) => DMapInput (mkMapInputSender m f a true)
  | DFilterMapInput (mkFilterMapInputSender m f a _) =>
      DFilterMapInput (mkFilterMapInputSender m f a true)
  | DEventSink (mkEventSinkSender w _) => DEventSink (mkEventSinkSender w true)
  | DMapEventSink (mkMapEventSinkSender w m _) =>
      DMapEventSink (mkMapEventSinkSender w m true)
  | DFilterMapEventSink (mkFilterMapEventSinkSender w m _) =>
      DFilterMapEventSink (mkFilterMapEventSinkSender w m true)
  end.

Definition QuerySender_send {T R : Type} (arg : T) (self : QuerySender T R) (w : W) :
    outcome (option (QueryFut R) * QuerySender T R * W) :=
  match self with
  | DReplier s => let! (o, s, w) := ReplierSender_send arg s w in Done (o, DReplier s, w)
  | DMapReplier s => let! (o, s, w) := MapReplierSender_send arg s w in Done (o, DMapReplier s, w)
  | DFilterMapReplier s =>
      let! (o, s, w) := FilterMapReplierSender_send arg s w in Done (o, DFilterMapReplier s, w)
  end.

Definition QuerySender_send_owned {T R : Type} (arg : T) (self : QuerySender T R) (w : W) :
    outcome (option (QueryFut R) * QuerySender T R * W) :=
  match self with
  | DReplier s => let! (o, s, w) := ReplierSender_send_owned arg s w in Done (o, DReplier s, w)
  | _ => QuerySender_send arg self w
  end.

Definition QuerySender_clone {T R : Type} (self : QuerySender T R) : QuerySender T R :=
  match self with
  | DReplier s => DReplier (ReplierSender_clone s)
  | DMapReplier s => DMapReplier (MapReplierSender_clone s)
  | DFilterMapReplier s => DFilterMapReplier (FilterMapReplierSender_clone s)
  end.

Definition QuerySender_lend {T R : Type} (self : QuerySender T R) : QuerySender T R :=
  match self with
  | DReplier (mkReplierSender f r a rx _) => DReplier (mkReplierSender f r a rx true)
  | DMapReplier (mkMapReplierSender m r f a rx _) =>
      DMapReplier (mkMapReplierSender m r f a rx true)
  | DFilterMapReplier (mkFilterMapReplierSender m r f a rx _) =>
      DFilterMapReplier (mkFilterMapReplierSender m r f a rx true)
  end.

#[export] Instance EventSender_ops {T : Type} : SenderOps (EventSender T) T EventFut W := {|
  send := λ arg s w, let (o, s) := EventSender_send arg s in Done (o, s, w);
  send_owned := λ arg s w, let (o, s) := EventSender_send_owned arg s in Done (o, s, w);
  sender_clone := EventSender_clone;
  lend := EventSender_lend;
|}.

#[export] Instance QuerySender_ops {T R : Type} : SenderOps (QuerySender T R) T (QueryFut R) W := {|
  send := QuerySender_send;
  send_owned := QuerySender_send_owned;
  sender_clone := QuerySender_clone;
  lend := QuerySender_lend;
|}.

#[export] Instance EventFut_ops : FutureOps EventFut unit W := {|
  poll_fut := event_poll;
  drop_fut := event_drop;
|}.

#[export] Instance QueryFut_ops {R : Type} : FutureOps (QueryFut R) R W := {|
  poll_fut := query_poll;
  drop_fut := query_drop;
|}.
End Boxed.
Arguments EventSender : clear implicits.
Arguments QuerySender : clear implicits.
Arguments DInput {Addr Call W T}.
Arguments DMapInput {Addr Call W T U}.
Arguments DFilterMapInput {Addr Call W T U}.
Arguments DEventSink {Addr Call W T}.
Arguments DMapEventSink {Addr Call W T U}.
Arguments DFilterMapEventSink {Addr Call W T U}.
Arguments DReplier {Addr QCall Reply Rx T R}.
Arguments DMapReplier {Addr QCall Reply Rx T R U}.
Arguments DFilterMapReplier {Addr QCall Reply Rx T R U}.

(** ** The broadcasters *)

(** [outputs] and [storage] are the fields of [Shared]; [storage] says whether
    an empty vector is kept for the next futures.  The task set and the waker
    are behind the woken tasks that come with each poll. *)
Record BroadcasterInner (S R : Type) := mkInner {
  senders : list S;
  outputs : list (option R);
  storage : bool;
}.
Arguments mkInner {S R}.
Arguments senders {S R}.
Arguments outputs {S R}.
Arguments storage {S R}.

Section Broadcaster.
Context {S T F R W : Type} `{SO : SenderOps S T F W} `{FO : FutureOps F R W}.
Abbreviation Inner := (BroadcasterInner S R).
Abbreviation polls := (list (list (list nat) * (W → W))).

Definition inner_default : Inner := mkInner [] [] false.

Definition inner_clone (self : Inner) : Inner :=
  mkInner (sender_clone <$> senders self) (replicate (length (outputs self)) None) false.

Definition inner_add (sender : S) (self : Inner) : outcome Inner :=
  let! _ := rust_assert (Z.of_nat (length (senders self)) <? u32_max - 2)%Z in
  Done (mkInner (senders self ++ [sender]) (outputs self ++ [None]) (storage self)).

Definition inner_len (self : Inner) : nat := length (senders self).

(** [futures]: the future of the sender at [i] borrows it. *)
Fixpoint send_all (i : nat) (arg : T) (l : list S) (w : W) :
    outcome (list (RecycledFuture F) * list S * W) :=
  match l with
  | [] => Done ([], [], w)
  | [sender] =>
      let! (o, sender, w) := send_owned arg sender w in
      Done (option_list (flip mkRecycled i <$> o), [sender], w)
  | sender :: l =>
      let! (o, sender, w) := send arg sender w in
      let! (futs, l, w) := send_all (Datatypes.S i) arg l w in
      Done (option_list (flip mkRecycled i <$> o) ++ futs, sender :: l, w)
  end.

Definition futures (arg : T) (self : Inner) (w : W) :
    outcome (list (RecycledFuture F) * Inner * W) :=
  let! (futs, l, w) := send_all 0 arg (senders self) w in
  Done (futs, mkInner l (outputs self) false, w).

(** Dropping futures: each gives its box back. *)
Definition drop_recycled (f : RecycledFuture F) (self : Inner) (w : W) : Inner * W :=
  (mkInner (alter lend (lender_box f) (senders self)) (outputs self) (storage self),
   drop_fut (fut f) w).

Fixpoint drop_all (futs : list (RecycledFuture F)) (self : Inner) (w : W) : Inner * W :=
  match futs with
  | [] => (self, w)
  | f :: futs => let (self, w) := drop_recycled f self w in drop_all futs self w
  end.

(** [fut.await] on one future. *)
Fixpoint await_one (polls : polls) (f : RecycledFuture F) (w : W) :
    option (result R unit) * RecycledFuture F * W :=
  match polls with
  | [] => (None, f, w)
  | (_, env) :: polls =>
      let '(f, w, p) := rf_poll poll_fut f (env w) in
      match p with Some r => (Some r, f, w) | None => await_one polls f w end
  end.

(** [BroadcastFuture::new(shared, futures).await]. *)
Fixpoint await_all (polls : polls) (this : OutFuture (RecycledFuture F) R) (w : W) :
    outcome (option (result unit unit) * OutFuture (RecycledFuture F) R * W) :=
  match polls with
  | [] => Done (None, this, w)
  | (batches, env) :: polls =>
      let! (this, w, p) := of_poll (rf_poll poll_fut) batches this (env w) in
      match p with
      | BReady r => Done (Some r, this, w)
      | BPending => await_all polls this w
      end
  end.

(** [BroadcastFuture::drop] keeps the vector of the futures. *)
Definition await_many (polls : polls) (futs : list (RecycledFuture F)) (self : Inner) (w : W) :
    outcome (option (result unit unit) * Inner * W) :=
  let! (r, this, w) := await_all polls (of_new (outputs self) futs) w in
  let (self, w) := drop_all (of_futures this) (mkInner (senders self) (of_outputs this) true) w in
  Done (r, self, w).

Definition await_single (polls : polls) (f : RecycledFuture F) (self : Inner) (w : W) :
    option (result R unit) * Inner * W :=
  let '(r, f, w) := await_one polls f w in
  let (self, w) := drop_recycled f self w in
  (r, self, w).

Definition set_output (o : R) (self : Inner) : outcome Inner :=
  let! _ := unwrap (outputs self !! 0%nat) in
  Done (mkInner (senders self) (<[0%nat := Some o]> (outputs self)) (storage self)).

(** The iterator over the replies; the caller takes [taken] of them. *)
Definition take_outputs (taken output_count : nat) (self : Inner) : outcome (list R * Inner) :=
  let n := Nat.min taken output_count in
  let! rs := take_replies (outputs self) n in
  Done (rs, mkInner (senders self)
              (((λ _, None) <$> take n (outputs self)) ++ drop n (outputs self)) (storage self)).

(** The rest of [QueryBroadcaster::broadcast] once the outputs are there. *)
Definition finish_query (taken output_count : nat) (r : option (result unit unit))
    (self : Inner) (w : W) : outcome (option (result (list R) unit) * Inner * W) :=
  match r with
  | None => Done (None, self, w)
  | Some (Err e) => Done (Some (Err e), self, w)
  | Some (Ok _) =>
      let! (rs, self) := take_outputs taken output_count self in
      Done (Some (Ok rs), self, w)
  end.

(** [let output = fut.await?; outputs[0] = Some(output)]. *)
Definition store_single (p : option (result R unit) * Inner * W) :
    outcome (option (result unit unit) * Inner * W) :=
  let '(r, self, w) := p in
  match r with
  | None => Done (None, self, w)
  | Some (Err e) => Done (Some (Err e), self, w)
  | Some (Ok o) => let! self := set_output o self in Done (Some (Ok tt), self, w)
  end.

(** [QueryBroadcaster::broadcast].  The method starts with its first poll. *)
Definition query_broadcast (taken : nat) (polls : polls) (arg : T) (self : Inner) (w : W) :
    outcome (option (result (list R) unit) * Inner * W) :=
  match polls with
  | [] => Done (None, self, w)
  | (batches, env) :: polls =>
      let w := env w in
      let polls := (batches, id) :: polls in
      match senders self with
      | [] => finish_query taken 0 (Some (Ok tt)) self w
      | [sender] =>
          let! (o, sender, w) := send_owned arg sender w in
          let self := mkInner [sender] (outputs self) (storage self) in
          match o with
          | Some f =>
              let! (r, self, w) := store_single (await_single polls (mkRecycled f 0) self w) in
              finish_query taken 1 r self w
          | None => finish_query taken 0 (Some (Ok tt)) self w
          end
      | _ =>
          let! (futs, self, w) := futures arg self w in
          let output_count := length futs in
          match futs with
          | [] => finish_query taken output_count (Some (Ok tt)) self w
          | [f] =>
              let! (r, self, w) := store_single (await_single polls f self w) in
              finish_query taken output_count r self w
          | _ =>
              let! (r, self, w) := await_many polls futs self w in
              finish_query taken output_count r self w
          end
      end
  end.
End Broadcaster.

Section Events.
Context {S T F W : Type} `{SO : SenderOps S T F W} `{FO : FutureOps F unit W}.
Abbreviation Inner := (BroadcasterInner S unit).

(** [EventBroadcaster::broadcast]. *)
Definition event_broadcast (polls : list (list (list nat) * (W → W))) (arg : T) (self : Inner)
    (w : W) : outcome (option (result unit unit) * Inner * W) :=
  match polls with
  | [] => Done (None, self, w)
  | (batches, env) :: polls =>
      let w := env w in
      let polls := (batches, id) :: polls in
      match senders self with
      | [] => Done (Some (Ok tt), self, w)
      | [sender] =>
          let! (o, sender, w) := send_owned arg sender w in
          let self := mkInner [sender] (outputs self) (storage self) in
          match o with
          | None => Done (Some (Ok tt), self, w)
          | Some f => Done (await_single polls (mkRecycled f 0) self w)
          end
      | _ =>
          let! (futs, self, w) := futures arg self w in
          match futs with
          | [] => Done (Some (Ok tt), self, w)
          | [f] => Done (await_single polls f self w)
          | _ => await_many polls futs self w
          end
      end
  end.
End Events.

(** ** Ports

    [unwrap_or_throw]: a panic whose payload is the error itself. *)

Inductive unwound (A E : Type) := Returned (a : A) | Thrown (payload : E).
Arguments Returned {A E}.
Arguments Thrown {A E}.

Definition unwrap_or_throw {A E : Type} (r : result A E) : unwound A E :=
  match r with Ok v => Returned v | Err e => Thrown e end.

(** [Output] and [Requestor]: the handles of a cached lock on a broadcaster.
    A call is a sequence of steps of its handle, interleaved with those of the
    clones of the port: [connect] takes the lock ([PWrite]) and adds a sender
    ([PAdd]); [send] loads the epoch ([PLoad]), synchronizes if it is behind
    ([PSync]), and broadcasts from its cache ([PBroadcast]).  [PUnwind]: the
    guard is dropped by a panic, when the lock is found poisoned. *)

Section Port.
Context {S T F R W O : Type} `{SO : SenderOps S T F W}.
Abbreviation Inner := (BroadcasterInner S R).
Abbreviation polls := (list (list (list nat) * (W → W))).
Context (broadcast : polls → T → Inner → W → outcome (option (result O unit) * Inner * W)).

Inductive PortAct :=
| PWrite (e : nat)
| PAdd (sender : S)
| PUnwind
| PLoad (e : nat)
| PSync (e : nat)
| PBroadcast (polls : polls) (arg : T)
| PClone
| PSee (j : nat).

Definition port_new : Lock Inner := lock_new inner_clone inner_default.

(** [broadcaster.add(sender)] through the write guard. *)
Definition add_guarded (sender : S) (self : Inner) : bool * Inner :=
  match inner_add sender self with Done self => (true, self) | _ => (false, self) end.

Definition port_broadcast (i : nat) (polls : polls) (arg : T) (p : Lock Inner) (w : W) :
    outcome (option (unwound O unit) * Lock Inner * W) :=
  match handles p !! i with
  | Some (mkHandle v e n _ HIdle) =>
      let! (r, v, w) := broadcast polls arg v w in
      Done (unwrap_or_throw <$> r, set_handle i (mkHandle v e n true HIdle) p, w)
  | _ => Done (None, p, w)
  end.

Definition port_step (i : nat) (a : PortAct) (p : Lock Inner) (w : W) :
    option (Lock Inner * W * option (result Inner unit)) :=
  let on_lock a := '(p, r) ← lock_step inner_clone i a p; Some (p, w, r) in
  match a with
  | PWrite e => on_lock (AWrite e)
  | PAdd sender => if poisoned p then None else on_lock (ADrop (add_guarded sender))
  | PUnwind => if poisoned p then on_lock (ADrop (λ v, (false, v))) else None
  | PLoad e => on_lock (ARead e)
  | PSync e => on_lock (ASync e)
  | PClone => on_lock AClone
  | PSee j => on_lock (ASee j)
  | PBroadcast polls arg =>
      match port_broadcast i polls arg p w with
      | Done (_, p, w) => Some (p, w, None)
      | _ => None
      end
  end.

Definition port_next (x y : Lock Inner * W) : Prop :=
  ∃ i a r, port_step i a x.1 x.2 = Some (y.1, y.2, r).
End Port.
Arguments PortAct : clear implicits.

(** *** Outputs *)

Section Output.
Context {Addr Call QCall Reply SendFut Rx W T : Type}.
Context `{PW : PortWorld Addr Call QCall Reply SendFut Rx W}.
Abbreviation Sender := (EventSender Addr Call W T).

Definition Output_new : Lock (BroadcasterInner Sender unit) := port_new.

Definition Output_connect (input : T → Call) (address : Addr) : PortAct Sender T W :=
  PAdd (DInput (InputSender_new input address)).
Definition Output_connect_sink (writer : T → W → W) : PortAct Sender T W :=
  PAdd (DEventSink (EventSinkSender_new writer)).
Definition Output_map_connect {U : Type} (map : T → U) (input : U → Call) (address : Addr) :
    PortAct Sender T W :=
  PAdd (DMapInput (MapInputSender_new map input address)).
Definition Output_map_connect_sink {U : Type} (map : T → U) (writer : U → W → W) :
    PortAct Sender T W :=
  PAdd (DMapEventSink (MapEventSinkSender_new map writer)).
Definition Output_filter_map_connect {U : Type} (filter_map : T → option U) (input : U → Call)
    (address : Addr) : PortAct Sender T W :=
  PAdd (DFilterMapInput (FilterMapInputSender_new filter_map input address)).
Definition Output_filter_map_connect_sink {U : Type} (filter_map : T → option U)
    (writer : U → W → W) : PortAct Sender T W :=
  PAdd (DFilterMapEventSink (FilterMapEventSinkSender_new filter_map writer)).

(** [Output::send], after the cache is synchronized. *)
Definition Output_send := port_broadcast (S := Sender) (R := unit) event_broadcast.
Definition output_next := port_next (S := Sender) (R := unit) event_broadcast.
End Output.

(** *** Requestors *)

Section Requestor.
Context {Addr Call QCall Reply SendFut Rx W T R : Type}.
Context `{PW : PortWorld Addr Call QCall Reply SendFut Rx W}.
Abbreviation Sender := (QuerySender Addr QCall Reply Rx T R).

Definition Requestor_new : Lock (BroadcasterInner Sender R) := port_new.

Definition Requestor_connect (replier : T → QCall) (reply : Reply → R) (address : Addr) :
    PortAct Sender T W :=
  PAdd (DReplier (ReplierSender_new replier reply address)).
Definition Requestor_map_connect {U : Type} (query_map : T → U) (reply_map : Reply → R)
    (replier : U → QCall) (address : Addr) : PortAct Sender T W :=
  PAdd (DMapReplier (MapReplierSender_new query_map reply_map replier address)).
Definition Requestor_filter_map_connect {U : Type} (query_filter_map : T → option U)
    (reply_map : Reply → R) (replier : U → QCall) (address : Addr) : PortAct Sender T W :=
  PAdd (DFilterMapReplier
          (FilterMapReplierSender_new query_filter_map reply_map replier address)).

(** [Requestor::send], after the cache is synchronized; the caller takes
    [taken] replies. *)
Definition Requestor_send (taken : nat) :=
  port_broadcast (S := Sender) (R := R) (query_broadcast taken).
Definition requestor_next (taken : nat) :=
  port_next (S := Sender) (R := R) (query_broadcast taken).

(** [UniRequestor]: a single sender. *)
Definition UniRequestor_new (replier : T → QCall) (reply : Reply → R) (address : Addr) : Sender :=
  DReplier (ReplierSender_new replier reply address).
Definition UniRequestor_with_map {U : Type} (query_map : T → U) (reply_map : Reply → R)
    (replier : U → QCall) (address : Addr) : Sender :=
  DMapReplier (MapReplierSender_new query_map reply_map replier address).
Definition UniRequestor_with_filter_map {U : Type} (query_filter_map : T → option U)
    (reply_map : Reply → R) (replier : U → QCall) (address : Addr) : Sender :=
  DFilterMapReplier (FilterMapReplierSender_new query_filter_map reply_map replier address).

(** [UniRequestor::send]; [None] when its future is dropped. *)
Definition UniRequestor_send (polls : list (list (list nat) * (W → W))) (arg : T) (self : Sender)
    (w : W) : outcome (option (unwound (option R) unit) * Sender * W) :=
  match polls with
  | [] => Done (None, self, w)
  | (batches, env) :: polls =>
      let! (o, self, w) := QuerySender_send_owned arg self (env w) in
      match o with
      | None => Done (Some (Returned None), self, w)
      | Some f =>
          let '(r, f, w) := await_one ((batches, id) :: polls) (mkRecycled f 0) w in
          let self := QuerySender_lend self in
          let w := query_drop (fut f) w in
          Done ((λ r, unwrap_or_throw (result_map Some r)) <$> r, self, w)
      end
  end.
End Requestor.
