(* ===== verification/OutputFacts.v ===== *)
(** * Proofs about output ports

    Queries through an output port, on the interfaces of OutputSenders: what a
    requestor returns, and when its reply channels can be used again. *)

From stdpp Require Import base option list numbers relations sets.
From Stdlib Require Import ZArith Lia.
From S2P Require Import Prelude Broadcast CachedLock OutputSenders OutputPorts.

(** ** Invariants of a broadcast future *)

Section Await.
Context {F R W : Type} `{FO : FutureOps F R W}.
Abbreviation Fut := (RecycledFuture F).
Context (P : OutFuture Fut R → W → Prop).
Hypothesis P_state : ∀ s this w, P this w → P (of_set_state s this) w.
Hypothesis P_one : ∀ i this w this' w' b,
  of_poll_one (rf_poll poll_fut) i this w = Done (this', w', b) → P this w → P this' w'.

Lemma of_poll_tasks_pres step idxs this w this' w' b :
  (∀ i this w this' w' b, step i this w = Done (this', w', b) → P this w → P this' w') →
  of_poll_tasks step idxs this w = Done (this', w', b) → P this w → P this' w'.
Proof.
  intros Hstep. revert this w. induction idxs as [|i idxs IH]; intros this w; simpl.
  { by intros [= <- <- <-]. }
  destruct (step i this w) as [[[t1 w1] f1]| |] eqn:E1; simpl; [|done..].
  intros Hr HP. specialize (Hstep _ _ _ _ _ _ E1 HP). destruct f1; [by simplify_eq|].
  by eapply IH.
Qed.

Lemma of_poll_task_pres i this w this' w' b :
  of_poll_task (rf_poll poll_fut) i this w = Done (this', w', b) → P this w → P this' w'.
Proof.
  unfold of_poll_task. destruct (of_outputs this !! i) as [[r|]|]; simpl; [|eauto|done].
  by intros [= <- <- <-].
Qed.

Lemma of_poll_loop_pres batches this w this' w' p :
  of_poll_loop (rf_poll poll_fut) batches this w = Done (this', w', p) → P this w → P this' w'.
Proof.
  revert this w. induction batches as [|b batches IH]; intros this w; simpl.
  { by intros [= <- <- <-]. }
  destruct (of_poll_tasks _ b this w) as [[[t1 w1] f1]| |] eqn:E1; simpl; [|done..].
  intros Hr HP. pose proof (of_poll_tasks_pres _ _ _ _ _ _ _ of_poll_task_pres E1 HP) as H1.
  destruct f1; [by simplify_eq|]. destruct (of_count t1 =? 0); [|by eapply IH].
  simplify_eq. by apply P_state.
Qed.

Lemma of_poll_pres batches this w this' w' p :
  of_poll (rf_poll poll_fut) batches this w = Done (this', w', p) → P this w → P this' w'.
Proof.
  unfold of_poll. destruct (negb _); simpl; [|done]. case_bool_decide; [|apply of_poll_loop_pres].
  destruct (of_poll_tasks _ _ this w) as [[[t1 w1] f1]| |] eqn:E1; simpl; [|done..].
  intros Hr HP. pose proof (of_poll_tasks_pres _ _ _ _ _ _ _ P_one E1 HP) as H1.
  destruct f1; [by simplify_eq|]. destruct (of_count t1 =? 0).
  - simplify_eq. by apply P_state.
  - eapply of_poll_loop_pres; [done|]. by apply P_state.
Qed.

Lemma await_all_pres polls this w r this' w' :
  Forall (λ p, ∀ this w, P this w → P this (p.2 w)) polls →
  await_all polls this w = Done (r, this', w') → P this w → P this' w'.
Proof.
  intros Henv. revert this w. induction Henv as [|[b env] polls He _ IH]; intros this w; simpl.
  { by intros [= <- <- <-]. }
  destruct (of_poll _ b this (env w)) as [[[t1 w1] p1]| |] eqn:E1; simpl; [|done..].
  intros Hr HP. pose proof (of_poll_pres _ _ _ _ _ _ E1 (He _ _ HP)) as H1.
  destruct p1; [by simplify_eq|by eapply IH].
Qed.
End Await.

(** A broadcast future that is awaited gives what [of_drive] gives. *)
Lemma of_drive_await {F R W : Type} `{FO : FutureOps F R W} polls
    (this : OutFuture (RecycledFuture F) R) (w : W) :
  of_drive (rf_poll poll_fut) polls this w =
  let! (r, this, w) := await_all polls this w in
  match r with
  | None => Done (None, w)
  | Some (Err e) => Done (Some (Err e), w)
  | Some (Ok _) =>
      let! rs := take_replies (of_outputs this) (length (of_futures this)) in
      Done (Some (Ok rs), w)
  end.
Proof.
  revert this w. induction polls as [|[b env] polls IH]; intros this w; simpl; [done|].
  destruct (of_poll _ b this (env w)) as [[[t1 w1] p1]| |]; simpl; [|done..].
  by destruct p1 as [[[]|e]|]; simpl; [..|apply IH].
Qed.

Lemma await_all_ok {F R W : Type} `{FO : FutureOps F R W} polls outputs futs (w : W) :
  length futs ≤ length outputs → batches_ok (length futs) polls →
  ∃ r this w', await_all (F := F) (R := R) polls (of_new outputs futs) w = Done (r, this, w') ∧
    (r = Some (Ok tt) → ∃ rs, take_replies (of_outputs this) (length (of_futures this)) = Done rs).
Proof.
  intros Hl Hb.
  destruct (bf_drive_ok (rf_poll poll_fut) (λ (_ : RecycledFuture F) (_ : R), True) futs polls
    (bf_new futs) w ltac:(done) ltac:(done)) as (o & w' & Hd & _); [apply bf_new_ok|done|done|].
  rewrite <-(of_drive_bf_drive _ outputs) in Hd by done. rewrite of_drive_await in Hd.
  destruct (await_all polls _ w) as [[[r this] w1]| |]; simpl in Hd; [|done..].
  exists r, this, w1. split; [done|]. intros ->.
  destruct (take_replies _ _); [|done..]. eauto.
Qed.

Lemma take_replies_lookup {R} (outs : list (option R)) n rs :
  n ≤ length outs → take_replies outs n = Done rs →
  length rs = n ∧ ∀ i r, rs !! i = Some r → outs !! i = Some (Some r).
Proof.
  revert n rs. induction outs as [|o outs IH]; intros [|n] rs Hl; simpl in *; try lia;
    [by intros [= <-]..|].
  destruct o as [r|]; simpl; [|done].
  destruct (take_replies outs n) as [rs'| |] eqn:E; simpl; [|done..]. intros [= <-].
  destruct (IH n rs' ltac:(lia) E) as [<- Hlk]. split; [done|]. intros [|i] r'; simpl; [congruence|].
  apply Hlk.
Qed.

Lemma take_replies_take {R} (outs : list (option R)) n k rs :
  take_replies outs n = Done rs → take_replies outs (Nat.min k n) = Done (take (Nat.min k n) rs).
Proof.
  revert n k rs. induction outs as [|o outs IH]; intros [|n] [|k] rs; simpl; try done;
    [by intros [= <-]..|].
  destruct o as [r|]; simpl; [|done].
  destruct (take_replies outs n) as [rs'| |] eqn:E; simpl; [|done..]. intros [= <-].
  by rewrite (IH n k rs' E).
Qed.

(** ** What the reply channels and the mailboxes promise

    [rx_live]: the receiver was made.  A sender is available when a receiver
    is new and again once a call of [recv] has returned; only [sender] takes
    it away. *)

Section Laws.
Context (Addr Call QCall Reply SendFut Rx W : Type).
Context `{PW : PortWorld Addr Call QCall Reply SendFut Rx W}.

Class PortLaws (rx_live : Rx → W → Prop) := {
  rx_new_fresh : ∀ w rx w', rx_new w = (rx, w') →
    ¬ rx_live rx w ∧ rx_live rx w' ∧ is_Some (rx_sender rx w') ∧
    ∀ rx', rx_live rx' w →
      rx_live rx' w' ∧ (is_Some (rx_sender rx' w) → is_Some (rx_sender rx' w'));
  rx_sender_frame : ∀ rx w w', rx_sender rx w = Some w' →
    ∀ rx', rx_live rx' w →
      rx_live rx' w' ∧ (rx' ≠ rx → is_Some (rx_sender rx' w) → is_Some (rx_sender rx' w'));
  rx_poll_frame : ∀ rx w w' p, rx_poll rx w = (w', p) → ∀ rx', rx_live rx' w →
    rx_live rx' w' ∧ (is_Some (rx_sender rx' w) → is_Some (rx_sender rx' w'));
  rx_poll_ready : ∀ rx w w' r, rx_live rx w → rx_poll rx w = (w', Some r) →
    is_Some (rx_sender rx w');
  ch_poll_frame : ∀ f w f' w' p, ch_poll f w = (f', w', p) → ∀ rx, rx_live rx w →
    rx_live rx w' ∧ (is_Some (rx_sender rx w) → is_Some (rx_sender rx w'));
  ch_drop_frame : ∀ f w rx, rx_live rx w →
    rx_live rx (ch_drop f w) ∧ (is_Some (rx_sender rx w) → is_Some (rx_sender rx (ch_drop f w)));
}.
End Laws.
Arguments PortLaws {Addr Call QCall Reply SendFut Rx W PW}.
Arguments rx_new_fresh {Addr Call QCall Reply SendFut Rx W PW rx_live _}.
Arguments rx_sender_frame {Addr Call QCall Reply SendFut Rx W PW rx_live _}.
Arguments rx_poll_frame {Addr Call QCall Reply SendFut Rx W PW rx_live _}.
Arguments rx_poll_ready {Addr Call QCall Reply SendFut Rx W PW rx_live _}.
Arguments ch_poll_frame {Addr Call QCall Reply SendFut Rx W PW rx_live _}.
Arguments ch_drop_frame {Addr Call QCall Reply SendFut Rx W PW rx_live _}.

Section Queries.
Context {Addr Call QCall Reply SendFut Rx W : Type}.
Context `{PW : PortWorld Addr Call QCall Reply SendFut Rx W}.
Context `{!EqDecision Rx} (rx_live : Rx → W → Prop) `{PL : !PortLaws rx_live}.
Context {T R : Type}.
Abbreviation QSender := (QuerySender Addr QCall Reply Rx T R).
Abbreviation QFut := (QueryFut Reply SendFut Rx R).
Abbreviation Inner := (BroadcasterInner QSender R).

(** What a connection asks, and of whom; [None] if it filters the query out. *)
Definition asks (arg : T) (s : QSender) : option (Addr * QCall * (Reply → R)) :=
  match s with
  | DReplier s => Some (rs_sender s, rs_func s arg, rs_reply s)
  | @DMapReplier _ _ _ _ _ _ U s =>
      Some (mrs_sender U s, mrs_func U s (mrs_query_map U s arg), mrs_reply_map U s)
  | @DFilterMapReplier _ _ _ _ _ _ U s =>
      (λ x, (frs_sender U s, frs_func U s x, frs_reply_map U s)) <$> frs_query_filter_map U s arg
  end.

Definition receiver (s : QSender) : option Rx :=
  match s with
  | DReplier s => rs_receiver s
  | @DMapReplier _ _ _ _ _ _ U s => mrs_receiver U s
  | @DFilterMapReplier _ _ _ _ _ _ U s => frs_receiver U s
  end.

(** The connection of a sender, whatever its reply channel and its box. *)
Definition connection (s : QSender) : QSender := QuerySender_clone s.

Definition rx_ready (w : W) (rx : Rx) : Prop := rx_live rx w ∧ is_Some (rx_sender rx w).

(** What changes but keeps the receivers. *)
Definition kept (w w' : W) : Prop :=
  ∀ rx, rx_live rx w → rx_live rx w' ∧ (is_Some (rx_sender rx w) → is_Some (rx_sender rx w')).

Lemma kept_ready w w' rx : kept w w' → rx_ready w rx → rx_ready w' rx.
Proof. intros Hk [Hl Hs]. destruct (Hk rx Hl). split; auto. Qed.

Lemma kept_trans w1 w2 w3 : kept w1 w2 → kept w2 w3 → kept w1 w3.
Proof. intros H1 H2 rx Hl. destruct (H1 rx Hl) as [Hl2 Hs2]. destruct (H2 rx Hl2). eauto. Qed.

Lemma query_poll_kept (f f' : QFut) w w' p : query_poll f w = (f', w', p) → kept w w'.
Proof.
  destruct f as [f rx m|rx m]; simpl.
  - destruct (ch_poll f w) as [[f1 w1] q] eqn:E1.
    assert (kept w w1) as K1 by (intros x; by eapply ch_poll_frame).
    destruct q as [[[]|e]|]; [|by intros [= _ <- _]..].
    unfold recv_poll. destruct (rx_poll rx w1) as [w2 q] eqn:E2. intros [= _ <- _].
    eapply kept_trans; [done|]. intros x. by eapply rx_poll_frame.
  - unfold recv_poll. destruct (rx_poll rx w) as [w2 q] eqn:E2. intros [= _ <- _].
    intros x. by eapply rx_poll_frame.
Qed.

Lemma query_drop_kept (f : QFut) w : kept w (query_drop f w).
Proof. destruct f; simpl; [|by intros rx]. intros rx Hl. by apply ch_drop_frame. Qed.

(** *** The future of a query *)

Definition fut_rx (f : QFut) : Rx := match f with QSend _ rx _ | QRecv rx _ => rx end.
Definition fut_map (f : QFut) : Reply → R := match f with QSend _ _ m | QRecv _ m => m end.

(** The reply is one that the receiver got, mapped. *)
Definition replied (rx : Rx) (m : Reply → R) (r : R) : Prop :=
  ∃ w q w', rx_poll rx w = (w', Some (Ok q)) ∧ r = m q.

Lemma recv_poll_spec rx m w (f' : QFut) w' p : recv_poll rx m w = (f', w', p) →
  f' = QRecv rx m ∧ (∀ r, p = Some (Ok r) → replied rx m r ∧ (rx_live rx w → rx_ready w' rx)).
Proof.
  unfold recv_poll. destruct (rx_poll rx w) as [w1 q] eqn:E. intros [= <- <- <-].
  split; [done|]. intros r Hr. apply fmap_Some in Hr as (x & -> & Hx).
  destruct x as [q|]; [|done]. injection Hx as ->. split; [by exists w, q, w1|].
  intros Hl. split; [|by eapply rx_poll_ready]. by destruct (rx_poll_frame _ _ _ _ E rx Hl).
Qed.

Lemma query_poll_spec (f f' : QFut) w w' p : query_poll f w = (f', w', p) →
  fut_rx f' = fut_rx f ∧ fut_map f' = fut_map f ∧
  (∀ r, p = Some (Ok r) →
    replied (fut_rx f) (fut_map f) r ∧ (rx_live (fut_rx f) w → rx_ready w' (fut_rx f))).
Proof.
  destruct f as [f rx m|rx m]; simpl.
  - destruct (ch_poll f w) as [[f1 w1] q] eqn:E1. destruct q as [[[]|e]|].
    + intros Hr. apply recv_poll_spec in Hr as [-> Hr]. split; [done|]. split; [done|].
      intros r Hp. destruct (Hr r Hp) as [H1 H2]. split; [done|]. intros Hl. apply H2.
      by destruct (ch_poll_frame _ _ _ _ _ E1 rx Hl).
    + by intros [= <- <- <-].
    + by intros [= <- <- <-].
  - intros Hr. apply recv_poll_spec in Hr as [-> Hr]. done.
Qed.

(** *** Sending *)

Lemma send_owned_send arg (s : QSender) w : QuerySender_send_owned arg s w = QuerySender_send arg s w.
Proof. by destruct s. Qed.

Lemma asks_connection arg s s' : connection s = connection s' → asks arg s = asks arg s'.
Proof.
  intros H. assert (∀ s : QSender, asks arg (connection s) = asks arg s) as Hc.
  { intros [s0|U s0|U s0]; simpl; [done..|]. by destruct (frs_query_filter_map U s0 arg). }
  rewrite <-(Hc s), <-(Hc s'). by rewrite H.
Qed.

Definition may_use (w : W) (o : option Rx) (rx : Rx) : Prop :=
  o = Some rx ∨ o = None ∧ ¬ rx_live rx w.

(** What taking a sender of [rx] leaves. *)
Definition taken (rx : Rx) (w w' : W) : Prop :=
  rx_live rx w' ∧ ∀ rx', rx_live rx' w →
    rx_live rx' w' ∧ (rx' ≠ rx → is_Some (rx_sender rx' w) → is_Some (rx_sender rx' w')).

Lemma reply_sender_spec o w : (∀ rx, o = Some rx → rx_ready w rx) →
  ∃ rx w', reply_sender o w = Done (rx, w') ∧ may_use w o rx ∧ taken rx w w'.
Proof.
  intros Ho. unfold reply_sender. destruct o as [rx|].
  - destruct (Ho rx eq_refl) as [Hl [w' Hs]]. rewrite Hs. exists rx, w'. split; [done|].
    pose proof (rx_sender_frame _ _ _ Hs) as Hf. split; [by left|].
    split; [by apply Hf|done].
  - destruct (rx_new w) as [rx w1] eqn:En.
    destruct (rx_new_fresh _ _ _ En) as (Hn & Hl & [w' Hs] & Hk). rewrite Hs.
    exists rx, w'. split; [done|]. split; [by right|].
    pose proof (rx_sender_frame _ _ _ Hs) as Hf. split; [by apply Hf|].
    intros x Hx. destruct (Hk x Hx) as [Hx1 Hx2]. destruct (Hf x Hx1). auto.
Qed.

Lemma send_spec arg (s : QSender) w : (∀ rx, receiver s = Some rx → rx_ready w rx) →
  match asks arg s with
  | None => QuerySender_send arg s w = Done (None, s, w)
  | Some (a, c, m) =>
      ∃ rx s' w', QuerySender_send arg s w = Done (Some (QSend (ch_send a (QueryCall c rx)) rx m), s', w') ∧
        receiver s' = Some rx ∧ connection s' = connection s ∧
        may_use w (receiver s) rx ∧ taken rx w w'
  end.
Proof.
  intros Hs. destruct s as [s|U s|U s]; simpl in *.
  - destruct (reply_sender_spec _ _ Hs) as (rx & w' & He & Hm & Ht).
    unfold ReplierSender_send, ReplierSender_send_owned. rewrite He. simpl. by eauto 10.
  - destruct (reply_sender_spec _ _ Hs) as (rx & w' & He & Hm & Ht).
    unfold MapReplierSender_send. rewrite He. simpl. by eauto 10.
  - unfold FilterMapReplierSender_send.
    destruct (frs_query_filter_map U s arg) as [x|]; simpl; [|done].
    destruct (reply_sender_spec _ _ Hs) as (rx & w' & He & Hm & Ht).
    rewrite He. simpl. by eauto 10.
Qed.

Abbreviation receivers l := (omap receiver l).
Abbreviation accepting arg l := (filter (λ s : QSender, is_Some (asks arg s)) l).

Definition senders_ready (l : list QSender) (w : W) : Prop :=
  NoDup (receivers l) ∧ Forall (rx_ready w) (receivers l).

(** The future that a connection makes. *)
Definition sent (arg : T) (s : QSender) (f : RecycledFuture QFut) : Prop :=
  ∃ a c m rx, asks arg s = Some (a, c, m) ∧ receiver s = Some rx ∧
    fut f = QSend (ch_send a (QueryCall c rx)) rx m.

Lemma send_all_cons i arg (s : QSender) l w :
  send_all (F := QFut) i arg (s :: l) w =
  let! (o, s, w) := QuerySender_send arg s w in
  let! (futs, l, w) := send_all (S i) arg l w in
  Done (option_list (flip mkRecycled i <$> o) ++ futs, s :: l, w).
Proof.
  destruct l; simpl; [|done]. rewrite send_owned_send.
  destruct (QuerySender_send arg s w) as [[[o s'] w']| |]; simpl; [|done..].
  by rewrite app_nil_r.
Qed.

Record all_sent (arg : T) (l : list QSender) (w : W) (futs : list (RecycledFuture QFut))
    (l' : list QSender) (w' : W) : Prop := {
  as_connections : connection <$> l' = connection <$> l;
  as_nodup : NoDup (receivers l');
  as_old : ∀ rx, rx ∈ receivers l' → rx ∈ receivers l ∨ ¬ rx_live rx w;
  as_live : ∀ rx, rx_live rx w → rx_live rx w';
  as_receivers : ∀ rx, rx ∈ receivers l' → rx_live rx w';
  as_ready : ∀ rx, rx_ready w rx → rx ∉ (fut_rx ∘ fut) <$> futs → rx_ready w' rx;
  as_kept : ∀ rx, rx ∈ receivers l → rx ∈ receivers l';
  as_new : ∀ rx, rx ∈ receivers l' → rx ∈ receivers l ∨ rx ∈ (fut_rx ∘ fut) <$> futs;
  as_sent : Forall2 (sent arg) (accepting arg l') futs;
}.

Lemma receivers_cons (s : QSender) l :
  receivers (s :: l) = option_list (receiver s) ++ receivers l.
Proof. simpl. by destruct (receiver s). Qed.

Lemma all_sent_skip arg s l w futs l' w' :
  senders_ready (s :: l) w → asks arg s = None →
  all_sent arg l w futs l' w' → all_sent arg (s :: l) w futs (s :: l') w'.
Proof.
  unfold senders_ready. rewrite receivers_cons, NoDup_app, Forall_app.
  intros [(_ & Hnd & _) [Hs _]] Ha [H1 H2 H3 H4 H5 H6 H7 H8 H9].
  rewrite Forall_forall in Hs.
  split; rewrite ?receivers_cons; try done.
  - by rewrite !fmap_cons, H1.
  - apply NoDup_app. split_and!; [destruct (receiver s); repeat constructor; set_solver| |done].
    intros x Hx Hx'. destruct (H3 x Hx') as [Hin|Hl]; [by eapply Hnd|]. apply Hl. by apply Hs.
  - intros x. rewrite !elem_of_app. naive_solver.
  - intros x. rewrite elem_of_app. intros [Hx|Hx]; [|auto]. apply H4. by apply Hs.
  - intros x. rewrite !elem_of_app. naive_solver.
  - intros x. rewrite !elem_of_app. naive_solver.
  - rewrite filter_cons_False; [done|]. rewrite Ha. by apply is_Some_None.
Qed.

Lemma all_sent_send arg i s a c m rx s' l w w1 futs l' w' :
  senders_ready (s :: l) w → asks arg s = Some (a, c, m) →
  receiver s' = Some rx → connection s' = connection s → may_use w (receiver s) rx →
  taken rx w w1 → all_sent arg l w1 futs l' w' →
  all_sent arg (s :: l) w (mkRecycled (QSend (ch_send a (QueryCall c rx)) rx m) i :: futs)
    (s' :: l') w'.
Proof.
  unfold senders_ready. rewrite receivers_cons, NoDup_app, Forall_app, !Forall_forall.
  intros [(_ & Hnd & _) [Hs Hl]] Ha Hr Hc Hm [Ht1 Ht2] [H1 H2 H3 H4 H5 H6 H7 H8 H9].
  assert (∀ x, x ∈ receivers l → x ≠ rx) as Hne.
  { intros x Hx ->. destruct Hm as [Hm|[_ Hm]].
    - apply (Hnd rx); [|done]. rewrite Hm. set_solver.
    - apply Hm. by apply Hl. }
  split; rewrite ?receivers_cons, ?Hr; change (option_list (Some rx)) with [rx]; cbn [app].
  - by rewrite !fmap_cons, H1, Hc.
  - apply NoDup_cons. split; [|done]. intros Hx. destruct (H3 rx Hx) as [Hin|Hn]; [by eapply Hne|done].
  - intros x. rewrite elem_of_cons, elem_of_app. intros [->|Hx].
    + destruct Hm as [Hm|[_ Hm]]; [left; left; rewrite Hm; set_solver|by right].
    + destruct (H3 x Hx) as [Hin|Hn]; [by left; right|]. right. intros Hx1. apply Hn.
      by apply Ht2.
  - intros x Hx. apply H4. by apply Ht2.
  - intros x. rewrite elem_of_cons. intros [->|Hx]; [by apply H4|auto].
  - intros x [Hx1 Hx2]. rewrite fmap_cons, not_elem_of_cons. intros [Hxr Hxf]. apply H6; [|done].
    destruct (Ht2 x Hx1). split; auto.
  - intros x. rewrite elem_of_app, elem_of_cons. intros [Hx|Hx]; [|auto]. left.
    destruct Hm as [Hm|[Hm _]]; rewrite Hm in Hx; set_solver.
  - intros x. rewrite elem_of_cons, fmap_cons, elem_of_app, elem_of_cons. naive_solver.
  - pose proof (asks_connection arg s' s Hc) as Ha'. rewrite Ha in Ha'.
    rewrite filter_cons_True by by rewrite Ha'. constructor; [|done].
    by exists a, c, m, rx.
Qed.

Lemma send_all_spec i arg l w : senders_ready l w →
  ∃ futs l' w', send_all (F := QFut) i arg l w = Done (futs, l', w') ∧ all_sent arg l w futs l' w'.
Proof.
  revert i w. induction l as [|s l IH]; intros i w Hl.
  { exists [], [], w. split; [done|]. split; try done; [by apply NoDup_nil_2|by intros x ?%elem_of_nil..]. }
  rewrite send_all_cons. pose proof Hl as Hl'. unfold senders_ready in Hl'.
  rewrite receivers_cons, NoDup_app, Forall_app, !Forall_forall in Hl'.
  destruct Hl' as [(_ & Hnd & Hndl) [Hs Hr]].
  pose proof (send_spec arg s w) as Hsend.
  destruct (asks arg s) as [[[a c] m]|] eqn:Ha.
  - destruct Hsend as (rx & s' & w1 & -> & Hrx & Hc & Hm & Ht).
    { intros rx Hrx. apply Hs. rewrite Hrx. set_solver. }
    cbn [obind]. destruct (IH (S i) w1) as (futs & l' & w' & -> & Hall).
    { split; [done|]. apply Forall_forall. intros x Hx. destruct (Hr x Hx) as [Hx1 Hx2].
      destruct Ht as [_ Ht]. destruct (Ht x Hx1) as [Hx3 Hx4]. split; [done|]. apply Hx4; [|done].
      intros ->. destruct Hm as [Hm|[_ Hm]]; [|done]. apply (Hnd rx); [|done]. rewrite Hm. set_solver. }
    cbn [obind]. do 3 eexists. split; [done|]. simpl. by eapply all_sent_send.
  - rewrite Hsend by (intros rx Hrx; apply Hs; rewrite Hrx; set_solver). cbn [obind].
    destruct (IH (S i) w) as (futs & l' & w' & -> & Hall).
    { split; [done|]. by apply Forall_forall. }
    cbn [obind]. do 3 eexists. split; [done|]. simpl. by apply all_sent_skip.
Qed.

(** *** Awaiting *)

(** A future that has been polled is still the same query. *)
Definition same_query (f0 f : RecycledFuture QFut) : Prop :=
  fut_rx (fut f) = fut_rx (fut f0) ∧ fut_map (fut f) = fut_map (fut f0).

Definition got (w : W) (f0 : RecycledFuture QFut) (r : R) : Prop :=
  replied (fut_rx (fut f0)) (fut_map (fut f0)) r ∧ rx_ready w (fut_rx (fut f0)).

Record awaiting (fs0 : list (RecycledFuture QFut)) (n : nat) (w0 : W)
    (this : OutFuture (RecycledFuture QFut) R) (w : W) : Prop := {
  aw_futures : Forall2 same_query fs0 (of_futures this);
  aw_length : length (of_outputs this) = n;
  aw_got : ∀ i f0 r, fs0 !! i = Some f0 → of_outputs this !! i = Some (Some r) → got w f0 r;
  aw_kept : kept w0 w;
}.

Lemma got_kept w w' f0 r : kept w w' → got w f0 r → got w' f0 r.
Proof. intros Hk [H1 H2]. split; [done|]. by eapply kept_ready. Qed.

Lemma rf_poll_spec (f f' : RecycledFuture QFut) w w' p :
  rf_poll (query_poll (R := R)) f w = (f', w', p) →
  same_query f f' ∧ kept w w' ∧ (∀ r, p = Some (Ok r) → rx_live (fut_rx (fut f)) w → got w' f r).
Proof.
  unfold rf_poll. destruct (query_poll (fut f) w) as [[f1 w1] q] eqn:E. intros [= <- <- <-].
  pose proof (query_poll_spec _ _ _ _ _ E) as (H1 & H2 & H3).
  split_and!; [done|by eapply query_poll_kept|]. intros r Hr Hl. destruct (H3 r Hr). split; auto.
Qed.

Lemma awaiting_one fs0 n w0 i this w this' w' b :
  Forall (λ f, rx_live (fut_rx (fut f)) w0) fs0 →
  of_poll_one (rf_poll (query_poll (R := R))) i this w = Done (this', w', b) →
  awaiting fs0 n w0 this w → awaiting fs0 n w0 this' w'.
Proof.
  intros Hlive Hp [H1 H2 H3 H4]. unfold of_poll_one in Hp.
  destruct (of_outputs this !! i) as [o|] eqn:Ho; simpl in Hp; [|done].
  destruct (of_futures this !! i) as [f|] eqn:Hf; simpl in Hp; [|done].
  destruct (Forall2_lookup_r _ _ _ _ _ H1 Hf) as (f0 & Hf0 & Hs1 & Hs2).
  destruct (rf_poll _ f w) as [[f1 w1] q] eqn:E.
  destruct (rf_poll_spec _ _ _ _ _ E) as ([Hs3 Hs4] & Hk & Hg).
  assert (Forall2 same_query fs0 (<[i := f1]> (of_futures this))) as Hfs.
  { rewrite <-(list_insert_id fs0 i f0 Hf0). apply Forall2_insert; [done|].
    split; congruence. }
  assert (kept w0 w1) as Hk1 by by eapply kept_trans.
  assert (∀ j f0 r, fs0 !! j = Some f0 → of_outputs this !! j = Some (Some r) → got w1 f0 r) as Hg1.
  { intros j g0 r Hj Hr. apply (got_kept w w1); [done|]. by eapply H3. }
  destruct q as [[r|e]|]; simpl in Hp; [|by simplify_eq; split..].
  destruct (negb _); simpl in Hp; [|done]. simplify_eq. split; simpl; try done.
  { by rewrite length_insert. }
  intros j g0 r' Hj Hr. destruct (decide (i = j)) as [<-|Hne].
  - rewrite list_lookup_insert_eq in Hr by by eapply lookup_lt_Some.
    assert (g0 = f0) as -> by congruence. injection Hr as <-.
    destruct (Hg r eq_refl) as [Hr1 Hr2].
    { rewrite Hs1. rewrite Forall_lookup in Hlive. by apply (H4 (fut_rx (fut f0))), (Hlive i). }
    rewrite Hs1, ?Hs2 in *. by split.
  - rewrite list_lookup_insert_ne in Hr by done. by eapply Hg1.
Qed.

Lemma await_one_spec polls (f f' : RecycledFuture QFut) w r w' :
  Forall (λ p, ∀ w, kept w (p.2 w)) polls → rx_live (fut_rx (fut f)) w →
  await_one (R := R) polls f w = (r, f', w') →
  kept w w' ∧ same_query f f' ∧ ∀ o, r = Some (Ok o) → got w' f o.
Proof.
  intros Henv. revert f w. induction Henv as [|[b env] polls He _ IH]; intros f w Hl; simpl.
  { intros [= <- <- <-]. split_and!; [by intros x|done|done]. }
  simpl in He. destruct (rf_poll _ f (env w)) as [[f1 w1] p] eqn:E.
  destruct (rf_poll_spec _ _ _ _ _ E) as ([Hs1 Hs2] & Hk & Hg).
  assert (kept w w1) as Hk1 by by eapply kept_trans.
  assert (rx_live (fut_rx (fut f)) (env w)) as Hle by by apply (He w).
  destruct p as [p|].
  - intros [= <- <- <-]. split_and!; [done|done|]. intros o [= ->]. by apply Hg.
  - intros Hr. destruct (IH f1 w1) as (Hk2 & [Hs3 Hs4] & Hg2); [|done|].
    { rewrite Hs1. by apply Hk1. }
    split_and!; [by eapply kept_trans|split; congruence|].
    intros o Ho. destruct (Hg2 o Ho) as [G1 G2]. rewrite Hs1, ?Hs2 in *. by split.
Qed.

(** *** Dropping the futures *)

Definition same_sender (s s' : QSender) : Prop :=
  connection s' = connection s ∧ receiver s' = receiver s.

Lemma same_sender_lend s : same_sender s (QuerySender_lend s).
Proof. by destruct s as [[]|U []|U []]. Qed.

Lemma same_senders_refl (l : list QSender) : Forall2 same_sender l l.
Proof. induction l; by constructor. Qed.

Lemma same_senders_lend j l : Forall2 same_sender l (alter QuerySender_lend j l).
Proof.
  revert j. induction l as [|s l IH]; intros [|j]; simpl; [constructor..| |].
  - constructor; [apply same_sender_lend|apply same_senders_refl].
  - constructor; [done|apply IH].
Qed.

Lemma drop_recycled_spec (f : RecycledFuture QFut) (self self' : Inner) w w' :
  drop_recycled f self w = (self', w') →
  Forall2 same_sender (senders self) (senders self') ∧ outputs self' = outputs self ∧ kept w w'.
Proof.
  unfold drop_recycled. intros [= <- <-]. split_and!; [apply same_senders_lend|done|].
  apply query_drop_kept.
Qed.

Lemma same_senders_trans (l1 l2 l3 : list QSender) :
  Forall2 same_sender l1 l2 → Forall2 same_sender l2 l3 → Forall2 same_sender l1 l3.
Proof.
  intros H. revert l3. induction H as [|s1 s2 l1 l2 [H1 H2] _ IH]; intros l3; [done|].
  inversion 1 as [|? s3 ? ? [H3 H4]]; subst. constructor; [split; congruence|auto].
Qed.

Lemma drop_all_spec (futs : list (RecycledFuture QFut)) (self self' : Inner) w w' :
  drop_all futs self w = (self', w') →
  Forall2 same_sender (senders self) (senders self') ∧ outputs self' = outputs self ∧ kept w w'.
Proof.
  revert self w. induction futs as [|f futs IH]; intros self w; cbn [drop_all].
  { intros [= <- <-]. split_and!; [apply same_senders_refl|done|by intros x]. }
  destruct (drop_recycled f self w) as [self1 w1] eqn:E.
  destruct (drop_recycled_spec _ _ _ _ _ E) as (H1 & H2 & H3).
  intros Hd. destruct (IH self1 w1 Hd) as (H4 & H5 & H6).
  split_and!; [by eapply same_senders_trans|congruence|by eapply kept_trans].
Qed.

Lemma same_connections l l' : Forall2 same_sender l l' → connection <$> l' = connection <$> l.
Proof. induction 1 as [|s s' l l' [H _] _ IH]; [done|]. by rewrite !fmap_cons, H, IH. Qed.

Lemma same_receivers l l' : Forall2 same_sender l l' → receivers l' = receivers l.
Proof. induction 1 as [|s s' l l' [_ H] _ IH]; [done|]. by rewrite !receivers_cons, H, IH. Qed.

Lemma same_accepting {A} (Q : QSender → A → Prop) arg l l' k :
  (∀ s s' x, same_sender s s' → Q s x → Q s' x) →
  Forall2 same_sender l l' → Forall2 Q (accepting arg l) k → Forall2 Q (accepting arg l') k.
Proof.
  intros HQ Hl. revert k. induction Hl as [|s s' l l' Hs _ IH]; intros k; [done|].
  pose proof (asks_connection arg s' s (proj1 Hs)) as Ha.
  destruct (asks arg s) as [y|] eqn:E.
  - rewrite !filter_cons_True by by rewrite ?Ha, ?E.
    inversion 1; subst. constructor; eauto.
  - rewrite !filter_cons_False by (rewrite ?Ha, ?E; apply is_Some_None). apply IH.
Qed.

(** *** A whole query *)

Definition inner_ready (self : Inner) (w : W) : Prop :=
  senders_ready (senders self) w ∧ length (outputs self) = length (senders self).

(** The reply [r] came through the connection [s], in answer to [arg]. *)
Definition answered (arg : T) (s : QSender) (r : R) : Prop :=
  ∃ a c m rx, asks arg s = Some (a, c, m) ∧ receiver s = Some rx ∧ replied rx m r.

(** What the part of a query that awaits the futures leaves. *)
Record awaited (futs : list (RecycledFuture QFut)) (self : Inner) (w : W)
    (r : option (result unit unit)) (self' : Inner) (w' : W) : Prop := {
  ad_senders : Forall2 same_sender (senders self) (senders self');
  ad_outputs : length (outputs self') = length (outputs self);
  ad_kept : kept w w';
  ad_replies : r = Some (Ok tt) →
    ∃ rs, take_replies (outputs self') (length futs) = Done rs ∧ Forall2 (got w') futs rs;
}.

Lemma awaited_none self w : awaited [] self w (Some (Ok tt)) self w.
Proof.
  split; [apply same_senders_refl|done|by intros x|]. intros _. exists [].
  by destruct (outputs self).
Qed.

Lemma awaited_single polls f (self : Inner) w :
  Forall (λ p, ∀ w, kept w (p.2 w)) polls → rx_live (fut_rx (fut f)) w → 0 < length (outputs self) →
  ∃ r self' w', store_single (await_single polls f self w) = Done (r, self', w') ∧
    awaited [f] self w r self' w'.
Proof.
  intros Henv Hl Ho. unfold await_single.
  destruct (await_one polls f w) as [[r f1] w1] eqn:E1.
  destruct (await_one_spec _ _ _ _ _ _ Henv Hl E1) as (Hk & _ & Hg).
  destruct (drop_recycled f1 self w1) as [self1 w2] eqn:E2.
  destruct (drop_recycled_spec _ _ _ _ _ E2) as (Hs & Ho1 & Hk2).
  assert (kept w w2) as Hk' by by eapply kept_trans.
  unfold store_single. destruct r as [[o|e]|].
  - unfold set_output. rewrite Ho1. destruct (outputs self) as [|o1 outs] eqn:Eo; [simpl in Ho; lia|].
    simpl. do 3 eexists. split; [done|]. split; simpl; [done|by rewrite Eo|done|].
    intros _. exists [o]. split; [by destruct outs|]. constructor; [|done].
    apply (got_kept w1 w2); auto.
  - do 3 eexists. split; [done|]. split; [done|by rewrite Ho1|done|done].
  - do 3 eexists. split; [done|]. split; [done|by rewrite Ho1|done|done].
Qed.

Lemma awaited_many polls futs (self : Inner) w :
  Forall (λ p, ∀ w, kept w (p.2 w)) polls → Forall (λ f, rx_live (fut_rx (fut f)) w) futs →
  length futs ≤ length (outputs self) → batches_ok (length futs) polls →
  ∃ r self' w', await_many polls futs self w = Done (r, self', w') ∧
    awaited futs self w r self' w'.
Proof.
  intros Henv Hl Ho Hb. unfold await_many.
  destruct (await_all_ok polls (outputs self) futs w Ho Hb) as (r & this & w1 & E1 & Hr).
  assert (awaiting futs (length (outputs self)) w this w1) as [H1 H2 H3 H4].
  { refine (await_all_pres (awaiting futs (length (outputs self)) w) _ _ polls
      (of_new (outputs self) futs) w r this w1 _ E1 _).
    - intros st t x [G1 G2 G3 G4]. by split.
    - intros i t x t' x' b. by apply awaiting_one.
    - eapply Forall_impl; [exact Henv|]. simpl. intros p Hp t x [G1 G2 G3 G4].
      split; [done..| |by eapply kept_trans]. intros i f0 q Hf Hq. apply (got_kept x); eauto.
    - split; simpl.
      + clear. induction futs; by constructor.
      + rewrite length_app, length_fmap, length_take, length_drop. lia.
      + intros i f0 q Hf. apply lookup_lt_Some in Hf.
        rewrite lookup_app_l by (rewrite length_fmap, length_take; lia).
        rewrite list_lookup_fmap. by destruct (take _ _ !! i).
      + by intros x. }
  rewrite E1. cbn [obind].
  destruct (drop_all _ _ w1) as [self2 w2] eqn:E2.
  destruct (drop_all_spec _ _ _ _ _ E2) as (Hs & Ho2 & Hk2). simpl in Hs, Ho2.
  do 3 eexists. split; [done|]. split; [done|by rewrite Ho2|by eapply kept_trans|].
  intros Hok. destruct (Hr Hok) as [rs Hrs]. rewrite <-(Forall2_length _ _ _ H1) in Hrs.
  rewrite Ho2. exists rs. split; [done|].
  destruct (take_replies_lookup _ _ _ ltac:(by rewrite H2) Hrs) as [Hlen Hlk].
  apply Forall2_same_length_lookup. split; [done|]. intros i f q Hf Hq.
  apply (got_kept w1 w2); [done|]. eapply H3; eauto.
Qed.

(** The result of a query: the connections are unchanged, and after a success
    the replies are those of the accepting connections, in order, and every
    reply channel can be used again. *)
Definition query_result (arg : T) (n : nat) (self : Inner)
    (o : option (result (list R) unit)) (self' : Inner) (w' : W) : Prop :=
  connection <$> senders self' = connection <$> senders self ∧
  length (outputs self') = length (senders self') ∧
  ∀ rs, o = Some (Ok rs) →
    inner_ready self' w' ∧
    ∃ all, rs = take n all ∧ Forall2 (answered arg) (accepting arg (senders self')) all.

Lemma sent_fut arg s f : sent arg s f → ∃ a c m, asks arg s = Some (a, c, m) ∧
  receiver s = Some (fut_rx (fut f)) ∧ fut_map (fut f) = m.
Proof. intros (a & c & m & rx & H1 & H2 & H3). exists a, c, m. by rewrite H3. Qed.

Lemma accepting_receivers arg (l : list QSender) x : x ∈ accepting arg l → ∀ rx, receiver x = Some rx → rx ∈ receivers l.
Proof.
  rewrite list_elem_of_filter. intros [_ Hx] rx Hr. apply list_elem_of_omap. eauto.
Qed.

(** Once every future has its reply, all the receivers are free again. *)
Lemma senders_ready_again arg l w futs l' w1 w2 rs :
  senders_ready l w → all_sent arg l w futs l' w1 → kept w1 w2 → Forall2 (got w2) futs rs →
  senders_ready l' w2.
Proof.
  intros [_ Hr] [H1 H2 H3 H4 H5 H6 H7 H8 H9] Hk Hg. split; [done|].
  rewrite Forall_forall in *. intros x Hx.
  destruct (decide (x ∈ (fut_rx ∘ fut) <$> futs)) as [Hin|Hin].
  - apply list_elem_of_fmap in Hin as (f & -> & Hf). apply list_elem_of_lookup_1 in Hf as [i Hf].
    destruct (Forall2_lookup_l _ _ _ _ _ Hg Hf) as (r & _ & _ & Hready). done.
  - apply (kept_ready w1 w2); [done|]. apply H6; [|done]. apply Hr.
    destruct (H8 x Hx); [done|done].
Qed.

Lemma answered_same arg s s' r : same_sender s s' → answered arg s r → answered arg s' r.
Proof.
  intros [Hc Hr] (a & c & m & rx & H1 & H2 & H3). exists a, c, m, rx.
  rewrite (asks_connection arg s' s Hc), Hr. done.
Qed.

Lemma sent_answered arg l futs rs w : Forall2 (sent arg) (accepting arg l) futs →
  Forall2 (got w) futs rs → Forall2 (answered arg) (accepting arg l) rs.
Proof.
  generalize (accepting arg l). intros k Hk. revert rs.
  induction Hk as [|s f k futs Hs _ IH]; intros rs; inversion 1 as [|? r ? ? [Hg _]]; subst;
    constructor; [|auto].
  destruct (sent_fut arg s f Hs) as (a & c & m & H1 & H2 & <-). by exists a, c, (fut_map (fut f)), (fut_rx (fut f)).
Qed.

Lemma finish_query_spec arg n l w futs (self : Inner) w1 r self2 w2 :
  senders_ready l w → all_sent arg l w futs (senders self) w1 →
  length (outputs self) = length (senders self) → awaited futs self w1 r self2 w2 →
  ∃ o self' w', finish_query n (length futs) r self2 w2 = Done (o, self', w') ∧
    query_result arg n (mkInner l (outputs self) false) o self' w'.
Proof.
  intros Hl Hall Ho [A1 A2 A3 A4]. unfold finish_query.
  pose proof (same_connections _ _ A1) as Hc. pose proof (same_receivers _ _ A1) as Hrc.
  assert (connection <$> senders self2 = connection <$> l) as Hcl.
  { rewrite Hc. by apply Hall. }
  assert (length (outputs self2) = length (senders self2)) as Hol.
  { rewrite A2, Ho. by eapply Forall2_length. }
  destruct r as [[[]|e]|]; [|by do 3 eexists; repeat split..].
  destruct (A4 eq_refl) as (rs & Hrs & Hg). unfold take_outputs.
  pose proof (Forall2_length _ _ _ Hg) as Hlen.
  rewrite (take_replies_take _ _ n _ Hrs). cbn [obind].
  assert (length (((λ _, None) <$> take (n `min` length futs) (outputs self2)) ++
    drop (n `min` length futs) (outputs self2)) = length (outputs self2)) as Hl2.
  { rewrite length_app, length_fmap, length_take, length_drop. lia. }
  do 3 eexists. split; [done|]. split; [done|]. simpl. split; [by rewrite Hl2|].
  intros rs' [= <-]. split; [split; [|simpl; by rewrite Hl2]|].
  - pose proof (senders_ready_again arg l w futs (senders self) w1 w2 rs Hl Hall A3 Hg) as [G1 G2].
    unfold senders_ready. simpl. by rewrite Hrc.
  - exists rs. split; [by rewrite <-take_take, (take_ge rs) by lia|].
    eapply same_accepting; [apply answered_same|done|]. eapply sent_answered; [apply Hall|done].
Qed.

Lemma sent_live arg l w futs l' w' : all_sent arg l w futs l' w' →
  Forall (λ f, rx_live (fut_rx (fut f)) w') futs.
Proof.
  intros Hall. apply Forall_lookup. intros i f Hf.
  destruct (Forall2_lookup_r _ _ _ _ _ (as_sent _ _ _ _ _ _ Hall) Hf) as (s & Hs & Hsent).
  destruct (sent_fut arg s f Hsent) as (a & c & m & _ & Hr & _).
  eapply as_receivers; [done|]. eapply accepting_receivers; [|done]. by eapply list_elem_of_lookup_2.
Qed.

Lemma accepting_length arg l l' : connection <$> l' = connection <$> l →
  length (accepting arg l') = length (accepting arg l).
Proof.
  revert l'. induction l as [|s l IH]; intros [|s' l']; try done.
  rewrite !fmap_cons. intros [= Hc Hl]. pose proof (asks_connection arg s' s Hc) as Ha.
  rewrite !filter_cons, Ha. case_decide; simpl; rewrite (IH l' Hl); done.
Qed.

Lemma all_sent_length arg l w futs l' w' : all_sent arg l w futs l' w' →
  length futs = length (accepting arg l) ∧ length l' = length l.
Proof.
  intros [H1 _ _ _ _ _ _ _ H9]. rewrite <-(Forall2_length _ _ _ H9). split.
  - by apply accepting_length.
  - by rewrite <-(length_fmap connection l'), H1, length_fmap.
Qed.

(** The part of a query after the sends, for any number of futures. *)
Definition await_futures (n : nat) (polls : list (list (list nat) * (W → W)))
    (futs : list (RecycledFuture QFut)) (self : Inner) (w : W) :=
  let! (r, self, w) :=
    match futs with
    | [] => Done (Some (Ok tt), self, w)
    | [f] => store_single (await_single polls f self w)
    | _ => await_many polls futs self w
    end in
  finish_query n (length futs) r self w.

Lemma await_futures_spec arg n l w polls futs (self : Inner) w1 :
  Forall (λ p, ∀ w, kept w (p.2 w)) polls → batches_ok (length futs) polls →
  senders_ready l w → all_sent arg l w futs (senders self) w1 →
  length (outputs self) = length (senders self) → length futs ≤ length (senders self) →
  ∃ o self' w', await_futures n polls futs self w1 = Done (o, self', w') ∧
    query_result arg n (mkInner l (outputs self) false) o self' w'.
Proof.
  intros Henv Hb Hl Hall Ho Hlen. pose proof (sent_live arg l w futs _ w1 Hall) as Hlive.
  unfold await_futures.
  assert (∃ r self' w', match futs with
      | [] => Done (Some (Ok tt), self, w1)
      | [f] => store_single (await_single polls f self w1)
      | _ => await_many polls futs self w1 end = Done (r, self', w') ∧
    awaited futs self w1 r self' w') as (r & self2 & w2 & -> & Haw).
  { destruct futs as [|f [|f2 futs]].
    - do 3 eexists. split; [done|]. apply awaited_none.
    - apply awaited_single; [done|by apply Forall_cons_1 in Hlive as [? _]|]. rewrite Ho. simpl in Hlen. lia.
    - apply awaited_many; [done|done|by rewrite Ho|done]. }
  cbn [obind]. by eapply finish_query_spec.
Qed.

Lemma query_broadcast_unfold n batches env polls arg (self : Inner) w :
  query_broadcast n ((batches, env) :: polls) arg self w =
  match senders self with
  | [] => finish_query n 0 (Some (Ok tt)) self (env w)
  | _ =>
      let! (futs, l, w) := send_all (F := QFut) 0 arg (senders self) (env w) in
      let b := match senders self with [_] => storage self | _ => false end in
      await_futures n ((batches, id) :: polls) futs (mkInner l (outputs self) b) w
  end.
Proof.
  cbn [query_broadcast]. destruct (senders self) as [|s [|s' l]] eqn:El; [done|..].
  - simpl. destruct (QuerySender_send_owned arg s (env w)) as [[[o s1] w1]| |]; simpl; [|done..].
    destruct o as [f|]; done.
  - unfold futures. rewrite El.
    destruct (send_all 0 arg _ _) as [[[futs l'] w1]| |]; cbn [obind]; [|done..].
    by destruct futs as [|f [|f2 futs]].
Qed.

Lemma query_broadcast_replies n polls arg (self : Inner) w :
  inner_ready self w → Forall (λ p, ∀ w, kept w (p.2 w)) polls →
  batches_ok (length (accepting arg (senders self))) polls →
  ∃ o self' w', query_broadcast n polls arg self w = Done (o, self', w') ∧
    query_result arg n self o self' w'.
Proof.
  intros [Hl Ho] Henv Hb. destruct polls as [|[batches env] polls].
  { simpl. do 3 eexists. split; [done|]. by split_and!. }
  rewrite query_broadcast_unfold. apply Forall_cons_1 in Henv as [He Henv]. simpl in He.
  assert (senders_ready (senders self) (env w)) as Hl1.
  { destruct Hl as [Hn Hr]. split; [done|]. eapply Forall_impl; [done|]. intros x. by apply kept_ready. }
  destruct (send_all_spec 0 arg (senders self) (env w) Hl1) as (futs & l' & w1 & Hs & Hall).
  destruct (all_sent_length _ _ _ _ _ _ Hall) as [Hf Hl'].
  pose proof (length_filter (λ s, is_Some (asks arg s)) (senders self)) as Hle.
  destruct (senders self) as [|s l] eqn:El.
  - simpl in Hs. injection Hs as <- <- <-. rewrite <-El in Hall at 2.
    destruct (finish_query_spec arg n [] (env w) [] self (env w) _ self (env w) Hl1 Hall
      ltac:(by rewrite El) (awaited_none self (env w))) as (o & self' & w' & Hfin & Hres).
    exists o, self', w'. split; [done|]. unfold query_result in *. by rewrite El.
  - rewrite Hs. cbn [obind]. generalize (match l with [] => storage self | _ :: _ => false end).
    intros b. destruct (await_futures_spec arg n (s :: l) (env w) ((batches, id) :: polls) futs
      (mkInner l' (outputs self) b) w1) as (o & self' & w' & Hfin & Hres); [..|
      exists o, self', w'; split; [exact Hfin|]; unfold query_result in *; by rewrite El]; simpl.
    + constructor; [by intros ? x|done].
    + apply Forall_cons_1 in Hb as [Hb Hbs]. rewrite Hf. by constructor.
    + done.
    + done.
    + by rewrite Ho, Hl'.
    + rewrite Hf, Hl'. done.
Qed.

(** C10: queries through a requestor.  If the reply channel of every connection
    is free, then whatever the mailboxes, the repliers and the wake-ups do, the
    query does not panic and keeps the connections; when it succeeds, the
    caller is given one reply per connection whose filter accepts the query, in
    the order in which the connections were made, however many there are: each
    is a reply received on the connection's own reply channel, mapped by its
    own map.  All the reply channels are then free again, so that the next
    query succeeds likewise, even if the caller left replies behind. *)
Theorem requestor_replies n polls arg (self : Inner) w :
  inner_ready self w → Forall (λ p, ∀ w, kept w (p.2 w)) polls →
  batches_ok (length (accepting arg (senders self))) polls →
  ∃ o self' w', query_broadcast n polls arg self w = Done (o, self', w') ∧
    query_result arg n self o self' w'.
Proof. apply query_broadcast_replies. Qed.

(** ** A query that is dropped before its reply *)

Lemma send_inv arg (s : QSender) w o s' w' : is_Some (asks arg s) →
  QuerySender_send arg s w = Done (o, s', w') →
  ∃ f rx m, o = Some (QSend f rx m) ∧ receiver s' = Some rx ∧ connection s' = connection s.
Proof.
  intros [y Hy]. destruct s as [s|U s|U s]; simpl in *.
  - unfold ReplierSender_send, ReplierSender_send_owned.
    destruct (reply_sender _ w) as [[rx w1]| |]; simpl; [|done..]. intros [= <- <- <-]. eauto 10.
  - unfold MapReplierSender_send.
    destruct (reply_sender _ w) as [[rx w1]| |]; simpl; [|done..]. intros [= <- <- <-]. eauto 10.
  - unfold FilterMapReplierSender_send. destruct (frs_query_filter_map U s arg); [|done].
    destruct (reply_sender _ w) as [[rx w1]| |]; simpl; [|done..]. intros [= <- <- <-]. eauto 10.
Qed.

Lemma send_without_sender arg (s : QSender) w rx :
  is_Some (asks arg s) → receiver s = Some rx → rx_sender rx w = None →
  QuerySender_send arg s w = Panicked.
Proof.
  intros [y Hy] Hr Hs. assert (reply_sender (receiver s) w = Panicked) as Hp.
  { rewrite Hr. unfold reply_sender. by rewrite Hs. }
  destruct s as [s|U s|U s]; simpl in *.
  - unfold ReplierSender_send, ReplierSender_send_owned. by rewrite Hp.
  - unfold MapReplierSender_send. by rewrite Hp.
  - unfold FilterMapReplierSender_send. destruct (frs_query_filter_map U s arg); [|done]. by rewrite Hp.
Qed.

Section Cancelled.
Hypothesis rx_poll_pending : ∀ rx w w', rx_poll rx w = (w', None) → rx_sender rx w' = None.
Hypothesis has_room : ∀ f w, ∃ f' w', ch_poll f w = (f', w', Some (Ok tt)).

Lemma recv_pending polls rx m w i f' w' :
  rx_sender rx w = None →
  await_one (R := R) polls (mkRecycled (QRecv rx m : QFut) i) w = (None, f', w') →
  f' = mkRecycled (QRecv rx m) i ∧ rx_sender rx w' = None.
Proof.
  revert w. induction polls as [|[b env] polls IH]; intros w Hs; simpl.
  { by intros [= <- <-]. }
  unfold rf_poll. simpl. unfold recv_poll.
  destruct (rx_poll rx (env w)) as [w1 q] eqn:E. destruct q as [q|]; simpl; [done|].
  apply IH. by eapply rx_poll_pending.
Qed.

Lemma query_pending polls f rx m w i f' w' : polls ≠ [] →
  await_one (R := R) polls (mkRecycled (QSend f rx m : QFut) i) w = (None, f', w') →
  f' = mkRecycled (QRecv rx m) i ∧ rx_sender rx w' = None.
Proof.
  destruct polls as [|[b env] polls]; [done|]. intros _. simpl. unfold rf_poll. simpl.
  destruct (has_room f (env w)) as (f1 & w1 & ->). unfold recv_poll.
  destruct (rx_poll rx w1) as [w2 q] eqn:E. destruct q as [q|]; simpl; [done|].
  apply recv_pending. by eapply rx_poll_pending.
Qed.

(** A query that is abandoned cannot be repeated.  When the future of a
    query is dropped after its message was sent and before its reply was
    received, as a caller does that waits for the first of two events, the
    next query through the same port panics if it comes before the reply: the
    reply sender is still in the hands of the replier, and the port unwraps the
    new one.  The code relies on futures being polled to completion here,
    although the broadcast future is written to be cancelled. *)
Lemma cancelled_query_then_panics n n2 polls arg arg2 s outs st w self' w' b2 polls2 :
  polls ≠ [] → is_Some (asks arg s) → is_Some (asks arg2 s) →
  query_broadcast n polls arg (mkInner [s] outs st : Inner) w = Done (None, self', w') →
  query_broadcast n2 ((b2, id) :: polls2) arg2 self' w' = Panicked.
Proof.
  intros Hne Ha Ha2. destruct polls as [|[b env] polls]; [done|]. simpl. rewrite send_owned_send.
  destruct (QuerySender_send arg s (env w)) as [[[o s1] w1]| |] eqn:Es; simpl; [|done..].
  destruct (send_inv _ _ _ _ _ _ Ha Es) as (f & rx & m & -> & Hr & Hc).
  unfold await_single. cbn [store_single].
  destruct (await_one _ _ w1) as [[r f1] w2] eqn:Ew. simpl.
  destruct r as [[r|e]|]; simpl; [|done|].
  { destruct (set_output _ _); simpl; [|done..]. destruct (take_outputs _ _ _) as [[? ?]| |]; done. }
  apply query_pending in Ew as [-> Hs]; [|done]. simpl. intros [= <- <-].
  simpl. rewrite send_owned_send.
  destruct (same_sender_lend s1) as [Hc1 Hr1].
  rewrite (send_without_sender arg2 (QuerySender_lend s1) w2 rx); [done|..|done].
  - by rewrite (asks_connection arg2 (QuerySender_lend s1) s) by congruence.
  - congruence.
Qed.
End Cancelled.
End Queries.

(** ** Evaluations

    A world with one unbounded mailbox; each reply channel has a flag for a
    live sender and the reply that was sent. *)

Record DemoWorld := mkDemo {
  mail : list (nat * Message nat nat nat);
  rxs : list (bool * option nat);
}.

Definition set_rx (rx : nat) (v : bool * option nat) (w : DemoWorld) : DemoWorld :=
  mkDemo (mail w) (<[rx := v]> (rxs w)).

#[export] Instance demo_ports : PortWorld nat nat nat nat (nat * Message nat nat nat) nat DemoWorld := {|
  ch_send := λ a m, (a, m);
  ch_poll := λ f w, (f, mkDemo (mail w ++ [f]) (rxs w), Some (Ok tt));
  ch_drop := λ f w, w;
  rx_new := λ w, (length (rxs w), mkDemo (mail w) (rxs w ++ [(false, None)]));
  rx_sender := λ rx w,
    match rxs w !! rx with Some (false, _) => Some (set_rx rx (true, None) w) | _ => None end;
  rx_poll := λ rx w,
    match rxs w !! rx with
    | Some (true, None) | None => (w, None)
    | Some (_, Some q) => (set_rx rx (false, None) w, Some (Ok q))
    | Some (false, None) => (w, Some (Err tt))
    end;
|}.

Definition demo_live (rx : nat) (w : DemoWorld) : Prop := rx < length (rxs w).

Lemma demo_available rx w :
  is_Some (rx_sender rx w) ↔ ∃ o, rxs w !! rx = Some (false, o).
Proof.
  simpl. destruct (rxs w !! rx) as [[[] o]|].
  - split; [by intros []|]. by intros [? [=]].
  - split; [eauto|]. intros _. eauto.
  - split; [by intros []|]. by intros [? [=]].
Qed.

Lemma demo_set_frame rx o w rx' : demo_live rx' w →
  demo_live rx' (set_rx rx (false, o) w) ∧
  (is_Some (rx_sender rx' w) → is_Some (rx_sender rx' (set_rx rx (false, o) w))).
Proof.
  intros Hl. split; [unfold demo_live; simpl; by rewrite length_insert|].
  rewrite !demo_available. intros [o' Ho]. simpl. destruct (decide (rx' = rx)) as [->|Hne].
  - rewrite list_lookup_insert_eq by done. eauto.
  - rewrite list_lookup_insert_ne by done. eauto.
Qed.

#[export] Instance demo_laws : PortLaws demo_live.
Proof.
  split.
  - intros w rx w' [= <- <-]. unfold demo_live. simpl. rewrite length_app. simpl.
    split_and!; [lia|lia| |].
    + rewrite lookup_app_r, Nat.sub_diag by lia. simpl. eauto.
    + intros x Hx. split; [lia|]. rewrite lookup_app_l by done.
      destruct (rxs w !! x) as [[[] o]|]; first [by intros []|by eauto].
  - intros rx w w'. simpl. destruct (rxs w !! rx) as [[[] o]|]; [done| |done]. intros [= <-] x Hx.
    split; [unfold demo_live; simpl; by rewrite length_insert|]. intros Hne. simpl.
    rewrite list_lookup_insert_ne by done. destruct (rxs w !! x) as [[[] o']|]; first [by intros []|by eauto].
  - intros rx w w' p. simpl. destruct (rxs w !! rx) as [[[] [q|]]|]; intros [= <- <-] x Hx;
      by try apply demo_set_frame.
  - intros rx w w' r Hl. simpl. unfold demo_live in Hl.
    destruct (rxs w !! rx) as [[[] [q|]]|] eqn:E; try done; intros [= <- <-]; simpl;
      rewrite ?list_lookup_insert_eq by done; rewrite ?E; eauto.
  - intros f w f' w' p [= _ <- _] x Hx. split; [done|]. by rewrite !demo_available.
  - done.
Qed.

(** The repliers answer the messages that have arrived. *)
Definition answer_one (w : DemoWorld) (m : nat * Message nat nat nat) : DemoWorld :=
  match m.2 with
  | QueryCall q rx =>
      match rxs w !! rx with
      | Some (true, _) => set_rx rx (true, Some (10 * q + m.1)) w
      | _ => w
      end
  | EventCall _ => w
  end.
Definition answer (w : DemoWorld) : DemoWorld :=
  foldl answer_one (mkDemo [] (rxs w)) (mail w).

Abbreviation demo_kept := (kept (PW := demo_ports) demo_live).

Lemma answer_one_kept w m : demo_kept w (answer_one w m).
Proof.
  intros rx Hl. unfold answer_one. destruct m as [a [c|q rx']]; cbn [fst snd]; [done|].
  destruct (rxs w !! rx') as [[[] o]|] eqn:E; [|done..].
  split; [unfold demo_live; simpl; by rewrite length_insert|].
  rewrite !demo_available. simpl. destruct (decide (rx = rx')) as [->|Hne].
  - rewrite E. by intros [? [=]].
  - by rewrite list_lookup_insert_ne.
Qed.

Lemma answer_kept w : demo_kept w (answer w).
Proof.
  unfold answer. assert (demo_kept w (mkDemo [] (rxs w))) as Hk.
  { intros rx Hl. split; [done|]. by rewrite !demo_available. }
  revert Hk. generalize (mkDemo [] (rxs w)). induction (mail w) as [|m l IH]; intros w1 Hk; [done|].
  simpl. apply IH. eapply kept_trans; [done|]. apply answer_one_kept.
Qed.

(** Three connections: one maps, one keeps even queries only, one is direct. *)
Definition demo_requestor : BroadcasterInner (QuerySender nat nat nat nat nat nat) nat :=
  mkInner
    [DMapReplier (MapReplierSender_new S S id 1);
     DFilterMapReplier (FilterMapReplierSender_new (λ x, if Nat.even x then Some x else None) id id 2);
     DReplier (ReplierSender_new id id 3)]
    [None; Some 7; None] false.

Definition demo_requestor_polls : list (list (list nat) * (DemoWorld → DemoWorld)) :=
  [([], id); ([[1]; [0]], answer)].

Definition demo_query (arg : nat) :=
  query_broadcast (F := QueryFut nat (nat * Message nat nat nat) nat nat) 5
    demo_requestor_polls arg demo_requestor (mkDemo [] []).

Lemma requestor_replies_witness :
  ∃ self' w', demo_query 3 = Done (Some (Ok [42; 33]), self', w') ∧
    inner_ready demo_live self' w'.
Proof.
  destruct (requestor_replies demo_live 5 demo_requestor_polls 3 demo_requestor
    (mkDemo [] [])) as (o & self' & w' & Hq & _ & _ & Hr).
  - split; [|reflexivity]. split; [apply NoDup_nil_2|constructor].
  - constructor; [by intros w x|]. constructor; [|constructor]. apply answer_kept.
  - repeat constructor; vm_compute; lia.
  - assert (o = Some (Ok [42; 33])) as ->.
    { vm_compute in Hq. by injection Hq as <- _ _. }
    exists self', w'. split; [exact Hq|]. exact (proj1 (Hr _ eq_refl)).
Defined.

Lemma cancelled_query_then_panics_witness :
  ∃ self' w',
    query_broadcast 1 [([], id); ([], id)] 4
      (mkInner [DReplier (ReplierSender_new id id 3)] [None] false) (mkDemo [] []) =
      Done (None, self', w') ∧
    query_broadcast (R := nat) 1 [([], id)] 5 self' w' = Panicked.
Proof.
  destruct (query_broadcast 1 [([], id); ([], id)] 4
      (mkInner [DReplier (ReplierSender_new id id 3)] [None] false) (mkDemo [] []))
    as [[[o self'] w']| |] eqn:E; [|vm_compute in E; discriminate E..].
  assert (o = None) as -> by (vm_compute in E; by injection E as <- _ _).
  exists self', w'. split; [done|].
  refine (cancelled_query_then_panics _ _ 1 1 [([], id); ([], id)] 4 5
    (DReplier (ReplierSender_new id id 3)) [None] false (mkDemo [] []) self' w' [] [] _ _ _ E).
  - intros rx w w1. simpl. destruct (rxs w !! rx) as [[[] [q|]]|] eqn:Erx; try done;
      intros [= <-]; by rewrite Erx.
  - intros f w. by do 2 eexists.
  - done.
  - by eexists.
  - by eexists.
Defined.
