(* ===== verification/OutputClones.v ===== *)
(** * Clones of an output port

    An output port and its clones share their connections through a cached
    lock, while each broadcasts from its own cache. *)

From stdpp Require Import base option list numbers relations.
From Stdlib Require Import ZArith Lia.
From S2P Require Import Prelude Broadcast CachedLock OutputSenders OutputPorts OutputFacts.

(** What a connection is, whatever its box and its reply channel. *)
Class SenderLaws {S T F W C : Type} `{SO : SenderOps S T F W} (connection : S → C) := {
  connection_send : ∀ arg s w o s' w', send arg s w = Done (o, s', w') → connection s' = connection s;
  connection_send_owned : ∀ arg s w o s' w',
    send_owned arg s w = Done (o, s', w') → connection s' = connection s;
  connection_clone : ∀ s, connection (sender_clone s) = connection s;
  connection_lend : ∀ s, connection (lend s) = connection s;
}.
Arguments connection_send {S T F W C SO connection _}.
Arguments connection_send_owned {S T F W C SO connection _}.
Arguments connection_clone {S T F W C SO connection _}.
Arguments connection_lend {S T F W C SO connection _}.

Section Instances.
Context {Addr Call QCall Reply SendFut Rx W T : Type}.
Context `{PW : PortWorld Addr Call QCall Reply SendFut Rx W}.

#[export] Instance EventSender_laws :
  SenderLaws (T := T) (F := EventFut SendFut W) (W := W) (EventSender_clone (Addr := Addr) (Call := Call) (W := W) (T := T)).
Proof.
  split.
  - intros arg s w o s' w'. simpl. destruct s as [[]|U []|U []|[]|U []|U []]; simpl;
      try (intros [= <- <- <-]; done).
    + unfold FilterMapInputSender_send. simpl. destruct (fis_filter_map arg); by intros [= <- <- <-].
    + unfold FilterMapEventSinkSender_send. simpl. destruct (fes_filter_map arg); by intros [= <- <- <-].
  - intros arg s w o s' w'. simpl. destruct s as [[]|U []|U []|[]|U []|U []]; simpl;
      try (intros [= <- <- <-]; done).
    + unfold FilterMapInputSender_send. simpl. destruct (fis_filter_map arg); by intros [= <- <- <-].
    + unfold FilterMapEventSinkSender_send. simpl. destruct (fes_filter_map arg); by intros [= <- <- <-].
  - by intros [].
  - by intros [[]|U []|U []|[]|U []|U []].
Qed.

Context {R : Type}.

Lemma query_send_connection arg (s : QuerySender Addr QCall Reply Rx T R) w o s' w' :
  QuerySender_send arg s w = Done (o, s', w') → QuerySender_clone s' = QuerySender_clone s.
Proof.
  destruct s as [s|U s|U s]; simpl.
  - unfold ReplierSender_send, ReplierSender_send_owned.
    destruct (reply_sender _ w) as [[rx w1]| |]; simpl; [|done..]. by intros [= <- <- <-].
  - unfold MapReplierSender_send.
    destruct (reply_sender _ w) as [[rx w1]| |]; simpl; [|done..]. by intros [= <- <- <-].
  - unfold FilterMapReplierSender_send. destruct (frs_query_filter_map U s arg); simpl.
    + destruct (reply_sender _ w) as [[rx w1]| |]; simpl; [|done..]. by intros [= <- <- <-].
    + by intros [= <- <- <-].
Qed.

#[export] Instance QuerySender_laws :
  SenderLaws (T := T) (F := QueryFut Reply SendFut Rx R) (W := W)
    (QuerySender_clone (Addr := Addr) (QCall := QCall) (Reply := Reply) (Rx := Rx) (T := T) (R := R)).
Proof.
  split.
  - intros arg s w o s' w'. apply query_send_connection.
  - intros arg s w o s' w'. simpl. intros Hs. apply (query_send_connection arg s w o s' w').
    by destruct s.
  - by intros [].
  - by intros [[]|U []|U []].
Qed.
End Instances.

(** ** Broadcasts keep the connections *)

Section Broadcasts.
Context {S T F R W C : Type} `{SO : SenderOps S T F W} `{FO : FutureOps F R W}.
Context (connection : S → C) `{SL : !SenderLaws connection}.
Abbreviation Inner := (BroadcasterInner S R).

Definition connections (self : Inner) : list C := connection <$> senders self.

Lemma send_all_cons2 i arg s s2 l (w : W) :
  send_all i arg (s :: s2 :: l) w =
  let! (o, s, w) := send arg s w in
  let! (futs, l, w) := send_all (Datatypes.S i) arg (s2 :: l) w in
  Done (option_list (flip mkRecycled i <$> o) ++ futs, s :: l, w).
Proof. done. Qed.

Lemma send_all_connections i arg l w futs l' w' :
  send_all i arg l w = Done (futs, l', w') → connection <$> l' = connection <$> l.
Proof.
  revert i w futs l' w'. induction l as [|s l IH]; intros i w futs l' w'.
  { simpl. by intros [= _ <- _]. }
  destruct l as [|s2 l].
  - simpl. destruct (send_owned arg s w) as [[[o s1] w1]| |] eqn:E; simpl; [|done..].
    intros [= <- <- <-]. simpl. by rewrite (connection_send_owned (connection := connection) _ _ _ _ _ _ E).
  - rewrite send_all_cons2. destruct (send arg s w) as [[[o s1] w1]| |] eqn:E; cbn [obind]; [|done..].
    destruct (send_all _ arg (s2 :: l) w1) as [[[fs l1] w2]| |] eqn:E2; cbn [obind]; [|done..].
    intros [= _ <- _]. by rewrite !fmap_cons, (IH _ _ _ _ _ E2), (connection_send (connection := connection) _ _ _ _ _ _ E).
Qed.

Lemma drop_recycled_connections (f : RecycledFuture F) (self : Inner) w :
  connections (drop_recycled f self w).1 = connections self.
Proof.
  unfold connections. simpl. generalize (senders self). generalize (lender_box f). intros j l.
  revert j. induction l as [|s l IH]; intros [|j]; simpl; [done..| |].
  - by rewrite connection_lend.
  - f_equal. apply IH.
Qed.

Lemma drop_all_connections (futs : list (RecycledFuture F)) (self : Inner) w :
  connections (drop_all futs self w).1 = connections self.
Proof.
  revert self w. induction futs as [|f futs IH]; intros self w; [done|]. cbn [drop_all].
  pose proof (drop_recycled_connections f self w) as H1.
  destruct (drop_recycled f self w) as [self1 w1]. simpl in H1. by rewrite IH.
Qed.

Lemma await_single_connections polls f (self : Inner) w :
  connections (await_single polls f self w).1.2 = connections self.
Proof.
  unfold await_single. destruct (await_one polls f w) as [[r f1] w1].
  pose proof (drop_recycled_connections f1 self w1) as H1.
  by destruct (drop_recycled f1 self w1) as [self1 w2].
Qed.

Lemma await_many_connections polls futs (self self' : Inner) w r w' :
  await_many polls futs self w = Done (r, self', w') → connections self' = connections self.
Proof.
  unfold await_many. destruct (await_all _ _ _) as [[[r1 this] w1]| |]; simpl; [|done..].
  match goal with |- context [drop_all ?a ?b ?c] => pose proof (drop_all_connections a b c) as H1;
    destruct (drop_all a b c) as [self1 w2] end.
  by intros [= _ <- _].
Qed.

(** [query_broadcast] and [event_broadcast] only change the state of the
    senders. *)
Definition keeps_connections {O : Type}
    (b : list (list (list nat) * (W → W)) → T → Inner → W → outcome (option (result O unit) * Inner * W)) :
    Prop :=
  ∀ polls arg self w r self' w', b polls arg self w = Done (r, self', w') →
    connections self' = connections self.

Lemma finish_query_connections n k r (self self' : Inner) (w : W) o w' :
  finish_query n k r self w = Done (o, self', w') → connections self' = connections self.
Proof.
  unfold finish_query. destruct r as [[[]|e]|]; [|by intros [= _ <- _]..].
  unfold take_outputs. destruct (take_replies _ _); simpl; [|done..]. by intros [= _ <- _].
Qed.

Lemma store_single_connections (x : option (result R unit) * Inner * W) r self' w' :
  store_single x = Done (r, self', w') → connections self' = connections x.1.2.
Proof.
  destruct x as [[o self] w]. simpl. destruct o as [[o|e]|]; [|by intros [= _ <- _]..].
  unfold set_output. destruct (outputs self !! 0); simpl; [|done..]. by intros [= _ <- _].
Qed.

Lemma futures_connections arg (self self' : Inner) w futs w' :
  futures arg self w = Done (futs, self', w') → connections self' = connections self.
Proof.
  unfold futures. destruct (send_all 0 arg (senders self) w) as [[[fs l] w1]| |] eqn:E; simpl; [|done..].
  intros [= _ <- _]. by eapply send_all_connections.
Qed.

Lemma send_one_connections arg (self : Inner) sender s1 o w w1 b :
  senders self = [sender] → send_owned arg sender w = Done (o, s1, w1) →
  connections (mkInner [s1] (outputs self) b) = connections self.
Proof.
  intros Hs E. unfold connections. rewrite Hs. simpl.
  by rewrite (connection_send_owned (connection := connection) _ _ _ _ _ _ E).
Qed.

Lemma single_query_connections n k polls f (self self' : Inner) w r w' :
  (let! (r, self, w) := store_single (await_single polls f self w) in
   finish_query n k r self w) = Done (r, self', w') →
  connections self' = connections self.
Proof.
  destruct (store_single _) as [[[r1 self1] w1]| |] eqn:E; simpl; [|done..].
  intros Hf%finish_query_connections. rewrite Hf, (store_single_connections _ _ _ _ E).
  apply await_single_connections.
Qed.

Lemma query_keeps_connections n : keeps_connections (query_broadcast n).
Proof.
  intros [|[b env] polls] arg self w r self' w'; cbn [query_broadcast].
  { by intros [= _ <- _]. }
  destruct (senders self) as [|s [|s2 l]] eqn:Hs.
  - apply finish_query_connections.
  - destruct (send_owned arg s (env w)) as [[[o s1] w1]| |] eqn:E; cbn [obind]; [|done..].
    rewrite <-(send_one_connections arg self s s1 o _ w1 (storage self) Hs E).
    destruct o as [f|]; [apply single_query_connections|apply finish_query_connections].
  - destruct (futures arg self (env w)) as [[[futs self1] w1]| |] eqn:E; cbn [obind]; [|done..].
    rewrite <-(futures_connections _ _ _ _ _ _ E).
    destruct futs as [|f [|f2 futs]].
    + apply finish_query_connections.
    + apply single_query_connections.
    + destruct (await_many _ _ self1 w1) as [[[r1 self2] w2]| |] eqn:E2; cbn [obind]; [|done..].
      rewrite <-(await_many_connections _ _ _ _ _ _ _ E2). apply finish_query_connections.
Qed.
End Broadcasts.

Section Events.
Context {S T F W C : Type} `{SO : SenderOps S T F W} `{FO : FutureOps F unit W}.
Context (connection : S → C) `{SL : !SenderLaws connection}.

Lemma event_keeps_connections : keeps_connections (R := unit) connection event_broadcast.
Proof.
  intros [|[b env] polls] arg self w r self' w'; cbn [event_broadcast].
  { by intros [= _ <- _]. }
  assert (∀ polls f self1 w1, Done (await_single polls f self1 w1) = Done (r, self', w') →
    connections connection self' = connections connection self1) as Hsingle.
  { intros ps f self1 w1 [= He]. rewrite <-(await_single_connections connection ps f self1 w1).
    by rewrite He. }
  destruct (senders self) as [|s [|s2 l]] eqn:Hs.
  - by intros [= _ <- _].
  - destruct (send_owned arg s (env w)) as [[[o s1] w1]| |] eqn:E; cbn [obind]; [|done..].
    rewrite <-(send_one_connections connection arg self s s1 o _ w1 (storage self) Hs E).
    destruct o as [f|]; [apply Hsingle|by intros [= _ <- _]].
  - destruct (futures arg self (env w)) as [[[futs self1] w1]| |] eqn:E; cbn [obind]; [|done..].
    rewrite <-(futures_connections connection _ _ _ _ _ _ E).
    destruct futs as [|f [|f2 futs]].
    + by intros [= _ <- _].
    + apply Hsingle.
    + by apply await_many_connections.
Qed.
End Events.

(** ** Handles of a port *)

Section Port.
Context {S T F R W O C : Type} `{SO : SenderOps S T F W}.
Context (connection : S → C) `{SL : !SenderLaws connection}.
Abbreviation Inner := (BroadcasterInner S R).
Context (broadcast :
  list (list (list nat) * (W → W)) → T → Inner → W → outcome (option (result O unit) * Inner * W)).
Hypothesis keeps : keeps_connections connection broadcast.
Abbreviation conns := (connections (R := R) connection).

Lemma inner_clone_connections (self : Inner) : conns (inner_clone self) = conns self.
Proof.
  unfold connections. simpl. rewrite <-list_fmap_compose. apply list_fmap_ext. intros ? s _.
  apply connection_clone.
Qed.

Lemma inner_add_connections s (self self' : Inner) :
  inner_add s self = Done self' → conns self' = conns self ++ [connection s].
Proof.
  unfold inner_add. destruct (_ <? _)%Z; simpl; [|done]. intros [= <-].
  unfold connections. simpl. by rewrite fmap_app.
Qed.

(** The caches hold a list of connections that the port had; the list only
    grows, by one connection per epoch. *)
Definition caches_ok (p : Lock Inner) : Prop :=
  ∀ i h, handles p !! i = Some h → observed conns p (epoch h) = Some (conns (value h)).

Definition history_ok (p : Lock Inner) : Prop :=
  poisoned p = false → ∀ e v, history p !! e = Some v →
    length (conns v) = e ∧ conns v `prefix_of` conns (sh_value p).

Record port_inv (p : Lock Inner) : Prop := {
  pi_lock : lock_inv conns p;
  pi_caches : caches_ok p;
  pi_history : history_ok p;
}.

Lemma set_handle_caches i h (p : Lock Inner) : caches_ok p →
  observed conns p (epoch h) = Some (conns (value h)) → caches_ok (set_handle i h p).
Proof.
  intros Hc Hh j x Hx. simpl in Hx.
  apply list_lookup_insert_Some in Hx as [(_ & <- & _)|[_ Hx]]; [done|]. by apply (Hc j).
Qed.

Lemma lock_step_caches i a (p p' : Lock Inner) r : lock_inv conns p → caches_ok p →
  (∀ f h, a = AScratch f → handles p !! i = Some h → conns (f (value h)) = conns (value h)) →
  lock_step inner_clone i a p = Some (p', r) → caches_ok p'.
Proof.
  intros Hinv Hc Hf. unfold lock_step. destruct (handles p !! i) as [h|] eqn:Hh; [|done]. simpl.
  pose proof (Hc i h Hh) as Hch.
  destruct (h_pc h) eqn:Hpc, a as [e|e|e|f|f| |j]; try done.
  - unfold read_step. destruct (may_load e h p); [|done]. simpl.
    destruct (e =? epoch h)%nat; intros [= <- <-]; by apply set_handle_caches.
  - unfold write_step. destruct (holder p); [done|]. destruct (may_load _ _ p); [|done].
    intros [= <- <-]. exact (set_handle_caches i (goto HGuard (see (Datatypes.S e) (see (sh_seen p) h))) p Hc Hch).
  - intros [= <- <-]. apply set_handle_caches; [done|]. simpl. by rewrite (Hf f h).
  - intros [= <- <-] k x Hx. simpl in Hx. apply lookup_app_Some in Hx as [Hx|[_ Hx]].
    + by apply (Hc k).
    + apply list_lookup_singleton_Some in Hx as [_ <-]. simpl. by rewrite inner_clone_connections.
  - destruct (handles p !! j) as [h'|]; [|done]. simpl. intros [= <- <-]. by apply set_handle_caches.
  - intros Hs. pose proof Hs as Hs0. unfold sync_step in Hs. destruct (holder p) eqn:Hho; [done|].
    destruct (poisoned p); [injection Hs as <- <-; by apply set_handle_caches|].
    destruct (may_load _ _ p) eqn:Hm; [|done]. apply may_load_iff in Hm. simpl in Hm.
    pose proof (li_seen _ _ Hinv Hho) as Hse. assert (e = sh_epoch p) as -> by lia.
    injection Hs as <- <-. apply (set_handle_caches i _ p Hc). simpl.
    rewrite inner_clone_connections. by apply observed_last.
  - intros [= <- <-]. unfold drop_step. destruct (f (sh_value p)) as [ok v].
    intros k x Hx. simpl in Hx. apply list_lookup_insert_Some in Hx as [(_ & <- & _)|[_ Hx]].
    + by apply observed_app.
    + apply observed_app. by apply (Hc k).
Qed.

Lemma lock_step_history i a (p p' : Lock Inner) r : (∀ f, a ≠ ADrop f) →
  lock_step inner_clone i a p = Some (p', r) →
  history p' = history p ∧ sh_value p' = sh_value p ∧ poisoned p' = poisoned p.
Proof.
  intros Hf. unfold lock_step. destruct (handles p !! i) as [h|] eqn:Hh; [|done]. simpl.
  destruct (h_pc h) eqn:Hpc, a as [e|e|e|f|f| |j]; try done.
  - unfold read_step. destruct (may_load e h p); [|done]. simpl.
    destruct (e =? epoch h)%nat; by intros [= <- <-].
  - unfold write_step. destruct (holder p); [done|]. destruct (may_load _ _ p); [|done].
    by intros [= <- <-].
  - by intros [= <- <-].
  - by intros [= <- <-].
  - destruct (handles p !! j) as [h'|]; [|done]. simpl. by intros [= <- <-].
  - unfold sync_step. destruct (holder p); [done|]. destruct (poisoned p) eqn:Hp; [by intros [= <- <-]|].
    destruct (may_load _ _ p); [|done]. by intros [= <- <-].
  - by destruct (Hf f).
Qed.

(** Adding a connection, or unwinding. *)
Lemma drop_history i f (p p' : Lock Inner) r : lock_inv conns p → history_ok p →
  (∀ v v', f v = (true, v') → ∃ s, conns v' = conns v ++ [connection s]) →
  lock_step inner_clone i (ADrop f) p = Some (p', r) → history_ok p'.
Proof.
  intros Hinv Hok Hf. unfold lock_step. destruct (handles p !! i) as [h|] eqn:Hh; [|done]. simpl.
  destruct (h_pc h) eqn:Hpc; try done. intros [= <- <-]. unfold drop_step.
  destruct (f (sh_value p)) as [ok v] eqn:Ef. intros Hp. simpl in Hp.
  apply orb_false_iff in Hp as [Hp Ho]. destruct ok; [|done].
  destruct (Hf _ _ Ef) as [s Hs]. simpl.
  pose proof (li_value _ _ Hinv) as Hlast. rewrite last_lookup in Hlast.
  destruct (Hok Hp _ _ Hlast) as [Hlen _].
  assert (history p ≠ []) as Hne by (by destruct (history p)).
  assert (0 < length (history p)) by (destruct (history p); simpl; [done|lia]).
  intros e x Hx. apply lookup_app_Some in Hx as [Hx|[Hge Hx]].
  - destruct (Hok Hp e x Hx) as [Hl Hpre]. split; [done|]. rewrite Hs. by apply prefix_app_r.
  - apply list_lookup_singleton_Some in Hx as [Hj <-]. rewrite Hs, length_app, Hlen. simpl.
    split; [lia|done].
Qed.

Lemma history_ok_same (p p' : Lock Inner) :
  history p' = history p ∧ sh_value p' = sh_value p ∧ poisoned p' = poisoned p →
  history_ok p → history_ok p'.
Proof. unfold history_ok. intros (-> & -> & ->). done. Qed.

Lemma lock_step_port_inv i a (p p' : Lock Inner) r :
  port_inv p → lock_step inner_clone i a p = Some (p', r) →
  (∀ f h, a = AScratch f → handles p !! i = Some h → conns (f (value h)) = conns (value h)) →
  (∀ f v v', a = ADrop f → f v = (true, v') → ∃ s, conns v' = conns v ++ [connection s]) →
  port_inv p'.
Proof.
  intros [H1 H2 H3] Hs Hscr Hdrop. split.
  - eapply lock_step_inv; [|done..]. apply inner_clone_connections.
  - by eapply lock_step_caches.
  - destruct a as [e|e|e|f|f| |j];
      try (eapply history_ok_same; [eapply lock_step_history; [|exact Hs]; done|done]).
    eapply drop_history; [exact H1|exact H3| |exact Hs]. intros v v'. by apply Hdrop.
Qed.

Lemma port_step_inv i a (p p' : Lock Inner) w w' r :
  port_inv p → port_step broadcast i a p w = Some (p', w', r) → port_inv p'.
Proof.
  intros Hinv. unfold port_step.
  assert (∀ b, (∀ f, b ≠ AScratch f) → (∀ f v v', b = ADrop f → f v = (true, v') →
      ∃ s, conns v' = conns v ++ [connection s]) →
    ('(p, r) ← lock_step inner_clone i b p; Some (p, w, r)) = Some (p', w', r) → port_inv p') as Hlock.
  { intros b Hb1 Hb2. destruct (lock_step inner_clone i b p) as [[p1 r1]|] eqn:E; [|done].
    intros [= <- <- <-]. eapply lock_step_port_inv; [exact Hinv|exact E| |exact Hb2].
    intros f h Hf. by destruct (Hb1 f). }
  destruct a as [e|s| |e|e|polls arg| |j]; try (apply Hlock; done).
  - destruct (poisoned p); [done|]. apply Hlock; [done|]. intros f v v' [= <-].
    unfold add_guarded. destruct (inner_add s v) as [v1| |] eqn:E; [|done..]. intros [= <-].
    exists s. by apply inner_add_connections.
  - destruct (poisoned p); [|done]. apply Hlock; [done|]. by intros f v v' [= <-].
  - unfold port_broadcast. destruct (handles p !! i) as [[v e n d pc]|] eqn:Hh; [|by intros [= <- <- <-]].
    destruct pc; [|by intros [= <- <- <-]..].
    destruct (broadcast polls arg v w) as [[[o v'] w1]| |] eqn:E; simpl; [|done..]. intros [= <- <- <-].
    eapply (lock_step_port_inv i (AScratch (λ _, v'))); [exact Hinv| |..].
    + unfold lock_step. rewrite Hh. simpl. reflexivity.
    + intros f h [= <-] Hx. assert (h = mkHandle v e n d HIdle) as -> by congruence. simpl.
      by eapply keeps.
    + done.
Qed.

Lemma port_new_inv : port_inv port_new.
Proof.
  split.
  - apply lock_new_inv, inner_clone_connections.
  - intros [|i] h Hh; simplify_eq/=. done.
  - intros _ [|e] v Hv; simplify_eq/=. done.
Qed.

Lemma port_clones_share w0 p w i a p' w' h v :
  rtc (port_next broadcast) (port_new, w0) (p, w) → poisoned p = false →
  handles p !! i = Some h → port_step broadcast i a p w = Some (p', w', Some (Ok v)) →
  ∃ e, seen h ≤ e ∧ conns v = take e (conns (sh_value p)).
Proof.
  intros Hr Hp Hh Hs.
  assert (port_inv p) as Hinv.
  { refine (rtc_ind_r (λ x, port_inv x.1) _ _ _ (p, w) Hr); [apply port_new_inv|].
    intros [p1 w1] [p2 w2] _ (j & b & r & Hstep). simpl in *. intros Hi. by eapply port_step_inv. }
  destruct Hinv as [H1 H2 H3].
  assert (∃ e, seen h ≤ e ∧ observed conns p e = Some (conns v)) as (e & Hle & Ho).
  { assert (∀ b, ('(p, r) ← lock_step inner_clone i b p; Some (p, w, r)) = Some (p', w', Some (Ok v)) →
      lock_step inner_clone i b p = Some (p', Some (Ok v))) as Hlock.
    { intros b. destruct (lock_step inner_clone i b p) as [[p1 r1]|]; [|done]. by intros [= <- _ <-]. }
    assert (∃ b, lock_step inner_clone i b p = Some (p', Some (Ok v))) as [b Hb].
    { unfold port_step in Hs. destruct a as [e|s| |e|e|polls arg| |j]; try by eauto.
      - destruct (poisoned p); [done|]. eauto.
      - destruct (poisoned p); [|done]. eauto.
      - destruct (port_broadcast _ _ _ _ _ _) as [[[? ?] ?]| |]; done. }
    unfold lock_step in Hb. rewrite Hh in Hb. simpl in Hb.
    destruct (h_pc h) eqn:Hpc, b as [e|e|e|f|f| |j]; try done.
    - destruct (read_step_inv _ i e h p p' _ H1 Hh Hpc Hb) as (_ & _ & Hok & _).
      destruct (Hok v eq_refl) as [-> Hle]. exists (epoch h). split; [done|]. by apply (H2 i).
    - destruct (write_step_inv _ i e h p p' _ H1 Hh Hpc Hb) as (_ & _ & Hok & _). by destruct (Hok v).
    - destruct (handles p !! j); done.
    - destruct (sync_step_inv _ _ inner_clone_connections i e h p p' _ H1 Hh Hpc Hb) as (_ & _ & Hok & _).
      destruct (Hok v eq_refl) as (Ho & Hle & _). eauto. }
  exists e. split; [done|]. unfold observed in Ho. apply fmap_Some in Ho as (x & Hx & ->).
  destruct (H3 Hp e x Hx) as [<- [k Hk]]. by rewrite Hk, take_app_length.
Qed.
End Port.

Section Ports.
Context {Addr Call QCall Reply SendFut Rx W T R : Type}.
Context `{PW : PortWorld Addr Call QCall Reply SendFut Rx W}.

(** C11: clones of an output port.  Whatever the order in which the clones of an
    output connect, synchronize and broadcast, and however stale their caches,
    a broadcast that is about to start uses the first [e] connections of the
    port, in the order in which they were made by whichever clone, where [e]
    is at least the number of connections that, as far as the thread of the
    clone knows, were made before; earlier broadcasts do not change them. *)
Theorem output_clones_share w0 p w i a p' w' h v :
  rtc (output_next (T := T) (W := W) (SendFut := SendFut) (PW := PW)) (Output_new, w0) (p, w) →
  poisoned p = false → handles p !! i = Some h →
  port_step event_broadcast i a p w = Some (p', w', Some (Ok v)) →
  ∃ e, seen h ≤ e ∧
    connections EventSender_clone v = take e (connections EventSender_clone (sh_value p)).
Proof.
  apply port_clones_share; [apply EventSender_laws|].
  apply (event_keeps_connections EventSender_clone).
Qed.

(** The same for the clones of a requestor. *)
Lemma requestor_clones_share n w0 p w i a p' w' h v :
  rtc (requestor_next (T := T) (R := R) (W := W) (SendFut := SendFut) (PW := PW) n)
    (Requestor_new, w0) (p, w) →
  poisoned p = false → handles p !! i = Some h →
  port_step (query_broadcast n) i a p w = Some (p', w', Some (Ok v)) →
  ∃ e, seen h ≤ e ∧
    connections QuerySender_clone v = take e (connections QuerySender_clone (sh_value p)).
Proof.
  apply port_clones_share; [apply QuerySender_laws|].
  apply (query_keeps_connections QuerySender_clone).
Qed.
End Ports.

(** ** Evaluation

    A clone is made, the first handle connects an input, and the clone learns
    of it and finds out that its cache is old. *)

Abbreviation demo_sender := (EventSender nat nat DemoWorld nat).

Fixpoint port_run (l : list (nat * PortAct demo_sender nat DemoWorld))
    (x : Lock (BroadcasterInner demo_sender unit) * DemoWorld) :=
  match l with
  | [] => Some x
  | (i, a) :: l =>
      match port_step event_broadcast i a x.1 x.2 with
      | Some (p, w, _) => port_run l (p, w)
      | None => None
      end
  end.

Lemma port_run_rtc l x y : port_run l x = Some y → rtc output_next x y.
Proof.
  revert x. induction l as [|[i a] l IH]; intros x; simpl; [by intros [= ->]|].
  destruct (port_step event_broadcast i a x.1 x.2) as [[[p w] r]|] eqn:Hs; [|done]. intros Hr.
  eapply rtc_l; [|by apply IH]. by exists i, a, r.
Qed.

Definition demo_clone_steps : list (nat * PortAct demo_sender nat DemoWorld) :=
  [(0, PClone); (0, PWrite 0); (0, Output_connect id 5); (1, PSee 0); (1, PLoad 1)].

Lemma output_clones_share_witness :
  ∃ p w p' w' h v, port_run demo_clone_steps (Output_new, mkDemo [] []) = Some (p, w) ∧
    handles p !! 1 = Some h ∧ port_step event_broadcast 1 (PSync 1) p w = Some (p', w', Some (Ok v)) ∧
    ∃ e, seen h ≤ e ∧
      connections EventSender_clone v = take e (connections EventSender_clone (sh_value p)).
Proof.
  destruct (port_run demo_clone_steps (Output_new, mkDemo [] [])) as [[p w]|] eqn:Hr;
    [|vm_compute in Hr; discriminate Hr].
  destruct (handles p !! 1) as [h|] eqn:Hh;
    [|vm_compute in Hr; injection Hr as <- <-; discriminate Hh].
  destruct (port_step event_broadcast 1 (PSync 1) p w) as [[[p' w'] [[v|e]|]]|] eqn:Hs;
    [|exfalso; vm_compute in Hr; injection Hr as <- <-; vm_compute in Hs; discriminate Hs..].
  exists p, w, p', w', h, v. split; [done|]. split; [done|]. split; [done|].
  refine (output_clones_share (mkDemo [] []) p w 1 (PSync 1) p' w' h v _ _ Hh Hs).
  - exact (port_run_rtc _ _ _ Hr).
  - vm_compute in Hr. injection Hr as <- <-. reflexivity.
Defined.
