(* ===== verification/Server.v ===== *)
(** * The simulation server (server/run.rs)

    The gRPC server: one handler per request, each of which locks the mutex of
    the service it needs.  Requests are served concurrently; a handler of a
    service runs under the service's lock and is one step here, while [init]
    replaces the services one after the other, each under its own lock.  The
    transport (sockets, the tonic server and the tokio runtime) is not modelled.

    A panic poisons the mutex that is held and ends the call without a reply;
    [lock().unwrap()] on a poisoned mutex panics.  A handler that waits for ever
    keeps its lock.  The mutex of the init service is never poisoned, as [init]
    catches the panics of the user's closure. *)

From stdpp Require Import base option list numbers strings gmap relations.
From Stdlib Require Import ZArith Lia.
From S2P Require Import Prelude StableQueue Time Scheduler Sinks Broadcast Sources Simulation.
From S2P Require Import IndexedPriorityQueue KeyRegistry Services.

Record Mutex (A : Type) := mkMutex { content : A; m_poisoned : bool; m_held : bool }.
Arguments mkMutex {A}.
Arguments content {A}.
Arguments m_poisoned {A}.
Arguments m_held {A}.

Definition mutex_new {A : Type} (a : A) : Mutex A := mkMutex a false false.

(** A handler under a lock: [None] if the lock is never released, otherwise the
    reply, or nothing if the call panicked. *)
Definition with_lock {A R : Type} (f : A → outcome (R * A)) (m : Mutex A) :
    option (option R * Mutex A) :=
  if m_held m then None
  else if m_poisoned m then Some (None, m)
  else
    match f (content m) with
    | Done (r, a) => Some (Some r, mkMutex a false false)
    | Panicked => Some (None, mkMutex (content m) true false)
    | NoFuel => Some (None, mkMutex (content m) false true)
    end.

Section Server.
Context {T : Type} `{MonotonicTime T}.
Context {Call Addr QCall Obs QReply Payload : Type}.
Abbreviation SourceFut := (SourceFut Call Addr QCall).
Abbreviation Action := (Action Call Addr SourceFut).
Abbreviation Task := (Task Call Addr SourceFut QCall).
Context {Q : Type} `{!StableQueue Q (T * Z) Action}.
Abbreviation Shared := (Shared Q T).
Context {E : Type} `{!Executor E Shared Task Obs (list QReply) Payload}.
Context {C : Type} `{!Clock C T}.
Context (is_send_error : Payload → bool).
Context (fmt_duration : Duration → string) (fmt_time : T → string).
Context (payload_msg : Payload → option string).
Context (encode_reply : QReply → result bytes string).
Context {S A : Type} `{!EventSinkStream S A}.
Abbreviation Simulation := (Simulation E C Shared Obs).
Abbreviation EventRegistry := (gmap string (EventSourceAny Call Addr QCall)).
Abbreviation QueryRegistry := (gmap string (QuerySourceAny Call Addr QCall)).
Abbreviation SinkRegistry := (gmap string (EventSinkStreamAny S A)).
Abbreviation Ctl := (ControllerService (T := T) (Call := Call) (Addr := Addr) (QCall := QCall)
  (Obs := Obs) (Q := Q) (E := E) (C := C)).
Abbreviation Sch := (SchedulerService (T := T) (Call := Call) (Addr := Addr) (QCall := QCall)).
Abbreviation Mon := (MonitorService (S := S) (A := A)).

(** What the user's closure makes: a simulation and its endpoints. *)
Record Bench := mkBench {
  b_simulation : Simulation;
  b_events : EventRegistry;
  b_queries : QueryRegistry;
  b_sinks : SinkRegistry;
}.
Context (sim_gen : bytes → gen_outcome Bench T Payload).
(** What the other requests do to the scheduler while [step_until] writes the
    target time: the services have a mutex each. *)
Context (meanwhile : Shared → Shared).
Context (fuel : nat).

Inductive Request :=
| RInit (cfg : bytes)
| RHalt
| RTime
| RStep
| RStepUntil (deadline : option ReqDeadline)
| RScheduleEvent (request : ScheduleEventRequest)
| RCancelEvent (key : option EventKey)
| RProcessEvent (source_name : string) (event : bytes)
| RProcessQuery (source_name : string) (request : bytes)
| RReadEvents (sink_name : string)
| ROpenSink (sink_name : string)
| RCloseSink (sink_name : string).

Inductive Response :=
| EmptyReply (r : result unit Error)
| TimeReply (r : result Timestamp Error)
| KeyReply (r : result (option EventKey) Error)
| BytesReply (r : result (list bytes) Error).

(** A call: not started, [init] about to replace the controller, the monitor or
    the scheduler by those of bench [b], replied, or ended by a panic. *)
Inductive CallState :=
| Received (request : Request)
| InitController (bench : Bench) (b : nat)
| InitMonitor (bench : Bench) (b : nat)
| InitScheduler (bench : Bench) (b : nat)
| Replied (reply : Response)
| Died.

(** The scheduler of a bench and its simulation share their scheduling state,
    which is in [shareds], by bench.  Each service comes with its bench. *)
Record Server := mkServer {
  shareds : list Shared;
  controller_service : Mutex (option nat * Ctl);
  monitor_service : Mutex (option nat * Mon);
  scheduler_service : Mutex (option nat * Sch);
  calls : list CallState;
}.

(** [GrpcSimulationService::new], with the requests that will come. *)
Definition server_new (requests : list Request) : Server :=
  mkServer [] (mutex_new (None, CNotStarted)) (mutex_new (None, MNotStarted))
    (mutex_new (None, SNotStarted)) (Received <$> requests).

Definition set_call (i : nat) (c : CallState) (s : Server) : Server :=
  mkServer (shareds s) (controller_service s) (monitor_service s) (scheduler_service s)
    (<[i := c]> (calls s)).
Definition set_controller (m : Mutex (option nat * Ctl)) (s : Server) : Server :=
  mkServer (shareds s) m (monitor_service s) (scheduler_service s) (calls s).
Definition set_monitor (m : Mutex (option nat * Mon)) (s : Server) : Server :=
  mkServer (shareds s) (controller_service s) m (scheduler_service s) (calls s).
Definition set_scheduler (m : Mutex (option nat * Sch)) (s : Server) : Server :=
  mkServer (shareds s) (controller_service s) (monitor_service s) m (calls s).
Definition set_shareds (l : list Shared) (s : Server) : Server :=
  mkServer l (controller_service s) (monitor_service s) (scheduler_service s) (calls s).

Definition finish (i : nat) (o : option Response) (s : Server) : Server :=
  set_call i (match o with Some r => Replied r | None => Died end) s.

(** *** Requests to the controller *)

Definition load_shared (b : option nat) (l : list Shared) (ctl : Ctl) : Ctl :=
  match ctl, b ≫= (l !!.) with
  | CStarted sim er qr, Some sh => CStarted (set_shared sh sim) er qr
  | _, _ => ctl
  end.
Definition store_shared (b : option nat) (ctl : Ctl) (l : list Shared) : list Shared :=
  match b, ctl with Some b, CStarted sim _ _ => <[b := shared sim]> l | _, _ => l end.

Definition on_controller (i : nat) (f : Ctl → outcome (Response * Ctl)) (s : Server) :
    option Server :=
  let handler '((b, ctl) : option nat * Ctl) :=
    let! (r, ctl) := f (load_shared b (shareds s) ctl) in Done (r, (b, ctl)) in
  '(o, m) ← with_lock handler (controller_service s);
  let l := match o with
           | Some _ => store_shared (content m).1 (content m).2 (shareds s)
           | None => shareds s
           end in
  Some (finish i o (set_shareds l (set_controller m s))).

(** *** Requests to the scheduler *)

Definition on_scheduler (i : nat) (f : Sch → Shared → outcome (Response * Sch * Shared))
    (not_started : Response) (s : Server) : option Server :=
  let handler '((b, sch) : option nat * Sch) :=
    match b ≫= (shareds s !!.), b with
    | Some sh, Some n =>
        let! (r, sch, sh) := f sch sh in Done ((r, <[n := sh]> (shareds s)), (b, sch))
    | _, _ => Done ((not_started, shareds s), (b, sch))
    end in
  '(o, m) ← with_lock handler (scheduler_service s);
  let l := match o with Some (_, l) => l | None => shareds s end in
  Some (finish i (fst <$> o) (set_shareds l (set_scheduler m s))).

(** *** Requests to the monitor *)

Definition on_monitor (i : nat) (f : Mon → outcome (Response * Mon)) (s : Server) : option Server :=
  let handler '((b, mon) : option nat * Mon) := let! (r, mon) := f mon in Done (r, (b, mon)) in
  '(o, m) ← with_lock handler (monitor_service s);
  Some (finish i o (set_monitor m s)).

(** A read that waits for ever does not end. *)
Definition of_blocking {X : Type} (b : blocking X) : outcome X :=
  match b with Returns x => Done x | Blocks => NoFuel end.

(** The first step of a call: all of it, except for [init]. *)
Definition start_call (i : nat) (r : Request) (s : Server) : option Server :=
  match r with
  | RInit cfg =>
      let (reply, bench) := init_service_init fmt_duration fmt_time payload_msg sim_gen cfg in
      match bench with
      | Some bench =>
          Some (set_call i (InitController bench (length (shareds s)))
                  (set_shareds (shareds s ++ [shared (b_simulation bench)]) s))
      | None => Some (set_call i (Replied (EmptyReply reply)) s)
      end
  | RHalt =>
      on_scheduler i (λ sch sh, let (r, sh) := scheduler_halt sch sh in Done (EmptyReply r, sch, sh))
        (EmptyReply (Err simulation_not_started_error)) s
  | RTime =>
      on_scheduler i (λ sch sh, Done (TimeReply (scheduler_time sch sh), sch, sh))
        (TimeReply (Err simulation_not_started_error)) s
  | RScheduleEvent request =>
      on_scheduler i (λ sch sh,
          let! (r, sch, sh) := scheduler_schedule_event request sch sh in
          let! r := schedule_event_reply r in
          Done (KeyReply r, sch, sh))
        (KeyReply (Err simulation_not_started_error)) s
  | RCancelEvent key =>
      on_scheduler i (λ sch sh,
          let! (r, sch, sh) := scheduler_cancel_event key sch sh in Done (EmptyReply r, sch, sh))
        (EmptyReply (Err simulation_not_started_error)) s
  | RStep =>
      on_controller i (λ c,
        let! (r, c) := controller_step is_send_error fmt_duration fmt_time payload_msg c in
        Done (TimeReply r, c)) s
  | RStepUntil deadline =>
      on_controller i (λ c,
        let! (r, c) := controller_step_until is_send_error fmt_duration fmt_time payload_msg
                         meanwhile fuel deadline c in
        Done (TimeReply r, c)) s
  | RProcessEvent name event =>
      on_controller i (λ c,
        let! (r, c) := controller_process_event is_send_error fmt_duration fmt_time payload_msg
                         name event c in
        Done (EmptyReply r, c)) s
  | RProcessQuery name request =>
      on_controller i (λ c,
        let! (r, c) := controller_process_query is_send_error fmt_duration fmt_time payload_msg
                         encode_reply name request c in
        Done (BytesReply r, c)) s
  | RReadEvents name =>
      on_monitor i (λ mon,
        let! (r, mon) := of_blocking (monitor_read_events name mon) in
        Done (BytesReply r, mon)) s
  | ROpenSink name =>
      on_monitor i (λ mon, let (r, mon) := monitor_open_sink name mon in Done (EmptyReply r, mon)) s
  | RCloseSink name =>
      on_monitor i (λ mon, let (r, mon) := monitor_close_sink name mon in Done (EmptyReply r, mon)) s
  end.

(** [*self.controller() = ...] and the two assignments after it. *)
Definition init_step (i : nat) (c : CallState) (s : Server) : option Server :=
  match c with
  | InitController bench b =>
      '(o, m) ← with_lock (λ _, Done (tt, (Some b, CStarted (b_simulation bench) (b_events bench)
                                                (b_queries bench)))) (controller_service s);
      Some (set_call i (match o with Some _ => InitMonitor bench b | None => Died end)
              (set_controller m s))
  | InitMonitor bench b =>
      '(o, m) ← with_lock (λ _, Done (tt, (Some b, MStarted (b_sinks bench)))) (monitor_service s);
      Some (set_call i (match o with Some _ => InitScheduler bench b | None => Died end)
              (set_monitor m s))
  | InitScheduler bench b =>
      '(o, m) ← with_lock (λ _, Done (tt, (Some b, SStarted (b_events bench) KeyRegistry_new)))
                  (scheduler_service s);
      Some (set_call i (match o with Some _ => Replied (EmptyReply (Ok tt)) | None => Died end)
              (set_scheduler m s))
  | _ => None
  end.

Definition server_step (i : nat) (s : Server) : option Server :=
  c ← calls s !! i;
  match c with
  | Received r => start_call i r s
  | _ => init_step i c s
  end.

Definition server_next (x y : Server) : Prop := ∃ i, server_step i x = Some y.

(** ** Which bench the services belong to *)

Definition ctl_bench (s : Server) : option nat := (content (controller_service s)).1.
Definition mon_bench (s : Server) : option nat := (content (monitor_service s)).1.
Definition sch_bench (s : Server) : option nat := (content (scheduler_service s)).1.

Definition is_poisoned (s : Server) : bool :=
  m_poisoned (controller_service s) || m_poisoned (monitor_service s) ||
  m_poisoned (scheduler_service s).

Definition in_init (c : CallState) : bool :=
  match c with InitController _ _ | InitMonitor _ _ | InitScheduler _ _ => true | _ => false end.

(** Calls of [init] that do not overlap: one only starts when no other is in
    progress. *)
Definition serial_next (x y : Server) : Prop :=
  ∃ i, server_step i x = Some y ∧
    ∀ cfg, calls x !! i = Some (Received (RInit cfg)) → Forall (λ c, in_init c = false) (calls x).

Lemma with_lock_cases {X R} (f : X → outcome (R * X)) m o m' :
  with_lock f m = Some (o, m') →
  m_held m = false ∧
  (m_poisoned m = true ∧ o = None ∧ m' = m ∨
   m_poisoned m = false ∧ match o with
     | Some r => ∃ x, f (content m) = Done (r, x) ∧ m' = mkMutex x false false
     | None => content m' = content m
     end).
Proof.
  unfold with_lock. destruct (m_held m); [done|]. destruct (m_poisoned m) eqn:Hp.
  { intros [= <- <-]. eauto. }
  intros Hr. split; [done|]. right. split; [done|].
  destruct (f (content m)) as [[r x]| |]; injection Hr as <- <-; eauto.
Qed.

(** A call other than [init] keeps the benches of the services. *)
Lemma controller_keeps i f s s' : on_controller i f s = Some s' →
  ctl_bench s' = ctl_bench s ∧ monitor_service s' = monitor_service s ∧
  scheduler_service s' = scheduler_service s ∧ length (shareds s') = length (shareds s) ∧
  (m_poisoned (controller_service s) = true → controller_service s' = controller_service s) ∧
  ∃ c, calls s' = <[i := c]> (calls s) ∧ in_init c = false.
Proof.
  unfold on_controller. destruct (with_lock _ _) as [[o m]|] eqn:Hw; [|done]. simpl. intros [= <-].
  apply with_lock_cases in Hw as [_ Hw]. unfold ctl_bench. simpl.
  assert ((content m).1 = (content (controller_service s)).1) as Hb.
  { destruct Hw as [(_ & _ & ->)|(_ & Hw)]; [done|]. destruct o; [|by rewrite Hw].
    destruct Hw as (x & Hw & ->). destruct (content (controller_service s)) as [b ctl].
    destruct (f _) as [[r1 c1]| |]; [|done..]. simpl in Hw. by simplify_eq. }
  split_and!; [done|done|done| | |].
  - destruct o; [|done]. unfold store_shared. destruct (content m).1; [|done].
    destruct (content m).2; [done|]. by rewrite length_insert.
  - intros Hp. destruct Hw as [(_ & _ & ->)|[Hp' _]]; [done|congruence].
  - eexists. split; [done|]. by destruct o.
Qed.

Lemma scheduler_keeps i f d s s' : on_scheduler i f d s = Some s' →
  sch_bench s' = sch_bench s ∧ monitor_service s' = monitor_service s ∧
  controller_service s' = controller_service s ∧ length (shareds s') = length (shareds s) ∧
  (m_poisoned (scheduler_service s) = true →
    scheduler_service s' = scheduler_service s ∧ calls s' = <[i := Died]> (calls s)) ∧
  (∀ b, sch_bench s ≠ Some b → shareds s' !! b = shareds s !! b) ∧
  ∃ c, calls s' = <[i := c]> (calls s) ∧ in_init c = false.
Proof.
  unfold on_scheduler. destruct (with_lock _ _) as [[o m]|] eqn:Hw; [|done]. simpl. intros [= <-].
  apply with_lock_cases in Hw as [_ Hw]. unfold sch_bench. simpl.
  assert ((content m).1 = (content (scheduler_service s)).1 ∧
    length (match o with Some (_, l) => l | None => shareds s end) = length (shareds s) ∧
    ∀ b, (content (scheduler_service s)).1 ≠ Some b →
      match o with Some (_, l) => l | None => shareds s end !! b = shareds s !! b) as (Hb & Hl & Hk).
  { destruct Hw as [(_ & -> & ->)|(_ & Hw)]; [done|]. destruct o as [[r l]|]; [|by rewrite Hw].
    destruct Hw as (x & Hw & ->). destruct (content (scheduler_service s)) as [b sch]. simpl in *.
    destruct (b ≫= _) as [sh|] eqn:Eb; [|by simplify_eq].
    destruct b as [n|]; [|by simplify_eq].
    destruct (f sch sh) as [[[r1 sch1] sh1]| |]; [|done..]. simpl in Hw. simplify_eq.
    split; [done|]. split; [by rewrite length_insert|]. intros k Hk.
    apply list_lookup_insert_ne. congruence. }
  split_and!; [done|done|done|done| |done|].
  - intros Hp. destruct Hw as [(_ & -> & ->)|[Hp' _]]; [done|congruence].
  - eexists. split; [done|]. by destruct o.
Qed.

Lemma monitor_keeps i f s s' : on_monitor i f s = Some s' →
  mon_bench s' = mon_bench s ∧ controller_service s' = controller_service s ∧
  scheduler_service s' = scheduler_service s ∧ shareds s' = shareds s ∧
  (m_poisoned (monitor_service s) = true → monitor_service s' = monitor_service s) ∧
  ∃ c, calls s' = <[i := c]> (calls s) ∧ in_init c = false.
Proof.
  unfold on_monitor. destruct (with_lock _ _) as [[o m]|] eqn:Hw; [|done]. simpl. intros [= <-].
  apply with_lock_cases in Hw as [_ Hw]. unfold mon_bench. simpl.
  assert ((content m).1 = (content (monitor_service s)).1) as Hb.
  { destruct Hw as [(_ & _ & ->)|(_ & Hw)]; [done|]. destruct o; [|by rewrite Hw].
    destruct Hw as (x & Hw & ->). destruct (content (monitor_service s)) as [b mon].
    destruct (f _) as [[r1 c1]| |]; [|done..]. simpl in Hw. by simplify_eq. }
  split_and!; [done..| |].
  - intros Hp. destruct Hw as [(_ & _ & ->)|[Hp' _]]; [done|congruence].
  - eexists. split; [done|]. by destruct o.
Qed.

Definition same_benches (s s' : Server) : Prop :=
  ctl_bench s' = ctl_bench s ∧ mon_bench s' = mon_bench s ∧ sch_bench s' = sch_bench s ∧
  length (shareds s') = length (shareds s) ∧ (is_poisoned s = true → is_poisoned s' = true).

Lemma request_keeps i r s s' : (∀ cfg, r ≠ RInit cfg) → start_call i r s = Some s' →
  same_benches s s' ∧ ∃ c, calls s' = <[i := c]> (calls s) ∧ in_init c = false.
Proof.
  intros Hr. unfold same_benches, is_poisoned, ctl_bench, mon_bench, sch_bench.
  assert (∀ f, on_controller i f s = Some s' → same_benches s s' ∧
    ∃ c, calls s' = <[i := c]> (calls s) ∧ in_init c = false) as Hc.
  { intros f (H1 & H2 & H3 & H4 & H5 & H6)%controller_keeps. split; [|done].
    unfold same_benches, is_poisoned, mon_bench, sch_bench. rewrite H2, H3. split_and!; [done..|].
    rewrite !orb_true_iff. intros [[Hp|Hp]|Hp]; [|by auto..]. rewrite (H5 Hp). auto. }
  assert (∀ f d, on_scheduler i f d s = Some s' → same_benches s s' ∧
    ∃ c, calls s' = <[i := c]> (calls s) ∧ in_init c = false) as Hs.
  { intros f d (H1 & H2 & H3 & H4 & H5 & _ & H6)%scheduler_keeps. split; [|done].
    unfold same_benches, is_poisoned, mon_bench, ctl_bench. rewrite H2, H3. split_and!; [done..|].
    rewrite !orb_true_iff. intros [[Hp|Hp]|Hp]; [by auto..|]. rewrite (proj1 (H5 Hp)). auto. }
  assert (∀ f, on_monitor i f s = Some s' → same_benches s s' ∧
    ∃ c, calls s' = <[i := c]> (calls s) ∧ in_init c = false) as Hm.
  { intros f (H1 & H2 & H3 & H4 & H5 & H6)%monitor_keeps. split; [|done].
    unfold same_benches, is_poisoned, sch_bench, ctl_bench. rewrite H2, H3, H4. split_and!; [done..|].
    rewrite !orb_true_iff. intros [[Hp|Hp]|Hp]; [by auto| |by auto]. rewrite (H5 Hp). auto. }
  destruct r; [by destruct (Hr cfg)|..];
    cbn [start_call]; first [apply Hc|apply Hs|apply Hm].
Qed.

(** *** Calls of init that do not overlap *)

Definition last_bench (s : Server) : option nat :=
  match length (shareds s) with 0 => None | Datatypes.S n => Some n end.

(** How far the call of [init] that is in progress has got. *)
Definition init_progress (s : Server) (c : CallState) : Prop :=
  match c with
  | InitController _ b => last_bench s = Some b
  | InitMonitor _ b => last_bench s = Some b ∧ ctl_bench s = Some b
  | InitScheduler _ b => last_bench s = Some b ∧ ctl_bench s = Some b ∧ mon_bench s = Some b
  | _ => True
  end.

Record serial_inv (s : Server) : Prop := {
  si_one : ∀ i j ci cj, calls s !! i = Some ci → calls s !! j = Some cj →
    in_init ci = true → in_init cj = true → i = j;
  si_none : is_poisoned s = false → Forall (λ c, in_init c = false) (calls s) →
    ctl_bench s = last_bench s ∧ mon_bench s = last_bench s ∧ sch_bench s = last_bench s;
  si_progress : is_poisoned s = false → Forall (init_progress s) (calls s);
}.

Lemma last_bench_same s s' : length (shareds s') = length (shareds s) → last_bench s' = last_bench s.
Proof. unfold last_bench. by intros ->. Qed.

Lemma init_progress_same s s' c : same_benches s s' → init_progress s c → init_progress s' c.
Proof.
  intros (H1 & H2 & H3 & H4 & _). pose proof (last_bench_same _ _ H4) as H5.
  destruct c; simpl; by rewrite ?H5, ?H1, ?H2.
Qed.

Lemma poisoned_before s s' : same_benches s s' → is_poisoned s' = false → is_poisoned s = false.
Proof. intros (_ & _ & _ & _ & Hp) Hf. destruct (is_poisoned s); [|done]. rewrite Hp in Hf; done. Qed.

Lemma keeps_one i c s s' : calls s' = <[i := c]> (calls s) →
  (in_init c = true → ∀ j cj, calls s !! j = Some cj → in_init cj = true → i = j) →
  (∀ j k cj ck, calls s !! j = Some cj → calls s !! k = Some ck →
    in_init cj = true → in_init ck = true → j = k) →
  ∀ j k cj ck, calls s' !! j = Some cj → calls s' !! k = Some ck →
    in_init cj = true → in_init ck = true → j = k.
Proof.
  intros -> Hi Hone j k cj ck.
  intros [(<- & <- & _)|[Hj Hcj]]%list_lookup_insert_Some [(<- & <- & _)|[Hk Hck]]%list_lookup_insert_Some;
    [done| | |by eapply Hone].
  - intros Hc Hck1. by eapply Hi.
  - intros Hcj1 Hc. symmetry. by eapply Hi.
Qed.

Lemma not_init_before i c c0 (l : list CallState) : l !! i = Some c0 → in_init c0 = false →
  Forall (λ c, in_init c = false) (<[i := c]> l) → Forall (λ c, in_init c = false) l.
Proof.
  intros Hi Hc0 Hf. rewrite <-(list_insert_id l i c0 Hi), <-(list_insert_insert_eq l i c0 c).
  by apply Forall_insert.
Qed.

Lemma serial_request i r s s' : serial_inv s → calls s !! i = Some (Received r) →
  (∀ cfg, r ≠ RInit cfg) → start_call i r s = Some s' → serial_inv s'.
Proof.
  intros [H1 H2 H3] Hi Hr Hs. destruct (request_keeps _ _ _ _ Hr Hs) as [Hb (c & Hcalls & Hc)].
  pose proof Hb as (B1 & B2 & B3 & B4 & _).
  split.
  - eapply keeps_one; [done| |done]. congruence.
  - intros Hp Hf. rewrite B1, B2, B3, (last_bench_same _ _ B4). apply H2.
    + by eapply poisoned_before.
    + rewrite Hcalls in Hf. by eapply not_init_before.
  - intros Hp. rewrite Hcalls. apply Forall_insert.
    + eapply Forall_impl; [apply H3; by eapply poisoned_before|]. intros x. by apply init_progress_same.
    + by destruct c.
Qed.

Lemma others_not_init i c (s : Server) :
  (∀ i j ci cj, calls s !! i = Some ci → calls s !! j = Some cj →
    in_init ci = true → in_init cj = true → i = j) →
  calls s !! i = Some c → in_init c = true →
  ∀ j cj, j ≠ i → calls s !! j = Some cj → in_init cj = false.
Proof.
  intros H1 Hi Hc j cj Hne Hj. destruct (in_init cj) eqn:Hcj; [|done].
  destruct Hne. by eapply H1.
Qed.

(** A call of [init] that moves on: every other call is outside of [init]. *)
Lemma serial_init_moves i c s s' : serial_inv s →
  (∀ j cj, j ≠ i → calls s !! j = Some cj → in_init cj = false) → i < length (calls s) →
  calls s' = <[i := c]> (calls s) →
  (is_poisoned s' = false → init_progress s' c ∧
    (in_init c = false →
      ctl_bench s' = last_bench s' ∧ mon_bench s' = last_bench s' ∧ sch_bench s' = last_bench s')) →
  serial_inv s'.
Proof.
  intros Hinv Hother Hi Hcalls Hc.
  assert (calls s' !! i = Some c) as Hic by (rewrite Hcalls; by rewrite list_lookup_insert_eq).
  assert (∀ j cj, j ≠ i → calls s' !! j = Some cj → in_init cj = false) as Hother'.
  { intros j cj Hne. rewrite Hcalls, list_lookup_insert_ne by done. by apply Hother. }
  split.
  - intros j k cj ck Hj Hk Hcj Hck. destruct (decide (j = i)) as [->|Hji].
    + destruct (decide (k = i)) as [->|Hki]; [done|]. by rewrite (Hother' k ck Hki Hk) in Hck.
    + by rewrite (Hother' j cj Hji Hj) in Hcj.
  - intros Hp Hf. apply Hc; [done|]. rewrite Forall_lookup in Hf. by eapply Hf.
  - intros Hp. apply Forall_lookup. intros j cj Hj. destruct (decide (j = i)) as [->|Hne].
    + assert (cj = c) as -> by congruence. by apply Hc.
    + specialize (Hother' j cj Hne Hj). by destruct cj.
Qed.

Lemma serial_start_init i cfg s s' : serial_inv s → calls s !! i = Some (Received (RInit cfg)) →
  Forall (λ c, in_init c = false) (calls s) → start_call i (RInit cfg) s = Some s' → serial_inv s'.
Proof.
  intros Hinv Hi Hf. pose proof (lookup_lt_Some _ _ _ Hi) as Hlt. cbn [start_call].
  assert (∀ j cj, j ≠ i → calls s !! j = Some cj → in_init cj = false) as Hother.
  { intros j cj _ Hj. rewrite Forall_lookup in Hf. by eapply Hf. }
  destruct (init_service_init _ _ _ _ cfg) as [reply [bench|]]; intros [= <-].
  - eapply serial_init_moves; [done..|]. intros _. split; [|done]. simpl.
    unfold last_bench. simpl. rewrite length_app, Nat.add_1_r. done.
  - eapply serial_init_moves; [done..|]. intros Hp. split; [done|]. intros _.
    by apply (si_none s Hinv).
Qed.

Lemma with_lock_set {X} (v : X) m o m' :
  with_lock (λ _, Done (tt, v)) m = Some (o, m') →
  m_poisoned m = true ∧ o = None ∧ m' = m ∨
  m_poisoned m = false ∧ o = Some tt ∧ m' = mkMutex v false false.
Proof.
  unfold with_lock. destruct (m_held m); [done|]. destruct (m_poisoned m); intros [= <- <-]; auto.
Qed.

Lemma is_poisoned_false s : is_poisoned s = false →
  m_poisoned (controller_service s) = false ∧ m_poisoned (monitor_service s) = false ∧
  m_poisoned (scheduler_service s) = false.
Proof. unfold is_poisoned. rewrite !orb_false_iff. naive_solver. Qed.

Lemma serial_init_step i c s s' : serial_inv s → calls s !! i = Some c →
  init_step i c s = Some s' → serial_inv s'.
Proof.
  intros Hinv Hi Hs. pose proof (lookup_lt_Some _ _ _ Hi) as Hlt.
  assert (in_init c = true) as Hc by by destruct c.
  pose proof (others_not_init i c s (si_one s Hinv) Hi Hc) as Hother.
  assert (is_poisoned s = false → init_progress s c) as Hprog.
  { intros Hp. pose proof (si_progress s Hinv Hp) as Hf. rewrite Forall_lookup in Hf. by eapply Hf. }
  destruct c as [|bench b|bench b|bench b| |]; try done; simpl in Hs.
  - destruct (with_lock _ (controller_service s)) as [[o m']|] eqn:Hw; [|done].
    simpl in Hs. injection Hs as <-. eapply serial_init_moves; [done..|]. intros Hp'.
    destruct (is_poisoned_false _ Hp') as (P1 & P2 & P3). simpl in P1, P2, P3.
    apply with_lock_set in Hw as [(Hp & -> & ->)|(Hp & -> & ->)]; [congruence|].
    assert (is_poisoned s = false) as Hps by (unfold is_poisoned; by rewrite Hp, P2, P3).
    specialize (Hprog Hps). simpl in Hprog. by repeat split.
  - destruct (with_lock _ (monitor_service s)) as [[o m']|] eqn:Hw; [|done].
    simpl in Hs. injection Hs as <-. eapply serial_init_moves; [done..|]. intros Hp'.
    destruct (is_poisoned_false _ Hp') as (P1 & P2 & P3). simpl in P1, P2, P3.
    apply with_lock_set in Hw as [(Hp & -> & ->)|(Hp & -> & ->)]; [congruence|].
    assert (is_poisoned s = false) as Hps by (unfold is_poisoned; by rewrite P1, Hp, P3).
    specialize (Hprog Hps). simpl in Hprog. destruct Hprog as [Hl Hb]. by repeat split.
  - destruct (with_lock _ (scheduler_service s)) as [[o m']|] eqn:Hw; [|done].
    simpl in Hs. injection Hs as <-. eapply serial_init_moves; [done..|]. intros Hp'.
    destruct (is_poisoned_false _ Hp') as (P1 & P2 & P3). simpl in P1, P2, P3.
    apply with_lock_set in Hw as [(Hp & -> & ->)|(Hp & -> & ->)]; [congruence|].
    assert (is_poisoned s = false) as Hps by (unfold is_poisoned; by rewrite P1, P2, Hp).
    specialize (Hprog Hps). simpl in Hprog. destruct Hprog as (Hl & Hb & Hm). split; [done|]. intros _.
    unfold ctl_bench, mon_bench, sch_bench, last_bench in *. simpl in *. by rewrite Hl, Hb, Hm.
Qed.

Lemma serial_new requests : serial_inv (server_new requests).
Proof.
  split.
  - intros i j ci cj. simpl. rewrite !list_lookup_fmap.
    destruct (requests !! i); simpl; [|done]. by intros [= <-].
  - done.
  - intros _. apply Forall_fmap, Forall_true. done.
Qed.

(** C34: the services of the server agree.  As long as calls of [init] do not
    overlap and no handler has panicked, whatever other requests are served
    meanwhile, then between two calls of [init] the controller, the monitor and
    the scheduler are all those of the last bench that was made, so that an
    event that a client schedules is one that the client's steps execute. *)
Theorem server_benches_agree requests s :
  rtc serial_next (server_new requests) s → is_poisoned s = false →
  Forall (λ c, in_init c = false) (calls s) →
  ctl_bench s = last_bench s ∧ mon_bench s = last_bench s ∧ sch_bench s = last_bench s.
Proof.
  intros Hr Hp Hf. assert (serial_inv s) as Hinv; [|by apply (si_none s Hinv)].
  refine (rtc_ind_r serial_inv _ _ _ s Hr); [apply serial_new|].
  intros s1 s2 _ (i & Hs & Hserial) Hinv. unfold server_step in Hs.
  destruct (calls s1 !! i) as [c|] eqn:Hi; [|done]. simpl in Hs.
  destruct c as [r| | | | |]; [|by eapply serial_init_step..].
  destruct r; [|by eapply serial_request..].
  eapply serial_start_init; [done|done|by eapply Hserial|done].
Qed.

(** *** Calls of init that overlap *)

Definition to_scheduler (r : Request) : bool :=
  match r with RHalt | RTime | RScheduleEvent _ | RCancelEvent _ => true | _ => false end.

Lemma scheduler_request_keeps i r s s' : to_scheduler r = true → start_call i r s = Some s' →
  (∀ b, sch_bench s ≠ Some b → shareds s' !! b = shareds s !! b) ∧
  (m_poisoned (scheduler_service s) = true →
    scheduler_service s' = scheduler_service s ∧ calls s' = <[i := Died]> (calls s)).
Proof.
  destruct r; intros Ht Hs; try done; apply scheduler_keeps in Hs as (_ & _ & _ & _ & H5 & H6 & _); done.
Qed.

Lemma start_init i cfg bench s :
  calls s !! i = Some (Received (RInit cfg)) → sim_gen cfg = GenResult (Ok bench) →
  server_step i s = Some (mkServer (shareds s ++ [shared (b_simulation bench)])
    (controller_service s) (monitor_service s) (scheduler_service s)
    (<[i := InitController bench (length (shareds s))]> (calls s))).
Proof.
  intros Hi Hg. unfold server_step. rewrite Hi. simpl. unfold init_service_init. by rewrite Hg.
Qed.

(** The assignments of [init] when the locks are free. *)
Lemma init_assigns i c s : calls s !! i = Some c →
  m_held (controller_service s) = false → m_held (monitor_service s) = false →
  m_held (scheduler_service s) = false → is_poisoned s = false →
  match c with
  | InitController bench b => server_step i s = Some (mkServer (shareds s)
      (mutex_new (Some b, CStarted (b_simulation bench) (b_events bench) (b_queries bench)))
      (monitor_service s) (scheduler_service s) (<[i := InitMonitor bench b]> (calls s)))
  | InitMonitor bench b => server_step i s = Some (mkServer (shareds s)
      (controller_service s) (mutex_new (Some b, MStarted (b_sinks bench)))
      (scheduler_service s) (<[i := InitScheduler bench b]> (calls s)))
  | InitScheduler bench b => server_step i s = Some (mkServer (shareds s)
      (controller_service s) (monitor_service s)
      (mutex_new (Some b, SStarted (b_events bench) KeyRegistry_new))
      (<[i := Replied (EmptyReply (Ok tt))]> (calls s)))
  | _ => True
  end.
Proof.
  intros Hi Hc Hm Hs (P1 & P2 & P3)%is_poisoned_false. unfold server_step. rewrite Hi. simpl.
  destruct c; try done; simpl; unfold with_lock; by rewrite ?Hc, ?Hm, ?Hs, ?P1, ?P2, ?P3.
Qed.

Definition all_done (s : Server) : Prop :=
  calls s !! 0 = Some (Replied (EmptyReply (Ok tt))) ∧
  calls s !! 1 = Some (Replied (EmptyReply (Ok tt))).

(** C35: two calls of [init] that overlap can leave the server with services of
    different benches.  Both calls succeed, but the controller steps the second
    bench while the scheduler service holds the first one: every request to
    schedule or cancel an event, or to halt the simulation, is then served on a
    bench that nobody steps, and leaves the one that is stepped as it is, until
    the next [init].  The lock of the init service is released before the
    services are replaced, and each of them is replaced under its own lock. *)
Theorem overlapping_inits_mix_benches cfg1 cfg2 bench1 bench2 requests :
  sim_gen cfg1 = GenResult (Ok bench1) → sim_gen cfg2 = GenResult (Ok bench2) →
  ∃ s, rtc server_next (server_new (RInit cfg1 :: RInit cfg2 :: requests)) s ∧ all_done s ∧
    ctl_bench s = Some 1 ∧ sch_bench s = Some 0 ∧
    content (controller_service s) =
      (Some 1, CStarted (b_simulation bench2) (b_events bench2) (b_queries bench2)) ∧
    ∀ i r s', calls s !! i = Some (Received r) → to_scheduler r = true →
      server_step i s = Some s' →
      ctl_bench s' = Some 1 ∧ shareds s' !! 1 = Some (shared (b_simulation bench2)).
Proof.
  intros H1 H2.
  set (s := mkServer [shared (b_simulation bench1); shared (b_simulation bench2)]
    (mutex_new (Some 1, CStarted (b_simulation bench2) (b_events bench2) (b_queries bench2)))
    (mutex_new (Some 0, MStarted (b_sinks bench1)))
    (mutex_new (Some 0, SStarted (b_events bench1) KeyRegistry_new))
    (Replied (EmptyReply (Ok tt)) :: Replied (EmptyReply (Ok tt)) :: (Received <$> requests))).
  exists s. split.
  - eapply rtc_l; [exists 0; by apply (start_init 0 cfg1 bench1)|].
    eapply rtc_l; [exists 1; by apply (start_init 1 cfg2 bench2)|].
    eapply rtc_l; [exists 0; by apply (init_assigns 0 (InitController bench1 0))|].
    eapply rtc_l; [exists 1; by apply (init_assigns 1 (InitController bench2 1))|].
    eapply rtc_l; [exists 1; by apply (init_assigns 1 (InitMonitor bench2 1))|].
    eapply rtc_l; [exists 1; by apply (init_assigns 1 (InitScheduler bench2 1))|].
    eapply rtc_l; [exists 0; by apply (init_assigns 0 (InitMonitor bench1 0))|].
    eapply rtc_l; [exists 0; by apply (init_assigns 0 (InitScheduler bench1 0))|]. apply rtc_refl.
  - split_and!; [done..|]. intros i r s' Hi Ht Hs. unfold server_step in Hs. rewrite Hi in Hs. simpl in Hs.
    assert (∀ cfg, r ≠ RInit cfg) as Hr by by intros cfg ->.
    destruct (request_keeps _ _ _ _ Hr Hs) as [(-> & _) _]. split; [done|].
    by rewrite (proj1 (scheduler_request_keeps _ _ _ _ Ht Hs) 1).
Qed.

(** *** A service whose handler has panicked *)

(** A call of [init] that has not succeeded. *)
Definition not_restarted (c : CallState) : Prop :=
  match c with
  | Received (RInit _) | InitController _ _ | InitMonitor _ _ | InitScheduler _ _ | Died => True
  | Replied (EmptyReply (Err _)) => True
  | _ => False
  end.

Definition stuck (i : nat) (s : Server) : Prop :=
  m_poisoned (scheduler_service s) = true ∧ ∃ c, calls s !! i = Some c ∧ not_restarted c.

Lemma stuck_other i j c s s' : stuck i s → j ≠ i → calls s' = <[j := c]> (calls s) →
  m_poisoned (scheduler_service s') = true → stuck i s'.
Proof.
  intros [_ (ci & Hci & Hn)] Hne Hc Hp. split; [done|]. exists ci. split; [|done].
  by rewrite Hc, list_lookup_insert_ne.
Qed.

Lemma stuck_self i c s s' : stuck i s → calls s' = <[i := c]> (calls s) → not_restarted c →
  m_poisoned (scheduler_service s') = true → stuck i s'.
Proof.
  intros [_ (ci & Hci & _)] Hc Hn Hp. split; [done|]. exists c. split; [|done].
  rewrite Hc. apply list_lookup_insert_eq. by eapply lookup_lt_Some.
Qed.

Lemma request_keeps_poison i r s s' : (∀ cfg, r ≠ RInit cfg) → start_call i r s = Some s' →
  m_poisoned (scheduler_service s) = true → m_poisoned (scheduler_service s') = true.
Proof.
  intros Hr Hs Hp. destruct (to_scheduler r) eqn:Ht.
  { by rewrite (proj1 (proj2 (scheduler_request_keeps _ _ _ _ Ht Hs) Hp)). }
  destruct r; try done; [by destruct (Hr cfg)|..]; cbn [start_call] in Hs;
    first [apply controller_keeps in Hs as (_ & _ & -> & _)|apply monitor_keeps in Hs as (_ & _ & -> & _)];
    done.
Qed.

Lemma init_step_poisoned i c s s' : init_step i c s = Some s' →
  m_poisoned (scheduler_service s) = true →
  m_poisoned (scheduler_service s') = true ∧ ∃ c', calls s' = <[i := c']> (calls s) ∧ not_restarted c'.
Proof.
  intros Hs Hp. destruct c as [|bench b|bench b|bench b| |]; try done; simpl in Hs.
  - destruct (with_lock _ _) as [[o m]|]; [|done]. injection Hs as <-. split; [done|].
    eexists. split; [done|]. by destruct o.
  - destruct (with_lock _ _) as [[o m]|]; [|done]. injection Hs as <-. split; [done|].
    eexists. split; [done|]. by destruct o.
  - destruct (with_lock _ _) as [[o m]|] eqn:Hw; [|done]. injection Hs as <-.
    apply with_lock_set in Hw as [(_ & -> & ->)|(Hp' & _)]; [|congruence].
    split; [done|]. by eexists.
Qed.

Lemma server_step_stuck i j s s' : stuck i s → server_step j s = Some s' → stuck i s'.
Proof.
  intros Hst. pose proof Hst as [Hp (ci & Hci & Hn)]. unfold server_step.
  destruct (calls s !! j) as [c|] eqn:Hj; [|done]. simpl. intros Hs.
  assert (m_poisoned (scheduler_service s') = true ∧ ∃ c', calls s' = <[j := c']> (calls s) ∧
    (j = i → not_restarted c')) as (Hp' & c' & Hc' & Hn').
  { destruct c as [r| | | | |].
    2-6: destruct (init_step_poisoned _ _ _ _ Hs Hp) as (? & c' & ? & ?); eauto.
    destruct r as [cfg| | | | | | | | | | |].
    2-12: (split; [eapply request_keeps_poison; [|exact Hs|exact Hp]; done|]);
      destruct (fun H => request_keeps _ _ _ _ H Hs) as [_ (c' & Hc' & _)]; [done|];
      exists c'; (split; [done|]); intros ->; exfalso; rewrite Hj in Hci; injection Hci as <-; done.
    cbn [start_call] in Hs. unfold init_service_init in Hs.
    destruct (sim_gen cfg) as [msg|e|[bench|e]]; injection Hs as <-; (split; [done|]); by eexists. }
  destruct (decide (j = i)) as [->|Hne].
  - by eapply stuck_self; eauto.
  - by eapply stuck_other.
Qed.

(** A handler of the scheduler service that panics disables the server.
    Once its mutex is poisoned it stays so: every later request to schedule or
    cancel an event, to read the time or to halt ends without a reply, and so
    does every later call of [init] that builds a bench, after it has replaced
    the controller and the monitor: the simulation cannot be restarted. *)
Lemma poisoned_scheduler_is_final s s' :
  m_poisoned (scheduler_service s) = true → rtc server_next s s' →
  m_poisoned (scheduler_service s') = true ∧
  (∀ i r s1, calls s' !! i = Some (Received r) → to_scheduler r = true →
    server_step i s' = Some s1 → calls s1 !! i = Some Died) ∧
  (∀ i cfg reply, calls s !! i = Some (Received (RInit cfg)) → calls s' !! i = Some (Replied reply) →
    ∃ e, reply = EmptyReply (Err e)).
Proof.
  intros Hp Hr.
  assert (∀ i, stuck i s → stuck i s') as Hstuck.
  { intros i. induction Hr as [|x y z [j Hxy] Hyz IH]; [done|]. intros Hx. apply IH.
    - destruct (server_step_stuck i j x y Hx Hxy). done.
    - by eapply server_step_stuck. }
  assert (m_poisoned (scheduler_service s') = true) as Hp'.
  { clear Hstuck. induction Hr as [|x y z [j Hxy] Hyz IH]; [done|]. apply IH.
    unfold server_step in Hxy. destruct (calls x !! j) as [c|] eqn:Hj; [|done]. simpl in Hxy.
    destruct c as [r| | | | |]; [|by eapply init_step_poisoned..].
    destruct r as [cfg| | | | | | | | | | |];
      [|eapply request_keeps_poison; [|exact Hxy|exact Hp]; done..].
    cbn [start_call] in Hxy. destruct (init_service_init _ _ _ _ _) as [? [?|]];
      by injection Hxy as <-. }
  split; [done|]. split.
  - intros i r s1 Hi Ht Hs. unfold server_step in Hs. rewrite Hi in Hs. simpl in Hs.
    rewrite (proj2 (proj2 (scheduler_request_keeps _ _ _ _ Ht Hs) Hp')).
    apply list_lookup_insert_eq. by eapply lookup_lt_Some.
  - intros i cfg reply Hi Hre. destruct (Hstuck i) as [_ (c & Hc & Hn)]; [by split; [done|exists (Received (RInit cfg))]|].
    rewrite Hre in Hc. injection Hc as <-. destruct reply as [[[]|e]|r|r|r]; [done|by exists e|done..].
Qed.
End Server.
