(* ===== verification/ServerFacts.v ===== *)
(** * Evaluations of the server

    Runs of the server on concrete benches. *)

From stdpp Require Import base option list numbers strings gmap relations.
From Stdlib Require Import ZArith Lia.
From S2P Require Import Prelude StableQueue PriorityQueue Time Scheduler Sinks Broadcast Sources.
From S2P Require Import Simulation IndexedPriorityQueue KeyRegistry Services ServiceFacts Server.

Abbreviation DBench := (Bench (T := TaiTime) (Call := nat) (Addr := nat) (QCall := unit) (Obs := Z)
  (Q := SQueue) (E := FixedExecutor) (C := NoClock) (S := EventBuffer nat) (A := nat)).
Abbreviation DServer := (Server (T := TaiTime) (Call := nat) (Addr := nat) (QCall := unit) (Obs := Z)
  (Q := SQueue) (E := FixedExecutor) (C := NoClock) (S := EventBuffer nat) (A := nat)).

Definition demo_bench : DBench := mkBench (service_sim None) demo_sources ∅ ∅.

Definition demo_gen (cfg : bytes) : gen_outcome DBench TaiTime bool := GenResult (Ok demo_bench).

Definition no_encoding (_ : nat) : result bytes string := Err "".

Definition demo_server_step : nat → DServer → option DServer :=
  server_step id no_duration no_time no_payload no_encoding demo_gen id 5.

Fixpoint server_run (l : list nat) (s : DServer) : option DServer :=
  match l with
  | [] => Some s
  | i :: l => match demo_server_step i s with Some s => server_run l s | None => None end
  end.

Lemma server_run_rtc l s s' : server_run l s = Some s' →
  rtc (server_next id no_duration no_time no_payload no_encoding demo_gen id 5) s s'.
Proof.
  revert s. induction l as [|i l IH]; intros s; simpl; [by intros [= ->]|].
  destruct (demo_server_step i s) as [s1|] eqn:Hs; [|done]. intros Hr.
  eapply rtc_l; [by exists i|by apply IH].
Qed.

(** The same, checking that no two calls of [init] overlap. *)
Definition may_step (i : nat) (s : DServer) : bool :=
  match calls s !! i with
  | Some (Received (RInit _)) => forallb (λ c, negb (in_init c)) (calls s)
  | _ => true
  end.

Fixpoint serial_run (l : list nat) (s : DServer) : option DServer :=
  match l with
  | [] => Some s
  | i :: l =>
      if may_step i s then
        match demo_server_step i s with Some s => serial_run l s | None => None end
      else None
  end.

Lemma forallb_not_init (l : list (CallState (T := TaiTime) (Call := nat) (Addr := nat) (QCall := unit)
    (Obs := Z) (Q := SQueue) (E := FixedExecutor) (C := NoClock) (S := EventBuffer nat) (A := nat))) :
  forallb (λ c, negb (in_init c)) l = true → Forall (λ c, in_init c = false) l.
Proof.
  induction l as [|c l IH]; simpl; [done|]. rewrite andb_true_iff, negb_true_iff. intros [? ?].
  constructor; auto.
Qed.

Lemma serial_run_rtc l s s' : serial_run l s = Some s' →
  rtc (serial_next id no_duration no_time no_payload no_encoding demo_gen id 5) s s'.
Proof.
  revert s. induction l as [|i l IH]; intros s; simpl; [by intros [= ->]|].
  destruct (may_step i s) eqn:Hm; [|done].
  destruct (demo_server_step i s) as [s1|] eqn:Hs; [|done]. intros Hr.
  eapply rtc_l; [|by apply IH]. exists i. split; [done|]. intros cfg Hi.
  unfold may_step in Hm. rewrite Hi in Hm. by apply forallb_not_init.
Qed.

(** An event is scheduled and a step is made, then the simulation is restarted. *)
Lemma server_benches_agree_witness :
  ∃ s, serial_run [0; 0; 0; 0; 1; 2; 3; 3; 3; 3] (server_new
      [RInit []; RScheduleEvent (demo_request in_3_seconds); RStep; RInit []]) = Some s ∧
    length (shareds s) = 2 ∧
    ctl_bench s = last_bench s ∧ mon_bench s = last_bench s ∧ sch_bench s = last_bench s.
Proof.
  destruct (serial_run [0; 0; 0; 0; 1; 2; 3; 3; 3; 3] (server_new
      [RInit []; RScheduleEvent (demo_request in_3_seconds); RStep; RInit []])) as [s|] eqn:Hr;
    [|vm_compute in Hr; discriminate Hr].
  exists s. split; [done|]. split; [vm_compute in Hr; injection Hr as <-; reflexivity|].
  apply (server_benches_agree id no_duration no_time no_payload no_encoding demo_gen id 5
    [RInit []; RScheduleEvent (demo_request in_3_seconds); RStep; RInit []]).
  - exact (serial_run_rtc _ _ _ Hr).
  - vm_compute in Hr. injection Hr as <-. reflexivity.
  - vm_compute in Hr. injection Hr as <-. repeat constructor.
Defined.

Lemma overlapping_inits_mix_benches_witness :
  ∃ s, rtc (server_next id no_duration no_time no_payload no_encoding demo_gen id 5)
      (server_new [RInit []; RInit [1%Z]; RHalt]) s ∧
    ctl_bench s = Some 1 ∧ sch_bench s = Some 0.
Proof.
  destruct (overlapping_inits_mix_benches id no_duration no_time no_payload no_encoding demo_gen id 5
    [] [1%Z] demo_bench demo_bench [RHalt] eq_refl eq_refl) as (s & Hr & _ & Hc & Hs & _).
  exists s. split; [exact Hr|]. split; [exact Hc|exact Hs].
Defined.

(** A request whose deadline overflows poisons the scheduler service. *)
Lemma poisoned_scheduler_is_final_witness :
  ∃ s s', server_run [0; 0; 0; 0; 1] (server_new [RInit [];
        RScheduleEvent (demo_request (DeadlineDuration (mkPDuration i64_max 0))); RInit []]) = Some s ∧
    m_poisoned (scheduler_service s) = true ∧
    server_run [2; 2; 2; 2] s = Some s' ∧ calls s' !! 2 = Some Died ∧
    m_poisoned (scheduler_service s') = true.
Proof.
  destruct (server_run [0; 0; 0; 0; 1] (server_new [RInit [];
        RScheduleEvent (demo_request (DeadlineDuration (mkPDuration i64_max 0))); RInit []]))
    as [s|] eqn:Hr; [|vm_compute in Hr; discriminate Hr].
  assert (m_poisoned (scheduler_service s) = true) as Hp
    by (vm_compute in Hr; injection Hr as <-; reflexivity).
  destruct (server_run [2; 2; 2; 2] s) as [s'|] eqn:Hr2;
    [|exfalso; vm_compute in Hr; injection Hr as <-; vm_compute in Hr2; discriminate Hr2].
  exists s, s'. split; [done|]. split; [exact Hp|]. split; [done|]. split.
  - vm_compute in Hr. injection Hr as <-. vm_compute in Hr2. injection Hr2 as <-. reflexivity.
  - exact (proj1 (poisoned_scheduler_is_final id no_duration no_time no_payload no_encoding demo_gen id 5
      s s' Hp (server_run_rtc _ _ _ Hr2))).
Defined.
