(* ===== verification/LocalServer.v ===== *)
(** * The socket of the local server (server/run.rs, [run_local_service])

    Before it serves requests on a Unix domain socket, the server removes a
    socket that is left from an earlier run and creates the directories above
    it.  The file system maps the components of a path to what is there;
    [denied] are the paths on which the process lacks the permissions.
    Symbolic links and other processes that change the file system in the
    meantime are not modelled. *)

From stdpp Require Import base option list numbers strings gmap.
From Stdlib Require Import ZArith Lia.
From S2P Require Import Prelude.

Record Path := mkPath { absolute : bool; components : list string }.

(** [Path::parent]. *)
Definition parent (p : Path) : option Path :=
  match components p with
  | [] => None
  | c => Some (mkPath (absolute p) (removelast c))
  end.

Inductive Entry := SocketFile | RegularFile | Directory.
Inductive IoError := NotFound | AlreadyExists | PermissionDenied | NotADirectory | AddrInUse.

#[export] Instance Entry_eq_dec : EqDecision Entry.
Proof. solve_decision. Defined.

Section Run.
Abbreviation Fs := (gmap (list string) Entry).
Context (denied : list string → bool).
Implicit Types (fs : Fs) (p : Path) (c : list string).

(** ** The standard library *)

(** [fs::metadata]; the empty path does not exist and the root is a directory. *)
Definition metadata p fs : result Entry IoError :=
  match components p with
  | [] => if absolute p then Ok Directory else Err NotFound
  | c =>
      match fs !! c with
      | Some e => if denied c then Err PermissionDenied else Ok e
      | None => Err NotFound
      end
  end.

Definition remove_file c fs : result Fs IoError :=
  if denied c then Err PermissionDenied else Ok (delete c fs).

Definition create_dir c fs : result Fs IoError :=
  match fs !! c with
  | Some Directory => Ok fs
  | Some _ => Err NotADirectory
  | None => if denied c then Err PermissionDenied else Ok (<[c := Directory]> fs)
  end.

(** [fs::create_dir_all]: the directories [pre ++ c1], [pre ++ c1 ++ c2], ... *)
Fixpoint create_dirs (pre c : list string) fs : result Fs IoError :=
  match c with
  | [] => Ok fs
  | x :: c =>
      match create_dir (pre ++ [x]) fs with
      | Ok fs => create_dirs (pre ++ [x]) c fs
      | Err e => Err e
      end
  end.

(** [UnixListener::bind]. *)
Definition bind c fs : result Fs IoError :=
  match fs !! c with
  | Some _ => Err AddrInUse
  | None => if denied c then Err PermissionDenied else Ok (<[c := SocketFile]> fs)
  end.

(** ** The server *)

(** The socket is unlinked if it already exists. *)
Definition unlink_socket p fs : result Fs IoError :=
  match metadata p fs with
  | Ok SocketFile => remove_file (components p) fs
  | Ok _ => Err AlreadyExists
  | Err NotFound => Ok fs
  | Err e => Err e
  end.

(** Up to [serve_with_incoming]: the file system and whether requests are
    served. *)
Definition run_local_service p fs : outcome (Fs * result unit IoError) :=
  match unlink_socket p fs with
  | Err e => Done (fs, Err e)
  | Ok fs =>
      match parent p with
      | None => Panicked
      | Some dir =>
          match create_dirs [] (components dir) fs with
          | Err e => Done (fs, Err e)
          | Ok fs =>
              match bind (components p) fs with
              | Err e => Done (fs, Err e)
              | Ok fs => Done (fs, Ok tt)
              end
          end
      end
  end.

(** ** Properties *)

(** Everything but a socket at [c] is still there. *)
Definition keeps c fs fs' : Prop :=
  ∀ q e, fs !! q = Some e → fs' !! q = Some e ∨ q = c ∧ e = SocketFile.

Lemma create_dirs_keep pre c fs fs' : create_dirs pre c fs = Ok fs' → fs ⊆ fs'.
Proof.
  revert pre fs. induction c as [|x c IH]; intros pre fs; simpl; [by intros [= <-]|].
  unfold create_dir. destruct (fs !! (pre ++ [x])) as [[]|] eqn:Ex; [done|done|by apply IH|].
  destruct (denied _); [done|]. intros Hc. transitivity (<[pre ++ [x] := Directory]> fs); [|by eapply IH].
  by apply insert_subseteq.
Qed.

Lemma bind_keeps c fs fs' : bind c fs = Ok fs' → fs ⊆ fs' ∧ fs' !! c = Some SocketFile.
Proof.
  unfold bind. destruct (fs !! c) eqn:Ec; [done|]. destruct (denied c); [done|]. intros [= <-].
  split; [by apply insert_subseteq|by apply lookup_insert_eq].
Qed.

Lemma unlink_keeps p fs fs' : unlink_socket p fs = Ok fs' → keeps (components p) fs fs'.
Proof.
  unfold unlink_socket, metadata, remove_file. intros Hu q e Hq.
  destruct (components p) as [|x c]; [destruct (absolute p); simplify_eq; auto|].
  destruct (fs !! (x :: c)) as [e'|] eqn:Ec; [|simplify_eq; auto].
  destruct (denied (x :: c)); [done|]. destruct e'; simplify_eq.
  destruct (decide (q = x :: c)) as [->|Hne]; [right; by simplify_eq|left].
  by rewrite lookup_delete_ne.
Qed.

Lemma keeps_subset c fs fs1 fs' : keeps c fs fs1 → fs1 ⊆ fs' → keeps c fs fs'.
Proof.
  intros Hk Hs q e Hq. destruct (Hk q e Hq) as [Hq'|?]; [left|by right].
  by eapply lookup_weaken.
Qed.

(** Starting the local server never destroys data: whatever the path, and
    whether or not it succeeds, everything but an old socket at that path is
    still there; when requests are served there is a socket at the path. *)
Lemma run_local_keeps_files p fs fs' r :
  run_local_service p fs = Done (fs', r) →
  keeps (components p) fs fs' ∧ (r = Ok tt → fs' !! components p = Some SocketFile).
Proof.
  unfold run_local_service. destruct (unlink_socket p fs) as [fs1|e] eqn:Eu.
  2: { intros [= <- <-]. split; [|done]. intros q e' Hq. by left. }
  apply unlink_keeps in Eu. destruct (parent p) as [dir|]; [|done].
  destruct (create_dirs [] (components dir) fs1) as [fs2|e] eqn:Ec.
  2: { by intros [= <- <-]. }
  apply create_dirs_keep in Ec. pose proof (keeps_subset _ _ _ _ Eu Ec) as Hk.
  destruct (bind (components p) fs2) as [fs3|e] eqn:Eb.
  2: { by intros [= <- <-]. }
  apply bind_keeps in Eb as [Hb Hs]. intros [= <- <-]. split; [|done].
  by eapply keeps_subset.
Qed.

(** A path to something else than a socket is refused and nothing changes. *)
Lemma run_local_refuses p fs e : metadata p fs = Ok e → e ≠ SocketFile →
  run_local_service p fs = Done (fs, Err AlreadyExists).
Proof. unfold run_local_service, unlink_socket. intros -> He. by destruct e. Qed.

(** With an empty path the server panics, since it has no parent. *)
Lemma run_local_empty_path fs : run_local_service (mkPath false []) fs = Panicked.
Proof. done. Qed.
End Run.

(** A stale socket below an existing directory is replaced. *)
Definition example_fs : gmap (list string) Entry :=
  {[ ["tmp"%string] := Directory; ["tmp"; "sim"]%string := SocketFile ]}.

Lemma run_local_keeps_files_witness :
  keeps ["tmp"; "sim"]%string example_fs example_fs ∧
  match run_local_service (λ _, false) (mkPath true ["tmp"; "sim"]%string) example_fs with
  | Done (fs, Ok _) => fs !! ["tmp"; "sim"]%string = Some SocketFile
  | _ => False
  end.
Proof.
  split; [intros q e Hq; by left|].
  destruct (run_local_service (λ _, false) (mkPath true ["tmp"; "sim"]%string) example_fs)
    as [[fs r]| |] eqn:Er; [|by vm_compute in Er..].
  destruct (run_local_keeps_files (λ _, false) _ _ _ _ Er) as [_ Hs].
  destruct r as [[]|e]; [by apply Hs|]. by vm_compute in Er.
Defined.
