(* ===== verification/ScopedKey.v ===== *)
(** * Scoped thread-local keys (macros/scoped_thread_local.rs)

    A key is a thread-local cell that holds a pointer, null when unset; [set]
    and [unset] change it for the duration of a closure and put the previous
    pointer back with a guard, also when the closure panics.  A closure is a
    computation on the cell that returns or panics. *)

From stdpp Require Import base option list numbers.
From S2P Require Import Prelude.

(** The end of a computation on a thread. *)
Inductive ended (R : Type) := EReturn (r : R) | EPanic.
Arguments EReturn {R}.
Arguments EPanic {R}.

Section Key.
Context {T : Type}.

(** The cell of the key on the current thread. *)
Definition Cell : Type := option T.
Definition Closure (R : Type) : Type := Cell → ended R * Cell.

Definition ret {R : Type} (r : R) : Closure R := λ c, (EReturn r, c).
Definition panic {R : Type} : Closure R := λ c, (EPanic, c).
Definition bind {R U : Type} (m : Closure R) (k : R → Closure U) : Closure U := λ c,
  match m c with
  | (EReturn r, c) => k r c
  | (EPanic, c) => (EPanic, c)
  end.
(** [catch_unwind]. *)
Definition catch {R : Type} (m : Closure R) : Closure (option R) := λ c,
  match m c with
  | (EReturn r, c) => (EReturn (Some r), c)
  | (EPanic, c) => (EReturn None, c)
  end.

(** [ScopedLocalKey::set]: the guard writes [prev] back when it is dropped. *)
Definition key_set {R : Type} (t : T) (f : Closure R) : Closure R := λ c,
  let prev := c in
  let c := Some t in
  let '(r, c) := f c in
  let c := prev in
  (r, c).

(** [ScopedLocalKey::unset]. *)
Definition key_unset {R : Type} (f : Closure R) : Closure R := λ c,
  let prev := c in
  let c := None in
  let '(r, c) := f c in
  let c := prev in
  (r, c).

(** [ScopedLocalKey::map]. *)
Definition key_map {R : Type} (f : T → Closure R) : Closure (option R) := λ c,
  match c with
  | None => (EReturn None, c)
  | Some val => bind (f val) (λ r, ret (Some r)) c
  end.

(** ** Programs

    What a thread may do with a key: any nesting of these calls. *)
Inductive Prog :=
| PRead
| PPanic
| PSeq (p q : Prog)
| PSet (t : T) (p : Prog)
| PUnset (p : Prog)
| PCatch (p : Prog).

(** The values that the reads see, in order; a panic ends the list of the part
    it unwinds. *)
Fixpoint run_prog (p : Prog) : Closure (list (option T)) :=
  match p with
  | PRead => bind (key_map (λ v, ret v)) (λ o, ret [o])
  | PPanic => panic
  | PSeq p q => bind (run_prog p) (λ l, bind (run_prog q) (λ l', ret (l ++ l')))
  | PSet t p => key_set t (run_prog p)
  | PUnset p => key_unset (run_prog p)
  | PCatch p => bind (catch (run_prog p)) (λ o, ret (default [] o))
  end.

(** The reference: a read sees the innermost enclosing [set] or [unset]. *)
Fixpoint lexical (p : Prog) (env : option T) : ended (list (option T)) :=
  match p with
  | PRead => EReturn [env]
  | PPanic => EPanic
  | PSeq p q =>
      match lexical p env with
      | EReturn l => match lexical q env with EReturn l' => EReturn (l ++ l') | EPanic => EPanic end
      | EPanic => EPanic
      end
  | PSet t p => lexical p (Some t)
  | PUnset p => lexical p None
  | PCatch p => match lexical p env with EReturn l => EReturn l | EPanic => EReturn [] end
  end.

(** A scoped key behaves as a lexically scoped variable: whatever the nesting
    of [set] and [unset] and wherever panics are thrown and caught, each read
    sees the value of the innermost call around it, and the cell is as before
    once the program has ended. *)
Lemma scoped_key_lexical (p : Prog) (c : Cell) : run_prog p c = (lexical p c, c).
Proof.
  revert c. induction p as [| |p IHp q IHq|t p IH|p IH|p IH]; intros c; simpl.
  - unfold bind, key_map. by destruct c.
  - done.
  - unfold bind at 1. rewrite IHp. destruct (lexical p c) as [l|]; [|done].
    unfold bind. rewrite IHq. by destruct (lexical q c).
  - unfold key_set. by rewrite IH.
  - unfold key_unset. by rewrite IH.
  - unfold bind, catch. rewrite IH. by destruct (lexical p c).
Qed.
End Key.
