(* ===== verification/Tracing.v ===== *)
(** * Time stamps of log records (tracing.rs)

    Inside a simulation, log records carry the simulation time; outside of it,
    and on top of it in the verbose form, the system time.  The system timer and
    the text of a time belong to other crates and are parameters. *)

From stdpp Require Import base option list strings.
From S2P Require Import Prelude ScopedKey.

Section Tracing.
Context {Timer Time W : Type}.

(** The writer, which may fail. *)
Context (write : string → W → result W unit).
(** [FormatTime::format_time] of the system timer. *)
Context (sys_format : Timer → W → result W unit).
(** [{:.9}] of a time. *)
Context (time_text : Time → string).

Record SimulationTime := mkSimTime { verbose : bool; sys_timer : Timer }.

Definition with_custom_timer (sys_timer : Timer) : SimulationTime := mkSimTime false sys_timer.
Definition with_custom_timer_always (sys_timer : Timer) : SimulationTime := mkSimTime true sys_timer.

(** The context of the thread has what [time_reader.try_read()] returns, which
    is an error while the time is being written. *)
Abbreviation SimContext := (result Time unit).
Abbreviation Fmt := (Closure (T := SimContext) (result W unit)).

Definition format_in_context (self : SimulationTime) (w : W) (ctx : SimContext) : Fmt :=
  let w :=
    if verbose self then
      match sys_format (sys_timer self) w with Ok w => write " " w | Err e => Err e end
    else Ok w in
  match w, ctx with
  | Err e, _ => ret (Err e)
  | Ok w, Ok t => ret (write ("[" ++ time_text t ++ "]") w)
  | Ok w, Err _ => panic
  end.

Definition format_time (self : SimulationTime) (w : W) : Fmt :=
  bind (key_map (format_in_context self w)) (λ o,
    ret match o with Some r => r | None => sys_format (sys_timer self) w end).

(** The simulation time is written inside a simulation and only there, and the
    context of the thread is left as it was. *)
Lemma format_time_spec self w c :
  format_time self w c =
  (match c with
   | None => EReturn (sys_format (sys_timer self) w)
   | Some ctx => (format_in_context self w ctx c).1
   end, c).
Proof.
  unfold format_time, key_map, bind. destruct c as [ctx|]; simpl; [|done].
  unfold format_in_context.
  destruct (if verbose self then _ else _) as [w1|e]; [destruct ctx|]; done.
Qed.

(** Without the system time, a record of a simulation starts with its time. *)
Lemma format_time_brief timer w t :
  format_time (with_custom_timer timer) w (Some (Ok t)) =
  (EReturn (write ("[" ++ time_text t ++ "]") w), Some (Ok t)).
Proof. by rewrite format_time_spec. Qed.
End Tracing.
