(* ===== verification/ActiveTasks.v ===== *)
(** * The unfinished tasks of the multi-threaded executor
    (executor/mt_executor.rs)

    The executor keeps the cancellation token of every task that has not
    completed in a slab behind a mutex; the future of a task knows its key and
    removes its token when it is dropped, in the slab that the scoped key
    [ACTIVE_TASKS] of the current thread points to.  Dropping the executor
    cancels what is left.  Executors may be nested, so that several are
    modelled; a thread's key is the executor whose worker it is. *)

From stdpp Require Import base option list numbers relations gmap.
From Stdlib Require Import Lia.
From S2P Require Import Prelude ScopedKey StExecutor.

Section Tasks.
Context {L : Type} `{Slab L nat}.

(** [futs]: the futures that are alive, each with its [cancellation_key];
    [locked]: the current thread holds the mutex of [active_tasks];
    [injector]: the runnables that were inserted; [cancelled]: the tokens on
    which [cancel] was called. *)
Record Executor := mkExecutor {
  active_tasks : L;
  locked : bool;
  futs : gmap nat nat;
  injector : list nat;
  cancelled : list nat;
}.

Definition executor_new : Executor := mkExecutor slab_new false ∅ [] [].

(** [spawn] and [spawn_and_forget] of the task [t]. *)
Definition spawn (t : nat) (self : Executor) : Executor :=
  let key := vacant_key (active_tasks self) in
  mkExecutor (slab_insert t (active_tasks self)) (locked self)
    (<[t := key]> (futs self)) (injector self ++ [t]) (cancelled self).

Definition drop_fut (t : nat) (self : Executor) : Executor :=
  mkExecutor (active_tasks self) (locked self) (delete t (futs self)) (injector self)
    (cancelled self).
Definition remove_token (key : nat) (self : Executor) : Executor :=
  mkExecutor (try_remove key (active_tasks self)) (locked self) (futs self) (injector self)
    (cancelled self).

(** [CancellableFuture::drop] for the task [t] of executor [e], on a thread
    whose [ACTIVE_TASKS] is [c]; [None] if it locks a mutex that the thread
    holds. *)
Definition future_drop (c : option nat) (e t : nat) (es : list Executor) : option (list Executor) :=
  self ← es !! e;
  key ← futs self !! t;
  let es := <[e := drop_fut t self]> es in
  match c with
  | None => Some es
  | Some e' =>
      self' ← es !! e';
      if locked self' then None else Some (<[e' := remove_token key self']> es)
  end.

(** [task.cancel()], which drops the future unless its task is scheduled. *)
Definition cancel_token (scheduled : nat → bool) (c : option nat) (e t : nat) (es : list Executor) :
    option (list Executor) :=
  self ← es !! e;
  let es := <[e := mkExecutor (active_tasks self) (locked self) (futs self) (injector self)
                    (cancelled self ++ [t])]> es in
  if scheduled t then Some es else future_drop c e t es.

Fixpoint cancel_tokens (scheduled : nat → bool) (c : option nat) (e : nat) (tokens : list nat)
    (es : list Executor) : option (list Executor) :=
  match tokens with
  | [] => Some es
  | t :: tokens => es ← cancel_token scheduled c e t es; cancel_tokens scheduled c e tokens es
  end.

Definition set_active (a : L) (b : bool) (self : Executor) : Executor :=
  mkExecutor a b (futs self) (injector self) (cancelled self).

(** [Drop for Executor], once the workers have been joined: the part inside
    [ACTIVE_TASKS.unset], on a thread whose key was [c]. *)
Definition executor_drop (scheduled : nat → bool) (c : option nat) (e : nat) (es : list Executor) :
    option (list Executor) :=
  self ← es !! e;
  let tokens := slab_drain (active_tasks self) in
  let es := <[e := set_active slab_new true self]> es in
  let inside (c : option nat) :=
    es ← cancel_tokens scheduled c e tokens es;
    self ← es !! e;
    Some (<[e := set_active (active_tasks self) false self]> es) in
  match key_unset (λ c, (EReturn (inside c), c)) c with
  | (EReturn r, _) => r
  | (EPanic, _) => None
  end.

(** Afterwards the queues are dropped, and with them the futures of the tasks
    that were scheduled. *)
Fixpoint drop_scheduled (c : option nat) (e : nat) (l : list nat) (es : list Executor) :
    option (list Executor) :=
  match l with
  | [] => Some es
  | t :: l => es ← future_drop c e t es; drop_scheduled c e l es
  end.

(** ** The tokens are those of the unfinished tasks *)

Context `{!SlabLaws L nat}.

Definition tokens_ok (self : Executor) : Prop :=
  ∀ t k, futs self !! t = Some k ↔ slab_map (active_tasks self) !! k = Some t.

Lemma tokens_new : tokens_ok executor_new.
Proof.
  intros t k. simpl. rewrite lookup_empty. rewrite (slab_new_map (L := L) (A := nat)).
  by rewrite lookup_empty.
Qed.

Lemma tokens_spawn t self : tokens_ok self → futs self !! t = None → tokens_ok (spawn t self).
Proof.
  unfold tokens_ok. intros Hok Ht t' k. simpl. rewrite slab_insert_map.
  pose proof (vacant_key_fresh (active_tasks self)) as Hf.
  destruct (decide (t' = t)) as [->|Hne].
  - rewrite lookup_insert_eq. destruct (decide (k = vacant_key (active_tasks self))) as [->|Hk].
    + by rewrite lookup_insert_eq.
    + rewrite lookup_insert_ne by done. rewrite <-Hok, Ht. split; congruence.
  - rewrite lookup_insert_ne by done. destruct (decide (k = vacant_key (active_tasks self))) as [->|Hk].
    + rewrite lookup_insert_eq, Hok, Hf. split; congruence.
    + rewrite lookup_insert_ne by done. apply Hok.
Qed.

(** On a worker of its own executor, a future that is dropped removes its own
    token and nothing else. *)
Lemma tokens_future_drop e t es es' self : es !! e = Some self → tokens_ok self →
  locked self = false → is_Some (futs self !! t) →
  future_drop (Some e) e t es = Some es' →
  ∃ self', es' = <[e := self']> es ∧ tokens_ok self' ∧ futs self' = delete t (futs self).
Proof.
  unfold tokens_ok. intros He Hok Hl [k Hk]. unfold future_drop. rewrite He. simpl. rewrite Hk. simpl.
  pose proof (lookup_lt_Some _ _ _ He) as Hlt. rewrite list_lookup_insert_eq by done. simpl.
  rewrite Hl. intros [= <-]. eexists. rewrite list_insert_insert_eq. split; [done|]. split; [|done].
  intros t' k'. simpl. rewrite try_remove_map. destruct (decide (t' = t)) as [->|Hne].
  - rewrite lookup_delete_eq. destruct (decide (k' = k)) as [->|Hk'].
    + by rewrite lookup_delete_eq.
    + rewrite lookup_delete_ne by done. rewrite <-Hok, Hk. split; congruence.
  - rewrite lookup_delete_ne by done. destruct (decide (k' = k)) as [->|Hk'].
    + rewrite lookup_delete_eq. rewrite Hok. split; [|done]. intros Ht'. apply Hok in Hk. congruence.
    + rewrite lookup_delete_ne by done. apply Hok.
Qed.

(** ** Dropping the executor *)

Lemma cancel_tokens_spec scheduled e tokens es self : es !! e = Some self → NoDup tokens →
  (∀ t, t ∈ tokens → is_Some (futs self !! t)) →
  ∃ self', cancel_tokens scheduled None e tokens es = Some (<[e := self']> es) ∧
    cancelled self' = cancelled self ++ tokens ∧ active_tasks self' = active_tasks self ∧
    injector self' = injector self ∧
    ∀ t, futs self' !! t =
      if bool_decide (t ∈ tokens) && negb (scheduled t) then None else futs self !! t.
Proof.
  revert es self. induction tokens as [|t tokens IH]; intros es self He Hnd Hf; simpl.
  { exists self. rewrite list_insert_id by done. split_and!; try done; by rewrite ?app_nil_r. }
  apply NoDup_cons in Hnd as [Ht Hnd]. pose proof (lookup_lt_Some _ _ _ He) as Hlt.
  destruct (Hf t) as [k Hk]; [by apply list_elem_of_here|].
  unfold cancel_token. rewrite He. simpl.
  set (self1 := mkExecutor (active_tasks self) (locked self)
    (if scheduled t then futs self else delete t (futs self)) (injector self) (cancelled self ++ [t])).
  assert (∀ t', futs self1 !! t' = if bool_decide (t' = t) && negb (scheduled t) then None
    else futs self !! t') as Hf1.
  { intros t'. simpl. destruct (scheduled t); rewrite ?andb_false_r; [done|]. rewrite andb_true_r.
    case_bool_decide as Heq; [subst; by rewrite lookup_delete_eq|by rewrite lookup_delete_ne]. }
  assert ((if scheduled t then Some (<[e := mkExecutor (active_tasks self) (locked self) (futs self)
      (injector self) (cancelled self ++ [t])]> es)
    else future_drop None e t (<[e := mkExecutor (active_tasks self) (locked self) (futs self)
      (injector self) (cancelled self ++ [t])]> es)) = Some (<[e := self1]> es)) as ->.
  { unfold self1. destruct (scheduled t); [done|]. unfold future_drop.
    rewrite list_lookup_insert_eq by done. simpl. rewrite Hk. simpl. by rewrite list_insert_insert_eq. }
  simpl. destruct (IH (<[e := self1]> es) self1) as (self' & Hc & C1 & C2 & C3 & C4).
  - by rewrite list_lookup_insert_eq.
  - done.
  - intros t' Ht'. rewrite Hf1. rewrite bool_decide_eq_false_2 by (intros ->; done). simpl.
    apply Hf. by apply list_elem_of_further.
  - exists self'. rewrite Hc, list_insert_insert_eq. split_and!; [done| |done|done|].
    + rewrite C1. simpl. by rewrite <-app_assoc.
    + intros t'. rewrite C4, Hf1. destruct (decide (t' = t)) as [->|Hne].
      * rewrite (bool_decide_eq_false_2 (t ∈ tokens)), !(bool_decide_eq_true_2 _) by
          (done || by apply list_elem_of_here). done.
      * rewrite (bool_decide_eq_false_2 (t' = t)) by done. simpl.
        rewrite (bool_decide_ext (t' ∈ t :: tokens) (t' ∈ tokens)); [done|]. rewrite elem_of_cons. naive_solver.
Qed.

Lemma tokens_drain self : tokens_ok self →
  slab_drain (active_tasks self) ≡ₚ fst <$> map_to_list (futs self).
Proof.
  unfold tokens_ok. intros Hok. rewrite slab_drain_map. apply NoDup_Permutation.
  - apply NoDup_fmap_2_strong; [|apply NoDup_map_to_list].
    intros [k t] [k' t'] Hx%elem_of_map_to_list Hy%elem_of_map_to_list. simpl. intros ->.
    apply Hok in Hx, Hy. congruence.
  - apply NoDup_fst_map_to_list.
  - intros t. rewrite !list_elem_of_fmap. split.
    + intros ([k t'] & -> & Hx%elem_of_map_to_list). exists (t', k). simpl. split; [done|].
      apply elem_of_map_to_list. by apply Hok.
    + intros ([t' k] & -> & Hx%elem_of_map_to_list). exists (k, t'). simpl. split; [done|].
      apply elem_of_map_to_list. by apply Hok.
Qed.

(** Dropping an executor cancels every task that has not completed, once, and
    never waits for its own lock, whatever executor the current thread works
    for; it drops the futures of all these tasks, except of those that are
    still scheduled, and leaves the other executors alone. *)
Lemma executor_drop_cancels scheduled c e es self : es !! e = Some self → tokens_ok self →
  ∃ self', executor_drop scheduled c e es = Some (<[e := self']> es) ∧
    cancelled self' ≡ₚ cancelled self ++ (fst <$> map_to_list (futs self)) ∧
    locked self' = false ∧ slab_map (active_tasks self') = ∅ ∧
    ∀ t, futs self' !! t = if scheduled t then futs self !! t else None.
Proof.
  intros He Hok. pose proof (tokens_drain self Hok) as Hd. pose proof (lookup_lt_Some _ _ _ He) as Hlt.
  unfold executor_drop. rewrite He. simpl.
  destruct (cancel_tokens_spec scheduled e (slab_drain (active_tasks self))
    (<[e := set_active slab_new true self]> es) (set_active slab_new true self))
    as (self' & -> & C1 & C2 & _ & C4).
  - by rewrite list_lookup_insert_eq.
  - rewrite Hd. apply NoDup_fst_map_to_list.
  - intros t. rewrite Hd, list_elem_of_fmap. intros ([t' k] & -> & Hx%elem_of_map_to_list). simpl. eauto.
  - simpl. rewrite list_insert_insert_eq, list_lookup_insert_eq by done. simpl.
    eexists. rewrite list_insert_insert_eq. split; [done|]. simpl. split_and!.
    + rewrite C1. simpl. by rewrite Hd.
    + done.
    + rewrite C2. simpl. apply (slab_new_map (L := L) (A := nat)).
    + intros t. rewrite C4. simpl. destruct (scheduled t); rewrite ?andb_false_r; [done|]. rewrite andb_true_r.
      case_bool_decide as Ht; [done|]. destruct (futs self !! t) as [k|] eqn:Hk; [|done].
      destruct Ht. rewrite Hd, list_elem_of_fmap. exists (t, k). split; [done|]. by apply elem_of_map_to_list.
Qed.

(** The key is only unset while the tokens are cancelled.  If the executor is
    dropped on a worker of another executor and one of its tasks is still
    scheduled, then the future of this task, which is dropped with the queues,
    removes the token that the other executor keeps under the same key: a task
    of the other executor that has not completed is forgotten. *)
Lemma nested_drop_forgets_task scheduled e o t t' k es self outer :
  e ≠ o → es !! e = Some self → es !! o = Some outer → tokens_ok self → tokens_ok outer →
  locked outer = false → scheduled t = true → futs self !! t = Some k → futs outer !! t' = Some k →
  ∃ es1 es2 outer', executor_drop scheduled (Some o) e es = Some es1 ∧
    drop_scheduled (Some o) e [t] es1 = Some es2 ∧ es2 !! o = Some outer' ∧
    futs outer' !! t' = Some k ∧ slab_map (active_tasks outer') !! k = None.
Proof.
  intros Hne He Ho Hok Hoo Hl Hs Ht Ht'.
  destruct (executor_drop_cancels scheduled (Some o) e es self He Hok)
    as (self' & Hd & _ & _ & _ & Hf).
  specialize (Hf t). rewrite Hs, Ht in Hf. pose proof (lookup_lt_Some _ _ _ He) as Hlt.
  pose proof (lookup_lt_Some _ _ _ Ho) as Hlo.
  exists (<[e := self']> es). simpl. unfold future_drop.
  rewrite list_lookup_insert_eq by done. simpl. rewrite Hf. simpl.
  rewrite list_insert_insert_eq, list_lookup_insert_ne, Ho by done. simpl. rewrite Hl. simpl.
  do 2 eexists. split; [done|]. split; [done|]. split.
  { apply list_lookup_insert_eq. by rewrite length_insert. }
  split; [done|]. simpl. by rewrite try_remove_map, lookup_delete_eq.
Qed.
End Tasks.
