(* ===== verification/ModelTask.v ===== *)
(** * The task of a model (simulation.rs: add_model, ModelFuture;
    ports/input/model_fn.rs; channel.rs: MessageFnOnce, Receiver::recv)

    A model runs as one task: it is initialized, then receives messages and
    executes each of them.  A message is a call of an input method, which is a
    plain or an asynchronous function, with or without argument and context.

    [St] is what methods act on: the model, its context and the rest of the
    program.  The body of an asynchronous function is the list of what it does
    between two points where it waits; each part may panic.  The queue is the
    list of messages that were sent (see Channel for the queue itself). *)

From stdpp Require Import base option list numbers relations.
From Stdlib Require Import Lia.
From S2P Require Import Prelude.

Section Inputs.
Context {M Cx W : Type}.

Record St := mkSt { model : M; cx : Cx; rest : W }.

(** A part of a body; [None] when it panics. *)
Definition Part : Type := St → option St.

(** [InputFn]: the forms of an input method, by their markers. *)
Inductive InputFn (T : Type) :=
| WithoutArguments (f : M → option M)
| WithoutContext (f : M → T → option M)
| WithContext (f : M → T → Cx → option (M * Cx))
| AsyncWithoutArguments (f : list Part)
| AsyncWithoutContext (f : T → list Part)
| AsyncWithContext (f : T → list Part).
Arguments WithoutArguments {T}.
Arguments WithoutContext {T}.
Arguments WithContext {T}.
Arguments AsyncWithoutArguments {T}.
Arguments AsyncWithoutContext {T}.
Arguments AsyncWithContext {T}.

(** [InputFn::call]: a plain function runs at once and its future is ready; an
    asynchronous one only runs when its future is polled. *)
Definition call {T : Type} (self : InputFn T) (arg : T) (s : St) : option (list Part * St) :=
  match self with
  | WithoutArguments f => m ← f (model s); Some ([], mkSt m (cx s) (rest s))
  | WithoutContext f => m ← f (model s) arg; Some ([], mkSt m (cx s) (rest s))
  | WithContext f => '(m, c) ← f (model s) arg (cx s); Some ([], mkSt m c (rest s))
  | AsyncWithoutArguments f => Some (f, s)
  | AsyncWithoutContext f => Some (f arg, s)
  | AsyncWithContext f => Some (f arg, s)
  end.

(** The closure that a sender puts in the mailbox. *)
Definition Message : Type := St → option (list Part * St).
Definition message {T : Type} (func : InputFn T) (arg : T) : Message := λ s, call func arg s.

(** [ReplierFn]: replier methods are asynchronous; the last part of the body
    returns the reply. *)
Definition Body (R : Type) : Type := list Part * (St → option (R * St)).
Inductive ReplierFn (T R : Type) :=
| RAsyncWithoutArguments (f : Body R)
| RAsyncWithoutContext (f : T → Body R)
| RAsyncWithContext (f : T → Body R).
Arguments RAsyncWithoutArguments {T R}.
Arguments RAsyncWithoutContext {T R}.
Arguments RAsyncWithContext {T R}.

Definition replier_call {T R : Type} (self : ReplierFn T R) (arg : T) : Body R :=
  match self with
  | RAsyncWithoutArguments f => f
  | RAsyncWithoutContext f => f arg
  | RAsyncWithContext f => f arg
  end.

(** The closure of a query: the reply is sent when the method returns. *)
Definition query_message {T R : Type} (func : ReplierFn T R) (arg : T) (reply : R → St → St) : Message :=
  λ s, let (parts, last) := replier_call func arg in
    Some (parts ++ [λ s, '(r, s) ← last s; Some (reply r s)], s).

(** [MessageFnOnce]: the closure is taken by the first call. *)
Definition call_once (msg_fn : option Message) (s : St) : outcome (option Message * option (list Part * St)) :=
  let! closure := unwrap msg_fn in
  Done (None, closure s).

(** ** The future of the model *)

(** Where the asynchronous block is: in [Model::init]; before the test of the
    abort signal; in [Receiver::recv], waiting for a message, where the signal
    is not tested again; executing a message. *)
Inductive MPc :=
| MInit (parts : list Part)
| MCheck
| MRecv
| MRun (parts : list Part)
| MEnded.

(** What has been done, in order: the initialization, message [i] was taken
    and called, a part of its body ran, its future completed. *)
Inductive Did := DInit | DCall (i : nat) | DPart (i : nat) | DEnd (i : nat).

Record Task := mkTask {
  pc : MPc;
  inbox : list Message;
  closed : bool;
  abort_signal : bool;
  st : St;
  next : nat;
  log : list Did;
}.

Definition task_new (init : list Part) (s : St) : Task := mkTask (MInit init) [] false false s 0 [].

Inductive Polled := TPending (t : Task) | TReady (t : Task) | TPanicked | TNoFuel.

(** Runs the body up to the next point where it waits: the parts that are left,
    or none when the future is ready. *)
Definition run_body (parts : list Part) (s : St) : option (list Part * St) :=
  match parts with
  | [] => Some ([], s)
  | p :: parts => s ← p s; Some (parts, s)
  end.

(** One step of the asynchronous block: [inl] goes on at once. *)
Definition task_step (t : Task) : option (Task + Polled) :=
  let to pc s did := mkTask pc (inbox t) (closed t) (abort_signal t) s (next t) (log t ++ did) in
  match pc t with
  | MInit parts =>
      '(parts, s) ← run_body parts (st t);
      Some (match parts with
            | [] => inl (to MCheck s [DInit])
            | _ => inr (TPending (to (MInit parts) s [DInit]))
            end)
  | MCheck =>
      Some (if abort_signal t then inr (TReady (to MEnded (st t) [])) else inl (to MRecv (st t) []))
  | MRecv =>
      match inbox t with
      | [] => Some (inr (if closed t then TReady (to MEnded (st t) []) else TPending t))
      | msg :: inbox =>
          '(parts, s) ← match call_once (Some msg) (st t) with Done (_, r) => r | _ => None end;
          Some (inl (mkTask (MRun parts) inbox (closed t) (abort_signal t) s (S (next t))
                       (log t ++ [DCall (next t)])))
      end
  | MRun parts =>
      let i := next t - 1 in
      match parts with
      | [] => Some (inl (to MCheck (st t) [DEnd i]))
      | p :: parts =>
          s ← p (st t);
          Some (match parts with
                | [] => inl (to MCheck s [DPart i; DEnd i])
                | _ => inr (TPending (to (MRun parts) s [DPart i]))
                end)
      end
  | MEnded => None
  end.

(** The steps that can follow one another in a poll. *)
Definition task_measure (t : Task) : nat :=
  3 * length (inbox t) +
  match pc t with MInit _ | MRun _ => 4 | MCheck => 3 | MRecv => 2 | MEnded => 1 end.

Fixpoint task_loop (fuel : nat) (t : Task) : Polled :=
  match fuel with
  | O => TNoFuel
  | S fuel =>
      match task_step t with
      | None => TPanicked
      | Some (inl t) => task_loop fuel t
      | Some (inr p) => p
      end
  end.

(** A poll during which nothing is sent. *)
Definition task_poll (t : Task) : Polled := task_loop (task_measure t) t.

(** [ModelFuture::poll]: the identifier of the model is set while it is polled,
    and stays set if the poll panics. *)
Definition model_poll (id : nat) (t : Task) (current : option nat) : Polled * option nat :=
  let current := Some id in
  let poll := task_poll t in
  match poll with
  | TPanicked => (poll, current)
  | _ => (poll, None)
  end.

(** ** Messages are executed one at a time, in order *)

(** The complete execution of message [i], whose body has [n] parts. *)
Definition whole (i n : nat) : list Did := DCall i :: replicate n (DPart i) ++ [DEnd i].
Fixpoint wholes (i : nat) (ns : list nat) : list Did :=
  match ns with [] => [] | n :: ns => whole i n ++ wholes (S i) ns end.

Lemma wholes_app i ns ns' : wholes i (ns ++ ns') = wholes i ns ++ wholes (i + length ns) ns'.
Proof.
  revert i. induction ns as [|n ns IH]; intros i; simpl; [by rewrite Nat.add_0_r|].
  rewrite IH. replace (S i + length ns) with (i + S (length ns)) by lia. simpl.
  by rewrite <-!app_assoc.
Qed.

(** The log: initialization, whole messages, and the message in progress. *)
Definition in_order (t : Task) (ns : list nat) : Prop :=
  ∃ k, match pc t with
  | MInit _ => ns = [] ∧ next t = 0 ∧ log t = replicate k DInit
  | MCheck | MRecv | MEnded => next t = length ns ∧ log t = replicate k DInit ++ wholes 0 ns
  | MRun _ => next t = S (length ns) ∧ ∃ m,
      log t = replicate k DInit ++ wholes 0 ns ++ DCall (length ns) :: replicate m (DPart (length ns))
  end.

Definition task_ok (l : list Message) (t : Task) : Prop :=
  inbox t = drop (next t) l ∧ next t ≤ length l ∧ ∃ ns, in_order t ns.

Lemma wholes_snoc ns m (k : nat) :
  (replicate k DInit ++ wholes 0 ns ++ DCall (length ns) :: replicate m (DPart (length ns))) ++
    [DEnd (length ns)] = replicate k DInit ++ wholes 0 (ns ++ [m]).
Proof. rewrite wholes_app. simpl. rewrite app_nil_r, <-!app_assoc. done. Qed.

Lemma part_snoc (ns : list nat) m k :
  (replicate k DInit ++ wholes 0 ns ++ DCall (length ns) :: replicate m (DPart (length ns))) ++
    [DPart (length ns)] =
  replicate k DInit ++ wholes 0 ns ++ DCall (length ns) :: replicate (S m) (DPart (length ns)).
Proof. rewrite replicate_S_end, <-!app_assoc. done. Qed.

Definition step_result (x : Task + Polled) : option Task :=
  match x with inl t | inr (TPending t) | inr (TReady t) => Some t | _ => None end.

Lemma task_step_ok l t x t' : task_ok l t → task_step t = Some x → step_result x = Some t' →
  task_ok l t'.
Proof.
  intros (Hin & Hle & ns & k & Hord) Hs Hr. unfold task_step in Hs.
  destruct (pc t) as [parts| | |parts|] eqn:Hpc; [..|done].
  - destruct Hord as (-> & Hn & Hlog). destruct (run_body parts (st t)) as [[parts' s']|]; [|done].
    simpl in Hs. injection Hs as <-.
    destruct parts' as [|p parts']; injection Hr as <-; split_and!; try done; exists [], (S k);
      cbn [pc next log]; by rewrite Hlog, replicate_S_end, ?app_nil_r.
  - destruct Hord as [Hn Hlog]. injection Hs as <-.
    destruct (abort_signal t); injection Hr as <-; split_and!; try done; exists ns, k; simpl;
      by rewrite app_nil_r.
  - destruct Hord as [Hn Hlog]. destruct (inbox t) as [|msg inb] eqn:Hi.
    { injection Hs as <-. destruct (closed t); injection Hr as <-; split_and!; try by rewrite ?Hi.
      - exists ns, k. simpl. by rewrite app_nil_r.
      - exists ns, k. by rewrite Hpc. }
    simpl in Hs. destruct (msg (st t)) as [[parts s']|]; [|done]. simpl in Hs. injection Hs as <-.
    injection Hr as <-.
    assert (next t < length l) as Hlt.
    { destruct (decide (next t < length l)); [done|]. rewrite drop_ge in Hin by lia. done. }
    split_and!; [|simpl; lia|].
    + cbn [inbox next]. replace (S (next t)) with (next t + 1) by lia. by rewrite <-drop_drop, <-Hin.
    + exists ns, k. simpl. split; [by rewrite Hn|]. exists 0. by rewrite Hlog, Hn, <-app_assoc.
  - destruct Hord as (Hn & m & Hlog).
    assert (next t - 1 = length ns) as Hi by lia. rewrite Hi in Hs.
    destruct parts as [|p parts].
    { injection Hs as <-. injection Hr as <-. split_and!; [done|done|].
      exists (ns ++ [m]), k. simpl. rewrite length_app, Hn, Hlog, wholes_snoc. simpl. split; [lia|done]. }
    destruct (p (st t)) as [s'|]; [|done]. simpl in Hs. injection Hs as <-.
    destruct parts as [|p' parts]; injection Hr as <-; simpl.
    + split_and!; [done|done|]. exists (ns ++ [S m]), k. cbn [pc next log].
      rewrite length_app, Hn, Hlog. split; [simpl; lia|].
      rewrite <-wholes_snoc, <-part_snoc, <-!app_assoc. done.
    + split_and!; [done|done|]. exists ns, k. cbn [pc next log]. split; [done|].
      exists (S m). by rewrite Hlog, part_snoc.
Qed.

(** Messages that can be taken although the simulation is aborted. *)
Definition budget (t : Task) : nat := match pc t with MRecv => 1 | _ => 0 end.

Lemma task_step_abort t x t' : task_step t = Some x → step_result x = Some t' →
  abort_signal t = true → abort_signal t' = true ∧ next t' + budget t' ≤ next t + budget t.
Proof.
  intros Hs Hr Ha. unfold task_step in Hs. unfold budget.
  destruct (pc t) as [parts| | |parts|] eqn:Hpc; [..|done].
  - destruct (run_body parts (st t)) as [[[|] ?]|]; [..|done]; simpl in Hs; injection Hs as <-;
      injection Hr as <-; (split; [done|simpl; lia]).
  - rewrite Ha in Hs. injection Hs as <-. injection Hr as <-. split; [done|simpl; lia].
  - destruct (inbox t) as [|msg inb].
    { injection Hs as <-. destruct (closed t); injection Hr as <-; split; try done;
        rewrite ?Hpc; simpl; lia. }
    simpl in Hs. destruct (msg (st t)) as [[parts s']|]; [|done]. simpl in Hs. injection Hs as <-.
    injection Hr as <-. split; [done|simpl; lia].
  - destruct parts as [|p parts]; [injection Hs as <-; injection Hr as <-; split; [done|simpl; lia]|].
    destruct (p (st t)) as [s'|]; [|done]. simpl in Hs. injection Hs as <-.
    destruct parts; injection Hr as <-; split; try done; simpl; lia.
Qed.

Lemma task_step_measure t t' : task_step t = Some (inl t') → task_measure t' < task_measure t.
Proof.
  unfold task_step, task_measure. destruct (pc t) as [parts| | |parts|]; [..|done].
  - destruct (run_body parts (st t)) as [[parts' s']|]; [|done]. simpl.
    destruct parts'; [|done]. intros [= <-]. simpl. lia.
  - destruct (abort_signal t); [done|]. intros [= <-]. simpl. lia.
  - destruct (inbox t) as [|msg inb]; [by destruct (closed t)|].
    simpl. destruct (msg (st t)) as [[parts s']|]; [|done]. intros [= <-]. simpl. lia.
  - destruct parts as [|p parts]; [intros [= <-]; simpl; lia|].
    destruct (p (st t)) as [s'|]; [|done]. simpl. destruct parts; [|done]. intros [= <-]. simpl. lia.
Qed.

Definition polled_task (p : Polled) : option Task :=
  match p with TPending t | TReady t => Some t | _ => None end.

Lemma task_step_polled t p : task_step t = Some (inr p) → polled_task p = step_result (inr p) ∧ p ≠ TNoFuel.
Proof.
  intros Hs. split; [by destruct p|].
  unfold task_step in Hs. destruct (pc t) as [parts| | |parts|]; [..|done].
  - destruct (run_body parts (st t)) as [[[|] ?]|]; simpl in Hs; [done| |done]. by injection Hs as <-.
  - destruct (abort_signal t); [by injection Hs as <-|done].
  - destruct (inbox t) as [|msg inb]; [injection Hs as <-; by destruct (closed t)|].
    simpl in Hs. by destruct (msg (st t)) as [[? ?]|].
  - destruct parts as [|q [|q' parts]]; [done|..]; destruct (q (st t)); simpl in Hs; try done.
    by injection Hs as <-.
Qed.

Lemma task_loop_returns fuel t : task_measure t ≤ fuel → task_loop fuel t ≠ TNoFuel.
Proof.
  revert t. induction fuel as [|fuel IH]; intros t Hf.
  { unfold task_measure in Hf. destruct (pc t); lia. }
  simpl. destruct (task_step t) as [[t1|p]|] eqn:Hs; [..|done].
  - apply IH. pose proof (task_step_measure _ _ Hs). lia.
  - by apply task_step_polled in Hs as [_ ?].
Qed.

(** *** Histories of a model *)

(** What the rest of the program does to a task, at any point of its run: it
    sends a message, closes the channel, aborts the simulation, goes on. *)
Definition send_msg (msg : Message) (t : Task) : Task :=
  mkTask (pc t) (inbox t ++ [msg]) (closed t) (abort_signal t) (st t) (next t) (log t).
Definition env_move (c a : bool) (w : W) (t : Task) : Task :=
  mkTask (pc t) (inbox t) (closed t || c) (abort_signal t || a)
    (mkSt (model (st t)) (cx (st t)) w) (next t) (log t).

(** The steps of the task interleaved with the rest of the program; a poll is
    a run of steps up to one that suspends or ends it.  [l] is the list of all
    the messages sent so far. *)
Inductive tmove : list Message * Task → list Message * Task → Prop :=
| move_step l t x t' : task_step t = Some x → step_result x = Some t' → tmove (l, t) (l, t')
| move_send l t msg : tmove (l, t) (l ++ [msg], send_msg msg t)
| move_env l t c a w : tmove (l, t) (l, env_move c a w t).

(** The part of a poll made so far: [k] steps, while [n] messages arrived. *)
Inductive polling (t : Task) : nat → nat → Task → Prop :=
| polling_start : polling t 0 0 t
| polling_step k n t1 t2 : polling t k n t1 → task_step t1 = Some (inl t2) → polling t (S k) n t2
| polling_send k n t1 msg : polling t k n t1 → polling t k (S n) (send_msg msg t1)
| polling_env k n t1 c a w : polling t k n t1 → polling t k n (env_move c a w t1).

Lemma tmoves_ok x y : rtc tmove x y → task_ok x.1 x.2 → task_ok y.1 y.2.
Proof.
  induction 1 as [x|x y z Hxy _ IH]; [done|]. intros Hok. apply IH.
  destruct Hxy as [l t x t' Hs Hr|l t msg|l t c a w]; simpl in *.
  - by eapply task_step_ok.
  - destruct Hok as (H1 & H2 & H3). split_and!; [|simpl; rewrite length_app; lia|done]. simpl.
    by rewrite H1, drop_app_le.
  - done.
Qed.

Lemma task_new_ok init s : task_ok [] (task_new init s).
Proof. split_and!; [done|simpl; lia|]. by exists [], 0. Qed.

Lemma polling_measure t k n t' : polling t k n t' → k + task_measure t' ≤ task_measure t + 3 * n.
Proof.
  induction 1 as [|k n t1 t2 _ IH Hs|k n t1 msg _ IH|k n t1 c a w _ IH]; [lia|..].
  - apply task_step_measure in Hs. lia.
  - unfold task_measure, send_msg in *. simpl. rewrite length_app. simpl. lia.
  - exact IH.
Qed.

Lemma tmoves_abort x y : rtc tmove x y → abort_signal x.2 = true →
  next y.2 + budget y.2 ≤ next x.2 + budget x.2.
Proof.
  induction 1 as [x|x y z Hxy _ IH]; [done|]. intros Ha.
  assert (abort_signal y.2 = true ∧ next y.2 + budget y.2 ≤ next x.2 + budget x.2) as [Ha' Hle].
  { destruct Hxy as [l t x t' Hs Hr|l t msg|l t c a w]; simpl in *; [|done|by rewrite Ha].
    by eapply task_step_abort. }
  specialize (IH Ha'). lia.
Qed.


End Inputs.
Arguments St : clear implicits.
Arguments Task : clear implicits.
Arguments Part : clear implicits.
Arguments Message : clear implicits.
Arguments InputFn : clear implicits.
Arguments ReplierFn : clear implicits.

(** ** Evaluation

    A counter whose first message waits in the middle of its body while a
    second one has already arrived. *)

Definition add_part (n : nat) : Part nat unit nat := λ s, Some (mkSt (model s + n) (cx s) (rest s)).
Definition slow_add : Message nat unit nat :=
  message (AsyncWithoutContext nat (λ n, [add_part n; add_part (10 * n)])) 1.
Definition double : Message nat unit nat := message (WithoutArguments unit (λ m, Some (2 * m))) tt.

Definition tstep_or (t : Task nat unit nat) : Task nat unit nat :=
  default t (task_step t ≫= step_result).
Definition task_start : Task nat unit nat := task_new [] (mkSt 0 tt 0).

(** The second message arrives while the first one is executed, and the
    simulation is aborted when the task is about to take it: the task ends
    after the second message and leaves the third. *)
Definition demo_task : Task nat unit nat :=
  Nat.iter 4 tstep_or (send_msg double (env_move false true 7
    (Nat.iter 3 tstep_or (send_msg double (Nat.iter 3 tstep_or (send_msg slow_add task_start)))))).

Lemma tstep_or_moves (l : list (Message nat unit nat)) n t : rtc tmove (l, t) (l, Nat.iter n tstep_or t).
Proof.
  induction n as [|n IH]; [done|]. etrans; [exact IH|]. simpl.
  generalize (Nat.iter n tstep_or t). intros t1. unfold tstep_or. destruct (task_step t1) as [x|] eqn:Hs; [|done]. simpl.
  destruct (step_result x) as [t'|] eqn:Hr; [|done]. by eapply rtc_once, move_step.
Qed.

