(* ===== verification/Ticker.v ===== *)
(** * Helper models (nexosim-util: helper_models.rs)

    A [Ticker] is a model that schedules itself with a fixed period.  Periodic
    actions without a key cannot be cancelled, so that its event stays queued
    through every history of the simulation. *)

From stdpp Require Import base option list numbers strings relations sorting.
From Stdlib Require Import ZArith Lia.
From S2P Require Import ModelTask Prelude StableQueue PriorityQueue Time SeqFuture Scheduler Simulation StepFacts Stepping SimInit Demo SimProperties.

Record Ticker := mkTicker { tick_period : Duration }.

Definition Ticker_new (tick : Duration) : Ticker := mkTicker tick.

(** [Ticker::tick], an asynchronous method with an empty body. *)
Definition Ticker_tick {Cx W : Type} : InputFn Ticker Cx W unit :=
  AsyncWithoutArguments unit [].

Section Ticker.
Context {T : Type} `{MonotonicTimeLaws T}.
Context {Call Addr SourceFut : Type}.
Abbreviation Action := (Action Call Addr SourceFut).
Context {Q : Type} `{!StableQueue Q (T * Z) Action} `{!StableQueueLaws Q (T * Z) Action}.
Abbreviation Shared := (Shared Q T).
Implicit Types (sh : Shared) (p : Duration) (x : T * Z * Action).

(** [Ticker::init]; [tick] is the call of [Self::tick]. *)
Definition Ticker_init (tick : Call) (self : Ticker) (cx : Context Addr) (sh : Shared) :
    outcome (Ticker * Shared) :=
  let! (r, sh) :=
    Context_schedule_periodic_event cx (tick_period self) (tick_period self) tick sh in
  match r with
  | Ok _ => Done (self, sh)
  | Err _ => Panicked
  end.

(** ** Queued entries stay queued *)

Lemma schedule_from_keeps {D} `{Deadline D T} (d : D) a o sh r sh' x :
  sq_wf (scheduler_queue sh) → schedule_from d a o sh = Done (r, sh') →
  x ∈ queued sh → x ∈ queued sh'.
Proof.
  intros Hwf Hs Hx. destruct (schedule_from_cases d a o sh r sh' Hwf Hs)
    as (t & _ & [(_ & _ & ->)|(_ & _ & q & -> & _ & Habs & _)]); [done|].
  unfold queued. simpl. rewrite Habs. apply stable_insert_elem. by right.
Qed.

Lemma sched_op_keeps sh sh' x :
  sched_inv sh → sched_op sh sh' → x ∈ queued sh → x ∈ queued sh'.
Proof.
  intros [Hwf _ _]. destruct 1 as [D ? d a o r sh' _ Hs|D ? d f adr o r sh' Hs|D ? d f adr o r sh' Hs
    |D ? d p f adr o r sh' _ Hs|D ? d p f adr o r sh' _ Hs| | | |]; try done.
  - by eapply schedule_from_keeps.
  - rewrite schedule_event_from_eq in Hs. by eapply schedule_from_keeps.
  - pose proof (schedule_keyed_event_from_eq d f adr o sh) as He. simpl in He. rewrite He in Hs.
    apply with_key_Done in Hs as (r0 & Hs & _).
    intros Hx. by apply (schedule_from_keeps _ _ _ _ _ _ x (Hwf : sq_wf (scheduler_queue (set_flags _ sh))) Hs).
  - rewrite schedule_periodic_event_from_eq in Hs. destruct (is_zero p); [by simplify_eq|].
    by eapply schedule_from_keeps.
  - pose proof (schedule_keyed_periodic_event_from_eq d p f adr o sh) as He. simpl in He.
    rewrite He in Hs. destruct (is_zero p); [by simplify_eq|].
    apply with_key_Done in Hs as (r0 & Hs & _).
    intros Hx. by apply (schedule_from_keeps _ _ _ _ _ _ x (Hwf : sq_wf (scheduler_queue (set_flags _ sh))) Hs).
Qed.

Lemma sched_ops_keep sh sh' x :
  sched_inv sh → rtc sched_op sh sh' → x ∈ queued sh → x ∈ queued sh'.
Proof.
  intros Hinv Hops. induction Hops as [sh|sh sh1 sh2 Hop _ IH]; [done|]. intros Hx.
  apply IH; [by eapply sched_op_inv|by eapply sched_op_keeps].
Qed.

End Ticker.

(** ** The ticker's event through every history *)

Section Alive.
Context {T : Type} `{MonotonicTimeLaws T}.
Context {Call Addr SourceFut QCall Obs Reply Payload : Type}.
Abbreviation Action := (Action Call Addr SourceFut).
Abbreviation Task := (Task Call Addr SourceFut QCall).
Context {Q : Type} `{!StableQueue Q (T * Z) Action} `{!StableQueueLaws Q (T * Z) Action}.
Abbreviation Shared := (Shared Q T).
Context {E : Type} `{!Executor E Shared Task Obs Reply Payload}.
Context `{Hacc : !ExecutorAccepts (E := E)}.
Context {C : Type} `{!Clock C T}.
Context (is_send_error : Payload → bool).
Context `{Hexec : !ExecutorLaws (E := E)}.
Abbreviation Simulation := (Simulation E C Shared Obs).
Implicit Types (self : Simulation) (sh : Shared) (gen : unit → Fut Call Addr SourceFut) (p : Duration).

(** The periodic action is queued, at most one period ahead. *)
Definition due_within gen p (o : Z) sh : Prop :=
  ∃ t, (t, o, PeriodicAction gen p) ∈ queued sh ∧
    (mt_total t ≤ mt_total (time sh) + dur_total p)%Z.

Lemma Ticker_init_due tick tk (cx : Context Addr) sh tk' sh' :
  sched_inv sh → duration_wf (tick_period tk) → Ticker_init tick tk cx sh = Done (tk', sh') →
  sched_inv sh' ∧ time sh' = time sh ∧
  due_within (λ _, Scheduler.process_event tick (ctx_address cx)) (tick_period tk)
    (ctx_origin_id cx) sh'.
Proof.
  intros Hinv Hp Hi. unfold Ticker_init, Context_schedule_periodic_event in Hi.
  rewrite schedule_periodic_event_from_eq in Hi.
  destruct (is_zero (tick_period tk)) eqn:Hz; [done|].
  destruct (schedule_from _ _ _ sh) as [[r sh1]| |] eqn:Hs; simpl in Hi; [|done..].
  pose proof Hs as Hs1. eapply schedule_from_inv in Hs1; [|done|exact Hp].
  destruct Hs1 as (Hinv1 & Ht & _).
  destruct (schedule_from_cases _ _ _ _ _ _ (si_wf _ Hinv) Hs)
    as (t & Hadd & [(_ & -> & _)|(_ & -> & q & -> & _ & Habs & _)]); [done|]. simplify_eq.
  split; [done|]. split; [done|]. exists t. split.
  - unfold queued. simpl. rewrite Habs. apply stable_insert_elem. by left.
  - simpl. unfold into_time in Hadd. by rewrite (mt_add_total _ _ _ Hp Hadd).
Qed.

Lemma sched_ops_due gen p o sh sh' :
  sched_inv sh → rtc sched_op sh sh' → due_within gen p o sh → due_within gen p o sh'.
Proof.
  intros Hinv Hops (t & Hin & Hle). exists t.
  destruct (sched_ops_inv _ _ Hops Hinv) as (_ & -> & _). split; [|done].
  by eapply sched_ops_keep.
Qed.

(** Pulling the entries of time [t] leaves the action queued, at most one
    period after [t]. *)
Definition tick_within gen p (o : Z) (t : T) (l : list (T * Z * Action)) : Prop :=
  ∃ t', (t', o, PeriodicAction gen p) ∈ l ∧ (mt_total t' ≤ mt_total t + dur_total p)%Z.

Lemma tick_within_drop gen p o flags t : keeps_drop flags (tick_within gen p o t).
Proof.
  intros kv l (t' & Hin & Hle) Hl. exists t'. split; [|done].
  apply elem_of_cons in Hin as [<-|Hin]; [|done]. by destruct Hl.
Qed.

Lemma tick_within_pull gen p o flags t :
  duration_wf p → keeps_pull flags t (tick_within gen p o t).
Proof.
  intros Hp kv l c lc' (t' & Hin & Hle) _ Hkv Hr. unfold resched1 in Hr.
  apply elem_of_cons in Hin as [<-|Hin]; simpl in *.
  - destruct (mt_add t' p) as [t1| |] eqn:Ea; simpl in Hr; [|done..].
    case_decide; simplify_eq/=. exists t1.
    split; [apply stable_insert_elem; by left|]. by rewrite (mt_add_total _ _ _ Hp Ea).
  - exists t'. split; [|done]. destruct (Action_next kv.2) as [[a p']|]; [|by simplify_eq].
    destruct (mt_add kv.1.1 p'); simpl in Hr; [|done..]. case_decide; simplify_eq/=.
    apply stable_insert_elem. by right.
Qed.

Lemma step_to_next_due gen p o ub self r self' :
  duration_wf p → sched_inv (shared self) → due_within gen p o (shared self) →
  step_to_next is_send_error ub self = Done (r, self') →
  due_within gen p o (shared self') ∧
  ∀ t, r = Ok (Some t) → (mt_total t ≤ mt_total (time (shared self)) + dur_total p)%Z.
Proof.
  intros Hp Hinv Hdue Hstep. destruct (is_terminated self) eqn:Hterm.
  { unfold step_to_next in Hstep. rewrite Hterm in Hstep. by simplify_eq. }
  destruct (is_halted (shared self)) eqn:Hhalt.
  { unfold step_to_next in Hstep. rewrite Hterm, Hhalt in Hstep. by simplify_eq/=. }
  set (now := time (shared self)) in *.
  apply (step_to_next_cases is_send_error ub self r self' (tick_within gen p o now)
    (λ t l, tick_within gen p o t l ∧ (mt_total t ≤ mt_total now + dur_total p)%Z)) in Hstep
    as [(q & -> & -> & Hq & _)|(t & q & e & Hfin & _ & _ & [Hq Hle] & Hi & _)];
    [by split| |done..|exact Hdue|apply tick_within_drop| | |].
  - destruct (finish_step_latched _ _ _ _ _ Hfin) as [_ Hok]. apply finish_step_ops in Hfin; [|done].
    split; [|by intros ? ->; injection (Hok _ eq_refl) as ->].
    by apply (sched_ops_due _ _ _ _ _ Hi Hfin).
  - intros k q [Hwf (t' & Hin & Hle) (_ & a & l & Habs & _)] Hlt.
    assert (k.1 ≤ₒ t') as Hkt.
    { pose proof (sq_sorted q Hwf) as Hs. rewrite Habs in Hs, Hin.
      apply elem_of_cons in Hin as [[= <- _]|Hin]; [apply ord_le_refl|].
      inversion Hs as [|? ? _ Hall]; subst. rewrite Forall_forall in Hall.
      exact (prod_le_fst _ _ (Hall _ Hin)). }
    apply mt_lt_total in Hlt. apply mt_le_total in Hkt. fold now in Hlt.
    split; [exists t'; split; [done|]|]; lia.
  - intros t kv l [? ?] ?. split; [by eapply tick_within_drop|done].
  - intros t kv l c lc' [? ?] ? ? ?. split; [by eapply tick_within_pull|done].
Qed.

Lemma step_until_due gen p o m fuel target self r self' :
  (∀ t, target = Some t → quiet_gap t m) → duration_wf p → sched_inv (shared self) → due_within gen p o (shared self) →
  time (shared self) ≤ₒ default MT_MAX target →
  step_until_unchecked is_send_error m fuel target self = Done (r, self') →
  due_within gen p o (shared self').
Proof.
  intros Hm Hp. revert self. induction fuel as [|fuel IH]; intros self Hinv Hdue Hle; simpl; [done|].
  destruct (step_to_next is_send_error target self) as [[r1 self1]| |] eqn:Es; simpl; [|done..].
  destruct (step_to_next_due _ _ _ _ _ _ _ Hp Hinv Hdue Es) as [Hdue1 _].
  destruct (step_to_next_inv _ _ _ _ _ Es Hinv) as (Hinv1 & Hr1).
  destruct r1 as [o1|e]; [|by intros [= _ <-]]. case_bool_decide; [by intros [= _ <-]|].
  destruct o1 as [t|].
  - apply IH; [done..|]. by destruct Hr1 as (_ & ? & -> & _).
  - destruct target as [t|]; [|by intros [= _ <-]]. intros [= Ha].
    apply advance_to_shared in Ha. destruct Hr1 as (Ht & Hall & _). simpl in *.
    destruct (Hm t eq_refl (shared self1) Hinv1 Hall) as [Hops _].
    apply (sched_ops_due _ _ _ _ _ Hinv1 Hops) in Hdue1 as (t1 & Hin & Hle1).
    destruct (sched_ops_inv _ _ Hops Hinv1) as (_ & Ht2 & _).
    exists t1. rewrite Ha. split; [done|]. simpl. rewrite Ht2, Ht in Hle1.
    apply mt_le_total in Hle. lia.
Qed.

Lemma sim_step_due gen p o self self' :
  duration_wf p → sched_inv (shared self) → due_within gen p o (shared self) →
  sim_step is_send_error quiet_gap self self' → due_within gen p o (shared self').
Proof.
  intros Hp Hinv Hdue Hstep. destruct Hstep as [r s Hop|sh Hop|d]; [|simpl|done].
  2: { apply (sched_ops_due _ _ _ _ _ Hinv); [by apply rtc_once|done]. }
  destruct Hop as [r s Hs|D ? m n d r s Hm Hs|n r s Hs|a r s Hs|f adr r s Hs|f adr r s Hs].
  - unfold step in Hs. destruct (step_to_next _ None self) as [[r0 s1]| |] eqn:Es; simplify_eq/=.
    by apply (step_to_next_due _ _ _ _ _ _ _ Hp Hinv Hdue Es).
  - unfold step_until in Hs. destruct (into_time d (time (shared self))) as [t| |] eqn:Ed; simpl in Hs; [|done..].
    destruct (t <?ₒ time (shared self)) eqn:Elt; ord_simpl; [by simplify_eq|].
    apply (step_until_due _ _ _ m _ (Some t) _ _ _) with (2 := Hp) (3 := Hinv) (4 := Hdue) (5 := Elt)
      (6 := Hs). intros ? [= <-]. by apply Hm.
  - by apply (step_until_due _ _ _ id _ None _ _ _ ltac:(done) Hp Hinv Hdue (mt_le_MAX _) Hs).
  - apply process_run in Hs as (e & Hs). apply run_ops in Hs; [|done]. by apply (sched_ops_due _ _ _ _ _ Hinv Hs).
  - apply process_event_run in Hs as (e & Hs). apply run_ops in Hs; [|done].
    by apply (sched_ops_due _ _ _ _ _ Hinv Hs).
  - apply process_query_run in Hs as (e & r0 & Hs & _). apply run_ops in Hs; [|done].
    by apply (sched_ops_due _ _ _ _ _ Hinv Hs).
Qed.

Lemma sim_steps_due gen p o self self' :
  duration_wf p → sched_inv (shared self) → due_within gen p o (shared self) →
  rtc (sim_step is_send_error quiet_gap) self self' → due_within gen p o (shared self').
Proof.
  intros Hp Hinv Hdue Hsteps. induction Hsteps as [s|s s1 s2 Hstep _ IH]; [done|].
  apply IH; [|by eapply sim_step_due]. exact (proj1 (sim_steps_inv is_send_error _ _ (rtc_once _ _ Hstep) Hinv)).
Qed.

(** C13: a bench with a ticker never runs out of events.  Once a ticker is
    initialized, and whatever the other models, the users of the scheduler and
    the calls on the simulation do, except that no other thread schedules at or
    before the target time of a [step_until] while this writes the time, a step
    that returns without an error has found an action to execute and moved the
    time forward, by at most one tick; and stepping without a bound never
    returns successfully. *)
Theorem ticker_keeps_alive tick tk (cx : Context Addr) sh tk' self self' :
  sched_inv sh → duration_wf (tick_period tk) →
  Ticker_init tick tk cx sh = Done (tk', shared self) →
  rtc (sim_step is_send_error quiet_gap) self self' →
  (∀ r self'', step_to_next is_send_error None self' = Done (Ok r, self'') →
     ∃ t, r = Some t ∧ time (shared self'') = t ∧ time (shared self') <ₒ t ∧
       (mt_total t ≤ mt_total (time (shared self')) + dur_total (tick_period tk))%Z) ∧
  (∀ fuel self'', step_unbounded is_send_error fuel self' ≠ Done (Ok tt, self'')).
Proof.
  intros Hinv Hp Hi Hsteps. destruct (Ticker_init_due _ _ _ _ _ _ Hinv Hp Hi) as (Hinv1 & _ & Hdue).
  pose proof (sim_steps_due _ _ _ _ _ Hp Hinv1 Hdue Hsteps) as Hdue'.
  destruct (sim_steps_inv is_send_error _ _ Hsteps Hinv1) as [Hinv' _].
  assert (∀ sh', due_within (λ _, Scheduler.process_event tick (ctx_address cx)) (tick_period tk)
    (ctx_origin_id cx) sh' → ¬ Forall (λ kv, MT_MAX <ₒ kv.1.1) (queued sh')) as Hno.
  { intros sh' (t & Hin & _) Hall. rewrite Forall_forall in Hall. specialize (Hall _ Hin).
    exact (ord_le_lt_absurd _ _ (mt_le_MAX t) Hall). }
  split.
  - intros r self'' Hs. destruct (step_to_next_due _ _ _ _ _ _ _ Hp Hinv' Hdue' Hs) as [Hdue2 Hb].
    destruct (step_to_next_inv _ _ _ _ _ Hs Hinv') as (_ & Hr). destruct r as [t|].
    + exists t. destruct Hr as (? & _ & ? & _). auto.
    + exfalso. destruct Hr as (_ & Hall & _). by eapply Hno.
  - intros fuel self'' Hs. unfold step_unbounded in Hs.
    destruct (step_until_unchecked_inv _ _ _ _ _ _ _ Hs ltac:(done) Hinv' (mt_le_MAX _)) as (_ & _ & Hall & _).
    eapply Hno; [|exact Hall]. by apply (step_until_due _ _ _ id _ None _ _ _ ltac:(done) Hp Hinv' Hdue' (mt_le_MAX _) Hs).
Qed.
End Alive.

(** A ticker that cannot tick panics when it is initialized. *)
Lemma Ticker_init_zero {T : Type} `{MonotonicTime T} {Call Addr SourceFut Q : Type}
    `{!StableQueue Q (T * Z) (Action Call Addr SourceFut)} (tick : Call) tk (cx : Context Addr)
    (sh : Shared Q T) :
  is_zero (tick_period tk) = true → Ticker_init tick tk cx sh = Panicked.
Proof.
  intros Hz. unfold Ticker_init, Context_schedule_periodic_event, schedule_periodic_event_from.
  by rewrite Hz.
Qed.

(** ** Evaluation: a ticker of 5 ns beside an event at 7 ns *)

Definition demo_bench : DSim := demo_sim [(7%Z, 1%Z, once 1 7)] [] None.
Definition demo_ticker : Ticker := Ticker_new (dur 5).
Definition demo_ticking : DSim :=
  match Ticker_init 2 demo_ticker (mkContext 8 2%Z) (shared demo_bench) with
  | Done (_, sh) => set_shared sh demo_bench
  | _ => demo_bench
  end.
Definition step_or (s : DSim) : DSim :=
  match step (λ _, false) s with Done (_, s) => s | _ => s end.

Lemma step_or_step s : sim_step (λ _, false) quiet_gap s (step_or s) ∨ step_or s = s.
Proof.
  unfold step_or. destruct (step (λ _, false) s) as [[r s']| |] eqn:Es; [left|by right..].
  by apply (step_op _ _ _ r), op_step.
Qed.

Lemma step_or_steps s : rtc (sim_step (λ _, false) quiet_gap) s (step_or s).
Proof. destruct (step_or_step s) as [Hs| ->]; [by apply rtc_once|done]. Qed.

Lemma ticker_keeps_alive_witness :
  time (shared (step_or (step_or (step_or demo_ticking)))) = ns 10 ∧
  ∀ fuel s, step_unbounded (λ _, false) fuel (step_or (step_or demo_ticking)) ≠ Done (Ok tt, s).
Proof.
  split; [apply tai_eq; vm_compute; reflexivity|].
  refine (proj2 (ticker_keeps_alive (λ _, false) 2 demo_ticker (mkContext 8 2%Z) (shared demo_bench)
    demo_ticker demo_ticking (step_or (step_or demo_ticking)) _ _ _ _)).
  - apply demo_sim_inv; [simpl; unfold u64_max; lia|]. vm_compute. done.
  - vm_compute. done.
  - vm_compute. reflexivity.
  - transitivity (step_or demo_ticking); apply step_or_steps.
Defined.
