(* ===== verification/SinkOutputs.v ===== *)
(** * Outputs that are connected to event sinks

    Writing to an event sink never waits, so that a broadcast to sinks is
    complete after its first poll: what it does to the world is given exactly. *)

From stdpp Require Import base option list numbers.
From Stdlib Require Import ZArith Lia.
From S2P Require Import Prelude Broadcast CachedLock OutputSenders OutputPorts.

Section Sinks.
Context {Addr Call QCall Reply SendFut Rx W T : Type}.
Context `{PW : PortWorld Addr Call QCall Reply SendFut Rx W}.
Abbreviation Sender := (EventSender Addr Call W T).
Abbreviation EFut := (EventFut SendFut W).
Abbreviation Inner := (BroadcasterInner Sender unit).
Implicit Types (s : Sender) (l : list Sender) (w : W) (self : Inner).

Definition is_sink s : Prop :=
  match s with
  | DEventSink _ | DMapEventSink _ | DFilterMapEventSink _ => True
  | _ => False
  end.

(** What a sink is given of an event, if its filter accepts it. *)
Definition sink_write (arg : T) s : option (W → W) :=
  match s with
  | DEventSink s => Some (ess_writer s arg)
  | DMapEventSink s => Some (mes_writer _ s (mes_map _ s arg))
  | DFilterMapEventSink s => fes_writer _ s <$> fes_filter_map _ s arg
  | _ => None
  end.

Definition apply_all (ws : list (W → W)) w : W := foldl (λ w write, write w) w ws.

(** The event is written to each sink once, in the order of the connections. *)
Definition write_all (arg : T) l w : W := apply_all (omap (sink_write arg) l) w.

(** Two lists of senders with the same connections. *)
Definition same_conn l l' : Prop := EventSender_clone <$> l = EventSender_clone <$> l'.

Lemma sink_send arg s : is_sink s →
  ∃ s', EventSender_send (SendFut := SendFut) arg s = (EWrite <$> sink_write arg s, s') ∧
    EventSender_clone s' = EventSender_clone s.
Proof.
  destruct s as [s|U s|U s|s|U s|U s]; simpl; try done; intros _; [eauto..|].
  unfold FilterMapEventSinkSender_send. destruct (fes_filter_map U s arg); eauto.
Qed.

Lemma event_send_owned_eq arg s :
  EventSender_send_owned (SendFut := SendFut) arg s = EventSender_send arg s.
Proof. by destruct s. Qed.

Lemma event_send_all_cons i arg s l w :
  send_all i arg (s :: l) w =
  let (o, s) := EventSender_send arg s in
  let! (futs, l, w) := send_all (S i) arg l w in
  Done (option_list (flip mkRecycled i <$> o) ++ futs, s :: l, w).
Proof.
  destruct l as [|s2 l]; simpl.
  - rewrite event_send_owned_eq. destruct (EventSender_send arg s) as [o s']. simpl. by rewrite app_nil_r.
  - by destruct (EventSender_send arg s) as [o s'].
Qed.

Lemma sink_send_all i arg l w : Forall is_sink l →
  ∃ futs l', send_all i arg l w = Done (futs, l', w) ∧
    fut <$> futs = EWrite <$> omap (sink_write arg) l ∧ same_conn l' l ∧ Forall is_sink l'.
Proof.
  intros Hl. revert i. induction Hl as [|s l Hs Hl IH]; intros i; [by exists [], []|].
  rewrite event_send_all_cons. destruct (sink_send arg s Hs) as (s' & -> & Hc).
  destruct (IH (S i)) as (futs & l' & -> & Hf & Hc' & Hk). cbn [obind].
  do 2 eexists. split; [done|]. split_and!.
  - rewrite fmap_app, Hf. csimpl. by destruct (sink_write arg s).
  - unfold same_conn in *. csimpl. by rewrite Hc, Hc'.
  - constructor; [|done]. by destruct s, s'; inversion Hc.
Qed.

(** ** One poll completes the futures *)

Abbreviation epoll := (rf_poll (F := EFut) event_poll).

Lemma poll_tasks_ready (ws : list (W → W)) (this : OutFuture (RecycledFuture EFut) unit) w k m :
  fut <$> of_futures this = EWrite <$> ws → k + m ≤ length ws →
  length ws ≤ length (of_outputs this) → m ≤ of_count this →
  ∃ this', of_poll_tasks (of_poll_one epoll) (seq k m) this w =
      Done (this', apply_all (take m (drop k ws)) w, false) ∧
    of_count this' = of_count this - m ∧ fut <$> of_futures this' = EWrite <$> ws ∧
    lender_box <$> of_futures this' = lender_box <$> of_futures this ∧
    length (of_outputs this') = length (of_outputs this).
Proof.
  revert this w k. induction m as [|m IH]; intros this w k Hf Hk Ho Hc.
  { exists this. split_and!; [done|lia|done..]. }
  destruct (lookup_lt_is_Some_2 ws k ltac:(lia)) as [write Hw].
  destruct (lookup_lt_is_Some_2 (of_outputs this) k ltac:(lia)) as [o1 Ho1].
  assert (fut <$> of_futures this !! k = Some (EWrite write)) as Hfk
    by by rewrite <-list_lookup_fmap, Hf, list_lookup_fmap, Hw.
  destruct (of_futures this !! k) as [[f b]|] eqn:Ek; [|done]. injection Hfk as ->.
  cbn [seq of_poll_tasks]. unfold of_poll_one at 1. rewrite Ho1, Ek.
  cbn [unwrap obind rf_poll event_poll fut lender_box].
  replace (of_count this =? 0)%nat with false by (symmetry; apply Nat.eqb_neq; lia).
  cbn [negb rust_assert obind].
  destruct (IH (mkOF (<[k := Some tt]> (of_outputs this))
    (<[k := mkRecycled (EWrite write) b]> (of_futures this)) (of_count this - 1) (of_state this))
    (write w) (S k)) as (this' & -> & Hc' & Hf' & Hb' & Ho'); cbn [of_futures of_outputs of_count] in *.
  - by rewrite list_insert_id.
  - lia.
  - by rewrite length_insert.
  - lia.
  - exists this'. split_and!; [|lia|done| |].
    + by rewrite (drop_S ws write k Hw).
    + rewrite Hb'. by rewrite list_insert_id.
    + by rewrite Ho', length_insert.
Qed.

(** ** The whole broadcast *)

Lemma lend_same_conn i l : same_conn (alter EventSender_lend i l) l.
Proof.
  unfold same_conn. revert i. induction l as [|s l IH]; intros [|i]; csimpl; [done..| |].
  - f_equal. by destruct s as [[]|U []|U []|[]|U []|U []].
  - by rewrite IH.
Qed.

Lemma same_conn_sinks l l' : same_conn l l' → Forall is_sink l' → Forall is_sink l.
Proof.
  unfold same_conn. revert l. induction l' as [|s' l' IH]; intros [|s l]; csimpl; try done.
  intros [= Hs Hl] [Hk Hk']%Forall_cons_1. constructor; [|by apply IH].
  by destruct s, s'; inversion Hs.
Qed.

Lemma same_conn_length l l' : same_conn l l' → length l = length l'.
Proof. intros Hl%(f_equal length). by rewrite !length_fmap in Hl. Qed.

Lemma sink_write_clone arg l : omap (sink_write arg) (EventSender_clone <$> l) = omap (sink_write arg) l.
Proof.
  induction l as [|s l IH]; csimpl; [done|]. rewrite IH. by destruct s.
Qed.

Lemma write_all_conn arg l l' w : same_conn l l' → write_all arg l w = write_all arg l' w.
Proof. unfold write_all. intros Hc. by rewrite <-sink_write_clone, Hc, sink_write_clone. Qed.

(** Dropping futures that write leaves the world as it is. *)
Lemma drop_all_writes (ws : list (W → W)) (futs : list (RecycledFuture EFut)) self w :
  fut <$> futs = EWrite <$> ws →
  ∃ self', drop_all futs self w = (self', w) ∧ same_conn (senders self') (senders self) ∧
    length (outputs self') = length (outputs self).
Proof.
  revert ws self. induction futs as [|f futs IH]; intros [|wr ws] self; csimpl; try done.
  { intros _. by exists self. }
  intros [= Hf Hfs]. rewrite Hf. simpl.
  destruct (IH ws (mkInner (alter EventSender_lend (lender_box f) (senders self)) (outputs self)
    (storage self)) Hfs) as (self' & -> & Hc & Ho).
  exists self'. split_and!; [done| |done]. unfold same_conn in *. rewrite Hc. apply lend_same_conn.
Qed.

Lemma await_many_writes (ws : list (W → W)) batches polls (futs : list (RecycledFuture EFut)) self w :
  fut <$> futs = EWrite <$> ws → ws ≠ [] → length ws ≤ length (outputs self) →
  ∃ self', await_many ((batches, id) :: polls) futs self w =
      Done (Some (Ok tt), self', apply_all ws w) ∧
    same_conn (senders self') (senders self) ∧ length (outputs self') = length (outputs self).
Proof.
  intros Hf Hne Ho. pose proof (f_equal length Hf) as Hlen. rewrite !length_fmap in Hlen.
  unfold await_many. cbn [await_all]. unfold of_poll. cbn [of_state of_new bool_decide].
  destruct (poll_tasks_ready ws (of_new (outputs self) futs) (id w) 0 (length futs))
    as (this & Hp & Hc & Hf' & _ & Ho'); [done|lia| |simpl; lia|].
  { simpl. rewrite length_app, length_fmap, length_take, length_drop. lia. }
  rewrite bool_decide_false by done. cbn [negb rust_assert obind].
  rewrite bool_decide_true by done. cbn [of_futures of_new] in *. 
  change (poll_fut (F := EFut)) with (event_poll (W := W) (SendFut := SendFut)). rewrite Hp. cbn [obind].
  replace (of_count this =? 0)%nat with true by (symmetry; apply Nat.eqb_eq; simpl in Hc; lia).
  cbn [obind]. change (of_futures (of_set_state FCompleted this)) with (of_futures this).
  destruct (drop_all_writes ws (of_futures this)
    (mkInner (senders self) (of_outputs (of_set_state FCompleted this)) true)
    (apply_all (take (length futs) (drop 0 ws)) (id w)) Hf') as (self' & -> & Hc2 & Ho2).
  exists self'. split_and!; [|done|].
  - by rewrite Hlen, drop_0, firstn_all.
  - rewrite Ho2. simpl. rewrite Ho'. simpl.
    rewrite length_app, length_fmap, length_take, length_drop. lia.
Qed.

Lemma await_single_writes write b batches polls self w :
  ∃ self', await_single (F := EFut) ((batches, id) :: polls) (mkRecycled (EWrite write) b) self w =
      (Some (Ok tt), self', write w) ∧
    same_conn (senders self') (senders self) ∧ length (outputs self') = length (outputs self).
Proof.
  eexists. split; [reflexivity|]. simpl. split; [apply lend_same_conn|done].
Qed.

(** A broadcast to sinks that is polled at all writes the event to each sink
    that accepts it, once and in order, and returns. *)
Lemma sinks_broadcast batches env polls arg self w :
  Forall is_sink (senders self) → length (outputs self) = length (senders self) →
  ∃ self', event_broadcast ((batches, env) :: polls) arg self w =
      Done (Some (Ok tt), self', write_all arg (senders self) (env w)) ∧
    same_conn (senders self') (senders self) ∧ length (outputs self') = length (senders self').
Proof.
  intros Hk Ho. unfold event_broadcast, write_all.
  destruct (sink_send_all 0 arg (senders self) (env w) Hk) as (futs & l' & Hs & Hf & Hc & Hk').
  pose proof (same_conn_length _ _ Hc) as Hl'.
  assert (length (omap (sink_write arg) (senders self)) ≤ length (senders self)) as Hle.
  { clear. induction (senders self) as [|s l IH]; csimpl; [done|]. destruct (sink_write arg s); simpl; lia. }
  assert (∀ st polls', ∃ self',
    match futs with
    | [] => Done (Some (Ok tt), mkInner l' (outputs self) st, env w)
    | [f] => Done (await_single ((batches, id) :: polls') f (mkInner l' (outputs self) st) (env w))
    | _ => await_many ((batches, id) :: polls') futs (mkInner l' (outputs self) st) (env w)
    end = Done (Some (Ok tt), self', apply_all (omap (sink_write arg) (senders self)) (env w)) ∧
    same_conn (senders self') (senders self) ∧ length (outputs self') = length (senders self'))
    as Hall.
  { intros st polls'. set (ws := omap (sink_write arg) (senders self)) in *.
    destruct futs as [|[f b] [|f2 futs]], ws as [|wr [|wr2 ws]]; try done.
    - eexists. split; [done|]. simpl. by rewrite Hl'.
    - injection Hf as ->. destruct (await_single_writes wr b batches polls'
        (mkInner l' (outputs self) st) (env w)) as (self' & -> & Hc' & Ho').
      exists self'. split; [done|]. unfold same_conn in *. simpl in *.
      rewrite Ho', (same_conn_length _ _ Hc'). split; [by rewrite Hc'|]. by rewrite Ho, Hl'.
    - destruct (await_many_writes (wr :: wr2 :: ws) batches polls' (mkRecycled f b :: f2 :: futs)
        (mkInner l' (outputs self) st) (env w)) as (self' & -> & Hc' & Ho'); [done|done|simpl in *; lia|].
      exists self'. split; [done|]. unfold same_conn in *. simpl in *.
      rewrite Ho', (same_conn_length _ _ Hc'). split; [by rewrite Hc'|]. by rewrite Ho, Hl'. }
  destruct (senders self) as [|s [|s2 l]] eqn:El.
  - exists self. rewrite El. split_and!; [done|by rewrite ?El|by rewrite ?El].
  - simpl in Hs. cbn [send_owned EventSender_ops]. rewrite event_send_owned_eq in *.
    destruct (EventSender_send arg s) as [o s']. simpl in Hs. injection Hs as <- <-.
    cbn [obind]. specialize (Hall (storage self) polls). by destruct o.
  - unfold futures. rewrite El, Hs. cbn [obind]. apply Hall.
Qed.
End Sinks.
