(* ===== verification/Observables.v ===== *)
(** * Observable states and connectors (nexosim-util: observables.rs,
    combinators.rs)

    States whose changes are sent to an output, and the model that turns the
    replies to queries into events.  The ports are the synchronized caches of
    their cached locks (see OutputClones). *)

From stdpp Require Import base option list numbers.
From Stdlib Require Import ZArith Lia.
From S2P Require Import Prelude Broadcast CachedLock OutputSenders OutputPorts OutputFacts SinkOutputs.

(** [Observable]; every [Clone] type observes itself. *)
Class Observable (S T : Type) := observe : S → T.
Definition Observable_clone {T : Type} : Observable T T := λ x, x.

Section Observables.
Context {Addr Call QCall Reply SendFut Rx W : Type}.
Context `{PW : PortWorld Addr Call QCall Reply SendFut Rx W}.
Context {S T : Type} `{OS : Observable S T}.
Abbreviation Out := (BroadcasterInner (EventSender Addr Call W T) unit).
Abbreviation polls := (list (list (list nat) * (W → W))).

Record ObservableState := mkObs { state : S; out : Out }.

(** [S::default()] is [default]. *)
Definition obs_new (default : S) (out : Out) : ObservableState := mkObs default out.

Definition obs_get (self : ObservableState) : S := state self.
Definition obs_deref (self : ObservableState) : S := state self.

(** [self.out.send(self.state.observe()).await]. *)
Definition obs_send (polls : polls) (self : ObservableState) (w : W) :
    outcome (option (unwound unit unit) * ObservableState * W) :=
  let! (r, out, w) := event_broadcast polls (observe (state self)) (out self) w in
  Done (unwrap_or_throw <$> r, mkObs (state self) out, w).

(** The methods are asynchronous: nothing happens before the first poll. *)
Definition obs_set (polls : polls) (value : S) (self : ObservableState) (w : W) :
    outcome (option (unwound unit unit) * ObservableState * W) :=
  match polls with
  | [] => Done (None, self, w)
  | _ => obs_send polls (mkObs value (out self)) w
  end.

Definition obs_modify {A : Type} (polls : polls) (f : S → A * S) (self : ObservableState) (w : W) :
    outcome (option (unwound A unit) * ObservableState * W) :=
  match polls with
  | [] => Done (None, self, w)
  | _ =>
      let (r, state) := f (state self) in
      let! (o, self, w) := obs_send polls (mkObs state (out self)) w in
      Done ((λ u, match u with Returned _ => Returned r | Thrown e => Thrown e end) <$> o, self, w)
  end.

Definition obs_propagate (polls : polls) (self : ObservableState) (w : W) :
    outcome (option (unwound unit unit) * ObservableState * W) :=
  match polls with
  | [] => Done (None, self, w)
  | _ => obs_send polls self w
  end.

(** ** Every change is observed *)

(** A use of an observable state, with the polls of its future. *)
Inductive ObsOp :=
| OSet (value : S)
| OModify (f : S → unit * S)
| OPropagate.

Definition obs_op (op : ObsOp) (polls : polls) (self : ObservableState) (w : W) :
    outcome (option (unwound unit unit) * ObservableState * W) :=
  match op with
  | OSet value => obs_set polls value self w
  | OModify f => obs_modify polls f self w
  | OPropagate => obs_propagate polls self w
  end.

Fixpoint obs_ops (ops : list (ObsOp * polls)) (self : ObservableState) (w : W) :
    outcome (list (option (unwound unit unit)) * ObservableState * W) :=
  match ops with
  | [] => Done ([], self, w)
  | (op, polls) :: ops =>
      let! (r, self, w) := obs_op op polls self w in
      let! (rs, self, w) := obs_ops ops self w in
      Done (r :: rs, self, w)
  end.

(** The specification: the state after each use, and the world when each of
    these states has been written to the sinks. *)
Definition next_state (op : ObsOp) (s : S) : S :=
  match op with OSet value => value | OModify f => (f s).2 | OPropagate => s end.

Definition first_env (polls : polls) : W → W :=
  match polls with [] => id | (_, env) :: _ => env end.

Fixpoint observed (ops : list (ObsOp * polls)) (l : list (EventSender Addr Call W T)) (s : S) (w : W) :
    S * W :=
  match ops with
  | [] => (s, w)
  | (op, polls) :: ops =>
      let s := next_state op s in
      observed ops l s (write_all (observe s) l (first_env polls w))
  end.

(** An observable whose output is connected to sinks. *)
Definition obs_ok (self : ObservableState) : Prop :=
  Forall is_sink (senders (out self)) ∧ length (outputs (out self)) = length (senders (out self)).

Lemma obs_send_sinks batches env polls self w : obs_ok self →
  ∃ self', obs_send ((batches, env) :: polls) self w =
      Done (Some (Returned tt), self',
            write_all (observe (state self)) (senders (out self)) (env w)) ∧
    state self' = state self ∧ same_conn (senders (out self')) (senders (out self)) ∧ obs_ok self'.
Proof.
  intros [Hk Ho]. unfold obs_send.
  destruct (sinks_broadcast batches env polls (observe (state self)) (out self) w Hk Ho)
    as (out' & -> & Hc & Ho'). cbn [obind].
  eexists. split; [done|]. split_and!; [done|done|]. split; [|done].
  by eapply same_conn_sinks.
Qed.

Lemma obs_op_sinks op polls self w : obs_ok self → polls ≠ [] →
  ∃ self', obs_op op polls self w =
      Done (Some (Returned tt), self',
            write_all (observe (next_state op (state self))) (senders (out self)) (first_env polls w)) ∧
    state self' = next_state op (state self) ∧
    same_conn (senders (out self')) (senders (out self)) ∧ obs_ok self'.
Proof.
  intros Hok Hp. destruct polls as [|[batches env] polls]; [done|]. destruct op as [v|f|]; simpl.
  - apply (obs_send_sinks batches env polls (mkObs v (out self)) w Hok).
  - destruct (f (state self)) as [[] s'] eqn:Ef. simpl.
    destruct (obs_send_sinks batches env polls (mkObs s' (out self)) w Hok) as (self' & -> & Hs).
    by exists self'.
  - by apply obs_send_sinks.
Qed.

Lemma observed_conn ops l l' s w : same_conn l l' → observed ops l s w = observed ops l' s w.
Proof.
  intros Hc. revert s w. induction ops as [|[op polls] ops IH]; intros s w; simpl; [done|].
  by rewrite (write_all_conn _ _ _ _ Hc).
Qed.

(** An observable state shows every change.  Whatever is done to it, each
    use of the state gives every connected sink that accepts it what is observed
    of the new state, once, before the use returns; so that the sinks see the
    states in the order in which the state went through them, and what was
    written last is the current state. *)
Lemma observable_shows_states ops self w :
  obs_ok self → Forall (λ op, op.2 ≠ []) ops →
  ∃ self', obs_ops ops self w =
      Done (replicate (length ops) (Some (Returned tt)), self',
            (observed ops (senders (out self)) (state self) w).2) ∧
    obs_get self' = (observed ops (senders (out self)) (state self) w).1 ∧
    same_conn (senders (out self')) (senders (out self)) ∧ obs_ok self'.
Proof.
  intros Hok Hops. revert self w Hok. induction Hops as [|[op polls] ops Hp _ IH]; intros self w Hok.
  { exists self. by split_and!. }
  cbn [obs_ops observed length replicate]. simpl in Hp.
  destruct (obs_op_sinks op polls self w Hok Hp) as (self1 & -> & Hs & Hc & Hok1). cbn [obind].
  destruct (IH self1 (write_all (observe (next_state op (state self))) (senders (out self))
    (first_env polls w)) Hok1) as (self2 & -> & Hg & Hc2 & Hok2). cbn [obind].
  exists self2. rewrite <-Hs in *. rewrite <-(observed_conn ops _ _ _ _ Hc).
  split_and!; [done|done| |done].
  unfold same_conn in *. by rewrite Hc2.
Qed.
End Observables.
Arguments ObservableState : clear implicits.

(** ** From replies to events *)

Section Adaptor.
Context {Addr Call QCall Reply SendFut Rx W : Type}.
Context `{PW : PortWorld Addr Call QCall Reply SendFut Rx W}.
Context {T R : Type}.
Abbreviation QSender := (QuerySender Addr QCall Reply Rx T R).
Abbreviation ESender := (EventSender Addr Call W R).
Abbreviation polls := (list (list (list nat) * (W → W))).

Record ReplierAdaptor := mkAdaptor {
  requestor : BroadcasterInner QSender R;
  output : BroadcasterInner ESender unit;
}.

Definition adaptor_default : ReplierAdaptor := mkAdaptor inner_default inner_default.
Definition adaptor_new : ReplierAdaptor := adaptor_default.

(** The loop over the replies; [epolls] has the polls of each iteration. *)
Fixpoint forward (epolls : list polls) (rs : list R) (out : BroadcasterInner ESender unit) (w : W) :
    outcome (option (unwound unit unit) * BroadcasterInner ESender unit * W) :=
  match rs, epolls with
  | [], _ => Done (Some (Returned tt), out, w)
  | _ :: _, [] => Done (None, out, w)
  | res :: rs, polls :: epolls =>
      let! (o, out, w) := event_broadcast polls res out w in
      match unwrap_or_throw <$> o with
      | Some (Returned _) => forward epolls rs out w
      | o => Done (o, out, w)
      end
  end.

(** [ReplierAdaptor::input]: [qpolls] are the polls during which the replies
    are awaited.  The iterator over the replies is advanced as the loop goes
    on, so that no more replies are taken than there are iterations. *)
Definition adaptor_input (qpolls : polls) (epolls : list polls) (data : T) (self : ReplierAdaptor)
    (w : W) : outcome (option (unwound unit unit) * ReplierAdaptor * W) :=
  let! (r, req, w) := query_broadcast (S (length epolls)) qpolls data (requestor self) w in
  match unwrap_or_throw <$> r with
  | None => Done (None, mkAdaptor req (output self), w)
  | Some (Thrown e) => Done (Some (Thrown e), mkAdaptor req (output self), w)
  | Some (Returned rs) =>
      let! (o, out, w) := forward epolls rs (output self) w in
      Done (o, mkAdaptor req out, w)
  end.

(** Each of [rs] is written to all the sinks before the next one. *)
Fixpoint forwarded (epolls : list polls) (rs : list R) (l : list ESender) (w : W) : W :=
  match rs, epolls with
  | res :: rs, polls :: epolls => forwarded epolls rs l (write_all res l (first_env polls w))
  | _, _ => w
  end.

Lemma forwarded_conn epolls rs l l' w :
  same_conn l l' → forwarded epolls rs l w = forwarded epolls rs l' w.
Proof.
  intros Hc. revert epolls w. induction rs as [|res rs IH]; intros [|polls epolls] w; simpl; [done..|].
  by rewrite (write_all_conn _ _ _ _ Hc).
Qed.

Lemma forward_sinks epolls rs out w :
  Forall is_sink (senders out) → length (outputs out) = length (senders out) →
  Forall (λ p, p ≠ []) epolls → length rs ≤ length epolls →
  ∃ out', forward epolls rs out w =
      Done (Some (Returned tt), out', forwarded epolls rs (senders out) w) ∧
    same_conn (senders out') (senders out) ∧ length (outputs out') = length (senders out').
Proof.
  intros Hk Ho Hp. revert out w Hk Ho rs. induction Hp as [|polls epolls Hp _ IH];
    intros out w Hk Ho [|res rs] Hl; simpl in *; [by exists out|lia|by exists out|].
  destruct polls as [|[batches env] polls]; [done|].
  destruct (sinks_broadcast batches env polls res out w Hk Ho) as (out1 & -> & Hc & Ho1). simpl.
  destruct (IH out1 (write_all res (senders out) (env w)) (same_conn_sinks _ _ Hc Hk) Ho1 rs ltac:(lia))
    as (out2 & -> & Hc2 & Ho2).
  exists out2. rewrite (forwarded_conn _ _ _ _ _ Hc). split_and!; [done| |done].
  unfold same_conn in *. by rewrite Hc2.
Qed.

Abbreviation accepting arg l := (filter (λ s : QSender, is_Some (asks arg s)) l).
Context `{!EqDecision Rx} (rx_live : Rx → W → Prop) `{PL : !PortLaws rx_live}.

(** Writing to a sink does not touch the reply channels. *)
Definition sink_keeps (s : ESender) : Prop :=
  ∀ arg f, sink_write arg s = Some f → ∀ w, kept rx_live w (f w).

Lemma kept_refl w : kept rx_live w w.
Proof. by intros rx. Qed.

Lemma write_all_kept arg l w : Forall sink_keeps l → kept rx_live w (write_all arg l w).
Proof.
  unfold write_all. intros Hl. revert w. induction Hl as [|s l Hs _ IH]; intros w; csimpl; [apply kept_refl|].
  destruct (sink_write arg s) as [f|] eqn:Ef; simpl; [|apply IH].
  eapply kept_trans; [by eapply Hs|apply IH].
Qed.

Lemma forwarded_kept epolls rs l w :
  Forall sink_keeps l → Forall (Forall (λ p, ∀ w, kept rx_live w (p.2 w))) epolls →
  kept rx_live w (forwarded epolls rs l w).
Proof.
  intros Hl He. revert rs w. induction He as [|polls epolls Hp _ IH]; intros [|res rs] w; simpl;
    [apply kept_refl..|].
  eapply kept_trans; [|apply IH]. eapply kept_trans; [|by apply write_all_kept].
  destruct Hp as [|[b env] polls Henv _]; simpl; [apply kept_refl|apply Henv].
Qed.

Lemma inner_ready_kept (req : BroadcasterInner QSender R) w w' :
  kept rx_live w w' → inner_ready rx_live req w → inner_ready rx_live req w'.
Proof.
  intros Hk [[Hd Hr] Hlen]. split; [|done]. split; [done|].
  rewrite Forall_forall in Hr. apply Forall_forall. intros rx Hx.
  exact (kept_ready rx_live w w' rx Hk (Hr rx Hx)).
Qed.

(** C12: the replier adaptor forwards replies.  When its query succeeds and its
    outputs are connected to sinks, every reply to the query, one for each
    connected replier that accepts it and in the order of the connections, is
    written to every sink before the next reply is, and the adaptor is then
    ready for the next query in the world that is left, if neither the sinks
    nor the rest of the program takes the reply channels away meanwhile.  An
    error of the query, or a query that does not complete, is passed on without
    any event. *)
Theorem adaptor_forwards qpolls epolls data self w :
  inner_ready rx_live (requestor self) w → Forall (λ p, ∀ w, kept rx_live w (p.2 w)) qpolls →
  batches_ok (length (accepting data (senders (requestor self)))) qpolls →
  Forall is_sink (senders (output self)) → Forall sink_keeps (senders (output self)) →
  length (outputs (output self)) = length (senders (output self)) →
  Forall (λ p, p ≠ []) epolls →
  Forall (Forall (λ p, ∀ w, kept rx_live w (p.2 w))) epolls →
  ∃ r req w1,
    query_broadcast (S (length epolls)) qpolls data (requestor self) w = Done (r, req, w1) ∧
    connection <$> senders req = connection <$> senders (requestor self) ∧
    match r with
    | Some (Ok _) => ∃ rs,
        Forall2 (answered data) (accepting data (senders req)) rs ∧
        (length rs ≤ length epolls → ∃ out w',
           adaptor_input qpolls epolls data self w =
             Done (Some (Returned tt), mkAdaptor req out, w') ∧
           w' = forwarded epolls rs (senders (output self)) w1 ∧
           same_conn (senders out) (senders (output self)) ∧
           inner_ready rx_live req w' ∧ length (outputs out) = length (senders out))
    | Some (Err e) =>
        adaptor_input qpolls epolls data self w =
          Done (Some (Thrown e), mkAdaptor req (output self), w1)
    | None => adaptor_input qpolls epolls data self w = Done (None, mkAdaptor req (output self), w1)
    end.
Proof.
  intros Hr Henv Hb Hk Hkeep Ho Hp He. unfold adaptor_input.
  destruct (query_broadcast_replies rx_live (S (length epolls)) qpolls data (requestor self) w Hr Henv Hb)
    as (o & req & w1 & Hq & Hc & _ & Hrs).
  exists o, req, w1. rewrite Hq. split; [done|]. split; [done|]. cbn [obind].
  destruct o as [[rs|e]|]; [|done..]. destruct (Hrs rs eq_refl) as (Hready & all & -> & Hall).
  exists all. split; [done|]. intros Hl. simpl.
  destruct (forward_sinks epolls (take (S (length epolls)) all) (output self) w1 Hk Ho Hp)
    as (out' & -> & Hc' & Ho'); [rewrite length_take; lia|].
  rewrite firstn_all2 by lia. eexists out', _. cbn [obind]. split_and!; [done..| |done].
  eapply inner_ready_kept; [|done]. by apply forwarded_kept.
Qed.
End Adaptor.
Arguments ReplierAdaptor : clear implicits.

(** ** Evaluations

    Two sinks, one of which takes even numbers only, write to the mail of the
    world. *)

Definition sink_to (a x : nat) (w : DemoWorld) : DemoWorld :=
  mkDemo (mail w ++ [(a, EventCall x)]) (rxs w).

Definition demo_sinks : BroadcasterInner (EventSender nat nat DemoWorld nat) unit :=
  mkInner
    [DEventSink (EventSinkSender_new (sink_to 100));
     DFilterMapEventSink
       (FilterMapEventSinkSender_new (λ x, if Nat.even x then Some x else None) (sink_to 200))]
    [None; None] false.

Lemma demo_sinks_ok : Forall is_sink (senders demo_sinks).
Proof. by repeat constructor. Qed.

#[local] Instance observe_nat : Observable nat nat := Observable_clone.

Definition demo_obs : ObservableState nat nat DemoWorld nat nat := obs_new 0 demo_sinks.
Definition demo_uses : list (ObsOp (S := nat) * list (list (list nat) * (DemoWorld → DemoWorld))) :=
  [(OSet 5, [([], id)]); (OModify (λ x, (tt, x + 3)), [([], id)]); (OPropagate, [([], id)])].

Lemma observable_shows_states_witness : ∃ self',
  obs_ops demo_uses demo_obs (mkDemo [] []) =
    Done (replicate 3 (Some (Returned tt)), self',
          mkDemo [(100, EventCall 5); (100, EventCall 8); (200, EventCall 8); (100, EventCall 8);
                  (200, EventCall 8)] []) ∧
  obs_get self' = 8.
Proof.
  destruct (observable_shows_states demo_uses demo_obs (mkDemo [] [])) as (self' & Hs & Hg & _).
  - split; [exact demo_sinks_ok|reflexivity].
  - by repeat constructor.
  - exists self'. split; [exact Hs|exact Hg].
Defined.

Definition demo_adaptor : ReplierAdaptor nat nat nat nat nat DemoWorld nat nat :=
  mkAdaptor demo_requestor demo_sinks.

Lemma demo_sinks_keep : Forall (sink_keeps demo_live) (senders demo_sinks).
Proof.
  constructor; [|constructor; [|constructor]]; intros arg f Hf w rx Hl.
  - injection Hf as <-. split; [done|]. by rewrite !demo_available.
  - simpl in Hf. destruct (Nat.even arg); [|done]. injection Hf as <-.
    split; [done|]. by rewrite !demo_available.
Qed.

Definition demo_epolls : list (list (list (list nat) * (DemoWorld → DemoWorld))) :=
  [[([], id)]; [([], id)]].

Lemma adaptor_forwards_witness : ∃ self' w',
  adaptor_input demo_requestor_polls demo_epolls 3 demo_adaptor (mkDemo [] []) =
    Done (Some (Returned tt), self', w') ∧
  mail w' = [(100, EventCall 42); (200, EventCall 42); (100, EventCall 33)] ∧
  inner_ready demo_live (requestor self') w'.
Proof.
  destruct (adaptor_forwards demo_live demo_requestor_polls demo_epolls 3 demo_adaptor
    (mkDemo [] [])) as (r & req & w1 & Hq & _ & Hr).
  - split; [|reflexivity]. split; [apply NoDup_nil_2|constructor].
  - constructor; [by intros w x|]. constructor; [|constructor]. apply answer_kept.
  - repeat constructor; vm_compute; lia.
  - exact demo_sinks_ok.
  - exact demo_sinks_keep.
  - reflexivity.
  - by repeat constructor.
  - do 2 (constructor; [constructor; [by intros w x|constructor]|]). constructor.
  - assert (∃ rs, r = Some (Ok rs)) as [rs0 ->]
      by (vm_compute in Hq; injection Hq as <- _ _; eauto).
    destruct Hr as (rs & Hall & Hr). destruct Hr as (out & w' & Ha & _ & _ & Hready & _).
    { apply Forall2_length in Hall. rewrite <-Hall. vm_compute in Hq. injection Hq as _ <- _.
      vm_compute. lia. }
    exists (mkAdaptor req out), w'. split; [exact Ha|]. split; [|exact Hready].
    vm_compute in Ha. injection Ha as _ _ <-. reflexivity.
Defined.
