(* ===== verification/F64.v ===== *)
(** * Double-precision numbers

    Rust's [f64] as the standard library specifies IEEE binary64 at the level
    of bits, and the conversions between [f64] and [Duration] of Rust's
    standard library; the example benches compute with them. *)

From stdpp Require Import base option list numbers.
From Stdlib Require Import ZArith Lia SpecFloat.
From S2P Require Import Prelude Time.

Local Open Scope Z_scope.

Definition f64 : Set := spec_float.
Definition f64_prec : Z := 53.
Definition f64_emax : Z := 1024.

Definition f64_zero : f64 := S754_zero false.
Definition f64_add : f64 → f64 → f64 := SFadd f64_prec f64_emax.
Definition f64_sub : f64 → f64 → f64 := SFsub f64_prec f64_emax.
Definition f64_mul : f64 → f64 → f64 := SFmul f64_prec f64_emax.
Definition f64_div : f64 → f64 → f64 := SFdiv f64_prec f64_emax.
Definition f64_neg : f64 → f64 := SFopp.
Definition f64_abs : f64 → f64 := SFabs.
Definition f64_eqb : f64 → f64 → bool := SFeqb.
Definition f64_ltb : f64 → f64 → bool := SFltb.
Definition f64_leb : f64 → f64 → bool := SFleb.

Definition is_nan (x : f64) : bool := match x with S754_nan => true | _ => false end.
Definition is_infinite (x : f64) : bool := match x with S754_infinity _ => true | _ => false end.

(** [f64::max]: a NaN is ignored. *)
Definition f64_max (x y : f64) : f64 :=
  if is_nan x then y else if is_nan y then x else if f64_ltb x y then y else x.

(** [f64::signum]: 1.0 for positive zero. *)
Definition f64_one : f64 := S754_finite false 4503599627370496 (-52).
Definition f64_signum (x : f64) : f64 :=
  match x with
  | S754_nan => S754_nan
  | S754_zero s | S754_infinity s | S754_finite s _ _ => if s then f64_neg f64_one else f64_one
  end.

(** [f64::clamp]. *)
Definition f64_clamp (x lo hi : f64) : f64 :=
  let x := if f64_ltb x lo then lo else x in
  if f64_ltb hi x then hi else x.

(** An integer, and a decimal literal [n / d] whose parts are exact. *)
Definition f64_of_Z (n : Z) : f64 := binary_normalize f64_prec f64_emax n 0 false.
Definition f64_lit (n d : Z) : f64 := f64_div (f64_of_Z n) (f64_of_Z d).

(** Rounding of [n / d] to an integer, to nearest with ties to even. *)
Definition round_div (n d : Z) : Z :=
  let q := n / d in
  let r := n mod d in
  match 2 * r ?= d with
  | Lt => q
  | Gt => q + 1
  | Eq => if Z.even q then q else q + 1
  end.

(** [Duration::from_secs_f64], to the nearest nanosecond; it panics on
    negative, overflowing and non-finite numbers. *)
Definition from_secs_f64 (x : f64) : outcome Duration :=
  match x with
  | S754_zero _ => Done duration_zero
  | S754_finite false m e =>
      let total :=
        if 0 <=? e then Zpos m * 2 ^ e * NANOS_PER_SEC
        else round_div (Zpos m * NANOS_PER_SEC) (2 ^ (- e)) in
      let secs := total / NANOS_PER_SEC in
      if secs <=? u64_max then Done (mkDuration secs (total mod NANOS_PER_SEC)) else Panicked
  | _ => Panicked
  end.

(** [Duration::as_secs_f64]. *)
Definition as_secs_f64 (d : Duration) : f64 :=
  f64_add (f64_of_Z (dur_secs d)) (f64_div (f64_of_Z (dur_nanos d)) (f64_of_Z NANOS_PER_SEC)).

(** [x as u8] and [x as u64] truncate and saturate; NaN is 0. *)
Definition f64_to_uint (max : Z) (x : f64) : Z :=
  match x with
  | S754_finite false m e => Z.min max (Z.shiftl (Zpos m) e)
  | S754_infinity false => max
  | _ => 0
  end.

Example lit_examples :
  f64_lit 1 10 = S754_finite false 7205759403792794 (-56) ∧
  from_secs_f64 (f64_lit 1 10) = Done (mkDuration 0 100000000) ∧
  f64_to_uint 255 (f64_lit 133 10) = 13 ∧
  as_secs_f64 (mkDuration 25 0) = f64_of_Z 25 ∧ f64_one = f64_of_Z 1.
Proof. by vm_compute. Qed.

(** ** Sums of positive numbers are not zero *)

Lemma digits2_pos_log2 p : Zpos (digits2_pos p) = Z.log2 (Zpos p) + 1.
Proof.
  induction p as [p IH|p IH|]; cbn [digits2_pos]; [..|done].
  - rewrite Pos2Z.inj_succ, IH, Pos2Z.inj_xI, Z.log2_succ_double by lia. lia.
  - rewrite Pos2Z.inj_succ, IH, Pos2Z.inj_xO, Z.log2_double by lia. lia.
Qed.

Lemma shr_1_m mrs : 0 <= shr_m mrs → shr_m (shr_1 mrs) = shr_m mrs / 2.
Proof.
  destruct mrs as [[|[p|p|]|] r s]; simpl; intros Hm; try done; try lia.
  - rewrite Pos2Z.inj_xI. apply Z.div_unique with 1; lia.
  - rewrite Pos2Z.inj_xO. apply Z.div_unique with 0; lia.
Qed.

Lemma iter_shr_m p mrs : 0 <= shr_m mrs → shr_m (iter_pos shr_1 p mrs) = shr_m mrs / 2 ^ Zpos p.
Proof.
  assert (∀ p mrs, 0 <= shr_m mrs →
    0 <= shr_m (iter_pos shr_1 p mrs) ∧ shr_m (iter_pos shr_1 p mrs) = shr_m mrs / 2 ^ Zpos p) as Hi;
    [|by apply Hi].
  clear. induction p as [p IH|p IH|]; intros mrs Hm; cbn [iter_pos].
  - assert (0 <= shr_m (shr_1 mrs)) as H1 by (rewrite shr_1_m by done; apply Z.div_pos; lia).
    destruct (IH _ H1) as [H2 H3]. destruct (IH _ H2) as [H4 H5]. split; [done|].
    rewrite H5, H3, shr_1_m, !Z.div_div by (try done; try lia; apply Z.pow_pos_nonneg; lia).
    f_equal. replace (Zpos p~1) with (1 + (Zpos p + Zpos p)) by lia.
    rewrite !Z.pow_add_r by lia. lia.
  - destruct (IH _ Hm) as [H2 H3]. destruct (IH _ H2) as [H4 H5]. split; [done|].
    rewrite H5, H3, Z.div_div by (try lia; apply Z.pow_pos_nonneg; lia).
    f_equal. replace (Zpos p~0) with (Zpos p + Zpos p) by lia. by rewrite Z.pow_add_r by lia.
  - rewrite shr_1_m by done. split; [apply Z.div_pos; lia|]. done.
Qed.

(** Shifting to the precision of the format keeps a positive mantissa. *)
Lemma shr_fexp_pos m e l mrs e' : 0 < m → emin f64_prec f64_emax <= e →
  shr_fexp f64_prec f64_emax m e l = (mrs, e') → 0 < shr_m mrs ∧ emin f64_prec f64_emax <= e'.
Proof.
  intros Hm He. unfold shr_fexp. set (n := fexp _ _ _ - e).
  assert (n <= Z.log2 m) as Hn.
  { unfold n, fexp. destruct m as [|p|p]; [lia| |lia]. cbn [Zdigits2].
    rewrite digits2_pos_log2. pose proof (Z.log2_nonneg (Zpos p)). unfold f64_prec in *. lia. }
  assert (shr_m (shr_record_of_loc m l) = m) as Hl by (by destruct l as [|[]]).
  unfold shr. destruct n as [|p|p] eqn:En; intros [= <- <-]; [by rewrite Hl|..]; [|by rewrite Hl].
  rewrite iter_shr_m, Hl by lia. split; [|lia].
  apply Z.div_str_pos. split; [apply Z.pow_pos_nonneg; lia|].
  transitivity (2 ^ Z.log2 m); [apply Z.pow_le_mono_r; lia|]. by apply Z.log2_spec.
Qed.

Definition pos_f64 (x : f64) : Prop :=
  match x with S754_finite s _ _ | S754_infinity s => s = false | _ => False end.

Lemma round_aux_pos m e l : 0 < m → emin f64_prec f64_emax <= e →
  pos_f64 (binary_round_aux f64_prec f64_emax false m e l).
Proof.
  intros Hm He. unfold binary_round_aux.
  destruct (shr_fexp _ _ m e l) as [mrs e1] eqn:E1.
  destruct (shr_fexp_pos _ _ _ _ _ Hm He E1) as [Hm1 He1].
  set (m2 := round_nearest_even _ _).
  assert (0 < m2) as Hm2.
  { unfold m2, round_nearest_even. destruct (loc_of_shr_record mrs) as [|[]]; try lia.
    destruct (Z.even _); lia. }
  destruct (shr_fexp _ _ m2 e1 loc_Exact) as [mrs2 e2] eqn:E2.
  destruct (shr_fexp_pos _ _ _ _ _ Hm2 He1 E2) as [Hm3 He2].
  destruct (shr_m mrs2) as [|p|p]; [lia| |lia]. by destruct (e2 <=? _).
Qed.

Lemma round_pos m e : emin f64_prec f64_emax <= e →
  pos_f64 (binary_round f64_prec f64_emax false m e).
Proof.
  intros He. unfold binary_round. set (e' := fexp _ _ _).
  assert (emin f64_prec f64_emax <= e') as He' by (unfold e', fexp; lia).
  unfold shl_align. destruct (e' - e) as [|d|d]; by apply round_aux_pos.
Qed.

(** The sum of a positive finite number of the format and another positive
    number is positive. *)
Definition f64_wf (x : f64) : Prop :=
  match x with S754_finite _ _ e => emin f64_prec f64_emax <= e | _ => True end.

Lemma f64_add_pos x y : f64_wf x → f64_wf y → pos_f64 x → pos_f64 y → pos_f64 (f64_add x y).
Proof.
  unfold f64_add, SFadd. destruct x as [|[]| |sx mx ex], y as [|[]| |sy my ey]; simpl; try done.
  intros Hx Hy -> ->. simpl. apply round_pos. lia.
Qed.

(** ** Results are in the format *)

Lemma shr_fexp_e m e l mrs e' :
  shr_fexp f64_prec f64_emax m e l = (mrs, e') → emin f64_prec f64_emax <= e'.
Proof.
  unfold shr_fexp, shr. set (x := fexp _ _ _).
  assert (emin f64_prec f64_emax <= x) as Hx by (unfold x, fexp; lia).
  destruct (x - e) as [|p|p] eqn:En; intros [= _ <-]; lia.
Qed.

Lemma round_aux_wf s m e l : f64_wf (binary_round_aux f64_prec f64_emax s m e l).
Proof.
  unfold binary_round_aux. destruct (shr_fexp _ _ m e l) as [mrs e1].
  destruct (shr_fexp _ _ _ e1 loc_Exact) as [mrs2 e2] eqn:E2. apply shr_fexp_e in E2.
  destruct (shr_m mrs2); [done| |done]. by destruct (e2 <=? _).
Qed.

Lemma normalize_wf m e s : f64_wf (binary_normalize f64_prec f64_emax m e s).
Proof.
  destruct m as [|m|m]; [done|..]; simpl; unfold binary_round;
    destruct (shl_align m e _); apply round_aux_wf.
Qed.

Lemma f64_add_wf x y : f64_wf x → f64_wf y → f64_wf (f64_add x y).
Proof.
  unfold f64_add, SFadd. destruct x as [[]|[]| |sx mx ex], y as [[]|[]| |sy my ey]; try done.
  intros _ _. apply normalize_wf.
Qed.

Lemma f64_sub_wf x y : f64_wf x → f64_wf y → f64_wf (f64_sub x y).
Proof.
  unfold f64_sub, SFsub. destruct x as [[]|[]| |sx mx ex], y as [[]|[]| |sy my ey]; try done.
  intros _ _. apply normalize_wf.
Qed.

Lemma f64_mul_wf x y : f64_wf (f64_mul x y).
Proof.
  unfold f64_mul, SFmul. destruct x, y; try done. apply round_aux_wf.
Qed.

Lemma f64_max_zero_wf x : f64_wf x → f64_wf (f64_max x f64_zero).
Proof. unfold f64_max. destruct (is_nan x); [done|]. simpl. by destruct (f64_ltb x f64_zero). Qed.

(** A number that is not negative: NaN, zero or positive. *)
Definition nonneg_f64 (x : f64) : Prop :=
  match x with S754_finite s _ _ | S754_infinity s => s = false | _ => True end.

Lemma f64_max_zero_nonneg x : nonneg_f64 (f64_max x f64_zero).
Proof. by destruct x as [[]|[]| |[]]. Qed.

Lemma nonneg_not_zero x : nonneg_f64 x → f64_eqb x f64_zero = false → is_nan x = false → pos_f64 x.
Proof. by destruct x as [[]|[]| |[]]. Qed.

Lemma pos_not_zero x : pos_f64 x → f64_eqb x f64_zero = false.
Proof. by destruct x as [[]|[]| |[]]. Qed.
