(* ===== verification/Bench.v ===== *)
(** * Benches of models

    A bench of models that exchange events, as an executor of the simulation:
    each model has a mailbox and executes its messages one after the other
    (see ModelTask and MailboxFacts for why this is what the tasks and channels
    of the library do); while a method runs, the events that it sends are
    delivered to the mailboxes of the receivers in order, each as soon as there
    is room.  The tasks that the simulation spawns deliver their events in the
    same way.  A method is a function on the state of the bench and on the
    scheduler; it returns the events that it sends.  In the code a method may
    be suspended in a [send] and go on afterwards; what comes after it only
    concerns the model itself, which takes no other message in the meantime,
    and the scheduler, where entries of different models do not interact while
    the simulation time stands still, so that the method can be taken as one
    step. *)

From stdpp Require Import base option list numbers strings relations.
From Stdlib Require Import ZArith Lia.
From S2P Require Import Prelude StableQueue Time SeqFuture Scheduler Simulation Stepping SimInit.

(** The context of the model at [a]: the channel identifiers of the mailboxes
    are distinct and not zero. *)
Definition model_cx (a : nat) : Context nat := Context_new (λ a, Z.of_nat (S a)) a.

Section Bench.
Context {T : Type} `{MonotonicTime T}.
Context {Call St : Type}.
Abbreviation Action := (Action Call nat Empty_set).
Abbreviation BTask := (Task Call nat Empty_set Empty_set).
Abbreviation Msg := (Msg Call).
Context {Q : Type} `{!StableQueue Q (T * Z) Action}.
Abbreviation Shared := (Shared Q T).

(** The methods of the models, by address; [init_call] is [Model::init].  A
    model whose method [awaits] replies takes no message; the replies go to an
    address of their own, where the handler is the rest of the method. *)
Class BenchOps := {
  handle : nat → Call → St → Shared → outcome (St * Shared * list (nat * Call));
  init_call : Call;
  awaits : nat → St → bool;
}.
Context `{BO : !BenchOps}.

(** [Mailbox::DEFAULT_CAPACITY]. *)
Definition MAILBOX_CAPACITY : nat := 16.

(** [outs] has the events that each model is sending, then those of the
    tasks that were spawned. *)
Record Net := mkNet {
  models : St;
  boxes : list (list Msg);
  outs : list (list (nat * Msg));
}.

Inductive Label := Deliver (k : nat) | Take (i : nat).

Definition sent_msgs (os : list (nat * Call)) : list (nat * Msg) := prod_map id EventMsg <$> os.

(** [None] when the step is not possible; a model whose method panics stops
    the bench. *)
Definition net_step (l : Label) (n : Net) (sh : Shared) : option (outcome (Net * Shared)) :=
  match l with
  | Deliver k =>
      match outs n !! k with
      | Some ((j, m) :: os) =>
          match boxes n !! j with
          | Some b =>
              if length b <? MAILBOX_CAPACITY
              then Some (Done (mkNet (models n) (<[j := b ++ [m]]> (boxes n)) (<[k := os]> (outs n)), sh))
              else None
          | None => None
          end
      | _ => None
      end
  | Take i =>
      match boxes n !! i, outs n !! i with
      | Some (m :: ms), Some [] =>
          if awaits i (models n) then None else
          Some match msg_call (key_flags sh) m with
               | None => Done (mkNet (models n) (<[i := ms]> (boxes n)) (outs n), sh)
               | Some c =>
                   let! (s, sh, os) := handle i c (models n) sh in
                   Done (mkNet s (<[i := ms]> (boxes n)) (<[i := sent_msgs os]> (outs n)), sh)
               end
      | _, _ => None
      end
  end.

Definition net_next (x y : Net * Shared) : Prop :=
  ∃ l, net_step l x.1 x.2 = Some (Done y).

Definition labels (n : Net) : list Label :=
  (Deliver <$> seq 0 (length (outs n))) ++ (Take <$> seq 0 (length (boxes n))).

Fixpoint first_step (ls : list Label) (n : Net) (sh : Shared) :
    option (Label * outcome (Net * Shared)) :=
  match ls with
  | [] => None
  | l :: ls =>
      match net_step l n sh with
      | Some r => Some (l, r)
      | None => first_step ls n sh
      end
  end.

(** The choices of the executor: before each step, the steps that it would
    rather take, in order of preference. *)
Definition Schedule : Type := nat → list Label.

(** Steps until nothing is possible; the address of the model that panicked,
    if any. *)
Fixpoint net_run (sched : Schedule) (fuel : nat) (n : Net) (sh : Shared) :
    outcome (Net * Shared * option nat) :=
  match fuel with
  | O => NoFuel
  | S fuel =>
      match first_step (sched fuel ++ labels n) n sh with
      | None => Done (n, sh, None)
      | Some (l, r) =>
          match r, l with
          | Done (n, sh), _ => net_run sched fuel n sh
          | Panicked, Take i => Done (n, sh, Some i)
          | _, _ => NoFuel
          end
      end
  end.

Definition in_transit (n : Net) : nat := sum_list (length <$> boxes n) + sum_list (length <$> outs n).

(** ** The executor *)

Record BenchExec := mkBench {
  net : Net;
  model_ids : list (nat * ModelId);
  schedule_of : Schedule;
  bench_fuel : nat;
}.

Definition set_net (n : Net) (e : BenchExec) : BenchExec :=
  mkBench n (model_ids e) (schedule_of e) (bench_fuel e).

Definition add_task (l : list (nat * Msg)) (n : Net) : Net :=
  mkNet (models n) (boxes n) (outs n ++ [l]).

Definition fut_msgs (f : Fut Call nat Empty_set) : list (nat * Msg) :=
  match f with SendFut a m => [(a, m)] | BroadcastFut b => match b with end end.

Definition start_model (a : nat) (n : Net) : Net :=
  mkNet (models n) (alter (cons (EventMsg init_call)) a (boxes n)) (outs n).

Definition bench_spawn (t : BTask) (e : BenchExec) : BenchExec :=
  match t with
  | SpawnFut f => set_net (add_task (fut_msgs f) (net e)) e
  | SpawnSeq s => set_net (add_task (mjoin (fut_msgs <$> inner s)) (net e)) e
  | SpawnQuery _ q _ => match q with end
  | SpawnModel a id =>
      mkBench (start_model a (net e)) (model_ids e ++ [(a, id)]) (schedule_of e) (bench_fuel e)
  end.

Definition model_id_of (i : nat) (e : BenchExec) : ModelId :=
  default ModelId_none (snd <$> head (filter (λ p, p.1 = i) (model_ids e))).

Definition bench_run (d : Duration) (e : BenchExec) (sh : Shared) :
    outcome (BenchExec * Shared * result unit (ExecutorError unit)) :=
  let! (n, sh, p) := net_run (schedule_of e) (bench_fuel e) (net e) sh in
  Done (set_net n e, sh,
        match p with
        | Some i => Err (ExecPanic (model_id_of i e) tt)
        | None =>
            if (in_transit n =? 0)%nat then Ok tt
            else Err (UnprocessedMessages (Z.of_nat (in_transit n)))
        end).

#[export] Instance bench_executor : Executor BenchExec Shared BTask nat Empty_set unit := {|
  accepts_tasks := λ _, true;
  spawn_and_forget := bench_spawn;
  executor_run := bench_run;
  observer_len := λ e a, Z.of_nat (length (default [] (boxes (net e) !! a)));
  slot_new := λ e, (0, e);
  slot_try_read := λ _ _, None;
|}.

#[export] Instance bench_accepts : ExecutorAccepts (E := BenchExec).
Proof. by split. Qed.

(** Whatever the schedule, a run is a sequence of steps. *)
Lemma first_step_step ls n sh l r :
  first_step ls n sh = Some (l, r) → net_step l n sh = Some r.
Proof.
  induction ls as [|l' ls IH]; simpl; [done|].
  destruct (net_step l' n sh) as [r'|] eqn:Es; [|done]. by intros [= <- <-].
Qed.

Lemma net_run_steps sched fuel n sh n' sh' p :
  net_run sched fuel n sh = Done (n', sh', p) → rtc net_next (n, sh) (n', sh').
Proof.
  revert n sh. induction fuel as [|fuel IH]; intros n sh; simpl; [done|].
  destruct (first_step (sched fuel ++ labels n) n sh) as [[l r]|] eqn:Es; [|by intros [= <- <- _]].
  apply first_step_step in Es. destruct r as [[n1 sh1]| |].
  - intros Hr. apply rtc_l with (n1, sh1); [exists l; exact Es|exact (IH _ _ Hr)].
  - destruct l as [k|i]; [done|]. by intros [= <- <- _].
  - by destruct l.
Qed.

(** ** Steps by their effect *)

Inductive net_effect (n : Net) (sh : Shared) : Net → Shared → Prop :=
| eff_deliver k j m os b :
    outs n !! k = Some ((j, m) :: os) → boxes n !! j = Some b →
    net_effect n sh (mkNet (models n) (<[j := b ++ [m]]> (boxes n)) (<[k := os]> (outs n))) sh
| eff_skip i m ms :
    boxes n !! i = Some (m :: ms) → outs n !! i = Some [] → msg_call (key_flags sh) m = None →
    net_effect n sh (mkNet (models n) (<[i := ms]> (boxes n)) (<[i := []]> (outs n))) sh
| eff_handle i m ms c s sh' os :
    boxes n !! i = Some (m :: ms) → outs n !! i = Some [] → msg_call (key_flags sh) m = Some c →
    handle i c (models n) sh = Done (s, sh', os) →
    net_effect n sh (mkNet s (<[i := ms]> (boxes n)) (<[i := sent_msgs os]> (outs n))) sh'.

Lemma net_step_effect l n sh n' sh' :
  net_step l n sh = Some (Done (n', sh')) → net_effect n sh n' sh'.
Proof.
  destruct l as [k|i]; simpl.
  - destruct (outs n !! k) as [[|[j m] os]|] eqn:Eo; [done| |done].
    destruct (boxes n !! j) as [b|] eqn:Eb; [|done]. destruct (_ <? _); [|done].
    intros [= <- <-]. by apply eff_deliver.
  - destruct (boxes n !! i) as [[|m ms]|] eqn:Eb; [done| |done].
    destruct (outs n !! i) as [[|o os]|] eqn:Eo; [|done..]. destruct (awaits i _); [done|].
    destruct (msg_call (key_flags sh) m) as [c|] eqn:Em; [|intros [= <- <-]; rewrite <-(list_insert_id (outs n) i []) by done; by eapply eff_skip].
    destruct (handle i c (models n) sh) as [[[s sh1] os]| |] eqn:Eh; simpl; [|done..].
    intros [= <- <-]. by eapply eff_handle.
Qed.

(** ** Links

    The events of one kind that are under way from the model [s] to the model
    [r], oldest first: those in the mailbox, then those being sent. *)
Section Links.
Context {A : Type} (kind : Call → option A) (r s : nat).

Definition msg_kind (m : Msg) : option A :=
  match m with EventMsg c => kind c | KeyedEventMsg _ _ => None end.
Definition out_kind (x : nat * Msg) : option A := if decide (x.1 = r) then msg_kind x.2 else None.

Definition link (n : Net) : list A :=
  omap msg_kind (default [] (boxes n !! r)) ++ omap out_kind (default [] (outs n !! s)).

(** No other model or task sends events of this kind to [r]. *)
Definition only_from (n : Net) : Prop :=
  ∀ k l, k ≠ s → outs n !! k = Some l → omap out_kind l = [].

Lemma only_from_insert n ms bs k l : only_from n → (k = s ∨ omap out_kind l = []) →
  only_from (mkNet ms bs (<[k := l]> (outs n))).
Proof.
  intros Ho Hl k' l' Hk. cbn [outs]. destruct (decide (k' = k)) as [->|Hne].
  - destruct Hl as [->|Hl]; [done|]. intros Hin. apply list_lookup_insert_Some in Hin as [(_ & Heq & _)|[Hne _]];
      [by rewrite <-Heq|by destruct Hne].
  - rewrite list_lookup_insert_ne by done. by apply Ho.
Qed.

Lemma link_deliver n k j m os b :
  r < length (boxes n) → only_from n → outs n !! k = Some ((j, m) :: os) → boxes n !! j = Some b →
  link (mkNet (models n) (<[j := b ++ [m]]> (boxes n)) (<[k := os]> (outs n))) = link n.
Proof.
  intros Hr Ho Hk Hj. unfold link. cbn [boxes outs].
  assert (default [] (<[k := os]> (outs n) !! s) = if decide (k = s) then os else default [] (outs n !! s)) as ->.
  { case_decide as Hs; [subst|by rewrite list_lookup_insert_ne].
    rewrite list_lookup_insert_eq; [done|]. by eapply lookup_lt_Some. }
  assert (omap msg_kind (default [] (<[j := b ++ [m]]> (boxes n) !! r)) =
    omap msg_kind (default [] (boxes n !! r)) ++ option_list (out_kind (j, m))) as ->.
  { unfold out_kind. simpl. case_decide as Hjr; [subst|].
    - rewrite list_lookup_insert_eq by done. rewrite Hj. simpl. rewrite omap_app. simpl.
      by destruct (msg_kind m).
    - rewrite list_lookup_insert_ne by done. by rewrite app_nil_r. }
  rewrite <-app_assoc. f_equal. case_decide as Hs.
  - subst k. rewrite Hk. simpl. by destruct (out_kind (j, m)).
  - pose proof (Ho k _ Hs Hk) as Hn. simpl in Hn. by destruct (out_kind (j, m)).
Qed.

(** [r] takes a message. *)
Lemma link_receive n ms' m ms os : r ≠ s → boxes n !! r = Some (m :: ms) →
  link n = option_list (msg_kind m) ++
    link (mkNet ms' (<[r := ms]> (boxes n)) (<[r := os]> (outs n))).
Proof.
  intros Hrs Hb. unfold link. cbn [boxes outs]. rewrite Hb, (list_lookup_insert_ne (outs n)) by done.
  rewrite list_lookup_insert_eq by by eapply lookup_lt_Some.
  simpl. by destruct (msg_kind m).
Qed.

(** [s] executes a method that sends [os]. *)
Lemma link_send n ms' ms os : r ≠ s → outs n !! s = Some [] →
  link (mkNet ms' (<[s := ms]> (boxes n)) (<[s := os]> (outs n))) = link n ++ omap out_kind os.
Proof.
  intros Hrs Hs. unfold link. cbn [boxes outs]. rewrite Hs, (list_lookup_insert_ne (boxes n)) by done.
  rewrite list_lookup_insert_eq by by eapply lookup_lt_Some. simpl. by rewrite app_nil_r.
Qed.

Lemma link_other n ms' i ms os : i ≠ r → i ≠ s →
  link (mkNet ms' (<[i := ms]> (boxes n)) (<[i := os]> (outs n))) = link n.
Proof. intros Hr Hs. unfold link. cbn [boxes outs]. by rewrite !list_lookup_insert_ne. Qed.

(** A model [i] that takes [m] and sends [os]: the last value that [r] will
    have received, when it has received [v] so far. *)
Definition latest (v : A) (l : list A) : A := default v (last l).

Lemma latest_app v l l' : latest v (l ++ l') = latest (latest v l) l'.
Proof. unfold latest. rewrite last_app. by destruct (last l'). Qed.

Lemma link_take n ms' i m ms os v : r ≠ s → boxes n !! i = Some (m :: ms) → outs n !! i = Some [] →
  latest (if decide (i = r) then default v (msg_kind m) else v)
    (link (mkNet ms' (<[i := ms]> (boxes n)) (<[i := os]> (outs n)))) =
  latest (latest v (link n)) (if decide (i = s) then omap out_kind os else []).
Proof.
  intros Hrs Hb Ho. destruct (decide (i = r)) as [->|Hr].
  - rewrite decide_False by done. rewrite (link_receive n ms' m ms os) by done.
    rewrite latest_app. by destruct (msg_kind m).
  - case_decide as Hs; [subst i|].
    + by rewrite link_send, latest_app.
    + by rewrite link_other.
Qed.

Lemma link_add_task n l : s < length (outs n) → link (add_task l n) = link n.
Proof. intros Hs. unfold link, add_task. cbn [boxes outs]. by rewrite lookup_app_l. Qed.

Lemma only_from_add_task n l : only_from n → omap out_kind l = [] → only_from (add_task l n).
Proof.
  intros Ho Hl k l' Hk. cbn [add_task outs]. rewrite lookup_app_Some.
  intros [Hin|[_ Hin]]; [by eapply Ho|]. apply list_lookup_singleton_Some in Hin as [_ <-]. done.
Qed.
End Links.

(** Methods reach the scheduler through its interface only. *)
Class BenchLaws := handle_ops : ∀ i c s sh s' sh' os,
  handle i c s sh = Done (s', sh', os) → rtc sched_op sh sh'.
Context `{BL : !BenchLaws}.

Lemma net_step_ops l n sh n' sh' :
  net_step l n sh = Some (Done (n', sh')) → rtc sched_op sh sh'.
Proof.
  destruct l as [k|i]; simpl.
  - destruct (outs n !! k) as [[|[j m] os]|]; [done| |done].
    destruct (boxes n !! j) as [b|]; [|done]. destruct (_ <? _); [|done]. by intros [= _ <-].
  - destruct (boxes n !! i) as [[|m ms]|]; [done| |done].
    destruct (outs n !! i) as [[|o os]|]; [|done..]. destruct (awaits i _); [done|].
    destruct (msg_call (key_flags sh) m) as [c|]; [|by intros [= _ <-]].
    destruct (handle i c (models n) sh) as [[[s sh1] os]| |] eqn:Eh; simpl; [|done..].
    intros [= _ <-]. by eapply handle_ops.
Qed.

#[export] Instance bench_laws : ExecutorLaws (E := BenchExec).
Proof.
  intros d e e' sh sh' r. simpl. unfold bench_run.
  destruct (net_run _ _ _ _) as [[[n sh1] p]| |] eqn:En; simpl; [|done..]. intros [= _ <- _].
  apply net_run_steps in En. remember (net e, sh) as x eqn:Ex. remember (n, sh1) as y eqn:Ey.
  revert e sh n sh1 Ex Ey. induction En as [x|x [n1 sh2] y [l Hl] _ IH]; intros e0 sh0 n sh1 -> Ey.
  { by simplify_eq. }
  transitivity sh2; [by eapply net_step_ops|].
  exact (IH (set_net n1 e0) sh2 n sh1 eq_refl Ey).
Qed.
End Bench.

(** Two schedules for the examples: the deliveries first, and the other way
    round, the steps of the last models first. *)
Definition in_order : Schedule := λ _, [].
Definition last_first : Schedule := λ _,
  reverse ((Deliver <$> seq 0 32) ++ (Take <$> seq 0 8)).

Arguments BenchOps {T} Call St Q.
Arguments Net : clear implicits.
Arguments BenchExec : clear implicits.
