(* ===== verification/Scenario.v ===== *)
(** * Scenarios

    The [main] functions of the examples: a bench is assembled with [SimInit]
    and driven through a [Simulation] and a [Scheduler], with assertions in
    between.  A scenario is a computation on the simulation that may return an
    error early, as [?] does, or panic. *)

From stdpp Require Import base option list numbers strings relations.
From Stdlib Require Import ZArith Lia.
From S2P Require Import Prelude StableQueue PriorityQueue Time SeqFuture Scheduler Simulation Stepping SimInit Bench.

(** [Duration::from_millis]. *)
Definition millis (n : Z) : Duration := mkDuration (n / 1000) (n `mod` 1000 * 1000000).

Section Scenario.
Context {Call St : Type}.
Abbreviation BQueue := (PriorityQueue (TaiTime * Z) (Action Call nat Empty_set)).
Abbreviation BShared := (Shared BQueue TaiTime).
Context `{BO : !BenchOps (T := TaiTime) Call St BQueue}.
Abbreviation BSim := (Simulation (BenchExec Call St) NoClock BShared nat).
Abbreviation Error := (ExecutionError TaiTime unit).

Definition no_send_error (_ : unit) : bool := false.

Definition Scenario (A : Type) : Type := BSim → outcome (result A Error * BSim).

Definition sret {A} (a : A) : Scenario A := λ s, Done (Ok a, s).
Definition sbind {A B} (p : Scenario A) (f : A → Scenario B) : Scenario B := λ s,
  let! (r, s) := p s in
  match r with
  | Ok a => f a s
  | Err e => Done (Err e, s)
  end.

Definition s_assert (b : bool) : Scenario unit := λ s, let! _ := rust_assert b in Done (Ok tt, s).
Definition s_lift {A} (o : outcome A) : Scenario A := λ s, let! a := o in Done (Ok a, s).
Definition s_time : Scenario TaiTime := λ s, Done (Ok (Simulation_time s), s).
Definition s_step : Scenario unit := step no_send_error.
Definition s_step_until (fuel : nat) (d : Duration) : Scenario unit := step_until no_send_error id fuel d.
Definition s_process_event (c : Call) (a : nat) : Scenario unit := process_event no_send_error c a.

(** [scheduler.schedule_event(...).unwrap()]. *)
Definition s_schedule_event (d : Duration) (c : Call) (a : nat) : Scenario unit := λ s,
  let! (r, sh) := Scheduler_schedule_event d c a (shared s) in
  match r with
  | Ok _ => Done (Ok tt, set_shared sh s)
  | Err _ => Panicked
  end.

(** Reads a sink. *)
Definition s_sink {A} (f : St → A * St) : Scenario A := λ s,
  let n := net (executor s) in
  let (a, m) := f (models n) in
  Done (Ok a, set_executor (set_net (mkNet m (boxes n) (outs n)) (executor s)) s).

Fixpoint s_repeat (n : nat) (p : Scenario unit) : Scenario unit :=
  match n with
  | O => sret tt
  | S n => sbind p (λ _, s_repeat n p)
  end.

(** [SimInit::new()], the models with their addresses and names, and
    [init(t0)]; then the scenario. *)
Fixpoint add_models (ms : list (Proto nat nat * nat * string)) (i : SimInit (BenchExec Call St) NoClock BShared nat) :
    outcome (SimInit (BenchExec Call St) NoClock BShared nat) :=
  match ms with
  | [] => Done i
  | (p, a, name) :: ms => let! i := SimInit_add_model p (a, a) name i in add_models ms i
  end.

Definition run_scenario {A} (e : BenchExec Call St) (ms : list (Proto nat nat * nat * string))
    (p : Scenario A) : outcome (result A Error) :=
  let! i := add_models ms (with_num_threads e (λ _, e) mkNoClock 1) in
  let! r := init no_send_error MT_EPOCH i in
  match r with
  | Err e => Done (Err e)
  | Ok s => let! (r, _) := p s in Done r
  end.
End Scenario.

Declare Scope scenario_scope.
Delimit Scope scenario_scope with scenario.
Notation "'do!' x ':=' p 'in' q" := (sbind p (λ x, q))
  (at level 200, x pattern, p at level 100, q at level 200) : scenario_scope.
