(* ===== verification/Espresso.v ===== *)
(** * The espresso machine (examples/espresso_machine.rs)

    The models of the example, its bench and its scenario.  The numbers are
    IEEE doubles.  Addresses: the controller is 0, the pump 1, the tank 2. *)

From stdpp Require Import base option list numbers strings relations.
From Stdlib Require Import ZArith Lia.
From S2P Require Import Prelude StableQueue PriorityQueue Time SeqFuture Scheduler Simulation Stepping SimInit Sinks F64 Bench.

Inductive PumpCommand := On | Off.
Inductive WaterSenseState := Empty | NotEmpty.

#[export] Instance WaterSenseState_eq_dec : EqDecision WaterSenseState.
Proof. solve_decision. Defined.

(** The input methods, with their arguments. *)
Inductive EspressoCall :=
| Init
| BrewCmd
| BrewTime (d : Duration)
| WaterSense (s : WaterSenseState)
| StopBrew
| Command (c : PumpCommand)
| Fill (added_volume : f64)
| SetFlowRate (flow_rate : f64)
| SetEmpty.

Record Controller := mkController {
  brew_time : Duration;
  water_sense : WaterSenseState;
  stop_brew_key : option ActionKey;
}.

Record Pump := mkPump { nominal_flow_rate : f64 }.

Section Tank.
Context {T : Type}.
Record TankDynamicState := mkDynamic {
  last_volume_update : T;
  set_empty_key : ActionKey;
  flow_rate : f64;
}.

Record Tank := mkTank { volume : f64; dynamic_state : option TankDynamicState }.
End Tank.
Arguments TankDynamicState : clear implicits.
Arguments Tank : clear implicits.

Definition DEFAULT_BREW_TIME : Duration := mkDuration 25 0.
Definition Controller_new : Controller := mkController DEFAULT_BREW_TIME Empty None.
Definition Pump_new (nominal_flow_rate : f64) : Pump := mkPump nominal_flow_rate.
Definition Tank_new {T : Type} (water_volume : f64) : outcome (Tank T) :=
  let! _ := rust_assert (f64_leb f64_zero water_volume) in
  Done (mkTank water_volume None).

(** The address of each model. *)
Definition controller_addr : nat := 0.
Definition pump_addr : nat := 1.
Definition tank_addr : nat := 2.


Section Methods.
Context {T : Type} `{MonotonicTime T}.
Context {Q : Type} `{!StableQueue Q (T * Z) (Action EspressoCall nat Empty_set)}.
Abbreviation Shared := (Shared Q T).
Abbreviation sends := (list (nat * EspressoCall)).

(** [key.cancel()]. *)
Definition cancel (k : ActionKey) (sh : Shared) : Shared :=
  set_flags (ActionKey_cancel (key_flags sh) k) sh.

Definition pump_cmd (c : PumpCommand) : sends := [(pump_addr, Command c)].

Definition Pump_command (cmd : PumpCommand) (self : Pump) : f64 :=
  match cmd with On => nominal_flow_rate self | Off => f64_zero end.

Definition Controller_water_sense (state : WaterSenseState) (self : Controller) (sh : Shared) :
    Controller * Shared * sends :=
  if bool_decide (state = Empty) && bool_decide (water_sense self = NotEmpty) then
    match stop_brew_key self with
    | Some key => (mkController (brew_time self) state None, cancel key sh, pump_cmd Off)
    | None => (mkController (brew_time self) state None, sh, [])
    end
  else (mkController (brew_time self) state (stop_brew_key self), sh, []).

Definition Controller_brew_time (brew_time : Duration) (self : Controller) : outcome Controller :=
  let! _ := rust_assert (negb (is_zero brew_time)) in
  Done (mkController brew_time (water_sense self) (stop_brew_key self)).

Definition Controller_brew_cmd (self : Controller) (sh : Shared) : outcome (Controller * Shared * sends) :=
  match stop_brew_key self with
  | Some key =>
      Done (mkController (brew_time self) (water_sense self) None, cancel key sh, pump_cmd Off)
  | None =>
      if bool_decide (water_sense self = Empty) then Done (self, sh, [])
      else
        let! (r, sh) :=
          Context_schedule_keyed_event (model_cx controller_addr) (brew_time self) StopBrew sh in
        match r with
        | Ok key =>
            Done (mkController (brew_time self) (water_sense self) (Some key), sh, pump_cmd On)
        | Err _ => Panicked
        end
  end.

Definition Controller_stop_brew (self : Controller) : Controller * sends :=
  match stop_brew_key self with
  | Some _ => (mkController (brew_time self) (water_sense self) None, pump_cmd Off)
  | None => (self, [])
  end.

Definition send_sense (s : WaterSenseState) : sends := [(controller_addr, WaterSense s)].

(** [schedule_empty]. *)
Definition Tank_schedule_empty (rate : f64) (time : T) (self : Tank T) (sh : Shared) :
    outcome (Tank T * Shared * sends) :=
  let duration_until_empty :=
    if f64_eqb (volume self) f64_zero then f64_zero else f64_div (volume self) rate in
  if is_infinite duration_until_empty then Done (self, sh, [])
  else
    let! duration_until_empty := from_secs_f64 duration_until_empty in
    let! (r, sh) :=
      Context_schedule_keyed_event (model_cx tank_addr) duration_until_empty SetEmpty sh in
    match r with
    | Ok key => Done (mkTank (volume self) (Some (mkDynamic time key rate)), sh, [])
    | Err _ => Done (mkTank f64_zero (dynamic_state self), sh, send_sense Empty)
    end.

(** The volume that is left, saturating at zero. *)
Definition volume_left (volume : f64) (state : TankDynamicState T) (time : T) : outcome f64 :=
  let! elapsed := duration_since time (last_volume_update state) in
  Done (f64_max (f64_sub volume (f64_mul (flow_rate state) (as_secs_f64 elapsed))) f64_zero).

Definition Tank_fill (added_volume : f64) (self : Tank T) (sh : Shared) :
    outcome (Tank T * Shared * sends) :=
  if f64_leb added_volume f64_zero then Done (self, sh, [])
  else
    let was_empty := f64_eqb (volume self) f64_zero in
    let vol := f64_add (volume self) added_volume in
    match dynamic_state self with
    | Some state =>
        let sh := cancel (set_empty_key state) sh in
        let time := Context_time (model_cx tank_addr) sh in
        let! vol := volume_left vol state time in
        Tank_schedule_empty (flow_rate state) time (mkTank vol None) sh
    | None =>
        Done (mkTank vol None, sh, if was_empty then send_sense NotEmpty else [])
    end.

Definition Tank_set_flow_rate (rate : f64) (self : Tank T) (sh : Shared) :
    outcome (Tank T * Shared * sends) :=
  let! _ := rust_assert (f64_leb f64_zero rate) in
  let time := Context_time (model_cx tank_addr) sh in
  match dynamic_state self with
  | Some state =>
      let sh := cancel (set_empty_key state) sh in
      let! vol := volume_left (volume self) state time in
      Tank_schedule_empty rate time (mkTank vol None) sh
  | None => Tank_schedule_empty rate time self sh
  end.

Definition Tank_set_empty (self : Tank T) : Tank T * sends :=
  (mkTank f64_zero None, send_sense Empty).

Definition sensed (v : f64) : WaterSenseState := if f64_eqb v f64_zero then Empty else NotEmpty.

Definition Tank_init (self : Tank T) : sends := send_sense (sensed (volume self)).

(** ** The bench

    The flow rate of the pump goes to the tank and to an event slot.  Ghost
    state: [last_cmd] and [last_rate] are what the pump and the tank were given
    last; [sensing] says that the tank has sent its initial state. *)

Record Machine := mkMachine {
  controller : Controller;
  pump : Pump;
  tank : Tank T;
  flow_slot : EventSlot f64;
  last_cmd : PumpCommand;
  last_rate : f64;
  sensing : bool;
}.

Definition with_controller (c : Controller) (m : Machine) : Machine :=
  mkMachine c (pump m) (tank m) (flow_slot m) (last_cmd m) (last_rate m) (sensing m).
Definition with_tank (t : Tank T) (rate : f64) (m : Machine) : Machine :=
  mkMachine (controller m) (pump m) t (flow_slot m) (last_cmd m) rate (sensing m).

Definition controller_handle (c : EspressoCall) (m : Machine) (sh : Shared) :
    outcome (Machine * Shared * sends) :=
  match c with
  | Init => Done (m, sh, [])
  | BrewCmd =>
      let! (c, sh, os) := Controller_brew_cmd (controller m) sh in
      Done (with_controller c m, sh, os)
  | BrewTime d => let! c := Controller_brew_time d (controller m) in Done (with_controller c m, sh, [])
  | WaterSense s =>
      let '(c, sh, os) := Controller_water_sense s (controller m) sh in
      Done (with_controller c m, sh, os)
  | StopBrew => let (c, os) := Controller_stop_brew (controller m) in Done (with_controller c m, sh, os)
  | _ => Panicked
  end.

Definition pump_handle (c : EspressoCall) (m : Machine) (sh : Shared) :
    outcome (Machine * Shared * sends) :=
  match c with
  | Init => Done (m, sh, [])
  | Command cmd =>
      let rate := Pump_command cmd (pump m) in
      Done (mkMachine (controller m) (pump m) (tank m) (slot_write false rate (flow_slot m)) cmd
              (last_rate m) (sensing m), sh, [(tank_addr, SetFlowRate rate)])
  | _ => Panicked
  end.

Definition tank_handle (c : EspressoCall) (m : Machine) (sh : Shared) :
    outcome (Machine * Shared * sends) :=
  match c with
  | Init =>
      Done (mkMachine (controller m) (pump m) (tank m) (flow_slot m) (last_cmd m) (last_rate m) true,
            sh, Tank_init (tank m))
  | Fill v =>
      let! (t, sh, os) := Tank_fill v (tank m) sh in Done (with_tank t (last_rate m) m, sh, os)
  | SetFlowRate rate =>
      let! (t, sh, os) := Tank_set_flow_rate rate (tank m) sh in Done (with_tank t rate m, sh, os)
  | SetEmpty => let (t, os) := Tank_set_empty (tank m) in Done (with_tank t (last_rate m) m, sh, os)
  | _ => Panicked
  end.

#[export] Instance espresso_ops : BenchOps EspressoCall Machine Q := {|
  handle := λ a c m sh,
    match a with
    | 0 => controller_handle c m sh
    | 1 => pump_handle c m sh
    | 2 => tank_handle c m sh
    | _ => Panicked
    end;
  init_call := Init;
  awaits := λ _ _, false;
|}.

Definition espresso_net (rate : f64) (tank : Tank T) : Net EspressoCall Machine :=
  mkNet (mkMachine Controller_new (Pump_new rate) tank slot_new_open Off f64_zero false)
    [[]; []; []] [[]; []; []].
End Methods.
Arguments Machine : clear implicits.
