(* ===== verification/EspressoFacts.v ===== *)
(** * The espresso machine: what holds in every interleaving

    The controller, the pump and the tank form a loop of messages.  Whatever
    the order in which they run, and whatever the users and the scheduler send
    in the meantime, once no message is under way the three agree; and every run
    ends. *)

From stdpp Require Import base option list numbers strings relations.
From Stdlib Require Import ZArith Lia.
From S2P Require Import Prelude StableQueue PriorityQueue Time SeqFuture Scheduler Simulation Stepping SimInit Sinks Counting F64 Bench Espresso.

Section Facts.
Context {T : Type} `{MonotonicTimeLaws T}.
Context {Q : Type} `{!StableQueue Q (T * Z) (Action EspressoCall nat Empty_set)}.
Abbreviation Shared := (Shared Q T).
Abbreviation Msg := (Msg EspressoCall).
Abbreviation Net := (Net EspressoCall (Machine T)).
Implicit Types (n : Net) (sh : Shared) (m : Msg).

(** What users and the scheduler may send. *)
Definition user_call (a : nat) (c : EspressoCall) : Prop :=
  match a, c with
  | 0, (BrewCmd | BrewTime _ | StopBrew) => True
  | 2, Fill v => f64_wf v
  | 2, SetEmpty => True
  | _, _ => False
  end.

Definition call_of m : EspressoCall := match m with EventMsg c | KeyedEventMsg _ c => c end.
Definition user_msg (jm : nat * Msg) : Prop := user_call jm.1 (call_of jm.2).

(** The steps of the models, and messages that arrive from outside together
    with any change of the scheduler. *)
Inductive machine_next : Net * Shared → Net * Shared → Prop :=
| next_model x y : net_next x y → machine_next x y
| next_user n sh sh' l : Forall user_msg l → machine_next (n, sh) (add_task l n, sh').

(** ** The three links *)

Definition sense_kind (c : EspressoCall) : option WaterSenseState :=
  match c with WaterSense s => Some s | _ => None end.
Definition cmd_kind (c : EspressoCall) : option PumpCommand :=
  match c with Command c => Some c | _ => None end.
Definition rate_kind (c : EspressoCall) : option f64 :=
  match c with SetFlowRate r => Some r | _ => None end.

Abbreviation senses := (link sense_kind controller_addr tank_addr).
Abbreviation commands := (link cmd_kind pump_addr controller_addr).
Abbreviation rates := (link rate_kind tank_addr pump_addr).

(** The command that goes with the state of the controller. *)
Definition cmd_of (c : Controller) : PumpCommand :=
  match stop_brew_key c with Some _ => On | None => Off end.

(** Keyed messages are calls of users; volumes are doubles. *)
Definition msg_fine m : Prop :=
  match m with
  | EventMsg (Fill v) => f64_wf v
  | EventMsg _ => True
  | KeyedEventMsg _ c => ∃ a, user_call a c
  end.

Record machine_inv n : Prop := {
  mi_boxes : length (boxes n) = 3;
  mi_outs : 3 ≤ length (outs n);
  mi_box_fine : Forall (Forall msg_fine) (boxes n);
  mi_out_fine : Forall (Forall (λ jm, msg_fine jm.2)) (outs n);
  mi_senses : only_from sense_kind controller_addr tank_addr n;
  mi_commands : only_from cmd_kind pump_addr controller_addr n;
  mi_rates : only_from rate_kind tank_addr pump_addr n;
  mi_cmd : latest (last_cmd (models n)) (commands n) = cmd_of (controller (models n));
  mi_rate : latest (last_rate (models n)) (rates n) =
    Pump_command (last_cmd (models n)) (pump (models n));
  mi_sense : sensing (models n) = true →
    latest (water_sense (controller (models n))) (senses n) = sensed (volume (tank (models n)));
  mi_start : sensing (models n) = false → ∃ ms, boxes n !! 2 = Some (EventMsg Init :: ms);
  mi_dry : water_sense (controller (models n)) = Empty → stop_brew_key (controller (models n)) = None;
  mi_dynamic : is_Some (dynamic_state (tank (models n))) →
    f64_eqb (volume (tank (models n))) f64_zero = false;
  mi_volume : nonneg_f64 (volume (tank (models n))) ∧ f64_wf (volume (tank (models n)));
}.

(** ** The methods *)

(** What a step of the tank leaves, and what it has sent. *)
Definition tank_ok (t t' : Tank T) (os : list (nat * EspressoCall)) : Prop :=
  latest (sensed (volume t)) (omap (out_kind sense_kind controller_addr) (sent_msgs os)) =
    sensed (volume t') ∧
  (is_Some (dynamic_state t') → f64_eqb (volume t') f64_zero = false) ∧
  nonneg_f64 (volume t') ∧ f64_wf (volume t') ∧
  (os = [] ∨ ∃ s, os = send_sense s).

(** Nothing can be scheduled for the current time. *)
Lemma schedule_now_err (cx : Context nat) c sh key sh' :
  Context_schedule_keyed_event cx duration_zero c sh = Done (Ok key, sh') → False.
Proof.
  unfold Context_schedule_keyed_event, schedule_keyed_event_from. simpl.
  unfold into_time, Duration_deadline.
  destruct (mt_add (time sh) duration_zero) as [t| |] eqn:Et; simpl; [|done..].
  apply mt_add_zero in Et as ->; [|done..].
  assert ((time sh ≤?ₒ time sh) = true) as -> by apply ord_leb_le, ord_le_refl. done.
Qed.

Lemma schedule_empty_ok rate time (v0 : f64) t sh t' sh' os :
  Tank_schedule_empty rate time t sh = Done (t', sh', os) →
  (f64_eqb v0 f64_zero = false ∨ v0 = volume t) → dynamic_state t = None →
  nonneg_f64 (volume t) → f64_wf (volume t) →
  ∀ d, tank_ok (mkTank v0 d) t' os.
Proof.
  intros Hsch Hv Hd Hn Hw d. revert Hsch. unfold Tank_schedule_empty.
  assert (f64_eqb (volume t) f64_zero = false → sensed v0 = sensed (volume t)) as Hs.
  { intros Hz. unfold sensed. rewrite Hz. destruct Hv as [->| ->]; [done|by rewrite Hz]. }
  destruct (is_infinite _) eqn:Ei.
  { intros [= <- <- <-]. unfold tank_ok, latest. simpl. rewrite Hd.
    destruct (f64_eqb (volume t) f64_zero) eqn:Ez; [by simpl in Ei|].
    split_and!; [by apply Hs|by intros []|done|done|by left]. }
  destruct (from_secs_f64 _) as [du| |] eqn:Ef; simpl; [|done..].
  destruct (Context_schedule_keyed_event _ du SetEmpty sh) as [[r sh1]| |] eqn:Ek; simpl; [|done..].
  destruct r as [key|e]; intros [= <- <- <-]; unfold tank_ok, latest; simpl.
  - assert (f64_eqb (volume t) f64_zero = false) as Hz.
    { destruct (f64_eqb (volume t) f64_zero) eqn:Ez; [|done]. simpl in Ef. injection Ef as <-.
      by destruct (schedule_now_err _ _ _ _ _ Ek). }
    split_and!; [by apply Hs|done|done|done|by left].
  - rewrite Hd. split_and!; [done|by intros []|done|done|right; by eexists].
Qed.

Definition tank_inv (t : Tank T) : Prop :=
  (is_Some (dynamic_state t) → f64_eqb (volume t) f64_zero = false) ∧
  nonneg_f64 (volume t) ∧ f64_wf (volume t).

Lemma volume_left_ok v st time v' : f64_wf v → volume_left v st time = Done v' →
  nonneg_f64 v' ∧ f64_wf v'.
Proof.
  unfold volume_left. intros Hv. destruct (duration_since _ _) as [d| |]; simpl; [|done..].
  intros [= <-]. split; [apply f64_max_zero_nonneg|].
  apply f64_max_zero_wf, f64_sub_wf; [done|apply f64_mul_wf].
Qed.

Lemma tank_eta (t : Tank T) : t = mkTank (volume t) (dynamic_state t).
Proof. by destruct t. Qed.

Lemma tank_fill_ok v t sh t' sh' os : f64_wf v → tank_inv t →
  Tank_fill v t sh = Done (t', sh', os) → tank_ok t t' os.
Proof.
  intros Hv (Hd & Hn & Hw). unfold Tank_fill.
  destruct (f64_leb v f64_zero) eqn:El.
  { intros [= <- <- <-]. split_and!; [done|done|done|done|by left]. }
  pose proof (f64_add_wf _ _ Hw Hv) as Hw'.
  destruct (dynamic_state t) as [st|] eqn:Ed.
  - destruct (volume_left _ _ _) as [v'| |] eqn:Ev; simpl; [|done..]. intros Hs.
    destruct (volume_left_ok _ _ _ _ Hw' Ev) as [Hn1 Hw1]. rewrite (tank_eta t).
    apply (schedule_empty_ok _ _ _ _ _ _ _ _ Hs); [left; by apply Hd|done..].
  - intros [= <- <- <-]. unfold tank_ok, latest. simpl.
    assert (pos_f64 v ∨ is_nan v = true) as Hp by (by destruct v as [[]|[]| |[]]; simpl in *; auto).
    destruct (f64_eqb (volume t) f64_zero) eqn:Ez.
    + assert (f64_add (volume t) v = v) as ->.
      { destruct (volume t) as [?|[]| |[]]; try done. destruct Hp; by destruct v as [?|[]| |[]]. }
      split_and!; [|by intros []| |done|right; by eexists].
      * unfold sensed. by destruct Hp as [Hp|Hp], v as [?|[]| |[]].
      * by destruct Hp as [Hp|Hp], v as [?|[]| |[]].
    + assert (nonneg_f64 (f64_add (volume t) v) ∧ f64_eqb (f64_add (volume t) v) f64_zero = false) as [Hn1 Hz].
      { destruct (is_nan (volume t)) eqn:En1; [by destruct (volume t)|].
        destruct Hp as [Hp|Hp]; [|destruct v; try done; by destruct (volume t)].
        pose proof (f64_add_pos _ _ Hw Hv (nonneg_not_zero _ Hn Ez En1) Hp) as Hs.
        split; [|by apply pos_not_zero]. by destruct (f64_add (volume t) v). }
      split_and!; [|by intros []|done|done|by left]. unfold sensed. by rewrite Ez, Hz.
Qed.

Lemma tank_set_flow_rate_ok rate t sh t' sh' os : tank_inv t →
  Tank_set_flow_rate rate t sh = Done (t', sh', os) → tank_ok t t' os.
Proof.
  intros (Hd & Hn & Hw). unfold Tank_set_flow_rate.
  destruct (f64_leb f64_zero rate); [|done]. simpl. rewrite (tank_eta t).
  destruct (dynamic_state t) as [st|] eqn:Ed.
  - cbn [dynamic_state volume].
    destruct (volume_left _ _ _) as [v'| |] eqn:Ev; simpl; [|done..]. intros Hs.
    destruct (volume_left_ok _ _ _ _ Hw Ev) as [Hn1 Hw1].
    apply (schedule_empty_ok _ _ _ _ _ _ _ _ Hs); [left; by apply Hd|done..].
  - intros Hs. apply (schedule_empty_ok _ _ _ _ _ _ _ _ Hs); [by right|done..].
Qed.

(** ** One execution of a method *)

Definition model_inv (x : Machine T) : Prop :=
  (water_sense (controller x) = Empty → stop_brew_key (controller x) = None) ∧ tank_inv (tank x).

Abbreviation senses_of os := (omap (out_kind sense_kind controller_addr) (sent_msgs os)).
Abbreviation cmds_of os := (omap (out_kind cmd_kind pump_addr) (sent_msgs os)).
Abbreviation rates_of os := (omap (out_kind rate_kind tank_addr) (sent_msgs os)).

Record method_ok (i : nat) (c : EspressoCall) (x x' : Machine T) (os : list (nat * EspressoCall)) :
    Prop := {
  mo_inv : model_inv x';
  mo_last_cmd : last_cmd x' = if decide (i = 1) then default (last_cmd x) (cmd_kind c) else last_cmd x;
  mo_cmd : cmd_of (controller x') =
    latest (cmd_of (controller x)) (if decide (i = 0) then cmds_of os else []);
  mo_last_rate : last_rate x' = if decide (i = 2) then default (last_rate x) (rate_kind c) else last_rate x;
  mo_rate : Pump_command (last_cmd x') (pump x') =
    latest (Pump_command (last_cmd x) (pump x)) (if decide (i = 1) then rates_of os else []);
  mo_water : water_sense (controller x') =
    if decide (i = 0) then default (water_sense (controller x)) (sense_kind c)
    else water_sense (controller x);
  mo_sense : sensed (volume (tank x')) =
    latest (sensed (volume (tank x))) (if decide (i = 2) then senses_of os else []);
  mo_sensing : sensing x' = true → sensing x = true ∨ senses_of os ≠ [] ∧ i = 2;
  mo_starting : sensing x' = false → sensing x = false ∧ (i = 2 → c ≠ Init);
  mo_others : (i ≠ 2 → senses_of os = []) ∧ (i ≠ 0 → cmds_of os = []) ∧ (i ≠ 1 → rates_of os = []);
  mo_fine : Forall (λ jm, msg_fine jm.2) (sent_msgs os);
}.

(** The parts of [method_ok] that hold by evaluation. *)
Ltac method_simpl :=
  split; unfold latest, cmd_of; simpl;
  try solve [done | auto | by repeat constructor | split; [done|by split_and!]].

Lemma controller_ok c x sh x' sh' os : model_inv x →
  controller_handle c x sh = Done (x', sh', os) → method_ok 0 c x x' os.
Proof.
  intros [Hdry Ht] Hh. destruct c; simpl in Hh; try done.
  - injection Hh as <- <- <-. method_simpl.
  - unfold Controller_brew_cmd in Hh. destruct (stop_brew_key (controller x)) as [key|] eqn:Ek.
    { simpl in Hh. injection Hh as <- <- <-. method_simpl. }
    case_bool_decide as Ew; simpl in Hh.
    { injection Hh as <- <- <-. method_simpl. }
    destruct (Context_schedule_keyed_event _ _ _ _) as [[[key|] sh1]| |]; simpl in Hh; try done.
    injection Hh as <- <- <-. method_simpl.
  - unfold Controller_brew_time in Hh. destruct (negb _); simpl in Hh; [|done].
    injection Hh as <- <- <-. method_simpl.
  - unfold Controller_water_sense in Hh.
    destruct (bool_decide (s = Empty) && bool_decide (water_sense (controller x) = NotEmpty)) eqn:Eb.
    + destruct (stop_brew_key (controller x)) as [key|] eqn:Ek; injection Hh as <- <- <-; method_simpl.
      by rewrite Ek.
    + injection Hh as <- <- <-. method_simpl. split; [|done]. simpl. intros ->.
      rewrite bool_decide_true in Eb by done. simpl in Eb. apply bool_decide_eq_false in Eb.
      apply Hdry. by destruct (water_sense (controller x)).
  - unfold Controller_stop_brew in Hh. destruct (stop_brew_key (controller x)) as [key|] eqn:Ek;
      injection Hh as <- <- <-; method_simpl.
Qed.

Lemma pump_ok c x sh x' sh' os : model_inv x →
  pump_handle c x sh = Done (x', sh', os) → method_ok 1 c x x' os.
Proof.
  intros [Hdry Ht] Hh. destruct c; simpl in Hh; try done; injection Hh as <- <- <-; method_simpl.
Qed.

Lemma tank_step_ok c x t' rate os : model_inv x → tank_ok (tank x) t' os → c ≠ Init →
  rate = default (last_rate x) (rate_kind c) → method_ok 2 c x (with_tank t' rate x) os.
Proof.
  intros [Hdry Ht] (Hs & Hd & Hn & Hw & Hos) Hc ->.
  assert (cmds_of os = [] ∧ rates_of os = [] ∧ Forall (λ jm, msg_fine jm.2) (sent_msgs os)) as (Hc1 & Hc2 & Hf).
  { destruct Hos as [->|[s ->]]; split_and!; try done; by repeat constructor. }
  split; unfold latest; simpl; auto; [by split|by split_and!].
Qed.

Lemma tank_method_ok c x sh x' sh' os : model_inv x → msg_fine (EventMsg c) →
  tank_handle c x sh = Done (x', sh', os) → method_ok 2 c x x' os.
Proof.
  intros Hi Hf Hh. pose proof Hi as [Hdry Ht]. destruct c; simpl in Hh; try done.
  - injection Hh as <- <- <-. method_simpl.
  - destruct (Tank_fill _ _ _) as [[[t1 sh1] os1]| |] eqn:Ef; simpl in Hh; [|done..].
    injection Hh as <- <- <-. apply tank_step_ok; [done| |done|done]. by eapply tank_fill_ok.
  - destruct (Tank_set_flow_rate _ _ _) as [[[t1 sh1] os1]| |] eqn:Ef; simpl in Hh; [|done..].
    injection Hh as <- <- <-. apply tank_step_ok; [done| |done|done]. by eapply tank_set_flow_rate_ok.
  - injection Hh as <- <- <-. apply tank_step_ok; [done| |done|done].
    split_and!; [done|by intros []|done|done|right; by eexists].
Qed.

Lemma handle_ok i c x sh x' sh' os : model_inv x → msg_fine (EventMsg c) →
  handle i c x sh = Done (x', sh', os) → i < 3 ∧ method_ok i c x x' os.
Proof.
  intros Hi Hf. destruct i as [|[|[|i]]]; simpl; [..|done]; intros Hh; (split; [lia|]).
  - by eapply controller_ok.
  - by eapply pump_ok.
  - by eapply tank_method_ok.
Qed.

(** ** The invariant is kept *)

(** What does not change when a message is skipped. *)
Lemma skip_ok i c x : model_inv x →
  sense_kind c = None → cmd_kind c = None → rate_kind c = None → c ≠ Init → method_ok i c x x [].
Proof.
  intros Hi H1 H2 H3 Hc. split; rewrite ?H1, ?H2, ?H3; unfold latest; simpl;
    repeat case_decide; auto.
Qed.

Lemma user_kinds a c : user_call a c →
  sense_kind c = None ∧ cmd_kind c = None ∧ rate_kind c = None ∧ c ≠ Init ∧ msg_fine (EventMsg c).
Proof. destruct a as [|[|[|a]]], c; simpl; intros Hu; first [done|by split_and!]. Qed.

Lemma fine_kinds m : msg_fine m →
  msg_kind sense_kind m = sense_kind (call_of m) ∧ msg_kind cmd_kind m = cmd_kind (call_of m) ∧
  msg_kind rate_kind m = rate_kind (call_of m) ∧ msg_fine (EventMsg (call_of m)).
Proof. destruct m as [c|k c]; [done|]. intros [a Ha]. apply user_kinds in Ha. naive_solver. Qed.

Lemma latest_nonempty {A} (v v' : A) l : l ≠ [] → latest v l = latest v' l.
Proof. unfold latest. intros Hl. destruct (last l) eqn:E; [done|]. by apply last_None in E. Qed.

Lemma take_keeps n i m ms x' os : machine_inv n → boxes n !! i = Some (m :: ms) →
  outs n !! i = Some [] → method_ok i (call_of m) (models n) x' os →
  machine_inv (mkNet x' (<[i := ms]> (boxes n)) (<[i := sent_msgs os]> (outs n))).
Proof.
  intros [H1 H2 H3 H4 H5 H6 H7 H8 H9 H10 H11 H12 H13 H14] Hb Ho
    [[M1 (M2 & M3 & M4)] M5 M6 M7 M8 M9 M10 M11 M12 (M13 & M14 & M15) M16].
  assert (Forall msg_fine (m :: ms)) as [Hm Hms]%Forall_cons_1 by by eapply Forall_lookup_1.
  destruct (fine_kinds m Hm) as (K1 & K2 & K3 & _). split; simpl.
  - by rewrite length_insert.
  - by rewrite length_insert.
  - by apply Forall_insert.
  - by apply Forall_insert.
  - apply only_from_insert; [done|]. destruct (decide (i = 2)) as [->|]; [by left|right; auto].
  - apply only_from_insert; [done|]. destruct (decide (i = 0)) as [->|]; [by left|right; auto].
  - apply only_from_insert; [done|]. destruct (decide (i = 1)) as [->|]; [by left|right; auto].
  - rewrite M5, M6, <-H8, <-K2. by apply (link_take cmd_kind 1 0).
  - rewrite M7, M8, <-H9, <-K3. by apply (link_take rate_kind 2 1).
  - intros Hs. rewrite M9, M10, <-K1. etransitivity; [by apply (link_take sense_kind 0 2)|].
    destruct (M11 Hs) as [Hs'|[Hne ->]]; [by rewrite <-H10|]. by apply latest_nonempty.
  - intros Hs. destruct (M12 Hs) as [Hs' Hi]. destruct (H11 Hs') as [ms' Hms'].
    destruct (decide (i = 2)) as [->|Hne]; [|rewrite list_lookup_insert_ne by done; eauto].
    rewrite Hb in Hms'. injection Hms' as -> ->. by destruct Hi.
  - done.
  - done.
  - done.
Qed.

Lemma model_step_keeps n sh n' sh' : machine_inv n → net_effect n sh n' sh' → machine_inv n'.
Proof.
  intros Hinv He. pose proof Hinv as [H1 H2 H3 H4 H5 H6 H7 H8 H9 H10 H11 H12 H13 H14].
  assert (model_inv (models n)) as Hmodel by by split.
  destruct He as [k j m os b Hk Hj|i m ms Hb Ho Hc|i m ms c s sh' os Hb Ho Hc Hh].
  - assert (j < 3) as Hj3 by (rewrite <-H1; by eapply lookup_lt_Some).
    assert (Forall (λ jm, msg_fine jm.2) ((j, m) :: os)) as [Hm Hos]%Forall_cons_1 by by eapply Forall_lookup_1.
    assert (Forall msg_fine b) as Hbf by by eapply Forall_lookup_1.
    assert (∀ A (kind : EspressoCall → option A) r s, only_from kind r s n →
      only_from kind r s (mkNet (models n) (<[j := b ++ [m]]> (boxes n)) (<[k := os]> (outs n)))) as Hof.
    { intros A kind r s Hf. apply only_from_insert; [done|]. destruct (decide (k = s)) as [->|Hne]; [by left|].
      right. pose proof (Hf k _ Hne Hk) as Hn. simpl in Hn. by destruct (out_kind kind r (j, m)). }
    split; simpl; rewrite ?length_insert; auto.
    + apply Forall_insert; [done|]. apply Forall_app. split; [done|]. by constructor.
    + by apply Forall_insert.
    + rewrite link_deliver; [done|unfold pump_addr; lia|done..].
    + rewrite link_deliver; [done|unfold tank_addr; lia|done..].
    + intros Hs. rewrite link_deliver; [auto|unfold controller_addr; lia|done..].
    + intros Hs. destruct (H11 Hs) as [ms Hms]. destruct (decide (j = 2)) as [->|Hne].
      * rewrite list_lookup_insert_eq by lia. rewrite Hms in Hj. injection Hj as <-. by eexists.
      * rewrite list_lookup_insert_ne by done. eauto.
  - assert (msg_fine m) as Hm.
    { pose proof (proj1 (Forall_lookup _ _) H3 _ _ Hb) as Hm. by apply Forall_cons_1 in Hm as [? _]. }
    apply (take_keeps n i m ms (models n) []); [done..|].
    destruct m as [c|key c]; [done|]. destruct Hm as [a Ha]. apply user_kinds in Ha as (? & ? & ? & ? & _).
    by apply skip_ok.
  - assert (msg_fine m) as Hm.
    { pose proof (proj1 (Forall_lookup _ _) H3 _ _ Hb) as Hm. by apply Forall_cons_1 in Hm as [? _]. }
    assert (c = call_of m) as ->.
    { destruct m as [c'|key c']; simpl in Hc; [by injection Hc|]. by destruct (negb _); simplify_eq. }
    apply (take_keeps n i m ms s os); [done..|].
    destruct (fine_kinds m Hm) as (_ & _ & _ & Hf). by apply (handle_ok i _ _ sh _ sh' _ Hmodel Hf Hh).
Qed.

Lemma user_step_keeps n l : machine_inv n → Forall user_msg l → machine_inv (add_task l n).
Proof.
  intros [H1 H2 H3 H4 H5 H6 H7 H8 H9 H10 H11 H12 H13 H14] Hl.
  assert (∀ A (kind : EspressoCall → option A) r, (∀ a c, user_call a c → kind c = None) →
    omap (out_kind kind r) l = []) as Hk.
  { intros A kind r Hkind. induction Hl as [|[j m] l Hm _ IH]; [done|]. simpl.
    assert (out_kind kind r (j, m) = None) as ->; [|done]. unfold out_kind. simpl.
    case_decide; [|done]. destruct m as [c|k c]; [|done]. by eapply Hkind. }
  split; simpl; auto.
  - rewrite length_app. lia.
  - apply Forall_app. split; [done|]. constructor; [|done]. eapply Forall_impl; [exact Hl|].
    intros [j m] Hm. unfold user_msg in Hm. simpl in *. destruct m as [c|k c]; [|by exists j].
    by apply user_kinds in Hm as (_ & _ & _ & _ & ?).
  - apply only_from_add_task; [done|]. apply Hk. intros a c. intros (? & _)%user_kinds. done.
  - apply only_from_add_task; [done|]. apply Hk. intros a c. intros (_ & ? & _)%user_kinds. done.
  - apply only_from_add_task; [done|]. apply Hk. intros a c. intros (_ & _ & ? & _)%user_kinds. done.
  - rewrite link_add_task; [done|unfold controller_addr; lia].
  - rewrite link_add_task; [done|unfold pump_addr; lia].
  - intros Hs. rewrite link_add_task; [auto|unfold tank_addr; lia].
Qed.

Lemma machine_steps_keep x y : rtc machine_next x y → machine_inv x.1 → machine_inv y.1.
Proof.
  induction 1 as [x|x y z Hstep _ IH]; [done|]. intros Hinv. apply IH.
  destruct Hstep as [[n sh] [n' sh'] [l Hl]|n sh sh' l Hl].
  - by eapply model_step_keeps, net_step_effect.
  - by apply user_step_keeps.
Qed.

(** The bench when its models have been added. *)
Definition espresso_start (rate vol : f64) : Net :=
  let start := start_model (Q := Q) in
  start tank_addr (start pump_addr (start controller_addr (espresso_net rate (mkTank vol None)))).

Lemma start_inv rate vol : f64_leb f64_zero vol = true → f64_wf vol → machine_inv (espresso_start rate vol).
Proof.
  intros Hv Hw. split; simpl; try done; try lia; try (by repeat constructor).
  1-3: intros [|[|[|k]]] l Hk; simpl; intros [= <-]; done.
  - intros _. by eexists.
  - split; [|done]. by destruct vol as [[]|[]| |[]].
Qed.

Lemma quiet_empty n : in_transit n = 0 →
  (∀ i l, boxes n !! i = Some l → l = []) ∧ (∀ i l, outs n !! i = Some l → l = []).
Proof.
  unfold in_transit. intros Hz.
  assert (∀ B (L : list (list B)), sum_list (length <$> L) = 0 → ∀ i l, L !! i = Some l → l = []) as Hs.
  { intros B L. induction L as [|l0 L IH]; [done|]. csimpl. intros Hsum [|i] l Hl.
    - injection Hl as <-. destruct l0; [done|simpl in Hsum; lia].
    - eapply (IH ltac:(lia)). exact Hl. }
  split; apply Hs; lia.
Qed.

Lemma quiet_link {A} (kind : EspressoCall → option A) r s n : in_transit n = 0 → link kind r s n = [].
Proof.
  intros Hz. destruct (quiet_empty n Hz) as [Hb Ho]. unfold link.
  destruct (boxes n !! r) as [b|] eqn:Eb; [rewrite (Hb _ _ Eb)|];
    (destruct (outs n !! s) as [o|] eqn:Eo; [rewrite (Ho _ _ Eo)|]); done.
Qed.

(** C37: the espresso machine settles in a consistent state.  In every
    interleaving of its three models, with any requests and scheduled events
    arriving at any time, as soon as no message is under way the controller
    knows whether the tank is empty, the pump has executed the command that
    goes with the state of the controller and the tank has the flow rate of the
    pump; in particular an empty tank means that nothing is brewing and that no
    water flows. *)
Theorem espresso_settles rate vol n sh0 sh :
  f64_leb f64_zero vol = true → f64_wf vol →
  rtc machine_next (espresso_start rate vol, sh0) (n, sh) → in_transit n = 0 →
  let x := models n in
  water_sense (controller x) = sensed (volume (tank x)) ∧
  last_cmd x = cmd_of (controller x) ∧
  last_rate x = Pump_command (last_cmd x) (pump x) ∧
  (f64_eqb (volume (tank x)) f64_zero = true →
     stop_brew_key (controller x) = None ∧ last_rate x = f64_zero).
Proof.
  intros Hv Hw Hr Hq x. pose proof (machine_steps_keep _ _ Hr (start_inv rate vol Hv Hw)) as Hinv.
  simpl in Hinv. pose proof (mi_cmd _ Hinv) as H1. pose proof (mi_rate _ Hinv) as H2.
  pose proof (mi_sense _ Hinv) as H3.
  rewrite quiet_link in H1 by done. rewrite quiet_link in H2 by done. rewrite quiet_link in H3 by done.
  change (last_cmd x = cmd_of (controller x)) in H1.
  change (last_rate x = Pump_command (last_cmd x) (pump x)) in H2.
  assert (water_sense (controller x) = sensed (volume (tank x))) as Hs.
  { destruct (sensing x) eqn:Es; [by apply H3|]. exfalso.
    destruct (mi_start _ Hinv Es) as [ms Hms]. by apply (proj1 (quiet_empty n Hq)) in Hms. }
  split_and!; [done..|]. intros Hz. unfold sensed in Hs. rewrite Hz in Hs.
  pose proof (mi_dry _ Hinv Hs) as Hd. split; [done|]. unfold cmd_of in H1.
  change (stop_brew_key (controller x) = None) in Hd. rewrite Hd in H1. by rewrite H2, H1.
Qed.
End Facts.

(** The brew button pressed at the start, and one run of the bench. *)
Abbreviation EQueue := (PriorityQueue (TaiTime * Z) (Action EspressoCall nat Empty_set)).

Definition example_start : Net EspressoCall (Machine TaiTime) * Shared EQueue TaiTime :=
  (espresso_start (Q := EQueue) (f64_lit 45 10000000) (f64_lit 15 10000),
   mkShared sq_new MT_EPOCH false []).

Definition first_brew : outcome (Net EspressoCall (Machine TaiTime) * Shared EQueue TaiTime) :=
  let! (n, sh, _) := net_run in_order 1000 (add_task [(controller_addr, EventMsg BrewCmd)] example_start.1)
                       example_start.2 in
  Done (n, sh).

Lemma first_brew_steps x : first_brew = Done x → rtc machine_next example_start x.
Proof.
  unfold first_brew. destruct (net_run in_order 1000 _ _) as [[[n sh] p]| |] eqn:En; simpl; [|done..].
  intros [= <-]. apply net_run_steps in En.
  apply rtc_l with (add_task [(controller_addr, EventMsg BrewCmd)] example_start.1, example_start.2).
  { apply (next_user example_start.1). by repeat constructor. }
  revert En. apply rtc_subrel. intros x y. by constructor.
Qed.

Lemma espresso_settles_witness : ∃ n sh, first_brew = Done (n, sh) ∧
  last_cmd (models n) = cmd_of (controller (models n)).
Proof.
  assert (match first_brew with Done (n, _) => Nat.eqb (in_transit n) 0 | _ => false end = true) as Hb
    by (vm_compute; reflexivity).
  destruct first_brew as [[n sh]| |] eqn:Ef; [|done..]. exists n, sh. split; [done|].
  apply Nat.eqb_eq in Hb.
  destruct (espresso_settles (f64_lit 45 10000000) (f64_lit 15 10000) n example_start.2 sh)
    as (_ & Hc & _).
  - vm_compute. reflexivity.
  - by vm_compute.
  - exact (first_brew_steps _ Ef).
  - exact Hb.
  - exact Hc.
Defined.

(** ** Every run ends

    Only requests from outside can keep the models busy: a weight decreases with
    each step. *)

Section Ends.
Context {T : Type} `{MonotonicTime T}.
Context {Q : Type} `{!StableQueue Q (T * Z) (Action EspressoCall nat Empty_set)}.
Abbreviation Shared := (Shared Q T).
Abbreviation Msg := (Msg EspressoCall).
Abbreviation Net := (Net EspressoCall (Machine T)).
Implicit Types (n : Net) (sh : Shared) (m : Msg).

(** What a message can still cause, itself included; a brew in progress can
    cause one more command when the tank runs dry. *)
Definition call_weight (c : EspressoCall) : nat :=
  match c with
  | BrewCmd => 13
  | Command _ => 5
  | Init | Fill _ | SetEmpty | SetFlowRate _ => 3
  | WaterSense _ | BrewTime _ | StopBrew => 1
  end.

Definition brewing (x : Machine T) : nat :=
  match stop_brew_key (controller x) with Some _ => 6 | None => 0 end.

Definition msg_weight m : nat := call_weight (call_of m).
Definition out_weight (jm : nat * Msg) : nat := S (msg_weight jm.2).

Definition weight n : nat :=
  cnt (cnt msg_weight) (boxes n) + cnt (cnt out_weight) (outs n) + brewing (models n).

Abbreviation sent_weight os := (cnt out_weight (sent_msgs os)).

Definition few (os : list (nat * EspressoCall)) : Prop := os = [] ∨ ∃ s, os = send_sense s.

Lemma few_weight os : few os → sent_weight os ≤ 2.
Proof. by intros [->|[s ->]]; simpl; lia. Qed.

(** The tank sends at most one state of its sensor. *)
Lemma schedule_empty_few rate time t sh t' sh' os :
  Tank_schedule_empty rate time t sh = Done (t', sh', os) → few os.
Proof.
  unfold Tank_schedule_empty. destruct (is_infinite _); [intros [= _ _ <-]; by left|].
  destruct (from_secs_f64 _) as [d| |]; simpl; [|done..].
  destruct (Context_schedule_keyed_event _ _ _ _) as [[[k|e] sh1]| |]; simpl; [..|done|done];
    intros [= _ _ <-]; [by left|right; by eexists].
Qed.

Lemma tank_fill_few v t sh t' sh' os : Tank_fill v t sh = Done (t', sh', os) → few os.
Proof.
  unfold Tank_fill. destruct (f64_leb _ _); [intros [= _ _ <-]; by left|].
  destruct (dynamic_state t).
  - destruct (volume_left _ _ _); simpl; [apply schedule_empty_few|done..].
  - intros [= _ _ <-]. destruct (f64_eqb _ _); [right; by eexists|by left].
Qed.

Lemma tank_rate_few rate t sh t' sh' os : Tank_set_flow_rate rate t sh = Done (t', sh', os) → few os.
Proof.
  unfold Tank_set_flow_rate. destruct (f64_leb _ _); [simpl|done].
  destruct (dynamic_state t); [|apply schedule_empty_few].
  destruct (volume_left _ _ _); simpl; [apply schedule_empty_few|done..].
Qed.

(** A method causes less than its message and the brew that it ends. *)
Abbreviation lighter c x x' os := (sent_weight os + brewing x' < call_weight c + brewing x).

Lemma controller_weight c x sh x' sh' os :
  controller_handle c x sh = Done (x', sh', os) → lighter c x x' os.
Proof.
  unfold brewing. destruct c; simpl; try done; [by intros [= <- _ <-]; simpl; lia|..].
  - unfold Controller_brew_cmd. destruct (stop_brew_key (controller x)); simpl;
      [by intros [= <- _ <-]; simpl; lia|].
    destruct (bool_decide _); simpl; [by intros [= <- _ <-]; simpl; case_match; lia|].
    destruct (Context_schedule_keyed_event _ _ _ _) as [[[k|e] sh1]| |]; simpl; [|done..].
    intros [= <- _ <-]. simpl. lia.
  - unfold Controller_brew_time. destruct (negb _); simpl; [|done]. intros [= <- _ <-]. simpl. lia.
  - unfold Controller_water_sense. destruct (_ && _); [|by intros [= <- _ <-]; simpl; lia].
    destruct (stop_brew_key (controller x)); intros [= <- _ <-]; simpl; lia.
  - unfold Controller_stop_brew. destruct (stop_brew_key (controller x)) eqn:Ek; intros [= <- _ <-];
      simpl; rewrite ?Ek; lia.
Qed.

Lemma pump_weight c x sh x' sh' os : pump_handle c x sh = Done (x', sh', os) → lighter c x x' os.
Proof. unfold brewing. destruct c; simpl; try done; intros [= <- _ <-]; simpl; lia. Qed.

Lemma tank_weight c x sh x' sh' os : tank_handle c x sh = Done (x', sh', os) → lighter c x x' os.
Proof.
  unfold brewing. destruct c; simpl; try done; [by intros [= <- _ <-]; simpl; lia|..].
  - destruct (Tank_fill _ _ _) as [[[t' sh1] os1]| |] eqn:Ef; simpl; [|done..]. intros [= <- _ <-].
    apply tank_fill_few, few_weight in Ef. simpl. lia.
  - destruct (Tank_set_flow_rate _ _ _) as [[[t' sh1] os1]| |] eqn:Ef; simpl; [|done..].
    intros [= <- _ <-]. apply tank_rate_few, few_weight in Ef. simpl. lia.
  - intros [= <- _ <-]. simpl. lia.
Qed.

Lemma handle_weight i c x sh x' sh' os : handle i c x sh = Done (x', sh', os) → lighter c x x' os.
Proof.
  destruct i as [|[|[|i]]]; [apply controller_weight|apply pump_weight|apply tank_weight|done].
Qed.

Lemma effect_weight n sh n' sh' : net_effect n sh n' sh' → weight n' < weight n.
Proof.
  intros He. unfold weight.
  destruct He as [k j m os b Hk Hj|i m ms Hb Ho Hc|i m ms c s sh' os Hb Ho Hc Hh]; cbn [boxes outs models].
  - pose proof (cnt_insert (cnt out_weight) _ _ _ os Hk) as H1.
    pose proof (cnt_insert (cnt msg_weight) _ _ _ (b ++ [m]) Hj) as H2.
    rewrite cnt_snoc in H2.
    change (cnt out_weight ((j, m) :: os)) with (S (msg_weight m) + cnt out_weight os) in H1. lia.
  - pose proof (cnt_insert (cnt out_weight) _ _ _ [] Ho) as H1.
    pose proof (cnt_insert (cnt msg_weight) _ _ _ ms Hb) as H2. simpl in H1, H2.
    assert (0 < msg_weight m) by (unfold msg_weight; destruct (call_of m); simpl; lia). lia.
  - pose proof (cnt_insert (cnt out_weight) _ _ _ (sent_msgs os) Ho) as H1.
    pose proof (cnt_insert (cnt msg_weight) _ _ _ ms Hb) as H2. simpl in H1, H2.
    apply handle_weight in Hh.
    assert (msg_weight m = call_weight c) as Hm.
    { destruct m as [c'|key c']; simpl in Hc; [by injection Hc as ->|]. by destruct (negb _); simplify_eq. }
    lia.
Qed.

(** C38: every run of the espresso machine ends.  Although the controller, the
    pump and the tank send each other messages in a loop, a bench in any state,
    with any messages under way, makes at most as many steps as the weight of
    these messages before it stops, in every interleaving. *)
Theorem espresso_run_ends n sh k y : nsteps net_next k (n, sh) y → k + weight y.1 ≤ weight n.
Proof.
  intros Hk. remember (n, sh) as x eqn:Ex. revert n sh Ex.
  induction Hk as [x|k x [n1 sh1] z [l Hl] _ IH]; intros n sh ->; [done|].
  apply net_step_effect, effect_weight in Hl. specialize (IH _ _ eq_refl). simpl in *. lia.
Qed.
End Ends.

Lemma espresso_run_ends_witness :
  match net_step (Take controller_addr) example_start.1 example_start.2 with
  | Some (Done y) => 1 + weight y.1 ≤ weight example_start.1
  | _ => False
  end.
Proof.
  destruct (net_step (Take controller_addr) example_start.1 example_start.2) as [[y| |]|] eqn:Es;
    [|by vm_compute in Es..].
  apply (espresso_run_ends example_start.1 example_start.2 1 y).
  apply nsteps_once. exists (Take controller_addr). exact Es.
Defined.
