(* ===== verification/Stepper.v ===== *)
(** * The stepper motor (examples/stepper_motor.rs and examples/assembly.rs)

    A driver that sends current pulses at a given rate and a motor whose rotor
    follows the phase of the currents; the assembly forwards its inputs to both.
    Addresses: the driver is 0, the motor 1, the assembly 2. *)

From stdpp Require Import base option list numbers strings relations.
From Stdlib Require Import ZArith Lia.
From S2P Require Import Prelude StableQueue PriorityQueue Time SeqFuture Scheduler Simulation Stepping SimInit Sinks F64 Bench.

Local Open Scope Z_scope.

Record Motor := mkMotor { pos : Z; torque : f64 }.
Record Driver := mkDriver { pps : f64; next_phase : Z; current : f64 }.

(** The input methods, with their arguments; [PulseRate] and [Load] are also
    the inputs of the assembly. *)
Inductive MotorCall :=
| MotorInit
| CurrentIn (current : f64 * f64)
| Load (torque : f64)
| PulseRate (pps : f64)
| SendPulse.

Definition driver_addr : nat := 0.
Definition motor_addr : nat := 1.
Definition assembly_addr : nat := 2.

Definition STEPS_PER_REV : Z := 200.
Definition TORQUE_CONSTANT : f64 := f64_one.
Definition MIN_PPS : f64 := f64_one.
Definition MAX_PPS : f64 := f64_of_Z 1000.

Definition Motor_new (position : Z) : Motor := mkMotor (position `mod` STEPS_PER_REV) f64_zero.
Definition Driver_new (nominal_current : f64) : Driver := mkDriver f64_zero 0 nominal_current.

(** The position after two pulses, as [main] gives it. *)
Definition sync_pos (init_pos : Z) : Z := ((init_pos + 1) / 4 * 4 + 1) `mod` STEPS_PER_REV.

(** ** Motor

    The position is a u16, of which the remainder modulo 4 fits an i8. *)

(** The target phase of the currents and their intensity; [None] when there is
    no current. *)
Definition target (current : f64 * f64) : outcome (option (Z * f64)) :=
  let '(a, b) := current in
  match negb (f64_eqb a f64_zero), negb (f64_eqb b f64_zero) with
  | false, false => Done None
  | true, false => Done (Some (if f64_ltb f64_zero a then 0 else 2, f64_abs a))
  | false, true => Done (Some (if f64_ltb f64_zero b then 1 else 3, f64_abs b))
  | true, true => Panicked
  end.

(** [None] when the rotor does not move. *)
Definition pos_delta (target_phase pos : Z) : outcome (option Z) :=
  match target_phase - pos `mod` 4 with
  | 0 | 2 | -2 => Done None
  | 1 | -3 => Done (Some 1)
  | -1 | 3 => Done (Some (STEPS_PER_REV - 1))
  | _ => Panicked
  end.

(** The motor and the position that it sends, if any. *)
Definition Motor_current_in (current : f64 * f64) (self : Motor) : outcome (Motor * option Z) :=
  let! _ := rust_assert (negb (is_nan current.1) && negb (is_nan current.2)) in
  let! t := target current in
  match t with
  | None => Done (self, None)
  | Some (target_phase, abs_current) =>
      if f64_ltb abs_current (f64_mul TORQUE_CONSTANT (torque self)) then Done (self, None)
      else
        let! d := pos_delta target_phase (pos self) in
        match d with
        | None => Done (self, None)
        | Some d =>
            let p := (pos self + d) `mod` STEPS_PER_REV in
            Done (mkMotor p (torque self), Some p)
        end
  end.

Definition Motor_load (torque : f64) (self : Motor) : outcome Motor :=
  let! _ := rust_assert (f64_leb f64_zero torque) in
  Done (mkMotor (pos self) torque).

Definition Motor_init (self : Motor) : option Z := Some (pos self).

(** ** Driver *)

Definition phase_current (next_phase : Z) (current : f64) : outcome (f64 * f64) :=
  match next_phase with
  | 0 => Done (current, f64_zero)
  | 1 => Done (f64_zero, current)
  | 2 => Done (f64_neg current, f64_zero)
  | 3 => Done (f64_zero, f64_neg current)
  | _ => Panicked
  end.

(** [(self.next_phase + (self.pps.signum() + 4.0) as u8) % 4]; the sum is a u8. *)
Definition increment_phase (next_phase : Z) (pps : f64) : outcome Z :=
  let n := next_phase + f64_to_uint 255 (f64_add (f64_signum pps) (f64_of_Z 4)) in
  let! _ := rust_assert (n <=? 255) in
  Done (n `mod` 4).


Section Methods.
Context {T : Type} `{MonotonicTime T}.
Context {Q : Type} `{!StableQueue Q (T * Z) (Action MotorCall nat Empty_set)}.
Abbreviation Shared := (Shared Q T).
Abbreviation sends := (list (nat * MotorCall)).

Definition Driver_send_pulse (self : Driver) (sh : Shared) : outcome (Driver * Shared * sends) :=
  let! current_out := phase_current (next_phase self) (current self) in
  let out := [(motor_addr, CurrentIn current_out)] in
  if f64_eqb (pps self) f64_zero then Done (self, sh, out)
  else
    let! next_phase := increment_phase (next_phase self) (pps self) in
    let! pulse_duration := from_secs_f64 (f64_div f64_one (f64_abs (pps self))) in
    let! (r, sh) := Context_schedule_event (model_cx driver_addr) pulse_duration SendPulse sh in
    match r with
    | Ok _ => Done (mkDriver (pps self) next_phase (current self), sh, out)
    | Err _ => Panicked
    end.

Definition clamp_pps (pps : f64) : f64 :=
  f64_mul (f64_signum pps) (f64_clamp (f64_abs pps) MIN_PPS MAX_PPS).

Definition Driver_pulse_rate (rate : f64) (self : Driver) (sh : Shared) :
    outcome (Driver * Shared * sends) :=
  let rate := clamp_pps rate in
  if f64_eqb rate (pps self) then Done (self, sh, [])
  else
    let is_idle := f64_eqb (pps self) f64_zero in
    let self := mkDriver rate (next_phase self) (current self) in
    if is_idle then Driver_send_pulse self sh else Done (self, sh, []).

(** ** Assembly: the inputs are forwarded to the submodels *)

Definition MotorAssembly_pulse_rate (pps : f64) : sends := [(driver_addr, PulseRate pps)].
Definition MotorAssembly_load (torque : f64) : sends := [(motor_addr, Load torque)].

(** ** The bench

    The position of the motor goes to an event buffer. *)

Record Stepper := mkStepper { driver : Driver; motor : Motor; positions : EventBuffer Z }.

Definition record_pos (p : option Z) (b : EventBuffer Z) : EventBuffer Z :=
  match p with Some p => buffer_write p b | None => b end.

Definition driver_handle (c : MotorCall) (x : Stepper) (sh : Shared) : outcome (Stepper * Shared * sends) :=
  match c with
  | MotorInit => Done (x, sh, [])
  | PulseRate rate =>
      let! (d, sh, os) := Driver_pulse_rate rate (driver x) sh in
      Done (mkStepper d (motor x) (positions x), sh, os)
  | SendPulse =>
      let! (d, sh, os) := Driver_send_pulse (driver x) sh in
      Done (mkStepper d (motor x) (positions x), sh, os)
  | _ => Panicked
  end.

Definition motor_handle (c : MotorCall) (x : Stepper) (sh : Shared) : outcome (Stepper * Shared * sends) :=
  match c with
  | MotorInit =>
      Done (mkStepper (driver x) (motor x) (record_pos (Motor_init (motor x)) (positions x)), sh, [])
  | CurrentIn current =>
      let! (m, p) := Motor_current_in current (motor x) in
      Done (mkStepper (driver x) m (record_pos p (positions x)), sh, [])
  | Load torque =>
      let! m := Motor_load torque (motor x) in
      Done (mkStepper (driver x) m (positions x), sh, [])
  | _ => Panicked
  end.

Definition assembly_handle (c : MotorCall) (x : Stepper) (sh : Shared) : outcome (Stepper * Shared * sends) :=
  match c with
  | MotorInit => Done (x, sh, [])
  | PulseRate rate => Done (x, sh, MotorAssembly_pulse_rate rate)
  | Load torque => Done (x, sh, MotorAssembly_load torque)
  | _ => Panicked
  end.

#[export] Instance stepper_ops : BenchOps MotorCall Stepper Q := {|
  handle := λ a c x sh,
    match a with
    | 0%nat => driver_handle c x sh
    | 1%nat => motor_handle c x sh
    | 2%nat => assembly_handle c x sh
    | _ => Panicked
    end;
  init_call := MotorInit;
  awaits := λ _ _, false;
|}.

(** The models with [n] mailboxes. *)
Definition stepper_net (n : nat) (init_pos : Z) : Net MotorCall Stepper :=
  mkNet (mkStepper (Driver_new f64_one) (Motor_new init_pos) buffer_new)
    (replicate n []) (replicate n []).
End Methods.
