(* ===== verification/StepperFacts.v ===== *)
(** * The stepper motor: the rotor follows the driver *)

From stdpp Require Import base option list numbers strings relations.
From Stdlib Require Import ZArith Lia SpecFloat.
From S2P Require Import Prelude StableQueue PriorityQueue Time SeqFuture Scheduler Simulation Stepping SimInit Sinks F64 Bench Stepper.

Local Open Scope Z_scope.

(** ** Turning the rotor *)

(** Where the rotor goes in the phase [k]. *)
Definition turn (k q : Z) : Z :=
  match pos_delta k q with Done (Some d) => (q + d) `mod` STEPS_PER_REV | _ => q end.

Definition is_sign (s : Z) : Prop := s = 1 ∨ s = -1.

(** The position of the rotor after two pulses, the first one in the direction
    [s]. *)
Definition sync (p s : Z) : Z :=
  if s =? 1 then sync_pos p else ((p + 2) / 4 * 4 - 1) `mod` STEPS_PER_REV.

(** A property of all positions holds by evaluation. *)
Lemma all_positions (P : Z → bool) :
  forallb (λ n, P (Z.of_nat n)) (seq 0 200) = true → ∀ q, 0 <= q < 200 → P q = true.
Proof.
  intros Hf q Hq. rewrite List.forallb_forall in Hf. rewrite <-(Z2Nat.id q) by lia.
  apply Hf, List.in_seq. lia.
Qed.

Lemma turn_next q s : 0 <= q < 200 → is_sign s →
  turn ((q + s) `mod` 4) q = (q + s) `mod` STEPS_PER_REV.
Proof.
  intros Hq Hs. apply Z.eqb_eq.
  destruct Hs as [->| ->]; revert q Hq; apply all_positions; vm_compute; reflexivity.
Qed.

Lemma turn_sync q s : 0 <= q < 200 → is_sign s →
  turn (s `mod` 4) (turn 0 q) = sync q s ∧ sync q s `mod` 4 = s `mod` 4.
Proof.
  intros Hq Hs. rewrite <-!Z.eqb_eq, <-andb_true_iff.
  destruct Hs as [->| ->]; revert q Hq;
    apply (all_positions (λ q, (turn _ (turn 0 q) =? sync q _) && (sync q _ `mod` 4 =? _)));
    vm_compute; reflexivity.
Qed.

Lemma turn_range k q : 0 <= q < 200 → 0 <= turn k q < 200.
Proof.
  intros Hq. unfold turn. destruct (pos_delta k q) as [[d|]| |]; [|done..].
  apply Z.mod_pos_bound. done.
Qed.

Lemma pos_delta_done k q : 0 <= k < 4 → ∃ o, pos_delta k q = Done o.
Proof.
  intros Hk. unfold pos_delta. pose proof (Z.mod_pos_bound q 4 ltac:(lia)) as Hm.
  assert (-3 <= k - q `mod` 4 <= 3) as Hd by lia. revert Hd.
  generalize (k - q `mod` 4). intros d Hd.
  assert (d = -3 ∨ d = -2 ∨ d = -1 ∨ d = 0 ∨ d = 1 ∨ d = 2 ∨ d = 3) as Hc by lia.
  destruct_or! Hc; subst; by eexists.
Qed.

(** ** One pulse *)

(** The load lets the rotor turn. *)
Definition load_ok (c : f64) (torque : f64) : Prop :=
  f64_ltb (f64_abs c) (f64_mul TORQUE_CONSTANT torque) = false.

Lemma motor_turns c k m : pos_f64 c → 0 <= k < 4 → load_ok c (torque m) →
  ∃ cur o, phase_current k c = Done cur ∧
    Motor_current_in cur m = Done (mkMotor (turn k (pos m)) (torque m), o).
Proof.
  intros Hc Hk Hl. destruct (pos_delta_done k (pos m) Hk) as [o Ho]. unfold turn. rewrite Ho.
  assert (k = 0 ∨ k = 1 ∨ k = 2 ∨ k = 3) as Hk4 by lia.
  assert (∃ cur, phase_current k c = Done cur ∧ is_nan cur.1 = false ∧ is_nan cur.2 = false ∧
    target cur = Done (Some (k, f64_abs c))) as (cur & Hp & Hn1 & Hn2 & Ht).
  { destruct_or! Hk4; subst; destruct c as [?|[]| |[]]; try done; by eexists. }
  exists cur. unfold Motor_current_in. rewrite Hn1, Hn2, Ht. cbn [rust_assert negb andb obind].
  unfold load_ok in Hl. rewrite Hl, Ho. cbn [obind].
  destruct o as [d|]; [by eexists|]. exists None. by destruct m.
Qed.

Definition sign_of (x : f64) : Z :=
  match x with S754_finite true _ _ | S754_infinity true => -1 | _ => 1 end.

Lemma sign_of_sign x : is_sign (sign_of x).
Proof. unfold is_sign. destruct x as [[]|[]| |[]]; simpl; auto. Qed.

Lemma phase_incremented k x k' : 0 <= k < 4 → f64_eqb x f64_zero = false → is_nan x = false →
  increment_phase k x = Done k' → k' = (k + sign_of x) `mod` 4.
Proof.
  intros Hk Hz Hn. unfold increment_phase.
  assert (f64_to_uint 255 (f64_add (f64_signum x) (f64_of_Z 4)) = 4 + sign_of x) as ->.
  { destruct x as [[]|[]| |[]]; try done; vm_compute; reflexivity. }
  destruct (_ <=? _); [|done]. simpl. intros [= <-].
  replace (k + (4 + sign_of x)) with (k + sign_of x + 1 * 4) by lia. by rewrite Z.mod_add.
Qed.

Section Drive.
Context {T : Type} `{MonotonicTimeLaws T}.
Context {Q : Type} `{!StableQueue Q (T * Z) (Action MotorCall nat Empty_set)}.
Abbreviation Shared := (Shared Q T).

(** The motor receives what the driver has sent. *)
Fixpoint feed (os : list (nat * MotorCall)) (m : Motor) : outcome Motor :=
  match os with
  | [] => Done m
  | (_, CurrentIn c) :: os => let! (m, _) := Motor_current_in c m in feed os m
  | _ :: _ => Panicked
  end.

(** The direction of the pulse, if one was sent. *)
Definition pulse_signs (os : list (nat * MotorCall)) (d : Driver) : list Z :=
  match os with [] => [] | _ => [sign_of (pps d)] end.

(** What the driver and the motor can become, with the directions of the
    pulses so far: the rate changes, the load changes within the limit, and
    pulses arrive at a driver that has a rate, in any order. *)
Inductive driven (c : f64) (p : Z) : Driver → Motor → list Z → Prop :=
| driven_start : driven c p (Driver_new c) (Motor_new p) []
| driven_load d m signs torque m' :
    driven c p d m signs → load_ok c torque → Motor_load torque m = Done m' →
    driven c p d m' signs
| driven_call d m signs rate (sh : Shared) d' sh' os m' :
    driven c p d m signs →
    match rate with
    | Some rate => Driver_pulse_rate rate d sh = Done (d', sh', os)
    | None => f64_eqb (pps d) f64_zero = false ∧ Driver_send_pulse d sh = Done (d', sh', os)
    end →
    feed os m = Done m' →
    driven c p d' m' (signs ++ pulse_signs os d').

(** The steps after the rotor has synchronized: each pulse moves it in the
    direction that the driver had at the pulse before. *)
Definition turned (p : Z) (s : Z) (signs : list Z) : Z :=
  fold_left (λ q s, (q + s) `mod` STEPS_PER_REV) (removelast signs) (sync p s).

Definition pos_after (p : Z) (signs : list Z) : Z :=
  match signs with
  | [] => p
  | [_] => turn 0 p
  | s :: signs => turned p s signs
  end.

Definition phase_after (p : Z) (signs : list Z) : Z :=
  match signs with
  | [] => 0
  | [s] => s `mod` 4
  | _ => (pos_after p signs + List.last signs 0) `mod` 4
  end.

Record drive_inv (c : f64) (p : Z) (d : Driver) (m : Motor) (signs : list Z) : Prop := {
  di_current : current d = c;
  di_load : load_ok c (torque m);
  di_signs : Forall is_sign signs;
  di_pos : pos m = pos_after p signs;
  di_phase : next_phase d = phase_after p signs;
  di_range : 0 <= pos m < 200;
}.

Lemma phase_range p signs : 0 <= phase_after p signs < 4.
Proof. destruct signs as [|s [|s' signs]]; simpl; [lia|..]; by apply Z.mod_pos_bound. Qed.

Lemma pos_after_two p s l s' : pos_after p (s :: l ++ [s']) = turned p s (l ++ [s']).
Proof. by destruct l. Qed.
Lemma phase_after_two p s l s' :
  phase_after p (s :: l ++ [s']) = (turned p s (l ++ [s']) + s') `mod` 4.
Proof.
  assert (phase_after p (s :: l ++ [s']) =
    (pos_after p (s :: l ++ [s']) + List.last (s :: l ++ [s']) 0) `mod` 4) as -> by by destruct l.
  rewrite pos_after_two, app_comm_cons. by rewrite List.last_last.
Qed.
Lemma mod_mod_200 x : (x `mod` STEPS_PER_REV) `mod` 4 = x `mod` 4.
Proof. unfold STEPS_PER_REV. rewrite (Z.div_mod x 200) at 2 by done.
  replace (200 * (x / 200) + x `mod` 200) with (x `mod` 200 + (x / 200 * 50) * 4) by lia.
  by rewrite Z.mod_add. Qed.

(** One more pulse, in the direction [s]. *)
Lemma pos_after_snoc p signs s : 0 <= p < 200 → 0 <= pos_after p signs < 200 → Forall is_sign signs →
  is_sign s →
  turn (phase_after p signs) (pos_after p signs) = pos_after p (signs ++ [s]) ∧
  (phase_after p signs + s) `mod` 4 = phase_after p (signs ++ [s]).
Proof.
  intros Hp Hr Hs Hsg. destruct signs as [|s1 [|s2 signs]]; [done|..].
  - apply Forall_cons_1 in Hs as [Hs1 _]. destruct (turn_sync p s1 Hp Hs1) as [H1 H2].
    split; [done|]. simpl. unfold turned. simpl. by rewrite <-H2, Zplus_mod_idemp_l.
  - destruct (List.exists_last (l := s2 :: signs)) as (l & s' & El); [done|].
    apply Forall_cons_1 in Hs as [_ Hs]. revert Hr Hs. rewrite El. intros Hr [_ Hs']%Forall_app.
    apply Forall_cons_1 in Hs' as [Hs' _].
    assert (0 <= turned p s1 (l ++ [s']) < 200) as Hr' by by rewrite <-pos_after_two.
    rewrite <-app_comm_cons, !phase_after_two, !pos_after_two.
    assert (turned p s1 ((l ++ [s']) ++ [s]) = (turned p s1 (l ++ [s']) + s') `mod` STEPS_PER_REV) as ->.
    { unfold turned. by rewrite !List.removelast_last, fold_left_app. }
    split; [by apply turn_next|]. rewrite Zplus_mod_idemp_l.
    by rewrite <-(Zplus_mod_idemp_l (_ `mod` STEPS_PER_REV)), (mod_mod_200 (_ + s')), Zplus_mod_idemp_l.
Qed.

(** A pulse of a driver that has a rate. *)
Lemma send_pulse_inv (d : Driver) (sh : Shared) d' sh' os :
  f64_eqb (pps d) f64_zero = false → 0 <= next_phase d < 4 →
  Driver_send_pulse d sh = Done (d', sh', os) →
  ∃ cur, phase_current (next_phase d) (current d) = Done cur ∧ os = [(motor_addr, CurrentIn cur)] ∧
    current d' = current d ∧ pps d' = pps d ∧
    next_phase d' = (next_phase d + sign_of (pps d)) `mod` 4.
Proof.
  intros Hz Hk. unfold Driver_send_pulse. destruct (phase_current _ _) as [cur| |]; simpl; [|done..].
  rewrite Hz. destruct (increment_phase _ _) as [k'| |] eqn:Ek; simpl; [|done..].
  assert (is_nan (pps d) = true → from_secs_f64 (f64_div f64_one (f64_abs (pps d))) = Panicked) as Hn
    by by destruct (pps d).
  destruct (from_secs_f64 _) as [du| |] eqn:Ef; simpl; [|done..].
  destruct (Context_schedule_event _ _ _ _) as [[[?|?] sh1]| |]; simpl; [|done..].
  intros [= <- <- <-]. exists cur. split_and!; try done. simpl.
  eapply phase_incremented; [done..| |exact Ek]. destruct (is_nan (pps d)); [|done].
  by specialize (Hn eq_refl).
Qed.

Lemma pulse_keeps c p d m signs (sh : Shared) d' sh' os m' :
  pos_f64 c → 0 <= p < 200 → drive_inv c p d m signs → f64_eqb (pps d) f64_zero = false →
  Driver_send_pulse d sh = Done (d', sh', os) → feed os m = Done m' →
  drive_inv c p d' m' (signs ++ pulse_signs os d').
Proof.
  intros Hc Hp [H1 H2 H3 H4 H5 H6] Hz Hs Hf.
  pose proof (phase_range p signs) as Hk. rewrite <-H5 in Hk.
  destruct (send_pulse_inv _ _ _ _ _ Hz Hk Hs) as (cur & Hcur & -> & G1 & G2 & G3).
  destruct (motor_turns c (next_phase d) m Hc Hk H2) as (cur' & o & Hcur' & Hm).
  rewrite H1, Hcur' in Hcur. injection Hcur as ->. simpl in Hf. rewrite Hm in Hf. simpl in Hf.
  injection Hf as <-. unfold pulse_signs. rewrite G2.
  pose proof (sign_of_sign (pps d)) as Hsg. rewrite H4 in H6.
  destruct (pos_after_snoc p signs _ Hp H6 H3 Hsg) as [P1 P2].
  split; simpl; [congruence|done|apply Forall_app; auto|by rewrite H4, H5|by rewrite G3, H5|].
  apply turn_range. by rewrite H4.
Qed.

(** A new rate: a pulse is sent if the driver was idle. *)
Lemma rate_keeps c p d m signs rate (sh : Shared) d' sh' os m' :
  pos_f64 c → 0 <= p < 200 → drive_inv c p d m signs →
  Driver_pulse_rate rate d sh = Done (d', sh', os) → feed os m = Done m' →
  drive_inv c p d' m' (signs ++ pulse_signs os d').
Proof.
  intros Hc Hp Hinv. unfold Driver_pulse_rate. destruct (f64_eqb _ (pps d)) eqn:Er.
  { intros [= <- <- <-] [= <-]. by rewrite app_nil_r. }
  pose proof Hinv as [H1 H2 H3 H4 H5 H6].
  destruct (f64_eqb (pps d) f64_zero) eqn:Ei.
  - intros Hs Hf. eapply (pulse_keeps c p (mkDriver (clamp_pps rate) (next_phase d) (current d)) m);
      [done..| |exact Hs|exact Hf]. simpl. revert Er.
    generalize (clamp_pps rate) as x. destruct (pps d) as [?|[]| |[]]; done.
  - intros [= <- <- <-] [= <-]. by rewrite app_nil_r.
Qed.

Lemma driven_inv c p d m signs : pos_f64 c → 0 <= p < 200 → driven c p d m signs →
  drive_inv c p d m signs.
Proof.
  intros Hc Hp. induction 1 as [|d m signs t m' _ IH Hl Hm|d m signs [rate|] sh d' sh' os m' _ IH Hd Hf].
  - split; simpl; try done; [|by apply Z.mod_small|by rewrite Z.mod_small].
    unfold load_ok. by destruct c as [?|[]| |[]].
  - destruct IH as [H1 H2 H3 H4 H5 H6]. unfold Motor_load in Hm.
    destruct (f64_leb f64_zero t); [|done]. injection Hm as <-. by split.
  - by eapply rate_keeps.
  - destruct Hd as [Hz Hd]. by eapply pulse_keeps.
Qed.

(** C39: the rotor synchronizes with the driver and follows it.  Whatever the
    start position, the changes of the rate and the loads within the torque of
    the motor, after two pulses the rotor is at the position that the comment
    in the example gives (its mirror image when the first direction is
    backward), and from then on each pulse moves it by exactly one step, in the
    direction that the driver had at the pulse before. *)
Theorem rotor_follows_driver c p d m s signs :
  pos_f64 c → 0 <= p < STEPS_PER_REV → driven c p d m (s :: signs) → signs ≠ [] →
  pos m = turned p s signs.
Proof.
  intros Hc Hp Hd Hs. rewrite (di_pos _ _ _ _ _ (driven_inv _ _ _ _ _ Hc Hp Hd)).
  by destruct signs.
Qed.
End Drive.

(** A rate of 10 Hz and one more pulse from the position 123. *)
Abbreviation MQueue := (PriorityQueue (TaiTime * Z) (Action MotorCall nat Empty_set)).
Definition idle_scheduler : Shared MQueue TaiTime := mkShared sq_new MT_EPOCH false [].

Definition sched_of (o : outcome (Driver * Shared MQueue TaiTime * list (nat * MotorCall))) :=
  match o with Done (_, sh, _) => sh | _ => idle_scheduler end.

Definition at_10_Hz (phase : Z) : Driver := mkDriver (f64_of_Z 10) phase f64_one.

Lemma two_pulses : driven (Q := MQueue) f64_one 123 (at_10_Hz 2) (mkMotor 125 f64_zero) [1; 1].
Proof.
  assert (driven (Q := MQueue) f64_one 123 (at_10_Hz 1) (mkMotor 124 f64_zero) ([] ++ [1])) as H1.
  { apply (driven_call f64_one 123 _ _ [] (Some (f64_of_Z 10)) idle_scheduler (at_10_Hz 1)
      (sched_of (Driver_pulse_rate (f64_of_Z 10) (Driver_new f64_one) idle_scheduler))
      [(motor_addr, CurrentIn (f64_one, f64_zero))] (mkMotor 124 f64_zero) (driven_start _ _));
      vm_compute; reflexivity. }
  apply (driven_call f64_one 123 _ _ [1] None idle_scheduler (at_10_Hz 2)
    (sched_of (Driver_send_pulse (at_10_Hz 1) idle_scheduler))
    [(motor_addr, CurrentIn (f64_zero, f64_one))] (mkMotor 125 f64_zero) H1).
  - split; vm_compute; reflexivity.
  - vm_compute. reflexivity.
Qed.

Lemma rotor_follows_driver_witness : pos (mkMotor 125 f64_zero) = turned 123 1 [1] ∧ turned 123 1 [1] = 125.
Proof.
  split; [|vm_compute; reflexivity].
  apply (rotor_follows_driver (Q := MQueue) f64_one 123 (at_10_Hz 2) _ 1 [1]); [done|done|exact two_pulses|done].
Defined.

(** The driver cannot be stopped: a rate of zero becomes 1 Hz, since the
    signum of zero is one and the absolute value is raised to the minimum. *)
Lemma zero_rate_drives :
  clamp_pps f64_zero = MIN_PPS ∧
  match Driver_pulse_rate f64_zero (mkDriver (f64_of_Z 10) 0 f64_one) idle_scheduler with
  | Done (d, _, _) => pps d = MIN_PPS
  | _ => False
  end.
Proof. split; vm_compute; reflexivity. Qed.
