(* ===== verification/PowerSupply.v ===== *)
(** * The power supply (examples/power_supply.rs)

    The power supply requests the current of each of its loads and awaits the
    replies, which are collected in the order of the connections.  Addresses:
    the power supply is 0, the loads are 1, 2 and 3, the replies go to 4. *)

From stdpp Require Import base option list numbers strings relations.
From Stdlib Require Import ZArith Lia.
From S2P Require Import Prelude StableQueue PriorityQueue Time SeqFuture Scheduler Simulation Stepping SimInit Sinks F64 Bench Scenario.

Record Load := mkLoad { conductance : f64 }.

Definition Load_new (resistance : f64) : outcome Load :=
  let! _ := rust_assert (f64_ltb f64_zero resistance) in
  Done (mkLoad (f64_div f64_one resistance)).

(** The current, which is the reply, and the power, which is sent. *)
Definition pwr_in (voltage : f64) (self : Load) : f64 * f64 :=
  let current := f64_mul voltage (conductance self) in
  (current, f64_mul voltage current).

(** [voltage_setting] up to its requests: the voltage to send, if any. *)
Definition voltage_setting (voltage : f64) : option f64 :=
  if f64_ltb voltage f64_zero then None else Some voltage.

(** The rest of [voltage_setting]: the total power. *)
Definition voltage_replies (voltage : f64) (currents : list f64) : f64 :=
  f64_mul voltage (fold_left f64_add currents f64_zero).

Inductive SupplyCall :=
| SupplyInit
| VoltageSetting (voltage : f64)
| PwrIn (voltage : f64)
| PwrReply (load : nat) (current : f64).

(** The power supply is suspended while [pending] has a voltage and the
    replies so far. *)
Record Supply := mkSupply {
  pending : option (f64 * list (option f64));
  loads : list Load;
  psu_power : EventSlot f64;
  load_power : list (EventSlot f64);
}.

Definition psu_addr : nat := 0.
Definition load_addr (i : nat) : nat := S i.
Definition reply_addr : nat := 4.

Section Bench.
Context {T : Type} `{MonotonicTime T}.
Context {Q : Type} `{!StableQueue Q (T * Z) (Action SupplyCall nat Empty_set)}.
Abbreviation Shared := (Shared Q T).
Abbreviation sends := (list (nat * SupplyCall)).

Definition psu_handle (c : SupplyCall) (x : Supply) : outcome (Supply * sends) :=
  match c with
  | SupplyInit => Done (x, [])
  | VoltageSetting v =>
      match voltage_setting v with
      | None => Done (x, [])
      | Some v =>
          Done (mkSupply (Some (v, replicate (length (loads x)) None)) (loads x) (psu_power x) (load_power x),
                (λ i, (load_addr i, PwrIn v)) <$> seq 0 (length (loads x)))
      end
  | _ => Panicked
  end.

(** A reply; the last one resumes the power supply. *)
Definition reply_handle (c : SupplyCall) (x : Supply) : outcome (Supply * sends) :=
  match c, pending x with
  | PwrReply i current, Some (v, rs) =>
      let rs := <[i := Some current]> rs in
      if bool_decide (Forall is_Some rs) then
        Done (mkSupply None (loads x) (slot_write false (voltage_replies v (omap id rs)) (psu_power x))
                (load_power x), [])
      else Done (mkSupply (Some (v, rs)) (loads x) (psu_power x) (load_power x), [])
  | _, _ => Panicked
  end.

Definition load_handle (i : nat) (c : SupplyCall) (x : Supply) : outcome (Supply * sends) :=
  match c, loads x !! i with
  | SupplyInit, Some _ => Done (x, [])
  | PwrIn v, Some l =>
      let (current, power) := pwr_in v l in
      Done (mkSupply (pending x) (loads x) (psu_power x) (alter (slot_write false power) i (load_power x)),
            [(reply_addr, PwrReply i current)])
  | _, _ => Panicked
  end.

#[export] Instance supply_ops : BenchOps (T := T) SupplyCall Supply Q := {|
  handle := λ a c x sh,
    let! (x, os) :=
      match a with
      | 0 => psu_handle c x
      | 4 => reply_handle c x
      | S i => load_handle i c x
      end in
    Done (x, sh, os);
  init_call := SupplyInit;
  awaits := λ a x, match a, pending x with 0, Some _ => true | _, _ => false end;
|}.
End Bench.

(** ** The scenario ([main]) *)

Local Open Scope scenario_scope.
Abbreviation SupplyScenario := (Scenario (Call := SupplyCall) (St := Supply)).

Definition same_power (a b : f64) : bool :=
  f64_ltb (f64_abs (f64_sub a b)) (f64_lit 1 1000000000000).

Definition next_psu_power (x : Supply) : option f64 * Supply :=
  let (o, s) := slot_next (psu_power x) in (o, mkSupply (pending x) (loads x) s (load_power x)).
Definition next_load_power (i : nat) (x : Supply) : option f64 * Supply :=
  match load_power x !! i with
  | Some l =>
      let (o, s) := slot_next l in
      (o, mkSupply (pending x) (loads x) (psu_power x) (<[i := s]> (load_power x)))
  | None => (None, x)
  end.

(** [assert!(same_power(slot.next().unwrap(), expected))]. *)
Definition expect_power (next : Supply → option f64 * Supply) (expected : f64) : SupplyScenario unit :=
  do! o := s_sink next in
  s_assert match o with Some p => same_power p expected | None => false end.

Definition check_voltage (rs : list f64) (voltage : f64) : SupplyScenario unit :=
  do! _ := s_process_event (VoltageSetting voltage) psu_addr in
  let v_square := f64_mul voltage voltage in
  let expected r := f64_div v_square r in
  do! _ := expect_power (next_load_power 0) (expected (nth 0 rs f64_zero)) in
  do! _ := expect_power (next_load_power 1) (expected (nth 1 rs f64_zero)) in
  do! _ := expect_power (next_load_power 2) (expected (nth 2 rs f64_zero)) in
  let conductances := f64_div f64_one <$> rs in
  expect_power next_psu_power
    (f64_mul v_square (fold_left f64_add (tail conductances) (nth 0 conductances f64_zero))).

Definition power_supply_main (sched : Schedule) : outcome (result unit (ExecutionError TaiTime unit)) :=
  let rs := [f64_of_Z 5; f64_of_Z 10; f64_of_Z 20] in
  let! load1 := Load_new (f64_of_Z 5) in
  let! load2 := Load_new (f64_of_Z 10) in
  let! load3 := Load_new (f64_of_Z 20) in
  run_scenario
    (mkBench (mkNet (mkSupply None [load1; load2; load3] slot_new_open (replicate 3 slot_new_open))
       (replicate 5 []) (replicate 5 [])) [] sched 1000)
    [(mkProto [], psu_addr, "psu"%string); (mkProto [], load_addr 0, "load1"%string);
     (mkProto [], load_addr 1, "load2"%string); (mkProto [], load_addr 2, "load3"%string)]
    (do! _ := check_voltage rs (f64_of_Z 10) in
     do! _ := check_voltage rs (f64_of_Z 15) in
     check_voltage rs (f64_of_Z 20)).

(** The example runs to its end, on two schedules. *)
Lemma power_supply_main_succeeds : power_supply_main in_order = Done (Ok tt) ∧ power_supply_main last_first = Done (Ok tt).
Proof. split; vm_compute; reflexivity. Qed.
