(* ===== verification/Overheat.v ===== *)
(** * Overheat detection (nexosim-util/examples/uni_requestor.rs)

    The sensor asks the environment for its temperature twice a second and
    awaits the reply.  Addresses: the sensor is 0, the environment 1, the
    replies go to 2. *)

From stdpp Require Import base option list numbers strings relations.
From Stdlib Require Import ZArith Lia.
From S2P Require Import Prelude StableQueue PriorityQueue Time SeqFuture Scheduler Simulation Stepping SimInit Sinks F64 Bench Scenario.

Local Open Scope scenario_scope.

Record Sensor := mkSensor { threshold : f64; oh : bool }.
Record Env := mkEnv { temp : f64 }.

Definition Sensor_new (threshold : f64) : Sensor := mkSensor threshold false.
Definition Env_new (temp : f64) : Env := mkEnv temp.
Definition Env_set_temp (temp : f64) (self : Env) : Env := mkEnv temp.
Definition Env_get_temp (self : Env) : f64 := temp self.

(** [5.0 * (t - 32.0) / 9.0]. *)
Definition fahr_to_cels (t : f64) : f64 :=
  f64_div (f64_mul (f64_of_Z 5) (f64_sub t (f64_of_Z 32))) (f64_of_Z 9).

(** The sensor with the overheat state that it sends, if any. *)
Definition Sensor_tick (temp : f64) (self : Sensor) : Sensor * option bool :=
  if f64_ltb (threshold self) temp then
    if negb (oh self) then (mkSensor (threshold self) true, Some true) else (self, None)
  else
    if oh self then (mkSensor (threshold self) false, Some false) else (self, None).

Inductive Call :=
| Init
| Tick
| SetTemp (temp : f64)
| GetTemp
| TempReply (temp : f64).

Record Bench := mkOverheat { sensor : Sensor; env : Env; waiting : bool; overheat : EventBuffer bool }.

Section Bench.
Context {T : Type} `{MonotonicTime T}.
Context {Q : Type} `{!StableQueue Q (T * Z) (Action Call nat Empty_set)}.
Abbreviation Shared := (Shared Q T).

Definition report (o : option bool) (b : EventBuffer bool) : EventBuffer bool :=
  match o with Some v => buffer_write v b | None => b end.

(** [init] propagates the state and schedules [tick]; [tick] sends its request
    and waits. *)
Definition sensor_handle (c : Call) (x : Bench) (sh : Shared) :
    outcome (Bench * Shared * list (nat * Call)) :=
  match c with
  | Init =>
      let x := mkOverheat (sensor x) (env x) (waiting x) (report (Some (oh (sensor x))) (overheat x)) in
      let! (r, sh) := Context_schedule_periodic_event (model_cx 0) (millis 500) (millis 500) Tick sh in
      match r with Ok _ => Done (x, sh, []) | Err _ => Panicked end
  | Tick => Done (mkOverheat (sensor x) (env x) true (overheat x), sh, [(1, GetTemp)])
  | _ => Panicked
  end.

(** The reply, converted, resumes [tick]. *)
Definition reply_handle (c : Call) (x : Bench) (sh : Shared) :
    outcome (Bench * Shared * list (nat * Call)) :=
  match c with
  | TempReply t =>
      let (s, o) := Sensor_tick (fahr_to_cels t) (sensor x) in
      Done (mkOverheat s (env x) false (report o (overheat x)), sh, [])
  | _ => Panicked
  end.

Definition env_handle (c : Call) (x : Bench) (sh : Shared) :
    outcome (Bench * Shared * list (nat * Call)) :=
  match c with
  | Init => Done (x, sh, [])
  | SetTemp t => Done (mkOverheat (sensor x) (Env_set_temp t (env x)) (waiting x) (overheat x), sh, [])
  | GetTemp => Done (x, sh, [(2, TempReply (Env_get_temp (env x)))])
  | _ => Panicked
  end.

#[export] Instance overheat_ops : BenchOps Call Bench Q := {|
  handle := λ a,
    match a with
    | 0 => sensor_handle
    | 1 => env_handle
    | 2 => reply_handle
    | _ => λ _ _ _, Panicked
    end;
  init_call := Init;
  awaits := λ a x, match a with 0 => waiting x | _ => false end;
|}.
End Bench.

Definition next_overheat (x : Bench) : option bool * Bench :=
  let (o, b) := buffer_next (overheat x) in (o, mkOverheat (sensor x) (env x) (waiting x) b).
Definition expect_overheat (v : option bool) : Scenario (Call := Call) unit :=
  do! o := s_sink next_overheat in s_assert (bool_decide (o = v)).

Definition uni_requestor_main (sched : Schedule) : outcome (result unit (ExecutionError TaiTime unit)) :=
  run_scenario
    (mkBench (mkNet (mkOverheat (Sensor_new (f64_of_Z 100)) (Env_new f64_zero) false buffer_new)
       (replicate 3 []) (replicate 3 [])) [] sched 1000)
    [(mkProto [], 0, "sensor"%string); (mkProto [], 1, "env"%string)]
    (do! t := s_time in
     do! _ := s_assert (bool_decide (t = MT_EPOCH)) in
     do! _ := expect_overheat (Some false) in
     do! _ := expect_overheat None in
     do! _ := s_schedule_event (mkDuration 2 0) (SetTemp (f64_of_Z 105)) 1 in
     do! _ := s_schedule_event (mkDuration 4 0) (SetTemp (f64_of_Z 213)) 1 in
     do! _ := s_step_until 1000 (mkDuration 3 0) in
     do! _ := expect_overheat None in
     do! _ := s_step_until 1000 (mkDuration 5 0) in
     expect_overheat (Some true)).

(** The example runs to its end, on two schedules. *)
Lemma uni_requestor_main_succeeds : uni_requestor_main in_order = Done (Ok tt) ∧ uni_requestor_main last_first = Done (Ok tt).
Proof. split; vm_compute; reflexivity. Qed.
