(* ===== verification/Telemetry.v ===== *)
(** * Telemetry through an adaptor (nexosim-util/examples/replier_adaptor.rs)

    The RIU acquires two measurements every second by sending commands, which
    an adaptor turns into requests to the sensor.  Addresses: the sensor is 0,
    the RIU 1, the adaptor 2, the replies go to 3. *)

From stdpp Require Import base option list numbers strings relations.
From Stdlib Require Import ZArith Lia.
From S2P Require Import Prelude StableQueue PriorityQueue Time SeqFuture Scheduler Simulation Stepping SimInit Sinks F64 Bench Scenario.

Local Open Scope scenario_scope.

Inductive SensorTc := GetTemp | GetIllum.
Inductive SensorTm := Temp (t : f64) | Illum (i : f64).

Record Sensor := mkSensor { s_temp : f64; s_illum : f64 }.
Definition Sensor_new : Sensor := mkSensor f64_zero f64_zero.
Definition set_temp (temp : f64) (self : Sensor) : Sensor := mkSensor temp (s_illum self).
Definition set_illum (illum : f64) (self : Sensor) : Sensor := mkSensor (s_temp self) illum.
Definition process_tc (tc : SensorTc) (self : Sensor) : SensorTm :=
  match tc with
  | GetTemp => Temp (s_temp self)
  | GetIllum => Illum (s_illum self)
  end.

Record TmField := mkField { value : f64; ready : bool }.
Record RiuTm := mkTm { tm_temp : f64; tm_illum : f64 }.
Record Riu := mkRiu { temp : TmField; illum : TmField }.
Definition Riu_new : Riu := mkRiu (mkField f64_zero true) (mkField f64_zero true).

Definition report (self : Riu) : RiuTm := mkTm (value (temp self)) (value (illum self)).

(** The RIU with the telemetry that it sends, if any. *)
Definition sensor_tm (tm : SensorTm) (self : Riu) : Riu * option RiuTm :=
  let self :=
    match tm with
    | Temp t => mkRiu (mkField t true) (illum self)
    | Illum i => mkRiu (temp self) (mkField i true)
    end in
  (self, if ready (temp self) && ready (illum self) then Some (report self) else None).

(** The RIU with the commands that it sends. *)
Definition acquire (self : Riu) : Riu * list SensorTc :=
  (mkRiu (mkField (value (temp self)) false) (mkField (value (illum self)) false), [GetTemp; GetIllum]).

Inductive Call :=
| Init
| SetTemp (temp : f64)
| SetIllum (illum : f64)
| ProcessTc (tc : SensorTc)
| Acquire
| Input (tc : SensorTc)
| Reply (tm : SensorTm)
| TmIn (tm : SensorTm).

Record Bench := mkTelemetry { sensor : Sensor; riu : Riu; waiting : bool; tms : EventBuffer RiuTm }.

Section Bench.
Context {T : Type} `{MonotonicTime T}.
Context {Q : Type} `{!StableQueue Q (T * Z) (Action Call nat Empty_set)}.
Abbreviation Shared := (Shared Q T).
Abbreviation handler := (Call → Bench → Shared → outcome (Bench * Shared * list (nat * Call))).

Definition sensor_handle : handler := λ c x sh,
  let set s := mkTelemetry s (riu x) (waiting x) (tms x) in
  match c with
  | Init => Done (x, sh, [])
  | SetTemp t => Done (set (set_temp t (sensor x)), sh, [])
  | SetIllum i => Done (set (set_illum i (sensor x)), sh, [])
  | ProcessTc tc => Done (x, sh, [(3, Reply (process_tc tc (sensor x)))])
  | _ => Panicked
  end.

Definition DELTA : Duration := millis 2.
Definition PERIOD : Duration := mkDuration 1 0.

Definition riu_handle : handler := λ c x sh,
  match c with
  | Init =>
      let! (r, sh) := Context_schedule_periodic_event (model_cx 1) DELTA PERIOD Acquire sh in
      match r with Ok _ => Done (x, sh, []) | Err _ => Panicked end
  | Acquire =>
      let (r, tcs) := acquire (riu x) in
      Done (mkTelemetry (sensor x) r (waiting x) (tms x), sh, (λ tc, (2, Input tc)) <$> tcs)
  | TmIn tm =>
      let (r, o) := sensor_tm tm (riu x) in
      Done (mkTelemetry (sensor x) r (waiting x)
              (match o with Some tm => buffer_write tm (tms x) | None => tms x end), sh, [])
  | _ => Panicked
  end.

(** [ReplierAdaptor::input] with one replier and one output: the request, then
    the reply is sent on. *)
Definition adaptor_handle : handler := λ c x sh,
  match c with
  | Init => Done (x, sh, [])
  | Input tc => Done (mkTelemetry (sensor x) (riu x) true (tms x), sh, [(0, ProcessTc tc)])
  | _ => Panicked
  end.
Definition reply_handle : handler := λ c x sh,
  match c with
  | Reply tm => Done (mkTelemetry (sensor x) (riu x) false (tms x), sh, [(1, TmIn tm)])
  | _ => Panicked
  end.

#[export] Instance telemetry_ops : BenchOps Call Bench Q := {|
  handle := λ a,
    match a with
    | 0 => sensor_handle
    | 1 => riu_handle
    | 2 => adaptor_handle
    | 3 => reply_handle
    | _ => λ _ _ _, Panicked
    end;
  init_call := Init;
  awaits := λ a x, match a with 2 => waiting x | _ => false end;
|}.
End Bench.

Definition with_tms (b : EventBuffer RiuTm) (x : Bench) : Bench :=
  mkTelemetry (sensor x) (riu x) (waiting x) b.
Definition next_tm (x : Bench) : option RiuTm * Bench :=
  let (o, b) := buffer_next (tms x) in (o, with_tms b x).

(** [while tm.next().is_some() {}], for a buffer of at most [n] events. *)
Fixpoint consume (n : nat) (b : EventBuffer RiuTm) : EventBuffer RiuTm :=
  match buffer_next b, n with
  | (Some _, b), S n => consume n b
  | (_, b), _ => b
  end.

Definition tm_eqb (a b : RiuTm) : bool :=
  f64_eqb (tm_temp a) (tm_temp b) && f64_eqb (tm_illum a) (tm_illum b).
Definition expect_tm (v : option RiuTm) : Scenario (Call := Call) unit :=
  do! o := s_sink next_tm in
  s_assert match o, v with
           | Some a, Some b => tm_eqb a b
           | None, None => true
           | _, _ => false
           end.

Definition replier_adaptor_main (sched : Schedule) : outcome (result unit (ExecutionError TaiTime unit)) :=
  run_scenario
    (mkBench (mkNet (mkTelemetry Sensor_new Riu_new false buffer_new) (replicate 4 []) (replicate 4 [])) [] sched 1000)
    [(mkProto [], 0, "sensor"%string); (mkProto [], 1, "riu"%string);
     (mkProto [], 2, "sensor_adaptor"%string)]
    (do! _ := expect_tm None in
     do! _ := s_step_until 1000 (millis 1200) in
     do! _ := expect_tm (Some (mkTm f64_zero f64_zero)) in
     do! _ := s_sink (λ x, (tt, with_tms (consume DEFAULT_CAPACITY (tms x)) x)) in
     do! _ := s_process_event (SetTemp (f64_of_Z 2)) 0 in
     do! _ := s_step_until 1000 (millis 1000) in
     do! _ := expect_tm (Some (mkTm (f64_of_Z 2) f64_zero)) in
     do! _ := s_process_event (SetIllum (f64_of_Z 3)) 0 in
     do! _ := s_step_until 1000 (millis 1000) in
     expect_tm (Some (mkTm (f64_of_Z 2) (f64_of_Z 3)))).

(** The example runs to its end, on two schedules. *)
Lemma replier_adaptor_main_succeeds : replier_adaptor_main in_order = Done (Ok tt) ∧ replier_adaptor_main last_first = Done (Ok tt).
Proof. split; vm_compute; reflexivity. Qed.
