(* ===== verification/Processor.v ===== *)
(** * The processor with observable state (nexosim-util/examples/observables.rs)

    Each change of an observable state is sent to its output.  The key of the
    scheduled end of a processing belongs to the state, so it is cancelled when
    that state is replaced. *)

From stdpp Require Import base option list numbers strings relations.
From Stdlib Require Import ZArith Lia.
From S2P Require Import Prelude StableQueue PriorityQueue Time SeqFuture Scheduler Simulation Stepping SimInit Sinks F64 Bench Scenario.

Record Hk := mkHk { voltage : f64; current : f64 }.
Definition Hk_default : Hk := mkHk f64_zero f64_zero.

Inductive ModeId := ModeOff | ModeIdle | ModeProcessing.
Inductive State := Off | Idle | Processing (key : AutoActionKey).

#[export] Instance ModeId_eq_dec : EqDecision ModeId.
Proof. solve_decision. Defined.

Definition observe (s : State) : ModeId :=
  match s with
  | Off => ModeOff
  | Idle => ModeIdle
  | Processing _ => ModeProcessing
  end.

(** The three observable states, with the sinks of their outputs. *)
Record Processor := mkProcessor {
  state : State;
  acc : Z;
  elc : Hk;
  mode_out : EventBuffer ModeId;
  value_out : EventBuffer Z;
  hk_out : EventBuffer Hk;
}.

Definition Processor_new : Processor := mkProcessor Off 0 Hk_default buffer_new buffer_new buffer_new.

Inductive ProcCall := ProcInit | SwitchPower (on : bool) | Process (dt : Z) | FinishProcessing.

Section Methods.
Context {T : Type} `{MonotonicTime T}.
Context {Q : Type} `{!StableQueue Q (T * Z) (Action ProcCall nat Empty_set)}.
Abbreviation Shared := (Shared Q T).

(** The previous state is dropped, with its key. *)
Definition drop_state (s : State) (sh : Shared) : Shared :=
  match s with
  | Processing key => set_flags (AutoActionKey_drop (key_flags sh) key) sh
  | _ => sh
  end.

Definition set_state (s : State) (self : Processor) (sh : Shared) : Processor * Shared :=
  (mkProcessor s (acc self) (elc self) (buffer_write (observe s) (mode_out self)) (value_out self) (hk_out self),
   drop_state (state self) sh).
Definition set_acc (a : Z) (self : Processor) : Processor :=
  mkProcessor (state self) a (elc self) (mode_out self) (buffer_write a (value_out self)) (hk_out self).
Definition set_elc (hk : Hk) (self : Processor) : Processor :=
  mkProcessor (state self) (acc self) hk (mode_out self) (value_out self) (buffer_write hk (hk_out self)).

Definition switch_power (on : bool) (self : Processor) (sh : Shared) : Processor * Shared :=
  if on then
    let (self, sh) := set_state Idle self sh in
    (set_acc 0 (set_elc (mkHk (f64_lit 55 10) (f64_lit 1 10)) self), sh)
  else
    let (self, sh) := set_state Off self sh in
    (set_acc 0 (set_elc Hk_default self), sh).

Definition process (dt : Z) (self : Processor) (sh : Shared) : outcome (Processor * Shared) :=
  match observe (state self) with
  | ModeIdle | ModeProcessing =>
      let! (r, sh) := Context_schedule_keyed_event (model_cx 0) (millis dt) FinishProcessing sh in
      match r with
      | Ok key =>
          let (self, sh) := set_state (Processing (ActionKey_into_auto key)) self sh in
          Done (set_elc (mkHk (voltage (elc self)) f64_one) self, sh)
      | Err _ => Panicked
      end
  | ModeOff => Done (self, sh)
  end.

(** The accumulator is a u16. *)
Definition finish_processing (self : Processor) (sh : Shared) : outcome (Processor * Shared) :=
  let (self, sh) := set_state Idle self sh in
  let! _ := rust_assert (acc self + 1 <=? 65535)%Z in
  let self := set_acc (acc self + 1) self in
  Done (set_elc (mkHk (voltage (elc self)) (f64_lit 1 10)) self, sh).

(** [propagate] on each state. *)
Definition Processor_init (self : Processor) : Processor :=
  mkProcessor (state self) (acc self) (elc self) (buffer_write (observe (state self)) (mode_out self))
    (buffer_write (acc self) (value_out self)) (buffer_write (elc self) (hk_out self)).

Definition processor_handle (c : ProcCall) (x : Processor) (sh : Shared) : outcome (Processor * Shared) :=
  match c with
  | ProcInit => Done (Processor_init x, sh)
  | SwitchPower on => Done (switch_power on x sh)
  | Process dt => process dt x sh
  | FinishProcessing => finish_processing x sh
  end.

#[export] Instance processor_ops : BenchOps ProcCall Processor Q := {|
  handle := λ a c x sh,
    match a with
    | 0 => let! (x, sh) := processor_handle c x sh in Done (x, sh, [])
    | _ => Panicked
    end;
  init_call := ProcInit;
  awaits := λ _ _, false;
|}.
End Methods.

(** ** The scenario ([main]) *)

Local Open Scope scenario_scope.
Abbreviation ProcScenario := (Scenario (Call := ProcCall) (St := Processor)).

Definition next_outs (x : Processor) : option ModeId * option Z * option Hk * Processor :=
  let (m, bm) := buffer_next (mode_out x) in
  let (v, bv) := buffer_next (value_out x) in
  let (h, bh) := buffer_next (hk_out x) in
  (m, v, h, mkProcessor (state x) (acc x) (elc x) bm bv bh).

Definition same (a b : f64) : bool := f64_ltb (f64_abs (f64_sub a b)) (f64_lit 1 1000000000000).

Definition expect (mode_ex : option ModeId) (value_ex : option Z) (voltage_ex current_ex : f64) :
    ProcScenario unit :=
  do! (m, v, h) := s_sink next_outs in
  do! _ := s_assert (bool_decide (m = mode_ex)) in
  do! _ := s_assert (bool_decide (v = value_ex)) in
  s_assert match h with
           | Some h => same (voltage h) voltage_ex && same (current h) current_ex
           | None => false
           end.

Definition expect_nothing : ProcScenario unit :=
  do! (m, v, h) := s_sink next_outs in
  s_assert match m, v, h with None, None, None => true | _, _, _ => false end.

Definition observables_main (sched : Schedule) : outcome (result unit (ExecutionError TaiTime unit)) :=
  let on := f64_lit 55 10 in
  let idle := f64_lit 1 10 in
  run_scenario (mkBench (mkNet Processor_new [[]] [[]]) [] sched 1000) [(mkProto [], 0, "proc"%string)]
    (do! _ := expect (Some ModeOff) (Some 0%Z) f64_zero f64_zero in
     (* Switch processor on. *)
     do! _ := s_process_event (SwitchPower true) 0 in
     do! _ := expect (Some ModeIdle) (Some 0%Z) on idle in
     (* Trigger processing. *)
     do! _ := s_process_event (Process 100) 0 in
     do! _ := expect (Some ModeProcessing) None on f64_one in
     (* All data processed. *)
     do! _ := s_step_until 1000 (millis 101) in
     do! _ := expect (Some ModeIdle) (Some 1%Z) on idle in
     (* Trigger long processing. *)
     do! _ := s_process_event (Process 100) 0 in
     do! _ := expect (Some ModeProcessing) None on f64_one in
     (* Trigger short processing, it cancels the previous one. *)
     do! _ := s_process_event (Process 10) 0 in
     do! _ := expect (Some ModeProcessing) None on f64_one in
     do! _ := s_step_until 1000 (millis 11) in
     do! _ := expect (Some ModeIdle) (Some 2%Z) on idle in
     (* No state change as the long processing has been cancelled. *)
     do! _ := s_step_until 1000 (millis 100) in
     expect_nothing).

(** The example runs to its end, on two schedules. *)
Lemma observables_main_succeeds : observables_main in_order = Done (Ok tt) ∧ observables_main last_first = Done (Ok tt).
Proof. split; vm_compute; reflexivity. Qed.
