(* ===== verification/Detector.v ===== *)
(** * The detector and the counter (nexosim-util/examples/simulation_driven.rs)

    A detector sends pulses at random times to a counter, which is switched on
    with a delay; a ticker keeps the simulation alive.  Addresses: the detector
    is 0, the counter 1, the ticker 2. *)

From stdpp Require Import base option list numbers strings relations.
From Stdlib Require Import ZArith Lia.
From S2P Require Import Prelude StableQueue PriorityQueue Time SeqFuture Scheduler Simulation Stepping SimInit Sinks F64 Bench Scenario Ticker.

Definition SWITCH_ON_DELAY : Duration := mkDuration 1 0.
Definition MAX_PULSE_PERIOD : Z := 100.
Definition TICK : Duration := millis 100.

Inductive Mode := Off | On.
#[export] Instance Mode_eq_dec : EqDecision Mode.
Proof. solve_decision. Defined.

Inductive Event := EvMode (m : Mode) | EvCount (c : Z).
#[export] Instance Event_eq_dec : EqDecision Event.
Proof. solve_decision. Defined.

Record Counter := mkCounter { state : Mode; acc : Z }.
Record Detector := mkDetector { next : option ActionKey }.

Definition Counter_new : Counter := mkCounter Off 0.
Definition Detector_new : Detector := mkDetector None.

Inductive PulseCall :=
| PulseInit
| PowerIn (on : bool)
| CountPulse
| CounterSwitchOn
| SwitchOn
| SwitchOff
| Pulse
| TickerTick.

Definition detector_addr : nat := 0.
Definition counter_addr : nat := 1.
Definition ticker_addr : nat := 2.

(** ** Random periods

    [rand] gives the n-th draw of [gen_range(1..MAX_PULSE_PERIOD)]. *)
Section Methods.
Context (rand : nat → Z).
Context {T : Type} `{MonotonicTime T}.
Context {Q : Type} `{!StableQueue Q (T * Z) (Action PulseCall nat Empty_set)}.
Abbreviation Shared := (Shared Q T).
Abbreviation sends := (list (nat * PulseCall)).

(** The counter with the event that it sends, if any. *)
Definition Counter_switch_on (self : Counter) : Counter * option Event :=
  (mkCounter On (acc self), Some (EvMode On)).
Definition Counter_switch_off (self : Counter) : Counter * option Event :=
  (mkCounter Off (acc self), Some (EvMode Off)).

(** The count is a u64. *)
Definition Counter_pulse (self : Counter) : outcome (Counter * option Event) :=
  let! _ := rust_assert (acc self + 1 <=? u64_max)%Z in
  Done (mkCounter (state self) (acc self + 1), Some (EvCount (acc self + 1))).

Definition Counter_power_in (on : bool) (self : Counter) (sh : Shared) :
    outcome (Counter * option Event * Shared) :=
  match state self, on with
  | Off, true =>
      let! (r, sh) :=
        Context_schedule_event (model_cx counter_addr) SWITCH_ON_DELAY CounterSwitchOn sh in
      match r with Ok _ => Done (self, None, sh) | Err _ => Panicked end
  | On, false => let (c, e) := Counter_switch_off self in Done (c, e, sh)
  | _, _ => Done (self, None, sh)
  end.

(** The [n]-th draw; the previous key is dropped, which does not cancel it. *)
Definition Detector_schedule_next (n : nat) (self : Detector) (sh : Shared) :
    outcome (Detector * Shared) :=
  let! (r, sh) := Context_schedule_keyed_event (model_cx detector_addr) (millis (rand n)) Pulse sh in
  match r with Ok key => Done (mkDetector (Some key), sh) | Err _ => Panicked end.

Definition Detector_switch_on := Detector_schedule_next.
Definition Detector_switch_off (self : Detector) : Detector := mkDetector None.
Definition Detector_pulse (n : nat) (self : Detector) (sh : Shared) : outcome (Detector * Shared * sends) :=
  let! (d, sh) := Detector_schedule_next n self sh in
  Done (d, sh, [(counter_addr, CountPulse)]).

Record Station := mkStation {
  detector : Detector;
  counter : Counter;
  draws : nat;
  observed : list Event;
}.

Definition observe_event (e : option Event) (l : list Event) : list Event := l ++ option_list e.

Definition detector_handle (c : PulseCall) (x : Station) (sh : Shared) : outcome (Station * Shared * sends) :=
  match c with
  | PulseInit => Done (x, sh, [])
  | SwitchOn =>
      let! (d, sh) := Detector_switch_on (draws x) (detector x) sh in
      Done (mkStation d (counter x) (S (draws x)) (observed x), sh, [])
  | SwitchOff => Done (mkStation (Detector_switch_off (detector x)) (counter x) (draws x) (observed x), sh, [])
  | Pulse =>
      let! (d, sh, os) := Detector_pulse (draws x) (detector x) sh in
      Done (mkStation d (counter x) (S (draws x)) (observed x), sh, os)
  | _ => Panicked
  end.

Definition counter_handle (c : PulseCall) (x : Station) (sh : Shared) : outcome (Station * Shared * sends) :=
  let set c e sh : outcome (Station * Shared * sends) :=
    Done (mkStation (detector x) c (draws x) (observe_event e (observed x)), sh, []) in
  match c with
  | PulseInit => Done (x, sh, [])
  | PowerIn on => let! (c, e, sh) := Counter_power_in on (counter x) sh in set c e sh
  | CountPulse => let! (c, e) := Counter_pulse (counter x) in set c e sh
  | CounterSwitchOn => let (c, e) := Counter_switch_on (counter x) in set c e sh
  | _ => Panicked
  end.

Definition ticker_handle (c : PulseCall) (x : Station) (sh : Shared) : outcome (Station * Shared * sends) :=
  match c with
  | PulseInit =>
      let! (_, sh) := Ticker_init TickerTick (Ticker_new TICK) (model_cx ticker_addr) sh in
      Done (x, sh, [])
  | TickerTick => Done (x, sh, [])
  | _ => Panicked
  end.

#[local] Instance station_ops : BenchOps PulseCall Station Q := {|
  handle := λ a,
    match a with
    | 0 => detector_handle
    | 1 => counter_handle
    | 2 => ticker_handle
    | _ => λ _ _ _, Panicked
    end;
  init_call := PulseInit;
  awaits := λ _ _, false;
|}.
End Methods.

(** ** A run

    The counter and the detector are switched on as in [main]; a draw is always
    50 ms.  Then the detector is switched off. *)

Local Open Scope scenario_scope.
Definition example_rand (n : nat) : Z := 50.
Abbreviation StationScenario := (Scenario (Call := PulseCall) (St := Station)).
#[local] Existing Instance station_ops.
#[local] Instance example_station : BenchOps (T := TaiTime) PulseCall Station
    (PriorityQueue (TaiTime * Z) (Action PulseCall nat Empty_set)) := station_ops example_rand.

Definition s_count : StationScenario Z := s_sink (λ x, (acc (counter x), x)).
Definition s_observed : StationScenario (list Event) := s_sink (λ x, (observed x, x)).

Definition station_run {A} (sched : Schedule) (p : StationScenario A) : outcome (result A (ExecutionError TaiTime unit)) :=
  run_scenario
    (mkBench (mkNet (mkStation Detector_new Counter_new 0 []) (replicate 3 []) (replicate 3 [])) [] sched 1000)
    [(mkProto [], detector_addr, "detector"%string); (mkProto [], counter_addr, "counter"%string);
     (mkProto [], ticker_addr, "ticker"%string)] p.

(** The calls of [main]: ten detections are counted. *)
Definition detections : StationScenario (list Event) :=
  do! _ := s_schedule_event (millis 1) (PowerIn true) counter_addr in
  do! _ := s_step_until 1000 (millis 1001) in
  do! _ := s_schedule_event (millis 100) SwitchOn detector_addr in
  do! _ := s_step_until 1000 (millis 600) in
  s_observed.

Example detections_observed :
  Forall (λ sched, station_run sched detections =
    Done (Ok (EvMode On :: (EvCount <$> [1; 2; 3; 4; 5; 6; 7; 8; 9; 10]%Z)))) [in_order; last_first].
Proof. repeat constructor; vm_compute; reflexivity. Qed.

(** Switching the detector off does not stop it: the key is dropped without
    being cancelled, so the scheduled detection takes place and schedules the
    next one. *)
Lemma detector_switch_off_ignored :
  station_run in_order
    (do! _ := s_process_event SwitchOn detector_addr in
     do! _ := s_step_until 1000 (millis 100) in
     do! before := s_count in
     do! _ := s_process_event SwitchOff detector_addr in
     do! _ := s_step_until 1000 (millis 1000) in
     do! after := s_count in
     sret (before, after)) = Done (Ok (2, 22)%Z).
Proof. vm_compute. reflexivity. Qed.

(** Power that is cut during the switch-on delay is ignored: the counter
    switches on all the same. *)
Lemma counter_power_off_ignored :
  station_run in_order
    (do! _ := s_process_event (PowerIn true) counter_addr in
     do! _ := s_process_event (PowerIn false) counter_addr in
     do! _ := s_step_until 1000 (millis 2000) in
     s_observed) = Done (Ok [EvMode On]).
Proof. vm_compute. reflexivity. Qed.
