(* ===== verification/Listener.v ===== *)
(** * Listeners of external messages (examples/infinite_loop.rs and
    examples/external_input.rs)

    A listener polls a channel of the standard library, which other threads
    fill, every [PERIOD]. *)

From stdpp Require Import base option list numbers strings relations.
From Stdlib Require Import ZArith Lia.
From S2P Require Import Prelude StableQueue PriorityQueue Time SeqFuture Scheduler Simulation Stepping SimInit Sinks F64 Bench Scenario.

Definition DELTA : Duration := millis 2.
Definition PERIOD : Duration := millis 20.
Definition N : nat := 10.
Definition SHUTDOWN_SIGNAL : string := "<SHUTDOWN>".

(** [rx] has the messages that were sent and not yet received. *)
Record Listener := mkListener { rx : list string; message : EventBuffer string }.

Definition Listener_new (capacity : nat) : Listener := mkListener [] (buffer_with_capacity capacity).

(** [Receiver::try_recv]; no message and no sender are both errors. *)
Definition try_recv (l : list string) : option (string * list string) :=
  match l with [] => None | m :: l => Some (m, l) end.

(** [process]: one iteration per message, so the length of the channel is
    enough fuel. *)
Fixpoint process_loop (fuel : nat) (self : Listener) : Listener :=
  match fuel, try_recv (rx self) with
  | S fuel, Some (m, l) => process_loop fuel (mkListener l (buffer_write m (message self)))
  | _, _ => self
  end.
Definition process (self : Listener) : Listener := process_loop (length (rx self)) self.

(** ** The UDP server of external_input.rs *)

(** What [recv_from] returns: the text of the packet, if it is UTF-8, or an
    error. *)
Inductive Recv := Packet (text : option string) | Interrupted | OtherError.

(** The messages that are sent to the listener; [open] says that the receiver
    still exists. *)
Fixpoint listen (open : bool) (l : list Recv) : list string :=
  match l with
  | [] => []
  | Packet None :: l => listen open l
  | Packet (Some m) :: l =>
      if bool_decide (m = SHUTDOWN_SIGNAL) then []
      else if open then m :: listen open l else []
  | Interrupted :: l => listen open l
  | OtherError :: _ => []
  end.

(** ** The barrier of external_input.rs *)

(** The flag behind the mutex. *)
Definition WaitBarrier_new : bool := false.
Definition Notifier_notify (pending : bool) : bool := false.
(** Does [wait] return at once? [wait_while] waits as long as the condition
    holds. *)
Definition wait_returns (pending : bool) : bool := negb pending.

(** The barrier never holds the client back: its flag is false from the start,
    before the server has called [notify]. *)
Lemma barrier_never_waits n : wait_returns (Nat.iter n Notifier_notify WaitBarrier_new) = true.
Proof. by destruct n. Qed.

(** ** The bench *)

Inductive ListenCall := ListenInit | ProcessMsgs.

Section Bench.
Context {T : Type} `{MonotonicTime T}.
Context {Q : Type} `{!StableQueue Q (T * Z) (Action ListenCall nat Empty_set)}.
Abbreviation Shared := (Shared Q T).

Definition Listener_init (sh : Shared) : outcome Shared :=
  let! (r, sh) := Context_schedule_periodic_event (model_cx 0) DELTA PERIOD ProcessMsgs sh in
  match r with Ok _ => Done sh | Err _ => Panicked end.

#[export] Instance listener_ops : BenchOps ListenCall Listener Q := {|
  handle := λ a c x sh,
    match a, c with
    | 0, ListenInit => let! sh := Listener_init sh in Done (x, sh, [])
    | 0, ProcessMsgs => Done (process x, sh, [])
    | _, _ => Panicked
    end;
  init_call := ListenInit;
  awaits := λ _ _, false;
|}.
End Bench.

(** ** Every message is collected once, in order *)

(** What happens to a listener: a message is sent, or it polls. *)
Inductive lop := Sent (m : string) | Polls.

Definition lstep (o : lop) (self : Listener) : Listener :=
  match o with
  | Sent m => mkListener (rx self ++ [m]) (message self)
  | Polls => process self
  end.

Definition sent_of (ops : list lop) : list string :=
  omap (λ o, match o with Sent m => Some m | Polls => None end) ops.

Lemma process_collects self :
  process self = mkListener [] (buffer_writes (rx self) (message self)).
Proof.
  unfold process. destruct self as [l b]. simpl.
  revert b. induction l as [|m l IH]; intros b; simpl; [done|]. by rewrite IH.
Qed.

Lemma listener_inv cap ops : 0 < cap → length (sent_of ops) ≤ cap →
  let l := fold_left (λ x o, lstep o x) ops (Listener_new cap) in
  ∃ got, message l = mkBuffer cap true got ∧ got ++ rx l = sent_of ops.
Proof.
  intros Hc. induction ops as [|o ops IH] using rev_ind; intros Hl; [by exists []|].
  unfold sent_of in *. rewrite omap_app in *. rewrite length_app in Hl.
  rewrite fold_left_app. simpl. destruct IH as (got & Hm & Hg); [lia|]. simpl in *.
  destruct o as [m|]; simpl in *.
  - exists got. split; [done|]. by rewrite app_assoc, Hg.
  - exists (got ++ rx (fold_left (λ x o, lstep o x) ops (Listener_new cap))).
    rewrite process_collects, Hm. simpl. rewrite !app_nil_r. split; [|done].
    assert (length got + length (rx (fold_left (λ x o, lstep o x) ops (Listener_new cap))) ≤ cap) as Hlen
      by (rewrite <-length_app, Hg; lia).
    rewrite buffer_writes_last; simpl; [|done|done|lia].
    rewrite last_n_short; [done|]. rewrite length_app. lia.
Qed.

(** Whatever the order in which messages are sent and polls take place, after a
    poll the sink has every message once, in the order of the sends. *)
Lemma listener_collects cap ops : 0 < cap → length (sent_of ops) ≤ cap →
  fold_left (λ x o, lstep o x) (ops ++ [Polls]) (Listener_new cap) =
  mkListener [] (mkBuffer cap true (sent_of ops)).
Proof.
  intros Hc Hl. rewrite fold_left_app. simpl. rewrite process_collects.
  destruct (listener_inv cap ops Hc Hl) as (got & Hm & Hg). rewrite Hm.
  assert (length got + length (rx (fold_left (λ x o, lstep o x) ops (Listener_new cap))) ≤ cap) as Hlen
    by (rewrite <-length_app, Hg; lia).
  f_equal. rewrite buffer_writes_last; simpl; [|done|done|lia].
  by rewrite last_n_short, Hg by (rewrite length_app; lia).
Qed.

(** ** A run of infinite_loop.rs

    The simulation keeps up with real time: while the main thread sleeps, as
    much simulation time passes. *)

Local Open Scope scenario_scope.
Abbreviation ListenScenario := (Scenario (Call := ListenCall) (St := Listener)).

Definition s_send (m : string) : ListenScenario unit := s_sink (λ x, (tt, lstep (Sent m) x)).

Fixpoint send_all (i : nat) (l : list string) : ListenScenario unit :=
  match l with
  | [] => sret tt
  | m :: l =>
      do! _ := s_send m in
      do! _ := (if (i mod 3 =? 0) && negb (i =? 0)
                then s_step_until 1000 (millis (20 * Z.of_nat i)) else sret tt) in
      send_all (S i) l
  end.

Definition digits : list string := ["0"; "1"; "2"; "3"; "4"; "5"; "6"; "7"; "8"; "9"]%string.

Definition infinite_loop_run (sched : Schedule) : outcome (result (list string) (ExecutionError TaiTime unit)) :=
  run_scenario (mkBench (mkNet (Listener_new (N + 1)) [[]] [[]]) [] sched 1000)
    [(mkProto [], 0, "listener"%string)]
    (do! _ := send_all 0 digits in s_sink (λ x, (buffer (message x), x))).

Example infinite_loop_collects :
  infinite_loop_run in_order = Done (Ok digits) ∧ infinite_loop_run last_first = Done (Ok digits).
Proof. split; vm_compute; reflexivity. Qed.
