(* ===== verification/Examples.v ===== *)
(** * The [main] functions of the examples

    The scenarios of examples/espresso_machine.rs, examples/stepper_motor.rs and
    examples/assembly.rs, on the models of the scheduler, the priority queue and
    the simulation loop.  The lemmas evaluate them on two schedules of the
    bench; they are tests of the models and no claims about every schedule. *)

From stdpp Require Import base tactics option list numbers strings relations.
From Stdlib Require Import ZArith Lia.
From S2P Require Import Prelude StableQueue PriorityQueue Time SeqFuture Scheduler Simulation Stepping SimInit Sinks F64 Bench Scenario PowerSupply Overheat Telemetry Processor Espresso Stepper.

Local Open Scope scenario_scope.

(** ** The espresso machine

    Shots are brewed until the tank is dry, the tank is filled again and a brew
    is interrupted. *)

(** [flow_rate.next()]. *)
Definition next_flow (m : Machine TaiTime) : option f64 * Machine TaiTime :=
  let (o, s) := slot_next (flow_slot m) in
  (o, mkMachine (controller m) (pump m) (tank m) s (last_cmd m) (last_rate m) (sensing m)).

(** [assert_eq!(flow_rate.next(), expected)] and [assert_eq!(simu.time(), t)]. *)
Definition assert_flow (expected : option f64) : Scenario (Call := EspressoCall) unit :=
  do! o := s_sink next_flow in
  s_assert match o, expected with
           | Some x, Some y => f64_eqb x y
           | None, None => true
           | _, _ => false
           end.
Definition assert_time (t : TaiTime) : Scenario (Call := EspressoCall) (St := Machine TaiTime) unit :=
  do! now := s_time in s_assert (bool_decide (now = t)).

Definition brew : Scenario (Call := EspressoCall) (St := Machine TaiTime) unit :=
  s_process_event BrewCmd controller_addr.

(** One shot: the pump runs for the brew time. *)
Definition shot (rate : f64) (brew_time : Duration) (t : TaiTime) :
    Scenario (Call := EspressoCall) TaiTime :=
  do! _ := brew in
  do! _ := assert_flow (Some rate) in
  do! _ := s_step in
  do! t := s_lift (mt_add t brew_time) in
  do! _ := assert_time t in
  do! _ := assert_flow (Some f64_zero) in
  sret t.

Fixpoint shots (n : nat) (rate : f64) (brew_time : Duration) (t : TaiTime) :
    Scenario (Call := EspressoCall) TaiTime :=
  match n with
  | O => sret t
  | S n => do! t := shot rate brew_time t in shots n rate brew_time t
  end.

Definition espresso_scenario (rate vol : f64) : Scenario (Call := EspressoCall) unit :=
  let t0 : TaiTime := MT_EPOCH in
  do! _ := assert_time t0 in
  (* Brew one espresso shot with the default brew time. *)
  do! t := shot rate DEFAULT_BREW_TIME t0 in
  (* Drink too much coffee. *)
  let volume_per_shot := f64_mul rate (as_secs_f64 DEFAULT_BREW_TIME) in
  let shots_per_tank := f64_to_uint u64_max (f64_div vol volume_per_shot) in
  do! t := shots (Z.to_nat shots_per_tank - 1) rate DEFAULT_BREW_TIME t in
  (* The tank becomes empty before the completion of the next shot. *)
  do! _ := brew in
  do! _ := s_step in
  do! now := s_time in
  do! limit := s_lift (mt_add t DEFAULT_BREW_TIME) in
  do! _ := s_assert (now <?ₒ limit) in
  let t := now in
  do! _ := assert_flow (Some f64_zero) in
  (* Try to brew another shot while the tank is still empty. *)
  do! _ := brew in
  do! _ := assert_flow None in
  (* Change the brew time and fill up the tank. *)
  let brew_time := mkDuration 30 0 in
  do! _ := s_process_event (BrewTime brew_time) controller_addr in
  do! _ := s_process_event (Fill (f64_lit 1 1000)) tank_addr in
  do! t := shot rate brew_time t in
  (* Interrupt the brew after 15s by pressing again the brew button. *)
  do! _ := s_schedule_event (mkDuration 15 0) BrewCmd controller_addr in
  do! _ := brew in
  do! _ := assert_flow (Some rate) in
  do! _ := s_step in
  do! t := s_lift (mt_add t (mkDuration 15 0)) in
  do! _ := assert_time t in
  do! _ := assert_flow (Some f64_zero) in
  sret tt.

Definition espresso_main (sched : Schedule) : outcome (result unit (ExecutionError TaiTime unit)) :=
  let pump_flow_rate := f64_lit 45 10000000 in
  let init_tank_volume := f64_lit 15 10000 in
  let! tank := Tank_new init_tank_volume in
  run_scenario (mkBench (espresso_net pump_flow_rate tank) [] sched 1000)
    [(mkProto [], controller_addr, "controller"%string); (mkProto [], pump_addr, "pump"%string);
     (mkProto [], tank_addr, "tank"%string)]
    (espresso_scenario pump_flow_rate init_tank_volume).

(** The example runs to its end, on two schedules. *)
Lemma espresso_main_succeeds : espresso_main in_order = Done (Ok tt) ∧ espresso_main last_first = Done (Ok tt).
Proof. split; vm_compute; reflexivity. Qed.

(** A flow rate that is positive but tiny panics: the time until the tank is
    empty does not fit a [Duration]. *)
Lemma tiny_flow_rate_panics :
  f64_ltb f64_zero (f64_lit 1 (10 ^ 25)) = true ∧
  Tank_set_flow_rate (Q := PriorityQueue (TaiTime * Z) (Action EspressoCall nat Empty_set))
    (f64_lit 1 (10 ^ 25)) (mkTank (f64_lit 15 10000) None) (mkShared sq_new MT_EPOCH false []) = Panicked.
Proof. split; vm_compute; reflexivity. Qed.

(** ** The stepper motor, alone and in its assembly *)

Local Open Scope Z_scope.

Abbreviation StepperScenario := (Scenario (Call := MotorCall) (St := Stepper)).

Definition with_positions (b : EventBuffer Z) (x : Stepper) : Stepper :=
  mkStepper (driver x) (motor x) b.

(** [position.next()] and [position.by_ref().last()]. *)
Definition next_position (x : Stepper) : option Z * Stepper :=
  let (o, b) := buffer_next (positions x) in (o, with_positions b x).
Definition last_position (x : Stepper) : option Z * Stepper :=
  let (r, b) := buffer_try_fold (E := Empty_set) None (λ _ p, Ok (Some p)) (positions x) in
  (match r with Ok o => o | Err e => match e with end end, with_positions b x).

Definition expect_next (p : option Z) : StepperScenario unit :=
  do! o := s_sink next_position in s_assert (bool_decide (o = p)).
Definition expect_last (p : Z) : StepperScenario unit :=
  do! o := s_sink last_position in s_assert (bool_decide (o = Some p)).
Definition expect_time (t : TaiTime) : StepperScenario unit :=
  do! now := s_time in s_assert (bool_decide (now = t)).

(** [t += d; assert_eq!(simu.time(), t)]. *)
Definition advance (d : Duration) (t : TaiTime) : StepperScenario TaiTime :=
  do! t := s_lift (mt_add t d) in
  do! _ := expect_time t in
  sret t.

Definition ms100 (n : Z) : Duration := mkDuration 0 (n * 100000000).

(** [n] increments of the position, each observed. *)
Fixpoint increments (n : nat) (pos : Z) : StepperScenario Z :=
  match n with
  | O => sret pos
  | S n =>
      let pos := (pos + 1) `mod` STEPS_PER_REV in
      do! _ := expect_next (Some pos) in
      increments n pos
  end.

Definition step_fuel : nat := 1000.

(** The part that both programs have: the driver gets its rate at [rate_addr],
    the rotor synchronizes and makes nine steps. *)
Definition start_scenario (rate_addr : nat) (init_pos : Z) : StepperScenario (TaiTime * Z) :=
  let t : TaiTime := MT_EPOCH in
  do! _ := expect_time t in
  do! _ := expect_next (Some init_pos) in
  do! _ := expect_next None in
  (* Start the motor in 2s with a PPS of 10Hz. *)
  do! _ := s_schedule_event (mkDuration 2 0) (PulseRate (f64_of_Z 10)) rate_addr in
  do! _ := s_step in
  do! t := advance (mkDuration 2 0) t in
  do! _ := s_step in
  do! t := advance (ms100 1) t in
  let pos := sync_pos init_pos in
  do! _ := expect_last pos in
  (* Advance simulation time by 0.9s. *)
  do! _ := s_step_until step_fuel (ms100 9) in
  do! t := advance (ms100 9) t in
  do! pos := increments 9 pos in
  do! _ := expect_next None in
  sret (t, pos).

Definition stepper_scenario (init_pos : Z) : StepperScenario unit :=
  do! (t, pos) := start_scenario driver_addr init_pos in
  (* Increase the load beyond the torque limit: the motor is blocked. *)
  do! _ := s_process_event (Load (f64_of_Z 2)) motor_addr in
  do! _ := s_step in
  do! t := advance (ms100 1) t in
  do! _ := expect_next None in
  do! _ := s_step in
  do! t := advance (ms100 1) t in
  do! _ := expect_next None in
  (* Decrease the load: a step backward before it moves forward again. *)
  do! _ := s_process_event (Load (f64_lit 1 2)) motor_addr in
  do! _ := s_step in
  do! t := advance (ms100 1) t in
  let pos := (pos + STEPS_PER_REV - 1) `mod` STEPS_PER_REV in
  do! _ := expect_next (Some pos) in
  do! _ := s_step_until step_fuel (ms100 7) in
  do! t := advance (ms100 7) t in
  do! pos := increments 7 pos in
  do! _ := expect_next None in
  (* The opposite direction, from the next pulse on. *)
  do! _ := s_process_event (PulseRate (f64_of_Z (-10))) driver_addr in
  do! _ := s_step in
  do! t := advance (ms100 1) t in
  let pos := (pos + 1) `mod` STEPS_PER_REV in
  do! _ := expect_next (Some pos) in
  do! _ := s_step_until step_fuel (mkDuration 1 900000000) in
  do! t := advance (mkDuration 1 900000000) t in
  let pos := (pos + STEPS_PER_REV - 19) `mod` STEPS_PER_REV in
  expect_last pos.

Definition stepper_main (sched : Schedule) (init_pos : Z) : outcome (result unit (ExecutionError TaiTime unit)) :=
  run_scenario (mkBench (stepper_net 2 init_pos) [] sched 1000)
    [(mkProto [], driver_addr, "driver"%string); (mkProto [], motor_addr, "motor"%string)]
    (stepper_scenario init_pos).

(** The assembly adds its two submodels when it is built. *)
Definition ProtoMotorAssembly_build : Proto nat nat :=
  mkProto [(mkProto [], (driver_addr, driver_addr), "driver"%string);
           (mkProto [], (motor_addr, motor_addr), "motor"%string)].

Definition assembly_main (sched : Schedule) (init_pos : Z) : outcome (result unit (ExecutionError TaiTime unit)) :=
  run_scenario (mkBench (stepper_net 3 init_pos) [] sched 1000)
    [(ProtoMotorAssembly_build, assembly_addr, "assembly"%string)]
    (do! _ := start_scenario assembly_addr init_pos in sret tt).

(** The examples run to their end, on two schedules. *)
Lemma stepper_mains_succeed :
  Forall (λ sched, stepper_main sched 123 = Done (Ok tt) ∧ assembly_main sched 123 = Done (Ok tt))
    [in_order; last_first].
Proof. repeat constructor; vm_compute; reflexivity. Qed.
